(* ===== verification/_CoqProject ===== *)
-Q . S2P
Prelude.v
Config.v
Asio.v
Address.v
Socks5.v
Allowlist.v
CleanPath.v
Runtime.v
Logger.v
Udp.v
Buffers.v
BuffersProofs.v
Crypto.v
Effects.v
Kcp.v
History.v
Tombstones.v
Router.v
RouterProofs.v
Tunnel.v
Diagnostics.v
Coding.v
Policies.v
SocketBuffer.v
ServerLife.v
TunnelProofs.v
Flow.v
Session.v
SessionProofs.v
Connection.v
ConnectionProofs.v
ClientSession.v
ClientSessionProofs.v
Calm.v
Link.v
Widths.v
Client.v
ClientProofs.v
Relay.v
RelayServer.v
RelayServerRun.v
RelayTarget.v
RelayClient.v
RelayClientRun.v
RelayProofs.v
ClientLife.v
ClientLifeProofs.v
Cli.v
