(* ===== verification/Prelude.v ===== *)
(** * kcp-proxy-cpp: verification development

    ** The program

    A SOCKS5 proxy in two halves. The client (src/src/kcp_proxy/client.cpp,
    kcp_client_session.cpp) accepts SOCKS5 connections from local
    applications; for each it opens an encrypted KCP-over-UDP session to the
    server (server.cpp, kcp_session.cpp), which opens the TCP connection the
    application asked for and relays. Both session classes derive from
    [KcpTunnel] (kcp_tunnel.cpp), which owns the KCP machine
    (kcp_wrapper.cpp), the packet cipher (crypto.cpp) and the optional FEC
    codec. The server demultiplexes datagrams by endpoint and session salt,
    authenticates before it commits any state, and keeps a table of recent
    salts against replays. Every object is confined to an asio strand, so a
    member function or completion handler runs alone on its object: it is one
    operation of the model, and what varies is the order in which the
    environment delivers them.

    ** Files and the sources they model

    - Prelude: integers at their width, bytes, decimal printing, error codes,
      exceptions as values ([exn_result]), shared lemmas and tactics.
    - Config: config.hpp (constants, [KcpTuning], [parse_fec_config]).
    - Asio: the interface [AsioIp] of the address library, its laws,
      [TextIp], an implementation that satisfies them, and [Timer], the waits
      outstanding on a steady timer.
    - Address, Socks5, Allowlist: address.cpp, socks5.cpp,
      target_allowlist.hpp, and the CONNECT request of client.cpp.
    - CleanPath: clean_path.hpp, fec_parity.hpp, rto_floor.hpp, with the rates
      in IEEE binary64.
    - Runtime: [LogThrottle] and the levels of logger.hpp, buffer_pool.hpp.
    - Logger: logger.cpp, the formatter, the registry of module loggers and the
      level changes that walk it while other threads log, and the process's
      sink, test sink and error handler ([Backend]).
    - Udp: the batched send, the receive drain and the receive slots of
      server.cpp; the kernel's answers are parameters.
    - Buffers, BuffersProofs: the storage of the datagrams, recycled by
      buffer_pool.hpp: the output paths of kcp_session.cpp, server.cpp and
      kcp_client_session.cpp and the copy of [receive_data] as programs over
      the pool, interleaved at its lock, with [Flat], the machine of values
      they refine.
    - Crypto: crypto.cpp; the AEAD and the KDF are the class [Aead], and each
      OpenSSL failure the source checks is a value of [evp_fault].
    - Effects: the state-and-trace monad of the strand-bound objects, and the
      logic [keeps R m] (a relation between the state before, the trace and
      the state after that composes) with its hints and its walk tactic.
    - Kcp: the KCP machine and FEC codec as interfaces, kcp_wrapper.cpp, and
      [Loopback], instances that satisfy the laws.
    - History: sequences of calls into the KCP machine, the reliability it
      promises on two of them ([KcpReliable]), and [Sequenced], a go-back-N
      protocol that keeps the promise.
    - Tombstones, Router, RouterProofs: the admission of datagrams, the session
      table, teardown and the sweep of server.cpp. [RouterProofs.step]
      interleaves the phases of [get_or_create_session] between its locks with
      every other operation on the tables.
    - Tunnel, TunnelProofs: kcp_tunnel.cpp. The virtual functions of the
      concrete sessions are the classes [OutputHost] and [Host]; the theorems
      are proved against them and each session discharges them.
    - Diagnostics: the throttled rejection lines of crypto.cpp and the
      statistics line of kcp_tunnel.cpp.
    - Policies, SocketBuffer, ServerLife: the adaptive sampling and the hooks
      the tunnels read, the socket buffer report (socket_buffer.hpp), and the
      life of [KCPServer]: start, the receive drain and its backoff, the tick
      and sweep chains, sending, stop with the two handlers it dispatches
      ([on_stop_timers], [on_stop_socket]) as completions of their own, which
      may never come, destruction.
    - Session, SessionProofs: kcp_session.cpp and the write loop of server.cpp.
    - Connection, ConnectionProofs: the per-session handlers of server.cpp,
      from the protocol handshake to the two forwarding loops.
    - ClientSession, ClientSessionProofs: kcp_client_session.cpp and the write
      loop of client.cpp.
    - Client, ClientProofs: the per-connection handlers of client.cpp.
    - ClientLife, ClientLifeProofs: the life of [KCPProxyClient]: name
      resolution, the outcome of the start, the accept loop and its retry, the
      tick fan-out, traffic reports, stop.
    - Cli: cli_helpers.hpp and the two mains, from the argument vector to the
      object that is built and the lines that announce it, and from the end of
      [run] to the exit code.
    - Flow, Link: the two sessions at the ends of a hostile network. [Flow]
      follows what a tunnel lets through, against the interface of the
      sessions; [Link] composes a client session and a server session.
    - Coding: the calls into the erasure codec over a stretch of a tunnel's
      life, the guarantee an erasure code gives on them ([FecSound]), and
      [Mirror], a codec with the guarantee.
    - Calm: which operations of a session leave the relay alone.
    - Relay: the completion handlers of [Client] and of [Connection] as two
      event loops over the linked sessions, with the operations each has
      started and not yet seen complete. RelayServer and RelayServerRun,
      RelayClient and RelayClientRun: the phases of each half and what it
      says and shows, for a peer that speaks the protocol. RelayTarget: what
      the server resolves and connects to. RelayProofs puts the halves
      together.
    - Widths: the members of both sessions at the widths of their types.

    A record of the model has the members of the class it models; an operation
    has the name of its function, and a completion handler is named [on_...]
    after the operation it completes. Locks and atomics do not appear inside
    one operation, calls that dispatch to the strand ([connect], [close],
    [send_data]) take effect where they are made, except those of the
    server's [stop], whose handlers the end of the io_context may discard; effects outside the object
    (wire, completions, timers armed, posted work) are the trace. Log text is
    modelled where the code computes it from input (throttle suffixes, client
    previews, clamp and policy lines, rejections, statistics, start-up
    lines), not where it is a fixed message.

    ** What the theorems show

    - Socket to socket: run by their completion handlers in any order over a
      hostile network, the two halves of a connection write to the target a
      prefix of what the application sent, and to the application nothing, or
      the success reply and a prefix of what the target sent; and the only
      host and port the server resolves and connects to are those the
      application named (as long as no message overran its reader's buffer).
    - Storage: the recycled buffers cannot be told from values, each has one
      owner at all times, and a burst that passes its guards leaves through
      them exactly once.
    - End to end: over a network that loses, repeats, reorders, reflects,
      modifies and invents packets, with any calls and faults at both ends,
      what is read at one end is a prefix of what was queued at the other,
      with the error correction off or on, as long as no read there was given
      a buffer too small for its message.
    - Cryptography: the sliding bitmap refines the set of accepted counters,
      nonces never repeat, what one end seals the other delivers in any order
      inside the window, and a failed first packet leaves no trace.
    - Admission: an unauthenticated datagram never disturbs a session, a
      session is created only for a fresh salt, the tables, the tombstones and the
      decryption budget stay within their bounds in every reachable state, the
      sweep removes exactly what is due, and the tombstones implement their
      contract.
    - Tunnel and sessions: every read completes exactly once, reads deliver the
      queued stream in order, a flush cycle is one burst that is sent whole or
      not at all and reaches the peer unchanged, with FEC as shards that hand
      the peer's KCP the same datagrams; at most one FIN is queued, and only
      once it is enabled and asked for; a parked loop is resumed by the turn
      that makes room, a stopped session is silent, the read loop ends, and
      every member keeps a value of its type.
    - Lives: while the server or the client proxy runs, each of its chains
      (tick, sweep, reception, accept, traffic report) has exactly one
      completion outstanding, and none starts again after the stop, whose
      teardown is complete once its two dispatched handlers have run; a start reports one
      outcome; the tick reaches every live session.
    - Programs: an accepted command line is within every bound the code relies
      on; a written log line has its documented shape, timestamp included; hostile datagrams
      cannot flood the log.
    - Server connections: no connection to a restricted target without the
      operator's leave, and one verdict per CONNECT request.
    - Client: the handshake with the server and the one with the application
      each have one outcome, the reply survives any fragmentation within one buffer, a
      half-closed tunnel is always bounded, a silent server is noticed.
    - Codecs and policies: the SSRF guard is membership in the documented table of
      networks and in one NAT64 block more, where the code differs from its comment,
      the allowlist parser recognises exactly its grammar, the request parser
      inverts the client's encoder, the adaptive policy protects within one
      sampling period of a loss, and any tuning in force satisfies the
      backpressure invariant.

    Three theorems record behaviour the code's comments say it excludes:
    [RouterProofs.duplicate_salt_destroys_incumbent],
    [ClientSessionProofs.closed_session_never_reports] and
    [ClientLifeProofs.queued_resolve_revives].

    ** Parameters, bounds and fuel

    The address library, OpenSSL, the KCP machine, the FEC codec, the option
    parser and the line formatter are class parameters ([AsioIp], [Aead],
    [Kcp], [FecCodec], [Cli11], [SpdlogPattern]); their documented behaviour
    is in the [...Laws] classes and in [KcpReliable], [KcpMtu] and [FecSound],
    and [TextIp], [ToyAead], [Loopback], [Sequenced], [Mirror], [TinyCli] and
    [PlainPattern] are concrete instances, at which the witnesses evaluate. Clock values and library
    faults of a call are the record [tenv]. The integrity of the cipher enters
    [Link] as a condition on what the network can deliver ([intact]): a packet
    that opens under a direction's key has a body its sender produced. The
    two ends of [Link] use the same shard geometry, as [FecSound] needs; the
    32-bit sequence numbers of KCP and of the codec are taken not to come
    round again within a session.

    The loop of [try_fulfill_read] consumes one queued message an iteration:
    its fuel is the queue's length plus one. The loop returns whether it left
    by itself, and [read_loop_terminates] shows that it does and that any
    larger fuel computes the same. Decimal printing is given the digits its type needs. The socket loops
    recurse on the list of kernel answers. Everything else is structural.

    ** Not modelled

    The fixed log messages; what a sink of spdlog does with a line, and the
    Windows-only socket call, which only reach the system; the EVP and HKDF
    calls of OpenSSL below the level of success and failure; the functions of
    server.cpp that only tests call ([fill_salt_tombstones_for_test] and the
    counters next to it); accessors and declarations of the headers,
    whose bodies are the record projections; third-party libraries; the
    Electron GUI and the tests.

    That every chunk arrives when the network is kind is not stated: it rests
    on the retransmission of the KCP library, of which only the safety side
    ([KcpReliable]) is a parameter here.
*)

From Stdlib Require Import ZArith Lia Ascii.
From stdpp Require Import base list gmap strings numbers.

#[global] Open Scope Z_scope.

(** ** Machine integers

    An unsigned [w]-bit C++ integer is a [Z]; every operation that can leave
    the range is followed by the wrap-around the language prescribes. *)

Definition u8 (z : Z) : Z := z mod 2 ^ 8.
Definition u16 (z : Z) : Z := z mod 2 ^ 16.
Definition u32 (z : Z) : Z := z mod 2 ^ 32.
Definition u64 (z : Z) : Z := z mod 2 ^ 64.

(** The range of a signed 64-bit integer: signed overflow is undefined in
    C++, so signed values stay unwrapped and the bounds are theorems. *)
Definition fits_i64 (z : Z) : Prop := - 2 ^ 63 <= z < 2 ^ 63.
Definition fits_i32 (z : Z) : Prop := - 2 ^ 31 <= z < 2 ^ 31.

(** ** Bytes and byte strings

    [std::vector<uint8_t>], [byte_view] and [std::string] are all lists of
    byte values. *)

Definition is_byte (b : Z) : Prop := 0 <= b < 256.
Definition bytes_ok (l : list Z) : Prop := Forall is_byte l.
Definition is_u16 (p : Z) : Prop := 0 <= p < 65536.

#[export] Instance is_byte_dec b : Decision (is_byte b).
Proof. unfold is_byte. apply _. Defined.
#[export] Instance bytes_ok_dec l : Decision (bytes_ok l).
Proof. unfold bytes_ok. apply _. Defined.

Definition byte_of_ascii (a : ascii) : Z := Z.of_N (N_of_ascii a).

Fixpoint bytes_of_string (s : string) : list Z :=
  match s with
  | EmptyString => []
  | String a s' => byte_of_ascii a :: bytes_of_string s'
  end.

(** [data[i]] on a vector whose index the code has already bounded. *)
Definition byte_at (l : list Z) (i : nat) : Z := default 0 (l !! i).

(** [std::copy_n(data + off, n, ...)] / [byte_view(data + off, n)]. *)
Definition slice (off n : nat) (l : list Z) : list Z := take n (drop off l).

(** Big-endian decoding, [acc = (acc << 8) | byte] on a 64-bit accumulator. *)
Definition be_step (acc b : Z) : Z := u64 (Z.lor (Z.shiftl acc 8) b).
Definition be_value (l : list Z) : Z := foldl be_step 0 l.

(** Big-endian encoding, filled from the last byte to the first with
    [byte = v & 0xFF; v >>= 8]. *)
Fixpoint be_bytes (n : nat) (v : Z) : list Z :=
  match n with
  | O => []
  | S n' => be_bytes n' (Z.shiftr v 8) ++ [Z.land v 255]
  end.

(** ** Decimal text

    [fmt::format("{}", n)] on a non-negative integer of at most 64 bits: 20
    digits are enough, since 2^64 < 10^20. *)
Fixpoint dec_go (fuel : nat) (n : Z) : list Z :=
  match fuel with
  | O => []
  | S f => if n <? 10 then [48 + n] else dec_go f (n / 10) ++ [48 + n mod 10]
  end.
Definition dec_bytes (n : Z) : list Z := dec_go 20 n.

(** The same on a signed integer. *)
Definition int_bytes (n : Z) : list Z := if n <? 0 then 45 :: dec_bytes (- n) else dec_bytes n.

Definition is_digit (c : Z) : bool := (48 <=? c) && (c <=? 57).

(** [std::stol] on a string already known to be decimal digits. *)
Definition dec_value (l : list Z) : Z := foldl (fun acc c => acc * 10 + (c - 48)) 0 l.

(** [s.find(c)]: index of the first occurrence, [None] for [npos]. *)
Fixpoint find_byte (c : Z) (l : list Z) : option nat :=
  match l with
  | [] => None
  | b :: l' => if b =? c then Some 0%nat else S <$> find_byte c l'
  end.

(** [s.rfind(c)]: index of the last occurrence. *)
Fixpoint rfind_byte (c : Z) (l : list Z) : option nat :=
  match l with
  | [] => None
  | b :: l' =>
      match rfind_byte c l' with
      | Some i => Some (S i)
      | None => if b =? c then Some 0%nat else None
      end
  end.

(** ** Exceptions: a computation that either returns or throws a message. *)

Inductive exn_result (A : Type) : Type :=
| Ret (a : A)
| Throw (what : list Z).
Arguments Ret {A} a.
Arguments Throw {A} what.

(** ** Error codes

    The [std::error_code] values the sources produce or compare against:
    [std::errc] values, the module's own [crypto_errors::errc] and the
    [asio::error] values. *)

Inductive error_code : Type :=
| ec_none
| ec_invalid_argument
| ec_permission_denied
| ec_value_too_large
| ec_io_error
| ec_replay
| ec_auth_failed
| ec_operation_aborted
| ec_already_started
| ec_message_size
| ec_eof
| ec_connection_refused
| ec_connection_reset
| ec_network_unreachable
| ec_host_unreachable
| ec_timed_out
| ec_other (value : Z).

#[export] Instance error_code_eq_dec : EqDecision error_code.
Proof. solve_decision. Defined.

(** [if (ec)] on an [std::error_code]: true on any error. *)
Definition ec_failed (e : error_code) : bool :=
  match e with ec_none => false | _ => true end.

(** ** Tactics *)

Create HintDb kcp.

(** Split a boolean condition that appears in the goal or a hypothesis. *)
Ltac case_bool :=
  match goal with
  | |- context [if ?b then _ else _] =>
      lazymatch type of b with bool => destruct b eqn:? end
  | H : context [if ?b then _ else _] |- _ =>
      lazymatch type of b with bool => destruct b eqn:? end
  end.

(** Turn boolean comparisons in the hypotheses into propositions. *)
Ltac zb_props :=
  repeat match goal with
  | H : (_ && _)%bool = true |- _ => apply andb_true_iff in H as [? ?]
  | H : (_ || _)%bool = false |- _ => apply orb_false_iff in H as [? ?]
  | H : negb _ = true |- _ => apply negb_true_iff in H
  | H : negb _ = false |- _ => apply negb_false_iff in H
  | H : (_ =? _) = true |- _ => apply Z.eqb_eq in H
  | H : (_ =? _) = false |- _ => apply Z.eqb_neq in H
  | H : (_ <? _) = true |- _ => apply Z.ltb_lt in H
  | H : (_ <? _) = false |- _ => apply Z.ltb_ge in H
  | H : (_ <=? _) = true |- _ => apply Z.leb_le in H
  | H : (_ <=? _) = false |- _ => apply Z.leb_gt in H
  | H : (_ >=? _) = true |- _ => rewrite Z.geb_leb in H; apply Z.leb_le in H
  | H : (_ >=? _) = false |- _ => rewrite Z.geb_leb in H; apply Z.leb_gt in H
  | H : (_ >? _) = true |- _ => rewrite Z.gtb_ltb in H; apply Z.ltb_lt in H
  | H : (_ >? _) = false |- _ => rewrite Z.gtb_ltb in H; apply Z.ltb_ge in H
  | H : (_ =? _)%nat = true |- _ => apply Nat.eqb_eq in H
  | H : (_ =? _)%nat = false |- _ => apply Nat.eqb_neq in H
  | H : (_ <? _)%nat = true |- _ => apply Nat.ltb_lt in H
  | H : (_ <? _)%nat = false |- _ => apply Nat.ltb_ge in H
  | H : (_ <=? _)%nat = true |- _ => apply Nat.leb_le in H
  | H : (_ <=? _)%nat = false |- _ => apply Nat.leb_gt in H
  | H : bool_decide _ = true |- _ => apply bool_decide_eq_true in H
  | H : bool_decide _ = false |- _ => apply bool_decide_eq_false in H
  end.

(** Case analysis on every condition, then linear arithmetic. *)
Ltac bool_lia := repeat case_bool; zb_props; try lia.

(** ** Lemmas on machine integers *)

Lemma u8_range z : 0 <= u8 z < 256.
Proof. unfold u8. apply Z.mod_pos_bound. lia. Qed.
Lemma u16_range z : 0 <= u16 z < 65536.
Proof. unfold u16. apply Z.mod_pos_bound. lia. Qed.
Lemma u32_range z : 0 <= u32 z < 2 ^ 32.
Proof. unfold u32. apply Z.mod_pos_bound. lia. Qed.
Lemma u64_range z : 0 <= u64 z < 2 ^ 64.
Proof. unfold u64. apply Z.mod_pos_bound. lia. Qed.
Lemma u64_small z : 0 <= z < 2 ^ 64 -> u64 z = z.
Proof. intros. unfold u64. by apply Z.mod_small. Qed.
Lemma u32_small z : 0 <= z < 2 ^ 32 -> u32 z = z.
Proof. intros. unfold u32. by apply Z.mod_small. Qed.
Lemma u16_small z : 0 <= z < 2 ^ 16 -> u16 z = z.
Proof. intros. unfold u16. by apply Z.mod_small. Qed.
Lemma u8_small z : 0 <= z < 2 ^ 8 -> u8 z = z.
Proof. intros. unfold u8. by apply Z.mod_small. Qed.

Lemma land_255 z : Z.land z 255 = z mod 256.
Proof. change 255 with (Z.ones 8). by rewrite Z.land_ones. Qed.

Lemma shiftr_8 z : Z.shiftr z 8 = z / 256.
Proof. by rewrite Z.shiftr_div_pow2. Qed.

(** A byte has no bit in common with a multiple of 256. *)
Lemma land_mul_256 a b : is_byte b -> Z.land (a * 256) b = 0.
Proof.
  intros Hb. unfold is_byte in Hb. apply Z.bits_inj'. intros n Hn.
  rewrite Z.land_spec, Z.bits_0. change 256 with (2 ^ 8).
  destruct (Z.ltb_spec n 8) as [Hlt|Hge]; [by rewrite Z.mul_pow2_bits_low by lia|].
  assert (Z.testbit b n = false) as ->; [|by rewrite andb_false_r].
  destruct (decide (b = 0)) as [->|]; [apply Z.bits_0|].
  apply Z.bits_above_log2; [lia|]. apply Z.lt_le_trans with 8; [|lia].
  apply Z.log2_lt_pow2; lia.
Qed.

(** [(a << 8) | b] on a byte [b] is positional arithmetic. *)
Lemma lor_shiftl_8 a b : is_byte b -> Z.lor (Z.shiftl a 8) b = a * 256 + b.
Proof.
  intros Hb. rewrite Z.shiftl_mul_pow2 by lia. change (2 ^ 8) with 256.
  pose proof (land_mul_256 a b Hb) as Hz.
  rewrite <- Z.lxor_lor by done. by rewrite <- Z.add_nocarry_lxor by done.
Qed.

(** ** Lemmas on byte strings *)

Lemma length_be_bytes n v : length (be_bytes n v) = n.
Proof.
  revert v. induction n as [|n IH]; intros v; simpl; [done|].
  rewrite length_app, IH. simpl. lia.
Qed.

Lemma be_bytes_ok n v : bytes_ok (be_bytes n v).
Proof.
  revert v. induction n as [|n IH]; intros v; simpl; [constructor|].
  apply Forall_app. split; [apply IH|]. constructor; [|constructor].
  unfold is_byte. rewrite land_255. apply Z.mod_pos_bound. lia.
Qed.

Lemma be_value_app l b : be_value (l ++ [b]) = be_step (be_value l) b.
Proof. unfold be_value. by rewrite foldl_app. Qed.

Lemma be_value_range l : 0 <= be_value l < 2 ^ 64.
Proof.
  destruct l as [|b l _] using rev_ind.
  - unfold be_value. simpl. lia.
  - rewrite be_value_app. unfold be_step. apply u64_range.
Qed.

(** Decoding at most eight bytes stays below 256^n. *)
Lemma be_value_pow l :
  bytes_ok l -> (length l <= 8)%nat -> be_value l < 256 ^ Z.of_nat (length l).
Proof.
  induction l as [|b l IH] using rev_ind; intros Hok Hn.
  { unfold be_value. simpl. lia. }
  apply Forall_app in Hok as [Hl Hb]. apply Forall_inv in Hb. unfold is_byte in Hb.
  rewrite length_app in *. simpl in *. specialize (IH Hl ltac:(lia)).
  rewrite be_value_app. unfold be_step. rewrite lor_shiftl_8 by done.
  pose proof (be_value_range l).
  replace (length l + 1)%nat with (S (length l)) by lia. rewrite Nat2Z.inj_succ, Z.pow_succ_r by lia.
  rewrite u64_small; [lia|]. split; [lia|].
  assert (256 ^ Z.of_nat (length l) <= 256 ^ 7) by (apply Z.pow_le_mono_r; lia). lia.
Qed.

Lemma be_value_short l : bytes_ok l -> (length l <= 6)%nat -> 0 <= be_value l < 2 ^ 48.
Proof.
  intros Hok Hn. split; [apply be_value_range|].
  apply Z.lt_le_trans with (256 ^ Z.of_nat (length l)); [apply be_value_pow; [done | lia]|].
  change (2 ^ 48) with (256 ^ 6). apply Z.pow_le_mono_r; lia.
Qed.

(** Decoding what [be_bytes] wrote gives the value back, for up to 8 bytes. *)
Lemma be_value_be_bytes n v :
  (n <= 8)%nat -> 0 <= v < 256 ^ Z.of_nat n -> be_value (be_bytes n v) = v.
Proof.
  revert v. induction n as [|n IH]; intros v Hn Hv.
  { simpl in *. change (256 ^ Z.of_nat 0) with 1 in Hv. unfold be_value. simpl. lia. }
  simpl be_bytes. rewrite be_value_app.
  rewrite Nat2Z.inj_succ, Z.pow_succ_r in Hv by lia.
  rewrite shiftr_8, land_255.
  assert (0 <= v / 256 < 256 ^ Z.of_nat n).
  { split; [apply Z.div_pos | apply Z.div_lt_upper_bound]; lia. }
  rewrite IH by lia.
  unfold be_step. rewrite lor_shiftl_8 by (unfold is_byte; apply Z.mod_pos_bound; lia).
  replace (v / 256 * 256 + v mod 256) with v by (pose proof (Z.div_mod v 256); lia).
  apply u64_small. split; [lia|]. apply Z.lt_le_trans with (256 ^ Z.of_nat (S n)).
  - rewrite Nat2Z.inj_succ, Z.pow_succ_r by lia. lia.
  - change (2 ^ 64) with (256 ^ 8). apply Z.pow_le_mono_r; lia.
Qed.

Lemma length_slice off n l : (off + n <= length l)%nat -> length (slice off n l) = n.
Proof. intros. unfold slice. rewrite length_take, length_drop. lia. Qed.

Lemma slice_app_l off n l k :
  (off + n <= length l)%nat -> slice off n (l ++ k) = slice off n l.
Proof.
  intros. unfold slice. rewrite drop_app_le by lia.
  rewrite take_app_le; [done|]. rewrite length_drop. lia.
Qed.

Lemma byte_at_app_l l k i : (i < length l)%nat -> byte_at (l ++ k) i = byte_at l i.
Proof. intros. unfold byte_at. by rewrite lookup_app_l. Qed.

Lemma byte_at_app_r l k i : (length l <= i)%nat -> byte_at (l ++ k) i = byte_at k (i - length l).
Proof. intros. unfold byte_at. by rewrite lookup_app_r. Qed.

Lemma slice_app_r off n l k :
  (length l <= off)%nat -> slice off n (l ++ k) = slice (off - length l) n k.
Proof. intros. unfold slice. by rewrite drop_app_ge. Qed.

(** The bytes right after a header of known length. *)
Lemma slice_middle l m k off n :
  length l = off -> length m = n -> slice off n (l ++ m ++ k) = m.
Proof.
  intros <- <-. unfold slice. by rewrite drop_app_length, take_app_length.
Qed.

Lemma byte_at_middle l x k i : length l = i -> byte_at (l ++ x :: k) i = x.
Proof. intros <-. unfold byte_at. by rewrite list_lookup_middle. Qed.

Lemma byte_at_ok l i : bytes_ok l -> is_byte (byte_at l i).
Proof.
  intros H. unfold byte_at. destruct (l !! i) eqn:E; simpl.
  - by eapply Forall_lookup_1.
  - unfold is_byte. lia.
Qed.

Lemma slice_ok off n l : bytes_ok l -> bytes_ok (slice off n l).
Proof. intros. unfold slice. by apply Forall_take, Forall_drop. Qed.

Lemma bytes_of_string_ok s : bytes_ok (bytes_of_string s).
Proof.
  induction s as [|a s IH]; simpl; constructor; [|done].
  unfold is_byte, byte_of_ascii. pose proof (N_ascii_bounded a). lia.
Qed.

(** ** Lemmas on decimal text and searches *)

Lemma dec_go_digits fuel n : 0 <= n -> Forall (fun c => is_digit c = true) (dec_go fuel n).
Proof.
  revert n. induction fuel as [|f IH]; intros n Hn; simpl; [constructor|].
  assert (Hd : forall d, 0 <= d < 10 -> is_digit (48 + d) = true).
  { intros d Hd. unfold is_digit. apply andb_true_iff. split; apply Z.leb_le; lia. }
  case_bool; zb_props; [repeat constructor; apply Hd; lia|].
  apply Forall_app. split; [apply IH, Z.div_pos; lia|].
  repeat constructor. apply Hd, Z.mod_pos_bound. lia.
Qed.

Lemma dec_value_app l c : dec_value (l ++ [c]) = dec_value l * 10 + (c - 48).
Proof. unfold dec_value. by rewrite foldl_app. Qed.

Lemma dec_value_go fuel n :
  0 <= n < 10 ^ Z.of_nat fuel -> dec_value (dec_go fuel n) = n.
Proof.
  revert n. induction fuel as [|f IH]; intros n Hn.
  { change (10 ^ Z.of_nat 0) with 1 in Hn. unfold dec_value. simpl. lia. }
  simpl. rewrite Nat2Z.inj_succ, Z.pow_succ_r in Hn by lia.
  case_bool; zb_props; [unfold dec_value; simpl; lia|].
  rewrite dec_value_app, IH.
  - pose proof (Z.div_mod n 10). lia.
  - split; [apply Z.div_pos | apply Z.div_lt_upper_bound]; lia.
Qed.

Lemma length_dec_go fuel n k :
  (1 <= k)%nat -> 0 <= n < 10 ^ Z.of_nat k -> (length (dec_go fuel n) <= k)%nat.
Proof.
  revert n k. induction fuel as [|f IH]; intros n k Hk Hn; simpl; [lia|].
  case_bool; zb_props; [simpl; lia|].
  destruct k as [|[|k]]; [lia| |].
  { change (10 ^ Z.of_nat 1) with 10 in Hn. lia. }
  rewrite length_app. simpl.
  rewrite (Nat2Z.inj_succ (S k)), Z.pow_succ_r in Hn by lia.
  assert (length (dec_go f (n / 10)) <= S k)%nat; [|lia].
  apply IH; [lia|]. split; [apply Z.div_pos | apply Z.div_lt_upper_bound]; lia.
Qed.

Lemma dec_bytes_not_nil n : dec_bytes n <> [].
Proof.
  unfold dec_bytes. simpl. destruct (n <? 10); [done|].
  intros H. apply app_eq_nil in H as [_ H]. done.
Qed.

Lemma dec_bytes_value n : 0 <= n < 2 ^ 64 -> dec_value (dec_bytes n) = n.
Proof. intros. apply dec_value_go. lia. Qed.

Lemma find_byte_app_notin c l k :
  c ∉ l -> find_byte c (l ++ c :: k) = Some (length l).
Proof.
  induction l as [|b l IH]; intros Hn; simpl; [by rewrite Z.eqb_refl|].
  apply not_elem_of_cons in Hn as [Hb Hn].
  rewrite (proj2 (Z.eqb_neq b c)) by done. by rewrite IH.
Qed.

Lemma find_byte_Some c l i :
  find_byte c l = Some i -> l !! i = Some c /\ c ∉ take i l.
Proof.
  revert i. induction l as [|b l IH]; intros i H; simpl in H; [done|].
  case_bool; zb_props.
  { simplify_eq. simpl. split; [done | apply not_elem_of_nil]. }
  destruct (find_byte c l) as [j|] eqn:E; simplify_eq/=.
  destruct (IH j eq_refl) as [Hl Hn]. split; [done|].
  apply not_elem_of_cons. split; congruence.
Qed.

Lemma find_byte_None c l : find_byte c l = None -> c ∉ l.
Proof.
  induction l as [|b l IH]; intros H; simpl in H; [apply not_elem_of_nil|].
  case_bool; zb_props; [done|].
  destruct (find_byte c l); simplify_eq/=.
  apply not_elem_of_cons. split; [congruence | by apply IH].
Qed.

Lemma digits_exclude d l :
  Forall (fun c => is_digit c = true) l -> is_digit d = false -> d ∉ l.
Proof.
  intros HF Hd Hin. rewrite list.Forall_forall in HF. apply HF in Hin. congruence.
Qed.

(** Taking one element out of a collection that may hold it several times. *)
Fixpoint take_one {X} `{EqDecision X} (x : X) (l : list X) : option (list X) :=
  match l with
  | [] => None
  | y :: l' => if decide (x = y) then Some l' else (y ::.) <$> take_one x l'
  end.

Lemma take_one_perm {X} `{EqDecision X} (x : X) l k : take_one x l = Some k -> l ≡ₚ x :: k.
Proof.
  revert k. induction l as [|y l IH]; intros k H; simpl in H; [done|]. case_decide as E; simplify_eq; [done|].
  destruct (take_one x l) as [k'|]; simplify_eq/=. rewrite (IH k') by done. constructor.
Qed.

#[export] Hint Resolve u8_range u16_range u64_range be_bytes_ok byte_at_ok slice_ok
  bytes_of_string_ok : kcp.
