(* ===== verification/Config.v ===== *)
(** * Config: the constants and start-up parsers of config.hpp

    The wire and sizing constants, the runtime KCP tuning ([KcpTuning],
    [set_kcp_tuning]) with its backpressure watermarks, and the [--fec] parser
    ([parse_fec_config]) with its rendering. *)

From Stdlib Require Import ZArith Lia.
From stdpp Require Import base list gmap strings numbers.
From S2P Require Import Prelude.

(** ** Constants *)

Definition KCP_CONV : Z := 1.
Definition KCP_INTERVAL_MS : Z := 10.
Definition KCP_SNDWND : Z := 1024.
Definition KCP_RCVWND : Z := 1024.
Definition KCP_MTU : Z := 1400.
Definition KCP_NODELAY : Z := 1.
Definition KCP_RESEND : Z := 5.
Definition KCP_NC : Z := 1.
Definition KCP_SEGMENT_OVERHEAD : Z := 24.
Definition KCP_TIMEOUT_SEC : Z := 60.
Definition KCP_KEEPALIVE_SEC : Z := 30.
Definition CLIENT_HALF_CLOSE_GRACE_SEC : Z := 2 * KCP_TIMEOUT_SEC.
Definition MAX_CONCURRENT_SESSIONS : Z := 4096.
Definition MAX_CLIENT_SESSIONS : Z := 512.
Definition MAX_AUTH_ATTEMPTS_PER_SEC : Z := 5000.
Definition MAX_AUTH_FAILURES_PER_ADDR_PER_SEC : Z := 20.
Definition MAX_TRACKED_AUTH_ADDRS : Z := 8192.
Definition CONNECT_TIMEOUT_SEC : Z := 15.
Definition KCP_HANDSHAKE_TIMEOUT_SEC : Z := 3.
Definition SOCKS5_HANDSHAKE_TIMEOUT_SEC : Z := 30.
Definition SERVER_SOCKS5_HANDSHAKE_TIMEOUT_SEC : Z := 2 * CONNECT_TIMEOUT_SEC.
Definition SALT_TOMBSTONE_TTL_SEC : Z := 600.
Definition MAX_SALT_TOMBSTONES : Z := 4 * MAX_CONCURRENT_SESSIONS.
Definition NONCE_SIZE : nat := 12.
Definition TAG_SIZE : nat := 16.
Definition SESSION_SALT_SIZE : nat := 16.
Definition AES_KEY_SIZE : nat := 16.
Definition FEC_CRYPTO_RESERVE : nat := SESSION_SALT_SIZE + NONCE_SIZE.
Definition MAX_COUNTER : Z := 2 ^ 48.
Definition REPLAY_WINDOW_BITS : Z := 2048.
Definition NONCE_DIR_CLIENT : Z := 1.
Definition NONCE_DIR_SERVER : Z := 2.
Definition KCP_SNDWND_MIN : Z := 256.
Definition KCP_SNDWND_MAX : Z := 4096.
Definition KCP_RCVWND_MIN : Z := 256.
Definition KCP_RCVWND_MAX : Z := 4096.
Definition KCP_MTU_MIN : Z := 576.
Definition KCP_MTU_MAX : Z := 9000.
Definition UDP_WIRE_DATAGRAM_MAX : Z :=
  Z.of_nat FEC_CRYPTO_RESERVE + 8 + KCP_MTU_MAX + Z.of_nat TAG_SIZE.
Definition UDP_RECV_BUF_SIZE : Z := UDP_WIRE_DATAGRAM_MAX.
Definition FWD_BUF_SIZE : Z := 16384.
Definition SOCKS5_REPLY_BUF_SIZE : Z := 512.
Definition UDP_RECV_SLOTS : Z := 16.
Definition UDP_BATCH_MAX : Z := 64.
Definition UDP_DRAIN_BATCH_MAX : Z := 256.
Definition UDP_SO_RCVBUF_BYTES : Z := 4 * 1024 * 1024.
Definition UDP_SO_SNDBUF_BYTES : Z := 4 * 1024 * 1024.
Definition KCP_BACKPRESSURE_BURST_MSGS : Z := 4.
Definition KCP_MAX_SEGMENTS_PER_MSG : Z :=
  (FWD_BUF_SIZE + (KCP_MTU - KCP_SEGMENT_OVERHEAD) - 1) / (KCP_MTU - KCP_SEGMENT_OVERHEAD).
Definition KCP_BACKPRESSURE_THRESHOLD : Z := KCP_SNDWND - KCP_MAX_SEGMENTS_PER_MSG - 8.
Definition KCP_BACKPRESSURE_RESUME_THRESHOLD : Z :=
  KCP_BACKPRESSURE_THRESHOLD - KCP_BACKPRESSURE_BURST_MSGS * KCP_MAX_SEGMENTS_PER_MSG.
Definition FEC_DATAGRAM_MAX : Z := Z.of_nat FEC_CRYPTO_RESERVE + 8 + KCP_MTU.
Definition FEC_WIRE_DATAGRAM_MAX : Z := FEC_DATAGRAM_MAX + Z.of_nat TAG_SIZE.
Definition FEC_ADAPTIVE_DATA_SHARDS : Z := 10.
Definition FEC_ADAPTIVE_PARITY_SHARDS : Z := 3.
Definition FEC_PARITY_PROBE_SEC : Z := 60.
Definition FEC_PARITY_HOLD_SEC : Z := 300.
Definition FEC_PARITY_SAMPLE_MS : Z := 2000.
Definition FEC_PARITY_SAMPLE_TICKS : Z := FEC_PARITY_SAMPLE_MS / KCP_INTERVAL_MS.
Definition KCP_RTO_RELAX_SEC : Z := 15.
Definition KCP_RTO_HOLD_SEC : Z := 60.

Definition SOCKS5_VERSION : Z := 5.
Definition SOCKS5_AUTH_NONE : Z := 0.
Definition SOCKS5_AUTH_NO_ACCEPTABLE : Z := 255.
Definition SOCKS5_CMD_CONNECT : Z := 1.
Definition SOCKS5_CMD_UDP_ASSOCIATE : Z := 3.
Definition SOCKS5_ATYP_IPV4 : Z := 1.
Definition SOCKS5_ATYP_DOMAIN : Z := 3.
Definition SOCKS5_ATYP_IPV6 : Z := 4.
Definition SOCKS5_REPLY_SUCCEEDED : Z := 0.
Definition SOCKS5_REPLY_GENERAL_FAILURE : Z := 1.
Definition SOCKS5_REPLY_NOT_ALLOWED : Z := 2.
Definition SOCKS5_REPLY_NETWORK_UNREACHABLE : Z := 3.
Definition SOCKS5_REPLY_HOST_UNREACHABLE : Z := 4.
Definition SOCKS5_REPLY_CONNECTION_REFUSED : Z := 5.
Definition SOCKS5_REPLY_TTL_EXPIRED : Z := 6.
Definition SOCKS5_REPLY_COMMAND_NOT_SUPPORTED : Z := 7.
Definition SOCKS5_REPLY_ADDRESS_TYPE_NOT_SUPPORTED : Z := 8.

Definition KCP_CONTROL_HELLO : list Z := bytes_of_string "KCP_PROXY_HELLO_V1".
Definition KCP_CONTROL_HELLO_ACK : list Z := bytes_of_string "KCP_PROXY_HELLO_ACK_V1".
Definition KCP_CONTROL_HELLO_V2 : list Z := bytes_of_string "KCP_PROXY_HELLO_V2".
Definition KCP_CONTROL_HELLO_ACK_V2 : list Z := bytes_of_string "KCP_PROXY_HELLO_ACK_V2".
Definition KCP_CONTROL_FIN : list Z := bytes_of_string "KCP_PROXY_FIN_V1".
Definition KCP_CONTROL_KEEPALIVE : list Z := bytes_of_string "KCP_PROXY_KEEPALIVE_V1".

(** ** Runtime KCP tuning *)

Record KcpTuning := { sndwnd : Z; rcvwnd : Z; mtu : Z }.

Definition default_tuning : KcpTuning :=
  {| sndwnd := KCP_SNDWND; rcvwnd := KCP_RCVWND; mtu := KCP_MTU |}.

(** [static_cast<int>] of an unsigned 64-bit value. *)
Definition to_i32 (z : Z) : Z := (z + 2 ^ 31) mod 2 ^ 32 - 2 ^ 31.

(** [(FWD_BUF_SIZE + mss - 1) / mss]: [FWD_BUF_SIZE] is a [size_t], so [mss]
    is converted to an unsigned 64-bit value first. *)
Definition max_segments_per_msg (t : KcpTuning) : Z :=
  let mss := mtu t - KCP_SEGMENT_OVERHEAD in
  to_i32 (u64 (FWD_BUF_SIZE + u64 mss - 1) / u64 mss).

Definition backpressure_threshold (t : KcpTuning) : Z :=
  sndwnd t - max_segments_per_msg t - 8.

Definition backpressure_resume (t : KcpTuning) : Z :=
  backpressure_threshold t - KCP_BACKPRESSURE_BURST_MSGS * max_segments_per_msg t.

Definition backpressure_invariant_holds (t : KcpTuning) : bool :=
  let segs := max_segments_per_msg t in
  let thr := backpressure_threshold t in
  (segs >? 0) && (thr >? 0) && (backpressure_resume t >? 0) && (thr + segs <=? sndwnd t).

Definition clamp_kcp_value (v lo hi : Z) : Z :=
  if v <? lo then lo else if v >? hi then hi else v.

(** The process-global tuning is the state; the result is its new value. *)
Definition set_kcp_tuning (snd rcv m : Z) : KcpTuning :=
  {| sndwnd := clamp_kcp_value snd KCP_SNDWND_MIN KCP_SNDWND_MAX;
     rcvwnd := clamp_kcp_value rcv KCP_RCVWND_MIN KCP_RCVWND_MAX;
     mtu := clamp_kcp_value m KCP_MTU_MIN KCP_MTU_MAX |}.

(** ** Forward error correction *)

Record FecConfig := { data_shards : Z; parity_shards : Z }.

Definition fec_off : FecConfig := {| data_shards := 0; parity_shards := 0 |}.

Definition fec_enabled (f : FecConfig) : bool :=
  (data_shards f >? 0) && (parity_shards f >? 0).

Definition colon : Z := 58.

Definition fec_to_string (f : FecConfig) : list Z :=
  if fec_enabled f
  then dec_bytes (data_shards f) ++ colon :: dec_bytes (parity_shards f)
  else bytes_of_string "off".

(** Number of significant digits, [size - find_first_not_of('0')], 0 for
    [npos]. *)
Fixpoint sig_digits (l : list Z) : nat :=
  match l with
  | [] => 0
  | c :: l' => if c =? 48 then sig_digits l' else length l
  end.

Definition all_digits (l : list Z) : bool := forallb is_digit l.

(** [None] is the [false] return, [Some] the accepted configuration. *)
Definition parse_fec_config (text : list Z) : option FecConfig :=
  match find_byte colon text with
  | None => None
  | Some c =>
      let data_part := take c text in
      let parity_part := drop (c + 1) text in
      if bool_decide (data_part = []) || bool_decide (parity_part = []) ||
         negb (all_digits data_part) || negb (all_digits parity_part)
      then None
      else if (3 <? sig_digits data_part)%nat || (3 <? sig_digits parity_part)%nat
      then None
      else
        let data := dec_value data_part in
        let parity := dec_value parity_part in
        if (data =? 0) && (parity =? 0) then Some fec_off
        else if (data <? 1) || (parity <? 1) || (256 <? data + parity) || (data <? parity)
        then None
        else Some {| data_shards := data; parity_shards := parity |}
  end.

Definition fec_config_line (f : FecConfig) : list Z :=
  bytes_of_string "FEC config shards=" ++ fec_to_string f.

(** One line both ends log at start-up, rendered from the tuning in force. *)
Definition kcp_config_line (t : KcpTuning) : list Z :=
  bytes_of_string "KCP config conv=" ++ dec_bytes KCP_CONV ++ bytes_of_string " mtu=" ++ int_bytes (mtu t) ++
  bytes_of_string " nodelay=" ++ int_bytes KCP_NODELAY ++ bytes_of_string " interval=" ++ int_bytes KCP_INTERVAL_MS ++
  bytes_of_string " resend=" ++ int_bytes KCP_RESEND ++ bytes_of_string " nc=" ++ int_bytes KCP_NC ++
  bytes_of_string " sndWnd=" ++ int_bytes (sndwnd t) ++ bytes_of_string " rcvWnd=" ++ int_bytes (rcvwnd t) ++
  bytes_of_string " timeout=" ++ int_bytes KCP_TIMEOUT_SEC ++ bytes_of_string "s".

(** ** Properties of the tuning *)

(** A tuning inside the bounds [set_kcp_tuning] enforces. *)
Definition tuning_legal (t : KcpTuning) : Prop :=
  KCP_SNDWND_MIN <= sndwnd t <= KCP_SNDWND_MAX /\
  KCP_RCVWND_MIN <= rcvwnd t <= KCP_RCVWND_MAX /\
  KCP_MTU_MIN <= mtu t <= KCP_MTU_MAX.

Lemma default_tuning_legal : tuning_legal default_tuning.
Proof. unfold tuning_legal. split_and!; by vm_compute. Qed.

Lemma clamp_kcp_value_range v lo hi :
  lo <= hi -> lo <= clamp_kcp_value v lo hi <= hi.
Proof. unfold clamp_kcp_value. intros. bool_lia. Qed.

Lemma clamp_kcp_value_id v lo hi :
  lo <= v <= hi -> clamp_kcp_value v lo hi = v.
Proof. unfold clamp_kcp_value. intros. bool_lia. Qed.

Lemma set_kcp_tuning_legal snd rcv m : tuning_legal (set_kcp_tuning snd rcv m).
Proof.
  unfold tuning_legal, set_kcp_tuning; simpl.
  repeat split; apply clamp_kcp_value_range; by vm_compute.
Qed.

(** On a legal tuning no wrap-around happens and the count is the ceiling of
    the quotient. *)
Lemma max_segments_legal t :
  tuning_legal t ->
  max_segments_per_msg t = (FWD_BUF_SIZE + (mtu t - 24) - 1) / (mtu t - 24) /\
  1 <= max_segments_per_msg t <= 30 /\
  FWD_BUF_SIZE <= max_segments_per_msg t * (mtu t - 24).
Proof.
  intros (_ & _ & Hm). unfold KCP_MTU_MIN, KCP_MTU_MAX in Hm.
  unfold max_segments_per_msg, KCP_SEGMENT_OVERHEAD, FWD_BUF_SIZE.
  rewrite (u64_small (mtu t - 24)) by lia. rewrite u64_small by lia.
  set (d := mtu t - 24) in *.
  assert (Hq : 1 <= (16384 + d - 1) / d <= 30).
  { split; [apply Z.div_le_lower_bound | apply Z.lt_succ_r, Z.div_lt_upper_bound];
      unfold d; lia. }
  unfold to_i32. rewrite Z.mod_small by lia.
  replace ((16384 + d - 1) / d + 2 ^ 31 - 2 ^ 31) with ((16384 + d - 1) / d) by lia.
  repeat split; try lia.
  pose proof (Z.div_mod (16384 + d - 1) d). pose proof (Z.mod_pos_bound (16384 + d - 1) d).
  unfold d in *. lia.
Qed.

(** Whatever three integers the command line supplies, the tuning that
    [set_kcp_tuning] installs keeps the backpressure band well formed: the
    per-message segment count, the park threshold and the resume watermark are
    positive, the resume watermark is below the park threshold, and a message
    accepted just below the threshold still fits the send window. *)
Theorem set_kcp_tuning_backpressure snd rcv m :
  let t := set_kcp_tuning snd rcv m in
  backpressure_invariant_holds t = true /\
  backpressure_resume t < backpressure_threshold t /\
  backpressure_threshold t + max_segments_per_msg t <= sndwnd t /\
  FWD_BUF_SIZE <= max_segments_per_msg t * (mtu t - KCP_SEGMENT_OVERHEAD).
Proof.
  intros t. pose proof (set_kcp_tuning_legal snd rcv m) as Hl. fold t in Hl.
  pose proof (max_segments_legal t Hl) as (_ & Hs & Hf).
  destruct Hl as (Hw & _ & _). unfold KCP_SNDWND_MIN in Hw.
  unfold backpressure_invariant_holds, backpressure_resume, backpressure_threshold,
    KCP_BACKPRESSURE_BURST_MSGS, KCP_SEGMENT_OVERHEAD.
  rewrite !Z.gtb_ltb. repeat split; lia.
Qed.

(** The static assertions of the header. *)
Lemma config_static_asserts :
  UDP_RECV_BUF_SIZE >= UDP_WIRE_DATAGRAM_MAX /\
  UDP_RECV_BUF_SIZE >= Z.of_nat FEC_CRYPTO_RESERVE + 8 + KCP_MTU + Z.of_nat TAG_SIZE /\
  KCP_BACKPRESSURE_RESUME_THRESHOLD > 0 /\
  KCP_BACKPRESSURE_RESUME_THRESHOLD < KCP_BACKPRESSURE_THRESHOLD /\
  FEC_WIRE_DATAGRAM_MAX + 28 <= 1500 /\
  FEC_PARITY_SAMPLE_TICKS > 0.
Proof. by vm_compute. Qed.

(** The default tuning's watermarks are the named constants. *)
Lemma default_tuning_watermarks :
  backpressure_threshold default_tuning = KCP_BACKPRESSURE_THRESHOLD /\
  backpressure_resume default_tuning = KCP_BACKPRESSURE_RESUME_THRESHOLD.
Proof. by vm_compute. Qed.

(** ** Properties of the FEC parser *)

(** The configurations the Reed-Solomon codec accepts, plus "disabled". *)
Definition fec_valid (f : FecConfig) : Prop :=
  f = fec_off \/
  (1 <= parity_shards f <= data_shards f /\ data_shards f + parity_shards f <= 256).

Lemma parse_fec_config_valid text f :
  parse_fec_config text = Some f -> fec_valid f.
Proof.
  unfold parse_fec_config. destruct (find_byte colon text); [|done]. intros H.
  repeat case_bool; zb_props; simplify_eq; [by left | right; simpl; lia].
Qed.

Lemma sig_digits_le l : (sig_digits l <= length l)%nat.
Proof. induction l as [|c l IH]; simpl; [lia|]. case_bool; simpl; lia. Qed.

Lemma all_digits_Forall l :
  all_digits l = true <-> Forall (fun c => is_digit c = true) l.
Proof. unfold all_digits. by rewrite forallb_forall, List.Forall_forall. Qed.

(** A rendered number is a non-empty digit string of its value. *)
Lemma dec_bytes_parses n :
  0 <= n < 1000 ->
  dec_bytes n <> [] /\ all_digits (dec_bytes n) = true /\
  (sig_digits (dec_bytes n) <= 3)%nat /\ dec_value (dec_bytes n) = n.
Proof.
  intros Hn. repeat split.
  - apply dec_bytes_not_nil.
  - apply all_digits_Forall, dec_go_digits. lia.
  - etransitivity; [apply sig_digits_le|]. apply length_dec_go; lia.
  - apply dec_bytes_value. lia.
Qed.

(** The parser on a text that is two digit strings around a colon. *)
Lemma parse_fec_config_split d p :
  d <> [] -> p <> [] -> all_digits d = true -> all_digits p = true ->
  (sig_digits d <= 3)%nat -> (sig_digits p <= 3)%nat ->
  parse_fec_config (d ++ colon :: p) =
    if (dec_value d =? 0) && (dec_value p =? 0) then Some fec_off
    else if (dec_value d <? 1) || (dec_value p <? 1) || (256 <? dec_value d + dec_value p)
            || (dec_value d <? dec_value p)
    then None
    else Some {| data_shards := dec_value d; parity_shards := dec_value p |}.
Proof.
  intros Hd Hp Had Hap Hsd Hsp. unfold parse_fec_config.
  rewrite find_byte_app_notin by (eapply digits_exclude; [by apply all_digits_Forall | done]).
  rewrite take_app_length, Nat.add_1_r.
  replace (drop (S (length d)) (d ++ colon :: p)) with p
    by (by rewrite drop_app_ge, Nat.sub_succ_l, Nat.sub_diag by lia).
  rewrite Had, Hap. rewrite !bool_decide_eq_false_2 by done. simpl.
  rewrite (proj2 (Nat.ltb_ge 3 (sig_digits d))), (proj2 (Nat.ltb_ge 3 (sig_digits p))) by done.
  done.
Qed.

(** The [--fec] parser and the log rendering agree. A text is accepted
    only as "disabled" or as a pair with [1 <= parity <= data] and
    [data + parity <= 256], and parsing the rendering of every such enabled
    pair gives that pair back. *)
Theorem parse_fec_config_sound_complete :
  (forall text f, parse_fec_config text = Some f -> fec_valid f) /\
  (forall f, fec_valid f -> fec_enabled f = true ->
             parse_fec_config (fec_to_string f) = Some f).
Proof.
  split; [apply parse_fec_config_valid|]. intros f Hv He.
  unfold fec_to_string. rewrite He. unfold fec_enabled in He. zb_props.
  destruct Hv as [->|[Hp Hs]]; [simpl in *; lia|].
  destruct (dec_bytes_parses (data_shards f)) as (? & ? & ? & Hdv); [lia|].
  destruct (dec_bytes_parses (parity_shards f)) as (? & ? & ? & Hpv); [lia|].
  rewrite parse_fec_config_split by done. rewrite Hdv, Hpv.
  destruct f as [d p]; simpl in *.
  repeat case_bool; zb_props; (done || lia).
Qed.
