(* ===== verification/Asio.v ===== *)
(** * Asio: the address library as an interface

    The sources convert and classify addresses through [asio::ip], which is
    not part of the repository. [AsioIp] lists the operations they call and
    [AsioIpLaws] the documented behaviour they rely on; every client of this
    interface is proved against the laws. [TextIp] is one concrete
    implementation, which shows that the laws can hold together. *)

From Stdlib Require Import ZArith Lia.
From stdpp Require Import base list gmap strings numbers.
From S2P Require Import Prelude.

(** An [asio::ip::address]: the four or sixteen bytes in network order. *)
Inductive ip_address : Type :=
| V4 (bytes : list Z)
| V6 (bytes : list Z).

#[export] Instance ip_address_eq_dec : EqDecision ip_address.
Proof. solve_decision. Defined.

(** Well-formed addresses hold 4 or 16 byte values. *)
Definition ip_wf (a : ip_address) : Prop :=
  match a with
  | V4 b => length b = 4%nat /\ bytes_ok b
  | V6 b => length b = 16%nat /\ bytes_ok b
  end.

(** The operations of [asio::ip] the sources call. *)
Class AsioIp := {
  v4_to_string : list Z -> list Z;
  v6_to_string : list Z -> list Z;
  make_address : list Z -> option ip_address;
  v4_to_uint : list Z -> Z;
  v4_is_unspecified : list Z -> bool;
  v4_is_loopback : list Z -> bool;
  v4_is_multicast : list Z -> bool;
  v6_is_v4_mapped : list Z -> bool;
  v6_to_v4 : list Z -> list Z;
  v6_is_loopback : list Z -> bool;
  v6_is_unspecified : list Z -> bool;
  v6_is_link_local : list Z -> bool;
  v6_is_site_local : list Z -> bool;
  v6_is_multicast : list Z -> bool
}.

Definition addr_to_string `{AsioIp} (a : ip_address) : list Z :=
  match a with V4 b => v4_to_string b | V6 b => v6_to_string b end.

(** A byte string starts with the given bytes. *)
Definition starts_with (p l : list Z) : bool := bool_decide (take (length p) l = p).

(** Documented behaviour: the textual form parses back to the address, a
    parsed address is well formed, the empty string is not an address, and
    the classification predicates test the documented prefixes. *)
Class AsioIpLaws {I : AsioIp} : Prop := {
  make_address_to_string a : ip_wf a -> make_address (addr_to_string a) = Some a;
  make_address_wf s a : make_address s = Some a -> ip_wf a;
  make_address_nil : make_address [] = None;
  v4_to_uint_be b : length b = 4%nat -> bytes_ok b -> v4_to_uint b = be_value b;
  v4_is_unspecified_spec b : length b = 4%nat ->
    v4_is_unspecified b = bool_decide (b = [0; 0; 0; 0]);
  v4_is_loopback_spec b : length b = 4%nat -> v4_is_loopback b = (byte_at b 0 =? 127);
  v4_is_multicast_spec b : length b = 4%nat -> bytes_ok b ->
    v4_is_multicast b = ((224 <=? byte_at b 0) && (byte_at b 0 <=? 239));
  v6_is_v4_mapped_spec b : length b = 16%nat ->
    v6_is_v4_mapped b = starts_with (replicate 10 0 ++ [255; 255]) b;
  v6_to_v4_spec b : length b = 16%nat -> v6_is_v4_mapped b = true ->
    v6_to_v4 b = slice 12 4 b;
  v6_is_loopback_spec b : length b = 16%nat ->
    v6_is_loopback b = bool_decide (b = replicate 15 0 ++ [1]);
  v6_is_unspecified_spec b : length b = 16%nat ->
    v6_is_unspecified b = bool_decide (b = replicate 16 0);
  v6_is_link_local_spec b : length b = 16%nat ->
    v6_is_link_local b = ((byte_at b 0 =? 254) && (Z.land (byte_at b 1) 192 =? 128));
  v6_is_site_local_spec b : length b = 16%nat ->
    v6_is_site_local b = ((byte_at b 0 =? 254) && (Z.land (byte_at b 1) 192 =? 192));
  v6_is_multicast_spec b : length b = 16%nat -> v6_is_multicast b = (byte_at b 0 =? 255)
}.
Arguments AsioIpLaws : clear implicits.

(** ** A concrete implementation *)

Module TextIp.

Definition dot : Z := 46.
Definition colon : Z := 58.

Fixpoint split_on (c : Z) (l : list Z) : list (list Z) :=
  match l with
  | [] => [[]]
  | b :: l' =>
      match split_on c l' with
      | [] => [[b]]
      | h :: t => if b =? c then [] :: h :: t else (b :: h) :: t
      end
  end.

Definition v4_text (b : list Z) : list Z :=
  match b with
  | [b0; b1; b2; b3] =>
      dec_bytes b0 ++ dot :: dec_bytes b1 ++ dot :: dec_bytes b2 ++ dot :: dec_bytes b3
  | _ => []
  end.

Definition octet_ok (p : list Z) : bool :=
  negb (bool_decide (p = [])) && forallb is_digit p && (dec_value p <=? 255).

Definition v4_parse (s : list Z) : option ip_address :=
  let parts := split_on dot s in
  if (length parts =? 4)%nat && forallb octet_ok parts
  then Some (V4 (dec_value <$> parts)) else None.

Definition hex_digit (d : Z) : Z := if d <? 10 then 48 + d else 87 + d.
Definition hex_value (c : Z) : option Z :=
  if (48 <=? c) && (c <=? 57) then Some (c - 48)
  else if (97 <=? c) && (c <=? 102) then Some (c - 87) else None.
Definition hex_byte (b : Z) : list Z := [hex_digit (b / 16); hex_digit (b mod 16)].

Fixpoint v6_text (b : list Z) : list Z :=
  match b with
  | b0 :: b1 :: ((_ :: _) as l) => hex_byte b0 ++ hex_byte b1 ++ colon :: v6_text l
  | b0 :: b1 :: [] => hex_byte b0 ++ hex_byte b1
  | _ => []
  end.

Fixpoint hex_pairs (l : list Z) : option (list Z) :=
  match l with
  | [] => Some []
  | [_] => None
  | h :: t :: l' =>
      match hex_value h, hex_value t, hex_pairs l' with
      | Some x, Some y, Some r => Some (16 * x + y :: r)
      | _, _, _ => None
      end
  end.

Definition v6_parse (s : list Z) : option ip_address :=
  match hex_pairs (filter (fun c => c <> colon) s) with
  | Some b => if (length b =? 16)%nat then Some (V6 b) else None
  | None => None
  end.

Definition text_address (s : list Z) : option ip_address :=
  if bool_decide (colon ∈ s) then v6_parse s else v4_parse s.

#[export] Instance text_ip : AsioIp := {
  v4_to_string := v4_text;
  v6_to_string := v6_text;
  make_address := text_address;
  v4_to_uint := be_value;
  v4_is_unspecified b := bool_decide (b = [0; 0; 0; 0]);
  v4_is_loopback b := byte_at b 0 =? 127;
  v4_is_multicast b := (224 <=? byte_at b 0) && (byte_at b 0 <=? 239);
  v6_is_v4_mapped b := starts_with (replicate 10 0 ++ [255; 255]) b;
  v6_to_v4 b := slice 12 4 b;
  v6_is_loopback b := bool_decide (b = replicate 15 0 ++ [1]);
  v6_is_unspecified b := bool_decide (b = replicate 16 0);
  v6_is_link_local b := (byte_at b 0 =? 254) && (Z.land (byte_at b 1) 192 =? 128);
  v6_is_site_local b := (byte_at b 0 =? 254) && (Z.land (byte_at b 1) 192 =? 192);
  v6_is_multicast b := byte_at b 0 =? 255
}.

Lemma split_on_notin c l : c ∉ l -> split_on c l = [l].
Proof.
  induction l as [|b l IH]; intros H; simpl; [done|].
  apply not_elem_of_cons in H as [Hb Hl]. rewrite IH by done.
  by rewrite (proj2 (Z.eqb_neq b c)).
Qed.

Lemma split_on_app c l k : c ∉ l -> split_on c (l ++ c :: k) = l :: split_on c k.
Proof.
  induction l as [|b l IH]; intros H; simpl.
  - rewrite Z.eqb_refl. destruct (split_on c k) eqn:E; [|done].
    destruct k as [|x k]; simpl in E; [done|]. destruct (split_on c k); [done|].
    destruct (x =? c); done.
  - apply not_elem_of_cons in H as [Hb Hl]. rewrite IH by done.
    by rewrite (proj2 (Z.eqb_neq b c)).
Qed.

Lemma dec_bytes_excl n c : 0 <= n -> is_digit c = false -> c ∉ dec_bytes n.
Proof. intros. apply digits_exclude; [by apply dec_go_digits | done]. Qed.

Lemma octet_ok_dec b : is_byte b -> octet_ok (dec_bytes b) = true.
Proof.
  intros Hb. unfold is_byte in Hb. unfold octet_ok.
  rewrite bool_decide_eq_false_2 by apply dec_bytes_not_nil.
  rewrite dec_bytes_value by lia.
  assert (forallb is_digit (dec_bytes b) = true) as ->.
  { apply forallb_forall, List.Forall_forall, dec_go_digits. lia. }
  simpl. apply Z.leb_le. lia.
Qed.

Lemma v4_roundtrip b : length b = 4%nat -> bytes_ok b -> text_address (v4_text b) = Some (V4 b).
Proof.
  intros Hl Hb. destruct b as [|b0 [|b1 [|b2 [|b3 [|]]]]]; try done.
  unfold bytes_ok in Hb. rewrite !list.Forall_cons in Hb. destruct Hb as (H0 & H1 & H2 & H3 & _).
  pose proof (octet_ok_dec b0 H0). pose proof (octet_ok_dec b1 H1).
  pose proof (octet_ok_dec b2 H2). pose proof (octet_ok_dec b3 H3).
  unfold is_byte in *. unfold text_address, v4_text.
  rewrite bool_decide_eq_false_2.
  - unfold v4_parse. rewrite !split_on_app, split_on_notin by (apply dec_bytes_excl; (done || lia)).
    simpl length. simpl forallb. rewrite H, H4, H5, H6.
    change (map ?f ?x) with (f <$> x). simpl. by rewrite !dec_bytes_value by lia.
  - rewrite !elem_of_app, !elem_of_cons, !elem_of_app, !elem_of_cons, !elem_of_app, !elem_of_cons.
    unfold colon, dot. intros [Hin|[?|[Hin|[?|[Hin|[?|Hin]]]]]]; try lia;
      revert Hin; apply dec_bytes_excl; (done || lia).
Qed.

Lemma hex_digit_facts d :
  0 <= d < 16 -> hex_value (hex_digit d) = Some d /\ hex_digit d <> colon.
Proof.
  intros Hd. unfold hex_digit, hex_value, colon. repeat case_bool; zb_props; split; (lia || f_equal; lia).
Qed.

Lemma hex_pairs_byte b l r :
  is_byte b -> hex_pairs l = Some r -> hex_pairs (hex_byte b ++ l) = Some (b :: r).
Proof.
  intros Hb Hl. unfold is_byte in Hb. simpl.
  destruct (hex_digit_facts (b / 16)) as [-> _];
    [split; [apply Z.div_pos | apply Z.div_lt_upper_bound]; lia|].
  destruct (hex_digit_facts (b mod 16)) as [-> _]; [apply Z.mod_pos_bound; lia|].
  rewrite Hl. do 2 f_equal. pose proof (Z.div_mod b 16). lia.
Qed.

Lemma filter_hex_byte b l :
  is_byte b -> filter (fun c => c <> colon) (hex_byte b ++ l) =
               hex_byte b ++ filter (fun c => c <> colon) l.
Proof.
  intros Hb. unfold is_byte in Hb. unfold hex_byte. simpl.
  rewrite !filter_cons_True; [done| |].
  - apply hex_digit_facts, Z.mod_pos_bound. lia.
  - apply hex_digit_facts. split; [apply Z.div_pos | apply Z.div_lt_upper_bound]; lia.
Qed.

Lemma v6_pairs b :
  Nat.Even (length b) -> bytes_ok b ->
  hex_pairs (filter (fun c => c <> colon) (v6_text b)) = Some b.
Proof.
  remember (length b) as n eqn:Hn. revert b Hn.
  induction n as [n IH] using lt_wf_ind. intros b Hn Hev Hb.
  destruct b as [|b0 [|b1 l]]; [done| |].
  { simpl in Hn. subst n. destruct Hev as [k Hk]. lia. }
  unfold bytes_ok in Hb. rewrite !list.Forall_cons in Hb. destruct Hb as (H0 & H1 & Hl).
  destruct l as [|b2 l].
  - change (v6_text [b0; b1]) with (hex_byte b0 ++ hex_byte b1).
    rewrite filter_hex_byte by done.
    rewrite <- (app_nil_r (hex_byte b1)), filter_hex_byte by done.
    by do 2 (apply hex_pairs_byte; [done|]).
  - change (v6_text (b0 :: b1 :: b2 :: l)) with
      (hex_byte b0 ++ hex_byte b1 ++ colon :: v6_text (b2 :: l)).
    rewrite !filter_hex_byte, filter_cons_False by (done || (intros Hc; by apply Hc)).
    do 2 (apply hex_pairs_byte; [done|]).
    eapply (IH (length (b2 :: l))); try done.
    + subst n. simpl. lia.
    + subst n. destruct Hev as [k Hk]. exists (pred k). simpl in *. lia.
Qed.

Lemma v6_roundtrip b : length b = 16%nat -> bytes_ok b -> text_address (v6_text b) = Some (V6 b).
Proof.
  intros Hl Hb. unfold text_address. rewrite bool_decide_eq_true_2.
  - unfold v6_parse. rewrite v6_pairs; [by rewrite Hl| |done]. rewrite Hl. by exists 8%nat.
  - destruct b as [|b0 [|b1 [|b2 l]]]; try done. set_solver.
Qed.

Lemma hex_value_range c v : hex_value c = Some v -> 0 <= v < 16.
Proof. unfold hex_value. intros. repeat case_bool; zb_props; simplify_eq; lia. Qed.

Lemma hex_pairs_ok l r : hex_pairs l = Some r -> bytes_ok r.
Proof.
  remember (length l) as n eqn:Hn. revert l r Hn.
  induction n as [n IH] using lt_wf_ind. intros l r Hn H.
  destruct l as [|h [|t l]]; simpl in H; [simplify_eq; constructor | done |].
  destruct (hex_value h) as [x|] eqn:E1; [|done].
  destruct (hex_value t) as [y|] eqn:E2; [|done].
  destruct (hex_pairs l) as [r'|] eqn:E3; [|done]. simplify_eq.
  constructor.
  - apply hex_value_range in E1, E2. unfold is_byte. lia.
  - eapply (IH (length l)); [simpl; lia | done | done].
Qed.

Lemma dec_value_nonneg p : forallb is_digit p = true -> 0 <= dec_value p.
Proof.
  induction p as [|c p IH] using rev_ind; [by unfold dec_value|].
  rewrite forallb_app, dec_value_app. simpl. intros H. zb_props.
  specialize (IH H). unfold is_digit in H0. zb_props. lia.
Qed.

Lemma text_address_wf s a : text_address s = Some a -> ip_wf a.
Proof.
  unfold text_address, v6_parse, v4_parse. intros H. case_bool.
  - destruct (hex_pairs _) as [b|] eqn:E; [|done]. case_bool; zb_props; simplify_eq.
    split; [done | by eapply hex_pairs_ok].
  - case_bool; zb_props; simplify_eq. split; [by rewrite length_fmap|].
    apply Forall_fmap, list.Forall_forall. intros p Hp. simpl.
    rewrite forallb_forall in H1. apply list_elem_of_In, H1 in Hp.
    unfold octet_ok in Hp. zb_props. unfold is_byte.
    assert (0 <= dec_value p) by by apply dec_value_nonneg. lia.
Qed.

#[export] Instance text_ip_laws : AsioIpLaws text_ip.
Proof.
  constructor; try done.
  - intros [b|b] [? ?]; [by apply v4_roundtrip | by apply v6_roundtrip].
  - intros s a. apply text_address_wf.
Qed.

End TextIp.

(** ** Timers

    What the sources rely on of a [steady_timer]: the waits outstanding on it
    and the completions of cancelled waits still to be delivered, with the
    documented effect of the calls they make. *)

Module Timer.

Record t := mk { waiting : nat; aborted : nat }.

Definition idle : t := mk 0 0.

(** [cancel()]: every outstanding wait completes with [operation_aborted]. *)
Definition cancel (x : t) : t := mk 0 (waiting x + aborted x).

(** [expires_after(d); async_wait(h)]: setting the expiry cancels. *)
Definition arm (x : t) : t := mk 1 (aborted (cancel x)).

(** The expiry delivers one outstanding wait; an abort is delivered for one
    cancelled wait. *)
Definition fire (x : t) : t := mk (waiting x - 1) (aborted x).
Definition deliver_abort (x : t) : t := mk (waiting x) (aborted x - 1).

End Timer.
