(* ===== verification/Address.v ===== *)
(** * Address: SOCKS5 address blocks and the restricted-target guard

    Models [address.hpp] and [address.cpp]: [parse_address] and
    [encode_address], the two directions of the RFC 1928 address block, and
    [is_restricted_target], the guard that keeps a CONNECT out of the
    server's own network. Text conversion and classification of addresses
    come from the interface of [Asio]. *)

From Stdlib Require Import ZArith Lia Btauto.
From stdpp Require Import base list gmap strings numbers.
From S2P Require Import Prelude Config Asio.

(** [struct ParsedAddress]. *)
Record ParsedAddress := mkParsedAddress { pa_host : list Z; pa_port : Z }.

(** [(static_cast<uint16_t>(hi) << 8) | lo], narrowed to 16 bits. *)
Definition port_of_bytes (hi lo : Z) : Z := u16 (Z.lor (Z.shiftl hi 8) lo).

(** [(port >> 8) & 0xFF] and [port & 0xFF], the order both encoders push. *)
Definition port_bytes (port : Z) : list Z :=
  [u8 (Z.land (Z.shiftr port 8) 255); u8 (Z.land port 255)].

Section WithAsio.
Context `{I : AsioIp}.

(** [parse_address(data, data_size, offset)]: [data] may extend past
    [data_size]; every branch checks [data_size] before it reads. *)
Definition parse_address (data : list Z) (data_size offset : nat) : exn_result ParsedAddress :=
  if (data_size <=? offset)%nat then
    Throw (bytes_of_string "Insufficient data for address type")
  else
    let atyp := byte_at data offset in
    if atyp =? SOCKS5_ATYP_IPV4 then
      if (data_size <? offset + 7)%nat then
        Throw (bytes_of_string "Insufficient data for IPv4 address")
      else
        Ret (mkParsedAddress (v4_to_string (slice (offset + 1) 4 data))
               (port_of_bytes (byte_at data (offset + 5)) (byte_at data (offset + 6))))
    else if atyp =? SOCKS5_ATYP_DOMAIN then
      if (data_size <=? offset + 1)%nat then
        Throw (bytes_of_string "Insufficient data for domain length")
      else
        let domain_len := Z.to_nat (byte_at data (offset + 1)) in
        if (data_size <? offset + 2 + domain_len + 2)%nat then
          Throw (bytes_of_string "Insufficient data for domain address")
        else
          let port_offset := (offset + 2 + domain_len)%nat in
          Ret (mkParsedAddress (slice (offset + 2) domain_len data)
                 (port_of_bytes (byte_at data port_offset) (byte_at data (port_offset + 1))))
    else if atyp =? SOCKS5_ATYP_IPV6 then
      if (data_size <? offset + 19)%nat then
        Throw (bytes_of_string "Insufficient data for IPv6 address")
      else
        Ret (mkParsedAddress (v6_to_string (slice (offset + 1) 16 data))
               (port_of_bytes (byte_at data (offset + 17)) (byte_at data (offset + 18))))
    else Throw (bytes_of_string "Unsupported address type: " ++ dec_bytes atyp).

(** [encode_address(host, port)]. *)
Definition encode_address (host : list Z) (port : Z) : exn_result (list Z) :=
  match make_address host with
  | Some (V4 bytes) => Ret (SOCKS5_ATYP_IPV4 :: bytes ++ port_bytes port)
  | Some (V6 bytes) => Ret (SOCKS5_ATYP_IPV6 :: bytes ++ port_bytes port)
  | None =>
      if (255 <? length host)%nat then Throw (bytes_of_string "Domain name too long")
      else Ret (SOCKS5_ATYP_DOMAIN :: u8 (Z.of_nat (length host)) :: host ++ port_bytes port)
  end.

(** The IPv4 branch of [is_restricted_target]. *)
Definition restricted_v4 (b : list Z) : bool :=
  let a := v4_to_uint b in
  let o0 := u8 (Z.land (Z.shiftr a 24) 255) in
  let o1 := u8 (Z.land (Z.shiftr a 16) 255) in
  let o2 := u8 (Z.land (Z.shiftr a 8) 255) in
  if v4_is_unspecified b || v4_is_loopback b || v4_is_multicast b then true
  else if o0 =? 0 then true
  else if o0 =? 10 then true
  else if (o0 =? 100) && (Z.land o1 192 =? 64) then true
  else if (o0 =? 169) && (o1 =? 254) then true
  else if (o0 =? 172) && (Z.land o1 240 =? 16) then true
  else if (o0 =? 192) && (o1 =? 168) then true
  else if (o0 =? 192) && (o1 =? 0) && ((o2 =? 0) || (o2 =? 2)) then true
  else if (o0 =? 192) && (o1 =? 88) && (o2 =? 99) then true
  else if (o0 =? 198) && ((o1 =? 18) || (o1 =? 19)) then true
  else if (o0 =? 198) && (o1 =? 51) && (o2 =? 100) then true
  else if (o0 =? 203) && (o1 =? 0) && (o2 =? 113) then true
  else if 240 <=? o0 then true
  else false.

(** [static_cast<unsigned char>(~byte)]. *)
Definition invert_byte (b : Z) : Z := u8 (Z.lnot b).

(** The IPv6 branch. The lambda [embedded_v4(i)] is the slice at [i]; the
    recursion of the source only ever reaches the IPv4 branch. *)
Definition restricted_v6 (b : list Z) : bool :=
  let embedded_v4 i := slice i 4 b in
  let at_ i := byte_at b i in
  if v6_is_v4_mapped b then restricted_v4 (v6_to_v4 b)
  else if (at_ 0%nat =? 32) && (at_ 1%nat =? 2) && restricted_v4 (embedded_v4 2%nat) then true
  else if (at_ 0%nat =? 32) && (at_ 1%nat =? 1) && (at_ 2%nat =? 0) && (at_ 3%nat =? 0) &&
          (restricted_v4 (embedded_v4 4%nat) ||
           restricted_v4 (invert_byte <$> embedded_v4 12%nat)) then true
  else if (at_ 0%nat =? 0) && (at_ 1%nat =? 100) && (at_ 2%nat =? 255) && (at_ 3%nat =? 155) &&
          (at_ 4%nat =? 0) && ((at_ 5%nat =? 0) || (at_ 5%nat =? 1)) &&
          restricted_v4 (embedded_v4 12%nat) then true
  else if forallb (fun i => at_ i =? 0) (seq 0 12) && restricted_v4 (embedded_v4 12%nat) then true
  else if v6_is_loopback b || v6_is_unspecified b || v6_is_link_local b || v6_is_site_local b ||
          v6_is_multicast b || (Z.land (at_ 0%nat) 254 =? 252) then true
  else if (at_ 0%nat =? 32) && (at_ 1%nat =? 1) && (at_ 2%nat =? 13) && (at_ 3%nat =? 184) then true
  else false.

(** [is_restricted_target(addr)]. *)
Definition is_restricted_target (a : ip_address) : bool :=
  match a with V4 b => restricted_v4 b | V6 b => restricted_v6 b end.

End WithAsio.

(** ** Reference definition: CIDR tables

    The guard written as the list of networks its comments name, with one
    generic prefix test. *)

(** The first [n] bits of [b] are those of the network [p]. *)
Fixpoint in_prefix (n : nat) (p b : list Z) : bool :=
  match n, p, b with
  | S _, x :: p', y :: b' =>
      if (8 <=? n)%nat then (y =? x) && in_prefix (n - 8) p' b'
      else Z.shiftr y (8 - Z.of_nat n) =? Z.shiftr x (8 - Z.of_nat n)
  | _, _, _ => true
  end.

Definition in_networks (nets : list (list Z * nat)) (b : list Z) : bool :=
  existsb (fun '(p, n) => in_prefix n p b) nets.

Definition cidr (p : list Z) (n : nat) : list Z * nat := (p, n).

Definition restricted_v4_networks : list (list Z * nat) :=
  [(cidr [0;0;0;0] 8); (cidr [10;0;0;0] 8); (cidr [100;64;0;0] 10); (cidr [127;0;0;0] 8);
   (cidr [169;254;0;0] 16); (cidr [172;16;0;0] 12); (cidr [192;0;0;0] 24); (cidr [192;0;2;0] 24);
   (cidr [192;88;99;0] 24); (cidr [192;168;0;0] 16); (cidr [198;18;0;0] 15);
   (cidr [198;51;100;0] 24); (cidr [203;0;113;0] 24); (cidr [224;0;0;0] 4); (cidr [240;0;0;0] 4)].

(** [::1/128], [::/128], [fe80::/10], [fec0::/10], [ff00::/8], [fc00::/7]
    and [2001:db8::/32]. *)
Definition restricted_v6_networks : list (list Z * nat) :=
  [(replicate 15 0 ++ [1], 128%nat); (replicate 16 0, 128%nat);
   ([254; 128], 10%nat); ([254; 192], 10%nat); ([255], 8%nat); ([252], 7%nat);
   ([32; 1; 13; 184], 32%nat)].

(** Where a transition prefix hides an IPv4 address: the prefix, its length,
    the offset of the four bytes, and whether they are stored inverted. The
    entries are 6to4, the two of Teredo, the well-known NAT64 prefix
    [64:ff9b::/96], its local-use variant [64:ff9b:1::/48] and [::/96]. *)
Definition v4_embeddings : list (list Z * nat * nat * bool) :=
  [([32; 2], 16%nat, 2%nat, false);
   ([32; 1; 0; 0], 32%nat, 4%nat, false);
   ([32; 1; 0; 0], 32%nat, 12%nat, true);
   ([0; 100; 255; 155] ++ replicate 8 0, 96%nat, 12%nat, false);
   ([0; 100; 255; 155; 0; 1], 48%nat, 12%nat, false);
   (replicate 12 0, 96%nat, 12%nat, false)].

Definition embedded_restricted (b : list Z) : bool :=
  existsb (fun '(p, n, off, inv) =>
             in_prefix n p b &&
             in_networks restricted_v4_networks
               (if inv : bool then (fun x => 255 - x) <$> slice off 4 b else slice off 4 b))
          v4_embeddings.

Definition restricted_spec (a : ip_address) : bool :=
  match a with
  | V4 b => in_networks restricted_v4_networks b
  | V6 b =>
      if in_prefix 96 (replicate 10 0 ++ [255; 255]) b
      then in_networks restricted_v4_networks (slice 12 4 b)
      else embedded_restricted b || in_networks restricted_v6_networks b
  end.

(** Where the code refuses more than its comment and its tests name: it
    compares the first 48 bits of the well-known NAT64 prefix, not the 96. *)
Definition nat64_beyond (a : ip_address) : bool :=
  match a with
  | V4 _ => false
  | V6 b =>
      in_prefix 48 [0; 100; 255; 155; 0; 0] b &&
      negb (in_prefix 96 ([0; 100; 255; 155] ++ replicate 8 0) b) &&
      in_networks restricted_v4_networks (slice 12 4 b)
  end.

(** ** Lemmas *)

Definition all_bytes : list Z := seqZ 0 256.

Lemma all_bytes_complete b : is_byte b -> b ∈ all_bytes.
Proof. intros H. unfold is_byte in H. apply elem_of_seqZ. lia. Qed.

(** A boolean fact on one byte holds when it holds on the 256 values. *)
Lemma byte_forall (P : Z -> bool) b :
  forallb P all_bytes = true -> is_byte b -> P b = true.
Proof.
  intros HP Hb. rewrite forallb_forall in HP. apply HP.
  by apply list_elem_of_In, all_bytes_complete.
Qed.

Lemma port_bytes_length p : length (port_bytes p) = 2%nat.
Proof. done. Qed.

Lemma port_bytes_ok p : bytes_ok (port_bytes p).
Proof. unfold port_bytes. repeat constructor; apply u8_range. Qed.

Lemma port_roundtrip p :
  is_u16 p -> port_of_bytes (byte_at (port_bytes p) 0) (byte_at (port_bytes p) 1) = p.
Proof.
  intros Hp. unfold is_u16 in Hp. unfold port_of_bytes, port_bytes, byte_at. simpl.
  rewrite !land_255, shiftr_8.
  assert (0 <= p / 256 < 256) by (split; [apply Z.div_pos | apply Z.div_lt_upper_bound]; lia).
  assert (0 <= p mod 256 < 256) by (apply Z.mod_pos_bound; lia).
  rewrite (Z.mod_small (p / 256)), !u8_small by lia.
  rewrite lor_shiftl_8 by (unfold is_byte; lia).
  rewrite u16_small; pose proof (Z.div_mod p 256); lia.
Qed.

Lemma be_value_4 b0 b1 b2 b3 :
  bytes_ok [b0; b1; b2; b3] ->
  be_value [b0; b1; b2; b3] = ((b0 * 256 + b1) * 256 + b2) * 256 + b3.
Proof.
  unfold bytes_ok. rewrite !list.Forall_cons. intros (H0 & H1 & H2 & H3 & _).
  unfold be_value, be_step. simpl foldl.
  rewrite !lor_shiftl_8 by done. unfold is_byte in *.
  rewrite (u64_small (0 * 256 + b0)), (u64_small (_ * 256 + b1)), (u64_small (_ * 256 + b2)),
    u64_small by lia. lia.
Qed.

Section Restricted.
Context {I : AsioIp} {L : AsioIpLaws I}.

(** The three octets the guard looks at are the first three bytes. *)
Lemma v4_octets b0 b1 b2 b3 (a := v4_to_uint [b0; b1; b2; b3]) :
  bytes_ok [b0; b1; b2; b3] ->
  u8 (Z.land (Z.shiftr a 24) 255) = b0 /\ u8 (Z.land (Z.shiftr a 16) 255) = b1 /\
  u8 (Z.land (Z.shiftr a 8) 255) = b2.
Proof.
  intros Hb. unfold a. rewrite v4_to_uint_be, be_value_4 by done.
  unfold bytes_ok in Hb. rewrite !list.Forall_cons in Hb. destruct Hb as (H0 & H1 & H2 & H3 & _).
  unfold is_byte in *.
  assert (E : forall q k r v, 0 <= q < 256 -> 0 <= k -> 0 <= r < 2 ^ k -> v mod 256 = q ->
     u8 (Z.land (Z.shiftr (v * 2 ^ k + r) k) 255) = q).
  { intros q k r v Hq Hk Hr Hv. assert (0 < 2 ^ k) by (apply Z.pow_pos_nonneg; lia).
    rewrite land_255, Z.shiftr_div_pow2, Z.div_add_l, (Z.div_small r), Z.add_0_r by lia.
    rewrite Hv. by apply u8_small. }
  split_and!.
  - replace (((b0 * 256 + b1) * 256 + b2) * 256 + b3)
      with (b0 * 2 ^ 24 + ((b1 * 256 + b2) * 256 + b3)) by lia.
    apply E; try lia. by apply Z.mod_small.
  - replace (((b0 * 256 + b1) * 256 + b2) * 256 + b3)
      with ((b0 * 256 + b1) * 2 ^ 16 + (b2 * 256 + b3)) by lia.
    apply E; try lia. rewrite Z.add_comm, Z_mod_plus_full. by apply Z.mod_small.
  - replace (((b0 * 256 + b1) * 256 + b2) * 256 + b3)
      with (((b0 * 256 + b1) * 256 + b2) * 2 ^ 8 + b3) by lia.
    apply E; try lia. rewrite Z.add_comm, Z_mod_plus_full. by apply Z.mod_small.
Qed.

Lemma if_true_orb (c d : bool) : (if c then true else d) = c || d.
Proof. by destruct c. Qed.

(** Unfold the prefix tests of a table of literal networks. *)
Ltac eval_prefixes :=
  cbn -[Z.eqb Z.shiftr Z.sub Z.of_nat Z.leb];
  change (8 - Z.of_nat 2) with 6; change (8 - Z.of_nat 4) with 4;
  change (8 - Z.of_nat 7) with 1;
  repeat match goal with
  | |- context [Z.shiftr (Zpos ?x) ?k] =>
      let v := eval vm_compute in (Z.shiftr (Zpos x) k) in
      change (Z.shiftr (Zpos x) k) with v
  end.

(** Masked comparisons of the guard as prefix comparisons. *)
Lemma mask_shift y :
  is_byte y ->
  (Z.land y 192 =? 64) = (Z.shiftr y 6 =? 1) /\
  (Z.land y 240 =? 16) = (Z.shiftr y 4 =? 1) /\
  (Z.land y 192 =? 128) = (Z.shiftr y 6 =? 2) /\
  (Z.land y 192 =? 192) = (Z.shiftr y 6 =? 3) /\
  (Z.land y 254 =? 252) = (Z.shiftr y 1 =? 126) /\
  ((y =? 18) || (y =? 19)) = (Z.shiftr y 1 =? 9) /\
  ((224 <=? y) && (y <=? 239)) = (Z.shiftr y 4 =? 14) /\
  (240 <=? y) = (Z.shiftr y 4 =? 15).
Proof.
  intros Hy. split_and!; apply eqb_prop;
    refine (byte_forall (fun y => Bool.eqb _ _) y _ Hy); by vm_compute.
Qed.

Lemma restricted_v4_networks_ok b :
  length b = 4%nat -> bytes_ok b ->
  restricted_v4 b = in_networks restricted_v4_networks b.
Proof.
  intros Hl Hb. destruct b as [|b0 [|b1 [|b2 [|b3 [|]]]]]; try done.
  unfold restricted_v4. destruct (v4_octets _ _ _ _ Hb) as (-> & -> & ->).
  rewrite v4_is_unspecified_spec, v4_is_loopback_spec, v4_is_multicast_spec by done.
  unfold bytes_ok in Hb. rewrite !list.Forall_cons in Hb. destruct Hb as (H0 & H1 & H2 & H3 & _).
  destruct (mask_shift b0 H0) as (_ & _ & _ & _ & _ & _ & E4 & E15).
  destruct (mask_shift b1 H1) as (E1 & E2 & _ & _ & _ & E6 & _ & _).
  unfold byte_at. eval_prefixes. rewrite E1, E2, E4, E6, E15.
  rewrite !if_true_orb.
  assert (Hz : bool_decide ([b0; b1; b2; b3] = [0; 0; 0; 0]) =
               bool_decide ([b0; b1; b2; b3] = [0; 0; 0; 0]) && (b0 =? 0)).
  { case_bool_decide as H; [|done]. by simplify_eq. }
  rewrite Hz. btauto.
Qed.

Lemma cons_eq_decide x y (l k : list Z) :
  bool_decide (x :: l = y :: k) = (x =? y) && bool_decide (l = k).
Proof.
  apply eq_true_iff_eq. rewrite andb_true_iff, Z.eqb_eq, !bool_decide_eq_true.
  split; [by intros [= -> ->] | by intros [-> ->]].
Qed.

Lemma invert_byte_sub b : is_byte b -> invert_byte b = 255 - b.
Proof.
  intros Hb. unfold is_byte in Hb. unfold invert_byte, u8.
  rewrite <- (Z_mod_plus_full _ 1), Z.mod_small; unfold Z.lnot; lia.
Qed.

Lemma invert_bytes_sub l : bytes_ok l -> invert_byte <$> l = (fun x => 255 - x) <$> l.
Proof.
  induction 1 as [|x l Hx Hl IH]; [done|]. by rewrite !fmap_cons, IH, invert_byte_sub.
Qed.

Lemma restricted_v4_slice b off :
  (off + 4 <= length b)%nat -> bytes_ok b ->
  restricted_v4 (slice off 4 b) = in_networks restricted_v4_networks (slice off 4 b).
Proof.
  intros. apply restricted_v4_networks_ok; [by apply length_slice | by apply slice_ok].
Qed.

Lemma restricted_v6_ok b :
  length b = 16%nat -> bytes_ok b -> restricted_v6 b = restricted_spec (V6 b) || nat64_beyond (V6 b).
Proof.
  intros Hl Hb. unfold restricted_v6, restricted_spec, embedded_restricted, nat64_beyond.
  assert (Hinv : restricted_v4 (invert_byte <$> slice 12 4 b) =
          in_networks restricted_v4_networks ((fun x => 255 - x) <$> slice 12 4 b)).
  { rewrite <- invert_bytes_sub by (by apply slice_ok). apply restricted_v4_networks_ok.
    - rewrite length_fmap, length_slice; [done | lia].
    - apply Forall_fmap, Forall_true. intros x. apply u8_range. }
  rewrite Hinv. cbn [existsb v4_embeddings].
  rewrite !restricted_v4_slice by (done || lia).
  rewrite v6_is_loopback_spec, v6_is_unspecified_spec, v6_is_link_local_spec,
    v6_is_site_local_spec, v6_is_multicast_spec, v6_is_v4_mapped_spec by done.
  assert (Hm : starts_with (replicate 10 0 ++ [255; 255]) b = true ->
               restricted_v4 (v6_to_v4 b) = in_networks restricted_v4_networks (slice 12 4 b)).
  { intros Hs. rewrite v6_to_v4_spec by (done || by rewrite v6_is_v4_mapped_spec).
    apply restricted_v4_slice; [lia | done]. }
  revert Hm. generalize (restricted_v4 (v6_to_v4 b)).
  generalize (in_networks restricted_v4_networks (slice 2 4 b)).
  generalize (in_networks restricted_v4_networks (slice 4 4 b)).
  generalize (in_networks restricted_v4_networks (slice 12 4 b)).
  generalize (in_networks restricted_v4_networks ((fun x => 255 - x) <$> slice 12 4 b)).
  intros e12i e12 e4 e2 em Hm. clear Hinv.
  pose proof (mask_shift _ (byte_at_ok _ 0 Hb)) as (_ & _ & _ & _ & E5 & _).
  pose proof (mask_shift _ (byte_at_ok _ 1 Hb)) as (_ & _ & E3 & E4 & _).
  rewrite E5, E3, E4. clear E5 E3 E4 Hb.
  do 16 (destruct b as [|? b]; [done|]). destruct b; [|done].
  revert Hm. unfold starts_with, in_networks, restricted_v6_networks, byte_at.
  eval_prefixes. rewrite !cons_eq_decide.
  rewrite !if_true_orb. change (bool_decide (@nil Z = [])) with true.
  match goal with |- (?c = true -> _) -> _ => destruct c end; intros Hm;
    [rewrite Hm by done; btauto | btauto].
Qed.

(** C29: the SSRF guard refuses the table of networks its comments
    document and one block more. The documented table: an address that lies
    in one of the listed IPv4 or IPv6 networks, or an IPv4-mapped, 6to4,
    Teredo, NAT64 ([64:ff9b::/96] or [64:ff9b:1::/48]) or IPv4-compatible
    address whose embedded (for the Teredo client, inverted) IPv4 address
    does. The block more is where the code differs from its comment: an
    address of [64:ff9b:0::/48] outside [64:ff9b::/96] whose last four bytes
    are a listed IPv4 address is refused too. Everything else is allowed. *)
Theorem is_restricted_target_spec (a : ip_address) :
  ip_wf a -> is_restricted_target a = restricted_spec a || nat64_beyond a.
Proof.
  destruct a as [b|b]; intros [Hl Hb].
  - change (restricted_v4 b = in_networks restricted_v4_networks b || false).
    by rewrite orb_false_r, restricted_v4_networks_ok.
  - by apply restricted_v6_ok.
Qed.

(** The host a peer recovers from an encoded address: the library's text for
    a literal address, the name itself otherwise. *)
Definition canonical_host (host : list Z) : list Z :=
  match make_address host with Some a => addr_to_string a | None => host end.

Lemma port_middle l p k n :
  length l = n -> is_u16 p ->
  port_of_bytes (byte_at (l ++ port_bytes p ++ k) n)
                (byte_at (l ++ port_bytes p ++ k) (n + 1)) = p.
Proof.
  intros <- Hp.
  rewrite (byte_at_app_r l _ (length l)), (byte_at_app_r l _ (length l + 1)) by lia.
  replace (length l - length l)%nat with 0%nat by lia.
  replace (length l + 1 - length l)%nat with 1%nat by lia. by apply port_roundtrip.
Qed.

(** Reading one address block [atyp :: len ++ name ++ port] in the middle of
    a buffer: its address bytes and its port. *)
Lemma block_fields pre hdr name port suf (d := pre ++ (hdr ++ name ++ port_bytes port) ++ suf) :
  is_u16 port ->
  slice (length pre + length hdr) (length name) d = name /\
  port_of_bytes (byte_at d (length pre + length hdr + length name))
                (byte_at d (length pre + length hdr + length name + 1)) = port.
Proof.
  intros Hp. unfold d. split.
  - rewrite <- !app_assoc, (app_assoc pre hdr). apply slice_middle; [apply length_app | done].
  - rewrite <- !app_assoc, (app_assoc pre hdr), (app_assoc _ name).
    apply port_middle; [by rewrite !length_app | done].
Qed.

Lemma parse_encoded_v4 b port pre suf size (enc := SOCKS5_ATYP_IPV4 :: b ++ port_bytes port) :
  length b = 4%nat -> is_u16 port -> (length pre + length enc <= size)%nat ->
  parse_address (pre ++ enc ++ suf) size (length pre) =
  Ret (mkParsedAddress (v4_to_string b) port).
Proof.
  intros Hl Hp. unfold enc. simpl length. rewrite length_app, Hl, port_bytes_length. intros Hs.
  destruct (block_fields pre [SOCKS5_ATYP_IPV4] b port suf Hp) as [E1 E2].
  unfold parse_address. rewrite (proj2 (Nat.leb_gt _ _)) by lia.
  simpl app in *. rewrite byte_at_middle by done. simpl.
  rewrite (proj2 (Nat.ltb_ge _ _)) by lia. rewrite Hl in *. simpl length in *.
  replace (length pre + 6)%nat with (length pre + 1 + 4 + 1)%nat by lia.
  replace (length pre + 5)%nat with (length pre + 1 + 4)%nat by lia. by rewrite E1, E2.
Qed.

Lemma parse_encoded_v6 b port pre suf size (enc := SOCKS5_ATYP_IPV6 :: b ++ port_bytes port) :
  length b = 16%nat -> is_u16 port -> (length pre + length enc <= size)%nat ->
  parse_address (pre ++ enc ++ suf) size (length pre) =
  Ret (mkParsedAddress (v6_to_string b) port).
Proof.
  intros Hl Hp. unfold enc. simpl length. rewrite length_app, Hl, port_bytes_length. intros Hs.
  destruct (block_fields pre [SOCKS5_ATYP_IPV6] b port suf Hp) as [E1 E2].
  unfold parse_address. rewrite (proj2 (Nat.leb_gt _ _)) by lia.
  simpl app in *. rewrite byte_at_middle by done. simpl.
  rewrite (proj2 (Nat.ltb_ge _ _)) by lia. rewrite Hl in *. simpl length in *.
  replace (length pre + 18)%nat with (length pre + 1 + 16 + 1)%nat by lia.
  replace (length pre + 17)%nat with (length pre + 1 + 16)%nat by lia. by rewrite E1, E2.
Qed.

Lemma parse_encoded_domain host port pre suf size
    (enc := SOCKS5_ATYP_DOMAIN :: u8 (Z.of_nat (length host)) :: host ++ port_bytes port) :
  (length host <= 255)%nat -> is_u16 port -> (length pre + length enc <= size)%nat ->
  parse_address (pre ++ enc ++ suf) size (length pre) = Ret (mkParsedAddress host port).
Proof.
  intros Hl Hp. unfold enc. simpl length. rewrite length_app, port_bytes_length. intros Hs.
  set (hdr := [SOCKS5_ATYP_DOMAIN; u8 (Z.of_nat (length host))]).
  destruct (block_fields pre hdr host port suf Hp) as [E1 E2].
  assert (Hlen : byte_at (pre ++ (hdr ++ host ++ port_bytes port) ++ suf) (length pre + 1)
                 = Z.of_nat (length host)).
  { rewrite byte_at_app_r by lia. replace (length pre + 1 - length pre)%nat with 1%nat by lia.
    simpl. unfold byte_at. simpl. apply u8_small. lia. }
  unfold parse_address. rewrite (proj2 (Nat.leb_gt _ (length pre))) by lia.
  simpl app in *. rewrite byte_at_middle by done. simpl.
  rewrite (proj2 (Nat.leb_gt _ _)), Hlen, Nat2Z.id, (proj2 (Nat.ltb_ge _ _)) by lia.
  simpl length in *. by rewrite E1, E2.
Qed.

(** [parse_address] inverts [encode_address] at any position of any
    buffer that holds the encoded block: a literal address comes back in the
    library's canonical text, any other name byte for byte, and the port is
    exact. Encoding fails only for a name of more than 255 bytes that is not
    a literal address. *)
Theorem encode_parse_address (host : list Z) (port : Z) (pre suf : list Z) (size : nat) :
  is_u16 port ->
  match encode_address host port with
  | Ret enc =>
      (length pre + length enc <= size)%nat ->
      parse_address (pre ++ enc ++ suf) size (length pre) =
      Ret (mkParsedAddress (canonical_host host) port)
  | Throw _ => make_address host = None /\ (255 < length host)%nat
  end.
Proof.
  intros Hp. unfold encode_address, canonical_host.
  destruct (make_address host) as [[b|b]|] eqn:E.
  - apply make_address_wf in E as [Hl _]. by apply parse_encoded_v4.
  - apply make_address_wf in E as [Hl _]. by apply parse_encoded_v6.
  - destruct (255 <? length host)%nat eqn:Hlen; zb_props; [done|].
    by apply parse_encoded_domain.
Qed.

End Restricted.

Lemma encode_parse_address_witness :
  parse_address (I := TextIp.text_ip)
    ([5; 1; 0] ++ (3 :: 11 :: bytes_of_string "example.com" ++ [1; 187]) ++ [71; 69]) 18 3 =
  Ret (mkParsedAddress (bytes_of_string "example.com") 443).
Proof.
  assert (Hp : is_u16 443) by (split; lia).
  pose proof (encode_parse_address (L := TextIp.text_ip_laws) (bytes_of_string "example.com") 443
    [5; 1; 0] [71; 69] 18 Hp) as H.
  vm_compute in H. vm_compute. apply H. lia.
Defined.

(** 127.0.0.1 behind the 6to4 prefix is refused, a public address is not; and
    64:ff9b:0:1::127.0.0.1, outside the documented [/96], is refused. *)
Lemma is_restricted_target_witness :
  is_restricted_target (I := TextIp.text_ip) (V6 ([32; 2; 127; 0; 0; 1] ++ replicate 10 0)) = true /\
  is_restricted_target (I := TextIp.text_ip) (V4 [192; 0; 1; 7]) = false /\
  (let a := V6 ([0; 100; 255; 155; 0; 0; 0; 1] ++ replicate 4 0 ++ [127; 0; 0; 1]) in
   is_restricted_target (I := TextIp.text_ip) a = true /\ restricted_spec a = false).
Proof.
  intros; split; [|split; [|split; [|by vm_compute]]]; rewrite (is_restricted_target_spec (L := TextIp.text_ip_laws)) by (split; [done | by eapply bool_decide_unpack]);
    vm_compute; reflexivity.
Defined.
