(* ===== verification/Socks5.v ===== *)
(** * Socks5: the RFC 1928 request and reply codecs

    Models [socks5.hpp] and [socks5.cpp] ([SOCKS5Response::build],
    [parse_socks5_request], [parse_socks5_reply]) and the CONNECT request
    the client writes ([handle_sync_request] in client.cpp). *)

From Stdlib Require Import ZArith Lia.
From stdpp Require Import base list gmap strings numbers.
From S2P Require Import Prelude Config Asio Address.

Record SOCKS5Request := mkRequest {
  req_cmd : Z; req_host : list Z; req_port : Z; req_atyp : Z;
  req_initial_payload : list Z }.

Record SOCKS5Response := mkResponse { rsp_reply : Z; rsp_host : list Z; rsp_port : Z }.

Inductive SOCKS5ParseStatus := PsNeedMore | PsComplete | PsInvalid.

Record SOCKS5ParseResult := mkParseResult {
  pr_status : SOCKS5ParseStatus;
  pr_request : option SOCKS5Request;
  pr_error : list Z;
  pr_bad_atyp : bool }.

Record SOCKS5Reply := mkReply {
  rep_reply : Z; rep_host : list Z; rep_port : Z; rep_length : nat }.

Inductive SOCKS5ReplyStatus := RsNeedMore | RsComplete | RsInvalid.

Record SOCKS5ReplyResult := mkReplyResult {
  rr_status : SOCKS5ReplyStatus;
  rr_reply : option SOCKS5Reply;
  rr_error : list Z }.

(** The default-constructed results the parsers return for "need more". *)
Definition parse_need_more : SOCKS5ParseResult := mkParseResult PsNeedMore None [] false.
Definition reply_need_more : SOCKS5ReplyResult := mkReplyResult RsNeedMore None [].
Definition parse_invalid (err : list Z) (bad_atyp : bool) : SOCKS5ParseResult :=
  mkParseResult PsInvalid None err bad_atyp.
Definition reply_invalid (err : list Z) : SOCKS5ReplyResult := mkReplyResult RsInvalid None err.

(** [std::string::find(needle) != npos]. *)
Fixpoint contains (needle l : list Z) : bool :=
  starts_with needle l || match l with [] => false | _ :: l' => contains needle l' end.

(** What both parsers do before they decode the address: the length checks,
    VER, RSV and ATYP validation, and the computation of [need]. The two
    copies in the source differ only in their messages. *)
Inductive header_scan : Type :=
| HNeedMore
| HInvalid (error : list Z) (bad_atyp : bool)
| HNeed (need : nat).

Record header_messages := mkMessages {
  msg_version : list Z; msg_reserved : list Z; msg_empty : list Z; msg_atyp : list Z }.

Definition scan_header (m : header_messages) (data : list Z) : header_scan :=
  if (length data <? 4)%nat then HNeedMore
  else if negb (byte_at data 0 =? SOCKS5_VERSION) then
    HInvalid (msg_version m ++ dec_bytes (byte_at data 0)) false
  else if negb (byte_at data 2 =? 0) then
    HInvalid (msg_reserved m ++ dec_bytes (byte_at data 2)) false
  else
    let atyp := byte_at data 3 in
    if atyp =? SOCKS5_ATYP_IPV4 then HNeed (4 + 4 + 2)
    else if atyp =? SOCKS5_ATYP_IPV6 then HNeed (4 + 16 + 2)
    else if atyp =? SOCKS5_ATYP_DOMAIN then
      if (length data <? 5)%nat then HNeedMore
      else
        let domain_len := Z.to_nat (byte_at data 4) in
        if (domain_len =? 0)%nat then HInvalid (msg_empty m) false
        else HNeed (4 + 1 + domain_len + 2)
    else HInvalid (msg_atyp m ++ dec_bytes atyp) true.

Definition request_messages : header_messages :=
  mkMessages (bytes_of_string "invalid SOCKS5 version: ")
             (bytes_of_string "invalid SOCKS5 reserved byte: ")
             (bytes_of_string "empty domain")
             (bytes_of_string "unsupported address type: ").

Definition reply_messages : header_messages :=
  mkMessages (bytes_of_string "invalid SOCKS5 reply version: ")
             (bytes_of_string "invalid SOCKS5 reply reserved byte: ")
             (bytes_of_string "empty domain in SOCKS5 reply")
             (bytes_of_string "unsupported reply address type: ").

Section WithAsio.
Context {I : AsioIp}.

(** [SOCKS5Response::build()]. *)
Definition build (r : SOCKS5Response) : exn_result (list Z) :=
  let hdr := [SOCKS5_VERSION; rsp_reply r; 0] in
  if bool_decide (rsp_host r = []) then
    Ret (hdr ++ SOCKS5_ATYP_IPV4 :: [0; 0; 0; 0] ++ port_bytes (rsp_port r))
  else
    match encode_address (rsp_host r) (rsp_port r) with
    | Ret addr => Ret (hdr ++ addr)
    | Throw e => Throw e
    end.

(** [parse_socks5_request(data)]. *)
Definition parse_socks5_request (data : list Z) : SOCKS5ParseResult :=
  match scan_header request_messages data with
  | HNeedMore => parse_need_more
  | HInvalid e bad => parse_invalid e bad
  | HNeed need =>
      if (length data <? need)%nat then parse_need_more
      else
        match parse_address data need 3 with
        | Ret parsed =>
            mkParseResult PsComplete
              (Some (mkRequest (byte_at data 1) (pa_host parsed) (pa_port parsed)
                               (byte_at data 3)
                               (if (need <? length data)%nat then drop need data else [])))
              [] false
        | Throw what =>
            parse_invalid what (contains (bytes_of_string "Unsupported address type") what)
        end
  end.

(** [parse_socks5_reply(data)]. *)
Definition parse_socks5_reply (data : list Z) : SOCKS5ReplyResult :=
  match scan_header reply_messages data with
  | HNeedMore => reply_need_more
  | HInvalid e _ => reply_invalid e
  | HNeed need =>
      if (length data <? need)%nat then reply_need_more
      else
        match parse_address data need 3 with
        | Ret parsed =>
            mkReplyResult RsComplete
              (Some (mkReply (byte_at data 1) (pa_host parsed) (pa_port parsed) need)) []
        | Throw what => reply_invalid what
        end
  end.

(** The CONNECT request [handle_sync_request] sends through the tunnel. *)
Definition build_connect_request (host : list Z) (port : Z) : exn_result (list Z) :=
  match encode_address host port with
  | Ret addr => Ret ([SOCKS5_VERSION; SOCKS5_CMD_CONNECT; 0] ++ addr)
  | Throw e => Throw e
  end.

(** ** What the scan establishes *)

Lemma scan_need_bounds m data need :
  bytes_ok data -> scan_header m data = HNeed need ->
  (10 <= need \/ need = 7 + Z.to_nat (byte_at data 4) /\ byte_at data 3 = SOCKS5_ATYP_DOMAIN)%nat
  /\ (7 <= need <= 262)%nat.
Proof.
  intros Hb. unfold scan_header. pose proof (byte_at_ok data 4 Hb) as H4. unfold is_byte in H4.
  repeat case_bool; zb_props; intros [= <-]; lia.
Qed.

(** The scan only looks at the first five bytes. *)
Lemma scan_header_app m data more :
  scan_header m data <> HNeedMore -> scan_header m (data ++ more) = scan_header m data.
Proof.
  unfold scan_header. intros H. destruct (length data <? 4)%nat eqn:E4; [done|].
  zb_props. rewrite length_app, (proj2 (Nat.ltb_ge _ 4)) by lia.
  rewrite (byte_at_app_l _ _ 0), (byte_at_app_l _ _ 2), (byte_at_app_l _ _ 3) by lia.
  destruct (length data <? 5)%nat eqn:E5; zb_props.
  - repeat (case_bool; try done).
  - by rewrite (byte_at_app_l _ _ 4), (proj2 (Nat.ltb_ge _ 5)) by lia.
Qed.

(** Reads below the bound do not see what follows. *)
Lemma parse_address_app data more size off :
  (size <= length data)%nat -> parse_address (data ++ more) size off = parse_address data size off.
Proof.
  intros Hs. unfold parse_address.
  destruct (size <=? off)%nat eqn:E0; [done|]. zb_props.
  rewrite (byte_at_app_l _ _ off) by lia.
  repeat case_bool; zb_props; try done; try lia;
    repeat (rewrite byte_at_app_l in * by lia); rewrite ?slice_app_l in * by lia; try done; try lia.
Qed.

(** With [need] bytes present the address decoder cannot fail: the catch
    block of both parsers is unreachable. *)
Lemma scan_parse_address m data need :
  scan_header m data = HNeed need -> exists p, parse_address data need 3 = Ret p.
Proof.
  unfold scan_header, parse_address, SOCKS5_ATYP_IPV4, SOCKS5_ATYP_IPV6, SOCKS5_ATYP_DOMAIN.
  intros H. repeat (case_bool; try done); simplify_eq; zb_props;
    try lia; eauto.
  change (3 + 1)%nat with 4%nat in *. lia.
Qed.

(** Request parsing is stable under more input. A request that is
    complete or invalid stays so whatever bytes follow, with the same
    command, host, port, address type and error; the extra bytes are appended
    to the initial payload and nothing else changes. *)
Theorem parse_socks5_request_app (data more : list Z) :
  match pr_status (parse_socks5_request data) with
  | PsNeedMore => True
  | PsInvalid => parse_socks5_request (data ++ more) = parse_socks5_request data
  | PsComplete =>
      exists req, pr_request (parse_socks5_request data) = Some req /\
        parse_socks5_request (data ++ more) =
        mkParseResult PsComplete
          (Some (mkRequest (req_cmd req) (req_host req) (req_port req) (req_atyp req)
                           (req_initial_payload req ++ more))) [] false
  end.
Proof.
  unfold parse_socks5_request.
  destruct (scan_header request_messages data) as [|e b|need] eqn:E; simpl; [done| |].
  - rewrite scan_header_app by congruence. by rewrite E.
  - destruct (length data <? need)%nat eqn:El; [done|]. zb_props.
    destruct (scan_parse_address _ _ _ E) as [p Hp]. rewrite Hp. simpl.
    eexists. split; [done|]. rewrite scan_header_app, E by congruence.
    rewrite parse_address_app, Hp, (proj2 (Nat.ltb_ge _ need)) by (rewrite ?length_app; lia).
    assert (4 <= need)%nat.
    { unfold scan_header in E. repeat case_bool; simplify_eq; lia. }
    rewrite !byte_at_app_l by lia. simpl. do 3 f_equal.
    rewrite drop_app_le, length_app by lia.
    repeat case_bool; zb_props; rewrite ?drop_ge by lia; try done; try lia.
    by rewrite (nil_length_inv more) by lia.
Qed.

(** A parser never asks for more once 262 bytes (the longest request:
    4 + 1 + 255 + 2) are present, so the accumulation loops that call it
    terminate on every input. *)
Theorem parse_socks5_needs_at_most_262 (data : list Z) :
  bytes_ok data -> (262 <= length data)%nat ->
  pr_status (parse_socks5_request data) <> PsNeedMore /\
  rr_status (parse_socks5_reply data) <> RsNeedMore.
Proof.
  intros Hb Hl. unfold parse_socks5_request, parse_socks5_reply. split.
  - destruct (scan_header request_messages data) as [|e b|need] eqn:E; [|done|].
    { unfold scan_header in E. repeat case_bool; zb_props; simplify_eq; lia. }
    destruct (scan_need_bounds _ _ _ Hb E) as [_ Hn].
    rewrite (proj2 (Nat.ltb_ge _ _)) by lia. by destruct (parse_address _ _ _).
  - destruct (scan_header reply_messages data) as [|e b|need] eqn:E; [|done|].
    { unfold scan_header in E. repeat case_bool; zb_props; simplify_eq; lia. }
    destruct (scan_need_bounds _ _ _ Hb E) as [_ Hn].
    rewrite (proj2 (Nat.ltb_ge _ _)) by lia. by destruct (parse_address _ _ _).
Qed.

(** ** Round trips *)

Context {L : AsioIpLaws I}.

(** Scanning a well-formed header that carries an encoded address. *)
Lemma scan_encoded m b1 host port enc suf :
  host <> [] -> encode_address host port = Ret enc ->
  scan_header m ([SOCKS5_VERSION; b1; 0] ++ enc ++ suf) = HNeed (3 + length enc) /\
  byte_at ([SOCKS5_VERSION; b1; 0] ++ enc ++ suf) 3 = byte_at enc 0.
Proof.
  intros Hne He. unfold encode_address in He.
  destruct (make_address host) as [[b|b]|] eqn:Em.
  - apply make_address_wf in Em as [Hl _]. simplify_eq.
    do 4 (destruct b as [|? b]; [done|]). by destruct b.
  - apply make_address_wf in Em as [Hl _]. simplify_eq.
    do 16 (destruct b as [|? b]; [done|]). by destruct b.
  - case_bool; zb_props; simplify_eq. split; [|done].
    unfold scan_header, byte_at. simpl. rewrite u8_small by lia.
    rewrite Nat2Z.id, length_app, port_bytes_length.
    destruct host; [done | reflexivity].
Qed.

(** Parsing a built request. *)
Lemma connect_request_parses (host : list Z) (port : Z) (payload : list Z) :
  host <> [] -> is_u16 port ->
  match build_connect_request host port with
  | Ret req =>
      exists atyp,
      parse_socks5_request (req ++ payload) =
      mkParseResult PsComplete
        (Some (mkRequest SOCKS5_CMD_CONNECT (canonical_host host) port atyp payload)) [] false
  | Throw _ => make_address host = None /\ (255 < length host)%nat
  end.
Proof.
  intros Hne Hp. unfold build_connect_request.
  set (hdr := [SOCKS5_VERSION; SOCKS5_CMD_CONNECT; 0]).
  pose proof (fun size => encode_parse_address host port hdr payload size Hp) as Hr.
  destruct (encode_address host port) as [enc|] eqn:He; [|exact (Hr 0%nat)].
  exists (byte_at enc 0). rewrite <- app_assoc. unfold parse_socks5_request.
  destruct (scan_encoded request_messages SOCKS5_CMD_CONNECT host port enc payload Hne He)
    as [E1 E2]. fold hdr in E1, E2. rewrite E1, E2.
  rewrite (proj2 (Nat.ltb_ge _ _)) by (rewrite !length_app; simpl; lia).
  change 3%nat with (length hdr) at 2. rewrite Hr by (simpl; lia). simpl.
  do 3 f_equal. rewrite length_app, skipn_app, drop_ge, Nat.sub_diag by lia. simpl.
  case_bool; zb_props; [done|]. by rewrite (nil_length_inv payload) by lia.
Qed.

(** C39: the server's parser inverts the client's CONNECT request: for every
    non-empty target the client can encode, the server reads CONNECT, the
    canonical host, the exact port, and as initial payload exactly the bytes
    that follow the request. *)
Theorem connect_request_roundtrip (host : list Z) (port : Z) (payload : list Z) :
  host <> [] -> is_u16 port ->
  match build_connect_request host port with
  | Ret req =>
      exists atyp,
      parse_socks5_request (req ++ payload) =
      mkParseResult PsComplete
        (Some (mkRequest SOCKS5_CMD_CONNECT (canonical_host host) port atyp payload)) [] false
  | Throw _ => make_address host = None /\ (255 < length host)%nat
  end.
Proof. apply connect_request_parses. Qed.

(** The client's reply parser inverts [SOCKS5Response::build] whatever
    payload follows in the same message: same reply code, same bound address
    (0.0.0.0 for the empty one), and a consumed length equal to the built
    message, so the remainder the client forwards is exactly the payload. *)
Theorem reply_roundtrip (r : SOCKS5Response) (payload : list Z) :
  is_u16 (rsp_port r) ->
  match build r with
  | Ret msg =>
      exists rep, parse_socks5_reply (msg ++ payload) = mkReplyResult RsComplete (Some rep) [] /\
        rep_reply rep = rsp_reply r /\ rep_port rep = rsp_port r /\
        rep_host rep = (if bool_decide (rsp_host r = []) then v4_to_string [0; 0; 0; 0]
                        else canonical_host (rsp_host r)) /\
        drop (rep_length rep) (msg ++ payload) = payload
  | Throw _ => make_address (rsp_host r) = None /\ (255 < length (rsp_host r))%nat
  end.
Proof.
  intros Hp. unfold build. set (hdr := [SOCKS5_VERSION; rsp_reply r; 0]).
  case_bool_decide as Hh.
  - pose proof (parse_encoded_v4 [0; 0; 0; 0] (rsp_port r) hdr payload 10 eq_refl Hp) as Hr.
    unfold parse_socks5_reply. rewrite <- app_assoc.
    assert (E : forall l, scan_header reply_messages
              (hdr ++ (SOCKS5_ATYP_IPV4 :: [0; 0; 0; 0] ++ port_bytes (rsp_port r)) ++ l) = HNeed 10)
      by done.
    rewrite E, (proj2 (Nat.ltb_ge _ _)) by (simpl; lia).
    change (parse_address ?a ?b 3) with (parse_address a b (length hdr)). rewrite Hr by (simpl; lia). by eexists.
  - pose proof (fun size => encode_parse_address (rsp_host r) (rsp_port r) hdr payload size Hp) as Hr.
    destruct (encode_address (rsp_host r) (rsp_port r)) as [enc|] eqn:He; [|exact (Hr 0%nat)].
    rewrite <- app_assoc. unfold parse_socks5_reply.
    destruct (scan_encoded reply_messages (rsp_reply r) _ _ enc payload Hh He) as [E1 _].
    fold hdr in E1. rewrite E1.
    rewrite (proj2 (Nat.ltb_ge _ _)) by (rewrite !length_app; simpl; lia).
    change 3%nat with (length hdr) at 2. rewrite Hr by (simpl; lia).
    eexists. split; [done|]. simpl. split_and!; try done. apply drop_app_length.
Qed.
End WithAsio.

Lemma parse_socks5_needs_at_most_262_witness :
  pr_status (parse_socks5_request (I := TextIp.text_ip) (replicate 262 5)) <> PsNeedMore.
Proof.
  apply (parse_socks5_needs_at_most_262 (I := TextIp.text_ip) (replicate 262 5)).
  - by eapply bool_decide_unpack.
  - vm_compute. lia.
Defined.

Lemma connect_request_roundtrip_witness :
  exists atyp,
  parse_socks5_request (I := TextIp.text_ip)
    ([5; 1; 0; 3; 1; 97; 0; 80] ++ [71; 69; 84]) =
  mkParseResult PsComplete (Some (mkRequest 1 [97] 80 atyp [71; 69; 84])) [] false.
Proof.
  assert (Hp : is_u16 80) by (split; lia).
  pose proof (connect_request_roundtrip (L := TextIp.text_ip_laws) [97] 80 [71; 69; 84]
    ltac:(done) Hp) as H.
  vm_compute in H. vm_compute. apply H.
Defined.

Lemma reply_roundtrip_witness :
  exists rep,
  parse_socks5_reply (I := TextIp.text_ip) ([5; 5; 0; 1; 0; 0; 0; 0; 0; 0] ++ [1; 2]) =
  mkReplyResult RsComplete (Some rep) [] /\ rep_reply rep = 5 /\
  drop (rep_length rep) ([5; 5; 0; 1; 0; 0; 0; 0; 0; 0] ++ [1; 2]) = [1; 2].
Proof.
  assert (Hp : is_u16 0) by (split; lia).
  destruct (reply_roundtrip (L := TextIp.text_ip_laws) (mkResponse 5 [] 0) [1; 2] Hp)
    as (rep & H1 & H2 & _ & _ & H3).
  exists rep. split; [exact H1 | split; [exact H2 | exact H3]].
Defined.
