(* ===== verification/Allowlist.v ===== *)
(** * Allowlist: the only bypass of the restricted-target guard

    Models [target_allowlist.hpp]. The accepted entries are given a grammar
    of their own, [AllowEntry], and the parser is proved sound and complete
    for it. *)

From Stdlib Require Import ZArith Lia.
From stdpp Require Import base list gmap strings numbers.
From S2P Require Import Prelude Config.

Definition chr_colon : Z := 58.
Definition chr_lbracket : Z := 91.
Definition chr_rbracket : Z := 93.

(** [detail::parse_port_digits]: [None] where the source returns false. *)
Definition parse_port_digits (digits : list Z) : option Z :=
  if bool_decide (digits = []) || (5 <? length digits)%nat then None
  else if negb (forallb is_digit digits) then None
  else
    let value := dec_value digits in
    if (value <? 1) || (65535 <? value) then None else Some (u16 value).

(** The ASCII-only case folding of [detail::ascii_iequals]. *)
Definition ascii_lower (c : Z) : Z :=
  if (65 <=? c) && (c <=? 90) then c - 65 + 97 else c.

Fixpoint iequals_go (a b : list Z) : bool :=
  match a, b with
  | ca :: a', cb :: b' =>
      if negb (ascii_lower ca =? ascii_lower cb) then false else iequals_go a' b'
  | _, _ => true
  end.

Definition ascii_iequals (a b : list Z) : bool :=
  if negb (length a =? length b)%nat then false else iequals_go a b.

(** [parse_allow_target_entry]: the out-parameters (host, has_port, port),
    or [None] where the source returns false. *)
Definition parse_allow_target_entry (entry : list Z) : option (list Z * bool * Z) :=
  match entry with
  | [] => None
  | front :: _ =>
      if front =? chr_lbracket then
        match find_byte chr_rbracket entry with
        | None => None
        | Some close =>
            let host := slice 1 (close - 1) entry in
            if bool_decide (host = []) then None
            else if (close + 1 =? length entry)%nat then Some (host, false, 0)
            else if negb (byte_at entry (close + 1) =? chr_colon) then None
            else
              match parse_port_digits (drop (close + 2) entry) with
              | None => None
              | Some port => Some (host, true, port)
              end
        end
      else
        match rfind_byte chr_colon entry with
        | Some colon =>
            if negb (bool_decide (find_byte chr_colon entry = Some colon)) then
              Some (entry, false, 0)
            else
              let host := take colon entry in
              if bool_decide (host = []) then None
              else
                match parse_port_digits (drop (colon + 1) entry) with
                | None => None
                | Some port => Some (host, true, port)
                end
        | None => Some (entry, false, 0)
        end
  end.

(** [target_matches_allowlist]. *)
Fixpoint target_matches_allowlist (entries : list (list Z)) (host : list Z) (port : Z) : bool :=
  match entries with
  | [] => false
  | entry :: rest =>
      match parse_allow_target_entry entry with
      | None => target_matches_allowlist rest host port
      | Some (entry_host, has_port, entry_port) =>
          if ascii_iequals entry_host host && (negb has_port || (entry_port =? port)) then true
          else target_matches_allowlist rest host port
      end
  end.

(** ** The grammar of entries *)

(** A port in decimal: one to five digits with a value of 1..65535. *)
Inductive PortText : list Z -> Z -> Prop :=
| port_text ds :
    ds <> [] -> (length ds <= 5)%nat -> Forall (fun c => is_digit c = true) ds ->
    1 <= dec_value ds <= 65535 -> PortText ds (dec_value ds).

(** [AllowEntry text host port]: [text] names [host], on one port or on all. *)
Inductive AllowEntry : list Z -> list Z -> option Z -> Prop :=
| ae_bracket host :
    host <> [] -> chr_rbracket ∉ host ->
    AllowEntry (chr_lbracket :: host ++ [chr_rbracket]) host None
| ae_bracket_port host ds p :
    host <> [] -> chr_rbracket ∉ host -> PortText ds p ->
    AllowEntry (chr_lbracket :: host ++ chr_rbracket :: chr_colon :: ds) host (Some p)
| ae_bare host :
    host <> [] -> head host <> Some chr_lbracket -> chr_colon ∉ host ->
    AllowEntry host host None
| ae_bare_v6 l m r :
    head (l ++ chr_colon :: m ++ chr_colon :: r) <> Some chr_lbracket ->
    AllowEntry (l ++ chr_colon :: m ++ chr_colon :: r)
               (l ++ chr_colon :: m ++ chr_colon :: r) None
| ae_host_port host ds p :
    host <> [] -> head host <> Some chr_lbracket -> chr_colon ∉ host -> PortText ds p ->
    AllowEntry (host ++ chr_colon :: ds) host (Some p).

(** ** Lemmas *)

Lemma parse_port_digits_spec ds p : parse_port_digits ds = Some p <-> PortText ds p.
Proof.
  unfold parse_port_digits. split.
  - intros H. repeat (case_bool; try done). simplify_eq. zb_props.
    rewrite u16_small by lia. constructor; try done; try lia.
    apply List.Forall_forall. by apply forallb_forall.
  - intros [ds' Hne Hl Hd Hv]. rewrite bool_decide_eq_false_2 by done.
    assert (forallb is_digit ds' = true) as -> by (by apply forallb_forall, List.Forall_forall).
    rewrite (proj2 (Nat.ltb_ge _ _)) by lia. simpl.
    rewrite (proj2 (Z.ltb_ge _ _)), (proj2 (Z.ltb_ge 65535 _)) by lia. simpl.
    by rewrite u16_small by lia.
Qed.

Lemma port_text_no_colon ds p : PortText ds p -> chr_colon ∉ ds.
Proof. intros [? _ _ Hd _]. by apply (digits_exclude chr_colon). Qed.

Lemma ascii_iequals_lower a b :
  ascii_iequals a b = bool_decide (ascii_lower <$> a = ascii_lower <$> b).
Proof.
  unfold ascii_iequals. revert b.
  induction a as [|x a IH]; intros [|y b]; try done.
  rewrite !fmap_cons. cbn [length iequals_go Nat.eqb]. specialize (IH b). apply eq_true_iff_eq. rewrite bool_decide_eq_true.
  assert (Hc : ascii_lower x :: (ascii_lower <$> a) = ascii_lower y :: (ascii_lower <$> b) <->
               ascii_lower x = ascii_lower y /\ ascii_lower <$> a = ascii_lower <$> b)
    by (split; [by intros [= -> ->] | by intros [-> ->]]).
  rewrite Hc, <- (bool_decide_eq_true (_ <$> _ = _)), <- IH. clear.
  repeat case_bool; zb_props; intuition congruence.
Qed.

Lemma rfind_byte_None c l : rfind_byte c l = None <-> c ∉ l.
Proof.
  induction l as [|b l IH]; simpl; [split; [intros; apply not_elem_of_nil | done]|].
  rewrite not_elem_of_cons, <- IH.
  destruct (rfind_byte c l); [intuition congruence|]. case_bool; zb_props; intuition congruence.
Qed.

Lemma rfind_byte_Some c l i :
  rfind_byte c l = Some i <-> l !! i = Some c /\ c ∉ drop (S i) l.
Proof.
  revert i. induction l as [|b l IH]; intros i; simpl.
  { split; [done | by intros [? _]]. }
  destruct (rfind_byte c l) as [j|] eqn:E.
  - destruct (proj1 (IH j) eq_refl) as [Hj Hd]. split.
    + intros [= <-]. by simpl.
    + intros [Hi Hn]. destruct i as [|i]; simpl in *.
      * exfalso. apply Hn. rewrite drop_0. by eapply list_elem_of_lookup_2.
      * assert (Some j = Some i) by by apply IH. congruence.
  - apply rfind_byte_None in E. split.
    + intros H. case_bool; zb_props; simplify_eq. simpl. by rewrite drop_0.
    + intros [Hi Hn]. destruct i as [|i]; simpl in *.
      * simplify_eq. by rewrite Z.eqb_refl.
      * exfalso. apply E. by eapply list_elem_of_lookup_2.
Qed.

(** Cutting an entry at a found character. *)
Lemma split_at_found (c : Z) (l : list Z) i : l !! i = Some c -> l = take i l ++ c :: drop (S i) l.
Proof. intros H. by rewrite take_drop_middle. Qed.

(** The parser on the four shapes an entry can have. *)
Definition port_result (host ds : list Z) : option (list Z * bool * Z) :=
  if bool_decide (host = []) then None
  else match parse_port_digits ds with None => None | Some p => Some (host, true, p) end.

Lemma parse_bracket host tail :
  chr_rbracket ∉ host ->
  parse_allow_target_entry (chr_lbracket :: host ++ chr_rbracket :: tail) =
  match tail with
  | [] => if bool_decide (host = []) then None else Some (host, false, 0)
  | c :: ds => if c =? chr_colon then port_result host ds else None
  end.
Proof.
  intros Hn. unfold parse_allow_target_entry. rewrite Z.eqb_refl.
  change (chr_lbracket :: host ++ chr_rbracket :: tail)
    with ((chr_lbracket :: host) ++ chr_rbracket :: tail).
  rewrite find_byte_app_notin by (apply not_elem_of_cons; by split).
  assert (slice 1 (length (chr_lbracket :: host) - 1)
            ((chr_lbracket :: host) ++ chr_rbracket :: tail) = host) as ->.
  { simpl. rewrite Nat.sub_0_r. by apply (slice_middle [chr_lbracket]). }
  rewrite (length_app (_ :: _)). unfold port_result. destruct tail as [|c ds].
  - by rewrite Nat.eqb_refl.
  - rewrite (proj2 (Nat.eqb_neq _ _)) by (simpl; lia).
    change (?a ++ chr_rbracket :: c :: ds) with (a ++ [chr_rbracket] ++ c :: ds).
    rewrite app_assoc, byte_at_middle by (by rewrite length_app).
    replace (length (chr_lbracket :: host) + 2)%nat
      with (length ((chr_lbracket :: host) ++ [chr_rbracket]) + 1)%nat
      by (rewrite length_app; simpl; lia).
    rewrite <- drop_drop, drop_app_length. simpl. rewrite drop_0.
    by destruct (c =? chr_colon), (bool_decide (host = [])).
Qed.

Lemma parse_no_colon entry :
  entry <> [] -> head entry <> Some chr_lbracket -> chr_colon ∉ entry ->
  parse_allow_target_entry entry = Some (entry, false, 0).
Proof.
  intros Hne Hh Hn. unfold parse_allow_target_entry. destruct entry as [|f rest]; [done|].
  rewrite (proj2 (Z.eqb_neq _ _)) by (simpl in Hh; congruence).
  by rewrite (proj2 (rfind_byte_None _ _)).
Qed.

Lemma parse_one_colon host ds :
  head (host ++ chr_colon :: ds) <> Some chr_lbracket -> chr_colon ∉ host -> chr_colon ∉ ds ->
  parse_allow_target_entry (host ++ chr_colon :: ds) = port_result host ds.
Proof.
  intros Hh Hn Hd. unfold parse_allow_target_entry.
  destruct (host ++ chr_colon :: ds) as [|f rest] eqn:E; [by destruct host|].
  rewrite (proj2 (Z.eqb_neq _ _)) by (simpl in Hh; congruence). rewrite <- E.
  assert (rfind_byte chr_colon (host ++ chr_colon :: ds) = Some (length host)) as ->.
  { apply rfind_byte_Some. rewrite list_lookup_middle by done. split; [done|].
    rewrite <- Nat.add_1_r, <- drop_drop, drop_app_length. done. }
  rewrite find_byte_app_notin, bool_decide_eq_true_2 by done. simpl.
  by rewrite take_app_length, <- drop_drop, drop_app_length.
Qed.

Lemma parse_two_colons l m r (entry := l ++ chr_colon :: m ++ chr_colon :: r) :
  head entry <> Some chr_lbracket -> parse_allow_target_entry entry = Some (entry, false, 0).
Proof.
  intros Hh. unfold parse_allow_target_entry.
  destruct entry as [|f rest] eqn:E; [unfold entry in E; by destruct l|].
  rewrite (proj2 (Z.eqb_neq _ _)) by (simpl in Hh; congruence). rewrite <- E.
  destruct (rfind_byte chr_colon entry) as [i|] eqn:Er; [|done].
  rewrite bool_decide_eq_false_2; [done|]. intros Hf.
  apply rfind_byte_Some in Er as [_ Hr]. apply find_byte_Some in Hf as [_ Hf].
  destruct (le_lt_dec (S i) (S (length l + length m))) as [Hi|Hi].
  - apply Hr. unfold entry. apply list_elem_of_lookup_2 with (S (length l + length m) - S i)%nat.
    rewrite lookup_drop. rewrite lookup_app_r by lia.
    replace (S i + (S (length l + length m) - S i) - length l)%nat with (S (length m)) by lia.
    simpl. by rewrite list_lookup_middle.
  - apply Hf. unfold entry. apply list_elem_of_lookup_2 with (length l).
    rewrite lookup_take_lt by lia. by rewrite list_lookup_middle.
Qed.

Lemma port_result_spec host ds h b p :
  port_result host ds = Some (h, b, p) <-> h = host /\ host <> [] /\ b = true /\ PortText ds p.
Proof.
  unfold port_result. rewrite <- parse_port_digits_spec.
  case_bool_decide; [by split; intros; destruct_and?|].
  destruct (parse_port_digits ds); split; intros; destruct_and?; simplify_eq; done.
Qed.

Definition entry_port (has_port : bool) (port : Z) : option Z :=
  if has_port then Some port else None.

Lemma allow_entry_complete entry host p :
  AllowEntry entry host p ->
  exists has_port port, parse_allow_target_entry entry = Some (host, has_port, port) /\
    entry_port has_port port = p.
Proof.
  intros H. destruct H as [host Hne Hn | host ds p Hne Hn Hp | host Hne Hh Hc | l m r Hh
                          | host ds p Hne Hh Hc Hp].
  - exists false, 0. rewrite parse_bracket, bool_decide_eq_false_2 by done. done.
  - exists true, p. rewrite parse_bracket by done. simpl.
    by rewrite (proj2 (port_result_spec host ds host true p)).
  - exists false, 0. by rewrite parse_no_colon.
  - exists false, 0. by rewrite parse_two_colons.
  - exists true, p. rewrite parse_one_colon;
      [by rewrite (proj2 (port_result_spec host ds host true p)) | | done |
      by eapply port_text_no_colon]. by destruct host.
Qed.

Lemma allow_entry_sound entry host has_port port :
  parse_allow_target_entry entry = Some (host, has_port, port) ->
  AllowEntry entry host (entry_port has_port port).
Proof.
  intros H. destruct entry as [|f rest]; [done|].
  destruct (decide (f = chr_lbracket)) as [->|Hf].
  - destruct (find_byte chr_rbracket rest) as [k|] eqn:Ek.
    + apply find_byte_Some in Ek as [Hk Hn]. rewrite (split_at_found _ _ _ Hk) in H |- *.
      rewrite parse_bracket in H by done. destruct (drop (S k) rest) as [|c ds].
      * case_bool_decide; simplify_eq. by constructor.
      * case_bool; zb_props; [|done]. subst c.
        apply port_result_spec in H as (-> & ? & -> & ?). by constructor.
    + exfalso. unfold parse_allow_target_entry in H. simpl in H. by rewrite Ek in H.
  - destruct (find_byte chr_colon (f :: rest)) as [k|] eqn:Ek.
    + apply find_byte_Some in Ek as [Hk Hn]. assert (Hd := split_at_found _ _ _ Hk).
      destruct (decide (chr_colon ∈ drop (S k) (f :: rest))) as [Hc|Hc].
      * apply list_elem_of_split in Hc as (m & r & Hm). rewrite Hm in Hd.
        assert (Hh : head (f :: rest) <> Some chr_lbracket) by (simpl; congruence).
        rewrite Hd in H, Hh |- *. rewrite parse_two_colons in H by done. simplify_eq.
        by constructor.
      * assert (Hh : head (f :: rest) <> Some chr_lbracket) by (simpl; congruence).
        rewrite Hd in H, Hh |- *. rewrite parse_one_colon in H by done.
        apply port_result_spec in H as (-> & ? & -> & ?). constructor; try done.
        by destruct (take k (f :: rest)).
    + apply find_byte_None in Ek. rewrite parse_no_colon in H; [|done | simpl; congruence | done].
      simplify_eq. constructor; [done | simpl; congruence | done].
Qed.

(** One entry exempts the target: same host up to ASCII case, any port or
    the very port. *)
Definition EntryAllows (host : list Z) (port : Z) (entry : list Z) : Prop :=
  exists h p, AllowEntry entry h p /\
    ascii_lower <$> h = ascii_lower <$> host /\ (p = None \/ p = Some port).

Lemma entry_allows_parse host port e :
  EntryAllows host port e <->
  match parse_allow_target_entry e with
  | Some (h, b, q) => ascii_iequals h host && (negb b || (q =? port)) = true
  | None => False
  end.
Proof.
  split.
  - intros (h & p & HA & Hl & Hp). destruct (allow_entry_complete _ _ _ HA) as (b & q & -> & <-).
    rewrite ascii_iequals_lower, bool_decide_eq_true_2 by done. simpl.
    destruct b; [|done]. destruct Hp; [done|]. simplify_eq/=. by apply Z.eqb_eq.
  - destruct (parse_allow_target_entry e) as [[[h b] q]|] eqn:E; [|done].
    rewrite ascii_iequals_lower. intros H. zb_props.
    exists h, (entry_port b q). split_and!; [by apply allow_entry_sound | done |].
    destruct b; simpl in *; [|by left]. zb_props. subst q. by right.
Qed.

(** C40: the allowlist is fail-closed and complete: a target is exempted from
    the guard exactly when some entry is a well-formed [host], [host:port],
    [[v6]], [[v6]:port] or bare multi-colon literal of the documented
    grammar, whose host equals the target's up to ASCII case and whose port,
    when it has one, is the target's port. *)
Theorem target_matches_allowlist_spec (entries : list (list Z)) (host : list Z) (port : Z) :
  target_matches_allowlist entries host port = true <-> Exists (EntryAllows host port) entries.
Proof.
  induction entries as [|e entries IH]; simpl; [by rewrite Exists_nil|].
  rewrite Exists_cons, <- IH, entry_allows_parse.
  destruct (parse_allow_target_entry e) as [[[h b] q]|]; [|tauto].
  case_bool; intuition congruence.
Qed.
