(* ===== verification/CleanPath.v ===== *)
(** * CleanPath: the adaptive-policy state machine and its two adapters

    Models [clean_path.hpp] ([CleanPathTracker]), [fec_parity.hpp]
    ([FecParityGate], [FecParityController]) and [rto_floor.hpp]
    ([RtoFloorGate], [RtoFloorController]). The segment rate is computed in
    IEEE binary64 with round to nearest even, through the executable
    specification of floating-point arithmetic of the Standard Library. *)

From Stdlib Require Import ZArith Lia SpecFloat.
From stdpp Require Import base list gmap strings numbers.
From S2P Require Import Prelude Config.

(** ** binary64 *)

(** [static_cast<double>(n)] on an integer, round to nearest even. *)
Definition f64_of_Z (z : Z) : spec_float := binary_normalize 53 1024 z 0 false.
Definition f64_mul : spec_float -> spec_float -> spec_float := SFmul 53 1024.
Definition f64_div : spec_float -> spec_float -> spec_float := SFdiv 53 1024.

Definition ADAPTIVE_MIN_SEG_RATE : spec_float := f64_of_Z 50.

Module CleanPathTracker.

(** [struct CleanPathTuning]. *)
Record CleanPathTuning := mkTuning {
  clean_sec : Z; hold_sec : Z; min_seg_rate : spec_float }.

Inductive Transition := kNone | kToClean | kToLossy.

(** The tracker's plain members ([tuning_] is const and passed along). *)
Record t := mk {
  initialized : bool;
  clean : bool;
  last_out_segs : Z;
  last_fast_retrans : Z;
  last_sample_us : Z;
  clean_us : Z;
  hold_until_us : Z }.

Definition init : t := mk false false 0 0 0 0 0.

(** One sample: the two cumulative counters and the clock. *)
Record sample_t := mkSample { s_out : Z; s_fast : Z; s_now : Z }.

(** [seg_rate = d_out * 1e6 / dt_us]. *)
Definition seg_rate (d_out dt_us : Z) : spec_float :=
  f64_div (f64_mul (f64_of_Z d_out) (f64_of_Z 1000000)) (f64_of_Z dt_us).

(** [CleanPathTracker::on_sample]. *)
Definition on_sample (tun : CleanPathTuning) (s : t) (x : sample_t) : t * Transition :=
  let first := negb (initialized s) in
  let rebased := negb first &&
    ((s_out x <? last_out_segs s) || (s_fast x <? last_fast_retrans s)) in
  let d_out := if rebased then 0 else u64 (s_out x - last_out_segs s) in
  let d_fast := if rebased then 0 else u64 (s_fast x - last_fast_retrans s) in
  let dt_us := s_now x - last_sample_us s in
  let upd cl cus hold := mk true cl (s_out x) (s_fast x) (s_now x) cus hold in
  if first || rebased || (dt_us <=? 0) then
    (upd (clean s) (clean_us s) (hold_until_us s), kNone)
  else if 0 <? d_fast then
    let hold := s_now x + hold_sec tun * 1000000 in
    if clean s then (upd false 0 hold, kToLossy) else (upd (clean s) 0 hold, kNone)
  else if s_now x <? hold_until_us s then
    (upd (clean s) 0 (hold_until_us s), kNone)
  else if SFltb (seg_rate d_out dt_us) (min_seg_rate tun) then
    (upd (clean s) (clean_us s) (hold_until_us s), kNone)
  else
    let cus := clean_us s + dt_us in
    if negb (clean s) && (clean_sec tun * 1000000 <=? cus) then
      (upd true 0 (hold_until_us s), kToClean)
    else (upd (clean s) cus (hold_until_us s), kNone).

(** [sample]: the snapshot of the process-wide counters is the argument. *)
Definition sample (tun : CleanPathTuning) (snapshot : Z * Z) (s : t) (now_us : Z) : t * Transition :=
  on_sample tun s (mkSample (snapshot.1) (snapshot.2) now_us).

(** A run of samples. *)
Definition run (tun : CleanPathTuning) (s : t) (xs : list sample_t) : t :=
  foldl (fun s x => (on_sample tun s x).1) s xs.

(** Samples taken with a clock that never goes back, from time [now] on. *)
Fixpoint clock_ok (now : Z) (xs : list sample_t) : Prop :=
  match xs with
  | [] => True
  | x :: xs' => now <= s_now x /\ clock_ok (s_now x) xs'
  end.

(** Whether [x] is evidence of loss in state [s]: the tracker has a baseline,
    time has passed, no counter moved backwards and the fast-retransmit
    counter grew. *)
Definition loss_evidence (s : t) (x : sample_t) : Prop :=
  initialized s = true /\ last_out_segs s <= s_out x /\ last_fast_retrans s < s_fast x /\
  last_sample_us s < s_now x.

(** ** Lemmas *)

(** Every outcome of a sample, as a relation. *)
Lemma on_sample_frame tun s x :
  initialized (on_sample tun s x).1 = true /\
  last_out_segs (on_sample tun s x).1 = s_out x /\
  last_fast_retrans (on_sample tun s x).1 = s_fast x /\
  last_sample_us (on_sample tun s x).1 = s_now x.
Proof. unfold on_sample. repeat case_bool; done. Qed.

(** The transition reported is exactly the change of state. *)
Lemma on_sample_transition tun s x :
  match (on_sample tun s x).2 with
  | kNone => clean (on_sample tun s x).1 = clean s
  | kToClean => clean s = false /\ clean (on_sample tun s x).1 = true
  | kToLossy => clean s = true /\ clean (on_sample tun s x).1 = false
  end.
Proof. unfold on_sample. repeat case_bool; zb_props; done. Qed.

(** The counters of a real sample are 64-bit values. *)
Definition sample_wf (x : sample_t) : Prop := 0 <= s_out x < 2 ^ 64 /\ 0 <= s_fast x < 2 ^ 64.

Definition counters_wf (s : t) : Prop :=
  0 <= last_out_segs s < 2 ^ 64 /\ 0 <= last_fast_retrans s < 2 ^ 64.

Lemma on_sample_counters tun s x : sample_wf x -> counters_wf (on_sample tun s x).1.
Proof.
  intros Hx. unfold counters_wf. destruct (on_sample_frame tun s x) as (_ & -> & -> & _). done.
Qed.

Lemma on_sample_loss tun s x :
  counters_wf s -> sample_wf x -> loss_evidence s x ->
  clean (on_sample tun s x).1 = false /\ clean_us (on_sample tun s x).1 = 0 /\
  hold_until_us (on_sample tun s x).1 = s_now x + hold_sec tun * 1000000.
Proof.
  intros [Ho Hf] [Hxo Hxf] (Hi & Hout & Hfast & Hnow). unfold on_sample. rewrite Hi. simpl.
  rewrite (proj2 (Z.ltb_ge (s_out x) _)), (proj2 (Z.ltb_ge (s_fast x) _)) by lia. simpl.
  rewrite (proj2 (Z.leb_gt _ 0)), u64_small, (proj2 (Z.ltb_lt 0 _)) by lia.
  by destruct (clean s) eqn:E.
Qed.

(** Outside of loss evidence the hold deadline does not move, and the
    accumulated clean time grows by at most the elapsed time. *)
Lemma on_sample_hold tun s x :
  0 <= hold_sec tun -> 0 <= clean_us s ->
  0 <= clean_us (on_sample tun s x).1 <= clean_us s + Z.max 0 (s_now x - last_sample_us s) /\
  (hold_until_us (on_sample tun s x).1 = hold_until_us s \/
   clean (on_sample tun s x).1 = false /\ clean_us (on_sample tun s x).1 = 0 /\
   hold_until_us (on_sample tun s x).1 = s_now x + hold_sec tun * 1000000 /\
   last_sample_us s < s_now x).
Proof. intros Hh Hc. unfold on_sample. repeat case_bool; zb_props; simpl; lia. Qed.

(** Entering the cheap state needs the hold to be over and enough credit. *)
Lemma on_sample_to_clean tun s x :
  clean s = false -> clean (on_sample tun s x).1 = true ->
  hold_until_us s <= s_now x /\ last_sample_us s < s_now x /\
  clean_sec tun * 1000000 <= clean_us s + (s_now x - last_sample_us s).
Proof.
  intros Hc. unfold on_sample. rewrite Hc. repeat case_bool; zb_props; simpl; intros; (done || lia).
Qed.

(** While protected since a loss at [t0]: the credit is at most the time
    since then and the deadline is at least [t0 + hold]. *)
Definition protected_since (tun : CleanPathTuning) (t0 : Z) (s : t) : Prop :=
  clean s = false /\ t0 <= last_sample_us s /\ 0 <= clean_us s <= last_sample_us s - t0 /\
  t0 + hold_sec tun * 1000000 <= hold_until_us s.

Lemma protected_since_step tun t0 s x :
  0 <= hold_sec tun -> protected_since tun t0 s -> last_sample_us s <= s_now x ->
  clean (on_sample tun s x).1 = false -> protected_since tun t0 (on_sample tun s x).1.
Proof.
  intros Hh (Hc & Ht & Hu & Hd) Hx Hc'.
  destruct (on_sample_hold tun s x Hh (proj1 Hu)) as [Hcu Hhold].
  destruct (on_sample_frame tun s x) as (_ & _ & _ & Hl).
  unfold protected_since. rewrite Hl. split_and!; try done; lia.
Qed.

(** After evidence of loss the tracker is protected at once, whatever
    state it was in, and it stays protected for at least [hold_sec] and at
    least [clean_sec] seconds: in any later run of samples under a clock that
    never goes back, the first sample that leaves the path marked clean is
    taken no earlier than [max(hold_sec, clean_sec)] seconds after the loss. *)
Theorem loss_protects (tun : CleanPathTuning) (s : t) (x : sample_t) (xs : list sample_t) :
  0 <= hold_sec tun -> counters_wf s -> sample_wf x -> loss_evidence s x ->
  clock_ok (s_now x) xs ->
  (forall y, y ∈ xs -> s_now y < s_now x + Z.max (hold_sec tun) (clean_sec tun) * 1000000) ->
  clean (run tun (on_sample tun s x).1 xs) = false.
Proof.
  intros Hh Hs Hx Hloss Hclock Hwin.
  destruct (on_sample_loss tun s x Hs Hx Hloss) as (Hc & Hcu & Hhu).
  destruct (on_sample_frame tun s x) as (_ & _ & _ & Hl).
  assert (HP : protected_since tun (s_now x) (on_sample tun s x).1)
    by (unfold protected_since; split_and!; try done; lia).
  rewrite <- Hl in Hclock. revert Hclock Hwin HP.
  generalize (on_sample tun s x).1. clear - Hh.
  induction xs as [|y ys IH]; intros s Hclock Hwin HP; simpl; [apply HP|].
  destruct Hclock as [Hy Hys].
  assert (Hcy : clean (on_sample tun s y).1 = false).
  { destruct (clean (on_sample tun s y).1) eqn:E; [|done].
    destruct HP as (Hc & Ht & Hu & Hd).
    destruct (on_sample_to_clean tun s y Hc E) as (Hhold & _ & Hcl).
    specialize (Hwin y ltac:(apply elem_of_cons; by left)). lia. }
  apply IH.
  - by destruct (on_sample_frame tun s y) as (_ & _ & _ & ->).
  - intros z Hz. apply Hwin, elem_of_cons. by right.
  - by apply protected_since_step.
Qed.

(** A traffic-bearing loss-free sample outside of any hold. *)
Definition clean_traffic (tun : CleanPathTuning) (s : t) (x : sample_t) : Prop :=
  last_out_segs s <= s_out x < 2 ^ 64 /\ s_fast x = last_fast_retrans s /\
  last_sample_us s < s_now x /\ hold_until_us s <= s_now x /\
  SFltb (seg_rate (s_out x - last_out_segs s) (s_now x - last_sample_us s)) (min_seg_rate tun) = false.

Fixpoint clean_run (tun : CleanPathTuning) (s : t) (xs : list sample_t) : Prop :=
  match xs with
  | [] => True
  | x :: xs' => clean_traffic tun s x /\ clean_run tun (on_sample tun s x).1 xs'
  end.

Lemma on_sample_clean_traffic tun s x :
  initialized s = true -> 0 <= last_out_segs s -> clean_traffic tun s x ->
  let s' := (on_sample tun s x).1 in
  0 <= last_out_segs s' /\ hold_until_us s' = hold_until_us s /\
  (clean s' = true \/
   clean s = false /\ clean s' = false /\ clean_us s' = clean_us s + (s_now x - last_sample_us s) /\
   clean_us s' < clean_sec tun * 1000000) /\
  (clean s = true -> clean s' = true).
Proof.
  intros Hi Ho (Hout & Hfast & Hnow & Hhold & Hrate) s'.
  unfold s', on_sample. rewrite Hi, Hfast, Z.sub_diag. simpl.
  rewrite (proj2 (Z.ltb_ge (s_out x) _)), Z.ltb_irrefl by lia. simpl.
  rewrite (u64_small (s_out x - _)), (proj2 (Z.leb_gt _ 0)), (proj2 (Z.ltb_ge (s_now x) _)), Hrate by lia.
  destruct (clean s) eqn:Ec; simpl; [split_and!; auto; lia|].
  case_bool; zb_props; simpl; split_and!; auto; lia.
Qed.

(** Sustained clean traffic does reach the cheap state: from any state
    with a baseline, samples that carry enough traffic, no loss evidence and
    fall outside the hold, spanning at least [clean_sec] seconds, end with
    the path marked clean. *)
Theorem clean_traffic_relaxes (tun : CleanPathTuning) (s : t) (xs : list sample_t) (x : sample_t) :
  initialized s = true -> 0 <= last_out_segs s -> 0 <= clean_us s ->
  clean_run tun s (xs ++ [x]) ->
  clean_sec tun * 1000000 <= s_now x - last_sample_us s ->
  clean (run tun s (xs ++ [x])) = true.
Proof.
  intros Hi Ho Hu Hrun Hspan.
  assert (H : clean s = true \/ clean_sec tun * 1000000 <= clean_us s + (s_now x - last_sample_us s))
    by (right; lia). clear Hspan Hu.
  revert s Hi Ho Hrun H. induction xs as [|y ys IH]; intros s Hi Ho Hrun H.
  - destruct Hrun as [Hx _]. simpl.
    destruct (on_sample_clean_traffic tun s x Hi Ho Hx) as (_ & _ & Hc & Hk).
    destruct H as [H|H]; [by apply Hk|]. destruct Hc as [Hc|Hc]; [done|]. lia.
  - destruct Hrun as [Hy Hrun]. simpl.
    destruct (on_sample_clean_traffic tun s y Hi Ho Hy) as (Ho' & _ & Hc & Hk).
    destruct (on_sample_frame tun s y) as (Hi' & _ & _ & Hl).
    apply IH; [done | done | done |]. rewrite Hl.
    destruct H as [H|H]; [left; by apply Hk|]. destruct Hc as [Hc|Hc]; [by left|]. right. lia.
Qed.

(** A concrete run with the parity defaults: 2000 segments per 2 s sample. *)
Definition parity_tuning : CleanPathTuning :=
  mkTuning FEC_PARITY_PROBE_SEC FEC_PARITY_HOLD_SEC ADAPTIVE_MIN_SEG_RATE.

Definition steady (n : nat) : list sample_t :=
  (fun i => mkSample (2000 * Z.of_nat i) 0 (2000000 * Z.of_nat i)) <$> seq 1 n.

Lemma clean_traffic_relaxes_witness :
  clean (run parity_tuning (mk true false 0 0 0 0 0)
          (steady 29 ++ [mkSample 60000 0 60000000])) = true.
Proof.
  apply (clean_traffic_relaxes parity_tuning (mk true false 0 0 0 0 0) (steady 29)
           (mkSample 60000 0 60000000)).
  - reflexivity.
  - by vm_compute.
  - by vm_compute.
  - vm_compute. repeat split; congruence.
  - by vm_compute.
Defined.

Lemma loss_protects_witness :
  clean (run parity_tuning
          (on_sample parity_tuning (mk true true 1000 3 5000000 0 0) (mkSample 3000 4 7000000)).1
          [mkSample 9000 4 100000000; mkSample 90000 4 306999999]) = false.
Proof.
  apply loss_protects.
  - by vm_compute.
  - vm_compute. repeat split; congruence.
  - vm_compute. repeat split; congruence.
  - vm_compute. repeat split; congruence.
  - vm_compute. repeat split; congruence.
  - intros y Hy. rewrite !elem_of_cons in Hy.
    destruct Hy as [->|[->|Hy]]; [by vm_compute | by vm_compute | by apply elem_of_nil in Hy].
Defined.

End CleanPathTracker.

(** ** The adapters

    Each controller owns a tracker and a reference to the gate every tunnel
    reads; a gate starts in the protected state. *)

Module FecParity.
Import CleanPathTracker.

Inductive Transition := kNone | kToEconomy | kToProtected.

Record controller := mkController { gate_enabled : bool; tracker : CleanPathTracker.t }.

(** The gate's default and a fresh tracker. *)
Definition init : controller := mkController true CleanPathTracker.init.

(** [FecParityController::on_sample]; [sample] differs only in where the
    counters come from. *)
Definition on_sample (tun : CleanPathTuning) (c : controller) (x : sample_t) : controller * Transition :=
  match CleanPathTracker.on_sample tun (tracker c) x with
  | (t, kToClean) => (mkController false t, kToEconomy)
  | (t, kToLossy) => (mkController true t, kToProtected)
  | (t, CleanPathTracker.kNone) => (mkController (gate_enabled c) t, kNone)
  end.

Definition economy (c : controller) : bool := clean (tracker c).

Definition transition_name (t : Transition) : list Z :=
  match t with
  | kToEconomy => bytes_of_string "off"
  | kToProtected => bytes_of_string "on"
  | kNone => bytes_of_string "none"
  end.

End FecParity.

Module RtoFloor.
Import CleanPathTracker.

Inductive Transition := kNone | kToRelaxed | kToLowLatency.

Record controller := mkController { gate_low_latency : bool; tracker : CleanPathTracker.t }.

Definition init : controller := mkController true CleanPathTracker.init.

(** [RtoFloorController::on_sample]. *)
Definition on_sample (tun : CleanPathTuning) (c : controller) (x : sample_t) : controller * Transition :=
  match CleanPathTracker.on_sample tun (tracker c) x with
  | (t, kToClean) => (mkController false t, kToRelaxed)
  | (t, kToLossy) => (mkController true t, kToLowLatency)
  | (t, CleanPathTracker.kNone) => (mkController (gate_low_latency c) t, kNone)
  end.

Definition relaxed (c : controller) : bool := clean (tracker c).

End RtoFloor.

(** Over any sequence of samples the gates the tunnels read are exactly
    the negation of the trackers' clean flags: parity is emitted, and the low
    retransmission floor used, unless the path is currently judged clean. *)
Theorem gates_follow_tracker (tun1 tun2 : CleanPathTracker.CleanPathTuning)
    (xs : list CleanPathTracker.sample_t) :
  let fec := foldl (fun c x => (FecParity.on_sample tun1 c x).1) FecParity.init xs in
  let rto := foldl (fun c x => (RtoFloor.on_sample tun2 c x).1) RtoFloor.init xs in
  FecParity.gate_enabled fec = negb (FecParity.economy fec) /\
  RtoFloor.gate_low_latency rto = negb (RtoFloor.relaxed rto).
Proof.
  induction xs as [|x xs [IH1 IH2]] using rev_ind; [done|].
  cbv zeta. rewrite !foldl_app. cbn [foldl]. cbv zeta in IH1, IH2.
  unfold FecParity.economy, RtoFloor.relaxed in *.
  revert IH1 IH2.
  generalize (foldl (fun c x => (FecParity.on_sample tun1 c x).1) FecParity.init xs).
  generalize (foldl (fun c x => (RtoFloor.on_sample tun2 c x).1) RtoFloor.init xs).
  intros rto fec IH1 IH2. unfold FecParity.on_sample, RtoFloor.on_sample.
  pose proof (CleanPathTracker.on_sample_transition tun1 (FecParity.tracker fec) x) as H1.
  pose proof (CleanPathTracker.on_sample_transition tun2 (RtoFloor.tracker rto) x) as H2.
  destruct (CleanPathTracker.on_sample tun1 _ x) as [t1 []],
           (CleanPathTracker.on_sample tun2 _ x) as [t2 []]; simpl in *;
    destruct_and?; split; simplify_option_eq;
    repeat match goal with H : CleanPathTracker.clean _ = _ |- _ => rewrite H end; done.
Qed.
