(* ===== verification/Runtime.v ===== *)
(** * Runtime: log throttling and buffer recycling

    Models the parts of [logger.hpp] that carry logic ([LogThrottle],
    [throttle_suffix], the level filter of the LOG macros) and
    [buffer_pool.hpp]. Each operation runs under the object's mutex, so an
    execution is a sequence of whole operations. *)

From Stdlib Require Import ZArith Lia Sorting.Sorted.
From stdpp Require Import base list gmap strings numbers.
From S2P Require Import Prelude Config.

Module LogThrottle.

(** [window_start_] and [interval_] in nanoseconds of the steady clock. *)
Record t := mk { window_start : Z; interval : Z; suppressed : Z }.

Definition init (interval : Z) : t := mk 0 interval 0.

Definition kMax : Z := 2 ^ 64 - 1.
Definition kU32Max : Z := 2 ^ 32 - 1.

(** [note_suppressed_locked]. *)
Definition note_suppressed (n : Z) (s : t) : t :=
  mk (window_start s) (interval s)
     (if u64 (kMax - n) <? suppressed s then kMax else u64 (suppressed s + n)).

(** [clamp_to_u32]. *)
Definition clamp_to_u32 (v : Z) : Z := if kU32Max <? v then kU32Max else u32 v.

(** [should_log(suppressed)]: [Some n] when the caller emits, with the tally
    written to the out-parameter, [None] when it must stay silent. *)
Definition should_log (now : Z) (s : t) : t * option Z :=
  if now - window_start s <? interval s then (note_suppressed 1 s, None)
  else (mk now (interval s) 0, Some (clamp_to_u32 (suppressed s))).

(** [pending()]. *)
Definition pending (s : t) : Z := clamp_to_u32 (suppressed s).

(** [throttle_suffix]. *)
Definition throttle_suffix (n : Z) : list Z :=
  if n =? 0 then []
  else bytes_of_string " (" ++ dec_bytes n ++ bytes_of_string " more suppressed this interval)".

(** A sequence of calls at the given times: the final state and the emitted
    lines, each as its time and the tally it reports. *)
Fixpoint calls (s : t) (times : list Z) : t * list (Z * Z) :=
  match times with
  | [] => (s, [])
  | now :: rest =>
      let '(s1, r) := should_log now s in
      let '(s2, out) := calls s1 rest in
      (s2, match r with Some n => (now, n) :: out | None => out end)
  end.

Lemma clamp_to_u32_small v : 0 <= v < 2 ^ 32 -> clamp_to_u32 v = v.
Proof. intros. unfold clamp_to_u32, kU32Max. case_bool; zb_props; [lia|]. by apply u32_small. Qed.

Lemma note_suppressed_small s :
  0 <= suppressed s < kMax -> suppressed (note_suppressed 1 s) = suppressed s + 1.
Proof.
  intros H. unfold kMax in H. unfold note_suppressed, kMax. simpl.
  rewrite u64_small by lia. case_bool; zb_props; [lia|]. apply u64_small. lia.
Qed.

Lemma calls_interval s times : interval (calls s times).1 = interval s.
Proof.
  revert s. induction times as [|now rest IH]; intros s; [done|].
  simpl. destruct (should_log now s) as [s1 r] eqn:E. specialize (IH s1).
  destruct (calls s1 rest) as [s2 out]. simpl in *. rewrite IH.
  unfold should_log in E. case_bool; by simplify_eq/=.
Qed.

(** Emissions are spaced from [window_start] on. *)
Lemma calls_spaced s times :
  Sorted (fun a b => a + interval s <= b) (window_start s :: (calls s times).2.*1).
Proof.
  revert s. induction times as [|now rest IH]; intros s; [repeat constructor|].
  simpl. destruct (should_log now s) as [s1 r] eqn:E. specialize (IH s1).
  destruct (calls s1 rest) as [s2 out]. simpl in *.
  unfold should_log in E. case_bool; zb_props; simplify_eq/=; [done|].
  constructor; [done|]. constructor. lia.
Qed.

(** A throttled diagnostic is bounded and honest. Whatever the call
    times, two consecutive emitted lines are at least [interval] apart; and
    as long as fewer than 2^32 calls are made no occurrence is lost: the
    calls are exactly the emitted lines plus the tallies those lines report
    plus the tally still pending. *)
Theorem throttle_bounded_and_honest (s : t) (times : list Z) :
  0 <= suppressed s -> suppressed s + Z.of_nat (length times) < 2 ^ 32 ->
  let out := (calls s times).2 in
  Sorted (fun a b => a + interval s <= b) (out.*1) /\
  suppressed s + Z.of_nat (length times) =
    Z.of_nat (length out) + foldr Z.add 0 (out.*2) + pending (calls s times).1.
Proof.
  intros Hs Hlen out. split.
  { pose proof (calls_spaced s times) as H. by inversion H. }
  unfold out. clear out. revert s Hs Hlen. induction times as [|now rest IH]; intros s Hs Hlen.
  { simpl in *. unfold pending. rewrite clamp_to_u32_small; lia. }
  cbn [length] in Hlen. rewrite Nat2Z.inj_succ in Hlen.
  simpl. destruct (should_log now s) as [s1 r] eqn:E. specialize (IH s1).
  unfold should_log in E. case_bool; simplify_eq.
  - pose proof (note_suppressed_small s) as Hn. unfold kMax in Hn.
    rewrite Hn in IH by lia.
    destruct (calls _ rest) as [s2 out]. simpl in *. specialize (IH ltac:(lia) ltac:(lia)). lia.
  - destruct (calls _ rest) as [s2 out]. simpl in *. specialize (IH ltac:(lia) ltac:(lia)).
    rewrite clamp_to_u32_small by lia. change (list_fmap _ _ snd out) with (out.*2). lia.
Qed.

Lemma throttle_bounded_and_honest_witness :
  let s := init 5000 in let out := (calls s [10000; 11000; 12000; 15500; 15600]).2 in
  out = [(10000, 0); (15500, 2)] /\ Sorted (fun a b => a + 5000 <= b) (out.*1).
Proof.
  split; [reflexivity|].
  apply (throttle_bounded_and_honest (init 5000) [10000; 11000; 12000; 15500; 15600]);
    vm_compute; congruence.
Defined.

(** The saturating counter and its clamped print, against an exact count. *)
Lemma note_suppressed_exact s n :
  0 <= n -> suppressed s = Z.min kMax n -> suppressed (note_suppressed 1 s) = Z.min kMax (n + 1).
Proof.
  intros Hn Hs. unfold note_suppressed, kMax in *. simpl. rewrite u64_small by lia.
  case_bool; zb_props; [lia|]. rewrite u64_small; lia.
Qed.

Lemma clamp_exact v n : 0 <= n -> v = Z.min kMax n -> clamp_to_u32 v = Z.min kU32Max n.
Proof.
  intros Hn ->. unfold clamp_to_u32, kMax, kU32Max in *. case_bool; zb_props; [lia|]. rewrite u32_small; lia.
Qed.

(** Whatever the number of calls, the tallies account for every one of them
    up to the width in which they are printed: there are exact counts, one
    per line, that with the lines and the rest still pending make up all the
    calls, and a line prints its count clamped to 32 bits. *)
Lemma calls_accounted times : forall s n,
  0 <= n -> suppressed s = Z.min kMax n ->
  exists counts rest,
    (calls s times).2.*2 = Z.min kU32Max <$> counts /\
    pending (calls s times).1 = Z.min kU32Max rest /\ 0 <= rest /\
    n + Z.of_nat (length times) = Z.of_nat (length counts) + foldr Z.add 0 counts + rest.
Proof.
  induction times as [|now times IH]; intros s n Hn Hs.
  { exists [], n. split_and!; [done | by apply clamp_exact | done | simpl; lia]. }
  cbn [length]. simpl calls. unfold should_log. case_bool.
  - destruct (IH (note_suppressed 1 s) (n + 1)) as (counts & rest & H1 & H2 & H3 & H4);
      [lia | by apply note_suppressed_exact|].
    exists counts, rest. destruct (calls _ times) as [s2 out]. simpl in *. split_and!; [done | done | done | lia].
  - destruct (IH (mk now (interval s) 0) 0) as (counts & rest & H1 & H2 & H3 & H4); [done | done|].
    exists (n :: counts), rest. destruct (calls _ times) as [s2 out]. simpl in *.
    rewrite (clamp_exact (suppressed s) n Hn Hs). split_and!; [f_equal; exact H1 | done | done | lia].
Qed.

(** The documented "first call always emits" needs the steady clock to
    have reached the interval: a first call earlier than that after the
    clock's epoch is suppressed. *)
Theorem first_call_emits_iff (iv now : Z) :
  (should_log now (init iv)).2 <> None <-> iv <= now.
Proof. unfold should_log, init. simpl. case_bool; zb_props; split; intros; (done || lia). Qed.

End LogThrottle.

(** [enum class LogLevel] and the filter of the LOG macros and [log_fmt]. *)
Inductive LogLevel := Debug | Info | Warning | Error.

Definition level_index (l : LogLevel) : Z :=
  match l with Debug => 0 | Info => 1 | Warning => 2 | Error => 3 end.

Definition log_level_name (l : LogLevel) : list Z :=
  bytes_of_string
    match l with Debug => "DEBUG" | Info => "INFO" | Warning => "WARNING" | Error => "ERROR" end.

Definition level_enabled (current l : LogLevel) : bool := level_index current <=? level_index l.

Module BufferPool.

(** A vector handed around: its capacity and its current contents (a
    recycled buffer keeps both). *)
Record buffer := mkBuffer { capacity : Z; contents : list Z }.

Record t := mk { max_buffers : nat; max_capacity : Z; free : list buffer }.

(** [free] is the vector with its back first. *)
Definition acquire (p : t) : t * buffer :=
  match free p with
  | [] => (p, mkBuffer 0 [])
  | b :: rest => (mk (max_buffers p) (max_capacity p) rest, b)
  end.

Definition release (b : buffer) (p : t) : t :=
  if (capacity b =? 0) || (max_capacity p <? capacity b) then p
  else if (max_buffers p <=? length (free p))%nat then p
  else mk (max_buffers p) (max_capacity p) (b :: free p).

(** [datagram_pool()]. *)
Definition datagram_pool : t := mk 256 UDP_WIRE_DATAGRAM_MAX [].

Inductive op := Acquire | Release (b : buffer).

Definition step (p : t) (o : op) : t :=
  match o with Acquire => (acquire p).1 | Release b => release b p end.

Definition pool_inv (p : t) : Prop :=
  (length (free p) <= max_buffers p)%nat /\
  Forall (fun b => 0 <> capacity b /\ capacity b <= max_capacity p) (free p).

Lemma pool_step_inv p o : pool_inv p -> pool_inv (step p o).
Proof.
  intros [Hl Hf]. destruct o as [|b]; simpl.
  - unfold acquire. destruct (free p) as [|b rest] eqn:E; simpl; [by rewrite <- E in *|].
    unfold pool_inv. simpl in *. split; [lia|]. by inversion Hf.
  - unfold release. repeat case_bool; zb_props; try done.
    unfold pool_inv. simpl. split; [lia|]. constructor; [lia | done].
Qed.

Lemma step_bounds p o : max_buffers (step p o) = max_buffers p /\ max_capacity (step p o) = max_capacity p.
Proof. destruct o; simpl; unfold acquire, release; [destruct (free p) | repeat case_bool]; done. Qed.

(** The process-wide pool's footprint is fixed: after any sequence of
    acquisitions and releases it holds at most 256 buffers, each of at most
    [UDP_WIRE_DATAGRAM_MAX] bytes of capacity, so at most 256 times that in
    total. *)
Theorem datagram_pool_bounded (ops : list op) :
  let p := foldl step datagram_pool ops in
  (length (free p) <= 256)%nat /\
  foldr Z.add 0 (capacity <$> free p) <= 256 * UDP_WIRE_DATAGRAM_MAX.
Proof.
  intros p.
  assert (H : pool_inv p /\ max_buffers p = 256%nat /\ max_capacity p = UDP_WIRE_DATAGRAM_MAX).
  { unfold p. clear p. induction ops as [|o ops IH] using rev_ind.
    - split; [split; [simpl; lia | constructor] | done].
    - rewrite foldl_app. destruct IH as (Hi & Hb & Hc). simpl.
      destruct (step_bounds (foldl step datagram_pool ops) o) as [-> ->].
      split; [by apply pool_step_inv | done]. }
  destruct H as ([Hl Hf] & Hb & Hc). rewrite Hb in Hl. rewrite Hc in Hf. split; [done|].
  assert (Hsum : foldr Z.add 0 (capacity <$> free p) <= Z.of_nat (length (free p)) * UDP_WIRE_DATAGRAM_MAX).
  { clear - Hf. induction (free p) as [|b l IH]; [done|].
    inversion Hf as [|? ? [_ Hb] Hl]; subst. specialize (IH Hl).
    rewrite fmap_cons. cbn [foldr length]. lia. }
  assert (0 <= UDP_WIRE_DATAGRAM_MAX) by by vm_compute. nia.
Qed.

End BufferPool.
