(* ===== verification/Logger.v ===== *)
(** * Logger: levels, module loggers and the shape of a line

    Models logger.cpp: the pattern and [UppercaseLevelFormatter], the level
    mappings, [module_logger], [set_log_level] and [log], and, in [Backend],
    the sink, the test sink and the error handler of the process. The pattern
    formatter of spdlog is the class [SpdlogPattern]; what the code relies on
    of it are the laws [SpdlogLaws], and [PlainPattern] satisfies them. A
    sink's write is the line it is given. *)

From Stdlib Require Import ZArith Lia.
From stdpp Require Import base list gmap strings numbers.
From S2P Require Import Prelude Runtime.

(** ** Levels *)

Inductive spd_level : Type := trace | debug | info | warn | err | critical | off.

#[export] Instance spd_level_eq_dec : EqDecision spd_level.
Proof. solve_decision. Defined.

Definition spd_index (l : spd_level) : Z :=
  match l with trace => 0 | debug => 1 | info => 2 | warn => 3 | err => 4 | critical => 5 | off => 6 end.

Definition to_spdlog (l : LogLevel) : spd_level :=
  match l with Debug => debug | Info => info | Warning => warn | Error => err end.

Definition from_spdlog (l : spd_level) : LogLevel :=
  match l with
  | trace | debug => Debug
  | warn => Warning
  | err | critical => Error
  | _ => Info
  end.

Definition uppercase_level (l : spd_level) : list Z := log_level_name (from_spdlog l).

(** ** The line format *)

Record log_msg := mkMsg { m_time : Z; m_level : spd_level; m_name : list Z; m_payload : list Z }.

(** [pattern_formatter::format], and the rendering of one flag. *)
Class SpdlogPattern := {
  render : list Z -> log_msg -> list Z;
  flag : Z -> log_msg -> list Z;
  eol : list Z }.

Definition percent : Z := 37.

(** The number of digits of a time flag: [%Y] has four, [%m], [%d], [%H],
    [%M] and [%S] two, [%e] three. *)
Definition time_width (c : Z) : option nat :=
  if c =? 89 then Some 4%nat
  else if (c =? 109) || (c =? 100) || (c =? 72) || (c =? 77) || (c =? 83) then Some 2%nat
  else if c =? 101 then Some 3%nat
  else None.

(** The flags of the program's pattern: the time flags, [%n] and [%v]. *)
Definition used_flag (c : Z) : bool :=
  bool_decide (is_Some (time_width c)) || (c =? 110) || (c =? 118).

(** The documented pattern language, on the flags the pattern uses and
    without alignment specifications, of which it has none: such a flag is
    replaced by its rendering, a character other than the percent sign is
    copied, a line ends with the end-of-line; [%n] and [%v] are the logger's
    name and the message, and a time flag has its number of digits. *)
Class SpdlogLaws {P : SpdlogPattern} : Prop := {
  render_nil m : render [] m = eol;
  render_char c p m : c <> percent -> render (c :: p) m = c :: render p m;
  render_flag c p m : used_flag c = true -> render (percent :: c :: p) m = flag c m ++ render p m;
  flag_name m : flag 110 m = m_name m;
  flag_payload m : flag 118 m = m_payload m;
  flag_time c n m : time_width c = Some n ->
    length (flag c m) = n /\ Forall (fun b => is_digit b = true) (flag c m) }.
Arguments SpdlogLaws : clear implicits.

Definition kPattern : list Z := bytes_of_string "%Y-%m-%d %H:%M:%S.%e [%l] %n: %v".
Definition kLevelPlaceholder : Z := 1.

(** [s.find(t)] for a string [t]. *)
Fixpoint find_bytes (t s : list Z) : option nat :=
  if bool_decide (take (length t) s = t) then Some 0%nat
  else match s with [] => None | _ :: s' => S <$> find_bytes t s' end.

(** [formatter_pattern()]. *)
Definition formatter_pattern : list Z :=
  let level_field := bytes_of_string "[%l]" in
  match find_bytes level_field kPattern with
  | Some at_ => take at_ kPattern ++ [91; kLevelPlaceholder; 93] ++ drop (at_ + length level_field) kPattern
  | None => kPattern
  end.

(** ** The loggers *)

(** The level of the header's atomic, the levels of the loggers registered
    per module, and the [set_log_level] calls that have stored their level but
    not yet walked the loggers. *)
Record loggers := mkLoggers {
  current : LogLevel;
  module_loggers : gmap (list Z) spd_level;
  walking : list LogLevel }.

Definition init_loggers : loggers := mkLoggers Info ∅ [].

(** [set_log_level]: the store, then the walk under the lock. *)
Definition store_log_level (l : LogLevel) (s : loggers) : loggers :=
  mkLoggers l (module_loggers s) (l :: walking s).
Definition walk_loggers (l : LogLevel) (rest : list LogLevel) (s : loggers) : loggers :=
  mkLoggers (current s) ((fun _ => to_spdlog l) <$> module_loggers s) rest.
Definition set_log_level (l : LogLevel) (s : loggers) : loggers :=
  walk_loggers l (walking s) (store_log_level l s).

(** [module_logger]: the logger that is registered, else a new one; the
    level is read again under the registration lock. *)
Definition module_logger (m : list Z) (s : loggers) : loggers * spd_level :=
  match module_loggers s !! m with
  | Some l => (s, l)
  | None =>
      let l := to_spdlog (current s) in
      (mkLoggers (current s) (<[m := l]> (module_loggers s)) (walking s), l)
  end.

Section Format.
Context {P : SpdlogPattern}.

(** [UppercaseLevelFormatter::format]: the scratch line, split at the first
    placeholder. *)
Definition format (m : log_msg) : list Z :=
  let line := render formatter_pattern m in
  match find_byte kLevelPlaceholder line with
  | None => line
  | Some marker => take marker line ++ uppercase_level (m_level m) ++ drop (marker + 1) line
  end.

(** [log(level, module, message)] at time [now]: the line written, and the
    call of the test sink when one is installed. *)
Definition log (now : Z) (level : LogLevel) (module message : list Z) (sink : bool) (s : loggers)
  : loggers * option (list Z) * option (LogLevel * list Z * list Z) :=
  if negb (level_enabled (current s) level) then (s, None, None)
  else
    let '(s', lg) := module_logger module s in
    let lvl := to_spdlog level in
    if negb (spd_index lg <=? spd_index lvl) then (s', None, None)
    else (s', Some (format (mkMsg now lvl module message)),
          if sink then Some (level, module, message) else None).

(** [log_fmt]: [text] is the formatted message, or what the formatting
    threw. *)
Definition log_fmt (now : Z) (level : LogLevel) (module : list Z) (text : exn_result (list Z)) (sink : bool)
    (s : loggers) : loggers * option (list Z) * option (LogLevel * list Z * list Z) :=
  if level_enabled (current s) level then
    match text with
    | Ret message => log now level module message sink s
    | Throw what => log now Error (bytes_of_string "logger") (bytes_of_string "Log format error: " ++ what) sink s
    end
  else (s, None, None).
End Format.

(** ** The levels never go stale *)

(** The steps of concurrent callers between the locks; a new [set_log_level]
    starts when none is under way, as in the programs, which call it once. *)
Inductive log_step : loggers -> loggers -> Prop :=
| log_store l s : walking s = [] -> log_step s (store_log_level l s)
| log_walk l rest s : walking s = l :: rest -> log_step s (walk_loggers l rest s)
| log_module m s : log_step s (module_logger m s).1.

Inductive log_steps : loggers -> Prop :=
| log_init : log_steps init_loggers
| log_next s s' : log_steps s -> log_step s s' -> log_steps s'.

Record loggers_ok (s : loggers) : Prop := {
  lg_one : walking s = [] \/ walking s = [current s];
  lg_same : walking s = [] -> map_Forall (fun _ l => l = to_spdlog (current s)) (module_loggers s) }.

Lemma log_step_ok s s' : log_step s s' -> loggers_ok s -> loggers_ok s'.
Proof.
  intros [l s0 Hw|l rest s0 Hw|m s0] [H1 H2].
  - split; cbn; [right; by rewrite Hw | done].
  - rewrite Hw in H1. destruct H1 as [|E]; [done|]. injection E as -> ->.
    split; cbn; [by left|]. intros _ k x. rewrite lookup_fmap. intros (y & _ & <-)%fmap_Some. done.
  - unfold module_logger. destruct (module_loggers s0 !! m) eqn:E; [by split|]. split; cbn; [done|].
    intros Hw. apply map_Forall_insert_2; [done | by apply H2].
Qed.

Lemma log_steps_ok s : log_steps s -> loggers_ok s.
Proof.
  induction 1 as [|s s' _ IH Hst]; [|by eapply log_step_ok]. split; [by left|]. intros _. apply map_Forall_empty.
Qed.

Lemma level_order a b : (spd_index (to_spdlog a) <=? spd_index (to_spdlog b)) = level_enabled a b.
Proof. by destruct a, b. Qed.

Section Lines.
Context {P : SpdlogPattern} {L : SpdlogLaws P}.

Lemma log_quiet now level module message sink s :
  loggers_ok s -> walking s = [] ->
  let '(s', line, call) := log now level module message sink s in
  current s' = current s /\
  line = (if level_enabled (current s) level then Some (format (mkMsg now (to_spdlog level) module message)) else None) /\
  call = (if level_enabled (current s) level && sink then Some (level, module, message) else None).
Proof.
  intros [_ Hs] Hw. specialize (Hs Hw). unfold log. destruct (level_enabled (current s) level) eqn:El; cbn [negb andb].
  2:{ done. }
  unfold module_logger. destruct (module_loggers s !! module) as [lg|] eqn:E.
  - rewrite (Hs _ _ E), level_order, El. by destruct sink.
  - rewrite level_order, El. by destruct sink.
Qed.

(** The timestamp of a message: the flags Y-m-d H:M:S.e. *)
Definition timestamp (m : log_msg) : list Z :=
  flag 89 m ++ 45 :: flag 109 m ++ 45 :: flag 100 m ++ 32 :: flag 72 m ++ 58 :: flag 77 m ++ 58 :: flag 83 m ++ 46 :: flag 101 m.

(** The rendering of the flag with the given letter. *)
Definition time_flag (letter : string) (m : log_msg) : list Z := flag (hd 0 (bytes_of_string letter)) m.

Lemma timestamp_ok m : length (timestamp m) = 23%nat /\ kLevelPlaceholder ∉ timestamp m.
Proof.
  unfold timestamp.
  assert (Ht : forall c n, time_width c = Some n -> length (flag c m) = n /\ kLevelPlaceholder ∉ flag c m).
  { intros c n Hc. destruct (flag_time c n m Hc) as [Hl Hd]. split; [done|]. by eapply digits_exclude. }
  destruct (Ht 89 4%nat eq_refl) as [L1 N1], (Ht 109 2%nat eq_refl) as [L2 N2], (Ht 100 2%nat eq_refl) as [L3 N3],
    (Ht 72 2%nat eq_refl) as [L4 N4], (Ht 77 2%nat eq_refl) as [L5 N5], (Ht 83 2%nat eq_refl) as [L6 N6],
    (Ht 101 3%nat eq_refl) as [L7 N7].
  split; [repeat (rewrite length_app; simpl); lia|].
  repeat (rewrite ?not_elem_of_app, ?not_elem_of_cons). split_and!; try done.
Qed.

Lemma formatter_pattern_eq :
  formatter_pattern =
  [percent; 89; 45; percent; 109; 45; percent; 100; 32; percent; 72; 58; percent; 77; 58; percent; 83; 46; percent; 101;
   32; 91; kLevelPlaceholder; 93; 32; percent; 110; 58; 32; percent; 118].
Proof. by vm_compute. Qed.

Lemma render_line m :
  render formatter_pattern m =
  (timestamp m ++ [32; 91]) ++ kLevelPlaceholder :: ([93; 32] ++ m_name m ++ [58; 32] ++ m_payload m ++ eol).
Proof.
  rewrite formatter_pattern_eq. unfold timestamp.
  repeat ((rewrite render_flag by done) || (rewrite render_char by done)).
  rewrite render_nil, <- flag_name, <- flag_payload. rewrite <- !app_assoc. cbn [app].
  repeat (rewrite <- !app_assoc; cbn [app]). done.
Qed.

(** C28: in every state that concurrent callers can reach with no level
    change under way, a message is written, and handed to the test sink,
    exactly when its level is enabled. The line written is the timestamp
    year-month-day hour:minute:second.millisecond of the message, 23
    characters, then the upper-case level in brackets, the module and the
    message, whatever bytes the module name and the message contain, the
    formatter's own placeholder included. *)
Theorem log_line_contract (now : Z) (level : LogLevel) (module message : list Z) (sink : bool) (s : loggers) :
  log_steps s -> walking s = [] ->
  let '(s', line, call) := log now level module message sink s in
  current s' = current s /\
  call = (if level_enabled (current s) level && sink then Some (level, module, message) else None) /\
  if level_enabled (current s) level then
    let m := mkMsg now (to_spdlog level) module message in
    let ts := time_flag "Y" m ++ bytes_of_string "-" ++ time_flag "m" m ++ bytes_of_string "-" ++ time_flag "d" m ++
              bytes_of_string " " ++ time_flag "H" m ++ bytes_of_string ":" ++ time_flag "M" m ++
              bytes_of_string ":" ++ time_flag "S" m ++ bytes_of_string "." ++ time_flag "e" m in
    length ts = 23%nat /\
    line = Some (ts ++ bytes_of_string " [" ++ log_level_name level ++ bytes_of_string "] " ++ module ++
                 bytes_of_string ": " ++ message ++ eol)
  else line = None.
Proof.
  intros Hs Hw. pose proof (log_quiet now level module message sink s (log_steps_ok _ Hs) Hw) as H.
  destruct (log now level module message sink s) as [[s' line] call]. destruct H as (H1 & H2 & H3).
  split_and!; [done | done |]. destruct (level_enabled (current s) level); [|done].
  intros m ts. assert (Ht : ts = timestamp m) by done. clearbody ts. subst ts.
  destruct (timestamp_ok m) as [Hl Hn]. split; [done|]. rewrite H2. fold m. f_equal. unfold format.
  rewrite render_line, find_byte_app_notin.
  2:{ rewrite not_elem_of_app. split; [done|]. rewrite !not_elem_of_cons. split_and!; try done. apply not_elem_of_nil. }
  rewrite take_app_length. rewrite drop_app_ge by lia.
  rewrite Nat.add_comm, Nat.add_sub.
  rewrite <- !app_assoc. f_equal. unfold uppercase_level. by destruct level.
Qed.
End Lines.

(** ** The process's sink, test sink and error handler *)

Module Backend.

(** The sink of [make_sink]. *)
Inductive sink : Type := AndroidSink | StderrSink.

(** [g_sink], the test sink of [g_log_sink] (a name for the function), the
    static of [install_error_handler], and the loggers. *)
Record t := mk { g_sink : option sink; g_log_sink : option Z; installed : bool; logs : loggers }.

Definition init : t := mk None None false init_loggers.

Inductive event : Type :=
| MadeSink (k : sink)
| InstalledHandler
| Wrote (k : sink) (line : list Z)
| Called (callback : Z) (level : LogLevel) (module message : list Z).

Definition make_sink (android : bool) : sink := if android then AndroidSink else StderrSink.

(** [shared_sink]: made, with its formatter, on the first use. *)
Definition shared_sink (android : bool) (b : t) : t * list event :=
  match g_sink b with
  | Some _ => (b, [])
  | None =>
      let k := make_sink android in
      (mk (Some k) (g_log_sink b) (installed b) (logs b), [MadeSink k])
  end.

Definition install_error_handler (b : t) : t * list event :=
  if installed b then (b, []) else (mk (g_sink b) (g_log_sink b) true (logs b), [InstalledHandler]).

Definition set_log_sink_for_test (callback : option Z) (b : t) : t :=
  mk (g_sink b) callback (installed b) (logs b).

Definition set_log_file_path (path : list Z) (b : t) : t := b.

(** The sink of a module's logger: one that is not registered yet is built on
    the shared sink. *)
Definition logger_sink (android : bool) (module : list Z) (b : t) : t * list event :=
  match module_loggers (logs b) !! module with Some _ => (b, []) | None => shared_sink android b end.

Section Process.
Context {P : SpdlogPattern} (android : bool).

(** [log(level, module, message)] in the process: [log] with its effects. *)
Definition log_message (now : Z) (level : LogLevel) (module message : list Z) (b : t) : t * list event :=
  if negb (level_enabled (current (logs b)) level) then (b, [])
  else
    let '(b1, e1) := install_error_handler b in
    let '(b2, e2) := logger_sink android module b1 in
    let '(lg, line, call) := log now level module message (bool_decide (is_Some (g_log_sink b2))) (logs b2) in
    let wrote := match line, g_sink b2 with Some l, Some k => [Wrote k l] | _, _ => [] end in
    let called := match call, g_log_sink b2 with Some (lv, m, d), Some f => [Called f lv m d] | _, _ => [] end in
    (mk (g_sink b2) (g_log_sink b2) (installed b2) lg, e1 ++ e2 ++ wrote ++ called).

(** The calls of the interface. *)
Inductive call : Type :=
| Log (now : Z) (level : LogLevel) (module message : list Z)
| SetLevel (level : LogLevel)
| SetTestSink (callback : option Z)
| SetFile (path : list Z).

Definition perform (b : t) (c : call) : t * list event :=
  match c with
  | Log now level module message => log_message now level module message b
  | SetLevel level => (mk (g_sink b) (g_log_sink b) (installed b) (set_log_level level (logs b)), [])
  | SetTestSink f => (set_log_sink_for_test f b, [])
  | SetFile path => (set_log_file_path path b, [])
  end.

Fixpoint perform_all (b : t) (cs : list call) : t * list event :=
  match cs with
  | [] => (b, [])
  | c :: cs' => let '(b1, e1) := perform b c in let '(b2, e2) := perform_all b1 cs' in (b2, e1 ++ e2)
  end.

(** What the calls should show, from the level and the test sink alone. *)
Fixpoint expected (level_now : LogLevel) (callback : option Z) (cs : list call) : list event :=
  match cs with
  | [] => []
  | Log now level module message :: cs' =>
      (if level_enabled level_now level then
         Wrote (make_sink android) (format (mkMsg now (to_spdlog level) module message)) ::
         match callback with Some f => [Called f level module message] | None => [] end
       else []) ++ expected level_now callback cs'
  | SetLevel level :: cs' => expected level callback cs'
  | SetTestSink f :: cs' => expected level_now f cs'
  | SetFile _ :: cs' => expected level_now callback cs'
  end.

Definition shown (e : event) : bool := match e with Wrote _ _ | Called _ _ _ _ => true | _ => false end.
Definition once (e : event) : bool := negb (shown e).

(** Every logger wraps the one sink. *)
Record backend_ok (b : t) : Prop := {
  bk_logs : loggers_ok (logs b) /\ walking (logs b) = [];
  bk_sink : g_sink b = None \/ g_sink b = Some (make_sink android);
  bk_used : g_sink b = None -> module_loggers (logs b) = ∅ }.

(** What is still to be set up, once each. *)
Definition setup (b : t) : nat := (if installed b then 0 else 1) + match g_sink b with None => 1 | Some _ => 0 end.
Lemma install_ok b :
  backend_ok b -> let '(b', ev) := install_error_handler b in
  backend_ok b' /\ filter (fun e => shown e = true) ev = [] /\ (length (filter (fun e => once e = true) ev) + setup b' = setup b)%nat /\
  logs b' = logs b /\ g_log_sink b' = g_log_sink b.
Proof.
  intros [H1 H2 H3]. unfold install_error_handler, setup. destruct (installed b) eqn:E; [|done].
  rewrite E. done.
Qed.

(** A logger that is registered or built now has the sink. *)
Lemma logger_sink_ok m b :
  backend_ok b -> let '(b', ev) := logger_sink android m b in
  backend_ok b' /\ filter (fun e => shown e = true) ev = [] /\ (length (filter (fun e => once e = true) ev) + setup b' = setup b)%nat /\
  logs b' = logs b /\ g_log_sink b' = g_log_sink b /\ g_sink b' = Some (make_sink android).
Proof.
  intros Hb. pose proof Hb as [H1 H2 H3]. unfold logger_sink, shared_sink, setup.
  destruct (module_loggers (logs b) !! m) eqn:E.
  - split_and!; try done. destruct H2 as [Hs|Hs]; [|done]. by rewrite (H3 Hs), lookup_empty in E.
  - destruct (g_sink b) as [k|] eqn:Es; [|split_and!; try done; by split; [|right|]].
    destruct H2 as [?|[= ->]]; [done|]. split_and!; try done. by rewrite Es.
Qed.

Lemma log_keeps now level module message sink s :
  loggers_ok s -> walking s = [] ->
  loggers_ok (log now level module message sink s).1.1 /\ walking (log now level module message sink s).1.1 = [].
Proof.
  intros Hs Hw. unfold log. destruct (negb _); [done|].
  pose proof (log_step_ok _ _ (log_module module s) Hs) as Hm.
  assert (Hw' : walking (module_logger module s).1 = []) by (unfold module_logger; by case_match).
  destruct (module_logger module s) as [s' lg]. by destruct (negb _).
Qed.

Lemma log_message_ok now level module message b :
  backend_ok b -> let '(b', ev) := log_message now level module message b in
  backend_ok b' /\ filter (fun e => shown e = true) ev =
    expected (current (logs b)) (g_log_sink b) [Log now level module message] /\
  (length (filter (fun e => once e = true) ev) + setup b' = setup b)%nat /\
  current (logs b') = current (logs b) /\ g_log_sink b' = g_log_sink b.
Proof.
  intros Hb. unfold log_message, expected. destruct (level_enabled _ level) eqn:El; [|done]. cbn [negb].
  pose proof (install_ok b Hb) as H1. destruct (install_error_handler b) as [b1 e1].
  destruct H1 as (Hb1 & S1 & C1 & L1 & T1).
  pose proof (logger_sink_ok module b1 Hb1) as H2. destruct (logger_sink android module b1) as [b2 e2].
  destruct H2 as (Hb2 & S2 & C2 & L2 & T2 & K2). destruct (bk_logs _ Hb2) as [Ho Hw].
  pose proof (log_quiet now level module message (bool_decide (is_Some (g_log_sink b2))) (logs b2) Ho Hw) as Hq.
  pose proof (log_keeps now level module message (bool_decide (is_Some (g_log_sink b2))) (logs b2) Ho Hw) as Hk.
  destruct (log _ _ _ _ _ _) as [[lg line] called]. cbn [fst] in Hk. destruct Hq as (Hc & Hl & Hca).
  rewrite L2, L1 in Hc, Hl, Hca. rewrite El in Hl, Hca. rewrite T2, T1 in *. subst line called. rewrite K2.
  rewrite !list.filter_app, S1, S2, !length_app. split; [split; [done | by right | done]|].
  assert (Hset : setup (mk (Some (make_sink android)) (g_log_sink b) (installed b2) lg) = setup b2)
    by (unfold setup; by rewrite K2).
  rewrite Hset. destruct (g_log_sink b) as [f|]; split_and!; try done; simpl in *; lia.
Qed.

Lemma perform_all_ok cs : forall b,
  backend_ok b -> let '(b', ev) := perform_all b cs in
  backend_ok b' /\ filter (fun e => shown e = true) ev = expected (current (logs b)) (g_log_sink b) cs /\
  (length (filter (fun e => once e = true) ev) + setup b' = setup b)%nat.
Proof.
  induction cs as [|c cs IH]; intros b Hb; [done|]. cbn [perform_all].
  assert (Hc : let '(b1, e1) := perform b c in backend_ok b1 /\
    filter (fun e => shown e = true) e1 ++ expected (current (logs b1)) (g_log_sink b1) cs =
      expected (current (logs b)) (g_log_sink b) (c :: cs) /\
    (length (filter (fun e => once e = true) e1) + setup b1 = setup b)%nat).
  { destruct c as [now level module message|level|f|path]; cbn [perform]; [|pose proof Hb as [[H1 H1'] H2 H3]..].
    - pose proof (log_message_ok now level module message b Hb) as H.
      destruct (log_message now level module message b) as [b1 e1]. destruct H as (H1 & H2 & H3 & -> & ->).
      split_and!; try done. rewrite H2. cbn [expected]. by rewrite app_nil_r.
    - split_and!; try done. split; cbn; [|done|].
      + split; [|done]. split; [by left|]. intros _ k x. cbn. rewrite lookup_fmap. by intros (y & _ & <-)%fmap_Some.
      + intros Hs. by rewrite (H3 Hs), fmap_empty.
    - by split_and!.
    - by split_and!. }
  destruct (perform b c) as [b1 e1]. destruct Hc as (H1 & H2 & H3). specialize (IH b1 H1).
  destruct (perform_all b1 cs) as [b2 e2]. destruct IH as (H4 & H5 & H6). rewrite !list.filter_app, length_app, H5, <- H2.
  split_and!; try done. lia.
Qed.

(** However the logging interface is called, one sink is made and one error
    handler installed, on the first message that passes the filter; every
    line goes to that sink, and the lines and the calls of the test sink are
    those of the level and the test sink in force. *)
Theorem one_sink (cs : list call) :
  let '(b, ev) := perform_all init cs in
  filter (fun e => shown e = true) ev = expected Info None cs /\
  (length (filter (fun e => once e = true) ev) <= 2)%nat.
Proof.
  assert (Hi : backend_ok init).
  { split; [|by left|done]. split; [|done]. apply log_steps_ok, log_init. }
  pose proof (perform_all_ok cs init Hi) as H. destruct (perform_all init cs) as [b ev].
  destruct H as (_ & H2 & H3). split; [exact H2|]. unfold setup at 2 in H3. simpl in H3. lia.
Qed.
End Process.
End Backend.

(** A pattern formatter that satisfies the laws: the clock reads zero. *)
Module PlainPattern.

Definition plain_flag (c : Z) (m : log_msg) : list Z :=
  if c =? 110 then m_name m
  else if c =? 118 then m_payload m
  else match time_width c with Some n => replicate n 48 | None => [] end.

Fixpoint plain_render (p : list Z) (m : log_msg) : list Z :=
  match p with
  | [] => [10]
  | c :: p' =>
      if c =? percent then match p' with f :: rest => plain_flag f m ++ plain_render rest m | [] => [10] end
      else c :: plain_render p' m
  end.

#[local] Instance plain : SpdlogPattern := { render := plain_render; flag := plain_flag; eol := [10] }.

#[local] Instance plain_laws : SpdlogLaws plain.
Proof.
  split; try done.
  - intros c p m Hc. simpl. by rewrite (proj2 (Z.eqb_neq _ _)).
  - intros c n m Hc. simpl. unfold plain_flag.
    destruct (Z.eqb_spec c 110) as [->|]; [done|]. destruct (Z.eqb_spec c 118) as [->|]; [done|].
    rewrite Hc. split; [apply length_replicate | by apply Forall_replicate].
Qed.

(** The message carries the placeholder byte. *)
Lemma log_line_contract_witness :
  (log 0 Warning (bytes_of_string "server") [1; 65; 1] false (set_log_level Warning init_loggers)).1.2 =
  Some (bytes_of_string "0000-00-00 00:00:00.000" ++ bytes_of_string " [" ++ bytes_of_string "WARNING" ++ bytes_of_string "] " ++ bytes_of_string "server" ++
        bytes_of_string ": " ++ [1; 65; 1] ++ [10]).
Proof.
  assert (Hs : log_steps (set_log_level Warning init_loggers)).
  { eapply log_next; [eapply log_next; [apply log_init | by apply (log_store Warning)]|]. by apply log_walk. }
  pose proof (log_line_contract 0 Warning (bytes_of_string "server") [1; 65; 1] false _ Hs eq_refl) as H.
  destruct (log _ _ _ _ _ _) as [[s' line] call] eqn:E. destruct H as (_ & _ & _ & ->). reflexivity.
Defined.
End PlainPattern.
