(* ===== verification/Udp.v ===== *)
(** * Udp: batched sends, the receive drain and the receive slots

    Models the socket loops of server.cpp ([send_batch_to_client],
    [handle_receive_drain], [arm_receive_slot], [park_receive_slot],
    [handle_receive]) and of kcp_client_session.cpp ([send_batch_wire]). The
    kernel's answers to [sendmmsg] and [recvmmsg] are parameters: a list of
    results, one per call; the only thing assumed of them is that a call never
    reports more datagrams than it was given room for. *)

From Stdlib Require Import ZArith Lia.
From stdpp Require Import base list.
From S2P Require Import Prelude Config Asio.

(** ** Batched send *)

Module BatchSend.

(** A [sendmmsg] result: accepted datagrams, a would-block or an interrupted
    call, or another error. *)
Inductive sys_result : Type := Sent (n : nat) | WouldBlock | SendError.

Definition BATCH : nat := Z.to_nat UDP_BATCH_MAX.

(** The loop: [batch] is what is left, the result is how many datagrams the
    kernel took; one kernel answer is consumed per iteration. *)
Fixpoint send_loop (answers : list sys_result) (batch : list (list Z)) : nat :=
  match batch with
  | [] => 0
  | _ =>
      let n := Nat.min (length batch) BATCH in
      match answers with
      | [] => 0
      | Sent k :: answers' => if (k <? n)%nat then k else k + send_loop answers' (drop k batch)
      | WouldBlock :: _ => 0
      | SendError :: _ => 0
      end
  end.

(** What leaves by the kernel call and what by the asynchronous path;
    [open] is the check of [running_] and of the socket on its strand. *)
Definition send_batch (open : bool) (answers : list sys_result) (batch : list (list Z))
  : list (list Z) * list (list Z) :=
  if negb open then ([], [])
  else
    match batch with
    | [] => ([], [])
    | [d] => ([], [d])
    | _ => let idx := send_loop answers batch in (take idx batch, drop idx batch)
    end.

(** The kernel never accepts more than it was offered. *)
Fixpoint honest (answers : list sys_result) (left : nat) : Prop :=
  match answers with
  | [] => True
  | Sent k :: answers' => (k <= Nat.min left BATCH)%nat /\ honest answers' (left - k)
  | _ :: _ => True
  end.

Lemma send_loop_le answers : forall batch,
  honest answers (length batch) -> (send_loop answers batch <= length batch)%nat.
Proof.
  induction answers as [|[k| |] answers IH]; intros [|d batch] Hh; simpl; try lia.
  destruct Hh as [Hk Hh]. case_match; [apply Nat.ltb_lt in H; lia|].
  specialize (IH (drop k (d :: batch))). rewrite length_drop in IH. specialize (IH Hh). simpl in *. lia.
Qed.

(** A burst is neither lost, duplicated nor reordered on its way to the
    wire: however much of it the kernel accepts, call by call, the datagrams it
    took followed by those handed to the asynchronous path are the burst. *)
Theorem batch_sent_exactly_once (answers : list sys_result) (batch : list (list Z)) :
  honest answers (length batch) ->
  (send_batch true answers batch).1 ++ (send_batch true answers batch).2 = batch /\
  (length (send_batch true answers batch).1 = match batch with [] | [_] => 0%nat | _ => send_loop answers batch end).
Proof.
  intros Hh. unfold send_batch. destruct batch as [|d1 [|d2 batch]]; [done..|]. cbn [negb fst snd].
  rewrite take_drop. split; [done|]. rewrite length_take. pose proof (send_loop_le answers _ Hh). lia.
Qed.

Lemma batch_sent_exactly_once_witness :
  (send_batch true [Sent 64; Sent 3] (replicate 100 [7])).1 ++ (send_batch true [Sent 64; Sent 3] (replicate 100 [7])).2
  = replicate 100 [7].
Proof. apply batch_sent_exactly_once. vm_compute. lia. Defined.
End BatchSend.

(** ** The receive drain *)

Module Drain.

(** The [sockaddr_storage] of a received datagram: address and port in
    network byte order, by family. *)
Inductive sockaddr : Type :=
| AF_INET (sin_addr sin_port : list Z)
| AF_INET6 (sin6_addr sin6_port : list Z)
| AF_OTHER.

Record datagram := mkDatagram { source : sockaddr; bytes : list Z }.

(** The decoded endpoint, [None] for a family that is dropped. *)
Definition decode_source (sa : sockaddr) : option (ip_address * Z) :=
  match sa with
  | AF_INET a p => Some (V4 a, be_value p)
  | AF_INET6 a p => Some (V6 a, be_value p)
  | AF_OTHER => None
  end.

Inductive sys_result : Type := Got (ds : list datagram) | Again | Interrupted | RecvError.

(** The drain phase: [got] is what has been read so far. *)
Fixpoint drain_loop (answers : list sys_result) (got : list datagram) : list datagram * bool :=
  if (Z.to_nat UDP_DRAIN_BATCH_MAX <=? length got)%nat then (got, false)
  else
    match answers with
    | [] => (got, false)
    | Again :: _ => (got, false)
    | Interrupted :: answers' => drain_loop answers' got
    | RecvError :: _ => (got, true)
    | Got ds :: answers' =>
        let want := Nat.min (Z.to_nat UDP_DRAIN_BATCH_MAX - length got) (Z.to_nat UDP_BATCH_MAX) in
        if (length ds <? want)%nat then (got ++ ds, false) else drain_loop answers' (got ++ ds)
    end.

(** The route phase. *)
Definition routable (d : datagram) : bool :=
  negb ((length (bytes d) =? 0)%nat || (UDP_RECV_BUF_SIZE <? Z.of_nat (length (bytes d)))) &&
  bool_decide (decode_source (source d) <> None).

Inductive next : Type := ArmAgain | ParkBackoff | ChainEnds.

(** [handle_receive_drain]: the routed datagrams, in order, and how the
    receive chain continues. [running] is read at the start and again after
    the drain, [wait_failed] is the readiness wait's own error. *)
Definition handle_receive_drain (running_before running_after wait_aborted wait_failed : bool)
    (answers : list sys_result) : list datagram * next :=
  if wait_aborted || negb running_before then ([], ChainEnds)
  else if wait_failed then ([], ParkBackoff)
  else
    let '(got, failed) := drain_loop answers [] in
    if negb running_after then ([], ChainEnds)
    else (filter (fun d => routable d = true) got, if failed then ParkBackoff else ArmAgain).

(** A call never returns more than it had room for. *)
Fixpoint honest (answers : list sys_result) (got : nat) : Prop :=
  match answers with
  | [] => True
  | Got ds :: answers' =>
      (length ds <= Nat.min (Z.to_nat UDP_DRAIN_BATCH_MAX - got) (Z.to_nat UDP_BATCH_MAX))%nat /\
      honest answers' (got + length ds)
  | _ :: answers' => honest answers' got
  end.

(** The datagrams of the first answers, in arrival order. *)
Fixpoint arrivals (answers : list sys_result) : list datagram :=
  match answers with
  | [] => []
  | Got ds :: answers' => ds ++ arrivals answers'
  | _ :: answers' => arrivals answers'
  end.

Lemma drain_loop_spec answers : forall got,
  honest answers (length got) -> (length got <= Z.to_nat UDP_DRAIN_BATCH_MAX)%nat ->
  (length (drain_loop answers got).1 <= Z.to_nat UDP_DRAIN_BATCH_MAX)%nat /\
  (drain_loop answers got).1 `prefix_of` got ++ arrivals answers.
Proof.
  induction answers as [|a answers IH]; intros got Hh Hl; cbn [drain_loop arrivals];
    destruct (Nat.leb_spec (Z.to_nat UDP_DRAIN_BATCH_MAX) (length got)) as [Hge|Hlt]; cbn [fst];
    try (split; [done | by apply prefix_app_r]).
  destruct a as [ds| | |]; cbn [fst]; try (split; [done | by apply prefix_app_r]).
  - destruct Hh as [Hd Hh]. rewrite app_assoc. rewrite <- length_app in Hh.
    assert (Hl' : (length (got ++ ds) <= Z.to_nat UDP_DRAIN_BATCH_MAX)%nat) by (rewrite length_app; lia).
    destruct (_ <? _)%nat; [split; [done | by apply prefix_app_r] | by apply IH].
  - by apply IH.
Qed.

(** One drain reads at most its bound, routes what it read in arrival
    order without loss or duplication (only empty, oversized and sourceless
    datagrams are dropped), and while the server runs the receive chain always
    continues, at once or through the backoff, whatever the kernel answers. *)
Theorem drain_routes_in_order (answers : list sys_result) (wait_failed : bool) :
  honest answers 0 ->
  let '(routed, nxt) := handle_receive_drain true true false wait_failed answers in
  (exists read, read `prefix_of` arrivals answers /\ routed = filter (fun d => routable d = true) read /\
                Z.of_nat (length read) <= UDP_DRAIN_BATCH_MAX) /\
  nxt <> ChainEnds.
Proof.
  intros Hh. unfold handle_receive_drain. cbn [negb orb].
  destruct wait_failed; [split; [|done]; exists []; by split_and!; [apply prefix_nil| |vm_compute]|].
  destruct (drain_loop_spec answers [] Hh ltac:(simpl; lia)) as [H1 H2].
  destruct (drain_loop answers []) as [got failed]. split; [|by destruct failed].
  exists got. split_and!; [done | done |]. cbn [fst] in H1. unfold UDP_DRAIN_BATCH_MAX in *. lia.
Qed.

Lemma drain_routes_in_order_witness :
  let d := mkDatagram (AF_INET [203; 0; 113; 9] [31; 144]) [5] in
  (handle_receive_drain true true false false [Got [d; d]; Again]).1 = [d; d].
Proof.
  intros d. pose proof (drain_routes_in_order [Got [d; d]; Again] false) as H.
  destruct (handle_receive_drain true true false false [Got [d; d]; Again]) as [r n] eqn:E.
  destruct H as [_ _]; [vm_compute; lia|]. vm_compute in E. by simplify_eq.
Defined.
End Drain.

(** ** The receive slots *)

Module Slots.

(** [RecvSlot]: whether a receive is outstanding on it, and its [parked] flag. *)
Record slot := mkSlot { pending : bool; parked : bool }.

Record t := mk { recv_slots : list slot; recv_backoff_armed : bool; running : bool }.

Definition set_slot (i : nat) (f : slot -> slot) (s : t) : t :=
  mk (alter f i (recv_slots s)) (recv_backoff_armed s) (running s).

(** [arm_receive_slot(index)]. *)
Definition arm_receive_slot (i : nat) (s : t) : t :=
  if negb (running s) then s else set_slot i (fun _ => mkSlot true false) s.

(** [park_receive_slot(index)]: one timer for all the slots. *)
Definition park_receive_slot (i : nat) (s : t) : t :=
  let s := set_slot i (fun x => mkSlot (pending x) true) s in
  if recv_backoff_armed s then s else mk (recv_slots s) true (running s).

Definition is_parked (s : t) (i : nat) : bool :=
  match recv_slots s !! i with Some x => parked x | None => false end.

(** The backoff timer's handler. *)
Definition on_backoff (timer_failed : bool) (s : t) : t :=
  let s := mk (recv_slots s) false (running s) in
  if timer_failed || negb (running s) then s
  else foldl (fun s i => if is_parked s i then arm_receive_slot i s else s)
         s (seq 0 (length (recv_slots s))).

(** [handle_receive(index, ec, bytes)], the routing of the datagram apart:
    the receive that completed is no longer outstanding. *)
Definition handle_receive (i : nat) (ec : error_code) (bytes : nat) (s : t) : t :=
  let s := set_slot i (fun x => mkSlot false (parked x)) s in
  if ec_failed ec then
    if running s && negb (bool_decide (ec = ec_operation_aborted)) then
      if bool_decide (ec = ec_connection_refused) || bool_decide (ec = ec_connection_reset)
      then arm_receive_slot i s
      else park_receive_slot i s
    else s
  else if (bytes =? 0)%nat then arm_receive_slot i s
  else if negb (running s) then s
  else arm_receive_slot i s.

(** [stop()]: [running_] is cleared (the socket is closed after that). *)
Definition stop (s : t) : t := mk (recv_slots s) (recv_backoff_armed s) false.

(** A completion of an outstanding receive (an abort is delivered only once
    the socket was closed, that is after [stop()]), the timer, or a stop. *)
Inductive step : t -> t -> Prop :=
| step_receive i x ec bytes s :
    recv_slots s !! i = Some x -> pending x = true ->
    (ec = ec_operation_aborted -> running s = false) -> step s (handle_receive i ec bytes s)
| step_backoff s : recv_backoff_armed s = true -> step s (on_backoff false s)
| step_stop s : step s (stop s).

(** Exactly one of the two ways a slot makes progress. *)
Definition slot_ok (x : slot) : Prop := parked x = negb (pending x).

Definition slots_ok (s : t) : Prop :=
  running s = true ->
  Forall slot_ok (recv_slots s) /\
  (forall i, is_parked s i = true -> recv_backoff_armed s = true).

(** Re-arming everything that is parked leaves every slot with a receive
    outstanding. *)
Lemma backoff_rearms s :
  running s = true -> Forall slot_ok (recv_slots s) ->
  recv_slots (on_backoff false s) = replicate (length (recv_slots s)) (mkSlot true false) /\
  running (on_backoff false s) = true.
Proof.
  intros Hr Hf. unfold on_backoff. rewrite Hr. cbn [negb orb recv_slots running].
  set (go := foldl _ _). cut (forall k, (k <= length (recv_slots s))%nat ->
    let s' := go (seq 0 k) in
    running s' = true /\
    recv_slots s' = replicate k (mkSlot true false) ++ drop k (recv_slots s)).
  { intros H. destruct (H (length (recv_slots s))) as (H1 & H2); [lia|].
    rewrite H2, drop_all, app_nil_r. done. }
  induction k as [|k IH]; intros Hk; [done|].
  destruct IH as (H1 & H2); [lia|]. unfold go in *. rewrite seq_S, foldl_app. cbn [foldl plus].
  set (s1 := foldl _ _ _) in *.
  destruct (lookup_lt_is_Some_2 (recv_slots s) k) as [x Hx]; [lia|].
  rewrite (drop_S _ _ _ Hx) in H2.
  assert (Hl : recv_slots s1 !! k = Some x).
  { rewrite H2. apply list_lookup_middle. by rewrite length_replicate. }
  rewrite replicate_S_end, <- app_assoc. cbn [app].
  unfold is_parked. rewrite Hl. pose proof (Forall_lookup_1 _ _ _ _ Hf Hx) as Hx'.
  destruct x as [pd pk]. unfold slot_ok in Hx'. cbn in Hx' |- *. subst pk.
  destruct pd; cbn; [by rewrite H1, H2|].
  unfold arm_receive_slot, set_slot. rewrite H1. cbn. split; [done|].
  rewrite H2. rewrite <- (length_replicate k (mkSlot true false)) at 1.
  by rewrite <- (Nat.add_0_r (length _)), alter_app_r.
Qed.

(** Rewriting one slot to a well-formed value keeps the invariant. *)
Lemma alter_slot_ok i v (s : t) :
  slot_ok v -> Forall slot_ok (recv_slots s) -> Forall slot_ok (alter (fun _ => v) i (recv_slots s)).
Proof.
  intros Hv Hf. apply Forall_lookup. intros j x. destruct (decide (i = j)) as [->|Hne].
  - rewrite list_lookup_alter_eq. by intros (y & _ & ->)%fmap_Some.
  - rewrite list_lookup_alter_ne by done. by apply Forall_lookup_1.
Qed.

Lemma alter_parked_inv (l : list slot) i v j b r :
  is_parked (mk (alter (fun _ => v) i l) b r) j = true ->
  parked v = true \/ is_parked (mk l b r) j = true.
Proof.
  unfold is_parked. cbn. destruct (decide (i = j)) as [->|Hne].
  - rewrite list_lookup_alter_eq. destruct (l !! j); cbn; [by left | done].
  - rewrite list_lookup_alter_ne by done. by right.
Qed.

Lemma alter_twice (l : list slot) i f g : alter f i (alter g i l) = alter (fun x => f (g x)) i l.
Proof. revert i. induction l as [|x l IH]; intros [|i]; cbn; [done..|]. f_equal. apply IH. Qed.

Lemma step_ok s s' : step s s' -> slots_ok s -> slots_ok s'.
Proof.
  intros [i x ec bytes s0 Hi Hx Hec | s0 Hb | s0] Hok Hr'.
  - destruct (running s0) eqn:Hr.
    2:{ exfalso. revert Hr'. unfold handle_receive, arm_receive_slot, park_receive_slot, set_slot. cbn. rewrite Hr. cbn.
        by repeat case_match. }
    clear Hr'. destruct (Hok Hr) as (Hf & Hp). clear Hok.
    assert (Harm : Forall slot_ok (alter (fun _ => mkSlot true false) i (recv_slots s0)) /\
      (forall j, is_parked (mk (alter (fun _ => mkSlot true false) i (recv_slots s0)) (recv_backoff_armed s0) true) j
                 = true -> recv_backoff_armed s0 = true)).
    { split; [by apply alter_slot_ok|]. by intros j [?|Hj]%alter_parked_inv; [|apply (Hp j)]. }
    unfold handle_receive, arm_receive_slot, park_receive_slot, set_slot. cbn. rewrite Hr.
    rewrite (bool_decide_false (ec = ec_operation_aborted)) by (intros E; specialize (Hec E); done). cbn.
    rewrite !alter_twice. cbn.
    assert (Hpk : Forall slot_ok (alter (fun _ => mkSlot false true) i (recv_slots s0)))
      by by apply alter_slot_ok.
    destruct (ec_failed ec), (bytes =? 0)%nat, (bool_decide (ec = ec_connection_refused)), (bool_decide (ec = ec_connection_reset)), (recv_backoff_armed s0); cbn; auto.
  - destruct (running s0) eqn:Hr.
    2:{ exfalso. revert Hr'. unfold on_backoff. cbn. rewrite Hr. done. }
    destruct (backoff_rearms s0 Hr (proj1 (Hok Hr))) as (H1 & H2). split.
    + rewrite H1. by apply Forall_replicate.
    + intros i. unfold is_parked. rewrite H1. case_match eqn:E; [|done].
      apply lookup_replicate in E as [-> _]. done.
  - done.
Qed.

Inductive steps : t -> t -> Prop :=
| steps_refl s : steps s s
| steps_step s1 s2 s3 : steps s1 s2 -> step s2 s3 -> steps s1 s3.

(** While the server runs no receive slot is ever lost: after any
    sequence of completions, errors and backoff expiries, every slot either
    has a receive outstanding or is parked (never both), a parked slot has the
    backoff timer armed, and one expiry of that timer leaves every slot with a
    receive outstanding. *)
Theorem no_receive_slot_lost (s : t) (n : nat) :
  steps (mk (replicate n (mkSlot true false)) false true) s -> running s = true ->
  Forall (fun x => parked x = negb (pending x)) (recv_slots s) /\
  (forall i, is_parked s i = true -> recv_backoff_armed s = true) /\
  recv_slots (on_backoff false s) = replicate (length (recv_slots s)) (mkSlot true false).
Proof.
  intros Hs Hr. assert (Hok : slots_ok s).
  { clear Hr. remember (mk (replicate n _) false true) as s0 eqn:E.
    induction Hs as [s|s1 s2 s3 _ IH Hst]; subst.
    - intros _. split; [by apply Forall_replicate|]. intros i. unfold is_parked. cbn.
      case_match eqn:E; [|done]. by apply lookup_replicate in E as [-> _].
    - eapply step_ok; [done|]. by apply IH. }
  destruct (Hok Hr) as (Hf & Hp). split_and!; [done | done|]. by apply backoff_rearms.
Qed.

Lemma no_receive_slot_lost_witness :
  Forall (fun x => parked x = negb (pending x))
    (recv_slots (handle_receive 3 (ec_other 5) 0 (mk (replicate 16 (mkSlot true false)) false true))).
Proof.
  apply (no_receive_slot_lost _ 16); [|reflexivity].
  eapply steps_step; [apply steps_refl|]. by apply (step_receive 3 (mkSlot true false)).
Defined.
End Slots.
