(* ===== verification/Buffers.v ===== *)
(** * Buffers: who owns a datagram's storage

    Models the datagram buffers of buffer_pool.hpp as storage that moves
    between owners: the process-wide freelist, the frame of a handler that is
    running, a handler posted to another strand, an asynchronous send or a
    reception that waits for its strand. The output paths of kcp_session.cpp,
    server.cpp and kcp_client_session.cpp and the copy of [receive_data] are
    programs over the pool, one action per touch of it, and a run interleaves
    any number of them: only the pool is shared, and its lock makes one action
    atomic. The reference machine has values in place of storage. The kernel's
    answers and the outcomes of the cipher are inputs; [grow], the growth
    policy of [std::vector], is a parameter with no law. *)

From Stdlib Require Import ZArith Lia.
From stdpp Require Import base list gmap.
From S2P Require Import Prelude Config Runtime Udp.

(** ** The store and the pool *)

(** A vector keeps its name while it moves from owner to owner. *)
Record store := mkStore { heap : gmap Z BufferPool.buffer; free : list Z; next : Z }.

(** A default-constructed vector. *)
Definition fresh (st : store) : store * Z :=
  (mkStore (<[next st := BufferPool.mkBuffer 0 []]> (heap st)) (free st) (next st + 1), next st).

Definition acquire (st : store) : store * Z :=
  match free st with
  | [] => fresh st
  | a :: rest => (mkStore (heap st) rest (next st), a)
  end.

(** The end of a vector's life. *)
Definition destroy (a : Z) (st : store) : store := mkStore (delete a (heap st)) (free st) (next st).

Definition capacity_of (a : Z) (st : store) : Z := default 0 (BufferPool.capacity <$> heap st !! a).

Definition release (a : Z) (st : store) : store :=
  let c := capacity_of a st in
  if (c =? 0) || (UDP_WIRE_DATAGRAM_MAX <? c) then destroy a st
  else if (256 <=? length (free st))%nat then destroy a st
  else mkStore (heap st) (a :: free st) (next st).

(** The bytes a reader of the vector sees. *)
Definition contents_of (a : Z) (st : store) : list Z := default [] (BufferPool.contents <$> heap st !! a).

(** ** Holders *)

(** A [PooledBuffer] behind a shared pointer. [Sending]: the one of an
    asynchronous send; [Received]: the one of a datagram copied for its
    session's strand. *)
Inductive holder : Type := Sending | Received.

Definition make_pooled_send (a : Z) : holder * Z := (Sending, a).

(** [~PooledBuffer], when the last reference goes. *)
Definition holder_dies (h : holder * Z) (st : store) : store := release h.2 st.

(** ** Programs *)

(** One touch of the storage by a handler. [Seal] and [Scribble] are what
    [encrypt_into] leaves in the vector just acquired, on success (the
    handler then keeps it in its batch) and on failure; [Recycle] releases
    that vector; [Sendmmsg], [Release] and [Fly] work on the batch from its
    front; [Handoff] moves the batch into a handler posted to another strand;
    [Receive] is the copy of [receive_data]. *)
Inductive action : Type :=
| Acquire
| Seal (wire : list Z)
| Scribble (leftover : list Z)
| Recycle
| Sendmmsg (n : nat)
| Release
| Fly
| Handoff (p : list action)
| Receive (bs : list Z).

(** What [encrypt_into] did with one datagram. *)
Inductive outcome : Type := Sealed (wire : list Z) | Refused (leftover : list Z).

Definition encrypt_for_wire (r : outcome) : list action :=
  match r with
  | Sealed w => [Acquire; Seal w]
  | Refused g => [Acquire; Scribble g; Recycle]
  end.

(** The loop of [handle_kcp_output_batch]; [kept] vectors are in the batch.
    The flag says whether the whole burst was encrypted. *)
Fixpoint encrypt_batch (kept : nat) (rs : list outcome) : list action * bool :=
  match rs with
  | [] => ([], true)
  | Sealed w :: rs' =>
      let '(acts, ok) := encrypt_batch (S kept) rs' in (encrypt_for_wire (Sealed w) ++ acts, ok)
  | Refused g :: _ => (encrypt_for_wire (Refused g) ++ replicate kept Release, false)
  end.

(** The [sendmmsg] loop both ends share, on a batch of [left] vectors; what
    it leaves goes to [rest]. *)
Fixpoint send_chunks (rest : nat -> list action) (answers : list BatchSend.sys_result) (left : nat) : list action :=
  match left with
  | O => []
  | _ =>
      let n := Nat.min left BatchSend.BATCH in
      match answers with
      | BatchSend.Sent k :: answers' =>
          Sendmmsg k :: replicate k Release ++
          (if (k <? n)%nat then rest (left - k)%nat else send_chunks rest answers' (left - k)%nat)
      | _ => rest left
      end
  end.

(** *** The server's side *)

(** The handlers that [send_to_client] and [send_batch_to_client] dispatch to
    the socket's strand; [open] is what they read there. *)
Definition send_one (open : bool) : list action := if open then [Fly] else [Release].
Definition send_many (n : nat) (open : bool) (answers : list BatchSend.sys_result) : list action :=
  if open then send_chunks (fun left => replicate left Fly) answers n else [].

Definition send_batch_to_client (n : nat) (open : bool) (answers : list BatchSend.sys_result) : list action :=
  match n with
  | O => []
  | S O => [Handoff (send_one open)]
  | _ => [Handoff (send_many n open answers)]
  end.

(** [KCPSession::handle_kcp_output] and [handle_kcp_output_batch]; [active]
    is the guard on the session and its callback. *)
Definition server_output (active : bool) (r : outcome) (open : bool) : list action :=
  if negb active then []
  else
    match r with
    | Sealed _ => encrypt_for_wire r ++ send_batch_to_client 1 open []
    | Refused _ => encrypt_for_wire r
    end.
Definition server_output_batch (active : bool) (rs : list outcome) (open : bool)
    (answers : list BatchSend.sys_result) : list action :=
  if negb active then []
  else
    let '(acts, ok) := encrypt_batch 0 rs in
    if ok then acts ++ send_batch_to_client (length rs) open answers else acts.

(** [KCPSession::receive_data]. *)
Definition receive_data (bs : list Z) : list action := [Receive bs].

(** *** The client's side *)

(** [start_async_send]; [alive] is its reading of the socket and of
    [running_]. *)
Definition start_async_send (alive : bool) : action := if alive then Fly else Release.

(** [send_batch_wire]; [active] is its guard, [alive i] the reading of the
    [i]th [start_async_send]. *)
Definition send_batch_wire (active is_open : bool) (alive : nat -> bool)
    (answers : list BatchSend.sys_result) (n : nat) : list action :=
  let async := fun left => start_async_send ∘ alive <$> seq 0 left in
  if negb active then replicate n Release
  else if (1 <? n)%nat && is_open then send_chunks async answers n
  else async n.

(** [KCPClientSession::handle_kcp_output] and [handle_kcp_output_batch]. *)
Definition client_output (active : bool) (r : outcome) (alive : bool) : list action :=
  if negb active then []
  else
    match r with
    | Sealed _ => encrypt_for_wire r ++ [start_async_send alive]
    | Refused _ => encrypt_for_wire r
    end.
Definition client_output_batch (active still is_open : bool) (alive : nat -> bool) (rs : list outcome)
    (answers : list BatchSend.sys_result) : list action :=
  if negb active then []
  else
    let '(acts, ok) := encrypt_batch 0 rs in
    if ok then acts ++ send_batch_wire still is_open alive answers (length rs) else acts.

(** ** Runs *)

(** A handler in progress: the vector [encrypt_into] works on, the batch, and
    what is left to do. *)
Record strand := mkStrand { out : option Z; batch : list Z; todo : list action }.

Record state := mkState { mem : store; held : list (holder * Z); strands : list strand }.

Definition init : state := mkState (mkStore ∅ [] 0) [] [].

(** What is seen from outside: bytes read by the kernel, bytes handed to
    [on_receive]. *)
Inductive event : Type := Wire (bs : list Z) | Handled (bs : list Z).

Definition seen (k : holder) (bs : list Z) : event :=
  match k with Sending => Wire bs | Received => Handled bs end.

Definition owned (s : strand) : list Z := option_list (out s) ++ batch s.

(** The environment's moves: a handler starts, a handler takes its next step
    (or returns, when nothing is left: its locals are destroyed), the owner of
    a holder reads it, a holder's last reference goes ([~PooledBuffer]). *)
Inductive move : Type := Start (p : list action) | Run (k : nat) | Read (i : nat) | Done (i : nat).

Section Machine.
Context (grow : Z -> Z -> Z).

(** A vector is filled with [bs]; the storage is replaced when it is too
    small. *)
Definition write (a : Z) (bs : list Z) (st : store) : store :=
  let c := capacity_of a st in
  let n := Z.of_nat (length bs) in
  mkStore (<[a := BufferPool.mkBuffer (if n <=? c then c else grow c n) bs]> (heap st)) (free st) (next st).

(** The copy of [receive_data]: a new holder, whose default-constructed vector
    is assigned the caller's bytes. *)
Definition copy_in (bs : list Z) (st : store) : store * (holder * Z) :=
  let '(st1, a) := fresh st in (write a bs st1, (Received, a)).

(** The effect of one action: the storage, the handler, the holders and the
    handlers it creates, what it shows. *)
Record effect := mkEffect {
  e_mem : store; e_strand : strand; e_held : list (holder * Z); e_spawned : list strand; e_seen : list event }.

Definition act (x : action) (st : store) (s : strand) (rest : list action) : effect :=
  let idle := mkEffect st (mkStrand (out s) (batch s) rest) [] [] [] in
  match x with
  | Acquire =>
      let st0 := match out s with Some a => destroy a st | None => st end in
      let '(st1, a) := acquire st0 in mkEffect st1 (mkStrand (Some a) (batch s) rest) [] [] []
  | Seal w =>
      match out s with
      | Some a => mkEffect (write a w st) (mkStrand None (batch s ++ [a]) rest) [] [] []
      | None => idle
      end
  | Scribble g =>
      match out s with
      | Some a => mkEffect (write a g st) (mkStrand (Some a) (batch s) rest) [] [] []
      | None => idle
      end
  | Recycle =>
      match out s with
      | Some a => mkEffect (release a st) (mkStrand None (batch s) rest) [] [] []
      | None => idle
      end
  | Sendmmsg n =>
      mkEffect st (mkStrand (out s) (batch s) rest) [] []
        ((fun a => Wire (contents_of a st)) <$> take n (batch s))
  | Release =>
      match batch s with
      | a :: b => mkEffect (release a st) (mkStrand (out s) b rest) [] [] []
      | [] => idle
      end
  | Fly =>
      match batch s with
      | a :: b => mkEffect st (mkStrand (out s) b rest) [make_pooled_send a] [] []
      | [] => idle
      end
  | Handoff p => mkEffect st (mkStrand (out s) [] rest) [] [mkStrand None (batch s) p] []
  | Receive bs =>
      let '(st1, h) := copy_in bs st in mkEffect st1 (mkStrand (out s) (batch s) rest) [h] [] []
  end.

Definition run_strand (st : store) (s : strand) : effect :=
  match todo s with
  | [] => mkEffect (foldr destroy st (owned s)) (mkStrand None [] []) [] [] []
  | x :: rest => act x st s rest
  end.

Definition step (g : state) (m : move) : state * list event :=
  match m with
  | Start p => (mkState (mem g) (held g) (strands g ++ [mkStrand None [] p]), [])
  | Run k =>
      match strands g !! k with
      | Some s =>
          let e := run_strand (mem g) s in
          (mkState (e_mem e) (held g ++ e_held e) (<[k := e_strand e]> (strands g) ++ e_spawned e), e_seen e)
      | None => (g, [])
      end
  | Read i =>
      match held g !! i with
      | Some (k, a) => (g, [seen k (contents_of a (mem g))])
      | None => (g, [])
      end
  | Done i =>
      match held g !! i with
      | Some h => (mkState (holder_dies h (mem g)) (delete i (held g)) (strands g), [])
      | None => (g, [])
      end
  end.

Fixpoint run (g : state) (ms : list move) : state * list event :=
  match ms with
  | [] => (g, [])
  | m :: ms' => let '(g1, e1) := step g m in let '(g2, e2) := run g1 ms' in (g2, e1 ++ e2)
  end.

End Machine.

(** ** The reference: datagrams as values *)

(** The same handlers with each vector replaced by the bytes it stands for: no
    storage, no pool, nothing shared. [f_out] only says that a vector is being
    encrypted into. *)
Module Flat.

Record strand := mkStrand { f_out : bool; f_batch : list (list Z); f_todo : list action }.

Record state := mkState { f_held : list (holder * list Z); f_strands : list strand }.

Definition init : state := mkState [] [].

Record effect := mkEffect {
  e_strand : strand; e_held : list (holder * list Z); e_spawned : list strand; e_seen : list event }.

Definition act (x : action) (s : strand) (rest : list action) : effect :=
  let idle := mkEffect (mkStrand (f_out s) (f_batch s) rest) [] [] [] in
  match x with
  | Acquire => mkEffect (mkStrand true (f_batch s) rest) [] [] []
  | Seal w => if f_out s then mkEffect (mkStrand false (f_batch s ++ [w]) rest) [] [] [] else idle
  | Scribble _ => idle
  | Recycle => mkEffect (mkStrand false (f_batch s) rest) [] [] []
  | Sendmmsg n => mkEffect (mkStrand (f_out s) (f_batch s) rest) [] [] (Wire <$> take n (f_batch s))
  | Release => mkEffect (mkStrand (f_out s) (tail (f_batch s)) rest) [] [] []
  | Fly =>
      match f_batch s with
      | d :: b => mkEffect (mkStrand (f_out s) b rest) [(Sending, d)] [] []
      | [] => idle
      end
  | Handoff p => mkEffect (mkStrand (f_out s) [] rest) [] [mkStrand false (f_batch s) p] []
  | Receive bs => mkEffect (mkStrand (f_out s) (f_batch s) rest) [(Received, bs)] [] []
  end.

Definition run_strand (s : strand) : effect :=
  match f_todo s with
  | [] => mkEffect (mkStrand false [] []) [] [] []
  | x :: rest => act x s rest
  end.

Definition step (g : state) (m : move) : state * list event :=
  match m with
  | Start p => (mkState (f_held g) (f_strands g ++ [mkStrand false [] p]), [])
  | Run k =>
      match f_strands g !! k with
      | Some s =>
          let e := run_strand s in
          (mkState (f_held g ++ e_held e) (<[k := e_strand e]> (f_strands g) ++ e_spawned e), e_seen e)
      | None => (g, [])
      end
  | Read i => (g, match f_held g !! i with Some (k, bs) => [seen k bs] | None => [] end)
  | Done i => (mkState (delete i (f_held g)) (f_strands g), [])
  end.

Fixpoint run (g : state) (ms : list move) : state * list event :=
  match ms with
  | [] => (g, [])
  | m :: ms' => let '(g1, e1) := step g m in let '(g2, e2) := run g1 ms' in (g2, e1 ++ e2)
  end.

(** A handler run to its return, alone: what it shows, the holders and the
    handlers it creates. *)
Fixpoint alone (p : list action) (o : bool) (b : list (list Z))
  : list event * list (holder * list Z) * list strand :=
  match p with
  | [] => ([], [], [])
  | x :: rest =>
      let e := act x (mkStrand o b p) rest in
      let '(ev, hs, sp) := alone rest (f_out (e_strand e)) (f_batch (e_strand e)) in
      (e_seen e ++ ev, e_held e ++ hs, e_spawned e ++ sp)
  end.

End Flat.
