(* ===== verification/BuffersProofs.v ===== *)
(** * BuffersProofs: pooled storage behaves as values

    Every vector has exactly one owner in every interleaving, so recycling its
    storage never shows: a run over the pool and the run over values produce
    the same bytes, at the kernel and at the sessions. *)

From Stdlib Require Import ZArith Lia.
From stdpp Require Import base list gmap.
From S2P Require Import Prelude Config Runtime Udp Buffers.

(** ** Ownership *)

(** The freelist and [l] own every vector, each of them once, and the pool is
    within its bounds. *)
Record owners (st : store) (l : list Z) : Prop := mkOwners {
  own_once : NoDup (free st ++ l);
  own_all : forall a, is_Some (heap st !! a) <-> a ∈ free st ++ l;
  own_old : forall a, is_Some (heap st !! a) -> a < next st;
  own_count : (length (free st) <= 256)%nat;
  own_size : Forall (fun a => 0 <> capacity_of a st /\ capacity_of a st <= UDP_WIRE_DATAGRAM_MAX) (free st) }.

(** The vectors of [l] are untouched from [st] to [st']. *)
Definition same (l : list Z) (st st' : store) : Prop := Forall (fun a => heap st' !! a = heap st !! a) l.

#[export] Instance owners_perm st : Proper (Permutation ==> iff) (owners st).
Proof.
  intros l l' Hp; split; intros [H1 H2 H3 H4 H5]; split; try done;
    solve [by rewrite <- Hp | by rewrite Hp | intros a; rewrite H2; by rewrite Hp].
Qed.
#[export] Instance same_perm : Proper (Permutation ==> eq ==> eq ==> iff) same.
Proof. intros l l' Hp ? ? -> ? ? ->. unfold same. by rewrite Hp. Qed.

Lemma same_refl l st : same l st st.
Proof. by apply Forall_true. Qed.
Lemma same_trans l st st' st'' : same l st st' -> same l st' st'' -> same l st st''.
Proof. unfold same. rewrite !Forall_forall. intros H1 H2 a Ha. rewrite H2, H1; done. Qed.
Lemma same_app l l' st st' : same (l ++ l') st st' <-> same l st st' /\ same l' st st'.
Proof. apply Forall_app. Qed.
#[export] Hint Resolve same_refl : core.

Lemma fresh_owners st l :
  owners st l -> owners (fresh st).1 ((fresh st).2 :: l) /\ same (free st ++ l) st (fresh st).1.
Proof.
  intros [H1 H2 H3 H4 H5].
  assert (Hn : next st ∉ free st ++ l) by (intros Hi%H2%H3; lia).
  assert (Hs : same (free st ++ l) st (fresh st).1).
  { apply Forall_forall. intros a Ha. simpl. rewrite lookup_insert_ne; [done|]. by intros <-. }
  split; [|done]. apply same_app in Hs as [Hf _]. split; simpl.
  - rewrite <- Permutation_middle. by constructor.
  - intros a. rewrite <- Permutation_middle, elem_of_cons, <- H2, lookup_insert_is_Some.
    destruct (decide (next st = a)); intuition congruence.
  - intros a. rewrite lookup_insert_is_Some. intros [<-|[_ Ha%H3]]; lia.
  - done.
  - unfold capacity_of in *. unfold same in Hf. simpl in *. revert Hf H5. rewrite !Forall_forall.
    intros Hf H5 a Ha. rewrite Hf by done. by apply H5.
Qed.

Lemma acquire_owners st l :
  owners st l -> owners (acquire st).1 ((acquire st).2 :: l) /\ same l st (acquire st).1.
Proof.
  intros Ho. unfold acquire. destruct (free st) as [|a rest] eqn:E.
  - destruct (fresh_owners st l Ho) as [H Hs]. split; [done|]. by apply same_app in Hs as [_ ?].
  - destruct Ho as [H1 H2 H3 H4 H5]. rewrite E in *. split; [|by apply Forall_true]. split; simpl in *.
    + by rewrite <- Permutation_middle.
    + intros b. rewrite H2. by rewrite <- Permutation_middle.
    + done.
    + lia.
    + by inversion H5.
Qed.

Lemma destroy_owners st a l : owners st (a :: l) -> owners (destroy a st) l /\ same l st (destroy a st).
Proof.
  intros [H1 H2 H3 H4 H5]. rewrite <- Permutation_middle in H1. apply NoDup_cons in H1 as [Hn H1].
  assert (Hs : forall b, b ∈ free st ++ l -> heap (destroy a st) !! b = heap st !! b).
  { intros b Hb. simpl. apply lookup_delete_ne. by intros <-. }
  split; [|apply Forall_forall; intros b Hb; apply Hs, elem_of_app; by right].
  split; [done| | |done|]; simpl.
  - intros b. rewrite lookup_delete_is_Some, H2, <- Permutation_middle, elem_of_cons.
    split; [intuition congruence|]. intros Hb. split; [by intros <- | by right].
  - intros b. rewrite lookup_delete_is_Some. intros [_ Hb]. by apply H3.
  - revert H5. rewrite !Forall_forall. intros H5 b Hb. unfold capacity_of in *. rewrite Hs by (apply elem_of_app; by left).
    by apply H5.
Qed.

Lemma destroy_all_owners l : forall st l',
  owners st (l ++ l') -> owners (foldr destroy st l) l' /\ same l' st (foldr destroy st l).
Proof.
  induction l as [|a l IH]; intros st l' Ho; simpl; [by split|].
  destruct (IH st (a :: l')) as [Ho1 Hs1]; [by rewrite <- Permutation_middle|].
  apply Forall_cons in Hs1 as [_ Hs1]. destruct (destroy_owners _ _ _ Ho1) as [Ho2 Hs2].
  split; [done|]. by eapply same_trans.
Qed.

Lemma release_owners st a l : owners st (a :: l) -> owners (release a st) l /\ same l st (release a st).
Proof.
  intros Ho. unfold release. case_bool; [by apply destroy_owners|]. case_bool; [by apply destroy_owners|].
  zb_props. destruct Ho as [H1 H2 H3 H4 H5]. rewrite <- Permutation_middle in H1.
  split; [|by apply Forall_true]. split; simpl; [done| |done|lia|].
  - intros b. rewrite H2. by rewrite <- Permutation_middle.
  - constructor; [|done]. change (capacity_of a (mkStore _ _ _)) with (capacity_of a st). lia.
Qed.

(** ** The pool of [Runtime] *)

(** The store's freelist, as the pool over vectors by value. *)
Definition pool_of (st : store) : BufferPool.t :=
  BufferPool.mk 256 UDP_WIRE_DATAGRAM_MAX (omap (fun a => heap st !! a) (free st)).

Lemma omap_length {A B} (f : A -> option B) l : Forall (fun a => is_Some (f a)) l -> length (omap f l) = length l.
Proof. induction 1 as [|a l [b Hb] H IH]; [done|]. simpl. by rewrite Hb, <- IH. Qed.

Lemma omap_same l st st' :
  same l st st' -> omap (fun a => heap st' !! a) l = omap (fun a => heap st !! a) l.
Proof. induction 1 as [|a l Ha H IH]; [done|]. simpl. rewrite Ha. by destruct (heap st !! a); [f_equal|]; apply IH. Qed.

Lemma free_live st l : owners st l -> Forall (fun a => is_Some (heap st !! a)) (free st).
Proof. intros [_ H2 _ _ _]. apply Forall_forall. intros a Ha. apply H2, elem_of_app. by left. Qed.

Lemma pool_acquire st l :
  owners st l ->
  pool_of (acquire st).1 = (BufferPool.acquire (pool_of st)).1 /\
  heap (acquire st).1 !! (acquire st).2 = Some (BufferPool.acquire (pool_of st)).2.
Proof.
  intros Ho. pose proof (free_live _ _ Ho) as Hf. unfold acquire, pool_of, BufferPool.acquire.
  destruct (free st) as [|a rest] eqn:E; simpl.
  - rewrite E. split; [done | by rewrite lookup_insert_eq].
  - apply Forall_cons in Hf as [[b Hb] _]. by rewrite Hb.
Qed.

Lemma pool_release st a b l :
  owners st (a :: l) -> heap st !! a = Some b -> pool_of (release a st) = BufferPool.release b (pool_of st).
Proof.
  intros Ho Hb. pose proof (omap_length _ _ (free_live _ _ Ho)) as Hl.
  assert (Hd : pool_of (destroy a st) = pool_of st).
  { unfold pool_of. simpl. f_equal. apply (omap_same _ st (destroy a st)). apply Forall_forall. intros c Hc.
    apply lookup_delete_ne. intros ->. destruct Ho as [H1 _ _ _ _]. rewrite <- Permutation_middle in H1.
    apply NoDup_cons in H1 as [H1 _]. apply H1, elem_of_app. by left. }
  unfold release, BufferPool.release, capacity_of. rewrite Hb. simpl.
  case_bool; [done|]. rewrite Hl. case_bool; [done|]. unfold pool_of. simpl. by rewrite Hb.
Qed.

(** ** Contents *)

Section Simulation.
Context (grow : Z -> Z -> Z).

(** The vector [a] holds the bytes [v]. *)
Definition holds (st : store) (a : Z) (v : list Z) : Prop := BufferPool.contents <$> heap st !! a = Some v.

Lemma write_owners st a bs l :
  owners st (a :: l) ->
  owners (write grow a bs st) (a :: l) /\ same l st (write grow a bs st) /\ holds (write grow a bs st) a bs.
Proof.
  intros [H1 H2 H3 H4 H5]. pose proof H1 as Hn. rewrite <- Permutation_middle in Hn.
  apply NoDup_cons in Hn as [Hn _].
  assert (Ha : is_Some (heap st !! a)) by (apply H2; rewrite <- Permutation_middle; by left).
  assert (Hs : forall b, b ∈ free st ++ l -> heap (write grow a bs st) !! b = heap st !! b).
  { intros b Hb. apply lookup_insert_ne. by intros <-. }
  assert (Hd : forall b, is_Some (heap (write grow a bs st) !! b) <-> is_Some (heap st !! b)).
  { intros b. simpl. rewrite lookup_insert_is_Some. destruct (decide (a = b)) as [<-|]; intuition congruence. }
  split; [|split].
  - split; [done|intros b; by rewrite Hd|intros b; rewrite Hd; apply H3|done|].
    revert H5. rewrite !Forall_forall. intros H5 b Hb. unfold capacity_of in *.
    rewrite Hs by (apply elem_of_app; by left). by apply H5.
  - apply Forall_forall. intros b Hb. apply Hs, elem_of_app. by right.
  - unfold holds. simpl. by rewrite lookup_insert_eq.
Qed.

Lemma holds_same st st' l vs : same l st st' -> Forall2 (holds st) l vs -> Forall2 (holds st') l vs.
Proof.
  unfold same. intros Hs Hf. induction Hf as [|a v l vs Hv Hf IH]; [constructor|].
  apply Forall_cons in Hs as [Ha Hs]. constructor; [by unfold holds; rewrite Ha | by apply IH].
Qed.

Lemma holds_contents st a v : holds st a v -> contents_of a st = v.
Proof. unfold holds, contents_of. by intros ->. Qed.

Lemma holds_take st l vs n :
  Forall2 (holds st) l vs -> (fun a => Wire (contents_of a st)) <$> take n l = Wire <$> take n vs.
Proof.
  intros Hf. revert n. induction Hf as [|a v l vs Hv Hf IH]; intros [|n]; [done..|].
  rewrite !firstn_cons, !fmap_cons, IH. by erewrite holds_contents.
Qed.

(** ** Simulation of one handler *)

(** A holder and a handler stand for their counterparts over values. *)
Definition held_rel (st : store) : holder * Z -> holder * list Z -> Prop :=
  fun h v => h.1 = v.1 /\ holds st h.2 v.2.
Record strand_rel (st : store) (s : strand) (v : Flat.strand) : Prop := mkStrandRel {
  sr_out : Flat.f_out v = bool_decide (is_Some (out s));
  sr_batch : Forall2 (holds st) (batch s) (Flat.f_batch v);
  sr_todo : todo s = Flat.f_todo v }.

(** One step of a handler, whatever the others ([l]) own. *)
Definition effect_ok (l : list Z) (st : store) (e : effect) (f : Flat.effect) : Prop :=
  owners (e_mem e) (owned (e_strand e) ++ (e_held e).*2 ++ (e_spawned e ≫= owned) ++ l) /\
  same l st (e_mem e) /\
  strand_rel (e_mem e) (e_strand e) (Flat.e_strand f) /\
  Forall2 (held_rel (e_mem e)) (e_held e) (Flat.e_held f) /\
  Forall2 (strand_rel (e_mem e)) (e_spawned e) (Flat.e_spawned f) /\
  e_seen e = Flat.e_seen f.

Lemma same_holds st st' l b vs :
  same (b ++ l) st st' -> Forall2 (holds st) b vs -> Forall2 (holds st') b vs /\ same l st st'.
Proof. intros [Hb Hl]%same_app Hf. split; [by eapply holds_same | done]. Qed.

Ltac effect := unfold effect_ok, owned in *; split_and!; simpl; [try done | try done | split; simpl; try done | try constructor | try constructor | try done].

Lemma idle_ok l st s v rest :
  owners st (owned s ++ l) -> strand_rel st s v ->
  effect_ok l st (mkEffect st (mkStrand (out s) (batch s) rest) [] [] [])
    (Flat.mkEffect (Flat.mkStrand (Flat.f_out v) (Flat.f_batch v) rest) [] [] []).
Proof. intros Ho [Hv Hb _]. effect. Qed.

Lemma acquire_ok l st s v rest :
  owners st (owned s ++ l) -> strand_rel st s v ->
  effect_ok l st (act grow Acquire st s rest) (Flat.act Acquire v rest).
Proof.
  destruct s as [o b t], v as [fo fb ft]. unfold owned. simpl. intros Ho [_ Hb _]. simpl in *.
  set (st0 := match o with Some a => destroy a st | None => st end).
  assert (H0 : owners st0 (b ++ l) /\ same (b ++ l) st st0).
  { destruct o as [a|]; simpl in *; [by apply destroy_owners | by split]. }
  destruct H0 as [Ho0 Hs0]. destruct (acquire_owners st0 (b ++ l) Ho0) as [Ho1 Hs1].
  destruct (acquire st0) as [st1 a]. simpl in *.
  destruct (same_holds st st1 l b fb) as [Hb1 Hl]; [by eapply same_trans | done |]. effect.
Qed.

Lemma seal_ok l st s v rest w :
  owners st (owned s ++ l) -> strand_rel st s v ->
  effect_ok l st (act grow (Seal w) st s rest) (Flat.act (Seal w) v rest).
Proof.
  destruct s as [[a|] b t], v as [fo fb ft]; intros Ho Hr;
    pose proof (sr_out _ _ _ Hr) as Hv; simpl in Hv; subst fo; [|by apply (idle_ok _ _ _ _ rest Ho Hr)].
  destruct Hr as [_ Hb _]; unfold owned in Ho; simpl in *.
  destruct (write_owners st a w (b ++ l) Ho) as (Ho1 & Hs1 & Hh).
  destruct (same_holds _ _ _ _ _ Hs1 Hb) as [Hb1 Hl]. effect.
  - by rewrite (Permutation_app_comm b [a]).
  - apply Forall2_app; [done|]. by constructor.
Qed.

Lemma scribble_ok l st s v rest g :
  owners st (owned s ++ l) -> strand_rel st s v ->
  effect_ok l st (act grow (Scribble g) st s rest) (Flat.act (Scribble g) v rest).
Proof.
  destruct s as [[a|] b t], v as [fo fb ft]; intros Ho Hr; [|by apply (idle_ok _ _ _ _ rest Ho Hr)].
  destruct Hr as [Hv Hb _]; unfold owned in Ho; simpl in *.
  destruct (write_owners st a g (b ++ l) Ho) as (Ho1 & Hs1 & _).
  destruct (same_holds _ _ _ _ _ Hs1 Hb) as [Hb1 Hl]. effect.
Qed.

Lemma recycle_ok l st s v rest :
  owners st (owned s ++ l) -> strand_rel st s v ->
  effect_ok l st (act grow Recycle st s rest) (Flat.act Recycle v rest).
Proof.
  destruct s as [[a|] b t], v as [fo fb ft]; intros Ho [_ Hb _]; unfold owned in Ho; simpl in *; [|effect].
  destruct (release_owners st a (b ++ l) Ho) as [Ho1 Hs1].
  destruct (same_holds _ _ _ _ _ Hs1 Hb) as [Hb1 Hl]. effect.
Qed.

(** The front of the batch, with the rest of what the handler owns. *)
Lemma owned_front o a b t l : owned (mkStrand o (a :: b) t) ++ l ≡ₚ a :: owned (mkStrand o b t) ++ l.
Proof. unfold owned. simpl. by rewrite <- Permutation_middle. Qed.

Lemma release_ok l st s v rest :
  owners st (owned s ++ l) -> strand_rel st s v ->
  effect_ok l st (act grow Release st s rest) (Flat.act Release v rest).
Proof.
  destruct s as [o [|a b] t], v as [fo fb ft]; intros Ho Hr; simpl.
  { pose proof (sr_batch _ _ _ Hr) as Hb. simpl in Hb. inversion Hb; subst. apply (idle_ok _ _ _ _ rest Ho Hr). }
  destruct Hr as [Hv Hb _]; simpl in *. rewrite owned_front in Ho.
  destruct (release_owners st a _ Ho) as [Ho1 Hs1]. unfold owned in *. simpl in *. rewrite <- app_assoc in *.
  inversion Hb as [|? v0 ? fb0 Ha Hb0]; subst. apply same_app in Hs1 as [_ Hs1].
  destruct (same_holds _ _ _ _ _ Hs1 Hb0) as [Hb1 Hl]. effect. by rewrite <- app_assoc.
Qed.

Lemma fly_ok l st s v rest :
  owners st (owned s ++ l) -> strand_rel st s v ->
  effect_ok l st (act grow Fly st s rest) (Flat.act Fly v rest).
Proof.
  destruct s as [o [|a b] t], v as [fo fb ft]; intros Ho Hr; simpl.
  { pose proof (sr_batch _ _ _ Hr) as Hb. simpl in Hb. inversion Hb; subst. apply (idle_ok _ _ _ _ rest Ho Hr). }
  destruct Hr as [Hv Hb _]; simpl in *. rewrite owned_front in Ho.
  inversion Hb as [|? v0 ? fb0 Ha Hb0]; subst. effect; [|by split|constructor].
  by rewrite <- Permutation_middle.
Qed.

Lemma handoff_ok l st s v rest p :
  owners st (owned s ++ l) -> strand_rel st s v ->
  effect_ok l st (act grow (Handoff p) st s rest) (Flat.act (Handoff p) v rest).
Proof.
  destruct s as [o b t], v as [fo fb ft]; intros Ho [Hv Hb _]; simpl in *. effect; [|by split|constructor].
  by rewrite !app_nil_r, app_assoc.
Qed.

Lemma receive_ok l st s v rest bs :
  owners st (owned s ++ l) -> strand_rel st s v ->
  effect_ok l st (act grow (Receive bs) st s rest) (Flat.act (Receive bs) v rest).
Proof.
  destruct s as [o b t], v as [fo fb ft]; intros Ho [Hv Hb _]; simpl in *.
  destruct (fresh_owners st _ Ho) as [Ho1 Hs1]. simpl in *.
  destruct (write_owners _ _ bs _ Ho1) as (Ho2 & Hs2 & Hh). apply same_app in Hs1 as [_ Hs1].
  pose proof (same_trans _ _ _ _ Hs1 Hs2) as Hs. unfold owned in Hs. simpl in Hs. rewrite <- app_assoc in Hs.
  apply same_app in Hs as [_ Hs]. destruct (same_holds _ _ _ _ _ Hs Hb) as [Hb1 Hl].
  effect; [|by split|constructor]. by rewrite <- Permutation_middle.
Qed.

Lemma act_ok l st x s v rest :
  owners st (owned s ++ l) -> strand_rel st s v -> effect_ok l st (act grow x st s rest) (Flat.act x v rest).
Proof.
  destruct x; intros Ho Hr;
    eauto using acquire_ok, seal_ok, scribble_ok, recycle_ok, release_ok, fly_ok, handoff_ok, receive_ok.
  destruct (idle_ok _ _ _ _ rest Ho Hr) as (H1 & H2 & H3 & H4 & H5 & _). split_and!; try done.
  simpl. apply holds_take, Hr.
Qed.

Lemma run_strand_ok l st s v :
  owners st (owned s ++ l) -> strand_rel st s v -> effect_ok l st (run_strand grow st s) (Flat.run_strand v).
Proof.
  intros Ho Hr. unfold run_strand, Flat.run_strand. rewrite <- (sr_todo _ _ _ Hr).
  destruct (todo s) as [|x rest]; [|by apply act_ok]. destruct (destroy_all_owners _ _ _ Ho) as [Ho1 Hs1]. effect.
Qed.

(** ** Simulation of a run *)

Record sim (g : state) (f : Flat.state) : Prop := mkSim {
  sim_owners : owners (mem g) ((held g).*2 ++ (strands g ≫= owned));
  sim_held : Forall2 (held_rel (mem g)) (held g) (Flat.f_held f);
  sim_strands : Forall2 (strand_rel (mem g)) (strands g) (Flat.f_strands f) }.

Lemma held_same st st' hs vs :
  same hs.*2 st st' -> Forall2 (held_rel st) hs vs -> Forall2 (held_rel st') hs vs.
Proof.
  intros Hs Hf. induction Hf as [|h v hs vs [Hk Hh] Hf IH]; [constructor|].
  apply Forall_cons in Hs as [Ha Hs]. constructor; [|by apply IH]. split; [done|]. unfold holds. by rewrite Ha.
Qed.

Lemma strands_same st st' ss vs :
  same (ss ≫= owned) st st' -> Forall2 (strand_rel st) ss vs -> Forall2 (strand_rel st') ss vs.
Proof.
  intros Hs Hf. induction Hf as [|s v ss vs [H1 H2 H3] Hf IH]; [constructor|].
  rewrite bind_cons in Hs. apply same_app in Hs as [Ha Hs]. apply same_app in Ha as [_ Ha].
  constructor; [|by apply IH]. split; [done | by eapply holds_same | done].
Qed.

Lemma insert_at {A} (l1 l2 : list A) x y : <[length l1 := y]> (l1 ++ x :: l2) = l1 ++ y :: l2.
Proof. induction l1 as [|z l1 IH]; [done|]. simpl. by f_equal. Qed.

Lemma sim_start g f p : sim g f -> sim (step grow g (Start p)).1 (Flat.step f (Start p)).1.
Proof.
  intros [Ho Hh Hs]. split; simpl; [|done|].
  - rewrite bind_app. simpl. by rewrite app_nil_r.
  - apply Forall2_app; [done|]. constructor; [by split|constructor].
Qed.

Lemma sim_done g f i : sim g f -> sim (step grow g (Done i)).1 (Flat.step f (Done i)).1.
Proof.
  intros [Ho Hh Hs]. simpl. destruct (held g !! i) as [[k a]|] eqn:E; simpl.
  - pose proof (delete_Permutation _ _ _ E) as Hp. rewrite Hp in Ho. simpl in Ho.
    destruct (release_owners _ _ _ Ho) as [Ho1 [Hs1 Hs2]%same_app].
    split; simpl; [done | | by eapply strands_same]. apply (held_same (mem g)); [done|]. by apply Forall2_delete.
  - apply lookup_ge_None in E. rewrite (Forall2_length _ _ _ Hh) in E.
    rewrite delete_take_drop, take_ge, drop_ge, app_nil_r by lia. by split.
Qed.

Lemma sim_run g f k :
  sim g f ->
  sim (step grow g (Run k)).1 (Flat.step f (Run k)).1 /\ (step grow g (Run k)).2 = (Flat.step f (Run k)).2.
Proof.
  intros [Ho Hh Hs]. simpl. destruct (strands g !! k) as [s|] eqn:E.
  - apply list_elem_of_split_length in E as (l1 & l2 & El & ->). rewrite El in *.
    apply Forall2_app_inv_l in Hs as (v1 & vr & H1 & Hr & ->). inversion Hr as [|? v ? v2 Hv H2]; subst.
    rewrite (Forall2_length _ _ _ H1), list_lookup_middle by done.
    set (l := (held g).*2 ++ (l1 ≫= owned) ++ (l2 ≫= owned)).
    assert (Hp : owners (mem g) (owned s ++ l)).
    { revert Ho. apply owners_perm. rewrite bind_app, bind_cons. unfold l. solve_Permutation. }
    destruct (run_strand_ok _ _ _ _ Hp Hv) as (Ho1 & Hsm & Hv1 & Hh1 & Hsp & He).
    apply same_app in Hsm as [Hsm0 [Hsm1 Hsm2]%same_app].
    rewrite insert_at, <- (Forall2_length _ _ _ H1), insert_at. split; [|done].
    split; simpl.
    + revert Ho1. apply owners_perm. unfold l. rewrite fmap_app, !bind_app, bind_cons. solve_Permutation.
    + apply Forall2_app; [by eapply held_same | done].
    + repeat apply Forall2_app || apply Forall2_cons_2; try done; by eapply strands_same.
  - assert (Flat.f_strands f !! k = None) as ->; [|done].
    apply lookup_ge_None. rewrite <- (Forall2_length _ _ _ Hs). by apply lookup_ge_None.
Qed.

Lemma sim_step g f m :
  sim g f -> sim (step grow g m).1 (Flat.step f m).1 /\ (step grow g m).2 = (Flat.step f m).2.
Proof.
  intros H. destruct m as [p|k|i|i].
  - split; [by apply sim_start | done].
  - by apply sim_run.
  - simpl. destruct (held g !! i) as [[k a]|] eqn:E; simpl.
    + destruct (Forall2_lookup_l _ _ _ _ _ (sim_held _ _ H) E) as ([k' bs] & -> & Hk & Hb). simpl in *. subst k'. split; [done|].
      by erewrite holds_contents.
    + split; [done|]. assert (Flat.f_held f !! i = None) as ->; [|done].
      apply lookup_ge_None. rewrite <- (Forall2_length _ _ _ (sim_held _ _ H)). by apply lookup_ge_None.
  - split; [by apply sim_done|]. simpl. by case_match.
Qed.

Lemma sim_runs ms : forall g f,
  sim g f -> sim (run grow g ms).1 (Flat.run f ms).1 /\ (run grow g ms).2 = (Flat.run f ms).2.
Proof.
  induction ms as [|m ms IH]; intros g f H; [done|].
  destruct (sim_step g f m H) as [H1 He]. destruct (IH _ _ H1) as [H2 He2].
  simpl. destruct (step grow g m), (Flat.step f m). simpl in *.
  destruct (run grow _ ms), (Flat.run _ ms). simpl in *. by subst.
Qed.

Lemma sim_init : sim init Flat.init.
Proof.
  split; [|constructor..]. split; simpl; [constructor| | |lia|constructor].
  - intros a. rewrite lookup_empty. split; [by intros [? ?] | by intros ?%elem_of_nil].
  - intros a [? Ha]. by rewrite lookup_empty in Ha.
Qed.

End Simulation.

(** ** The output paths, over values *)

Lemma triple_eta {A B C} (t : A * B * C) : (let '(x, y, z) := t in (x, y, z)) = t.
Proof. by destruct t as [[? ?] ?]. Qed.

Lemma alone_seal ws : forall kept q o b,
  Flat.alone ((encrypt_batch kept (Sealed <$> ws)).1 ++ q) o b =
    Flat.alone q (match ws with [] => o | _ => false end) (b ++ ws) /\
  (encrypt_batch kept (Sealed <$> ws)).2 = true.
Proof.
  induction ws as [|w ws IH]; intros kept q o b; [by rewrite app_nil_r|].
  rewrite fmap_cons. cbn [encrypt_batch]. destruct (IH (S kept) q false (b ++ [w])) as [H1 H2].
  destruct (encrypt_batch (S kept) (Sealed <$> ws)) as [acts ok]. simpl in *. split; [|done].
  rewrite H1, <- app_assoc, !triple_eta. by destruct ws.
Qed.

Lemma alone_release n : forall q o b,
  Flat.alone (replicate n Release ++ q) o b = Flat.alone q o (drop n b).
Proof.
  induction n as [|n IH]; intros q o b; [done|]. simpl. rewrite IH.
  assert (drop n (tail b) = drop (S n) b) as -> by (by destruct b; [apply drop_nil|]).
  by rewrite triple_eta.
Qed.

Lemma alone_fly b : forall o, Flat.alone (replicate (length b) Fly) o b = ([], (Sending,.) <$> b, []).
Proof. induction b as [|d b IH]; intros o; [done|]. simpl. by rewrite IH. Qed.

Lemma alone_chunks answers : forall o b,
  BatchSend.honest answers (length b) ->
  Flat.alone (send_chunks (fun left => replicate left Fly) answers (length b)) o b =
    (Wire <$> take (BatchSend.send_loop answers b) b, (Sending,.) <$> drop (BatchSend.send_loop answers b) b, []).
Proof.
  induction answers as [|[k| |] answers IH]; intros o [|d b] Hh; try done; try by apply (alone_fly (d :: b)).
  destruct Hh as [Hk Hh]. cbn [send_chunks BatchSend.send_loop].
  cbn [length] in *. cbn [Flat.alone Flat.act Flat.e_seen Flat.e_strand Flat.f_out Flat.f_batch Flat.e_held Flat.e_spawned].
  rewrite alone_release. pose proof (length_drop (d :: b) k) as Hl. cbn [length] in Hl.
  destruct (k <? _)%nat eqn:E.
  - rewrite <- Hl, alone_fly. cbn. by rewrite app_nil_r.
  - rewrite <- Hl in *. rewrite IH by done. cbn [fst snd app]. rewrite <- fmap_app.
    by rewrite take_take_drop, drop_drop.
Qed.

Lemma encrypt_batch_app ws : forall kept rs,
  encrypt_batch kept ((Sealed <$> ws) ++ rs) =
    ((encrypt_batch kept (Sealed <$> ws)).1 ++ (encrypt_batch (length ws + kept) rs).1,
     (encrypt_batch (length ws + kept) rs).2).
Proof.
  induction ws as [|w ws IH]; intros kept rs; [simpl; by destruct (encrypt_batch kept rs)|].
  rewrite fmap_cons. simpl ((_ :: _) ++ _). cbn [encrypt_batch]. rewrite IH. rewrite Nat.add_succ_r.
  by destruct (encrypt_batch (S kept) (Sealed <$> ws)).
Qed.

(** A burst with a refused datagram is over once its buffers are back in the
    pool. *)
Lemma alone_refused ws g rs o b :
  Flat.alone (encrypt_batch 0 ((Sealed <$> ws) ++ Refused g :: rs)).1 o b = ([], [], []).
Proof.
  rewrite encrypt_batch_app. cbn [fst]. destruct (alone_seal ws 0 (encrypt_batch (length ws + 0) (Refused g :: rs)).1 o b)
    as [-> _]. simpl. rewrite <- (app_nil_r (replicate _ _)). by rewrite alone_release.
Qed.

(** The datagrams of [ds] whose [start_async_send] finds the session alive. *)
Definition admitted (alive : nat -> bool) (ds : list (list Z)) : list (list Z) :=
  omap (fun '(i, d) => if alive i : bool then Some d else None) (zip (seq 0 (length ds)) ds).

Lemma admitted_all alive ds : (forall i, alive i = true) -> admitted alive ds = ds.
Proof.
  intros H. unfold admitted. generalize 0%nat. induction ds as [|d ds IH]; intros i; [done|].
  simpl. rewrite H. f_equal. apply IH.
Qed.

Lemma alone_async alive ds o :
  Flat.alone (start_async_send ∘ alive <$> seq 0 (length ds)) o ds = ([], (Sending,.) <$> admitted alive ds, []).
Proof.
  unfold admitted. generalize 0%nat. induction ds as [|d ds IH]; intros i; [done|].
  simpl. destruct (alive i); simpl; rewrite IH; done.
Qed.

Lemma alone_client_chunks alive answers : forall o b,
  BatchSend.honest answers (length b) ->
  Flat.alone (send_chunks (fun left => start_async_send ∘ alive <$> seq 0 left) answers (length b)) o b =
    (Wire <$> take (BatchSend.send_loop answers b) b,
     (Sending,.) <$> admitted alive (drop (BatchSend.send_loop answers b) b), []).
Proof.
  induction answers as [|[k| |] answers IH]; intros o [|d b] Hh; try done; try by apply (alone_async alive (d :: b)).
  destruct Hh as [Hk Hh]. cbn [send_chunks BatchSend.send_loop].
  cbn [length] in *. cbn [Flat.alone Flat.act Flat.e_seen Flat.e_strand Flat.f_out Flat.f_batch Flat.e_held Flat.e_spawned].
  rewrite alone_release. pose proof (length_drop (d :: b) k) as Hl. cbn [length] in Hl.
  destruct (k <? _)%nat eqn:E.
  - rewrite <- Hl, alone_async. cbn. by rewrite app_nil_r.
  - rewrite <- Hl in *. rewrite IH by done. cbn [fst snd app]. rewrite <- fmap_app.
    by rewrite take_take_drop, drop_drop.
Qed.

(** How the client's burst splits: what the kernel reads at once, and what is
    left to the asynchronous sends; all of it when the socket is not open. *)
Definition client_split (is_open : bool) (answers : list BatchSend.sys_result) (ws : list (list Z))
  : list (list Z) * list (list Z) :=
  if is_open then BatchSend.send_batch true answers ws else ([], ws).

Lemma alone_client active still is_open alive answers ws (on := active && still) :
  BatchSend.honest answers (length ws) ->
  Flat.alone (client_output_batch active still is_open alive (Sealed <$> ws) answers) false [] =
    (if on then Wire <$> (client_split is_open answers ws).1 else [],
     if on then (Sending,.) <$> admitted alive (client_split is_open answers ws).2 else [], []).
Proof.
  intros Hh. unfold on, client_output_batch. destruct active; [|done]. cbn [negb andb].
  destruct (alone_seal ws 0 (send_batch_wire still is_open alive answers (length ws)) false []) as [H1 H2].
  destruct (encrypt_batch 0 (Sealed <$> ws)) as [acts ok]. cbn [fst snd] in *. subst ok. rewrite length_fmap, H1.
  unfold send_batch_wire, client_split. destruct still; cbn [negb].
  2:{ rewrite <- (app_nil_r (replicate _ _)). by rewrite alone_release. }
  destruct is_open; cbn [fst snd]; [|rewrite andb_false_r; apply (alone_async alive ws)].
  destruct ws as [|d1 [|d2 ws]]; [done | apply (alone_async alive [d1])|].
  apply (alone_client_chunks alive answers false (d1 :: d2 :: ws) Hh).
Qed.

Lemma alone_server open answers ws :
  BatchSend.honest answers (length ws) -> ws <> [] ->
  exists p, server_output_batch true (Sealed <$> ws) open answers = (encrypt_batch 0 (Sealed <$> ws)).1 ++ [Handoff p] /\
  Flat.alone (server_output_batch true (Sealed <$> ws) open answers) false [] = ([], [], [Flat.mkStrand false ws p]) /\
  Flat.alone p false ws =
    (Wire <$> (BatchSend.send_batch open answers ws).1, (Sending,.) <$> (BatchSend.send_batch open answers ws).2, []).
Proof.
  intros Hh Hne. unfold server_output_batch. cbn [negb].
  destruct (alone_seal ws 0 (send_batch_to_client (length ws) open answers) false []) as [H1 H2].
  destruct (encrypt_batch 0 (Sealed <$> ws)) as [acts ok]. cbn [fst snd] in *. subst ok. rewrite length_fmap, H1.
  destruct ws as [|d1 [|d2 ws]]; [done| |]; (eexists; split; [done|]; split; [done|]); destruct open; try done.
  apply (alone_chunks answers false (d1 :: d2 :: ws) Hh).
Qed.

(** ** Handlers run without interruption *)

Lemma act_todo x s rest : Flat.f_todo (Flat.e_strand (Flat.act x s rest)) = rest.
Proof. destruct x; simpl; repeat case_match; done. Qed.

Lemma flat_runs p : forall f k o b,
  Flat.f_strands f !! k = Some (Flat.mkStrand o b p) ->
  Flat.run f (replicate (S (length p)) (Run k)) =
    (let '(ev, hs, sp) := Flat.alone p o b in
     (Flat.mkState (Flat.f_held f ++ hs) (<[k := Flat.mkStrand false [] []]> (Flat.f_strands f) ++ sp), ev)).
Proof.
  induction p as [|x p IH]; intros f k o b Hk.
  { cbn. by rewrite Hk. }
  change (replicate (S (length (x :: p))) (Run k)) with (Run k :: replicate (S (length p)) (Run k)).
  cbn [Flat.run Flat.step]. rewrite Hk.
  unfold Flat.run_strand. cbn [Flat.f_todo Flat.alone].
  set (e := Flat.act x (Flat.mkStrand o b (x :: p)) p).
  assert (Hlt : (k < length (Flat.f_strands f))%nat) by (by eapply lookup_lt_Some).
  erewrite (IH _ k (Flat.f_out (Flat.e_strand e)) (Flat.f_batch (Flat.e_strand e))).
  - destruct (Flat.alone p _ _) as [[ev hs] sp]. cbn.
    rewrite <- app_assoc, insert_app_l by (by rewrite length_insert).
    by rewrite list_insert_insert_eq, <- app_assoc.
  - cbn. rewrite lookup_app_l by (by rewrite length_insert). rewrite list_lookup_insert_eq by done.
    f_equal. pose proof (act_todo x (Flat.mkStrand o b (x :: p)) p) as Ht. fold e in Ht.
    destruct (Flat.e_strand e). simpl in *. by subst.
Qed.

Lemma flat_run_app ms1 : forall ms2 f,
  Flat.run f (ms1 ++ ms2) =
    (let '(f1, e1) := Flat.run f ms1 in let '(f2, e2) := Flat.run f1 ms2 in (f2, e1 ++ e2)).
Proof.
  induction ms1 as [|m ms1 IH]; intros ms2 f; [cbn; by destruct (Flat.run f ms2)|]. cbn.
  destruct (Flat.step f m) as [f1 e1]. rewrite IH. destruct (Flat.run f1 ms1) as [f2 e2].
  destruct (Flat.run f2 ms2) as [f3 e3]. by rewrite app_assoc.
Qed.

(** The moves that start a handler in a state with [k] others and run it to
    its return. *)
Definition whole (k : nat) (p : list action) : list move := Start p :: replicate (S (length p)) (Run k).

Lemma flat_whole f p :
  Flat.run f (whole (length (Flat.f_strands f)) p) =
    (let '(ev, hs, sp) := Flat.alone p false [] in
     (Flat.mkState (Flat.f_held f ++ hs) (Flat.f_strands f ++ [Flat.mkStrand false [] []] ++ sp), ev)).
Proof.
  unfold whole. cbn [Flat.run Flat.step].
  rewrite (flat_runs p _ _ false []) by (cbn; by rewrite list_lookup_middle).
  destruct (Flat.alone p false []) as [[ev hs] sp]. cbn. by rewrite insert_at, <- app_assoc.
Qed.

(** What the holders of [g] would show. *)
Definition outstanding (g : state) : list (holder * list Z) :=
  (fun h => (h.1, contents_of h.2 (mem g))) <$> held g.

Lemma sim_outstanding g f : sim g f -> outstanding g = Flat.f_held f.
Proof.
  intros [_ Hh _]. unfold outstanding. induction Hh as [|[k a] [k' v] hs vs [Hk Hv] Hh IH]; [done|].
  rewrite fmap_cons, IH. simpl in *. subst. by erewrite holds_contents.
Qed.

Lemma sim_length g f : sim g f -> length (strands g) = length (Flat.f_strands f).
Proof. intros [_ _ Hs]. by eapply Forall2_length. Qed.

Lemma sim_reach grow ms : sim (run grow init ms).1 (Flat.run Flat.init ms).1.
Proof. apply sim_runs, sim_init. Qed.

(** C8: recycling the datagram buffers never shows. For every interleaving of
    handlers, kernel reads, completions and deliveries, whatever the growth
    policy of the vectors: the bytes the kernel reads and the bytes the
    sessions are handed are those of the machine in which every datagram is a
    value of its own, and so are the bytes of every send and delivery still
    outstanding; every live vector has exactly one owner (the freelist, a
    send or delivery, a handler), so none is leaked, recycled twice or
    recycled while an operation still needs it; and the freelist is within its
    bounds. *)
Theorem pooling_is_invisible (grow : Z -> Z -> Z) (ms : list move) :
  let '(g, shown) := run grow init ms in
  let '(f, values) := Flat.run Flat.init ms in
  shown = values /\
  outstanding g = Flat.f_held f /\
  NoDup (free (mem g) ++ (held g).*2 ++ (strands g ≫= owned)) /\
  (forall a, is_Some (heap (mem g) !! a) <-> a ∈ free (mem g) ++ (held g).*2 ++ (strands g ≫= owned)) /\
  (length (free (mem g)) <= 256)%nat /\
  Forall (fun a => 0 <> capacity_of a (mem g) /\ capacity_of a (mem g) <= UDP_WIRE_DATAGRAM_MAX) (free (mem g)).
Proof.
  destruct (sim_runs grow ms _ _ sim_init) as [H He].
  destruct (run grow init ms) as [g shown], (Flat.run Flat.init ms) as [f values]. simpl in *.
  destruct (sim_owners _ _ H) as [H1 H2 _ H4 H5]. split_and!; try done. by apply sim_outstanding.
Qed.

(** From [g], [r] shows [ev], leaves the holders [hs] in addition, and every
    handler it started has returned and owns nothing. *)
Definition leaves (g : state) (r : state * list event) (ev : list event) (hs : list (holder * list Z)) : Prop :=
  r.2 = ev /\ outstanding r.1 = outstanding g ++ hs /\
  Forall (fun s => owned s = [] /\ todo s = []) (drop (length (strands g)) (strands r.1)).

Lemma leaves_flat grow g f ms ev hs n :
  sim g f ->
  Flat.run f ms =
    (Flat.mkState (Flat.f_held f ++ hs) (Flat.f_strands f ++ replicate n (Flat.mkStrand false [] [])), ev) ->
  leaves g (run grow g ms) ev hs.
Proof.
  intros H Hf. destruct (sim_runs grow ms _ _ H) as [H' He]. rewrite Hf in *. cbn [fst snd] in *.
  split; [done|]. split; [by rewrite (sim_outstanding _ _ H'), (sim_outstanding _ _ H)|].
  rewrite (sim_length _ _ H). pose proof (Forall2_drop _ _ _ (length (Flat.f_strands f)) (sim_strands _ _ H')) as Hd.
  cbn in Hd. rewrite drop_app_length in Hd. revert Hd. generalize (drop (length (Flat.f_strands f)) (strands (run grow g ms).1)).
  clear. intros l. remember (replicate n _) as vs eqn:E. intros Hd. revert n E.
  induction Hd as [|s v l vs [H1 H2 H3] Hd IH]; intros [|n] [=]; [constructor|]. subst. simpl in *.
  constructor; [|by eapply IH]. inversion H2 as [Hb|]. unfold owned. rewrite <- Hb. by destruct (out s).
Qed.

Lemma leaves_whole grow g f p ev hs :
  sim g f -> Flat.alone p false [] = (ev, hs, []) -> leaves g (run grow g (whole (length (strands g)) p)) ev hs.
Proof.
  intros H Ha. apply (leaves_flat grow g f _ ev hs 1 H). rewrite (sim_length _ _ H), flat_whole, Ha. done.
Qed.

Lemma leaves_server grow g f active open answers ws (on := active && open) :
  sim g f -> BatchSend.honest answers (length ws) ->
  exists n, leaves g
    (run grow g (whole (length (strands g)) (server_output_batch active (Sealed <$> ws) open answers) ++
                 replicate n (Run (S (length (strands g))))))
    (if on then Wire <$> (BatchSend.send_batch true answers ws).1 else [])
    (if on then (Sending,.) <$> (BatchSend.send_batch true answers ws).2 else []).
Proof.
  intros H Hh. unfold on. destruct active.
  2:{ exists 0%nat. rewrite app_nil_r. by apply (leaves_whole grow g f). }
  destruct (decide (ws = [])) as [->|Hne].
  { exists 0%nat. rewrite app_nil_r. apply (leaves_whole grow g f); [done|]. by destruct open. }
  destruct (alone_server open answers ws Hh Hne) as (p & _ & H1 & H2). exists (S (length p)).
  apply (leaves_flat grow g f _ _ _ 2 H). rewrite (sim_length _ _ H), flat_run_app, flat_whole, H1.
  rewrite (flat_runs p _ _ false ws), H2.
  - cbn [Flat.f_strands Flat.f_held app]. rewrite app_nil_r.
    replace (S (length (Flat.f_strands f))) with (length (Flat.f_strands f ++ [Flat.mkStrand false [] []]))
      by (rewrite length_app; simpl; lia).
    change [Flat.mkStrand false [] []; Flat.mkStrand false ws p] with ([Flat.mkStrand false [] []] ++ [Flat.mkStrand false ws p]).
    rewrite !app_assoc, insert_at, <- !app_assoc. by destruct open.
  - cbn. rewrite lookup_app_r by lia. by replace (S _ - _)%nat with 1%nat by lia.
Qed.

(** C9: a burst leaves through pooled buffers at most once, and exactly once
    while its session and socket are there. After any interleaving, a burst
    is encrypted whole by a handler that then runs without interruption. On
    the client, if the session is active before and after the encryption, the
    kernel reads the datagrams it accepts, in order, and the rest, in order,
    is left with asynchronous sends that hold its bytes, all of it if each of
    them finds the session alive, and else exactly the datagrams that do;
    together, the burst. On the server the same holds if the session is active
    and the dispatched handler finds the socket open. When one of these guards
    fails, nothing is shown and nothing is left: the burst is dropped whole. A
    burst with a refused datagram shows and leaves nothing, whatever the
    guards. Every handler returns owning nothing. *)
Theorem burst_leaves_once (grow : Z -> Z -> Z) (ms : list move) (ws : list (list Z))
    (answers : list BatchSend.sys_result) (active still is_open : bool) (alive : nat -> bool) :
  BatchSend.honest answers (length ws) ->
  let g := (run grow init ms).1 in
  let k := length (strands g) in
  (let '(taken, rest) := client_split is_open answers ws in
   taken ++ rest = ws /\
   leaves g (run grow g (whole k (client_output_batch active still is_open alive (Sealed <$> ws) answers)))
     (if active && still then Wire <$> taken else [])
     (if active && still then (Sending,.) <$> admitted alive rest else []) /\
   ((forall i, alive i = true) -> admitted alive rest = rest)) /\
  (let '(taken, rest) := BatchSend.send_batch true answers ws in
   taken ++ rest = ws /\
   exists n, leaves g
     (run grow g (whole k (server_output_batch active (Sealed <$> ws) is_open answers) ++ replicate n (Run (S k))))
     (if active && is_open then Wire <$> taken else [])
     (if active && is_open then (Sending,.) <$> rest else [])) /\
  (forall left rs, leaves g (run grow g (whole k (client_output_batch active still is_open alive
     ((Sealed <$> ws) ++ Refused left :: rs) answers))) [] []) /\
  (forall left rs, leaves g (run grow g (whole k (server_output_batch active
     ((Sealed <$> ws) ++ Refused left :: rs) is_open answers))) [] []).
Proof.
  intros Hh g k. pose proof (sim_reach grow ms) as H. fold g in H.
  pose proof (alone_client active still is_open alive answers ws Hh) as Hc.
  pose proof (leaves_server grow g _ active is_open answers ws H Hh) as Hs.
  destruct (BatchSend.batch_sent_exactly_once answers ws Hh) as [Hsplit _].
  assert (Hcs : (client_split is_open answers ws).1 ++ (client_split is_open answers ws).2 = ws)
    by (unfold client_split; by destruct is_open).
  split; [|split].
  - destruct (client_split is_open answers ws) as [taken rest]. cbn [fst snd] in *.
    split; [done|]. split; [by apply (leaves_whole grow g _ _ _ _ H) | apply admitted_all].
  - by destruct (BatchSend.send_batch true answers ws) as [taken rest].
  - split; intros left rs; apply (leaves_whole grow g _ _ _ _ H); pose proof (alone_refused ws left rs false []) as Hr;
      unfold client_output_batch, server_output_batch; (destruct active; [|done]); cbn [negb];
      rewrite encrypt_batch_app in *; done.
Qed.

Lemma burst_leaves_once_witness :
  let g := (run (fun _ n => n) init [Start (receive_data [7; 7]); Run 0]).1 in
  leaves g (run (fun _ n => n) g (whole (length (strands g)) (client_output_batch true true true (fun i => (i =? 1)%nat)
    (Sealed <$> [[1]; [2; 2]; [3]]) [BatchSend.Sent 1]))) (Wire <$> [[1]]) ((Sending,.) <$> [[3]]).
Proof.
  assert (Hh : BatchSend.honest [BatchSend.Sent 1] (length [[1]; [2; 2]; [3]])) by (vm_compute; lia).
  destruct (burst_leaves_once (fun _ n => n) [Start (receive_data [7; 7]); Run 0] [[1]; [2; 2]; [3]]
    [BatchSend.Sent 1] true true true (fun i => (i =? 1)%nat) Hh) as ((_ & H & _) & _).
  exact H.
Defined.
