(* ===== verification/Crypto.v ===== *)
(** * Crypto: session keys, nonces, the replay window and the packet codec

    Models [crypto.hpp] and [crypto.cpp], class [Crypto]. HKDF-SHA256 and
    AES-128-GCM are OpenSSL's: they are the operations of the class [Aead],
    with the laws of an authenticated cipher in [AeadLaws]. Every OpenSSL
    call the source checks can also fail; [evp_fault] names which one does on
    a given call, so that each error path is a value of the model. *)

From Stdlib Require Import ZArith Lia.
From stdpp Require Import base list gmap strings numbers.
From S2P Require Import Prelude Config.

(** ** The cipher library *)

Class Aead := {
  (** HKDF-SHA256 of [ikm], [salt] and [info], 16 bytes of output. *)
  hkdf : list Z -> list Z -> list Z -> list Z;
  (** [gcm_seal key nonce plaintext]: ciphertext and tag. *)
  gcm_seal : list Z -> list Z -> list Z -> list Z * list Z;
  (** [gcm_open key nonce ciphertext tag]: the plaintext if the tag verifies. *)
  gcm_open : list Z -> list Z -> list Z -> list Z -> option (list Z)
}.

Class AeadLaws (A : Aead) : Prop := {
  gcm_open_seal key nonce pt :
    gcm_open key nonce (gcm_seal key nonce pt).1 (gcm_seal key nonce pt).2 = Some pt;
  gcm_seal_length key nonce pt : length (gcm_seal key nonce pt).1 = length pt;
  gcm_tag_length key nonce pt : length (gcm_seal key nonce pt).2 = TAG_SIZE
}.

(** Which OpenSSL call (or allocation) fails during one operation. *)
Inductive evp_fault : Type :=
| no_fault
| fault_hkdf_ctx_enc | fault_hkdf_enc    (* the two [hkdf_sha256] calls: no *)
| fault_hkdf_ctx_dec | fault_hkdf_dec    (* context, or a later step *)
| fault_ctx_enc | fault_ctx_dec          (* key schedule of either context *)
| fault_reset | fault_iv                 (* per-packet re-initialisation *)
| fault_tag                              (* GCM_SET_TAG / GCM_GET_TAG *)
| fault_alloc                            (* [out.resize] throws *)
| fault_update                           (* EVP_*Update *)
| fault_final.                           (* EVP_EncryptFinal_ex *)

#[export] Instance evp_fault_eq_dec : EqDecision evp_fault.
Proof. solve_decision. Defined.

(** How one HKDF call ends: it works, there is no context, a step fails. *)
Inductive hkdf_fault : Type := hkdf_works | hkdf_no_ctx | hkdf_step_fails.
#[export] Instance hkdf_fault_eq_dec : EqDecision hkdf_fault.
Proof. solve_decision. Defined.

Definition enc_hkdf (f : evp_fault) : hkdf_fault :=
  match f with fault_hkdf_ctx_enc => hkdf_no_ctx | fault_hkdf_enc => hkdf_step_fails | _ => hkdf_works end.
Definition dec_hkdf (f : evp_fault) : hkdf_fault :=
  match f with fault_hkdf_ctx_dec => hkdf_no_ctx | fault_hkdf_dec => hkdf_step_fails | _ => hkdf_works end.

(** [generate_session_salt]; [random] is what [RAND_bytes] gave. *)
Definition generate_session_salt (random : option (list Z)) : exn_result (list Z) :=
  match random with
  | None => Throw (bytes_of_string "failed to generate session salt (RAND_bytes)")
  | Some salt => Ret salt
  end.

(** ** State *)

(** The members of [class Crypto]. [encrypt_ctx]/[decrypt_ctx] are the key
    schedules held by the two EVP contexts; [replay_window] is the bitset as
    an integer. *)
Record t := mk {
  encrypt_key : list Z;
  decrypt_key : list Z;
  local_direction : Z;
  peer_direction : Z;
  server_mode : bool;
  key : list Z;
  encrypt_counter : Z;
  highest_received : Z;
  replay_window : Z;
  any_received : bool;
  session_salt : list Z;
  salt_set : bool;
  encrypt_ctx : option (list Z);
  decrypt_ctx : option (list Z) }.

Definition set_window (highest window : Z) (any : bool) (s : t) : t :=
  mk (encrypt_key s) (decrypt_key s) (local_direction s) (peer_direction s) (server_mode s)
     (key s) (encrypt_counter s) highest window any (session_salt s) (salt_set s)
     (encrypt_ctx s) (decrypt_ctx s).

Definition set_counter (c : Z) (s : t) : t :=
  mk (encrypt_key s) (decrypt_key s) (local_direction s) (peer_direction s) (server_mode s)
     (key s) c (highest_received s) (replay_window s) (any_received s) (session_salt s) (salt_set s)
     (encrypt_ctx s) (decrypt_ctx s).

Definition zero_key : list Z := replicate AES_KEY_SIZE 0.

Definition APP_SALT : list Z := bytes_of_string "kcp-proxy-hkdf-salt-v1".

(** [info_for_direction]. *)
Definition info_for_direction (direction : Z) : list Z :=
  if direction =? NONCE_DIR_CLIENT then bytes_of_string "kcp-proxy/c2s/v1"
  else bytes_of_string "kcp-proxy/s2c/v1".

(** The members before the constructor body runs. *)
Definition fresh (psk : list Z) (direction : Z) (server : bool) : t :=
  mk zero_key zero_key direction
     (if direction =? NONCE_DIR_CLIENT then NONCE_DIR_SERVER else NONCE_DIR_CLIENT)
     server psk 0 0 0 false [] false None None.

(** [generate_nonce]: 8 counter bytes big-endian, the direction, zeros. *)
Definition generate_nonce (counter direction : Z) : list Z :=
  be_bytes 8 counter ++ [direction; 0; 0; 0].

(** [matches_salt]. *)
Definition matches_salt (packet : list Z) (s : t) : bool :=
  if negb (salt_set s) || (length packet <? SESSION_SALT_SIZE)%nat then false
  else bool_decide (take SESSION_SALT_SIZE packet = take SESSION_SALT_SIZE (session_salt s)).

(** [check_replay_window]. *)
Definition check_replay_window (counter : Z) (s : t) : bool :=
  if negb (any_received s) then true
  else if highest_received s <? counter then true
  else if counter =? highest_received s then false
  else
    let offset := u64 (highest_received s - counter) in
    if REPLAY_WINDOW_BITS <? offset then false
    else negb (Z.testbit (replay_window s) (offset - 1)).

(** [std::bitset<2048>::operator<<=]. *)
Definition window_shift (w shift : Z) : Z :=
  Z.land (Z.shiftl w shift) (Z.ones REPLAY_WINDOW_BITS).

(** [commit_replay_window]. *)
Definition commit_replay_window (counter : Z) (s : t) : t :=
  if negb (any_received s) then set_window counter 0 true s
  else if highest_received s <? counter then
    let shift := u64 (counter - highest_received s) in
    if REPLAY_WINDOW_BITS <? shift then set_window counter 0 true s
    else set_window counter (Z.setbit (window_shift (replay_window s) shift) (shift - 1)) true s
  else if counter <? highest_received s then
    let offset := u64 (highest_received s - counter) in
    if offset <=? REPLAY_WINDOW_BITS then
      set_window (highest_received s) (Z.setbit (replay_window s) (offset - 1)) true s
    else s
  else s.

(** [forget_learned_salt]: the arrays are zeroed; the EVP contexts are not
    touched. *)
Definition forget_learned_salt (s : t) : t :=
  mk zero_key zero_key (local_direction s) (peer_direction s) (server_mode s) (key s)
     0 0 0 false [] false (encrypt_ctx s) (decrypt_ctx s).

Section WithAead.
Context {A : Aead}.

(** [hkdf_sha256]: an absent salt stands for [SHA256_DIGEST_LENGTH] zeros. *)
Definition hkdf_sha256 (f : hkdf_fault) (ikm salt info : list Z) : exn_result (list Z) :=
  match f with
  | hkdf_no_ctx => Throw (bytes_of_string "EVP_PKEY_CTX_new_id failed")
  | hkdf_step_fails => Throw (bytes_of_string "HKDF derive failed")
  | hkdf_works => Ret (hkdf ikm (if bool_decide (salt = []) then replicate 32 0 else salt) info)
  end.

(** The second half of [derive_session_keys], once both keys are derived: the
    starting counter, the two key schedules, and the commitment to the salt,
    which wipes the PSK. *)
Definition commit_session_keys (f : evp_fault) (salt ek dk : list Z) (s : t) : t * option (list Z) :=
  let start_counter := be_value (take 6 salt) in
  let keyed ec dc ss set psk :=
    mk ek dk (local_direction s) (peer_direction s) (server_mode s) psk
       start_counter (highest_received s) (replay_window s) (any_received s) ss set ec dc in
  if bool_decide (f = fault_ctx_enc) then
    (keyed (encrypt_ctx s) (decrypt_ctx s) (session_salt s) (salt_set s) (key s),
     Some (bytes_of_string "EVP cipher ctx init failed"))
  else if bool_decide (f = fault_ctx_dec) then
    (keyed (Some ek) (decrypt_ctx s) (session_salt s) (salt_set s) (key s),
     Some (bytes_of_string "EVP cipher ctx init failed"))
  else (keyed (Some ek) (Some dk) salt true [], None).

Definition set_encrypt_key (ek : list Z) (s : t) : t :=
  mk ek (decrypt_key s) (local_direction s) (peer_direction s) (server_mode s) (key s)
     (encrypt_counter s) (highest_received s) (replay_window s) (any_received s)
     (session_salt s) (salt_set s) (encrypt_ctx s) (decrypt_ctx s).

(** [derive_session_keys]: [Some what] when it throws, with the state as far
    as it got. *)
Definition derive_session_keys (f : evp_fault) (salt : list Z) (s : t) : t * option (list Z) :=
  if negb (length salt =? SESSION_SALT_SIZE)%nat then
    (s, Some (bytes_of_string "session salt must be exactly SESSION_SALT_SIZE bytes"))
  else if bool_decide (key s = []) then
    (s, Some (bytes_of_string "cannot re-derive session keys: PSK was already consumed"))
  else
    let hkdf_salt := APP_SALT ++ salt in
    match hkdf_sha256 (enc_hkdf f) (key s) hkdf_salt (info_for_direction (local_direction s)) with
    | Throw what => (s, Some what)
    | Ret ek =>
        match hkdf_sha256 (dec_hkdf f) (key s) hkdf_salt (info_for_direction (peer_direction s)) with
        | Throw what => (set_encrypt_key ek s, Some what)
        | Ret dk => commit_session_keys f salt ek dk s
        end
    end.

(** The AEAD key of one direction: HKDF over the PSK with the application
    salt followed by the session salt. *)
Definition direction_key (psk salt : list Z) (direction : Z) : list Z :=
  hkdf psk (APP_SALT ++ salt) (info_for_direction direction).

Definition hkdf_what (f : hkdf_fault) : list Z :=
  match f with
  | hkdf_no_ctx => bytes_of_string "EVP_PKEY_CTX_new_id failed"
  | _ => bytes_of_string "HKDF derive failed"
  end.

(** The derivation in terms of the direction keys: the application salt is
    never empty, so the default salt is never used. *)
Lemma derive_session_keys_eq f salt s :
  derive_session_keys f salt s =
  (if negb (length salt =? SESSION_SALT_SIZE)%nat then
     (s, Some (bytes_of_string "session salt must be exactly SESSION_SALT_SIZE bytes"))
   else if bool_decide (key s = []) then
     (s, Some (bytes_of_string "cannot re-derive session keys: PSK was already consumed"))
   else if negb (bool_decide (enc_hkdf f = hkdf_works)) then (s, Some (hkdf_what (enc_hkdf f)))
   else let ek := direction_key (key s) salt (local_direction s) in
     if negb (bool_decide (dec_hkdf f = hkdf_works)) then (set_encrypt_key ek s, Some (hkdf_what (dec_hkdf f)))
     else commit_session_keys f salt ek (direction_key (key s) salt (peer_direction s)) s).
Proof.
  unfold derive_session_keys, hkdf_sha256. rewrite (bool_decide_eq_false_2 (APP_SALT ++ salt = [])) by done.
  repeat case_bool; try done; by destruct f.
Qed.

(** The constructor: the client passes the salt it generated, the server
    none. A throw of [derive_session_keys] escapes. *)
Definition Crypto_new (f : evp_fault) (psk : list Z) (direction : Z) (salt : list Z)
    (server : bool) : exn_result t :=
  let s := fresh psk direction server in
  if bool_decide (salt = []) then Ret s
  else match derive_session_keys f salt s with
       | (s', None) => Ret s'
       | (_, Some what) => Throw what
       end.

(** [encrypt_impl(plaintext, out)]: new state, the out-buffer, the code. *)
Definition encrypt_impl (f : evp_fault) (plaintext out : list Z) (s : t)
  : t * list Z * error_code :=
  if negb (salt_set s) then (s, out, ec_invalid_argument)
  else
    let counter := encrypt_counter s in
    let s := set_counter (u64 (counter + 1)) s in
    if MAX_COUNTER <=? counter then (s, out, ec_value_too_large)
    else
      let nonce := generate_nonce counter (local_direction s) in
      match f with
      | fault_reset | fault_iv => (s, out, ec_io_error)
      | fault_alloc | fault_update | fault_final | fault_tag => (s, [], ec_io_error)
      | _ =>
          let '(ct, tag) := gcm_seal (default zero_key (encrypt_ctx s)) nonce plaintext in
          (s, take SESSION_SALT_SIZE (session_salt s) ++ nonce ++ ct ++ tag, ec_none)
      end.

(** The nonce, its counter and the AEAD parts of a received datagram. *)
Definition pkt_salt (c : list Z) : list Z := take SESSION_SALT_SIZE c.
Definition pkt_body (c : list Z) : list Z := drop SESSION_SALT_SIZE c.
Definition pkt_nonce (c : list Z) : list Z := take NONCE_SIZE (pkt_body c).
Definition pkt_counter (c : list Z) : Z := be_value (take 8 (pkt_nonce c)).
Definition pkt_tag (c : list Z) : list Z := drop (length (pkt_body c) - TAG_SIZE) (pkt_body c).
Definition pkt_cipher (c : list Z) : list Z :=
  slice NONCE_SIZE (length (pkt_body c) - NONCE_SIZE - TAG_SIZE) (pkt_body c).

(** The part of [decrypt_impl] after the salt has been learned or matched. *)
Definition decrypt_body (f : evp_fault) (learning : bool) (c out : list Z) (s : t)
  : t * list Z * error_code :=
  let forget s := if learning then forget_learned_salt s else s in
  let nonce := pkt_nonce c in
  if negb (byte_at nonce 8 =? peer_direction s) then (forget s, out, ec_permission_denied)
  else
    let counter := pkt_counter c in
    if MAX_COUNTER <=? counter then (forget s, out, ec_permission_denied)
    else
      let first_packet := server_mode s && negb (any_received s) in
      if negb first_packet && negb (check_replay_window counter s) then (s, out, ec_replay)
      else
        match f with
        | fault_reset | fault_iv | fault_tag => (s, out, ec_io_error)
        | fault_alloc => (forget s, [], ec_io_error)
        | fault_update => (s, [], ec_io_error)
        | _ =>
            match gcm_open (default zero_key (decrypt_ctx s)) nonce (pkt_cipher c) (pkt_tag c) with
            | None => (forget s, [], ec_auth_failed)
            | Some pt => (commit_replay_window counter s, pt, ec_none)
            end
        end.

(** [decrypt_impl(ciphertext, out)]. *)
Definition decrypt_impl (f : evp_fault) (c out : list Z) (s : t) : t * list Z * error_code :=
  if (length c <? SESSION_SALT_SIZE + NONCE_SIZE + TAG_SIZE)%nat then
    (s, out, ec_invalid_argument)
  else if negb (salt_set s) then
    match derive_session_keys f (pkt_salt c) s with
    | (s', Some _) => (forget_learned_salt s', [], ec_io_error)
    | (s', None) => decrypt_body f true c out s'
    end
  else if negb (matches_salt c s) then (s, out, ec_permission_denied)
  else decrypt_body f false c out s.

(** [encrypt_noexcept]/[decrypt_noexcept]: a default-constructed buffer. *)
Definition encrypt_noexcept (f : evp_fault) (plaintext : list Z) (s : t) :=
  encrypt_impl f plaintext [] s.
Definition decrypt_noexcept (f : evp_fault) (c : list Z) (s : t) := decrypt_impl f c [] s.

(** [encrypt]/[decrypt]: the throwing versions, with the message of a code. *)
Definition decrypt_throwing (msg : error_code -> list Z) (f : evp_fault) (c : list Z) (s : t)
  : t * exn_result (list Z) :=
  let '(s', data, ec) := decrypt_noexcept f c s in
  (s', if ec_failed ec then Throw (msg ec) else Ret data).
Definition encrypt_throwing (msg : error_code -> list Z) (f : evp_fault) (pt : list Z) (s : t)
  : t * exn_result (list Z) :=
  let '(s', data, ec) := encrypt_noexcept f pt s in
  (s', if ec_failed ec then Throw (msg ec) else Ret data).

End WithAead.

(** ** The replay window refines the set of accepted counters *)

(** The abstract window: the counters accepted so far, and the test a
    counter must pass: never accepted, and at most 2048 behind any accepted
    one. *)
Definition accept_spec (seen : list Z) (c : Z) : bool :=
  bool_decide (c ∉ seen) && forallb (fun h => h - c <=? REPLAY_WINDOW_BITS) seen.

(** The bitset [w] below the highest counter [h] represents [seen]. *)
Definition window_rep (seen : list Z) (h w : Z) : Prop :=
  h ∈ seen /\ (forall c, c ∈ seen -> 0 <= c <= h) /\ h < 2 ^ 64 /\
  (forall i, REPLAY_WINDOW_BITS <= i -> Z.testbit w i = false) /\
  (forall i, 0 <= i < REPLAY_WINDOW_BITS -> Z.testbit w i = bool_decide (h - i - 1 ∈ seen)).

Definition window_inv (seen : list Z) (s : t) : Prop :=
  if any_received s then window_rep seen (highest_received s) (replay_window s) else seen = [].

Lemma forallb_all {X} (P : X -> bool) l : forallb P l = true <-> forall x, x ∈ l -> P x = true.
Proof.
  rewrite forallb_forall. split; intros H x Hx; apply H; by apply list_elem_of_In.
Qed.

(** A counter other than [c] is in [c :: seen] iff it is in [seen]. *)
Lemma decide_cons_ne x c (seen : list Z) :
  x <> c -> bool_decide (x ∈ c :: seen) = bool_decide (x ∈ seen).
Proof.
  intros Hx. apply bool_decide_ext. rewrite elem_of_cons.
  split; [intros [?|?]; [congruence | done] | by right].
Qed.

Lemma decide_cons_eq c (seen : list Z) : bool_decide (c ∈ c :: seen) = true.
Proof. apply bool_decide_eq_true_2, elem_of_cons. by left. Qed.

Lemma check_replay_window_spec seen s c :
  window_inv seen s -> 0 <= c < 2 ^ 64 -> check_replay_window c s = accept_spec seen c.
Proof.
  unfold window_inv, check_replay_window, accept_spec. intros Hi Hc.
  destruct (any_received s); simpl; [|by subst].
  destruct Hi as (Hh & Hle & Hlt & _ & Hw). set (h := highest_received s) in *.
  pose proof (Hle h Hh) as Hh0. unfold REPLAY_WINDOW_BITS in *.
  assert (Hall : forallb (fun x => x - c <=? 2048) seen = (h - c <=? 2048)).
  { apply eq_true_iff_eq. rewrite forallb_all. split; [intros H; by apply (H h)|].
    intros H x Hx. specialize (Hle x Hx). zb_props. apply Z.leb_le. lia. }
  rewrite Hall. case_bool; zb_props.
  - rewrite bool_decide_eq_true_2; [symmetry; apply Z.leb_le; lia|].
    intros Hin. specialize (Hle c Hin). lia.
  - case_bool; zb_props; [subst; by rewrite bool_decide_eq_false_2 by (intros H; by apply H)|].
    rewrite u64_small by lia. case_bool; zb_props.
    + rewrite (proj2 (Z.leb_gt (h - c) 2048)) by lia. by rewrite andb_false_r.
    + rewrite (proj2 (Z.leb_le (h - c) 2048)), andb_true_r, Hw by lia.
      replace (h - (h - c - 1) - 1) with c by lia. by rewrite bool_decide_not.
Qed.

(** The bounds part of the representation after accepting [c]. *)
Lemma cons_bounds c seen h :
  0 <= c -> (forall x, x ∈ seen -> 0 <= x <= h) ->
  forall x, x ∈ c :: seen -> 0 <= x <= Z.max c h.
Proof.
  intros Hc Hle x Hx%elem_of_cons. destruct Hx as [->|Hx]; [lia|]. specialize (Hle x Hx). lia.
Qed.

(** The first counter of a session, or a jump past the whole window. *)
Lemma window_rep_reset c seen :
  0 <= c < 2 ^ 64 -> (forall x, x ∈ seen -> 0 <= x /\ x + REPLAY_WINDOW_BITS < c) ->
  window_rep (c :: seen) c 0.
Proof.
  intros Hc Hold. split_and!; [apply elem_of_cons; by left | | lia | intros; apply Z.bits_0 |].
  - intros x Hx%elem_of_cons. destruct Hx as [->|Hx]; [lia|]. specialize (Hold x Hx).
    unfold REPLAY_WINDOW_BITS in *. lia.
  - intros i Hi. rewrite Z.bits_0, decide_cons_ne by lia. symmetry.
    apply bool_decide_eq_false_2. intros Hx. specialize (Hold _ Hx). lia.
Qed.

(** Sliding the window by at most its width. *)
Lemma window_rep_slide c seen h w :
  window_rep seen h w -> h < c < 2 ^ 64 -> c - h <= REPLAY_WINDOW_BITS ->
  window_rep (c :: seen) c (Z.setbit (window_shift w (c - h)) (c - h - 1)).
Proof.
  intros (Hh & Hle & Hlt & Hz & Hw) Hc Hs. pose proof (Hle h Hh) as Hh0.
  unfold window_rep, window_shift, REPLAY_WINDOW_BITS in *.
  assert (Hbit : forall i, 0 <= i ->
    Z.testbit (Z.setbit (Z.land (w ≪ (c - h)) (Z.ones 2048)) (c - h - 1)) i =
    (c - h - 1 =? i) || (Z.testbit w (i - (c - h)) && (i <? 2048))).
  { intros i Hi. rewrite Z.setbit_eqb by lia. f_equal.
    by rewrite Z.land_spec, Z.shiftl_spec, Z.testbit_ones_nonneg by lia. }
  split_and!; [apply elem_of_cons; by left | | lia | |].
  - intros x Hx. pose proof (cons_bounds c seen h ltac:(lia) Hle x Hx). lia.
  - intros i Hi. rewrite Hbit by lia. rewrite (proj2 (Z.eqb_neq _ _)), (proj2 (Z.ltb_ge _ _)) by lia.
    apply andb_false_r.
  - intros i Hi. rewrite Hbit, decide_cons_ne, (proj2 (Z.ltb_lt _ _)), andb_true_r by lia.
    destruct (Z.eqb_spec (c - h - 1) i) as [E|E]; simpl.
    + symmetry. apply bool_decide_eq_true_2. by replace (c - i - 1) with h by lia.
    + destruct (Z.ltb_spec i (c - h)).
      * rewrite Z.testbit_neg_r by lia. symmetry. apply bool_decide_eq_false_2.
        intros Hx. specialize (Hle _ Hx). lia.
      * rewrite Hw by lia. apply bool_decide_ext. by replace (h - (i - (c - h)) - 1) with (c - i - 1) by lia.
Qed.

(** Marking a counter inside the window. *)
Lemma window_rep_mark c seen h w :
  window_rep seen h w -> 0 <= c < h -> h - c <= REPLAY_WINDOW_BITS ->
  window_rep (c :: seen) h (Z.setbit w (h - c - 1)).
Proof.
  intros (Hh & Hle & Hlt & Hz & Hw) Hc Hs. unfold window_rep, REPLAY_WINDOW_BITS in *.
  split_and!; [apply elem_of_cons; by right | | lia | |].
  - intros x Hx. pose proof (cons_bounds c seen h ltac:(lia) Hle x Hx). lia.
  - intros i Hi. rewrite Z.setbit_neq by lia. by apply Hz.
  - intros i Hi. rewrite Z.setbit_eqb, Hw by lia. destruct (Z.eqb_spec (h - c - 1) i) as [E|E]; simpl.
    + replace (h - i - 1) with c by lia. by rewrite decide_cons_eq.
    + by rewrite decide_cons_ne by lia.
Qed.

Lemma commit_replay_window_spec seen s c :
  window_inv seen s -> 0 <= c < 2 ^ 64 -> accept_spec seen c = true ->
  window_inv (c :: seen) (commit_replay_window c s).
Proof.
  unfold window_inv at 1, commit_replay_window, accept_spec. intros Hi Hc Ha. zb_props.
  destruct (any_received s) eqn:Ea; simpl.
  2:{ subst. apply window_rep_reset; [done|]. intros x Hx. by apply elem_of_nil in Hx. }
  pose proof Hi as (Hh & Hle & Hlt & _ & _). pose proof (Hle _ Hh) as Hh0.
  destruct (Z.ltb_spec (highest_received s) c).
  - rewrite u64_small by lia. destruct (Z.ltb_spec REPLAY_WINDOW_BITS (c - highest_received s)).
    + apply window_rep_reset; [done|]. intros x Hx. specialize (Hle x Hx). simpl. lia.
    + apply window_rep_slide; [done | lia | lia].
  - assert (c <> highest_received s) by (intros ->; done).
    rewrite (proj2 (Z.ltb_lt c _)), u64_small by lia.
    rewrite forallb_all in H0. specialize (H0 _ Hh). rewrite H0. zb_props.
    apply window_rep_mark; [done | lia | lia].
Qed.

(** ** Decryption: what each outcome does to the state *)

Section Decrypt.
Context {A : Aead}.

(** The counters of accepted packets are the ones the window has seen, and
    an instance without a salt has seen none. *)
Definition decrypt_inv (seen : list Z) (s : t) : Prop :=
  window_inv seen s /\ (salt_set s = false -> any_received s = false).

(** Deriving keys touches neither the window nor the directions. *)
Lemma derive_frame f salt s s' r :
  derive_session_keys f salt s = (s', r) ->
  highest_received s' = highest_received s /\ replay_window s' = replay_window s /\
  any_received s' = any_received s /\ local_direction s' = local_direction s /\
  peer_direction s' = peer_direction s /\ server_mode s' = server_mode s /\
  (r = None -> salt_set s' = true) /\ (r <> None -> salt_set s' = salt_set s).
Proof. rewrite derive_session_keys_eq. unfold commit_session_keys. intros H. repeat case_bool; simplify_eq/=; done. Qed.

Lemma window_inv_ext seen s s' :
  any_received s' = any_received s -> highest_received s' = highest_received s ->
  replay_window s' = replay_window s -> window_inv seen s -> window_inv seen s'.
Proof. unfold window_inv. by intros -> -> ->. Qed.

Lemma commit_any c s : any_received (commit_replay_window c s) = true.
Proof. unfold commit_replay_window. repeat case_bool; zb_props; done. Qed.

Lemma commit_salt c s : salt_set (commit_replay_window c s) = salt_set s.
Proof. unfold commit_replay_window. repeat case_bool; done. Qed.

Lemma pkt_counter_range c : 0 <= pkt_counter c < 2 ^ 64.
Proof. apply be_value_range. Qed.

(** The body of a decryption: either the packet is accepted, with a counter
    the window allows and that is then committed, or the window is as it was
    (or forgotten together with the salt being learned). *)
Lemma decrypt_body_inv f learning c out seen s :
  decrypt_inv seen s -> salt_set s = true -> (learning = true -> any_received s = false) ->
  let '(s', _, ec) := decrypt_body f learning c out s in
  if decide (ec = ec_none) then
    accept_spec seen (pkt_counter c) = true /\ decrypt_inv (pkt_counter c :: seen) s'
  else decrypt_inv seen s' /\ (ec = ec_replay -> accept_spec seen (pkt_counter c) = false).
Proof.
  intros [Hw Hs] Hset Hl. unfold decrypt_body.
  assert (Hf : decrypt_inv seen (if learning then forget_learned_salt s else s)).
  { destruct learning; [|done]. specialize (Hl eq_refl). split; [|done].
    unfold window_inv in *. by rewrite Hl in Hw. }
  pose proof (check_replay_window_spec seen s _ Hw (pkt_counter_range c)) as Hchk.
  destruct (negb _); [by split|]. destruct (MAX_COUNTER <=? pkt_counter c); [by split|].
  assert (Hfirst : server_mode s && negb (any_received s) = true ->
                   accept_spec seen (pkt_counter c) = true).
  { intros E. zb_props. rewrite <- Hchk. unfold check_replay_window. by rewrite H0. }
  assert (Hok : accept_spec seen (pkt_counter c) = true ->
                decrypt_inv (pkt_counter c :: seen) (commit_replay_window (pkt_counter c) s)).
  { intros Ha. split; [by apply commit_replay_window_spec; [|apply pkt_counter_range|]|].
    by rewrite commit_salt, Hset. }
  rewrite Hchk.
  destruct (server_mode s && negb (any_received s)); simpl;
    [rewrite (Hfirst eq_refl) in * | destruct (accept_spec seen _) eqn:Ha; [|by split]]; simpl;
    specialize (Hok eq_refl); destruct f; try (by split); destruct (gcm_open _ _ _ _); by split.
Qed.

Lemma decrypt_inv_step f c out seen s :
  decrypt_inv seen s ->
  let '(s', _, ec) := decrypt_impl f c out s in
  if decide (ec = ec_none) then
    accept_spec seen (pkt_counter c) = true /\ decrypt_inv (pkt_counter c :: seen) s'
  else decrypt_inv seen s' /\ (ec = ec_replay -> accept_spec seen (pkt_counter c) = false).
Proof.
  intros Hi. unfold decrypt_impl. destruct (_ <? _)%nat; [by split|].
  destruct (salt_set s) eqn:Es; simpl.
  - destruct (matches_salt c s); simpl; [|by split]. by apply decrypt_body_inv.
  - destruct (derive_session_keys f (pkt_salt c) s) as [s' [w|]] eqn:Ed;
      apply derive_frame in Ed as (Hh & Hw & Ha & _ & _ & _ & Hset & _);
      destruct Hi as [Hwin Hany]; specialize (Hany Es).
    + split; [|done]. split; [|done]. unfold window_inv in *. by rewrite Hany in Hwin.
    + apply decrypt_body_inv; [split| |]; try by rewrite ?Ha; auto.
      by apply (window_inv_ext seen s).
Qed.

(** A sequence of received datagrams, each with the fault the library has on
    it: the state and the counters accepted, latest first. *)
Fixpoint decrypt_run (s : t) (seen : list Z) (pkts : list (evp_fault * list Z)) : t * list Z :=
  match pkts with
  | [] => (s, seen)
  | (f, c) :: rest =>
      let '(s', _, ec) := decrypt_noexcept f c s in
      decrypt_run s' (if decide (ec = ec_none) then pkt_counter c :: seen else seen) rest
  end.

Lemma decrypt_run_inv s seen pkts :
  decrypt_inv seen s -> NoDup seen ->
  decrypt_inv (decrypt_run s seen pkts).2 (decrypt_run s seen pkts).1 /\
  NoDup (decrypt_run s seen pkts).2.
Proof.
  revert s seen. induction pkts as [|[f c] rest IH]; intros s seen Hi Hn; simpl; [done|].
  pose proof (decrypt_inv_step f c [] seen s Hi) as H. unfold decrypt_noexcept.
  destruct (decrypt_impl f c [] s) as [[s' out] ec]. case_decide; destruct H as [H1 H2].
  - apply IH; [done|]. constructor; [|done]. unfold accept_spec in H1. by zb_props.
  - by apply IH.
Qed.

(** A rejected datagram leaves an established session untouched: once
    the salt is known, any error (short packet, wrong salt, wrong direction,
    counter out of range, replay, forged tag, library failure) returns the
    very same state, so nothing unauthenticated moves the replay window, the
    keys or the nonce counter. *)
Theorem decrypt_error_frame (f : evp_fault) (c out : list Z) (s : t) :
  salt_set s = true -> (decrypt_impl f c out s).2 <> ec_none ->
  (decrypt_impl f c out s).1.1 = s.
Proof.
  intros Hs. unfold decrypt_impl, decrypt_body. rewrite Hs. simpl.
  repeat case_bool; try done; destruct f; simpl; try done; destruct (gcm_open _ _ _ _); done.
Qed.

(** An unauthenticated first datagram commits nothing: when a server
    instance that has not learned its salt yet rejects a datagram (no library
    failure involved) it still has no salt, its key arrays are zero and its
    window is empty. *)
Theorem first_packet_rollback (psk : list Z) (direction : Z) (c out : list Z) :
  (SESSION_SALT_SIZE + NONCE_SIZE + TAG_SIZE <= length c)%nat ->
  let '(s', _, ec) := decrypt_impl no_fault c out (fresh psk direction true) in
  ec <> ec_none ->
  salt_set s' = false /\ session_salt s' = [] /\ any_received s' = false /\
  encrypt_key s' = zero_key /\ decrypt_key s' = zero_key /\ encrypt_counter s' = 0.
Proof.
  intros Hl. unfold decrypt_impl. rewrite (proj2 (Nat.ltb_ge _ _)) by done. simpl salt_set. simpl negb.
  destruct (derive_session_keys no_fault (pkt_salt c) (fresh psk direction true)) as [s' [w|]] eqn:Ed;
    [done|].
  apply derive_frame in Ed as (_ & _ & Ha & _ & _ & Hm & _). simpl in Ha, Hm.
  unfold decrypt_body. rewrite Ha, Hm. simpl.
  repeat case_bool; try done. by destruct (gcm_open _ _ _ _).
Qed.

(** The rollback is not complete under library failures: if the
    per-packet re-initialisation of the decryption context fails while the
    salt is being learned, the call reports an I/O error but the instance
    keeps the salt of a datagram that never authenticated, with the PSK gone. *)
Theorem first_packet_fault_keeps_salt (psk : list Z) (direction : Z) (c out : list Z) :
  psk <> [] -> (SESSION_SALT_SIZE + NONCE_SIZE + TAG_SIZE <= length c)%nat ->
  byte_at (pkt_nonce c) 8 = peer_direction (fresh psk direction true) ->
  pkt_counter c < MAX_COUNTER ->
  let '(s', _, ec) := decrypt_impl fault_reset c out (fresh psk direction true) in
  ec = ec_io_error /\ salt_set s' = true /\ session_salt s' = pkt_salt c /\ key s' = [].
Proof.
  intros Hp Hl Hd Hc. unfold decrypt_impl. rewrite (proj2 (Nat.ltb_ge _ _)) by done.
  simpl salt_set. simpl negb. cbn match. rewrite derive_session_keys_eq. unfold commit_session_keys. simpl key.
  assert (length (pkt_salt c) = SESSION_SALT_SIZE) as ->.
  { unfold pkt_salt. rewrite length_take. unfold SESSION_SALT_SIZE, NONCE_SIZE, TAG_SIZE in *. lia. }
  rewrite Nat.eqb_refl, (bool_decide_eq_false_2 (psk = [])) by done. simpl.
  unfold decrypt_body. simpl. simpl in Hd. rewrite Hd, Z.eqb_refl.
  rewrite (proj2 (Z.leb_gt _ _)) by done. done.
Qed.

End Decrypt.

(** ** Encryption: nonces and delivery *)

Section Sessions.
Context {A : Aead}.

(** The packet that seals [pt] under one direction of a session. *)
Definition sealed (psk salt : list Z) (direction counter : Z) (pt : list Z) : list Z :=
  let nonce := generate_nonce counter direction in
  let '(ct, tag) := gcm_seal (direction_key psk salt direction) nonce pt in
  salt ++ nonce ++ ct ++ tag.

(** The instance holds the session keys of [psk] and [salt]. *)
Definition keyed (psk salt : list Z) (s : t) : Prop :=
  salt_set s = true /\ session_salt s = salt /\
  encrypt_ctx s = Some (direction_key psk salt (local_direction s)) /\
  decrypt_ctx s = Some (direction_key psk salt (peer_direction s)).

(** The instance is keyed, or is a server instance still waiting for its
    first packet. *)
Definition can_receive (psk salt : list Z) (s : t) : Prop :=
  keyed psk salt s \/ salt_set s = false /\ key s = psk /\ any_received s = false.

Lemma length_nonce counter direction : length (generate_nonce counter direction) = NONCE_SIZE.
Proof. unfold generate_nonce. by rewrite length_app, length_be_bytes. Qed.

Lemma derive_ok salt s :
  length salt = SESSION_SALT_SIZE -> key s <> [] ->
  exists s', derive_session_keys no_fault salt s = (s', None) /\ keyed (key s) salt s' /\
    key s' = [] /\ encrypt_counter s' = be_value (take 6 salt) /\
    highest_received s' = highest_received s /\ replay_window s' = replay_window s /\
    any_received s' = any_received s /\ local_direction s' = local_direction s /\
    peer_direction s' = peer_direction s.
Proof.
  intros Hl Hk. rewrite derive_session_keys_eq. unfold commit_session_keys. rewrite Hl, Nat.eqb_refl.
  rewrite (bool_decide_eq_false_2 (key s = [])) by done. simpl. by eexists.
Qed.

Lemma encrypt_sealed psk salt pt out s :
  keyed psk salt s -> length salt = SESSION_SALT_SIZE -> encrypt_counter s < MAX_COUNTER ->
  encrypt_impl no_fault pt out s =
  (set_counter (u64 (encrypt_counter s + 1)) s,
   sealed psk salt (local_direction s) (encrypt_counter s) pt, ec_none).
Proof.
  intros (Hs & Hsalt & He & _) Hl Hc. unfold encrypt_impl, sealed. rewrite Hs. simpl.
  rewrite (proj2 (Z.leb_gt _ _)) by done. rewrite He. simpl.
  destruct (gcm_seal _ _ pt) as [ct tag]. rewrite Hsalt, <- Hl, firstn_all. done.
Qed.

Context {L : AeadLaws A}.

(** The fields a receiver cuts out of a sealed packet. *)
Lemma sealed_fields psk salt direction counter pt
    (c := sealed psk salt direction counter pt)
    (k := direction_key psk salt direction) (n := generate_nonce counter direction) :
  length salt = SESSION_SALT_SIZE -> 0 <= counter < 2 ^ 64 ->
  (SESSION_SALT_SIZE + NONCE_SIZE + TAG_SIZE <= length c)%nat /\
  pkt_salt c = salt /\ pkt_nonce c = n /\ pkt_counter c = counter /\
  byte_at (pkt_nonce c) 8 = direction /\
  pkt_cipher c = (gcm_seal k n pt).1 /\ pkt_tag c = (gcm_seal k n pt).2.
Proof.
  intros Hs Hc. unfold c, sealed. fold k n.
  pose proof (gcm_tag_length k n pt) as Ht. pose proof (length_nonce counter direction) as Hn.
  fold n in Hn. destruct (gcm_seal k n pt) as [ct tag]. cbn [fst snd] in *.
  assert (Hsalt : pkt_salt (salt ++ n ++ ct ++ tag) = salt)
    by (unfold pkt_salt; rewrite <- Hs; apply take_app_length).
  assert (Hbody : pkt_body (salt ++ n ++ ct ++ tag) = n ++ ct ++ tag)
    by (unfold pkt_body; rewrite <- Hs; apply drop_app_length).
  assert (Hnonce : pkt_nonce (salt ++ n ++ ct ++ tag) = n)
    by (unfold pkt_nonce; rewrite Hbody, <- Hn; apply take_app_length).
  split_and!; try done.
  - rewrite !length_app, Hs, Hn, Ht. lia.
  - unfold pkt_counter. rewrite Hnonce. unfold n, generate_nonce.
    rewrite <- (length_be_bytes 8 counter) at 1. rewrite take_app_length.
    apply be_value_be_bytes; [done | by change (256 ^ Z.of_nat 8) with (2 ^ 64)].
  - rewrite Hnonce. unfold n, generate_nonce. by apply byte_at_middle, length_be_bytes.
  - unfold pkt_cipher. rewrite Hbody, !length_app, Hn, Ht.
    apply slice_middle; [done | lia].
  - unfold pkt_tag. rewrite Hbody, !length_app, Ht, (app_assoc n ct).
    replace (length n + (length ct + TAG_SIZE) - TAG_SIZE)%nat with (length (n ++ ct))
      by (rewrite length_app; lia).
    apply drop_app_length.
Qed.

Lemma keyed_commit psk salt c s : keyed psk salt s -> keyed psk salt (commit_replay_window c s).
Proof. unfold keyed, commit_replay_window. intros H. repeat case_bool; done. Qed.

Lemma commit_directions c s :
  local_direction (commit_replay_window c s) = local_direction s /\
  peer_direction (commit_replay_window c s) = peer_direction s.
Proof. unfold commit_replay_window. repeat case_bool; done. Qed.

Lemma decrypt_body_sealed psk salt direction counter pt learning out seen s :
  keyed psk salt s -> length salt = SESSION_SALT_SIZE -> peer_direction s = direction ->
  window_inv seen s -> 0 <= counter < MAX_COUNTER -> accept_spec seen counter = true ->
  decrypt_body no_fault learning (sealed psk salt direction counter pt) out s =
  (commit_replay_window counter s, pt, ec_none).
Proof.
  intros (Hs & Hsalt & _ & Hd) Hl Hdir Hw Hc Ha. unfold MAX_COUNTER in Hc.
  destruct (sealed_fields psk salt direction counter pt Hl ltac:(lia))
    as (_ & _ & En & Ec & Eb & Ecph & Etag).
  unfold decrypt_body. rewrite Eb, Hdir, Z.eqb_refl, Ec. simpl.
  rewrite (proj2 (Z.leb_gt _ _)) by (unfold MAX_COUNTER; lia).
  rewrite (check_replay_window_spec seen) by (done || lia). rewrite Ha, andb_false_r.
  rewrite Hd, En, Ecph, Etag, Hdir. simpl. by rewrite gcm_open_seal.
Qed.

Lemma decrypt_sealed psk salt direction counter pt out seen s :
  can_receive psk salt s -> psk <> [] -> length salt = SESSION_SALT_SIZE ->
  peer_direction s = direction -> window_inv seen s ->
  0 <= counter < MAX_COUNTER -> accept_spec seen counter = true ->
  exists s', decrypt_impl no_fault (sealed psk salt direction counter pt) out s = (s', pt, ec_none) /\
    keyed psk salt s' /\ peer_direction s' = direction /\ window_inv (counter :: seen) s'.
Proof.
  intros Hr Hp Hl Hdir Hw Hc Ha.
  assert (Hc64 : 0 <= counter < 2 ^ 64) by (unfold MAX_COUNTER in Hc; lia).
  destruct (sealed_fields psk salt direction counter pt Hl Hc64) as (Hlen & Es & _).
  unfold decrypt_impl. rewrite (proj2 (Nat.ltb_ge _ _)) by done.
  destruct Hr as [Hk | (Hns & Hkey & Hany)].
  - pose proof Hk as (Hs & Hsalt & _). rewrite Hs. simpl.
    assert (matches_salt (sealed psk salt direction counter pt) s = true) as ->.
    { unfold matches_salt. rewrite Hs, Hsalt. simpl orb.
      rewrite (proj2 (Nat.ltb_ge _ _)) by (unfold SESSION_SALT_SIZE in *; lia).
      apply bool_decide_eq_true_2. fold (pkt_salt (sealed psk salt direction counter pt)).
      rewrite Es, <- Hl. by rewrite firstn_all. }
    simpl. exists (commit_replay_window counter s).
    rewrite (decrypt_body_sealed _ _ _ _ _ _ _ seen) by done.
    destruct (commit_directions counter s) as [_ ->].
    split_and!; [done | by apply keyed_commit | done | by apply commit_replay_window_spec].
  - rewrite Hns, Es. simpl. destruct (derive_ok salt s Hl ltac:(congruence))
      as (s' & -> & Hk & _ & _ & Eh & Ew & Ea & _ & Ep). rewrite Hkey in Hk.
    assert (Hw' : window_inv seen s') by by apply (window_inv_ext seen s).
    exists (commit_replay_window counter s').
    rewrite (decrypt_body_sealed _ _ _ _ _ _ _ seen) by (done || congruence).
    destruct (commit_directions counter s') as [_ ->].
    split_and!; [done | by apply keyed_commit | congruence | by apply commit_replay_window_spec].
Qed.

(** Sealing a list of messages one after the other. *)
Fixpoint encrypt_all (s : t) (ms : list (list Z)) : t * list (list Z) :=
  match ms with
  | [] => (s, [])
  | m :: ms' =>
      let '(s1, pkt, _) := encrypt_noexcept no_fault m s in
      let '(s2, pkts) := encrypt_all s1 ms' in
      (s2, pkt :: pkts)
  end.

(** Opening datagrams in the order they arrive; errors are kept. *)
Fixpoint decrypt_all (s : t) (pkts : list (list Z)) : list (list Z * error_code) :=
  match pkts with
  | [] => []
  | c :: rest => let '(s', data, ec) := decrypt_noexcept no_fault c s in
                 (data, ec) :: decrypt_all s' rest
  end.

Lemma encrypt_all_sealed psk salt s ms :
  keyed psk salt s -> length salt = SESSION_SALT_SIZE ->
  0 <= encrypt_counter s -> encrypt_counter s + Z.of_nat (length ms) <= MAX_COUNTER ->
  forall i m, ms !! i = Some m ->
    (encrypt_all s ms).2 !! i =
    Some (sealed psk salt (local_direction s) (encrypt_counter s + Z.of_nat i) m).
Proof.
  revert s. induction ms as [|m0 ms IH]; intros s Hk Hl H0 Hc i m Hi; [done|].
  cbn [length] in Hc. simpl. unfold encrypt_noexcept.
  rewrite (encrypt_sealed psk salt) by (done || lia).
  set (s1 := set_counter _ s).
  assert (Hn : encrypt_counter s1 = encrypt_counter s + 1)
    by (apply u64_small; unfold MAX_COUNTER in Hc; lia).
  specialize (IH s1 Hk Hl ltac:(lia) ltac:(lia)).
  destruct (encrypt_all s1 ms) as [s2 pkts]. simpl in *.
  destruct i as [|i]; simpl in *; [simplify_eq; by rewrite Z.add_0_r|].
  rewrite (IH i m Hi). do 2 f_equal. lia.
Qed.

(** A delivery order the window can absorb: no packet twice, and none more
    than 2048 behind a packet delivered before it. *)
Fixpoint window_order (before order : list nat) : Prop :=
  match order with
  | [] => True
  | i :: rest =>
      (i ∉ before) /\ Forall (fun j => Z.of_nat j - Z.of_nat i <= REPLAY_WINDOW_BITS) before /\
      window_order (i :: before) rest
  end.

Lemma decrypt_all_sealed psk salt direction base ms before order s :
  psk <> [] -> length salt = SESSION_SALT_SIZE -> 0 <= base ->
  base + Z.of_nat (length ms) <= MAX_COUNTER ->
  can_receive psk salt s -> peer_direction s = direction ->
  window_inv ((fun j => base + Z.of_nat j) <$> before) s ->
  window_order before order -> Forall (fun i => (i < length ms)%nat) order ->
  decrypt_all s ((fun i => sealed psk salt direction (base + Z.of_nat i) (ms !!! i)) <$> order) =
  (fun i => (ms !!! i, ec_none)) <$> order.
Proof.
  intros Hp Hl Hb Hmax. revert before s.
  induction order as [|i rest IH]; intros before s Hr Hdir Hw Ho Hall; [done|].
  destruct Ho as (Hnin & Hold & Ho). apply list.Forall_cons in Hall as [Hi Hall].
  assert (Ha : accept_spec ((fun j => base + Z.of_nat j) <$> before) (base + Z.of_nat i) = true).
  { unfold accept_spec. apply andb_true_iff. split.
    - apply bool_decide_eq_true_2. rewrite list_elem_of_fmap. intros (j & Hj & Hjin).
      apply Hnin. by replace i with j by lia.
    - apply forallb_all. intros x (j & -> & Hj)%list_elem_of_fmap.
      rewrite list.Forall_forall in Hold. specialize (Hold j Hj). apply Z.leb_le. lia. }
  rewrite !fmap_cons. simpl. unfold decrypt_noexcept.
  destruct (decrypt_sealed psk salt direction (base + Z.of_nat i) (ms !!! i) [] _ s
    Hr Hp Hl Hdir Hw ltac:(lia) Ha) as (s' & -> & Hk & Hdir' & Hw').
  f_equal. apply (IH (i :: before)); try done. by left.
Qed.

(** C10: end-to-end delivery. A client instance seals any messages under a
    PSK and a fresh 16-byte salt; a server instance that knows only the PSK
    learns the salt from whichever packet arrives first, and opens every
    packet to the exact message, for every subset and order of delivery that
    contains no duplicate and is at most 2048 packets out of order. *)
Theorem session_delivery (psk salt : list Z) (ms : list (list Z)) (order : list nat) :
  psk <> [] -> length salt = SESSION_SALT_SIZE ->
  be_value (take 6 salt) + Z.of_nat (length ms) <= MAX_COUNTER ->
  window_order [] order -> Forall (fun i => (i < length ms)%nat) order ->
  exists client,
    Crypto_new no_fault psk NONCE_DIR_CLIENT salt false = Ret client /\
    decrypt_all (fresh psk NONCE_DIR_SERVER true)
      ((fun i => (encrypt_all client ms).2 !!! i) <$> order) =
    (fun i => (ms !!! i, ec_none)) <$> order.
Proof.
  intros Hp Hl Hmax Ho Hall. unfold Crypto_new.
  rewrite bool_decide_eq_false_2 by (intros ->; done).
  destruct (derive_ok salt (fresh psk NONCE_DIR_CLIENT false) Hl Hp)
    as (client & -> & Hk & _ & Hcnt & _ & _ & _ & Hdir & _).
  exists client. split; [done|]. pose proof (be_value_range (take 6 salt)) as Hb.
  assert (E : (fun i => (encrypt_all client ms).2 !!! i) <$> order =
    (fun i => sealed psk salt NONCE_DIR_CLIENT (be_value (take 6 salt) + Z.of_nat i) (ms !!! i)) <$> order).
  { apply list_fmap_ext. intros k i Hki. apply list_lookup_total_correct.
    rewrite list.Forall_forall in Hall.
    specialize (Hall i ltac:(by eapply list_elem_of_lookup_2)).
    destruct (lookup_lt_is_Some_2 ms i Hall) as [m Hm].
    rewrite (list_lookup_total_correct _ _ _ Hm).
    rewrite (encrypt_all_sealed psk salt client ms Hk Hl ltac:(lia) ltac:(lia) i m Hm).
    by rewrite Hcnt, Hdir. }
  rewrite E. apply (decrypt_all_sealed _ _ _ _ _ []); try done; [lia|]. by right.
Qed.

(** ** What is accepted *)

(** The plaintext of a datagram that is authentic for one direction of a
    session: long enough, with the session's salt, the direction's byte, a
    counter in range, and a tag that opens under the direction's key. *)
Definition authentic (psk salt : list Z) (direction : Z) (c : list Z) : option (list Z) :=
  if (SESSION_SALT_SIZE + NONCE_SIZE + TAG_SIZE <=? length c)%nat && bool_decide (pkt_salt c = salt) &&
     (byte_at (pkt_nonce c) 8 =? direction) && (pkt_counter c <? MAX_COUNTER)
  then gcm_open (direction_key psk salt direction) (pkt_nonce c) (pkt_cipher c) (pkt_tag c)
  else None.

(** The salt a datagram must carry: the session's, or any while none is
    learned. *)
Definition wanted_salt (s : t) (c : list Z) : list Z := if salt_set s then session_salt s else pkt_salt c.

(** An instance as it is constructed: the client's with its salt, the
    server's without one. *)
Definition born (psk : list Z) (s : t) : Prop :=
  (exists direction, s = fresh psk direction true) \/
  (exists f direction salt, Crypto_new f psk direction salt false = Ret s /\ salt <> [] /\ bytes_ok salt).

(** An instance holds the keys of its salt, or has none and its PSK, or lost
    the PSK to a first datagram that failed. *)
Definition established (psk : list Z) (s : t) : Prop :=
  salt_set s = true /\ keyed psk (session_salt s) s /\ length (session_salt s) = SESSION_SALT_SIZE.
Definition life (psk : list Z) (s : t) : Prop :=
  established psk s \/ salt_set s = false /\ (key s = psk \/ key s = []).

Lemma derive_success f salt s s' :
  derive_session_keys f salt s = (s', None) ->
  length salt = SESSION_SALT_SIZE /\ key s <> [] /\ keyed (key s) salt s' /\ key s' = [] /\
  encrypt_counter s' = be_value (take 6 salt).
Proof.
  rewrite derive_session_keys_eq. unfold commit_session_keys. intros H.
  repeat case_bool; simplify_eq/=; zb_props; done.
Qed.

Lemma derive_failure f salt s s' what :
  derive_session_keys f salt s = (s', Some what) -> key s' = key s.
Proof.
  rewrite derive_session_keys_eq. unfold commit_session_keys. intros H. repeat case_bool; simplify_eq/=; done.
Qed.

Lemma derive_established f psk salt s s' :
  derive_session_keys f salt s = (s', None) -> key s = psk -> established psk s'.
Proof.
  intros (Hl & Hk & Hy & _)%derive_success <-. pose proof Hy as (Hs & E & _). unfold established. by rewrite E.
Qed.

Lemma established_commit psk c s : established psk s -> established psk (commit_replay_window c s).
Proof. unfold established, keyed, commit_replay_window. intros H. repeat case_bool; done. Qed.

Lemma born_life psk s : born psk s -> life psk s /\ any_received s = false.
Proof.
  intros [[d ->]|(f & d & salt & Hn & Hne & _)]; [by split; [right; split; [|left]|]|].
  unfold Crypto_new in Hn. rewrite bool_decide_eq_false_2 in Hn by done.
  destruct (derive_session_keys f salt (fresh psk d false)) as [s' [w|]] eqn:Ed; [done|]. simplify_eq.
  pose proof (derive_frame _ _ _ _ _ Ed) as (_ & _ & Ha & _). split; [|done]. left. by eapply derive_established.
Qed.

(** What the body leaves, for an instance that knows the salt. *)
Lemma body_life psk f learning c out s :
  established psk s -> key s = [] \/ learning = false ->
  life psk (decrypt_body f learning c out s).1.1 /\
  peer_direction (decrypt_body f learning c out s).1.1 = peer_direction s.
Proof.
  intros He Hk. assert (Hf : life psk (if learning then forget_learned_salt s else s) /\
    peer_direction (if learning then forget_learned_salt s else s) = peer_direction s).
  { destruct learning; [|by split; [left|]]. destruct Hk as [Hk|?]; [|done]. by split; [right; split; [|right]|]. }
  assert (Hs : life psk s /\ peer_direction s = peer_direction s) by (by split; [left|]).
  unfold decrypt_body. repeat case_bool; try done; destruct f; try done; destruct (gcm_open _ _ _ _); simpl; try done.
  all: split; [left; by apply established_commit | apply commit_directions].
Qed.

Lemma decrypt_life psk f c out s :
  life psk s -> life psk (decrypt_impl f c out s).1.1 /\
  peer_direction (decrypt_impl f c out s).1.1 = peer_direction s.
Proof.
  intros Hl. unfold decrypt_impl. destruct (_ <? _)%nat; [done|]. destruct Hl as [He|[Hs Hk]].
  - pose proof He as (Hs & _). rewrite Hs. simpl. destruct (matches_salt c s); simpl; [|by split; [left|]].
    apply body_life; [done | by right].
  - rewrite Hs. simpl. destruct (derive_session_keys f (pkt_salt c) s) as [s' [w|]] eqn:Ed;
      pose proof (derive_frame _ _ _ _ _ Ed) as (_ & _ & _ & _ & Hp & _); simpl.
    + apply derive_failure in Ed. split; [|done]. right. split; [done|]. simpl. by rewrite Ed.
    + pose proof (derive_success _ _ _ _ Ed) as (_ & Hne & _ & Hk' & _). rewrite <- Hp.
      apply body_life; [|by left]. eapply derive_established; [exact Ed|]. by destruct Hk.
Qed.

Lemma matches_salt_eq c s :
  salt_set s = true -> length (session_salt s) = SESSION_SALT_SIZE ->
  (SESSION_SALT_SIZE + NONCE_SIZE + TAG_SIZE <= length c)%nat ->
  matches_salt c s = bool_decide (pkt_salt c = session_salt s).
Proof.
  intros Hs Hl Hc. unfold matches_salt. rewrite Hs. simpl.
  rewrite (proj2 (Nat.ltb_ge _ _)) by (unfold SESSION_SALT_SIZE in *; lia).
  apply bool_decide_ext. fold (pkt_salt c). rewrite <- Hl at 1. by rewrite firstn_all.
Qed.

(** The body accepts what is authentic and what the window allows, and with
    no fault nothing else stops it. *)
Lemma body_accepts psk f learning c out seen s :
  decrypt_inv seen s -> established psk s -> pkt_salt c = session_salt s ->
  (SESSION_SALT_SIZE + NONCE_SIZE + TAG_SIZE <= length c)%nat ->
  let a := authentic psk (session_salt s) (peer_direction s) c in
  let r := decrypt_body f learning c out s in
  (r.2 = ec_none -> a = Some r.1.2 /\ accept_spec seen (pkt_counter c) = true) /\
  (f = no_fault -> forall pt, a = Some pt -> accept_spec seen (pkt_counter c) = true -> r.1.2 = pt /\ r.2 = ec_none).
Proof.
  intros [Hw _] (Hs & (_ & _ & _ & Hd) & _) Hp Hc a r. unfold a, r, authentic, decrypt_body. clear a r.
  rewrite (proj2 (Nat.leb_le _ _)), (bool_decide_eq_true_2 (pkt_salt c = session_salt s)) by done. simpl.
  destruct (byte_at (pkt_nonce c) 8 =? peer_direction s); simpl; [|done].
  rewrite (Z.ltb_antisym MAX_COUNTER). destruct (MAX_COUNTER <=? pkt_counter c); simpl; [done|].
  rewrite (check_replay_window_spec seen s _ Hw (pkt_counter_range c)), Hd. simpl.
  assert (Hfirst : server_mode s && negb (any_received s) = true -> accept_spec seen (pkt_counter c) = true).
  { intros E. rewrite <- (check_replay_window_spec seen s _ Hw (pkt_counter_range c)). unfold check_replay_window.
    by apply andb_true_iff in E as [_ ->]. }
  destruct (server_mode s && negb (any_received s)); simpl;
    [rewrite (Hfirst eq_refl) | destruct (accept_spec seen (pkt_counter c)) eqn:Ea; simpl];
    destruct f; try done; destruct (gcm_open _ _ _ _); simpl; try done; (split; [done|]); intros _ pt' [= ->]; done.
Qed.

Lemma decrypt_accepts psk f c out seen s :
  decrypt_inv seen s -> life psk s ->
  let a := authentic psk (wanted_salt s c) (peer_direction s) c in
  let r := decrypt_impl f c out s in
  (r.2 = ec_none -> a = Some r.1.2 /\ accept_spec seen (pkt_counter c) = true) /\
  (f = no_fault -> salt_set s = true \/ key s = psk /\ psk <> [] ->
   forall pt, a = Some pt -> accept_spec seen (pkt_counter c) = true -> r.1.2 = pt /\ r.2 = ec_none).
Proof.
  intros Hi Hl a r. unfold a, r, decrypt_impl, wanted_salt. clear a r.
  destruct (Nat.ltb_spec (length c) (SESSION_SALT_SIZE + NONCE_SIZE + TAG_SIZE)) as [Hshort|Hlen].
  { split; [done|]. intros _ _ pt. unfold authentic. by rewrite (proj2 (Nat.leb_gt _ _)). }
  destruct Hl as [He|[Hs Hk]].
  - pose proof He as (Hs & _ & Hl). rewrite Hs. simpl. rewrite (matches_salt_eq c s Hs Hl Hlen).
    case_bool_decide as Hm; simpl.
    + pose proof (body_accepts psk f false c out seen s Hi He Hm Hlen) as [H1 H2]. split; [exact H1|].
      intros Hf _. by apply H2.
    + split; [done|]. intros _ _ pt. unfold authentic. by rewrite (bool_decide_eq_false_2 _ Hm), andb_false_r.
  - rewrite Hs. simpl. destruct (derive_session_keys f (pkt_salt c) s) as [s' [w|]] eqn:Ed; simpl.
    { split; [done|]. intros -> [?|[Hk' Hne]]; [congruence|].
      assert (Hl16 : length (pkt_salt c) = SESSION_SALT_SIZE)
        by (unfold pkt_salt; rewrite length_take; unfold SESSION_SALT_SIZE, NONCE_SIZE, TAG_SIZE in *; lia).
      destruct (derive_ok (pkt_salt c) s Hl16) as (s2 & E2 & _); [by rewrite Hk' | congruence]. }
    pose proof (derive_frame _ _ _ _ _ Ed) as (Hh & Hwi & Ha & _ & Hp & _ & Hset & _).
    pose proof (derive_success _ _ _ _ Ed) as (_ & Hne & (_ & Hsalt & _) & _).
    assert (Hi' : decrypt_inv seen s').
    { destruct Hi as [Hw Hany]. split; [by apply (window_inv_ext seen s) | by rewrite Hset]. }
    assert (He : established psk s') by (eapply derive_established; [exact Ed | by destruct Hk]).
    pose proof (body_accepts psk f true c out seen s' Hi' He (eq_sym Hsalt) Hlen) as [H1 H2].
    rewrite Hsalt, Hp in *. split; [exact H1|]. intros Hf _. by apply H2.
Qed.

Lemma decrypt_run_life psk pkts : forall s seen,
  life psk s -> life psk (decrypt_run s seen pkts).1 /\ peer_direction (decrypt_run s seen pkts).1 = peer_direction s.
Proof.
  induction pkts as [|[f c] rest IH]; intros s seen Hl; simpl; [done|].
  destruct (decrypt_life psk f c [] s Hl) as [Hl' Hp]. unfold decrypt_noexcept.
  destruct (decrypt_impl f c [] s) as [[s' out] ec]. simpl in *. rewrite <- Hp. by apply IH.
Qed.

Lemma accept_spec_iff seen c :
  accept_spec seen c = true <-> (c ∉ seen) /\ forall h, h ∈ seen -> h - c <= REPLAY_WINDOW_BITS.
Proof.
  unfold accept_spec. rewrite andb_true_iff, bool_decide_eq_true, forallb_all.
  split; intros [H1 H2]; (split; [done|]); intros h Hh; apply Z.leb_le; by apply H2.
Qed.

(** C4: the replay protection of a session refines the set of accepted
    counters. Whatever datagrams an instance has been given, in whatever order
    and with whatever library failures: no counter was accepted twice; the
    next datagram is accepted only if it is authentic for the session (its
    length, salt, direction byte and counter are right and its tag opens under
    the session's key, to the plaintext that is returned), its counter was
    never accepted, and it is at most 2048 behind every accepted one; and with
    no library failure those conditions are enough, as long as the instance
    has a salt or still has the PSK to derive its keys from. A datagram is
    reported as a replay only if the counter was accepted or is too old. *)
Theorem replay_protection (psk : list Z) (s : t) (pkts : list (evp_fault * list Z)) (f : evp_fault) (c : list Z) :
  psk <> [] -> born psk s ->
  let '(s1, seen) := decrypt_run s [] pkts in
  let plain := authentic psk (wanted_salt s1 c) (peer_direction s) c in
  let admissible := (pkt_counter c ∉ seen) /\ forall h, h ∈ seen -> h - pkt_counter c <= REPLAY_WINDOW_BITS in
  let '(_, out, ec) := decrypt_noexcept f c s1 in
  NoDup seen /\
  (ec = ec_none -> plain = Some out /\ admissible) /\
  (f = no_fault -> salt_set s1 = true \/ key s1 = psk ->
   forall pt, plain = Some pt -> admissible -> out = pt /\ ec = ec_none) /\
  (ec = ec_replay -> pkt_counter c ∈ seen \/ exists h, h ∈ seen /\ REPLAY_WINDOW_BITS < h - pkt_counter c).
Proof.
  intros Hp Hb. destruct (born_life psk s Hb) as [Hl Ha].
  assert (Hi : decrypt_inv [] s) by (split; [unfold window_inv; by rewrite Ha | done]).
  destruct (decrypt_run_inv s [] pkts Hi (NoDup_nil_2)) as [Hr Hn].
  destruct (decrypt_run_life psk pkts s [] Hl) as [Hl1 Hd].
  destruct (decrypt_run s [] pkts) as [s1 seen]. simpl in Hr, Hn, Hl1, Hd. rewrite <- Hd. cbv zeta.
  pose proof (decrypt_inv_step f c [] seen s1 Hr) as H. unfold decrypt_noexcept.
  pose proof (decrypt_accepts psk f c [] seen s1 Hr Hl1) as [H1 H2].
  destruct (decrypt_impl f c [] s1) as [[s' out] ec]. simpl in H1, H2. split; [done|].
  split; [by rewrite <- accept_spec_iff|]. split.
  { intros Hf Hk pt Hpt Ha'%accept_spec_iff. apply H2; try done. destruct Hk; [by left | by right]. }
  intros ->. destruct H as [_ H]. specialize (H eq_refl). apply not_true_iff_false in H. rewrite accept_spec_iff in H.
  destruct (decide (pkt_counter c ∈ seen)) as [Hin|Hout]; [by left | right].
  destruct (decide (Exists (fun h => REPLAY_WINDOW_BITS < h - pkt_counter c) seen)) as [He|He];
    [by apply list.Exists_exists in He|].
  exfalso. apply H. split; [done|]. intros h Hh. apply Z.nlt_ge. intros Hlt. apply He, list.Exists_exists. by exists h.
Qed.

(** ** Nonces *)

(** The calls on an instance, with the failure the library has on each. *)
Inductive call : Type := Enc (f : evp_fault) (m : list Z) | Dec (f : evp_fault) (c : list Z).

(** The packets a sequence of calls produces. *)
Fixpoint packets (s : t) (calls : list call) : list (list Z) :=
  match calls with
  | [] => []
  | Enc f m :: rest =>
      let '(s', pkt, ec) := encrypt_noexcept f m s in
      if decide (ec = ec_none) then pkt :: packets s' rest else packets s' rest
  | Dec f c :: rest => let '(s', _, _) := decrypt_noexcept f c s in packets s' rest
  end.

(** One encryption: the counter always advances by one; a packet is produced
    only below the limit, and carries the salt and the nonce of the old
    counter. *)
Lemma encrypt_step f m s :
  salt_set s = true -> length (session_salt s) = SESSION_SALT_SIZE -> 0 <= encrypt_counter s < 2 ^ 64 ->
  let '(s', pkt, ec) := encrypt_noexcept f m s in
  s' = set_counter (u64 (encrypt_counter s + 1)) s /\
  (ec = ec_none -> encrypt_counter s < MAX_COUNTER /\ pkt_counter pkt = encrypt_counter s /\
   pkt_salt pkt = session_salt s /\ pkt_nonce pkt = generate_nonce (encrypt_counter s) (local_direction s)).
Proof.
  intros Hs Hl Hc. unfold encrypt_noexcept, encrypt_impl. rewrite Hs. simpl.
  destruct (Z.leb_spec MAX_COUNTER (encrypt_counter s)); [done|].
  assert (Hcnt : forall rest (p := take SESSION_SALT_SIZE (session_salt s) ++
     generate_nonce (encrypt_counter s) (local_direction s) ++ rest),
     pkt_counter p = encrypt_counter s /\ pkt_salt p = session_salt s /\
     pkt_nonce p = generate_nonce (encrypt_counter s) (local_direction s)).
  { intros rest p. assert (Hn : pkt_nonce p = generate_nonce (encrypt_counter s) (local_direction s)).
    { unfold pkt_nonce, pkt_body, p. rewrite <- Hl, firstn_all, drop_app_length.
      rewrite <- (length_nonce (encrypt_counter s) (local_direction s)). apply take_app_length. }
    split_and!; [| |done].
    - unfold pkt_counter. rewrite Hn. unfold generate_nonce. rewrite <- (length_be_bytes 8 (encrypt_counter s)) at 1.
      rewrite take_app_length. apply be_value_be_bytes; [done|]. by change (256 ^ Z.of_nat 8) with (2 ^ 64).
    - unfold pkt_salt, p. rewrite <- Hl, firstn_all. apply take_app_length. }
  destruct f; try done; destruct (gcm_seal _ _ m) as [ct tag];
    (split; [done|]); intros _; split; (done || apply Hcnt).
Qed.

(** A decryption never moves the counter or the salt of an instance that has
    one. *)
Lemma decrypt_counter f c out s :
  salt_set s = true -> let s' := (decrypt_impl f c out s).1.1 in
  salt_set s' = true /\ session_salt s' = session_salt s /\ encrypt_counter s' = encrypt_counter s /\
  local_direction s' = local_direction s.
Proof.
  intros Hs. unfold decrypt_impl, decrypt_body. rewrite Hs. simpl.
  repeat case_bool; try done; destruct f; simpl; try done; destruct (gcm_open _ _ _ _); simpl; try done;
    unfold commit_replay_window; repeat case_bool; done.
Qed.

(** An instance without a salt either stays so or learns the datagram's. *)
Lemma decrypt_learns f c out s :
  salt_set s = false -> let s' := (decrypt_impl f c out s).1.1 in
  salt_set s' = false \/
  salt_set s' = true /\ session_salt s' = pkt_salt c /\ length (pkt_salt c) = SESSION_SALT_SIZE /\
  encrypt_counter s' = be_value (take 6 (pkt_salt c)).
Proof.
  intros Hs. unfold decrypt_impl. destruct (_ <? _)%nat; [by left|]. rewrite Hs. simpl.
  destruct (derive_session_keys f (pkt_salt c) s) as [s1 [w|]] eqn:Ed; [by left|].
  apply derive_success in Ed as (Hl & _ & (Hset & Hsalt & _) & _ & Hc).
  unfold decrypt_body. repeat case_bool; try (by left); try (by right); destruct f; simpl; try (by left); try (by right);
    destruct (gcm_open _ _ _ _); simpl; try (by left); right;
    unfold commit_replay_window; repeat case_bool; done.
Qed.

(** What every packet of an instance with salt [salt] and direction [d]
    carries, counted from [n]. *)
Definition numbered (salt : list Z) (d n : Z) (p : list Z) : Prop :=
  n <= pkt_counter p < MAX_COUNTER /\ pkt_salt p = salt /\ pkt_nonce p = generate_nonce (pkt_counter p) d.

Lemma packets_keyed calls : forall s,
  salt_set s = true -> length (session_salt s) = SESSION_SALT_SIZE ->
  0 <= encrypt_counter s -> encrypt_counter s + Z.of_nat (length calls) < 2 ^ 64 ->
  Forall (numbered (session_salt s) (local_direction s) (encrypt_counter s)) (packets s calls) /\
  NoDup (pkt_counter <$> packets s calls).
Proof.
  induction calls as [|[f m|f c] rest IH]; intros s Hs Hl H0 Hn; simpl.
  { split; [constructor | apply NoDup_nil_2]. }
  - cbn [length] in Hn. pose proof (encrypt_step f m s Hs Hl ltac:(lia)) as Hstep.
    destruct (encrypt_noexcept f m s) as [[s' pkt] ec]. destruct Hstep as [-> Hec].
    set (s' := set_counter _ s) in *.
    assert (Hc' : encrypt_counter s' = encrypt_counter s + 1) by (apply u64_small; lia).
    destruct (IH s' Hs Hl ltac:(lia) ltac:(lia)) as [HF HN].
    assert (HF' : Forall (numbered (session_salt s) (local_direction s) (encrypt_counter s)) (packets s' rest)).
    { eapply List.Forall_impl; [|exact HF]. intros p (Hp & Hp'). split; [lia | exact Hp']. }
    case_decide as E; [|done]. destruct (Hec E) as (Hlt & Heq & Hsa & Hno). split.
    + constructor; [|done]. split; [lia|]. by rewrite Heq.
    + rewrite fmap_cons, Heq. constructor; [|done]. intros (p & Hp & Hin)%list_elem_of_fmap.
      rewrite list.Forall_forall in HF. destruct (HF p Hin) as [HF0 _]. lia.
  - cbn [length] in Hn. destruct (decrypt_counter f c [] s Hs) as (H1 & H2 & H3 & H4). unfold decrypt_noexcept.
    destruct (decrypt_impl f c [] s) as [[s' out] ec]. simpl in *. rewrite <- H2, <- H3, <- H4.
    apply IH; [done | by rewrite H2 | lia | lia].
Qed.

Lemma salt_counter salt : bytes_ok salt -> 0 <= be_value (take 6 salt) < 2 ^ 48.
Proof. intros Hok. apply be_value_short; [by apply Forall_take|]. rewrite length_take. lia. Qed.

Lemma packets_unkeyed calls : forall s,
  salt_set s = false -> Forall (fun x => match x with Dec _ c => bytes_ok c | _ => True end) calls ->
  Z.of_nat (length calls) <= 2 ^ 63 ->
  exists salt d, Forall (numbered salt d 0) (packets s calls) /\ NoDup (pkt_counter <$> packets s calls).
Proof.
  induction calls as [|[f m|f c] rest IH]; intros s Hs Hok Hn; simpl.
  { exists [], 0. split; [constructor | apply NoDup_nil_2]. }
  - apply list.Forall_cons in Hok as [_ Hok]. unfold encrypt_noexcept, encrypt_impl. rewrite Hs. simpl.
    apply IH; [done | done | simpl in Hn; lia].
  - apply list.Forall_cons in Hok as [Hc Hok]. pose proof (decrypt_learns f c [] s Hs) as Hd. unfold decrypt_noexcept.
    destruct (decrypt_impl f c [] s) as [[s' out] ec]. simpl in *. destruct Hd as [Hd|(H1 & H2 & H3 & H4)].
    + apply IH; [done | done | lia].
    + assert (Hb : 0 <= encrypt_counter s' < 2 ^ 48) by (rewrite H4; apply salt_counter, Forall_take, Hc).
      destruct (packets_keyed rest s') as [HF HN]; [done | by rewrite H2 | lia | lia |].
      exists (session_salt s'), (local_direction s'). split; [|done].
      eapply List.Forall_impl; [|exact HF]. intros p (Hp & Hp'). split; [lia | exact Hp'].
Qed.

(** C11: no nonce is ever used for two packets of an instance, the client's
    or the server's: through any interleaving of encryptions and decryptions,
    of datagrams of any kind and with any library failures, the packets it
    produces all carry one salt and one direction, and pairwise distinct
    counters, each below 2^48, from which their nonces are built (at most 2^63
    calls; the 64-bit counter refuses to encrypt from 2^48 on). *)
Theorem nonces_unique (psk : list Z) (s : t) (calls : list call) :
  born psk s -> Forall (fun x => match x with Dec _ c => bytes_ok c | _ => True end) calls ->
  Z.of_nat (length calls) <= 2 ^ 63 ->
  exists salt direction,
    Forall (fun p => pkt_salt p = salt /\ pkt_nonce p = generate_nonce (pkt_counter p) direction /\
                     pkt_counter p < MAX_COUNTER) (packets s calls) /\
    NoDup (pkt_counter <$> packets s calls).
Proof.
  intros Hb Hok Hn. enough (H : exists salt d, Forall (numbered salt d 0) (packets s calls) /\ NoDup (pkt_counter <$> packets s calls)).
  { destruct H as (salt & d & HF & HN). exists salt, d. split; [|done].
    eapply List.Forall_impl; [|exact HF]. intros p ([_ H1] & H2 & H3). done. }
  destruct Hb as [[d ->]|(f & d & salt & Hnew & Hne & Hsok)]; [by apply packets_unkeyed|].
  unfold Crypto_new in Hnew. rewrite bool_decide_eq_false_2 in Hnew by done.
  destruct (derive_session_keys f salt (fresh psk d false)) as [s' [w|]] eqn:Ed; [done|]. simplify_eq.
  apply derive_success in Ed as (Hl & _ & (Hs & Hsalt & _) & _ & Hc). pose proof (salt_counter salt Hsok) as Hb.
  destruct (packets_keyed calls s) as [HF HN]; [done | by rewrite Hsalt | lia | lia |].
  exists (session_salt s), (local_direction s). split; [|done].
  eapply List.Forall_impl; [|exact HF]. intros p (Hp & Hp'). split; [lia | exact Hp'].
Qed.

End Sessions.

(** ** A concrete cipher, for the witnesses: the identity with a keyed tag. *)

Module ToyAead.

Definition toy_tag (k : list Z) : list Z := take TAG_SIZE (k ++ replicate TAG_SIZE 0).

#[export] Instance toy : Aead := {
  hkdf ikm salt info := take AES_KEY_SIZE (ikm ++ salt ++ info);
  gcm_seal k n pt := (pt, toy_tag k);
  gcm_open k n ct tag := if bool_decide (tag = toy_tag k) then Some ct else None }.

#[export] Instance toy_laws : AeadLaws toy.
Proof.
  split; intros; simpl.
  - by rewrite bool_decide_eq_true_2.
  - done.
  - unfold toy_tag. rewrite length_take, length_app, length_replicate. lia.
Qed.

Definition psk : list Z := bytes_of_string "correct horse".
Definition salt : list Z := [0; 0; 0; 0; 1; 2; 3; 4; 5; 6; 7; 8; 9; 10; 11; 12].

End ToyAead.

Lemma session_delivery_witness :
  exists client,
    Crypto_new (A := ToyAead.toy) no_fault ToyAead.psk NONCE_DIR_CLIENT ToyAead.salt false = Ret client /\
    decrypt_all (A := ToyAead.toy) (fresh ToyAead.psk NONCE_DIR_SERVER true)
      ((fun i => (encrypt_all (A := ToyAead.toy) client [[1]; [2; 2]; [3]]).2 !!! i) <$> [2; 0]%nat) =
    [([3], ec_none); ([1], ec_none)].
Proof.
  apply (session_delivery (L := ToyAead.toy_laws) ToyAead.psk ToyAead.salt [[1]; [2; 2]; [3]] [2; 0]%nat).
  - done.
  - done.
  - by vm_compute.
  - simpl. split_and!; try done; try (by apply not_elem_of_nil).
    + intros H%list_elem_of_singleton. done.
    + repeat constructor. by vm_compute.
  - simpl. repeat constructor; lia.
Defined.

Lemma nonces_unique_witness :
  let hello := sealed (A := ToyAead.toy) ToyAead.psk ToyAead.salt NONCE_DIR_CLIENT 7 [1] in
  let calls := [Enc no_fault [9]; Dec no_fault hello; Enc no_fault [1]; Enc fault_iv [2]; Dec no_fault hello; Enc no_fault [3]] in
  let ps := packets (A := ToyAead.toy) (fresh ToyAead.psk NONCE_DIR_SERVER true) calls in
  length ps = 2%nat /\ NoDup (pkt_counter <$> ps).
Proof.
  intros hello calls ps. split; [by vm_compute|].
  destruct (nonces_unique (A := ToyAead.toy) ToyAead.psk (fresh ToyAead.psk NONCE_DIR_SERVER true) calls) as (salt & d & _ & H).
  - left. by eexists.
  - repeat constructor; by eapply bool_decide_unpack.
  - vm_compute. congruence.
  - exact H.
Defined.

Lemma replay_protection_witness :
  let first := sealed (A := ToyAead.toy) ToyAead.psk ToyAead.salt NONCE_DIR_CLIENT 7 [1] in
  let next := sealed (A := ToyAead.toy) ToyAead.psk ToyAead.salt NONCE_DIR_CLIENT 5 [2; 3] in
  let '(s1, seen) := decrypt_run (A := ToyAead.toy) (fresh ToyAead.psk NONCE_DIR_SERVER true) [] [(no_fault, first)] in
  seen = [7] /\ (decrypt_noexcept (A := ToyAead.toy) no_fault next s1).1.2 = [2; 3].
Proof.
  intros first next.
  pose proof (replay_protection (A := ToyAead.toy) ToyAead.psk (fresh ToyAead.psk NONCE_DIR_SERVER true)
    [(no_fault, first)] no_fault next ltac:(done) ltac:(left; by eexists)) as H.
  destruct (decrypt_run (A := ToyAead.toy) _ [] [(no_fault, first)]) as [s1 seen] eqn:E.
  vm_compute in E. injection E as <- <-. split; [done|].
  destruct (decrypt_noexcept _ _ _) as [[s2 out] ec]. cbv zeta in H. destruct H as (_ & _ & H & _).
  destruct (H eq_refl) with (pt := [2; 3]) as [-> _]; [by left | by vm_compute | | done].
  split; [by eapply bool_decide_unpack; vm_compute|].
  intros h Hh%list_elem_of_singleton. subst h. by vm_compute.
Defined.

Lemma decrypt_error_frame_witness :
  let s := (decrypt_impl (A := ToyAead.toy) no_fault
    (sealed (A := ToyAead.toy) ToyAead.psk ToyAead.salt NONCE_DIR_CLIENT 7 [1]) []
    (fresh ToyAead.psk NONCE_DIR_SERVER true)).1.1 in
  (decrypt_impl (A := ToyAead.toy) no_fault
    (sealed (A := ToyAead.toy) ToyAead.psk ToyAead.salt NONCE_DIR_CLIENT 7 [1]) [] s).1.1 = s.
Proof.
  intros s. apply (decrypt_error_frame (A := ToyAead.toy)); [reflexivity|]. vm_compute. congruence.
Defined.

Lemma first_packet_rollback_witness :
  let '(s', _, ec) := decrypt_impl (A := ToyAead.toy) no_fault (replicate 50 0) []
    (fresh ToyAead.psk NONCE_DIR_SERVER true) in
  ec = ec_permission_denied /\ salt_set s' = false.
Proof.
  pose proof (first_packet_rollback (A := ToyAead.toy) ToyAead.psk NONCE_DIR_SERVER
    (replicate 50 0) [] ltac:(vm_compute; lia)) as H.
  destruct (decrypt_impl _ _ _ _) as [[s' out] ec] eqn:E.
  vm_compute in E. simplify_eq. split; [done|]. apply H. done.
Defined.

Lemma first_packet_fault_keeps_salt_witness :
  let '(s', _, ec) := decrypt_impl (A := ToyAead.toy) fault_reset
    (replicate 24 0 ++ [1] ++ replicate 25 0) [] (fresh ToyAead.psk NONCE_DIR_SERVER true) in
  ec = ec_io_error /\ salt_set s' = true.
Proof.
  pose proof (first_packet_fault_keeps_salt (A := ToyAead.toy) ToyAead.psk NONCE_DIR_SERVER
    (replicate 24 0 ++ [1] ++ replicate 25 0) [] ltac:(done) ltac:(vm_compute; lia)
    ltac:(reflexivity) ltac:(by vm_compute)) as H.
  destruct (decrypt_impl _ _ _ _) as [[s' out] ec]. destruct H as (H1 & H2 & _). by split.
Defined.

(** A fresh instance that accepts a datagram has learned exactly its salt. *)
Lemma fresh_decrypt_salt {A : Aead} f c out psk direction s' pt :
  decrypt_impl f c out (fresh psk direction true) = (s', pt, ec_none) ->
  salt_set s' = true /\ session_salt s' = pkt_salt c /\ length (pkt_salt c) = SESSION_SALT_SIZE.
Proof.
  unfold decrypt_impl. destruct (length c <? _)%nat eqn:El; [done|]. zb_props. simpl.
  assert (Hl : length (pkt_salt c) = SESSION_SALT_SIZE).
  { unfold pkt_salt. rewrite length_take. unfold SESSION_SALT_SIZE, NONCE_SIZE, TAG_SIZE in *. lia. }
  destruct (derive_session_keys f (pkt_salt c) (fresh psk direction true)) as [s1 [w|]] eqn:Ed; [done|].
  assert (Hs1 : salt_set s1 = true /\ session_salt s1 = pkt_salt c).
  { rewrite derive_session_keys_eq in Ed. unfold commit_session_keys in Ed. repeat (case_bool; try done). by simplify_eq. }
  unfold decrypt_body. intros H. rewrite Hl.
  assert (Hs' : s' = commit_replay_window (pkt_counter c) s1).
  { repeat (case_bool; try done); destruct f; try done; destruct (gcm_open _ _ _ _); by simplify_eq. }
  subst s'. destruct Hs1 as [H1 H2]. rewrite commit_salt. split_and!; [done | | done].
  unfold commit_replay_window. repeat case_bool; done.
Qed.

(** ... and its replay window has seen exactly the counter of that datagram. *)
Lemma fresh_decrypt_window {A : Aead} f c out psk direction s' pt :
  decrypt_impl f c out (fresh psk direction true) = (s', pt, ec_none) -> window_inv [pkt_counter c] s'.
Proof.
  intros H. pose proof (decrypt_inv_step f c out [] (fresh psk direction true) ltac:(done)) as Hi.
  rewrite H in Hi. simpl in Hi. apply Hi.
Qed.

(** ** A keyed instance through one call, whatever the library does *)

Section Keyed.
Context {A : Aead}.

(** Encryption: the keys stay; a packet is produced only as a seal. *)
Lemma encrypt_keyed psk salt f pt out s :
  keyed psk salt s -> length salt = SESSION_SALT_SIZE -> 0 <= encrypt_counter s ->
  let '(s', pkt, ec) := encrypt_impl f pt out s in
  keyed psk salt s' /\ local_direction s' = local_direction s /\ peer_direction s' = peer_direction s /\
  0 <= encrypt_counter s' /\
  (ec = ec_none -> exists n, 0 <= n < 2 ^ 64 /\ pkt = sealed psk salt (local_direction s) n pt).
Proof.
  intros (Hs & Hsalt & He & Hd) Hl Hc. unfold encrypt_impl, sealed. rewrite Hs. simpl.
  assert (Hk : keyed psk salt (set_counter (u64 (encrypt_counter s + 1)) s)) by done.
  assert (0 <= u64 (encrypt_counter s + 1)) by (unfold u64; apply Z.mod_pos_bound; lia).
  destruct (Z.leb_spec MAX_COUNTER (encrypt_counter s)); [done|].
  rewrite He, Hsalt. simpl. rewrite <- Hl, firstn_all.
  destruct f; try done; destruct (gcm_seal _ _ pt) as [ct tag] eqn:Eg; split_and!; try done; intros _;
    exists (encrypt_counter s); rewrite Eg; unfold MAX_COUNTER in *; (split; [lia | done]).
Qed.

(** Decryption: the keys and the send counter stay; a plaintext comes only
    out of the cipher, under the peer's key. *)
Lemma decrypt_keyed psk salt f c out s :
  keyed psk salt s ->
  let '(s', pt, ec) := decrypt_impl f c out s in
  keyed psk salt s' /\ local_direction s' = local_direction s /\ peer_direction s' = peer_direction s /\
  encrypt_counter s' = encrypt_counter s /\
  (ec = ec_none ->
     gcm_open (direction_key psk salt (peer_direction s)) (pkt_nonce c) (pkt_cipher c) (pkt_tag c) = Some pt).
Proof.
  intros Hk. pose proof Hk as (Hs & _ & _ & Hd). unfold decrypt_impl, decrypt_body. rewrite Hs, Hd. simpl.
  assert (Hc : forall n, encrypt_counter (commit_replay_window n s) = encrypt_counter s)
    by (intros n; unfold commit_replay_window; repeat case_bool; done).
  destruct (commit_directions (pkt_counter c) s) as [H1 H2].
  pose proof (keyed_commit psk salt (pkt_counter c) s Hk).
  repeat case_bool; try done; destruct f; try done;
    destruct (gcm_open (direction_key psk salt (peer_direction s)) _ _ _); by rewrite ?Hc, ?H1, ?H2.
Qed.

(** The first packet: a fresh instance that accepts it is keyed by its salt. *)
Lemma fresh_decrypt_keyed f c out psk direction s' pt :
  decrypt_impl f c out (fresh psk direction true) = (s', pt, ec_none) ->
  keyed psk (pkt_salt c) s' /\ local_direction s' = direction /\
  peer_direction s' = peer_direction (fresh psk direction true) /\ 0 <= encrypt_counter s' /\
  gcm_open (direction_key psk (pkt_salt c) (peer_direction s')) (pkt_nonce c) (pkt_cipher c) (pkt_tag c)
    = Some pt.
Proof.
  unfold decrypt_impl. destruct (length c <? _)%nat; [done|]. simpl.
  destruct (derive_session_keys f (pkt_salt c) (fresh psk direction true)) as [s1 [w|]] eqn:Ed; [done|].
  assert (Hk : keyed psk (pkt_salt c) s1 /\ local_direction s1 = direction /\
               peer_direction s1 = peer_direction (fresh psk direction true) /\ 0 <= encrypt_counter s1).
  { rewrite derive_session_keys_eq in Ed. unfold commit_session_keys in Ed. repeat (case_bool; try done). injection Ed as <-.
    split_and!; try done. apply be_value_range. }
  destruct Hk as (Hk & H1 & H2 & H3). pose proof Hk as (_ & _ & _ & Hd).
  destruct (commit_directions (pkt_counter c) s1) as [H4 H5].
  pose proof (keyed_commit psk (pkt_salt c) (pkt_counter c) s1 Hk) as Hkc.
  assert (Hn : encrypt_counter (commit_replay_window (pkt_counter c) s1) = encrypt_counter s1)
    by (unfold commit_replay_window; repeat case_bool; done).
  unfold decrypt_body. rewrite Hd. simpl. intros H.
  assert (s' = commit_replay_window (pkt_counter c) s1 /\
     gcm_open (direction_key psk (pkt_salt c) (peer_direction s1)) (pkt_nonce c) (pkt_cipher c)
       (pkt_tag c) = Some pt) as [-> Ho].
  { repeat (case_bool; try done); destruct f; try done;
      destruct (gcm_open (direction_key _ _ _) _ _ _); by simplify_eq. }
  rewrite H4, H5, H1, H2, Hn in *. done.
Qed.
End Keyed.
