(* ===== verification/Effects.v ===== *)
(** * Effects: a small state and trace monad

    The strand-bound member functions of the tunnels mutate their object and
    make things happen outside it (a datagram handed to the wire, a completion
    posted to a caller). A computation is a state-passing function that also
    returns the trace of what it made happen, in order. *)

From Stdlib Require Import ZArith Lia.
From stdpp Require Import base list.
From S2P Require Import Prelude.

Definition M (S E A : Type) : Type := S -> A * S * list E.

Section Monad.
Context {S E : Type}.

Definition eret {A} (a : A) : M S E A := fun s => (a, s, []).

Definition ebind {A B} (m : M S E A) (k : A -> M S E B) : M S E B := fun s =>
  let '(a, s1, e1) := m s in
  let '(b, s2, e2) := k a s1 in
  (b, s2, e1 ++ e2).

Definition egets {A} (f : S -> A) : M S E A := fun s => (f s, s, []).
Definition emodify (f : S -> S) : M S E unit := fun s => (tt, f s, []).
Definition emit (ev : E) : M S E unit := fun s => (tt, s, [ev]).
Definition ewhen (b : bool) (m : M S E unit) : M S E unit := if b then m else eret tt.

(** [for (x : xs) body(x);] *)
Fixpoint efor {A} (body : A -> M S E unit) (xs : list A) : M S E unit :=
  match xs with
  | [] => eret tt
  | x :: xs' => ebind (body x) (fun _ => efor body xs')
  end.

(** Several events in order. *)
Definition emit_all (evs : list E) : M S E unit := efor emit evs.

(** The final state and the trace of a computation. *)
Definition final {A} (m : M S E A) (s : S) : S := (m s).1.2.
Definition result {A} (m : M S E A) (s : S) : A := (m s).1.1.
Definition trace {A} (m : M S E A) (s : S) : list E := (m s).2.
End Monad.

Declare Scope eff_scope.
Delimit Scope eff_scope with eff.
Notation "'let*' x ':=' m 'in' k" := (ebind m (fun x => k))
  (at level 10, x name, m at level 100, k at level 200) : eff_scope.
Notation "m ;;; k" := (ebind m (fun _ => k))
  (at level 100, k at level 200, right associativity) : eff_scope.
#[global] Open Scope eff_scope.

(** ** Pointwise equality of computations *)

Definition meq {S E A} (m1 m2 : M S E A) : Prop := forall s, m1 s = m2 s.
Infix "≅" := meq (at level 70) : eff_scope.

#[export] Instance meq_equiv {S E A} : Equivalence (@meq S E A).
Proof. split; unfold meq; [done | intros ???; by symmetry | intros ??? H1 H2 s; by rewrite H1]. Qed.

#[export] Instance ebind_proper {S E A B} :
  Proper (meq ==> pointwise_relation A meq ==> meq) (@ebind S E A B).
Proof.
  intros m1 m2 Hm k1 k2 Hk s. unfold ebind. rewrite Hm.
  destruct (m2 s) as [[a s1] e1]. by rewrite (Hk a s1).
Qed.

Lemma ebind_assoc {S E A B C} (m : M S E A) (k : A -> M S E B) (h : B -> M S E C) :
  ebind (ebind m k) h ≅ ebind m (fun a => ebind (k a) h).
Proof.
  intros s. unfold ebind. destruct (m s) as [[a s1] e1]. destruct (k a s1) as [[b s2] e2].
  destruct (h b s2) as [[c s3] e3]. by rewrite app_assoc.
Qed.

Lemma ebind_ret_l {S E A B} (a : A) (k : A -> M S E B) : ebind (eret a) k ≅ k a.
Proof. intros s. unfold ebind, eret. by destruct (k a s) as [[b s1] e1]. Qed.

Lemma efor_app {S E A} (body : A -> M S E unit) xs ys :
  efor body (xs ++ ys) ≅ (efor body xs ;;; efor body ys).
Proof.
  induction xs as [|x xs IH]; simpl; [intros s; by rewrite ebind_ret_l|].
  intros s. rewrite ebind_assoc. apply ebind_proper; [done|]. intros []. apply IH.
Qed.

(** ** Running a sequence *)

Lemma ebind_run {S E A B} (m : M S E A) (k : A -> M S E B) s :
  ebind m k s =
  (result (k (result m s)) (final m s), final (k (result m s)) (final m s),
   trace m s ++ trace (k (result m s)) (final m s)).
Proof.
  unfold ebind, result, final, trace. destruct (m s) as [[a s1] e1]. simpl.
  by destruct (k a s1) as [[b s2] e2].
Qed.

(** Two continuations that agree on what the first part returns. *)
Lemma bind_ext {S E A B} (m : M S E A) (k1 k2 : A -> M S E B) s :
  k1 (result m s) (final m s) = k2 (result m s) (final m s) -> ebind m k1 s = ebind m k2 s.
Proof. unfold ebind, result, final. destruct (m s) as [[a s1] e1]. simpl. by intros ->. Qed.

Lemma final_bind {S E A B} (m : M S E A) (k : A -> M S E B) s :
  final (ebind m k) s = final (k (result m s)) (final m s).
Proof. unfold final at 1. by rewrite ebind_run. Qed.

Lemma trace_bind {S E A B} (m : M S E A) (k : A -> M S E B) s :
  trace (ebind m k) s = trace m s ++ trace (k (result m s)) (final m s).
Proof. unfold trace at 1. by rewrite ebind_run. Qed.

Lemma result_bind {S E A B} (m : M S E A) (k : A -> M S E B) s :
  result (ebind m k) s = result (k (result m s)) (final m s).
Proof. unfold result at 1. by rewrite ebind_run. Qed.

Lemma gets_bind {S E X Y} (f : S -> X) (k : X -> M S E Y) s : ebind (egets f) k s = k (f s) s.
Proof. unfold ebind, egets. by destruct (k _ _) as [[x s'] ev]. Qed.

Lemma modify_bind {S E X} (f : S -> S) (k : M S E X) s : (emodify f ;;; k) s = k (f s).
Proof. unfold ebind, emodify. by destruct (k _) as [[x s'] ev]. Qed.

Lemma final_gets {S E X Y} (f : S -> X) (k : X -> M S E Y) s :
  final (ebind (egets f) k) s = final (k (f s)) s.
Proof. unfold final. by rewrite gets_bind. Qed.
Lemma trace_gets {S E X Y} (f : S -> X) (k : X -> M S E Y) s :
  trace (ebind (egets f) k) s = trace (k (f s)) s.
Proof. unfold trace. by rewrite gets_bind. Qed.
Lemma result_gets {S E X Y} (f : S -> X) (k : X -> M S E Y) s :
  result (ebind (egets f) k) s = result (k (f s)) s.
Proof. unfold result. by rewrite gets_bind. Qed.
Lemma final_modify {S E X} (f : S -> S) (k : M S E X) s : final (emodify f ;;; k) s = final k (f s).
Proof. unfold final. by rewrite modify_bind. Qed.
Lemma trace_modify {S E X} (f : S -> S) (k : M S E X) s : trace (emodify f ;;; k) s = trace k (f s).
Proof. unfold trace. by rewrite modify_bind. Qed.
Lemma result_modify {S E X} (f : S -> S) (k : M S E X) s : result (emodify f ;;; k) s = result k (f s).
Proof. unfold result. by rewrite modify_bind. Qed.

Lemma emit_all_final {S E} (evs : list E) (s : S) : final (emit_all evs) s = s.
Proof. revert s. induction evs as [|ev evs IH]; intros s; [done|]. unfold emit_all. simpl. rewrite final_bind. apply IH. Qed.
Lemma emit_all_trace {S E} (evs : list E) (s : S) : trace (emit_all evs) s = evs.
Proof.
  revert s. induction evs as [|ev evs IH]; intros s; [done|]. unfold emit_all. simpl. rewrite trace_bind.
  simpl. f_equal. apply IH.
Qed.

(** ** Invariants of a computation

    [keeps R m]: whatever state [m] starts from, the start and end states and
    the trace are related by [R]; [R] is closed under sequencing. *)

Definition keeps {S E A} (R : S -> list E -> S -> Prop) (m : M S E A) : Prop :=
  forall s, R s (trace m s) (final m s).

Class Compositional {S E} (R : S -> list E -> S -> Prop) : Prop := {
  comp_refl s : R s [] s;
  comp_trans s1 s2 s3 e1 e2 : R s1 e1 s2 -> R s2 e2 s3 -> R s1 (e1 ++ e2) s3 }.

Section Keeps.
Context {S E : Type} (R : S -> list E -> S -> Prop) `{!Compositional R}.

Lemma keeps_ret {A} (a : A) : keeps R (eret a).
Proof. intros s. apply comp_refl. Qed.

Lemma keeps_gets {A} (f : S -> A) : keeps R (egets f).
Proof. intros s. apply comp_refl. Qed.

Lemma keeps_bind {A B} (m : M S E A) (k : A -> M S E B) :
  keeps R m -> (forall a, keeps R (k a)) -> keeps R (ebind m k).
Proof.
  intros Hm Hk s. rewrite final_bind, trace_bind. eapply comp_trans; [apply Hm | apply Hk].
Qed.

Lemma keeps_when b (m : M S E unit) : keeps R m -> keeps R (ewhen b m).
Proof. destruct b; [done|]. intros _. apply keeps_ret. Qed.

Lemma keeps_for {A} (body : A -> M S E unit) xs : (forall x, keeps R (body x)) -> keeps R (efor body xs).
Proof. intros Hb. induction xs; simpl; [apply keeps_ret|]. apply keeps_bind; auto. Qed.

Lemma keeps_for_in {A} (body : A -> M S E unit) xs :
  (forall x, x ∈ xs -> keeps R (body x)) -> keeps R (efor body xs).
Proof.
  induction xs as [|x xs IH]; intros Hb; simpl; [apply keeps_ret|].
  apply keeps_bind; [apply Hb, elem_of_cons; by left | intros _; apply IH].
  intros y Hy. apply Hb, elem_of_cons. by right.
Qed.

Lemma keeps_modify (f : S -> S) : (forall s, R s [] (f s)) -> keeps R (emodify f).
Proof. intros H s. apply H. Qed.

Lemma keeps_emit (ev : E) : (forall s, R s [ev] s) -> keeps R (emit ev).
Proof. intros H s. apply H. Qed.
End Keeps.

Create HintDb keeps.
#[export] Hint Resolve keeps_ret keeps_gets keeps_bind keeps_when keeps_for : keeps.

(** Walk the syntax of a computation: sequencing, branches, loops. What is
    left are the updates and the calls. *)
Ltac keeps_step :=
  match goal with
  | |- keeps _ (ebind _ _) => apply keeps_bind; [try apply _| |intros ?]
  | |- keeps _ (eret _) => apply keeps_ret; apply _
  | |- keeps _ (egets _) => apply keeps_gets; apply _
  | |- keeps _ (efor _ _) => apply keeps_for; [apply _|intros ?]
  | |- keeps _ (ewhen _ _) => apply keeps_when; [apply _|]
  | |- keeps _ (if ?b then _ else _) => destruct b eqn:?
  | |- keeps _ (match ?x with _ => _ end) => destruct x eqn:?
  end.
Ltac keeps_walk := repeat keeps_step.
