(* ===== verification/Kcp.v ===== *)
(** * Kcp: the adapter over the KCP library and the FEC codec

    The protocol machine [kcp::Kcp] and the Reed-Solomon codec
    ([kcp::internal::FecEncoder], [FecDecoder]) are a third-party package:
    they are the class parameters [Kcp] and [FecCodec], with the documented
    behaviour the proxy relies on in [KcpLaws] and [FecLaws]. [KcpWrapper] is
    kcp_wrapper.cpp/.hpp itself. *)

From Stdlib Require Import ZArith Lia.
From stdpp Require Import base list strings.
From S2P Require Import Prelude Config Runtime.

(** ** The library *)

(** A datagram the library hands to its output callback, with the value
    [rto()] has at that moment. *)
Record output := mkOutput { o_rto : Z; o_data : list Z }.

Class Kcp := {
  kcp_state : Type;
  kcp_new : Z -> kcp_state;
  NoDelay : Z -> Z -> Z -> Z -> kcp_state -> kcp_state;
  WndSize : Z -> Z -> kcp_state -> kcp_state;
  SetMtu : Z -> kcp_state -> kcp_state * Z;
  Send : list Z -> kcp_state -> kcp_state * Z;
  PeekSize : kcp_state -> Z;
  Recv : nat -> kcp_state -> kcp_state * Z * list Z;
  Input : Z -> list Z -> kcp_state -> kcp_state * Z * list output;
  Update : Z -> kcp_state -> kcp_state * list output;
  Flush : Z -> kcp_state -> kcp_state * list output;
  wait_snd : kcp_state -> Z;
  (** The messages [Recv] returns in turn if nothing more is input. *)
  rcv_queue : kcp_state -> list (list Z) }.

(** [PeekSize] is the size of the next message, negative when there is none;
    [Recv] into a buffer that is large enough returns that message whole; a
    [Send] does not touch the receive side, and the protocol clock does not
    make received messages disappear. *)
Class KcpLaws (K : Kcp) : Prop := {
  peek_empty k : rcv_queue k = [] -> PeekSize k = -1;
  peek_head k m q : rcv_queue k = m :: q -> PeekSize k = Z.of_nat (length m);
  recv_head k m q n : rcv_queue k = m :: q -> (length m <= n)%nat ->
    exists k', Recv n k = (k', Z.of_nat (length m), m) /\ rcv_queue k' = q /\ wait_snd k' = wait_snd k;
  send_rcv k d : rcv_queue (Send d k).1 = rcv_queue k;
  send_empty k : (Send [] k).2 < 0;
  wait_snd_nonneg k : 0 <= wait_snd k }.

(** The erasure codec: [Encode clock frame rto] returns the frame with its
    header written and the parity packets of a completed set. *)
Class FecCodec := {
  enc_state : Type;
  dec_state : Type;
  fec_new_encoder : Z -> Z -> nat -> option enc_state;
  fec_new_decoder : Z -> Z -> option dec_state;
  Encode : Z -> list Z -> Z -> enc_state -> enc_state * list Z * list (list Z);
  Decode : Z -> list Z -> dec_state -> dec_state * list (list Z) }.

(** Little-endian 16 bits at an offset: [data[i] | data[i+1] << 8]. *)
Definition le16_at (l : list Z) (i : nat) : Z :=
  u16 (Z.lor (byte_at l i) (Z.shiftl (byte_at l (S i)) 8)).

Definition kTypeData : Z := 241.
Definition kTypeParity : Z := 242.
Definition kTypeOob : Z := 243.

(** [Encode] keeps the size and the payload of the frame, writes type
    [kTypeData] and a length field that counts itself behind the reserved
    prefix, and emits no parity at all for a burst window of zero. *)
Class FecLaws (F : FecCodec) : Prop := {
  encode_frame clock frame rto enc :
    (FEC_CRYPTO_RESERVE + 8 <= length frame)%nat -> Z.of_nat (length frame) < 65536 ->
    let '(_, frame', _) := Encode clock frame rto enc in
    length frame' = length frame /\
    drop (FEC_CRYPTO_RESERVE + 8) frame' = drop (FEC_CRYPTO_RESERVE + 8) frame /\
    le16_at (drop FEC_CRYPTO_RESERVE frame') 4 = kTypeData /\
    le16_at (drop FEC_CRYPTO_RESERVE frame') 6 =
      Z.of_nat (length frame - FEC_CRYPTO_RESERVE - 6);
  encode_no_burst clock frame enc :
    let '(_, _, parity) := Encode clock frame 0 enc in parity = [];
  encode_rto_data clock frame r1 r2 enc :
    (Encode clock frame r1 enc).1.2 = (Encode clock frame r2 enc).1.2 }.

(** ** [KcpWrapper] *)

Module KcpWrapper.
Section WithKcp.
Context {K : Kcp}.

Record t := mk { kcp : kcp_state; current_ms : Z; updated : bool }.

Definition KCP_RECV_MSG_TOO_BIG : Z := -100.

(** [configure()]. *)
Definition configure (tun : KcpTuning) (k : kcp_state) : kcp_state :=
  (SetMtu (mtu tun) (WndSize (sndwnd tun) (rcvwnd tun)
     (NoDelay KCP_NODELAY KCP_INTERVAL_MS KCP_RESEND KCP_NC k))).1.

(** The constructor. *)
Definition create (tun : KcpTuning) (conv : Z) : t := mk (configure tun (kcp_new conv)) 0 false.

Definition send (data : list Z) (w : t) : t * Z :=
  let '(k, ret) := Send data (kcp w) in (mk k (current_ms w) (updated w), ret).

(** [recv(std::vector&)]. *)
Definition recv_vector (w : t) : t * Z * list Z :=
  let size := PeekSize (kcp w) in
  if size <=? 0 then (w, 0, [])
  else
    let '(k, got, buf) := Recv (Z.to_nat size) (kcp w) in
    let w' := mk k (current_ms w) (updated w) in
    if got <? 0 then (w', got, []) else (w', got, take (Z.to_nat got) buf).

(** [recv(uint8_t*, size_t)]. *)
Definition recv_fixed (size : nat) (w : t) : t * Z * list Z :=
  let msg_size := PeekSize (kcp w) in
  if msg_size <=? 0 then (w, 0, [])
  else if (size <? Z.to_nat msg_size)%nat then (w, KCP_RECV_MSG_TOO_BIG, [])
  else
    let '(k, got, buf) := Recv (Z.to_nat msg_size) (kcp w) in
    (mk k (current_ms w) (updated w), got, buf).

Definition input (data : list Z) (w : t) : t * Z * list output :=
  let '(k, ret, outs) := Input (current_ms w) data (kcp w) in
  (mk k (current_ms w) (updated w), ret, outs).

Definition update (ms : Z) (w : t) : t * list output :=
  let '(k, outs) := Update ms (kcp w) in (mk k ms true, outs).

(** A flush before the first update is a no-op. *)
Definition flush (w : t) : t * list output :=
  if negb (updated w) then (w, [])
  else let '(k, outs) := Flush (current_ms w) (kcp w) in (mk k (current_ms w) (updated w), outs).

Definition peek_size (w : t) : Z := PeekSize (kcp w).
Definition wait_send (w : t) : Z := wait_snd (kcp w).

(** [set_nodelay]: negatives leave the other parameters unchanged. *)
Definition set_nodelay (nodelay : Z) (w : t) : t :=
  mk (NoDelay nodelay (-1) (-1) (-1) (kcp w)) (current_ms w) (updated w).

(** [c_output]: empty datagrams never reach the callback. *)
Definition c_output_filter (outs : list output) : list output :=
  filter (fun o => o_data o <> []) outs.

Definition queue (w : t) : list (list Z) := rcv_queue (kcp w).
End WithKcp.
Arguments t : clear implicits.
End KcpWrapper.

(** [log_kcp_input_rejected]: one throttled line for the process. *)
Definition dec_int (z : Z) : list Z := if z <? 0 then 45 :: dec_bytes (- z) else dec_bytes z.

Definition log_kcp_input_rejected (now : Z) (tag : list Z) (ret : Z) (size : nat)
    (throttle : LogThrottle.t) : LogThrottle.t * option (list Z) :=
  let '(throttle', emitted) := LogThrottle.should_log now throttle in
  (throttle',
   (fun n => (match tag with [] => [] | _ => tag ++ bytes_of_string ": " end) ++
             bytes_of_string "FAIL_STAGE=KCP_INPUT_FAILED ERROR=ret_" ++ dec_int ret ++
             bytes_of_string " size=" ++ dec_bytes (Z.of_nat size) ++
             LogThrottle.throttle_suffix n) <$> emitted).

(** ** The wrapper against the laws *)

Section WrapperFacts.
Context {K : Kcp} {L : KcpLaws K}.

(** [recv_fixed] on the abstract queue: nothing for an empty queue or an empty
    head message, a refusal that consumes nothing for a message that does not
    fit, the whole message otherwise. *)
Lemma recv_fixed_spec (size : nat) (w : KcpWrapper.t K) :
  match KcpWrapper.queue w with
  | [] | [] :: _ => KcpWrapper.recv_fixed size w = (w, 0, [])
  | m :: q =>
      if (size <? length m)%nat
      then KcpWrapper.recv_fixed size w = (w, KcpWrapper.KCP_RECV_MSG_TOO_BIG, [])
      else exists w', KcpWrapper.recv_fixed size w = (w', Z.of_nat (length m), m) /\
                      KcpWrapper.queue w' = q /\ KcpWrapper.wait_send w' = KcpWrapper.wait_send w
  end.
Proof.
  destruct w as [k ms up]. unfold KcpWrapper.queue, KcpWrapper.recv_fixed, KcpWrapper.wait_send. simpl.
  destruct (rcv_queue k) as [|m q] eqn:E; [by rewrite (peek_empty k E)|].
  rewrite (peek_head k m q E). destruct m as [|b m]; [done|].
  rewrite (proj2 (Z.leb_gt _ _)) by (simpl; lia). rewrite Nat2Z.id. case_bool; [done|].
  destruct (recv_head k (b :: m) q (length (b :: m)) E) as (k' & -> & Hq & Hw); [lia|].
  by eexists; split_and!.
Qed.

Lemma recv_fixed_none size (w : KcpWrapper.t K) :
  (KcpWrapper.queue w = [] \/ exists q, KcpWrapper.queue w = [] :: q) ->
  KcpWrapper.recv_fixed size w = (w, 0, []).
Proof. intros [H|[q H]]; pose proof (recv_fixed_spec size w) as Hs; by rewrite H in Hs. Qed.

Lemma recv_fixed_fits size (w : KcpWrapper.t K) m q :
  KcpWrapper.queue w = m :: q -> m <> [] -> (length m <= size)%nat ->
  exists w', KcpWrapper.recv_fixed size w = (w', Z.of_nat (length m), m) /\
             KcpWrapper.queue w' = q /\ KcpWrapper.wait_send w' = KcpWrapper.wait_send w.
Proof.
  intros H Hm Hl. pose proof (recv_fixed_spec size w) as Hs. rewrite H in Hs.
  destruct m as [|b m]; [done|]. by rewrite (proj2 (Nat.ltb_ge _ _)) in Hs by done.
Qed.

Lemma recv_fixed_big size (w : KcpWrapper.t K) m q :
  KcpWrapper.queue w = m :: q -> (size < length m)%nat ->
  KcpWrapper.recv_fixed size w = (w, KcpWrapper.KCP_RECV_MSG_TOO_BIG, []).
Proof.
  intros H Hl. pose proof (recv_fixed_spec size w) as Hs. rewrite H in Hs.
  destruct m as [|b m]; [simpl in Hl; lia|]. by rewrite (proj2 (Nat.ltb_lt _ _)) in Hs by done.
Qed.

(** [recv_vector] always takes the whole next message. *)
Lemma recv_vector_spec (w : KcpWrapper.t K) m q :
  KcpWrapper.queue w = m :: q -> m <> [] ->
  exists w', KcpWrapper.recv_vector w = (w', Z.of_nat (length m), m) /\
             KcpWrapper.queue w' = q /\ KcpWrapper.wait_send w' = KcpWrapper.wait_send w.
Proof.
  destruct w as [k ms up]. unfold KcpWrapper.queue, KcpWrapper.recv_vector, KcpWrapper.wait_send. simpl.
  intros E Hm. rewrite (peek_head k m q E).
  assert (0 < length m)%nat by (destruct m; [done | simpl; lia]).
  rewrite (proj2 (Z.leb_gt _ _)) by lia. rewrite Nat2Z.id.
  destruct (recv_head k m q (length m) E) as (k' & -> & Hq & Hw); [lia|].
  rewrite (proj2 (Z.ltb_ge _ _)) by lia. rewrite Nat2Z.id, take_ge by lia. by eexists; split_and!.
Qed.

Lemma send_queue data (w : KcpWrapper.t K) :
  KcpWrapper.queue (KcpWrapper.send data w).1 = KcpWrapper.queue w.
Proof.
  unfold KcpWrapper.queue, KcpWrapper.send. pose proof (send_rcv (KcpWrapper.kcp w) data) as H.
  by destruct (Send data (KcpWrapper.kcp w)).
Qed.
End WrapperFacts.

(** ** Concrete instances, for evaluation

    A loss-free pipe: a sent message leaves whole at the next flush, an input
    datagram is one received message. The codec frames without parity. *)

Module Loopback.
Record pipe := mkPipe { inbox : list (list Z); outbox : list (list Z) }.

Definition recv_pipe (n : nat) (p : pipe) : pipe * Z * list Z :=
  match inbox p with
  | [] => (p, -1, [])
  | m :: q => if (n <? length m)%nat then (p, -2, [])
              else (mkPipe q (outbox p), Z.of_nat (length m), m)
  end.

#[export] Instance loopback : Kcp := {|
  kcp_state := pipe;
  kcp_new _ := mkPipe [] [];
  NoDelay _ _ _ _ p := p;
  WndSize _ _ p := p;
  SetMtu _ p := (p, 0);
  Send d p := match d with
              | [] => (p, -1)
              | _ => (mkPipe (inbox p) (outbox p ++ [d]), 0)
              end;
  PeekSize p := match inbox p with [] => -1 | m :: _ => Z.of_nat (length m) end;
  Recv := recv_pipe;
  Input _ d p := match d with [] => (p, -1, []) | _ => (mkPipe (inbox p ++ [d]) (outbox p), 0, []) end;
  Update _ p := (p, []);
  Flush _ p := (mkPipe (inbox p) [], mkOutput 200 <$> outbox p);
  wait_snd p := Z.of_nat (length (outbox p));
  rcv_queue := inbox |}.

#[export] Instance loopback_laws : KcpLaws loopback.
Proof.
  constructor; simpl.
  - intros [[|] o]; simpl; [done | intros [=]].
  - intros [i o] m q. simpl. by intros ->.
  - intros [i o] m q n. simpl. intros -> Hn. exists (mkPipe q o).
    unfold recv_pipe. simpl. by rewrite (proj2 (Nat.ltb_ge _ _)) by lia.
  - intros [i o] [|? ?]; done.
  - done.
  - intros [i o]. simpl. lia.
Qed.

(** The frame with a header of type [ty] behind the reserved prefix. *)
Definition typed_frame (ty : Z) (frame : list Z) : list Z :=
  let n := Z.of_nat (length frame - FEC_CRYPTO_RESERVE - 6) in
  take FEC_CRYPTO_RESERVE frame ++ [0; 0; 0; 0; ty; 0; n mod 256; (n / 256) mod 256] ++
  drop (FEC_CRYPTO_RESERVE + 8) frame.

Lemma le16_pair a b : 0 <= a < 256 -> 0 <= b < 256 -> u16 (Z.lor a (Z.shiftl b 8)) = 256 * b + a.
Proof. intros Ha Hb. rewrite Z.lor_comm, lor_shiftl_8 by done. rewrite u16_small; lia. Qed.

Lemma typed_frame_ok ty frame :
  0 <= ty < 256 -> (FEC_CRYPTO_RESERVE + 8 <= length frame)%nat -> Z.of_nat (length frame) < 65536 ->
  length (typed_frame ty frame) = length frame /\
  drop (FEC_CRYPTO_RESERVE + 8) (typed_frame ty frame) = drop (FEC_CRYPTO_RESERVE + 8) frame /\
  le16_at (drop FEC_CRYPTO_RESERVE (typed_frame ty frame)) 4 = ty /\
  le16_at (drop FEC_CRYPTO_RESERVE (typed_frame ty frame)) 6 =
    Z.of_nat (length frame - FEC_CRYPTO_RESERVE - 6).
Proof.
  intros Ht H1 H2. unfold typed_frame.
  set (n := Z.of_nat (length frame - FEC_CRYPTO_RESERVE - 6)).
  set (h := [0; 0; 0; 0; ty; 0; n mod 256; (n / 256) mod 256]).
  assert (Hr : length (take FEC_CRYPTO_RESERVE frame) = FEC_CRYPTO_RESERVE) by (rewrite length_take; lia).
  assert (Hd : drop FEC_CRYPTO_RESERVE
                 (take FEC_CRYPTO_RESERVE frame ++ h ++ drop (FEC_CRYPTO_RESERVE + 8) frame) =
               h ++ drop (FEC_CRYPTO_RESERVE + 8) frame) by (by apply drop_app_length').
  assert (Hn : 0 <= n < 65536) by lia.
  split_and!.
  - rewrite !length_app, Hr, length_drop. change (length h) with 8%nat. lia.
  - rewrite <- drop_drop, Hd. by apply drop_app_length'.
  - rewrite Hd. unfold le16_at, byte_at. cbn -[Z.shiftl Z.lor u16 FEC_CRYPTO_RESERVE]. rewrite le16_pair by lia. lia.
  - rewrite Hd. unfold le16_at, byte_at. cbn -[Z.shiftl Z.lor u16 Z.modulo Z.div FEC_CRYPTO_RESERVE].
    rewrite le16_pair by (by apply Z.mod_pos_bound). rewrite (Z.mod_small (n / 256))
      by (split; [apply Z.div_pos; lia | apply Z.div_lt_upper_bound; lia]).
    pose proof (Z.div_mod n 256). lia.
Qed.

#[export] Instance plain_codec : FecCodec := {|
  enc_state := unit;
  dec_state := unit;
  fec_new_encoder _ _ _ := Some tt;
  fec_new_decoder _ _ := Some tt;
  Encode _ frame _ _ := (tt, typed_frame kTypeData frame, []);
  Decode _ _ _ := (tt, []) |}.

#[export] Instance plain_codec_laws : FecLaws plain_codec.
Proof. constructor; [|done|done]. intros clock frame rto enc H1 H2. by apply typed_frame_ok. Qed.
End Loopback.
