(* ===== verification/History.v ===== *)
(** * History: what a KCP instance saw, and what the library guarantees

    The proxy relies on the KCP library for one thing above all: two instances
    with the same conversation number, each fed only datagrams the other one
    put out, hand the messages accepted at one end to the other end in order,
    each once, whatever is lost, repeated or reordered on the way. A [khist]
    is a sequence of calls into the library together with what they
    exchanged with it; [KcpReliable] is that documented guarantee, stated on
    two histories, and [Sequenced] is a small go-back-N protocol that
    satisfies it. *)

From Stdlib Require Import ZArith Lia.
From stdpp Require Import base list strings.
From S2P Require Import Prelude Config Kcp.

(** ** Observations *)

(** The messages [Send] accepted and [Recv] returned, the datagrams given to
    [Input] and those handed to the output callback, in order. *)
Record obs := mkObs {
  sent : list (list Z);
  received : list (list Z);
  fed : list (list Z);
  emitted : list (list Z) }.

Definition obs_nil : obs := mkObs [] [] [] [].
Definition obs_app (a b : obs) : obs :=
  mkObs (sent a ++ sent b) (received a ++ received b) (fed a ++ fed b) (emitted a ++ emitted b).

Lemma obs_app_nil_l o : obs_app obs_nil o = o.
Proof. by destruct o. Qed.
Lemma obs_app_assoc a b c : obs_app a (obs_app b c) = obs_app (obs_app a b) c.
Proof. unfold obs_app. simpl. by rewrite !app_assoc. Qed.

Section History.
Context {K : Kcp}.

(** One call into the library. *)
Inductive kcall : kcp_state -> obs -> kcp_state -> Prop :=
| kcall_send d k :
    kcall k (mkObs (if (Send d k).2 <? 0 then [] else [d]) [] [] []) (Send d k).1
| kcall_recv n k :
    kcall k (mkObs [] (if 0 <? (Recv n k).1.2 then [take (Z.to_nat (Recv n k).1.2) (Recv n k).2] else [])
               [] []) (Recv n k).1.1
| kcall_input ms d k :
    kcall k (mkObs [] [] [d] (o_data <$> (Input ms d k).2)) (Input ms d k).1.1
| kcall_update ms k : kcall k (mkObs [] [] [] (o_data <$> (Update ms k).2)) (Update ms k).1
| kcall_flush ms k : kcall k (mkObs [] [] [] (o_data <$> (Flush ms k).2)) (Flush ms k).1
| kcall_nodelay a b c d k : kcall k obs_nil (NoDelay a b c d k).

Inductive khist : kcp_state -> obs -> kcp_state -> Prop :=
| khist_nil k : khist k obs_nil k
| khist_cons k o k1 o' k2 : kcall k o k1 -> khist k1 o' k2 -> khist k (obs_app o o') k2.

Lemma khist_one k o k' : kcall k o k' -> khist k o k'.
Proof.
  intros H. replace o with (obs_app o obs_nil); [by econstructor; [done | constructor]|].
  destruct o. unfold obs_app. simpl. by rewrite !app_nil_r.
Qed.

Lemma khist_app k o k1 o' k2 : khist k o k1 -> khist k1 o' k2 -> khist k (obs_app o o') k2.
Proof.
  induction 1 as [|k0 o1 k3 o2 k4 Hc _ IH]; intros H2; [by rewrite obs_app_nil_l|].
  rewrite <- obs_app_assoc. econstructor; [done | by apply IH].
Qed.

(** ** The library's guarantee

    Two instances with the same conversation number under any two tunings.
    Every datagram fed to one end was put out by the other; then what was
    received is a prefix of what was sent. *)
Class KcpReliable : Prop := {
  kcp_reliable conv tun_a tun_b a b ka kb :
    khist (KcpWrapper.configure tun_a (kcp_new conv)) a ka ->
    khist (KcpWrapper.configure tun_b (kcp_new conv)) b kb ->
    (forall d, d ∈ fed a -> d ∈ emitted b) -> (forall d, d ∈ fed b -> d ∈ emitted a) ->
    received b `prefix_of` sent a }.

(** What [SetMtu] promises: no datagram put out is longer than the MTU of a
    legal tuning. *)
Class KcpMtu : Prop := {
  kcp_mtu conv tun o k :
    tuning_legal tun -> khist (KcpWrapper.configure tun (kcp_new conv)) o k ->
    forall d, d ∈ emitted o -> Z.of_nat (length d) <= mtu tun }.
End History.
Arguments KcpReliable K : clear implicits.
Arguments KcpMtu K : clear implicits.

(** ** A protocol with the guarantee

    Every message carries its index; a flush puts out all of them again, and
    the receiver takes a datagram only when its index is the next one. A
    message that does not fit the smallest legal MTU is refused. *)
Module Sequenced.

Record node := mkNode { outgoing : list (list Z); fresh_from : nat; expected : nat; inbox : list (list Z) }.

Definition max_message : nat := 500.

Fixpoint number (i : nat) (ms : list (list Z)) : list (list Z) :=
  match ms with [] => [] | m :: ms' => (Z.of_nat i :: m) :: number (S i) ms' end.

Definition take_datagram (d : list Z) (n : node) : node * Z * list output :=
  match d with
  | [] => (n, -1, [])
  | i :: m =>
      if i =? Z.of_nat (expected n)
      then (mkNode (outgoing n) (fresh_from n) (S (expected n)) (inbox n ++ [m]), 0, [])
      else (n, 0, [])
  end.

Definition recv_node (cap : nat) (n : node) : node * Z * list Z :=
  match inbox n with
  | [] => (n, -1, [])
  | m :: q => if (cap <? length m)%nat then (n, -2, [])
              else (mkNode (outgoing n) (fresh_from n) (expected n) q, Z.of_nat (length m), m)
  end.

#[export] Instance sequenced : Kcp := {|
  kcp_state := node;
  kcp_new _ := mkNode [] 0 0 [];
  NoDelay _ _ _ _ n := n;
  WndSize _ _ n := n;
  SetMtu _ n := (n, 0);
  Send d n := match d with
              | [] => (n, -1)
              | _ => if (max_message <? length d)%nat then (n, -2)
                     else (mkNode (outgoing n ++ [d]) (fresh_from n) (expected n) (inbox n), 0)
              end;
  PeekSize n := match inbox n with [] => -1 | m :: _ => Z.of_nat (length m) end;
  Recv := recv_node;
  Input _ := take_datagram;
  Update _ n := (n, []);
  Flush _ n := (mkNode (outgoing n) (length (outgoing n)) (expected n) (inbox n),
                mkOutput 200 <$> number 0 (outgoing n));
  wait_snd n := Z.of_nat (length (outgoing n) - fresh_from n);
  rcv_queue := inbox |}.

#[export] Instance sequenced_laws : KcpLaws sequenced.
Proof.
  constructor; simpl.
  - intros [o f x [|]]; simpl; [done | intros [=]].
  - intros [o f x i] m q. simpl. by intros ->.
  - intros [o f x i] m q cap. simpl. intros -> Hn. exists (mkNode o f x q).
    unfold recv_node. simpl. by rewrite (proj2 (Nat.ltb_ge _ _)) by lia.
  - intros [o f x i] [|b d]; [done|]. simpl. by case_bool.
  - done.
  - intros [o f x i]. simpl. lia.
Qed.

Lemma number_elem ms : forall i d, d ∈ number i ms ->
  exists j m, d = Z.of_nat (i + j) :: m /\ ms !! j = Some m.
Proof.
  induction ms as [|m ms IH]; intros i d; simpl; [by intros ?%elem_of_nil|].
  intros [->|Hd]%elem_of_cons; [exists 0%nat, m; by rewrite Nat.add_0_r|].
  destruct (IH _ _ Hd) as (j & m' & -> & Hj). exists (S j), m'. split; [|done]. do 2 f_equal. lia.
Qed.

(** The datagram carries message number [j] of [ms]. *)
Definition carries (ms : list (list Z)) (d : list Z) : Prop :=
  exists j m, d = Z.of_nat j :: m /\ ms !! j = Some m.

Lemma carries_app ms ms' d : carries ms d -> carries (ms ++ ms') d.
Proof. intros (j & m & -> & Hj). exists j, m. split; [done | by apply lookup_app_l_Some]. Qed.

Definition fits (m : list Z) : Prop := m <> [] /\ (length m <= max_message)%nat.

(** The sending side: the outgoing messages are the accepted ones, and every
    datagram put out carries one of them. *)
Lemma sender_hist k o k' : khist k o k' ->
  outgoing k' = outgoing k ++ sent o /\ Forall fits (sent o) /\
  forall d, d ∈ emitted o -> carries (outgoing k ++ sent o) d.
Proof.
  induction 1 as [k|k o k1 o' k2 Hc _ (IH1 & IH2 & IH3)]; simpl.
  { rewrite app_nil_r. split_and!; [done | constructor | by intros ? ?%elem_of_nil]. }
  assert (Hone : outgoing k1 = outgoing k ++ sent o /\ Forall fits (sent o) /\
                 forall d, d ∈ emitted o -> carries (outgoing k) d).
  { destruct Hc as [d k|n k|ms d k|ms k|ms k|a b c d k]; simpl; rewrite ?app_nil_r;
      split_and!; try done; try (by intros ? ?%elem_of_nil).
    - destruct d as [|b d]; simpl; [by rewrite app_nil_r|].
      destruct (max_message <? _)%nat; simpl; by rewrite ?app_nil_r.
    - destruct d as [|b d]; [constructor|]. simpl. destruct (max_message <? _)%nat eqn:E; simpl; [constructor|].
      zb_props. apply list.Forall_singleton. by split.
    - unfold recv_node. destruct (inbox k); [done|]. by case_bool.
    - destruct d; [done|]. simpl. by case_bool.
    - destruct d; [by intros ? ?%elem_of_nil|]. simpl. case_bool; by intros ? ?%elem_of_nil.
    - intros d (out & -> & (x & -> & Hx)%list_elem_of_fmap)%list_elem_of_fmap.
      by destruct (number_elem _ _ _ Hx) as (j & m & -> & Hj); exists j, m. }
  destruct Hone as (H1 & H2 & H3). rewrite H1, <- app_assoc in *. split_and!; [done | by apply Forall_app|].
  intros d [Hd|Hd]%elem_of_app; [by apply carries_app, H3 | by apply IH3].
Qed.

(** The receiving side, when every datagram carries a message of [ms]: what
    was received and what waits are the first [expected] messages. *)
Lemma receiver_hist ms k o k' :
  Forall (fun m => m <> []) ms -> khist k o k' -> Forall (carries ms) (fed o) -> forall got,
  got ++ inbox k = take (expected k) ms ->
  (got ++ received o) ++ inbox k' = take (expected k') ms.
Proof.
  intros Hne. induction 1 as [k|k o k1 o' k2 Hc _ IH]; intros Hf got Hg; [by simpl; rewrite app_nil_r|].
  simpl in *. apply Forall_app in Hf as [Hf1 Hf2]. rewrite app_assoc. apply IH; [done|].
  destruct Hc as [d k|n k|ms' d k|ms' k|ms' k|a b c d k]; simpl in *; rewrite ?app_nil_r; try done.
  - destruct d; [done|]. simpl. by destruct (max_message <? _)%nat.
  - unfold recv_node. destruct (inbox k) as [|m q] eqn:Ei; simpl; [by rewrite Ei, app_nil_r|].
    destruct (n <? length m)%nat; simpl; [by rewrite Ei, app_nil_r|].
    assert (Hm : m <> []).
    { apply (proj1 (list.Forall_forall _ (take (expected k) ms)) (Forall_take _ _ _ Hne)).
      rewrite <- Hg. apply elem_of_app. right. apply elem_of_cons. by left. }
    destruct m as [|b m]; [done|]. rewrite (proj2 (Z.ltb_lt _ _)) by (simpl; lia).
    rewrite Nat2Z.id, firstn_all, <- app_assoc. done.
  - apply list.Forall_singleton in Hf1 as (j & m & -> & Hj). simpl.
    destruct (Z.eqb_spec (Z.of_nat j) (Z.of_nat (expected k))) as [E|E]; [|done].
    apply Nat2Z.inj in E as ->. simpl.
    by rewrite app_assoc, Hg, (take_S_r _ _ _ Hj).
Qed.

#[export] Instance sequenced_reliable : KcpReliable sequenced.
Proof.
  constructor. intros conv tun_a tun_b a b ka kb Ha Hb _ Hfed.
  destruct (sender_hist _ _ _ Ha) as (_ & Hfit & Hcar). simpl in Hcar.
  assert (Hne : Forall (fun m => m <> []) (sent a)) by (eapply List.Forall_impl; [|exact Hfit]; by intros m []).
  assert (Hf : Forall (carries (sent a)) (fed b))
    by (apply list.Forall_forall; intros d Hd; by apply Hcar, Hfed).
  pose proof (receiver_hist (sent a) _ _ _ Hne Hb Hf [] eq_refl) as H. simpl in H.
  transitivity (received b ++ inbox kb); [by exists (inbox kb) | rewrite H]. exists (drop (expected kb) (sent a)). by rewrite take_drop.
Qed.

#[export] Instance sequenced_mtu : KcpMtu sequenced.
Proof.
  constructor. intros conv tun o k Ht Hk d Hd. destruct (sender_hist _ _ _ Hk) as (_ & Hfit & Hcar).
  destruct (Hcar d Hd) as (j & m & -> & Hj). simpl in Hj. rewrite list.Forall_forall in Hfit.
  destruct (Hfit m (list_elem_of_lookup_2 _ _ _ Hj)) as [_ Hm]. unfold max_message in Hm. simpl length.
  unfold tuning_legal, KCP_MTU_MIN in Ht. lia.
Qed.
End Sequenced.
