(* ===== verification/Tombstones.v ===== *)
(** * Tombstones: the cross-session replay guard of the server

    Models [salt_tombstones_], [salt_tombstone_order_],
    [prune_salt_tombstones_locked] and [remember_salt_locked] of server.cpp.
    Times are nanoseconds of the steady clock. *)

From Stdlib Require Import ZArith Lia.
From stdpp Require Import base list gmap strings numbers.
From S2P Require Import Prelude Config.

Module Tombstones.

(** The map from salt to expiry and the insertion order (front first). *)
Record t := mk { table : gmap (list Z) Z; order : list (list Z) }.

Definition empty : t := mk ∅ [].

Definition NS_PER_SEC : Z := 1000000000.
Definition TTL : Z := SALT_TOMBSTONE_TTL_SEC * NS_PER_SEC.

(** The loop of [prune_salt_tombstones_locked]: structural on the queue. *)
Fixpoint prune_go (now : Z) (m : gmap (list Z) Z) (q : list (list Z)) : t :=
  match q with
  | [] => mk m []
  | s :: q' =>
      match m !! s with
      | None => prune_go now m q'
      | Some e => if now <? e then mk m q else prune_go now (delete s m) q'
      end
  end.

Definition prune (now : Z) (st : t) : t := prune_go now (table st) (order st).

(** The eviction loop of [remember_salt_locked]. *)
Fixpoint evict_go (m : gmap (list Z) Z) (q : list (list Z)) : t :=
  if MAX_SALT_TOMBSTONES <=? Z.of_nat (size m) then
    match q with
    | [] => mk m []
    | s :: q' => evict_go (delete s m) q'
    end
  else mk m q.

(** [remember_salt_locked(salt, expiry)], called at time [now]. *)
Definition remember_salt (now : Z) (salt : list Z) (expiry : Z) (st : t) : t :=
  let st1 := prune now st in
  let st2 := evict_go (table st1) (order st1) in
  mk (<[salt := expiry]> (table st2)) (order st2 ++ [salt]).

(** The test of [get_or_create_session]: an unexpired tombstone. *)
Definition blocked (now : Z) (salt : list Z) (st : t) : bool :=
  match table st !! salt with Some e => now <? e | None => false end.

(** ** The bound, whatever the clock does *)

(** The map is within its cap and every salt in it is in the queue. *)
Definition bounded (st : t) : Prop :=
  Z.of_nat (size (table st)) <= MAX_SALT_TOMBSTONES /\
  forall s, is_Some (table st !! s) -> s ∈ order st.

(** Taking a salt off the queue and out of the map. *)
Lemma bounded_pop s q m : bounded (mk m (s :: q)) -> bounded (mk (delete s m) q).
Proof.
  intros [Hc Hq]. simpl in *. split; simpl.
  - pose proof (map_subseteq_size _ _ (delete_subseteq m s)). lia.
  - intros s' [e He]. apply lookup_delete_Some in He as [Hne He].
    specialize (Hq s' ltac:(by eexists)). apply elem_of_cons in Hq as [->|Hq]; done.
Qed.

Lemma prune_bounded now st : bounded st -> bounded (prune now st).
Proof.
  destruct st as [m q]. unfold prune. simpl. revert m. induction q as [|s q IH]; intros m H; simpl; [done|].
  destruct (m !! s) as [e|] eqn:E.
  - destruct (now <? e); [done|]. by apply IH, bounded_pop.
  - apply IH. rewrite <- (delete_id m s) by done. by apply bounded_pop.
Qed.

Lemma evict_bounded q m :
  bounded (mk m q) -> bounded (evict_go m q) /\ Z.of_nat (size (table (evict_go m q))) < MAX_SALT_TOMBSTONES.
Proof.
  revert m. induction q as [|s q IH]; intros m H.
  - assert (m = ∅) as ->.
    { apply map_empty. intros k. destruct (m !! k) as [e|] eqn:E; [|done].
      destruct H as [_ H]. specialize (H k ltac:(by eexists)). by apply elem_of_nil in H. }
    split; [|by vm_compute]. split; [by vm_compute | by intros ? [? ?]].
  - simpl. destruct (Z.leb_spec MAX_SALT_TOMBSTONES (Z.of_nat (size m))); [|by split].
    by apply IH, bounded_pop.
Qed.

Lemma remember_bounded now salt expiry st : bounded st -> bounded (remember_salt now salt expiry st).
Proof.
  intros H. unfold remember_salt. apply (prune_bounded now) in H. destruct (prune now st) as [m q]. simpl.
  apply evict_bounded in H as [[_ Hq] Hc]. split; simpl.
  - rewrite map_size_insert. destruct (table (evict_go m q) !! salt); unfold id; lia.
  - intros s [e He]. apply elem_of_app. apply lookup_insert_Some in He as [[-> _]|[_ He]].
    + right. by apply list_elem_of_singleton.
    + left. apply Hq. by eexists.
Qed.

(** ** Abstract view: the history of accepted sessions *)

(** Every entry lives [TTL] from its acceptance. *)
Definition expiries (h : list (list Z * Z)) : list (list Z * Z) := (fun '(s, a) => (s, a + TTL)) <$> h.

(** The table and the queue hold exactly the entries of [h]: accepted salts
    with their acceptance times, oldest first. *)
Definition holds (h : list (list Z * Z)) (st : t) : Prop :=
  order st = h.*1 /\ NoDup (h.*1) /\ table st = list_to_map (expiries h).

Lemma expiries_fst h : (expiries h).*1 = h.*1.
Proof.
  unfold expiries. rewrite <- list_fmap_compose. apply list_fmap_ext. by intros ? [] ?.
Qed.

Lemma holds_lookup h st s a :
  holds h st -> (s, a) ∈ h -> table st !! s = Some (a + TTL).
Proof.
  intros (_ & Hn & ->) Hin. apply elem_of_list_to_map_1.
  - by rewrite expiries_fst.
  - apply list_elem_of_fmap. by exists (s, a).
Qed.

Lemma holds_lookup_None h st s : holds h st -> s ∉ h.*1 -> table st !! s = None.
Proof.
  intros (_ & _ & ->) Hn. apply not_elem_of_list_to_map_1. by rewrite (expiries_fst h).
Qed.

Lemma holds_size h st : holds h st -> size (table st) = length h.
Proof.
  intros (_ & Hn & ->). rewrite <- (length_fmap (fun '(s, a) => (s, a + TTL)) h).
  fold (expiries h). apply map_size_list_to_map. by rewrite (expiries_fst h).
Qed.

(** Dropping the oldest entry. *)
Lemma holds_pop s a h m :
  holds ((s, a) :: h) (mk m (s :: h.*1)) -> holds h (mk (delete s m) (h.*1)).
Proof.
  intros (_ & Hn & Hm). rewrite fmap_cons in Hn. apply list.NoDup_cons in Hn as [Hs Hn].
  cbn [table order fst] in *. split_and!; [done | done |].
  rewrite Hm. change (expiries ((s, a) :: h)) with ((s, a + TTL) :: expiries h). simpl.
  rewrite delete_insert_id; [done|].
  apply not_elem_of_list_to_map_1. by rewrite (expiries_fst h).
Qed.

(** Pruning removes exactly the expired prefix. *)
Lemma prune_holds now h st :
  holds h st ->
  exists k, (k <= length h)%nat /\ holds (drop k h) (prune now st) /\
    Forall (fun '(_, a) => a + TTL <= now) (take k h) /\
    (forall s a h', drop k h = (s, a) :: h' -> now < a + TTL).
Proof.
  intros H. destruct st as [m q]. unfold prune. simpl. pose proof H as (Hq & _). simpl in Hq. subst q.
  revert m H. induction h as [|[s a] h IH]; intros m H.
  { exists 0%nat. split_and!; [done | done | constructor | done]. }
  pose proof (holds_lookup _ _ s a H ltac:(apply elem_of_cons; by left)) as E.
  rewrite fmap_cons. cbn [table fst prune_go] in *. rewrite E.
  destruct (Z.ltb_spec now (a + TTL)).
  - exists 0%nat. split_and!; [lia | done | constructor |]. intros s' a' h' [= <- <- <-]. done.
  - apply holds_pop in H. destruct (IH _ H) as (k & Hb & H1 & H2 & H3).
    exists (S k). cbn [take drop length]. split_and!; [lia | done | by constructor | done].
Qed.

(** Eviction drops oldest entries until there is room for one more. *)
Lemma evict_holds h st :
  holds h st ->
  exists k, (k <= length h)%nat /\ holds (drop k h) (evict_go (table st) (order st)) /\
    Z.of_nat (length (drop k h)) < MAX_SALT_TOMBSTONES /\
    (forall i, (i < k)%nat -> Z.of_nat (length h) - Z.of_nat i >= MAX_SALT_TOMBSTONES).
Proof.
  intros H. destruct st as [m q]. pose proof H as (Hq & _). simpl in *. subst q.
  revert m H. induction h as [|[s a] h IH]; intros m H.
  - exists 0%nat. pose proof (holds_size _ _ H) as Hs. simpl in Hs. simpl. rewrite Hs.
    split_and!; [done | done | by vm_compute | lia].
  - pose proof (holds_size _ _ H) as Hs. cbn [table length] in Hs. simpl evict_go. rewrite Hs.
    destruct (Z.leb_spec MAX_SALT_TOMBSTONES (Z.of_nat (S (length h)))).
    + apply holds_pop in H. destruct (IH _ H) as (k & Hb & H1 & H2 & H3).
      exists (S k). cbn [drop length]. split_and!; [lia | done | done |]. intros i Hi. cbn [length].
      destruct i as [|i]; [lia|]. specialize (H3 i ltac:(lia)). lia.
    + exists 0%nat. cbn [drop length]. split_and!; [lia | done | done | lia].
Qed.

Lemma holds_push now s h st :
  holds h st -> s ∉ h.*1 ->
  holds (h ++ [(s, now)]) (mk (<[s := now + TTL]> (table st)) (order st ++ [s])).
Proof.
  intros (Hq & Hn & Hm) Hs. split_and!; simpl.
  - by rewrite Hq, fmap_app.
  - rewrite fmap_app. apply list.NoDup_app. split_and!; [done | | apply NoDup_singleton].
    intros x Hx ->%list_elem_of_singleton. done.
  - rewrite Hm. unfold expiries at 2. rewrite fmap_app. fold (expiries h). simpl. symmetry.
    apply list_to_map_snoc. by rewrite expiries_fst.
Qed.

(** One first datagram of a salt, seen at [now]: refused, or accepted and
    remembered for [TTL]. *)
Definition offer_salt (now : Z) (salt : list Z) (st : t) : t * bool :=
  if blocked now salt st then (st, false)
  else (remember_salt now salt (now + TTL) st, true).

(** A sequence of requests and the history of the accepted ones. *)
Fixpoint admissions (st : t) (h : list (list Z * Z)) (reqs : list (list Z * Z))
  : t * list (list Z * Z) :=
  match reqs with
  | [] => (st, h)
  | (s, now) :: rest =>
      let '(st', ok) := offer_salt now s st in
      admissions st' (if ok then h ++ [(s, now)] else h) rest
  end.

(** Times of a history never decrease and do not exceed [now]. *)
Definition times_ok (now : Z) (h : list (list Z * Z)) : Prop :=
  forall i j x y, (i <= j)%nat -> h !! i = Some x -> h !! j = Some y -> x.2 <= y.2 <= now.

(** What the guard remembers of a history: a suffix; whatever was dropped is
    expired or has at least [MAX_SALT_TOMBSTONES] successors. *)
Definition tracks (now : Z) (h : list (list Z * Z)) (st : t) : Prop :=
  times_ok now h /\
  exists k, (k <= length h)%nat /\ holds (drop k h) st /\
    Z.of_nat (length (drop k h)) <= MAX_SALT_TOMBSTONES /\
    forall i x, (i < k)%nat -> h !! i = Some x ->
      x.2 + TTL <= now \/ Z.of_nat (length h) - Z.of_nat i > MAX_SALT_TOMBSTONES.

Lemma tracks_mono now now' h st : now <= now' -> tracks now h st -> tracks now' h st.
Proof.
  intros Hle [Ht (k & Hkl & Hh & Hl & Hk)]. split.
  - intros i j x y Hij Hx Hy. specialize (Ht i j x y Hij Hx Hy). lia.
  - exists k. split_and!; [done | done | done |]. intros i x Hi Hx. destruct (Hk i x Hi Hx); [left|right]; lia.
Qed.

Lemma times_ok_snoc now h s : times_ok now h -> times_ok now (h ++ [(s, now)]).
Proof.
  intros Ht i j x y Hij Hx Hy.
  destruct (decide (j < length h)%nat).
  - rewrite lookup_app_l in Hx, Hy by lia. exact (Ht i j x y Hij Hx Hy).
  - assert (y.2 = now) as ->.
    { rewrite lookup_app_r in Hy by lia. by destruct (j - length h)%nat; simplify_eq/=. }
    destruct (decide (i < length h)%nat).
    + rewrite lookup_app_l in Hx by lia. specialize (Ht i i x x ltac:(lia) Hx Hx). lia.
    + rewrite lookup_app_r in Hx by lia. destruct (i - length h)%nat; simplify_eq/=. lia.
Qed.

(** After pruning, what is left of a timed history is unexpired. *)
Lemma pruned_unexpired now h k :
  times_ok now h -> (forall s a h', drop k h = (s, a) :: h' -> now < a + TTL) ->
  forall s a, (s, a) ∈ drop k h -> now < a + TTL.
Proof.
  intros Ht Hhd s a Hin. destruct (drop k h) as [|[s0 a0] h'] eqn:E; [by apply elem_of_nil in Hin|].
  specialize (Hhd _ _ _ eq_refl). apply list_elem_of_lookup in Hin as [j Hj].
  assert (Hk : h !! k = Some (s0, a0)).
  { rewrite <- (Nat.add_0_r k), <- lookup_drop, E. done. }
  assert (Hj' : h !! (k + j)%nat = Some (s, a)) by (rewrite <- lookup_drop, E; done).
  pose proof (Ht k (k + j)%nat _ _ ltac:(lia) Hk Hj') as Ha. simpl in Ha. lia.
Qed.

Lemma elem_of_drop_weaken {X} (x : X) n l : x ∈ drop n l -> x ∈ l.
Proof. intros H. rewrite <- (take_drop n l). apply elem_of_app. by right. Qed.

Lemma remember_tracks now s h st :
  tracks now h st -> blocked now s st = false ->
  tracks now (h ++ [(s, now)]) (remember_salt now s (now + TTL) st).
Proof.
  intros [Ht (k & Hkl & Hh & Hl & Hk)] Hb. unfold remember_salt.
  destruct (prune_holds now _ _ Hh) as (k1 & Hk1 & Hh1 & Hexp & Hhd).
  rewrite drop_drop in Hh1, Hhd. rewrite length_drop in Hk1.
  assert (Hun : forall x a, (x, a) ∈ drop (k + k1) h -> now < a + TTL) by by apply pruned_unexpired.
  destruct (evict_holds _ _ Hh1) as (k2 & Hk2 & Hh2 & Hl2 & Hev).
  rewrite drop_drop in Hh2, Hl2. rewrite length_drop in Hk2, Hev.
  assert (Hs : s ∉ (drop (k + k1 + k2) h).*1).
  { intros ([s' a] & E & Hin)%list_elem_of_fmap. simpl in E. subst s'.
    assert (Hin1 : (s, a) ∈ drop (k + k1) h)
      by (rewrite <- drop_drop in Hin; by eapply elem_of_drop_weaken).
    assert (Hin0 : (s, a) ∈ drop k h)
      by (rewrite <- drop_drop in Hin1; by eapply elem_of_drop_weaken).
    unfold blocked in Hb. rewrite (holds_lookup _ _ _ _ Hh Hin0) in Hb. zb_props.
    specialize (Hun _ _ Hin1). lia. }
  split; [by apply times_ok_snoc|].
  exists (k + k1 + k2)%nat. rewrite drop_app_le by lia. rewrite !length_app. simpl length.
  split_and!; [lia | by apply holds_push | lia |].
  intros i x Hi Hx. rewrite lookup_app_l in Hx by lia.
  destruct (decide (i < k)%nat); [destruct (Hk i x ltac:(done) Hx); [by left | right; lia]|].
  destruct (decide (i < k + k1)%nat).
  - left. rewrite list.Forall_forall in Hexp. specialize (Hexp x). destruct x as [sx ax].
    apply Hexp. apply list_elem_of_lookup. exists (i - k)%nat.
    rewrite lookup_take_lt, lookup_drop by lia. rewrite <- Hx. f_equal. lia.
  - right. specialize (Hev (i - k - k1)%nat ltac:(lia)). lia.
Qed.

(** Requests in clock order. *)
Fixpoint reqs_ok (now : Z) (reqs : list (list Z * Z)) : Prop :=
  match reqs with
  | [] => True
  | (_, t) :: rest => now <= t /\ reqs_ok t rest
  end.

Fixpoint last_time (now : Z) (reqs : list (list Z * Z)) : Z :=
  match reqs with [] => now | (_, t) :: rest => last_time t rest end.

Lemma admissions_tracks now st h reqs :
  tracks now h st -> reqs_ok now reqs ->
  tracks (last_time now reqs) (admissions st h reqs).2 (admissions st h reqs).1.
Proof.
  revert now st h. induction reqs as [|[s t] rest IH]; intros now st h Ht Hr; [done|].
  destruct Hr as [Hle Hr]. apply (tracks_mono now t) in Ht; [|done].
  simpl. unfold offer_salt. destruct (blocked t s st) eqn:Eb; [by apply IH|].
  apply IH; [by apply remember_tracks | done].
Qed.

(** C7: the tombstone table implements its contract. After any sequence of
    session requests under a monotone clock, at any later time [now]: a salt
    accepted at time [a] is refused exactly as promised, through [a + TTL], as
    long as fewer than [MAX_SALT_TOMBSTONES] sessions were accepted after it;
    a refused salt really was accepted less than [TTL] ago; and the table
    never exceeds its cap, with map and queue in step. *)
Theorem tombstones_contract (reqs : list (list Z * Z)) (now : Z) :
  reqs_ok 0 reqs -> last_time 0 reqs <= now ->
  let '(st, h) := admissions empty [] reqs in
  (forall i s a, h !! i = Some (s, a) -> now < a + TTL ->
     Z.of_nat (length h) - Z.of_nat i <= MAX_SALT_TOMBSTONES -> blocked now s st = true) /\
  (forall s, blocked now s st = true -> exists a, (s, a) ∈ h /\ now < a + TTL) /\
  Z.of_nat (size (table st)) <= MAX_SALT_TOMBSTONES /\ length (order st) = size (table st).
Proof.
  intros Hr Hnow.
  assert (H0 : tracks 0 [] empty).
  { split; [intros i j x y _ Hx; done|]. exists 0%nat. split_and!; [done | | by vm_compute | done].
    split_and!; [done | apply NoDup_nil_2 | done]. }
  pose proof (admissions_tracks 0 empty [] reqs H0 Hr) as H.
  apply (tracks_mono _ now) in H; [|done].
  destruct (admissions empty [] reqs) as [st h]. simpl in H.
  destruct H as [Ht (k & Hk & Hh & Hl & Hd)]. split_and!.
  - intros i s a Hi Hlt Hn. unfold blocked. destruct (decide (i < k)%nat) as [Hik|Hik].
    { destruct (Hd i _ Hik Hi) as [H|H]; simpl in H; lia. }
    rewrite (holds_lookup _ _ s a Hh); [by apply Z.ltb_lt|].
    apply list_elem_of_lookup. exists (i - k)%nat. rewrite lookup_drop, <- Hi. f_equal. lia.
  - intros s Hb. unfold blocked in Hb. destruct (table st !! s) as [e|] eqn:E; [|done]. zb_props.
    pose proof Hh as (_ & _ & Hm). rewrite Hm in E. apply elem_of_list_to_map_2 in E.
    apply list_elem_of_fmap in E as ([s' a] & [= -> ->] & Hin).
    exists a. split; [by eapply elem_of_drop_weaken | done].
  - by rewrite (holds_size _ _ Hh).
  - rewrite (holds_size _ _ Hh). destruct Hh as (-> & _). by rewrite length_fmap.
Qed.

Lemma tombstones_contract_witness :
  let '(st, h) := admissions empty [] [([1], 5); ([2], 6); ([1], 7)] in
  h = [([1], 5); ([2], 6)] /\ blocked 8 [1] st = true.
Proof.
  pose proof (tombstones_contract [([1], 5); ([2], 6); ([1], 7)] 8) as H.
  destruct (admissions empty [] [([1], 5); ([2], 6); ([1], 7)]) as [st h] eqn:E.
  assert (Hh : h = [([1], 5); ([2], 6)]) by (vm_compute in E; congruence).
  split; [done|]. subst h.
  destruct H as (H & _); [vm_compute; repeat split; congruence | vm_compute; congruence |].
  apply (H 0%nat [1] 5); [done | by vm_compute | by vm_compute].
Defined.

End Tombstones.
