(* ===== verification/Router.v ===== *)
(** * Router: admission of datagrams and the session table of the server

    Models the part of [KCPServer] (server.hpp, server.cpp) that decides what
    a received datagram may do: [get_or_create_session],
    [route_datagram_impl], [drop_replaced_target_locked], [close_connection],
    [do_cleanup], [stop] and [set_allowed_targets]. The candidate session's
    cryptography is [Crypto], the replay guard is [Tombstones].

    [get_or_create_session] releases the session lock between its phases, so
    it is a composition of atomic phases (pre-authentication block, throttle
    and decryption on the receive strand, commit block); the relation [step]
    of RouterProofs interleaves them with the other operations. *)

From Stdlib Require Import ZArith Lia.
From stdpp Require Import base list gmap strings numbers.
From S2P Require Import Prelude Config Asio Kcp Tombstones.
From S2P Require Crypto.

#[export] Instance ip_address_countable : Countable ip_address.
Proof.
  apply (inj_countable'
    (fun a => match a with V4 b => (false, b) | V6 b => (true, b) end)
    (fun '(v6, b) => if v6 : bool then V6 b else V4 b)).
  by intros [].
Defined.

(** What the server knows of a [KCPSession] object; [uid] is its identity. *)
Record session := mkSession {
  uid : Z;
  s_crypto : Crypto.t;
  s_running : bool;
  s_last_activity_us : Z;
  s_created_us : Z;
  s_handshake_done : bool;
  s_fec : FecConfig }.

(** [KCPSession::is_alive]. *)
Definition is_alive (now_us : Z) (s : session) : bool :=
  if negb (s_running s) then false
  else now_us - s_last_activity_us s <? KCP_TIMEOUT_SEC * 1000000.

(** [is_alive() && is_running()]. *)
Definition live (now_us : Z) (s : session) : bool := is_alive now_us s && s_running s.

(** [KcpTunnel::handshake_stalled]. *)
Definition handshake_stalled (now_us timeout_sec : Z) (s : session) : bool :=
  if s_handshake_done s then false
  else timeout_sec * 1000000 <=? now_us - s_created_us s.

(** [KCPSession::salt_matches]. *)
Definition salt_matches (packet : list Z) (s : session) : bool :=
  Crypto.matches_salt packet (s_crypto s).

(** [looks_like_fec_frame]: the little-endian type at bytes 4..5. *)
Definition looks_like_fec_frame (data : list Z) : bool :=
  if (length data <? 8)%nat then false
  else
    let type := le16_at data 4 in
    (type =? kTypeData) || (type =? kTypeParity) || (type =? kTypeOob).

(** A UDP endpoint. *)
Record endpoint := mkEndpoint { ep_addr : ip_address; ep_port : Z }.

(** The members of [KCPServer] the admission logic reads or writes. *)
Record server := mkServer {
  sessions : gmap (list Z) session;
  connections : gmap (list Z) (option Z);
  running : bool;
  stopped : bool;
  auth_attempts_window : Z;
  auth_window_start : Z;
  auth_failures_by_addr : gmap ip_address Z;
  tombstones : Tombstones.t;
  srv_key : list Z;
  srv_fec : FecConfig;
  next_uid : Z }.

Definition set_maps (ss : gmap (list Z) session) (cs : gmap (list Z) (option Z)) (r : server) : server :=
  mkServer ss cs (running r) (stopped r) (auth_attempts_window r) (auth_window_start r)
    (auth_failures_by_addr r) (tombstones r) (srv_key r) (srv_fec r) (next_uid r).

Definition set_auth (attempts start : Z) (failures : gmap ip_address Z) (r : server) : server :=
  mkServer (sessions r) (connections r) (running r) (stopped r) attempts start failures
    (tombstones r) (srv_key r) (srv_fec r) (next_uid r).

Definition set_tombstones (tb : Tombstones.t) (r : server) : server :=
  mkServer (sessions r) (connections r) (running r) (stopped r) (auth_attempts_window r)
    (auth_window_start r) (auth_failures_by_addr r) tb (srv_key r) (srv_fec r) (next_uid r).

(** What an operation makes happen outside the session tables. *)
Inductive effect : Type :=
| StopSession (id : Z)
| CloseSocket (sock : Z)
| StartSession (id : Z)
| InjectDecrypted (id : Z) (plaintext : list Z)
| ReceiveData (id : Z) (datagram : list Z).

Inductive reject_reason : Type :=
| PreAuthCap | AddressLimit | GlobalLimit | DecryptFailed
| Stopped | SessionCap | DuplicateSalt | ReplayedSalt.

Inductive outcome : Type :=
| Rejected (why : reject_reason)
| Existing (s : session)
| Created (s : session) (plaintext : list Z).

(** The clocks and the library faults of one call. [now] is the steady clock
    in nanoseconds, [auth_now] the clock of the authentication window. *)
Record env := mkEnv { now : Z; auth_now : Z; fault : Crypto.evp_fault }.

Definition now_us (e : env) : Z := now e / 1000.

Section WithAsio.
Context {I : AsioIp} {A : Crypto.Aead}.

(** [fmt::format("{}:{}", addr.to_string(), port)]. *)
Definition session_id (ep : endpoint) : list Z :=
  addr_to_string (ep_addr ep) ++ [58] ++ dec_bytes (ep_port ep).

(** [drop_replaced_target_locked(sid)]. *)
Definition drop_replaced_target (sid : list Z) (r : server) : server * list effect :=
  match connections r !! sid with
  | None => (r, [])
  | Some sock =>
      (set_maps (sessions r) (delete sid (connections r)) r,
       match sock with Some k => [CloseSocket k] | None => [] end)
  end.

(** [it->second->stop(); sessions_.erase(it); drop_replaced_target_locked]. *)
Definition evict (sid : list Z) (s : session) (r : server) : server * list effect :=
  let '(r', eff) :=
    drop_replaced_target sid (set_maps (delete sid (sessions r)) (connections r) r) in
  (r', StopSession (uid s) :: eff).

(** The pre-authentication critical section. [inl s]: an established session
    owns the datagram; [inr cap_reached] otherwise. *)
Definition pre_auth (e : env) (sid pkt : list Z) (r : server)
  : server * list effect * (session + bool) :=
  let cap (r : server) (live_mismatch : bool) :=
    MAX_CONCURRENT_SESSIONS <=?
      Z.of_nat (size (sessions r)) - (if live_mismatch then 1 else 0) in
  match sessions r !! sid with
  | Some s =>
      if live (now_us e) s then
        if salt_matches pkt s then (r, [], inl s)
        else (r, [], inr (cap r true))
      else
        let '(r', eff) := evict sid s r in (r', eff, inr (cap r' false))
  | None => (r, [], inr (cap r false))
  end.

(** The authentication throttle: window reset, per-address failure gate,
    global budget. *)
Definition auth_throttle (e : env) (addr : ip_address) (r : server)
  : server * option reject_reason :=
  let r :=
    if Tombstones.NS_PER_SEC <=? auth_now e - auth_window_start r
    then set_auth 0 (auth_now e) ∅ r else r in
  if MAX_AUTH_FAILURES_PER_ADDR_PER_SEC <=? default 0 (auth_failures_by_addr r !! addr) then
    (r, Some AddressLimit)
  else if MAX_AUTH_ATTEMPTS_PER_SEC <=? auth_attempts_window r then (r, Some GlobalLimit)
  else (set_auth (auth_attempts_window r + 1) (auth_window_start r) (auth_failures_by_addr r) r, None).

(** A failed decryption is charged to the source address, in a bounded table. *)
Definition count_failure (addr : ip_address) (r : server) : server :=
  match auth_failures_by_addr r !! addr with
  | Some n => set_auth (auth_attempts_window r) (auth_window_start r)
                (<[addr := u32 (n + 1)]> (auth_failures_by_addr r)) r
  | None =>
      if Z.of_nat (size (auth_failures_by_addr r)) <? MAX_TRACKED_AUTH_ADDRS
      then set_auth (auth_attempts_window r) (auth_window_start r)
             (<[addr := 1]> (auth_failures_by_addr r)) r
      else r
  end.

(** The candidate session's [Crypto] and its first decryption. *)
Definition candidate (e : env) (pkt : list Z) (r : server) : Crypto.t * list Z * error_code :=
  Crypto.decrypt_noexcept (fault e) pkt (Crypto.fresh (srv_key r) NONCE_DIR_SERVER true).

(** Throttle, decryption and failure accounting, all on the receive strand. *)
Definition authenticate (e : env) (addr : ip_address) (pkt : list Z) (r : server)
  : server * (reject_reason + (Crypto.t * list Z)) :=
  match auth_throttle e addr r with
  | (r, Some why) => (r, inl why)
  | (r, None) =>
      let '(c, plaintext, ec) := candidate e pkt r in
      if ec_failed ec then (count_failure addr r, inl DecryptFailed)
      else (r, inr (c, plaintext))
  end.

(** The FEC parameters of a session that adapts to its client's framing. *)
Definition session_fec (plaintext : list Z) (r : server) : FecConfig :=
  if looks_like_fec_frame plaintext then
    if fec_enabled (srv_fec r) then srv_fec r
    else Build_FecConfig FEC_ADAPTIVE_DATA_SHARDS FEC_ADAPTIVE_PARITY_SHARDS
  else fec_off.

(** Another live session already owns this salt. *)
Definition duplicate_salt (e : env) (sid pkt : list Z) (r : server) : bool :=
  existsb (fun '(other_sid, other) =>
             negb (bool_decide (other_sid = sid)) && salt_matches pkt other && live (now_us e) other)
          (map_to_list (sessions r)).

(** [make_shared<KCPSession>] plus the tombstone and the table insert. *)
Definition create_session (e : env) (sid plaintext : list Z) (c : Crypto.t) (r : server)
  : server * session :=
  let s := mkSession (next_uid r) c true (now_us e) (now_us e) false (session_fec plaintext r) in
  let tb := Tombstones.remember_salt (now e) (Crypto.session_salt c) (now e + Tombstones.TTL)
              (tombstones r) in
  (mkServer (<[sid := s]> (sessions r)) (connections r) (running r) (stopped r)
     (auth_attempts_window r) (auth_window_start r) (auth_failures_by_addr r) tb
     (srv_key r) (srv_fec r) (next_uid r + 1), s).

(** The rest of the second critical section once the endpoint's incumbent
    has been dealt with: cap, duplicate salt, replayed salt, creation. *)
Definition enroll (e : env) (sid pkt plaintext : list Z) (c : Crypto.t) (eff : list effect)
    (replayed : bool) (r : server) : server * list effect * outcome :=
  if MAX_CONCURRENT_SESSIONS <=? Z.of_nat (size (sessions r)) then (r, eff, Rejected SessionCap)
  else if duplicate_salt e sid pkt r then (r, eff, Rejected DuplicateSalt)
  else if replayed then (r, eff, Rejected ReplayedSalt)
  else if Tombstones.blocked (now e) (Crypto.session_salt c) (tombstones r) then
    (r, eff, Rejected ReplayedSalt)
  else
    let '(r', s) := create_session e sid plaintext c r in
    (r', eff ++ [StartSession (uid s); InjectDecrypted (uid s) plaintext], Created s plaintext).

(** The second critical section, after authentication. *)
Definition commit (e : env) (sid pkt plaintext : list Z) (c : Crypto.t) (r : server)
  : server * list effect * outcome :=
  if stopped r then (r, [], Rejected Stopped)
  else
    match sessions r !! sid with
    | None => enroll e sid pkt plaintext c [] false r
    | Some s =>
        if live (now_us e) s && salt_matches pkt s then (r, [], Existing s)
        else if live (now_us e) s &&
                Tombstones.blocked (now e) (Crypto.session_salt c) (tombstones r) then
          enroll e sid pkt plaintext c [] true r
        else let '(r', eff) := evict sid s r in enroll e sid pkt plaintext c eff false r'
    end.

(** [get_or_create_session]: the phases in order. The fast path is the first
    test of [pre_auth], made under the shared lock before the exclusive one. *)
Definition get_or_create_session (e : env) (ep : endpoint) (pkt : list Z) (r : server)
  : server * list effect * outcome :=
  let sid := session_id ep in
  match pre_auth e sid pkt r with
  | (r, eff, inl s) => (r, eff, Existing s)
  | (r, eff, inr true) => (r, eff, Rejected PreAuthCap)
  | (r, eff, inr false) =>
      match authenticate e (ep_addr ep) pkt r with
      | (r, inl why) => (r, eff, Rejected why)
      | (r, inr (c, plaintext)) =>
          let '(r, eff', out) := commit e sid pkt plaintext c r in (r, eff ++ eff', out)
      end
  end.

(** [route_datagram_impl]: an established session gets the datagram, a new
    one has already consumed it. *)
Definition route_datagram (e : env) (ep : endpoint) (pkt : list Z) (r : server)
  : server * list effect * outcome :=
  let '(r', eff, out) := get_or_create_session e ep pkt r in
  match out with
  | Existing s => (r', eff ++ [ReceiveData (uid s) pkt], out)
  | _ => (r', eff, out)
  end.

(** [close_connection(session_id, caller, owner)]. *)
Definition close_connection (sid : list Z) (owner : option Z) (r : server) : server * list effect :=
  let replaced :=
    match owner with
    | None => false
    | Some o => negb (bool_decide ((uid <$> sessions r !! sid) = Some o))
    end in
  if replaced then (r, [])
  else
    (set_maps (delete sid (sessions r)) (delete sid (connections r)) r,
     match connections r !! sid with Some (Some k) => [CloseSocket k] | _ => [] end ++
     match sessions r !! sid with Some s => [StopSession (uid s)] | None => [] end).

(** The sweep's verdict on one session. *)
Definition reaped (now_us : Z) (s : session) : bool :=
  negb (is_alive now_us s) || handshake_stalled now_us SERVER_SOCKS5_HANDSHAKE_TIMEOUT_SEC s.

(** [do_cleanup]: collect, erase, prune, then stop and close. *)
Definition do_cleanup (e : env) (r : server) : server * list effect :=
  if negb (running r) then (r, [])
  else
    let dead := filter (fun '(_, s) => reaped (now_us e) s = true) (map_to_list (sessions r)) in
    let keep {V} (m : gmap (list Z) V) := foldr (fun '(sid, _) m => delete sid m) m dead in
    (set_tombstones (Tombstones.prune (now e) (tombstones r))
       (set_maps (keep (sessions r)) (keep (connections r)) r),
     ((fun '(_, s) => StopSession (uid s)) <$> dead) ++
     omap (fun '(sid, _) => match connections r !! sid with
                            | Some (Some k) => Some (CloseSocket k)
                            | _ => None
                            end) dead).

(** The identity check of [start_forwarding]: a connected target is entered
    only while this session still owns its endpoint. *)
Definition register_connection (sid : list Z) (owner sock : Z) (r : server) : server :=
  if bool_decide ((uid <$> sessions r !! sid) = Some owner)
  then set_maps (sessions r) (<[sid := Some sock]> (connections r)) r else r.

(** [stop], on the caller's thread: the flags, then both maps are swapped out
    and everything in them is torn down. The key is wiped later, by a handler
    posted to the socket's strand ([ServerLife.on_stop_socket]). *)
Definition stop (r : server) : server * list effect :=
  if negb (running r) then (r, [])
  else
    (mkServer ∅ ∅ false true (auth_attempts_window r) (auth_window_start r)
       (auth_failures_by_addr r) (tombstones r) (srv_key r) (srv_fec r) (next_uid r),
     ((fun '(_, s) => StopSession (uid s)) <$> map_to_list (sessions r)) ++
     omap (fun '(_, c) => CloseSocket <$> c) (map_to_list (connections r))).

(** [set_allowed_targets]: empty entries are dropped. *)
Definition set_allowed_targets (targets : list (list Z)) : list (list Z) :=
  filter (fun t => t <> []) targets.

End WithAsio.
