(* ===== verification/RouterProofs.v ===== *)
(** * RouterProofs: invariants and guarantees of the session table

    The theorems about [Router]: the admission bounds as an invariant of a
    step relation that interleaves the phases of [get_or_create_session] with
    every other operation on the tables, and what each outcome guarantees to
    the sessions already there. *)

From Stdlib Require Import ZArith Lia.
From stdpp Require Import base list gmap strings numbers.
From S2P Require Import Prelude Config Asio Tombstones Router.
From S2P Require Crypto.

Section Proofs.
Context {I : AsioIp} {A : Crypto.Aead}.

(** ** Frames of the phases *)

(** Evicting removes one entry of each table and nothing else. *)
Lemma evict_spec sid s r :
  let r' := (evict sid s r).1 in
  sessions r' = delete sid (sessions r) /\ connections r' = delete sid (connections r) /\
  running r' = running r /\ stopped r' = stopped r /\
  auth_attempts_window r' = auth_attempts_window r /\ auth_window_start r' = auth_window_start r /\
  auth_failures_by_addr r' = auth_failures_by_addr r /\ tombstones r' = tombstones r /\
  srv_key r' = srv_key r /\ srv_fec r' = srv_fec r /\ next_uid r' = next_uid r.
Proof.
  unfold evict, drop_replaced_target. simpl.
  destruct (connections r !! sid) eqn:E; simpl; [done|].
  by rewrite (delete_id (connections r)).
Qed.

Lemma evict_effects sid s r id : StopSession id ∈ (evict sid s r).2 -> id = uid s.
Proof.
  unfold evict, drop_replaced_target. simpl.
  destruct (connections r !! sid) as [[k|]|]; simpl;
    rewrite ?elem_of_cons, ?elem_of_nil; intros; destruct_or?; by simplify_eq.
Qed.

(** What a list of effects hands to sessions: to whom, and which bytes. *)
Definition handed (eff : list effect) : list (Z * list Z) :=
  omap (fun x => match x with InjectDecrypted id d | ReceiveData id d => Some (id, d) | _ => None end) eff.

Lemma evict_handed sid s r : handed (evict sid s r).2 = [].
Proof. unfold evict, drop_replaced_target. simpl. by destruct (connections r !! sid) as [[k|]|]. Qed.

(** The pre-authentication block keeps every live session and everything
    else but the entry of a dead one. *)
Lemma pre_auth_spec e sid pkt r :
  let '(r', eff, res) := pre_auth e sid pkt r in
  (r' = r /\ eff = [] \/
   exists s, sessions r !! sid = Some s /\ live (now_us e) s = false /\ r' = (evict sid s r).1 /\
             eff = (evict sid s r).2) /\
  match res with
  | inl s => r' = r /\ sessions r !! sid = Some s /\ live (now_us e) s = true /\
             salt_matches pkt s = true
  | inr cap => (forall s, sessions r !! sid = Some s -> live (now_us e) s = true ->
                          salt_matches pkt s = false)
  end.
Proof.
  unfold pre_auth. destruct (sessions r !! sid) as [s|] eqn:E; [|by split; [left|]].
  destruct (live (now_us e) s) eqn:El.
  - destruct (salt_matches pkt s) eqn:Es; split; try (by left); [done|]. intros s' [= <-] _. done.
  - destruct (evict sid s r) as [r' eff] eqn:Ee. split; [right; by exists s; rewrite Ee|].
    intros s' [= <-] Hl. congruence.
Qed.

(** Authentication touches only the throttle's own state. *)
Lemma auth_throttle_frame e addr r :
  let r' := (auth_throttle e addr r).1 in
  sessions r' = sessions r /\ connections r' = connections r /\ running r' = running r /\
  stopped r' = stopped r /\ tombstones r' = tombstones r /\ srv_key r' = srv_key r /\
  srv_fec r' = srv_fec r /\ next_uid r' = next_uid r.
Proof. unfold auth_throttle. repeat case_bool; done. Qed.

Lemma count_failure_frame addr r :
  let r' := count_failure addr r in
  sessions r' = sessions r /\ connections r' = connections r /\ running r' = running r /\
  stopped r' = stopped r /\ tombstones r' = tombstones r /\ srv_key r' = srv_key r /\
  srv_fec r' = srv_fec r /\ next_uid r' = next_uid r.
Proof. unfold count_failure. destruct (_ !! addr); [done|]. by case_bool. Qed.

Lemma authenticate_frame e addr pkt r :
  let r' := (authenticate e addr pkt r).1 in
  sessions r' = sessions r /\ connections r' = connections r /\ running r' = running r /\
  stopped r' = stopped r /\ tombstones r' = tombstones r /\ srv_key r' = srv_key r /\
  srv_fec r' = srv_fec r /\ next_uid r' = next_uid r.
Proof.
  unfold authenticate. pose proof (auth_throttle_frame e addr r) as H.
  destruct (auth_throttle e addr r) as [r1 [why|]]; simpl in *; [done|].
  destruct (candidate e pkt r1) as [[c pt] ec]. case_bool; simpl; [|done].
  pose proof (count_failure_frame addr r1) as H1. simpl in H1.
  destruct_and!. split_and!; congruence.
Qed.

(** ** The invariant *)

Record router_inv (r : server) : Prop := {
  inv_cap : Z.of_nat (size (sessions r)) <= MAX_CONCURRENT_SESSIONS;
  inv_attempts : 0 <= auth_attempts_window r <= MAX_AUTH_ATTEMPTS_PER_SEC;
  inv_tracked : Z.of_nat (size (auth_failures_by_addr r)) <= MAX_TRACKED_AUTH_ADDRS;
  inv_failures : map_Forall (fun _ n => 1 <= n <= MAX_AUTH_FAILURES_PER_ADDR_PER_SEC)
                            (auth_failures_by_addr r);
  inv_tombs : Tombstones.bounded (tombstones r);
  inv_conns : forall sid, is_Some (connections r !! sid) -> is_Some (sessions r !! sid);
  inv_uids : map_Forall (fun _ s => uid s < next_uid r) (sessions r);
  inv_distinct : forall sid1 sid2 s1 s2, sessions r !! sid1 = Some s1 -> sessions r !! sid2 = Some s2 ->
                 uid s1 = uid s2 -> sid1 = sid2 }.

Lemma size_delete_le {V} (m : gmap (list Z) V) k : (size (delete k m) <= size m)%nat.
Proof.
  destruct (m !! k) eqn:E; [|by rewrite delete_id]. rewrite map_size_delete_Some by eauto. lia.
Qed.

(** Shrinking the session table preserves the invariant, when the upstream
    entries shrink with it. *)
Lemma router_inv_shrink r ss cs tb :
  router_inv r -> ss ⊆ sessions r -> Tombstones.bounded tb ->
  (forall sid, is_Some (cs !! sid) -> is_Some (ss !! sid)) ->
  router_inv (set_tombstones tb (set_maps ss cs r)).
Proof.
  intros [H1 H2 H3 H4 _ _ H5 H6] Hsub Htb Hcs. constructor; simpl; try done.
  - apply map_subseteq_size in Hsub. lia.
  - intros k s Hk. eapply H5, lookup_weaken; done.
  - intros sid1 sid2 s1 s2 L1 L2. eapply H6; by eapply lookup_weaken.
Qed.

Lemma router_inv_same_tables r r' :
  sessions r' = sessions r -> connections r' = connections r -> tombstones r' = tombstones r ->
  next_uid r' = next_uid r -> auth_attempts_window r' = auth_attempts_window r ->
  auth_failures_by_addr r' = auth_failures_by_addr r -> router_inv r -> router_inv r'.
Proof.
  intros E1 E2 E3 E4 E5 E6 [H1 H2 H3 H4 H5 H6 H7 H8]. constructor; rewrite ?E1, ?E2, ?E3, ?E4, ?E5, ?E6; done.
Qed.

(** An entry leaves both tables together. *)
Lemma router_inv_delete sid r :
  router_inv r -> router_inv (set_maps (delete sid (sessions r)) (delete sid (connections r)) r).
Proof.
  intros H. change (set_maps _ _ r)
    with (set_tombstones (tombstones r) (set_maps (delete sid (sessions r)) (delete sid (connections r)) r)).
  apply router_inv_shrink.
  - done.
  - apply delete_subseteq.
  - apply H.
  - intros k [c Hc]. apply lookup_delete_Some in Hc as [Hne Hc]. rewrite lookup_delete_ne by done.
    apply (inv_conns r H). by eexists.
Qed.

Lemma evict_inv sid s r : router_inv r -> router_inv (evict sid s r).1.
Proof.
  intros H. destruct (evict_spec sid s r) as (Es & Ec & _ & _ & Ea & _ & Ef & Et & _ & _ & Eu).
  by apply (router_inv_same_tables (set_maps (delete sid (sessions r)) (delete sid (connections r)) r));
    try done; apply router_inv_delete.
Qed.

Lemma pre_auth_inv e sid pkt r : router_inv r -> router_inv (pre_auth e sid pkt r).1.1.
Proof.
  intros H. pose proof (pre_auth_spec e sid pkt r) as Hs.
  destruct (pre_auth e sid pkt r) as [[r' eff] res]. simpl.
  destruct Hs as [[[-> _]|(s & _ & _ & -> & _)] _]; [done | by apply evict_inv].
Qed.

Lemma auth_throttle_inv e addr r :
  router_inv r -> router_inv (auth_throttle e addr r).1 /\
  ((auth_throttle e addr r).2 = None ->
   default 0 (auth_failures_by_addr (auth_throttle e addr r).1 !! addr) < MAX_AUTH_FAILURES_PER_ADDR_PER_SEC).
Proof.
  intros H. unfold auth_throttle.
  set (r0 := if _ <=? _ then set_auth 0 (auth_now e) ∅ r else r).
  assert (H0 : router_inv r0).
  { unfold r0. case_bool; [|done]. destruct H as [H1 H2 H3 H4 H5 H6 H7 H8].
    constructor; simpl; try done. }
  destruct H0 as [H1 H2 H3 H4 H5 H6 H7 H8].
  repeat case_bool; zb_props; simpl; (split; [constructor; simpl; (done || lia) | (done || intros _; lia)]).
Qed.

Lemma count_failure_inv addr r :
  router_inv r ->
  default 0 (auth_failures_by_addr r !! addr) < MAX_AUTH_FAILURES_PER_ADDR_PER_SEC ->
  router_inv (count_failure addr r).
Proof.
  intros [H1 H2 H3 H4 H5 H6 H7 H8] Hlt. unfold count_failure.
  destruct (auth_failures_by_addr r !! addr) as [n|] eqn:E; simpl in Hlt.
  - specialize (H4 _ _ E) as Hn. simpl in Hn. unfold MAX_AUTH_FAILURES_PER_ADDR_PER_SEC in *.
    constructor; simpl; try done.
    + rewrite map_size_insert_Some by eauto. done.
    + apply map_Forall_insert_2; [|done]. rewrite u32_small; unfold MAX_AUTH_FAILURES_PER_ADDR_PER_SEC; lia.
  - case_bool; zb_props; [|by constructor]. constructor; simpl; try done.
    + rewrite map_size_insert_None by done. lia.
    + apply map_Forall_insert_2; [|done]. by vm_compute.
Qed.

Lemma authenticate_inv e addr pkt r : router_inv r -> router_inv (authenticate e addr pkt r).1.
Proof.
  intros H. unfold authenticate. destruct (auth_throttle_inv e addr r H) as [H1 H2].
  destruct (auth_throttle e addr r) as [r1 [why|]]; simpl in *; [done|].
  destruct (candidate e pkt r1) as [[c pt] ec]. case_bool; simpl; [|done].
  by apply count_failure_inv; [|apply H2].
Qed.

Lemma create_inv e sid pt c r :
  router_inv r -> Z.of_nat (size (sessions r)) < MAX_CONCURRENT_SESSIONS ->
  router_inv (create_session e sid pt c r).1.
Proof.
  intros [H1 H2 H3 H4 Htb Hcs H5 H6] Hlt. constructor; simpl; try done.
  - destruct (sessions r !! sid) eqn:E.
    + rewrite map_size_insert_Some by eauto. lia.
    + rewrite map_size_insert_None by done. lia.
  - by apply Tombstones.remember_bounded.
  - intros k Hk. rewrite lookup_insert_is_Some. destruct (decide (sid = k)); [by left | right]. auto.
  - apply map_Forall_insert_2; [simpl; lia|]. intros k s Hk. specialize (H5 _ _ Hk). simpl in *. lia.
  - intros sid1 sid2 s1 s2 L1 L2 Eu. rewrite lookup_insert_Some in L1, L2.
    destruct L1 as [[<- <-]|[Hn1 L1]], L2 as [[<- <-]|[Hn2 L2]]; [done | | |by eapply H6].
    + specialize (H5 _ _ L2). simpl in *. lia.
    + specialize (H5 _ _ L1). simpl in *. lia.
Qed.

Lemma enroll_inv e sid pkt pt c eff rep r :
  router_inv r -> router_inv (enroll e sid pkt pt c eff rep r).1.1.
Proof.
  intros H. unfold enroll. repeat (case_bool; [done|]). zb_props.
  pose proof (create_inv e sid pt c r H ltac:(lia)) as Hc.
  by destruct (create_session e sid pt c r).
Qed.

Lemma commit_inv e sid pkt pt c r : router_inv r -> router_inv (commit e sid pkt pt c r).1.1.
Proof.
  intros H. unfold commit. case_bool; [done|].
  destruct (sessions r !! sid) as [s|]; [|by apply enroll_inv].
  case_bool; [done|]. case_bool; [by apply enroll_inv|].
  pose proof (evict_inv sid s r H) as He. destruct (evict sid s r) as [r' eff].
  by apply enroll_inv.
Qed.

Lemma cleanup_sub {V W} (dead : list (list Z * W)) (m : gmap (list Z) V) :
  foldr (fun '(sid, _) m => delete sid m) m dead ⊆ m.
Proof.
  induction dead as [|[sid w] dead IH]; simpl; [done|].
  transitivity (foldr (fun '(sid, _) m => delete sid m) m dead); [apply delete_subseteq | done].
Qed.

Lemma close_inv sid owner r : router_inv r -> router_inv (close_connection sid owner r).1.
Proof. intros H. unfold close_connection. case_bool; [done|]. by apply router_inv_delete. Qed.

(** Deleting a list of keys. *)
Lemma foldr_delete_lookup {V W} (dead : list (list Z * W)) (m : gmap (list Z) V) k :
  foldr (fun '(sid, _) m => delete sid m) m dead !! k =
  if decide (k ∈ dead.*1) then None else m !! k.
Proof.
  induction dead as [|[sid w] dead IH]; simpl.
  - by destruct (decide (k ∈ [])) as [H%elem_of_nil|].
  - destruct (decide (k = sid)) as [->|Hne].
    + rewrite lookup_delete_eq. by rewrite decide_True by (apply elem_of_cons; by left).
    + rewrite lookup_delete_ne, IH by done. apply decide_ext.
      change (list_fmap _ _ fst dead) with (dead.*1). rewrite elem_of_cons.
      split; [by right | by intros [?|?]].
Qed.

Lemma cleanup_inv e r : router_inv r -> router_inv (do_cleanup e r).1.
Proof.
  intros H. unfold do_cleanup. case_bool; [done|].
  apply router_inv_shrink; [done | apply cleanup_sub | apply Tombstones.prune_bounded, H |].
  intros sid. rewrite !foldr_delete_lookup. case_decide; [done|]. apply (inv_conns r H).
Qed.

Lemma stop_inv r : router_inv r -> router_inv (stop r).1.
Proof.
  intros [H1 H2 H3 H4 H5 H6 H7 H8]. unfold stop. case_bool; [done|].
  constructor; simpl; try done. by intros ? [? ?].
Qed.

Lemma register_inv sid owner sock r : router_inv r -> router_inv (register_connection sid owner sock r).
Proof.
  intros [H1 H2 H3 H4 H5 H6 H7 H8]. unfold register_connection. case_bool_decide as E; [|done].
  constructor; simpl; try done. intros k Hk.
  destruct (decide (sid = k)) as [<-|Hne]; [|rewrite lookup_insert_ne in Hk by done; auto].
  apply fmap_Some in E as (s & Hs & _). by eexists.
Qed.

Lemma get_or_create_inv e ep pkt r :
  router_inv r -> router_inv (get_or_create_session e ep pkt r).1.1.
Proof.
  intros H. unfold get_or_create_session.
  pose proof (pre_auth_inv e (session_id ep) pkt r H) as H1.
  destruct (pre_auth e (session_id ep) pkt r) as [[r1 eff] [s|[]]]; simpl in *; try done.
  pose proof (authenticate_inv e (ep_addr ep) pkt r1 H1) as H2.
  destruct (authenticate e (ep_addr ep) pkt r1) as [r2 [why|[c pt]]]; simpl in *; [done|].
  pose proof (commit_inv e (session_id ep) pkt pt c r2 H2) as H3.
  by destruct (commit e (session_id ep) pkt pt c r2) as [[r3 eff3] out].
Qed.

(** ** Interleavings

    The receive strand handles one datagram at a time, phase by phase; the
    timer, the sessions' strands and [stop] run in between. *)

Inductive flight : Type :=
| Idle
| PreAuthDone (ep : endpoint) (pkt : list Z)
| AuthDone (ep : endpoint) (pkt plaintext : list Z) (c : Crypto.t).

Inductive step : server * flight -> server * flight -> Prop :=
| step_pre_done e ep pkt r r' eff res :
    pre_auth e (session_id ep) pkt r = (r', eff, res) -> res <> inr false ->
    step (r, Idle) (r', Idle)
| step_pre e ep pkt r r' eff :
    pre_auth e (session_id ep) pkt r = (r', eff, inr false) ->
    step (r, Idle) (r', PreAuthDone ep pkt)
| step_auth_fail e ep pkt r r' why :
    authenticate e (ep_addr ep) pkt r = (r', inl why) ->
    step (r, PreAuthDone ep pkt) (r', Idle)
| step_auth e ep pkt r r' c plaintext :
    authenticate e (ep_addr ep) pkt r = (r', inr (c, plaintext)) ->
    step (r, PreAuthDone ep pkt) (r', AuthDone ep pkt plaintext c)
| step_commit e ep pkt plaintext c r r' eff out :
    commit e (session_id ep) pkt plaintext c r = (r', eff, out) ->
    step (r, AuthDone ep pkt plaintext c) (r', Idle)
| step_close sid owner r f : step (r, f) ((close_connection sid owner r).1, f)
| step_cleanup e r f : step (r, f) ((do_cleanup e r).1, f)
| step_stop r f : step (r, f) ((stop r).1, f)
| step_session sid s s' r f :
    (* a session works: activity, handshake, its own stop, its keys in use *)
    sessions r !! sid = Some s -> uid s' = uid s ->
    step (r, f) (set_maps (<[sid := s']> (sessions r)) (connections r) r, f)
| step_connect sid owner sock r f : step (r, f) (register_connection sid owner sock r, f).

(** A freshly constructed server. *)
Definition init_server (psk : list Z) (fec : FecConfig) : server :=
  mkServer ∅ ∅ true false 0 0 ∅ Tombstones.empty psk fec 0.

Inductive reachable (psk : list Z) (fec : FecConfig) : server * flight -> Prop :=
| reach_init : reachable psk fec (init_server psk fec, Idle)
| reach_step x y : reachable psk fec x -> step x y -> reachable psk fec y.

Lemma init_inv psk fec : router_inv (init_server psk fec).
Proof. constructor; simpl; try done; [split; [by vm_compute|] |]; by intros ? [? ?]. Qed.

Lemma session_update_inv sid s s' r :
  router_inv r -> sessions r !! sid = Some s -> uid s' = uid s ->
  router_inv (set_maps (<[sid := s']> (sessions r)) (connections r) r).
Proof.
  intros [H1 H2 H3 H4 Htb Hcs H5 H6] Hs Hu. constructor; simpl; try done.
  - by rewrite map_size_insert_Some by eauto.
  - intros k Hk. rewrite lookup_insert_is_Some. destruct (decide (sid = k)); [by left | right]. auto.
  - apply map_Forall_insert_2; [|done]. rewrite Hu. by apply (H5 sid s).
  - assert (Hl : forall k x, <[sid := s']> (sessions r) !! k = Some x ->
               exists y, sessions r !! k = Some y /\ uid y = uid x).
    { intros k x. rewrite lookup_insert_Some. intros [[<- <-]|[_ Hk]]; eauto. }
    intros k1 k2 s1 s2 L1 L2 E. destruct (Hl _ _ L1) as (y1 & Y1 & U1).
    destruct (Hl _ _ L2) as (y2 & Y2 & U2). apply (H6 k1 k2 y1 y2 Y1 Y2). congruence.
Qed.

Lemma step_inv x y : step x y -> router_inv x.1 -> router_inv y.1.
Proof.
  intros Hst H. destruct Hst; simpl in *.
  - pose proof (pre_auth_inv e (session_id ep) pkt r H) as Hp. by rewrite H0 in Hp.
  - pose proof (pre_auth_inv e (session_id ep) pkt r H) as Hp. by rewrite H0 in Hp.
  - pose proof (authenticate_inv e (ep_addr ep) pkt r H) as Hp. by rewrite H0 in Hp.
  - pose proof (authenticate_inv e (ep_addr ep) pkt r H) as Hp. by rewrite H0 in Hp.
  - pose proof (commit_inv e (session_id ep) pkt plaintext c r H) as Hp. by rewrite H0 in Hp.
  - by apply close_inv.
  - by apply cleanup_inv.
  - by apply stop_inv.
  - by eapply session_update_inv.
  - by apply register_inv.
Qed.

(** A whole call of [get_or_create_session] is a path of the step relation. *)
Lemma reachable_call psk fec e ep pkt r :
  reachable psk fec (r, Idle) -> reachable psk fec ((get_or_create_session e ep pkt r).1.1, Idle).
Proof.
  intros H. unfold get_or_create_session.
  destruct (pre_auth e (session_id ep) pkt r) as [[r1 eff] [s|[]]] eqn:E1.
  - eapply reach_step; [exact H|]. by eapply step_pre_done.
  - eapply reach_step; [exact H|]. by eapply step_pre_done.
  - assert (H1 : reachable psk fec (r1, PreAuthDone ep pkt))
      by (eapply reach_step; [exact H | by eapply step_pre]).
    destruct (authenticate e (ep_addr ep) pkt r1) as [r2 [why|[c pt]]] eqn:E2.
    + eapply reach_step; [exact H1 | by eapply step_auth_fail].
    + assert (H2 : reachable psk fec (r2, AuthDone ep pkt pt c))
        by (eapply reach_step; [exact H1 | by eapply step_auth]).
      destruct (commit e (session_id ep) pkt pt c r2) as [[r3 eff'] out] eqn:E3.
      eapply reach_step; [exact H2 | by eapply step_commit].
Qed.

(** C14: in every state the server can reach, under any interleaving of
    datagram phases, session activity, teardowns, sweeps and shutdown: at most
    4096 sessions, at most 5000 authentication attempts charged to the
    current window, at most 8192 tracked addresses each with at most 20
    failures, at most 16384 tombstones, every one in the expiry queue; every
    upstream entry belongs to a registered session; and session objects have
    pairwise distinct identities. *)
Theorem reachable_bounds (psk : list Z) (fec : FecConfig) (x : server * flight) :
  reachable psk fec x -> router_inv x.1.
Proof.
  induction 1 as [|x y _ IH Hst]; [|by eapply step_inv]. apply init_inv.
Qed.

(** ** What each outcome guarantees *)

(** Every live session keeps its entry and its upstream socket and is not
    told to stop. *)
Definition spares_live (e : env) (r : server) (res : server * list effect) : Prop :=
  forall sid s, sessions r !! sid = Some s -> live (now_us e) s = true ->
    sessions res.1 !! sid = Some s /\ connections res.1 !! sid = connections r !! sid /\
    StopSession (uid s) ∉ res.2.

Lemma spares_live_refl e r : spares_live e r (r, []).
Proof. intros sid s Hs Hl. split_and!; [done | done | apply not_elem_of_nil]. Qed.

(** Evicting a dead entry spares the live ones. *)
Lemma evict_spares e sid0 s0 r :
  router_inv r -> sessions r !! sid0 = Some s0 -> live (now_us e) s0 = false ->
  spares_live e r (evict sid0 s0 r).
Proof.
  intros Hi H0 Hd sid s Hs Hl.
  destruct (evict_spec sid0 s0 r) as (Es & Ec & _).
  assert (Hne : sid <> sid0) by (intros ->; simplify_eq; congruence).
  rewrite Es, Ec, !lookup_delete_ne by done. split_and!; [done | done |].
  intros Hin. apply evict_effects in Hin. apply Hne. by apply (inv_distinct r Hi sid sid0 s s0).
Qed.

Lemma pre_auth_spares e sid pkt r :
  router_inv r -> spares_live e r (pre_auth e sid pkt r).1.
Proof.
  intros Hi. pose proof (pre_auth_spec e sid pkt r) as H.
  destruct (pre_auth e sid pkt r) as [[r' eff] res]. simpl.
  destruct H as [[[-> ->]|(s & Hs & Hd & -> & ->)] _]; [apply spares_live_refl|].
  rewrite <- surjective_pairing. by apply evict_spares.
Qed.

Lemma candidate_key e pkt r r' : srv_key r' = srv_key r -> candidate e pkt r' = candidate e pkt r.
Proof. unfold candidate. by intros ->. Qed.

(** The key survives the phases before the decryption. *)
Lemma pre_auth_key e sid pkt r : srv_key (pre_auth e sid pkt r).1.1 = srv_key r.
Proof.
  pose proof (pre_auth_spec e sid pkt r) as H. destruct (pre_auth e sid pkt r) as [[r' eff] res].
  destruct H as [[[-> _]|(s & _ & _ & -> & _)] _]; [done|]. simpl.
  by destruct (evict_spec sid s r) as (_ & _ & _ & _ & _ & _ & _ & _ & -> & _).
Qed.

(** When authentication succeeds, it is the candidate's own decryption. *)
Lemma authenticate_ok e addr pkt r r' c pt :
  authenticate e addr pkt r = (r', inr (c, pt)) -> candidate e pkt r = (c, pt, ec_none).
Proof.
  unfold authenticate. pose proof (auth_throttle_frame e addr r) as (_ & _ & _ & _ & _ & Hk & _).
  destruct (auth_throttle e addr r) as [r1 [why|]]; [done|]. simpl in Hk.
  rewrite <- (candidate_key e pkt r r1 Hk).
  destruct (candidate e pkt r1) as [[c1 pt1] ec]. destruct ec; simpl; by intros [= <- <- <-].
Qed.

(** C6: an unauthenticated datagram cannot hurt a session. Whatever its
    source address and contents, if it does not decrypt under a fresh
    instance of the shared key, routing it leaves every live session
    registered, with its upstream connection, and stops none of them; in
    particular a forged datagram with a foreign salt never evicts the live
    session of the endpoint it claims to come from. *)
Theorem unauthenticated_never_evicts (e : env) (ep : endpoint) (pkt : list Z) (r : server) :
  router_inv r -> (candidate e pkt r).2 <> ec_none ->
  spares_live e r (route_datagram e ep pkt r).1.
Proof.
  intros Hi Hc. pose proof (pre_auth_spares e (session_id ep) pkt r Hi) as Hp.
  pose proof (pre_auth_key e (session_id ep) pkt r) as Hk.
  unfold route_datagram, get_or_create_session.
  destruct (pre_auth e (session_id ep) pkt r) as [[r1 eff1] [s1|[]]] eqn:Ep; simpl in *; try done.
  - intros sid s Hs Hl. destruct (Hp sid s Hs Hl) as (H1 & H2 & H3). split_and!; [done | done |].
    simpl. intros [Hin|Hin]%elem_of_app; [done|]. by apply list_elem_of_singleton in Hin.
  - destruct (authenticate e (ep_addr ep) pkt r1) as [r2 [why|[c pt]]] eqn:Ea.
    + pose proof (authenticate_frame e (ep_addr ep) pkt r1) as (F1 & F2 & _). rewrite Ea in F1, F2.
      intros sid s Hs Hl. destruct (Hp sid s Hs Hl) as (H1 & H2 & H3). simpl in *.
      by rewrite F1, F2.
    + exfalso. apply authenticate_ok in Ea. rewrite (candidate_key e pkt r r1 Hk) in Ea.
      by rewrite Ea in Hc.
Qed.

(** An established session never pays for admission: a datagram from
    its endpoint that carries its salt is handed to it and nothing else
    happens: no table, throttle or tombstone changes, even when the server is
    at its session cap or the address has exhausted its failure budget. *)
Theorem established_fast_path (e : env) (ep : endpoint) (pkt : list Z) (r : server) (s : session) :
  sessions r !! session_id ep = Some s -> live (now_us e) s = true -> salt_matches pkt s = true ->
  route_datagram e ep pkt r = (r, [ReceiveData (uid s) pkt], Existing s).
Proof.
  intros Hs Hl Hm. unfold route_datagram, get_or_create_session, pre_auth.
  by rewrite Hs, Hl, Hm.
Qed.

(** Creation outcomes of the enrolment block. *)
Lemma enroll_created e sid pkt pt c eff rep r r' eff' s pt' :
  enroll e sid pkt pt c eff rep r = (r', eff', Created s pt') ->
  r' = (create_session e sid pt c r).1 /\ s = (create_session e sid pt c r).2 /\ pt' = pt /\
  Z.of_nat (size (sessions r)) < MAX_CONCURRENT_SESSIONS /\ duplicate_salt e sid pkt r = false /\
  Tombstones.blocked (now e) (Crypto.session_salt c) (tombstones r) = false /\
  handed eff' = handed eff ++ [(uid s, pt)].
Proof.
  unfold enroll. repeat (case_bool; try done). zb_props. intros H.
  destruct (create_session e sid pt c r). simplify_eq. split_and!; try done. unfold handed. by rewrite omap_app.
Qed.

Lemma duplicate_salt_false e sid pkt r :
  duplicate_salt e sid pkt r = false ->
  forall sid' s', sid' <> sid -> sessions r !! sid' = Some s' -> live (now_us e) s' = true ->
    salt_matches pkt s' = false.
Proof.
  unfold duplicate_salt. intros H sid' s' Hne Hs Hl.
  destruct (salt_matches pkt s') eqn:Em; [|done]. exfalso.
  apply not_true_iff_false in H. apply H, existsb_exists. exists (sid', s'). split.
  - by apply list_elem_of_In, elem_of_map_to_list.
  - by rewrite bool_decide_eq_false_2, Em, Hl by done.
Qed.

(** The state just before creation, when a commit creates. *)
Lemma commit_created e sid pkt pt c r r' eff s pt' :
  commit e sid pkt pt c r = (r', eff, Created s pt') ->
  stopped r = false /\
  exists r0 eff0,
    enroll e sid pkt pt c eff0 false r0 = (r', eff, Created s pt') /\ handed eff0 = [] /\
    sessions r0 = delete sid (sessions r) /\ tombstones r0 = tombstones r /\
    (forall sid', sid' <> sid -> connections r0 !! sid' = connections r !! sid') /\
    (forall s0, sessions r !! sid = Some s0 -> live (now_us e) s0 = true -> salt_matches pkt s0 = false).
Proof.
  unfold commit. destruct (stopped r); [done|]. intros H. split; [done|].
  destruct (sessions r !! sid) as [s0|] eqn:E.
  - destruct (live (now_us e) s0 && salt_matches pkt s0) eqn:Elm; [done|].
    destruct (live (now_us e) s0 && Tombstones.blocked _ _ _) eqn:Elb.
    { unfold enroll in H. repeat (case_bool; try done). }
    destruct (evict_spec sid s0 r) as (Es & Ec & _ & _ & _ & _ & _ & Et & _).
    pose proof (evict_handed sid s0 r) as Hh.
    destruct (evict sid s0 r) as [r0 eff0]. exists r0, eff0. split_and!; try done.
    + intros sid' Hne. simpl in Ec. by rewrite Ec, lookup_delete_ne.
    + intros s1 [= <-] Hl. by rewrite Hl in Elm.
  - exists r, []. split_and!; try done. by rewrite delete_id.
Qed.

(** A creation is an enrolment of the decrypted candidate in tables that
    only lost the sender's own entry. *)
Lemma goc_created e ep pkt r r' eff s pt :
  get_or_create_session e ep pkt r = (r', eff, Created s pt) ->
  exists c r0 eff0 eff1, candidate e pkt r = (c, pt, ec_none) /\
    enroll e (session_id ep) pkt pt c eff0 false r0 = (r', eff1, Created s pt) /\
    handed eff = [(uid s, pt)] /\
    (forall s', sessions r !! session_id ep = Some s' -> live (now_us e) s' = true -> salt_matches pkt s' = false) /\
    (forall sid', sid' <> session_id ep -> sessions r0 !! sid' = sessions r !! sid') /\
    tombstones r0 = tombstones r.
Proof.
  unfold get_or_create_session. set (sid := session_id ep).
  pose proof (pre_auth_key e sid pkt r) as Hk. pose proof (pre_auth_spec e sid pkt r) as Hp.
  destruct (pre_auth e sid pkt r) as [[r1 eff1] [s1|[]]] eqn:Ep; simpl in Hk; try done. destruct Hp as [Hp Hown].
  assert (He1 : handed eff1 = []) by (destruct Hp as [[_ ->]|(s0 & _ & _ & _ & ->)]; [done | apply evict_handed]).
  destruct (authenticate e (ep_addr ep) pkt r1) as [r2 [why|[c pt1]]] eqn:Ea; [done|].
  pose proof (authenticate_frame e (ep_addr ep) pkt r1) as (F1 & _ & _ & _ & F5 & _).
  rewrite Ea in F1, F5. simpl in F1, F5.
  apply authenticate_ok in Ea. rewrite (candidate_key e pkt r r1 Hk) in Ea.
  destruct (commit e sid pkt pt1 c r2) as [[r3 eff3] out] eqn:Ec. intros [= <- <- ->].
  apply commit_created in Ec as (_ & r0 & eff0 & En & Hh0 & Es & Et & _ & _).
  pose proof En as En'. apply enroll_created in En' as (_ & _ & -> & _ & _ & _ & Hh).
  exists c, r0, eff0, eff3. split_and!; [done | done | | done | |].
  - unfold handed in *. by rewrite omap_app, He1, Hh, Hh0.
  - intros sid' Hne. rewrite Es, lookup_delete_ne, F1 by done.
    destruct Hp as [[-> _]|(s0 & _ & _ & -> & _)]; [done|].
    destruct (evict_spec sid s0 r) as (-> & _). by rewrite lookup_delete_ne.
  - rewrite Et, F5. destruct Hp as [[-> _]|(s0 & _ & _ & -> & _)]; [done|].
    by destruct (evict_spec sid s0 r) as (_ & _ & _ & _ & _ & _ & _ & -> & _).
Qed.

(** C15: routing a datagram creates a session only if the datagram
    authenticates, no session live before the call, at any endpoint, has its
    salt, and the salt was not accepted within the tombstone's lifetime. The
    new session has consumed exactly that datagram: its cipher is a fresh
    instance that decrypted this datagram and nothing else, with the keys of
    its salt and a replay window that has seen exactly its counter, and the
    only bytes handed to any session are its plaintext, to the new one. It is
    registered under the sender's endpoint, every other endpoint keeps what it
    had, and the salt is refused for the full TTL. *)
Theorem created_session_fresh (e : env) (ep : endpoint) (pkt : list Z) (r r' : server)
    (eff : list effect) (s : session) (pt : list Z) :
  route_datagram e ep pkt r = (r', eff, Created s pt) ->
  candidate e pkt r = (s_crypto s, pt, ec_none) /\ handed eff = [(uid s, pt)] /\
  Crypto.salt_set (s_crypto s) = true /\ Crypto.session_salt (s_crypto s) = Crypto.pkt_salt pkt /\
  Crypto.window_inv [Crypto.pkt_counter pkt] (s_crypto s) /\
  (forall sid' s', sessions r !! sid' = Some s' -> live (now_us e) s' = true -> salt_matches pkt s' = false) /\
  sessions r' !! session_id ep = Some s /\
  (forall sid', sid' <> session_id ep -> sessions r' !! sid' = sessions r !! sid') /\
  Tombstones.blocked (now e) (Crypto.pkt_salt pkt) (tombstones r) = false /\
  (forall t, now e <= t < now e + Tombstones.TTL ->
     Tombstones.blocked t (Crypto.pkt_salt pkt) (tombstones r') = true).
Proof.
  intros H. assert (Hg : get_or_create_session e ep pkt r = (r', eff, Created s pt)).
  { unfold route_datagram in H. destruct (get_or_create_session e ep pkt r) as [[r1 eff1] []]; congruence. }
  apply goc_created in Hg as (c & r0 & eff0 & eff1 & Ea & En & Hh & Hown & Hsub & Htb).
  apply enroll_created in En as (-> & -> & _ & _ & Hdup & Hblk & _).
  pose proof Ea as Hsalt. unfold candidate in Hsalt.
  apply Crypto.fresh_decrypt_salt in Hsalt as (Hset & Hsalt & _).
  rewrite Ea, <- Hsalt, Htb in *. simpl in *. split_and!; try done.
  - apply (Crypto.fresh_decrypt_window (fault e) pkt [] (srv_key r) NONCE_DIR_SERVER c pt). exact Ea.
  - intros sid' s' Hs Hl. destruct (decide (sid' = session_id ep)) as [->|Hne]; [by apply Hown|].
    apply (duplicate_salt_false e _ pkt r0 Hdup sid' s' Hne); [by rewrite Hsub | done].
  - by rewrite lookup_insert_eq.
  - intros sid' Hne. by rewrite lookup_insert_ne, Hsub.
  - intros t Ht. unfold Tombstones.blocked, Tombstones.remember_salt. simpl.
    rewrite lookup_insert_eq. apply Z.ltb_lt. lia.
Qed.

(** Replayed salts are harmless: a datagram whose salt has an unexpired
    tombstone creates no session and leaves every live session in place, even
    the one at its own endpoint and even though the datagram authenticates. *)
Theorem replayed_salt_harmless (e : env) (ep : endpoint) (pkt : list Z) (r : server) :
  router_inv r -> Tombstones.blocked (now e) (Crypto.pkt_salt pkt) (tombstones r) = true ->
  spares_live e r (get_or_create_session e ep pkt r).1 /\
  (forall s pt, (get_or_create_session e ep pkt r).2 <> Created s pt).
Proof.
  intros Hi Hb. split.
  2:{ intros s pt E. destruct (get_or_create_session e ep pkt r) as [[r' eff] out] eqn:Eg. simpl in E.
      subst out. apply goc_created in Eg as (c & r0 & eff0 & eff1 & Ea & En & _ & _ & _ & Htb).
      apply enroll_created in En as (_ & _ & _ & _ & _ & Hblk & _).
      unfold candidate in Ea. apply Crypto.fresh_decrypt_salt in Ea as (_ & Hsalt & _).
      congruence. }
  pose proof (pre_auth_spares e (session_id ep) pkt r Hi) as Hp.
  pose proof (pre_auth_inv e (session_id ep) pkt r Hi) as Hi1.
  pose proof (pre_auth_spec e (session_id ep) pkt r) as Hspec.
  pose proof (pre_auth_key e (session_id ep) pkt r) as Hk.
  unfold get_or_create_session. set (sid := session_id ep) in *.
  destruct (pre_auth e sid pkt r) as [[r1 eff1] [s1|[]]] eqn:Ep; simpl in *; try done.
  pose proof (authenticate_frame e (ep_addr ep) pkt r1) as (F1 & F2 & _ & _ & F5 & _).
  pose proof (authenticate_inv e (ep_addr ep) pkt r1 Hi1) as Hi2.
  destruct (authenticate e (ep_addr ep) pkt r1) as [r2 [why|[c pt1]]] eqn:Ea; simpl in *.
  { intros sid' s' Hs Hl. destruct (Hp sid' s' Hs Hl) as (H1 & H2 & H3). simpl. by rewrite F1, F2. }
  apply authenticate_ok in Ea. unfold candidate in Ea.
  apply Crypto.fresh_decrypt_salt in Ea as (_ & Hsalt & _).
  assert (Htb : tombstones r2 = tombstones r).
  { rewrite F5. destruct Hspec as [[[-> _]|(s0 & _ & _ & -> & _)] _]; [done|].
    by destruct (evict_spec sid s0 r) as (_ & _ & _ & _ & _ & _ & _ & -> & _). }
  assert (Hc : spares_live e r2 (commit e sid pkt pt1 c r2).1).
  { unfold commit. rewrite Htb, Hsalt, Hb. destruct (stopped r2); [apply spares_live_refl|].
    destruct (sessions r2 !! sid) as [s0|] eqn:E.
    - destruct (live (now_us e) s0) eqn:El; simpl.
      + destruct (salt_matches pkt s0); [apply spares_live_refl|].
        unfold enroll. repeat case_bool; apply spares_live_refl.
      + pose proof (evict_spares e sid s0 r2 Hi2 E El) as Hev.
        destruct (evict_spec sid s0 r2) as (_ & _ & _ & _ & _ & _ & _ & Et & _).
        destruct (evict sid s0 r2) as [r3 eff3]. simpl in Et. unfold enroll.
        rewrite Et, Htb, Hsalt, Hb. by repeat case_bool.
    - unfold enroll. rewrite Htb, Hsalt, Hb. repeat case_bool; apply spares_live_refl. }
  destruct (commit e sid pkt pt1 c r2) as [[r3 eff3] out]. simpl in *.
  intros sid' s' Hs Hl. destruct (Hp sid' s' Hs Hl) as (H1 & H2 & H3).
  simpl in H1. rewrite <- F1 in H1. destruct (Hc sid' s' H1 Hl) as (G1 & G2 & G3).
  simpl in *.
  split_and!; [done | congruence |]. intros [?|?]%elem_of_app; done.
Qed.

(** C36: the order of the commit block is unsafe in one case: a datagram
    that authenticates, carries the salt of a live session X at another
    endpoint and no longer has a live tombstone (X is older than the TTL),
    sent from the endpoint of a live session Y to a server that is not stopped
    and whose throttle lets it through, is rejected as a duplicate salt only
    after Y has been stopped and removed, although the datagram creates
    nothing. *)
Theorem duplicate_salt_destroys_incumbent (e : env) (ep : endpoint) (pkt : list Z) (r : server)
    (x y : session) (sid_x : list Z) (c : Crypto.t) (pt : list Z) :
  router_inv r -> stopped r = false ->
  sessions r !! session_id ep = Some y -> live (now_us e) y = true -> salt_matches pkt y = false ->
  sid_x <> session_id ep -> sessions r !! sid_x = Some x -> live (now_us e) x = true ->
  salt_matches pkt x = true ->
  candidate e pkt r = (c, pt, ec_none) ->
  Tombstones.blocked (now e) (Crypto.pkt_salt pkt) (tombstones r) = false ->
  (auth_throttle e (ep_addr ep) r).2 = None ->
  let '(r', eff, out) := get_or_create_session e ep pkt r in
  out = Rejected DuplicateSalt /\ sessions r' !! session_id ep = None /\ StopSession (uid y) ∈ eff.
Proof.
  intros Hi Hst Hy Hly Hmy Hne Hx Hlx Hmx Hc Hb Hth.
  unfold get_or_create_session, pre_auth. set (sid := session_id ep) in *. rewrite Hy, Hly, Hmy.
  pose proof (inv_cap r Hi) as Hcap. rewrite (proj2 (Z.leb_gt _ _)) by lia.
  unfold authenticate. pose proof (auth_throttle_frame e (ep_addr ep) r) as (F1 & _ & _ & F4 & F5 & F6 & _).
  destruct (auth_throttle e (ep_addr ep) r) as [r1 w]. simpl in *. subst w.
  rewrite (candidate_key e pkt r r1 F6), Hc. simpl.
  unfold candidate in Hc. apply Crypto.fresh_decrypt_salt in Hc as (_ & Hsalt & _).
  unfold commit. rewrite F4, Hst, F1, Hy, Hly, Hmy, F5, Hsalt, Hb. simpl.
  destruct (evict_spec sid y r1) as (Es & _). unfold enroll.
  assert (Hin : StopSession (uid y) ∈ (evict sid y r1).2).
  { unfold evict. destruct (drop_replaced_target _ _). apply elem_of_cons. by left. }
  destruct (evict sid y r1) as [r2 eff2]. simpl in *. rewrite F1 in Es.
  assert (Hsz : Z.of_nat (size (sessions r2)) < MAX_CONCURRENT_SESSIONS).
  { rewrite Es, map_size_delete_Some by eauto.
    assert (size (sessions r) <> 0%nat) by (intros Hz%map_size_empty_inv; by rewrite Hz in Hy). lia. }
  rewrite (proj2 (Z.leb_gt _ _)) by lia.
  assert (duplicate_salt e sid pkt r2 = true) as ->.
  { unfold duplicate_salt. apply existsb_exists. exists (sid_x, x). split.
    - apply list_elem_of_In, elem_of_map_to_list. by rewrite Es, lookup_delete_ne.
    - by rewrite bool_decide_eq_false_2, Hmx, Hlx by done. }
  split_and!; [done | by rewrite Es, lookup_delete_eq | done].
Qed.

(** A teardown queued by one session can only remove that session: when
    [close_connection] runs for an owner, every entry whose session is not
    the owner keeps its place and its upstream socket. *)
Theorem close_connection_identity (sid : list Z) (owner : Z) (r : server) :
  router_inv r ->
  let '(r', eff) := close_connection sid (Some owner) r in
  (forall sid' s', sessions r !! sid' = Some s' -> uid s' <> owner ->
     sessions r' !! sid' = Some s' /\ connections r' !! sid' = connections r !! sid' /\
     StopSession (uid s') ∉ eff) /\
  (forall s, sessions r !! sid = Some s -> uid s = owner ->
     sessions r' !! sid = None /\ connections r' !! sid = None /\ StopSession owner ∈ eff).
Proof.
  intros Hi. unfold close_connection.
  destruct (bool_decide ((uid <$> sessions r !! sid) = Some owner)) eqn:E; simpl; zb_props.
  - apply fmap_Some in E as (s0 & Hs0 & Ho). rewrite Hs0. split.
    + intros sid' s' Hs' Hne. assert (sid' <> sid) by (intros ->; congruence).
      rewrite !lookup_delete_ne by done. split_and!; [done | done |].
      intros Hin. apply Hne. destruct (connections r !! sid) as [[k|]|];
        rewrite ?elem_of_app, ?elem_of_cons, ?elem_of_nil in Hin; destruct_or?; simplify_eq; congruence.
    + intros s [= <-] _. rewrite !lookup_delete_eq. split_and!; [done | done |].
      apply elem_of_app. right. rewrite Ho. by apply list_elem_of_singleton.
  - split; [intros; split_and!; [done | done | apply not_elem_of_nil]|].
    intros s Hs Ho. exfalso. apply E. by rewrite Hs, <- Ho.
Qed.

Lemma reaped_spec now s :
  reaped now s = true <->
  s_running s = false \/ KCP_TIMEOUT_SEC * 1000000 <= now - s_last_activity_us s \/
  s_handshake_done s = false /\ SERVER_SOCKS5_HANDSHAKE_TIMEOUT_SEC * 1000000 <= now - s_created_us s.
Proof.
  unfold reaped, is_alive, handshake_stalled. rewrite orb_true_iff, negb_true_iff.
  destruct (s_running s), (s_handshake_done s); simpl; rewrite ?Z.ltb_ge, ?Z.leb_le; intuition congruence.
Qed.

(** C38: the periodic sweep of a running server removes exactly the sessions
    that have stopped, have been idle for 60 s, or have not finished their
    handshake 30 s after their creation, together with their upstream entries,
    and tells exactly those to stop; every other session keeps its entry and
    its upstream connection. *)
Theorem cleanup_exact (e : env) (r : server) (sid : list Z) (s : session) :
  running r = true -> router_inv r -> sessions r !! sid = Some s ->
  let stale :=
    s_running s = false \/ KCP_TIMEOUT_SEC * 1000000 <= now_us e - s_last_activity_us s \/
    s_handshake_done s = false /\ SERVER_SOCKS5_HANDSHAKE_TIMEOUT_SEC * 1000000 <= now_us e - s_created_us s in
  let '(r', eff) := do_cleanup e r in
  (stale -> sessions r' !! sid = None /\ connections r' !! sid = None /\ StopSession (uid s) ∈ eff) /\
  (~ stale -> sessions r' !! sid = Some s /\ connections r' !! sid = connections r !! sid /\
              StopSession (uid s) ∉ eff).
Proof.
  intros Hr Hi Hs stale. unfold do_cleanup. rewrite Hr. simpl.
  set (dead := filter _ (map_to_list (sessions r))).
  assert (Hdead : sid ∈ dead.*1 <-> stale).
  { unfold stale. rewrite <- reaped_spec, list_elem_of_fmap. split.
    - intros ([sid' s'] & -> & Hin). apply list_elem_of_filter in Hin as [Hre Hin].
      apply elem_of_map_to_list in Hin. simpl in Hs. by simplify_eq.
    - intros Hre. exists (sid, s). split; [done|]. apply list_elem_of_filter.
      split; [done|]. by apply elem_of_map_to_list. }
  assert (Hstop : forall rest, (forall id, StopSession id ∉ rest) ->
    StopSession (uid s) ∈ ((fun '(_, s) => StopSession (uid s)) <$> dead) ++ rest <-> sid ∈ dead.*1).
  { intros rest Hrest. rewrite elem_of_app, !list_elem_of_fmap. split.
    - intros [([sid' s'] & [= Hu] & Hin)|Hin]; [|by apply Hrest in Hin].
      exists (sid', s'). split; [|done]. apply list_elem_of_filter in Hin as [_ Hin].
      apply elem_of_map_to_list in Hin. simpl. by apply (inv_distinct r Hi sid sid' s s').
    - intros ([sid' s'] & -> & Hin). left. exists (sid', s'). split; [|done].
      apply list_elem_of_filter in Hin as [_ Hin]. apply elem_of_map_to_list in Hin.
      simpl in Hs. by simplify_eq. }
  rewrite !foldr_delete_lookup, Hstop.
  2:{ intros id Hin. apply list_elem_of_omap in Hin as ([sid' s'] & _ & Hin).
      by destruct (connections r !! sid') as [[k|]|]. }
  split; intros Hst; rewrite <- Hdead in Hst; by rewrite ?decide_True, ?decide_False by done.
Qed.

(** ** The authentication budget *)

(** A sequence of authentication attempts on the receive strand: the state
    and the number of decryptions paid for. *)
Definition decryptions_paid (e : env) (addr : ip_address) (r : server) : Z :=
  match (auth_throttle e addr r).2 with None => 1 | Some _ => 0 end.

Fixpoint auth_run (calls : list (env * ip_address * list Z)) (r : server) : server * Z :=
  match calls with
  | [] => (r, 0)
  | (e, addr, pkt) :: rest =>
      let '(r', n) := auth_run rest (authenticate e addr pkt r).1 in
      (r', decryptions_paid e addr r + n)
  end.

(** C37: however many datagrams arrive from however many addresses, no more
    than 5000 decryptions of unknown senders are paid for within one
    one-second window of the authentication clock. *)
Theorem auth_budget (calls : list (env * ip_address * list Z)) (r : server) :
  router_inv r ->
  Forall (fun '(e, _, _) => auth_now e < auth_window_start r + Tombstones.NS_PER_SEC) calls ->
  (auth_run calls r).2 + auth_attempts_window r <= MAX_AUTH_ATTEMPTS_PER_SEC.
Proof.
  revert r. induction calls as [|[[e addr] pkt] rest IH]; intros r Hi Hall.
  { pose proof (inv_attempts r Hi). simpl. lia. }
  apply list.Forall_cons in Hall as [He Hall]. simpl.
  pose proof (authenticate_inv e addr pkt r Hi) as Hi'.
  assert (Hw : auth_window_start (authenticate e addr pkt r).1 = auth_window_start r /\
               auth_attempts_window (authenticate e addr pkt r).1 =
               auth_attempts_window r + decryptions_paid e addr r).
  { unfold authenticate, decryptions_paid, auth_throttle.
    rewrite (proj2 (Z.leb_gt Tombstones.NS_PER_SEC _)) by lia.
    repeat case_bool; simpl; try (split; [done | lia]).
    destruct (candidate _ _ _) as [[c pt] ec]. case_bool; simpl; [|split; [done | lia]].
    unfold count_failure. destruct (_ !! addr); [simpl; split; [done | lia]|].
    case_bool; simpl; split; (done || lia). }
  destruct Hw as [Hw1 Hw2]. specialize (IH _ Hi').
  destruct (auth_run rest (authenticate e addr pkt r).1) as [r' n]. simpl in *.
  rewrite Hw1 in IH. specialize (IH Hall). lia.
Qed.

(** ** Session identifiers *)

Context {L : AsioIpLaws I}.

(** The textual session id identifies the endpoint: two well-formed
    endpoints with the same id are the same address and port, so distinct
    peers never share a table entry. *)
Theorem session_id_injective (ep1 ep2 : endpoint) :
  ip_wf (ep_addr ep1) -> ip_wf (ep_addr ep2) -> is_u16 (ep_port ep1) -> is_u16 (ep_port ep2) ->
  session_id ep1 = session_id ep2 -> ep1 = ep2.
Proof.
  unfold session_id, is_u16. intros W1 W2 P1 P2 E.
  assert (Hd : forall p, 0 <= p < 65536 -> 58 ∉ dec_bytes p).
  { intros p Hp. apply (digits_exclude 58); [apply dec_go_digits; lia | done]. }
  apply not_elem_of_app_cons_inv_r in E as (Ea & _ & Ep); [|apply Hd; lia | apply Hd; lia].
  assert (ep_port ep1 = ep_port ep2).
  { rewrite <- (dec_bytes_value (ep_port ep1)), <- (dec_bytes_value (ep_port ep2)) by lia. congruence. }
  assert (ep_addr ep1 = ep_addr ep2).
  { apply (inj Some). rewrite <- (make_address_to_string _ W1), <- (make_address_to_string _ W2). congruence. }
  destruct ep1, ep2. simpl in *. congruence.
Qed.
End Proofs.

(** ** Witnesses: a small server with concrete cipher and addresses *)

Module RouterExample.

#[local] Existing Instance TextIp.text_ip.
#[local] Existing Instance TextIp.text_ip_laws.
#[local] Existing Instance Crypto.ToyAead.toy.

Definition psk : list Z := Crypto.ToyAead.psk.
Definition salt1 : list Z := replicate 16 1.
Definition salt2 : list Z := replicate 16 2.
Definition ep1 : endpoint := mkEndpoint (V4 [203; 0; 113; 1]) 4000.
Definition ep2 : endpoint := mkEndpoint (V4 [203; 0; 113; 2]) 4000.
Definition pkt1 : list Z := Crypto.sealed psk salt1 NONCE_DIR_CLIENT 7 [1; 2; 3].
Definition pkt2 : list Z := Crypto.sealed psk salt2 NONCE_DIR_CLIENT 9 [4].
Definition garbage : list Z := replicate 60 3.

(** Seconds on both clocks. *)
Definition at_sec (t : Z) : env := mkEnv (t * 1000000000) (t * 1000000000) Crypto.no_fault.

Definition r0 : server := init_server psk fec_off.
Definition r1 : server := (get_or_create_session (at_sec 1000) ep1 pkt1 r0).1.1.
Definition r2 : server := (get_or_create_session (at_sec 1001) ep2 pkt2 r1).1.1.
Definition no_session : session := mkSession 0 (Crypto.fresh [] 1 false) false 0 0 false fec_off.
Definition session_of (ep : endpoint) (r : server) : session :=
  default no_session (sessions r !! session_id ep).

(** The same server 650 s later, kept busy: the sessions are live but the
    tombstones have expired. *)
Definition busy (t : Z) (s : session) : session :=
  mkSession (uid s) (s_crypto s) (s_running s) (t * 1000000) (s_created_us s) true (s_fec s).
Definition r3 : server := set_maps (busy 1650 <$> sessions r2) (connections r2) r2.

Lemma r0_inv : router_inv r0.
Proof. apply init_inv. Qed.

Lemma r2_inv : router_inv r2.
Proof. apply get_or_create_inv, get_or_create_inv, r0_inv. Qed.

Lemma busy_inv t r : router_inv r -> router_inv (set_maps (busy t <$> sessions r) (connections r) r).
Proof.
  intros [H1 H2 H3 H4 Htb Hcs H5 H6]. constructor; simpl; try done.
  - by rewrite map_size_fmap.
  - intros k Hk. rewrite lookup_fmap, fmap_is_Some. auto.
  - intros k s. rewrite lookup_fmap. intros (s' & Hs & ->)%fmap_Some. by apply (H5 k s').
  - intros k1 k2 s1 s2. rewrite !lookup_fmap.
    intros (x1 & Hx1 & ->)%fmap_Some (x2 & Hx2 & ->)%fmap_Some. by apply (H6 k1 k2 x1 x2).
Qed.

Lemma r3_inv : router_inv r3.
Proof. apply busy_inv, r2_inv. Qed.

(** Reached by one complete datagram, interleaved with a sweep. *)
Lemma reachable_bounds_witness : router_inv (do_cleanup (at_sec 1030) r1).1.
Proof.
  apply (reachable_bounds psk fec_off ((do_cleanup (at_sec 1030) r1).1, Idle)).
  eapply reach_step; [apply reachable_call, reach_init | apply step_cleanup].
Defined.

Lemma unauthenticated_never_evicts_witness :
  sessions (route_datagram (at_sec 1002) ep1 garbage r2).1.1 !! session_id ep1 = Some (session_of ep1 r2).
Proof.
  apply (unauthenticated_never_evicts (at_sec 1002) ep1 garbage r2 r2_inv);
    vm_compute; congruence.
Defined.

Lemma established_fast_path_witness :
  route_datagram (at_sec 1002) ep1 pkt1 r2 =
  (r2, [ReceiveData (uid (session_of ep1 r2)) pkt1], Existing (session_of ep1 r2)).
Proof. apply established_fast_path; vm_compute; reflexivity. Defined.

Lemma created_session_fresh_witness :
  sessions r1 !! session_id ep1 = Some (session_of ep1 r1) /\
  Crypto.session_salt (s_crypto (session_of ep1 r1)) = salt1.
Proof.
  destruct (created_session_fresh (at_sec 1000) ep1 pkt1 r0 r1
    (get_or_create_session (at_sec 1000) ep1 pkt1 r0).1.2 (session_of ep1 r1) [1; 2; 3])
    as (_ & _ & _ & H2 & _ & _ & H1 & _); [vm_compute; reflexivity|].
  split; [exact H1|]. rewrite H2. vm_compute. reflexivity.
Defined.

Lemma replayed_salt_harmless_witness :
  sessions (get_or_create_session (at_sec 1002) ep1 pkt2 r2).1.1 !! session_id ep1 =
  Some (session_of ep1 r2).
Proof.
  apply (replayed_salt_harmless (at_sec 1002) ep1 pkt2 r2 r2_inv); vm_compute; reflexivity.
Defined.

Lemma duplicate_salt_destroys_incumbent_witness :
  let '(r', _, out) := get_or_create_session (at_sec 1651) ep1 pkt2 r3 in
  out = Rejected DuplicateSalt /\ sessions r' !! session_id ep1 = None.
Proof.
  pose proof (duplicate_salt_destroys_incumbent (at_sec 1651) ep1 pkt2 r3
    (session_of ep2 r3) (session_of ep1 r3) (session_id ep2)
    (candidate (at_sec 1651) pkt2 r3).1.1 (candidate (at_sec 1651) pkt2 r3).1.2
    r3_inv) as H.
  destruct (get_or_create_session (at_sec 1651) ep1 pkt2 r3) as [[r' eff] out].
  destruct H as (H1 & H2 & _); try (vm_compute; reflexivity); [vm_compute; congruence | by split].
Defined.

Lemma close_connection_identity_witness :
  let '(r', _) := close_connection (session_id ep1) (Some 7) r2 in
  sessions r' !! session_id ep1 = Some (session_of ep1 r2).
Proof.
  pose proof (close_connection_identity (session_id ep1) 7 r2 r2_inv) as H.
  destruct (close_connection (session_id ep1) (Some 7) r2) as [r' eff].
  apply H; vm_compute; [reflexivity | congruence].
Defined.

Lemma cleanup_exact_witness :
  let '(r', _) := do_cleanup (at_sec 1061) r2 in
  sessions r' !! session_id ep1 = None.
Proof.
  pose proof (cleanup_exact (at_sec 1061) r2 (session_id ep1) (session_of ep1 r2)
    ltac:(vm_compute; reflexivity) r2_inv ltac:(vm_compute; reflexivity)) as H.
  destruct (do_cleanup (at_sec 1061) r2) as [r' eff]. destruct H as [H _].
  apply H. right. left. vm_compute. congruence.
Defined.

Lemma auth_budget_witness :
  (auth_run [(at_sec 1001, V4 [10; 0; 0; 1], garbage); (at_sec 1001, V4 [10; 0; 0; 2], garbage)] r2).2
  + auth_attempts_window r2 <= 5000.
Proof.
  apply (auth_budget _ r2 r2_inv). repeat constructor; vm_compute; reflexivity.
Defined.

Lemma session_id_injective_witness :
  mkEndpoint (V4 [203; 0; 113; 1]) 4000 = ep1.
Proof.
  apply session_id_injective; try (vm_compute; reflexivity);
    split; try (vm_compute; congruence); by eapply bool_decide_unpack.
Defined.

End RouterExample.
