(* ===== verification/Tunnel.v ===== *)
(** * Tunnel: the shared machinery of the two KCP tunnels

    Models [KcpTunnel] (kcp_tunnel.cpp/.hpp): the output path with FEC framing
    and batching, the input path, the pending read, FIN negotiation, write
    backpressure, keepalives. The concrete sessions are reached through virtual
    functions; they are the classes [OutputHost] and [Host], so that everything
    here is proved against that interface and each session discharges it.

    Every operation is a strand-bound member function: it runs alone on the
    object, as the strand guarantees. Log lines are not modelled. *)

From Stdlib Require Import ZArith Lia.
From stdpp Require Import base list strings.
From S2P Require Import Prelude Config Effects Kcp.
From S2P Require Crypto.

(** [SessionMetrics]: each counter is a 64-bit atomic. *)
Inductive metric : Type :=
| packets_sent | packets_received | bytes_sent | bytes_received
| encrypt_errors | decrypt_errors | send_errors
| fec_repaired | fec_data_sent | fec_parity_sent
| udp_tx_packets | udp_tx_bytes | udp_rx_packets | udp_rx_bytes | replay_dropped.

#[export] Instance metric_eq_dec : EqDecision metric.
Proof. solve_decision. Defined.

(** [m.fetch_add(n)]. *)
Definition metric_add (m : metric) (n : Z) (f : metric -> Z) : metric -> Z :=
  fun x => if bool_decide (x = m) then u64 (f x + n) else f x.

(** What one strand-bound call reads from outside the object: the steady clock
    in nanoseconds, the library faults of the encryption made at each nonce
    counter and of a decryption, the two adaptive gates ([None]: no gate
    installed), the process tuning, and what the kernel answers to
    [available] and [read_some] on the application's socket when it is drained
    ([None]: an error). *)
Record tenv := mkTenv {
  e_ns : Z;
  e_fault : Z -> Crypto.evp_fault;
  e_rx_fault : Crypto.evp_fault;
  e_parity_gate : option bool;
  e_rto_gate : option bool;
  e_tuning : KcpTuning;
  e_drain : list (option Z * option Z) }.

(** time_util.hpp. *)
Definition now_us (e : tenv) : Z := e_ns e / 1000.
Definition now_kcp_ms (e : tenv) : Z := u32 (e_ns e / 1000000).

(** The call site of a [kcp_.send]. *)
Inductive origin : Type := FromApp | FromKeepalive | FromFin | FromHello.

#[export] Instance origin_eq_dec : EqDecision origin.
Proof. solve_decision. Defined.

(** What a call makes happen outside the object. *)
Inductive event : Type :=
| KcpSend (from : origin) (msg : list Z) (ret : Z)
| Complete (handler : Z) (ec : error_code) (data : list Z)
| Wire (batch : list (list Z))
| InputRejected (ret : Z) (size : nat)
| PostShutDown
| ConnectDone (ok : bool)
| SocketClosed
| StatsLine
| DrainedCallback
| CloseConnection
| TargetRead
| TargetShutdownSend
| TargetWrite (data : list Z)
| TargetClosed
| LocalRead
| LocalWrite (data : list Z)
| LocalShutdownSend
| LocalClosed.

Section Tunnel.
Context {A : Crypto.Aead} {K : Kcp} {F : FecCodec}.

(** The members of [KcpTunnel]. A completion handler and a parked hook are
    named by an integer; a read buffer is its capacity. *)
Record tunnel := mkTunnel {
  t_crypto : Crypto.t;
  t_kcp : KcpWrapper.t K;
  created_us : Z;
  out_batch : list (list Z);
  batch_depth : Z;
  pending_read_buffer : option nat;
  pending_read_handler : option Z;
  decrypt_buf : list Z;
  metrics : metric -> Z;
  handshake_done : bool;
  fin_enabled : bool;
  fin_requested : bool;
  fin_sent : bool;
  peer_fin_received : bool;
  needs_flush : bool;
  last_activity_us : Z;
  last_stats_us : Z;
  last_keepalive_us : Z;
  write_resume_cb : option Z;
  fec_encoder : option enc_state;
  fec_decoder : option dec_state;
  fec_send_buf : list Z;
  rto_low_latency_applied : bool }.

Definition set_crypto (v : Crypto.t) (t : tunnel) : tunnel :=
  mkTunnel v (t_kcp t) (created_us t) (out_batch t) (batch_depth t) (pending_read_buffer t)
    (pending_read_handler t) (decrypt_buf t) (metrics t) (handshake_done t) (fin_enabled t)
    (fin_requested t) (fin_sent t) (peer_fin_received t) (needs_flush t) (last_activity_us t)
    (last_stats_us t) (last_keepalive_us t) (write_resume_cb t) (fec_encoder t) (fec_decoder t)
    (fec_send_buf t) (rto_low_latency_applied t).
Definition set_kcp (v : KcpWrapper.t K) (t : tunnel) : tunnel :=
  mkTunnel (t_crypto t) v (created_us t) (out_batch t) (batch_depth t) (pending_read_buffer t)
    (pending_read_handler t) (decrypt_buf t) (metrics t) (handshake_done t) (fin_enabled t)
    (fin_requested t) (fin_sent t) (peer_fin_received t) (needs_flush t) (last_activity_us t)
    (last_stats_us t) (last_keepalive_us t) (write_resume_cb t) (fec_encoder t) (fec_decoder t)
    (fec_send_buf t) (rto_low_latency_applied t).
Definition set_out_batch (v : list (list Z)) (t : tunnel) : tunnel :=
  mkTunnel (t_crypto t) (t_kcp t) (created_us t) v (batch_depth t) (pending_read_buffer t)
    (pending_read_handler t) (decrypt_buf t) (metrics t) (handshake_done t) (fin_enabled t)
    (fin_requested t) (fin_sent t) (peer_fin_received t) (needs_flush t) (last_activity_us t)
    (last_stats_us t) (last_keepalive_us t) (write_resume_cb t) (fec_encoder t) (fec_decoder t)
    (fec_send_buf t) (rto_low_latency_applied t).
Definition set_batch_depth (v : Z) (t : tunnel) : tunnel :=
  mkTunnel (t_crypto t) (t_kcp t) (created_us t) (out_batch t) v (pending_read_buffer t)
    (pending_read_handler t) (decrypt_buf t) (metrics t) (handshake_done t) (fin_enabled t)
    (fin_requested t) (fin_sent t) (peer_fin_received t) (needs_flush t) (last_activity_us t)
    (last_stats_us t) (last_keepalive_us t) (write_resume_cb t) (fec_encoder t) (fec_decoder t)
    (fec_send_buf t) (rto_low_latency_applied t).
Definition set_pending_read_buffer (v : option nat) (t : tunnel) : tunnel :=
  mkTunnel (t_crypto t) (t_kcp t) (created_us t) (out_batch t) (batch_depth t) v
    (pending_read_handler t) (decrypt_buf t) (metrics t) (handshake_done t) (fin_enabled t)
    (fin_requested t) (fin_sent t) (peer_fin_received t) (needs_flush t) (last_activity_us t)
    (last_stats_us t) (last_keepalive_us t) (write_resume_cb t) (fec_encoder t) (fec_decoder t)
    (fec_send_buf t) (rto_low_latency_applied t).
Definition set_pending_read_handler (v : option Z) (t : tunnel) : tunnel :=
  mkTunnel (t_crypto t) (t_kcp t) (created_us t) (out_batch t) (batch_depth t)
    (pending_read_buffer t) v (decrypt_buf t) (metrics t) (handshake_done t) (fin_enabled t)
    (fin_requested t) (fin_sent t) (peer_fin_received t) (needs_flush t) (last_activity_us t)
    (last_stats_us t) (last_keepalive_us t) (write_resume_cb t) (fec_encoder t) (fec_decoder t)
    (fec_send_buf t) (rto_low_latency_applied t).
Definition set_decrypt_buf (v : list Z) (t : tunnel) : tunnel :=
  mkTunnel (t_crypto t) (t_kcp t) (created_us t) (out_batch t) (batch_depth t)
    (pending_read_buffer t) (pending_read_handler t) v (metrics t) (handshake_done t)
    (fin_enabled t) (fin_requested t) (fin_sent t) (peer_fin_received t) (needs_flush t)
    (last_activity_us t) (last_stats_us t) (last_keepalive_us t) (write_resume_cb t)
    (fec_encoder t) (fec_decoder t) (fec_send_buf t) (rto_low_latency_applied t).
Definition set_metrics (v : metric -> Z) (t : tunnel) : tunnel :=
  mkTunnel (t_crypto t) (t_kcp t) (created_us t) (out_batch t) (batch_depth t)
    (pending_read_buffer t) (pending_read_handler t) (decrypt_buf t) v (handshake_done t)
    (fin_enabled t) (fin_requested t) (fin_sent t) (peer_fin_received t) (needs_flush t)
    (last_activity_us t) (last_stats_us t) (last_keepalive_us t) (write_resume_cb t)
    (fec_encoder t) (fec_decoder t) (fec_send_buf t) (rto_low_latency_applied t).
Definition set_handshake_done (v : bool) (t : tunnel) : tunnel :=
  mkTunnel (t_crypto t) (t_kcp t) (created_us t) (out_batch t) (batch_depth t)
    (pending_read_buffer t) (pending_read_handler t) (decrypt_buf t) (metrics t) v (fin_enabled
    t) (fin_requested t) (fin_sent t) (peer_fin_received t) (needs_flush t) (last_activity_us t)
    (last_stats_us t) (last_keepalive_us t) (write_resume_cb t) (fec_encoder t) (fec_decoder t)
    (fec_send_buf t) (rto_low_latency_applied t).
Definition set_fin_enabled (v : bool) (t : tunnel) : tunnel :=
  mkTunnel (t_crypto t) (t_kcp t) (created_us t) (out_batch t) (batch_depth t)
    (pending_read_buffer t) (pending_read_handler t) (decrypt_buf t) (metrics t) (handshake_done
    t) v (fin_requested t) (fin_sent t) (peer_fin_received t) (needs_flush t) (last_activity_us
    t) (last_stats_us t) (last_keepalive_us t) (write_resume_cb t) (fec_encoder t) (fec_decoder
    t) (fec_send_buf t) (rto_low_latency_applied t).
Definition set_fin_requested (v : bool) (t : tunnel) : tunnel :=
  mkTunnel (t_crypto t) (t_kcp t) (created_us t) (out_batch t) (batch_depth t)
    (pending_read_buffer t) (pending_read_handler t) (decrypt_buf t) (metrics t) (handshake_done
    t) (fin_enabled t) v (fin_sent t) (peer_fin_received t) (needs_flush t) (last_activity_us t)
    (last_stats_us t) (last_keepalive_us t) (write_resume_cb t) (fec_encoder t) (fec_decoder t)
    (fec_send_buf t) (rto_low_latency_applied t).
Definition set_fin_sent (v : bool) (t : tunnel) : tunnel :=
  mkTunnel (t_crypto t) (t_kcp t) (created_us t) (out_batch t) (batch_depth t)
    (pending_read_buffer t) (pending_read_handler t) (decrypt_buf t) (metrics t) (handshake_done
    t) (fin_enabled t) (fin_requested t) v (peer_fin_received t) (needs_flush t)
    (last_activity_us t) (last_stats_us t) (last_keepalive_us t) (write_resume_cb t)
    (fec_encoder t) (fec_decoder t) (fec_send_buf t) (rto_low_latency_applied t).
Definition set_peer_fin_received (v : bool) (t : tunnel) : tunnel :=
  mkTunnel (t_crypto t) (t_kcp t) (created_us t) (out_batch t) (batch_depth t)
    (pending_read_buffer t) (pending_read_handler t) (decrypt_buf t) (metrics t) (handshake_done
    t) (fin_enabled t) (fin_requested t) (fin_sent t) v (needs_flush t) (last_activity_us t)
    (last_stats_us t) (last_keepalive_us t) (write_resume_cb t) (fec_encoder t) (fec_decoder t)
    (fec_send_buf t) (rto_low_latency_applied t).
Definition set_needs_flush (v : bool) (t : tunnel) : tunnel :=
  mkTunnel (t_crypto t) (t_kcp t) (created_us t) (out_batch t) (batch_depth t)
    (pending_read_buffer t) (pending_read_handler t) (decrypt_buf t) (metrics t) (handshake_done
    t) (fin_enabled t) (fin_requested t) (fin_sent t) (peer_fin_received t) v (last_activity_us
    t) (last_stats_us t) (last_keepalive_us t) (write_resume_cb t) (fec_encoder t) (fec_decoder
    t) (fec_send_buf t) (rto_low_latency_applied t).
Definition set_last_activity_us (v : Z) (t : tunnel) : tunnel :=
  mkTunnel (t_crypto t) (t_kcp t) (created_us t) (out_batch t) (batch_depth t)
    (pending_read_buffer t) (pending_read_handler t) (decrypt_buf t) (metrics t) (handshake_done
    t) (fin_enabled t) (fin_requested t) (fin_sent t) (peer_fin_received t) (needs_flush t) v
    (last_stats_us t) (last_keepalive_us t) (write_resume_cb t) (fec_encoder t) (fec_decoder t)
    (fec_send_buf t) (rto_low_latency_applied t).
Definition set_last_stats_us (v : Z) (t : tunnel) : tunnel :=
  mkTunnel (t_crypto t) (t_kcp t) (created_us t) (out_batch t) (batch_depth t)
    (pending_read_buffer t) (pending_read_handler t) (decrypt_buf t) (metrics t) (handshake_done
    t) (fin_enabled t) (fin_requested t) (fin_sent t) (peer_fin_received t) (needs_flush t)
    (last_activity_us t) v (last_keepalive_us t) (write_resume_cb t) (fec_encoder t)
    (fec_decoder t) (fec_send_buf t) (rto_low_latency_applied t).
Definition set_last_keepalive_us (v : Z) (t : tunnel) : tunnel :=
  mkTunnel (t_crypto t) (t_kcp t) (created_us t) (out_batch t) (batch_depth t)
    (pending_read_buffer t) (pending_read_handler t) (decrypt_buf t) (metrics t) (handshake_done
    t) (fin_enabled t) (fin_requested t) (fin_sent t) (peer_fin_received t) (needs_flush t)
    (last_activity_us t) (last_stats_us t) v (write_resume_cb t) (fec_encoder t) (fec_decoder t)
    (fec_send_buf t) (rto_low_latency_applied t).
Definition set_write_resume_cb (v : option Z) (t : tunnel) : tunnel :=
  mkTunnel (t_crypto t) (t_kcp t) (created_us t) (out_batch t) (batch_depth t)
    (pending_read_buffer t) (pending_read_handler t) (decrypt_buf t) (metrics t) (handshake_done
    t) (fin_enabled t) (fin_requested t) (fin_sent t) (peer_fin_received t) (needs_flush t)
    (last_activity_us t) (last_stats_us t) (last_keepalive_us t) v (fec_encoder t) (fec_decoder
    t) (fec_send_buf t) (rto_low_latency_applied t).
Definition set_fec_encoder (v : option enc_state) (t : tunnel) : tunnel :=
  mkTunnel (t_crypto t) (t_kcp t) (created_us t) (out_batch t) (batch_depth t)
    (pending_read_buffer t) (pending_read_handler t) (decrypt_buf t) (metrics t) (handshake_done
    t) (fin_enabled t) (fin_requested t) (fin_sent t) (peer_fin_received t) (needs_flush t)
    (last_activity_us t) (last_stats_us t) (last_keepalive_us t) (write_resume_cb t) v
    (fec_decoder t) (fec_send_buf t) (rto_low_latency_applied t).
Definition set_fec_decoder (v : option dec_state) (t : tunnel) : tunnel :=
  mkTunnel (t_crypto t) (t_kcp t) (created_us t) (out_batch t) (batch_depth t)
    (pending_read_buffer t) (pending_read_handler t) (decrypt_buf t) (metrics t) (handshake_done
    t) (fin_enabled t) (fin_requested t) (fin_sent t) (peer_fin_received t) (needs_flush t)
    (last_activity_us t) (last_stats_us t) (last_keepalive_us t) (write_resume_cb t)
    (fec_encoder t) v (fec_send_buf t) (rto_low_latency_applied t).
Definition set_fec_send_buf (v : list Z) (t : tunnel) : tunnel :=
  mkTunnel (t_crypto t) (t_kcp t) (created_us t) (out_batch t) (batch_depth t)
    (pending_read_buffer t) (pending_read_handler t) (decrypt_buf t) (metrics t) (handshake_done
    t) (fin_enabled t) (fin_requested t) (fin_sent t) (peer_fin_received t) (needs_flush t)
    (last_activity_us t) (last_stats_us t) (last_keepalive_us t) (write_resume_cb t)
    (fec_encoder t) (fec_decoder t) v (rto_low_latency_applied t).
Definition set_rto_low_latency_applied (v : bool) (t : tunnel) : tunnel :=
  mkTunnel (t_crypto t) (t_kcp t) (created_us t) (out_batch t) (batch_depth t)
    (pending_read_buffer t) (pending_read_handler t) (decrypt_buf t) (metrics t) (handshake_done
    t) (fin_enabled t) (fin_requested t) (fin_sent t) (peer_fin_received t) (needs_flush t)
    (last_activity_us t) (last_stats_us t) (last_keepalive_us t) (write_resume_cb t)
    (fec_encoder t) (fec_decoder t) (fec_send_buf t) v.

Definition bump (m : metric) (n : Z) (t : tunnel) : tunnel :=
  set_metrics (metric_add m n (metrics t)) t.

(** The constructor; [conv] and the tuning configure KCP, an enabled FEC
    configuration creates both halves of the codec or throws. *)
Definition create (e : tenv) (conv : Z) (crypto : Crypto.t) (fec : FecConfig) : exn_result tunnel :=
  let mk enc dec :=
    mkTunnel crypto (KcpWrapper.create (e_tuning e) conv) (now_us e) [] 0 None None [] (fun _ => 0)
      false false false false false false (now_us e) 0 (now_us e) None enc dec [] true in
  if fec_enabled fec then
    match fec_new_encoder (data_shards fec) (parity_shards fec) FEC_CRYPTO_RESERVE,
          fec_new_decoder (data_shards fec) (parity_shards fec) with
    | Some enc, Some dec => Ret (mk (Some enc) (Some dec))
    | _, _ => Throw (bytes_of_string "FEC codec creation failed")
    end
  else Ret (mk None None).

(** ** Operations on the tunnel's own members *)

(** [complete_pending_read(ec)]. *)
Definition complete_pending_read (ec : error_code) : M tunnel event unit := fun t =>
  match pending_read_handler t with
  | None => (tt, t, [])
  | Some h => (tt, set_pending_read_handler None (set_pending_read_buffer None t), [Complete h ec []])
  end.

Definition park_write (hook : Z) (t : tunnel) : tunnel := set_write_resume_cb (Some hook) t.
Definition unpark_write (t : tunnel) : tunnel := set_write_resume_cb None t.
Definition touch_activity (e : tenv) (t : tunnel) : tunnel := set_last_activity_us (now_us e) t.
Definition activity_age_us (e : tenv) (t : tunnel) : Z := now_us e - last_activity_us t.
Definition mark_handshake_done (t : tunnel) : tunnel := set_handshake_done true t.
Definition enable_fin (t : tunnel) : tunnel := set_fin_enabled true t.

Definition handshake_stalled (e : tenv) (timeout_sec : Z) (t : tunnel) : bool :=
  if handshake_done t then false else timeout_sec * 1000000 <=? now_us e - created_us t.

Definition wait_send (t : tunnel) : Z := KcpWrapper.wait_send (t_kcp t).
Definition peek_size (t : tunnel) : Z := KcpWrapper.peek_size (t_kcp t).

(** [parity_enabled()]. *)
Definition parity_enabled (e : tenv) : bool :=
  match e_parity_gate e with None => true | Some b => b end.

(** [apply_rto_floor()]. *)
Definition apply_rto_floor (e : tenv) (t : tunnel) : tunnel :=
  match e_rto_gate e with
  | None => t
  | Some low_latency =>
      if bool_decide (low_latency = rto_low_latency_applied t) then t
      else set_kcp (KcpWrapper.set_nodelay (if low_latency then 1 else 0) (t_kcp t))
             (set_rto_low_latency_applied low_latency t)
  end.

(** Control messages: magic followed by the session salt. *)
Definition build_control_payload (magic : list Z) (t : tunnel) : list Z :=
  magic ++ Crypto.session_salt (t_crypto t).
Definition build_keepalive_payload (t : tunnel) : list Z :=
  build_control_payload KCP_CONTROL_KEEPALIVE t.

Definition is_control (data magic : list Z) (t : tunnel) : bool :=
  let salt := Crypto.session_salt (t_crypto t) in
  if negb (length data =? length magic + length salt)%nat then false
  else if negb (bool_decide (take (length magic) data = magic)) then false
  else if (0 <? length salt)%nat &&
          negb (bool_decide (take (length salt) (drop (length magic) data) = salt)) then false
  else true.
Definition is_keepalive (data : list Z) (t : tunnel) : bool := is_control data KCP_CONTROL_KEEPALIVE t.
Definition is_peer_fin (data : list Z) (t : tunnel) : bool := is_control data KCP_CONTROL_FIN t.

(** [kcp_.recv(kcp_recv_buf_.data(), kcp_recv_buf_.size())]: the return value
    and the received bytes. *)
Definition recv_fixed (t : tunnel) : (Z * list Z) * tunnel * list event :=
  let '(w, size, buf) := KcpWrapper.recv_fixed (Z.to_nat FWD_BUF_SIZE) (t_kcp t) in
  ((size, take (Z.to_nat size) buf), set_kcp w t, []).

(** [kcp_.recv(oversized)]: the message is consumed and dropped. *)
Definition recv_oversized : M tunnel event unit := fun t =>
  (tt, set_kcp (KcpWrapper.recv_vector (t_kcp t)).1.1 t, []).

(** The success arm: the whole message is copied, the handler is posted. *)
Definition deliver (data : list Z) : M tunnel event unit := fun t =>
  match pending_read_handler t with
  | None => (tt, t, [])
  | Some h =>
      (tt, set_pending_read_handler None (set_pending_read_buffer None t), [Complete h ec_none data])
  end.

(** The loop of [try_fulfill_read], run for at most [fuel] iterations: whether
    it was left by one of its returns. *)
Fixpoint fulfill_loop (fuel : nat) (cap : nat) : M tunnel event bool :=
  match fuel with
  | O => eret false
  | S fuel' =>
      let* r := recv_fixed in
      let '(size, data) := r in
      if size =? KcpWrapper.KCP_RECV_MSG_TOO_BIG then
        recv_oversized ;;; complete_pending_read ec_message_size ;;; eret true
      else if size <=? 0 then eret true
      else
        let* keepalive := egets (is_keepalive data) in
        if keepalive : bool then fulfill_loop fuel' cap
        else
          let* fin := egets (is_peer_fin data) in
          if fin : bool then
            emodify (set_peer_fin_received true) ;;; complete_pending_read ec_eof ;;; eret true
          else if (cap <? Z.to_nat size)%nat then complete_pending_read ec_message_size ;;; eret true
          else deliver data ;;; eret true
  end.

(** [try_fulfill_read()]: one more iteration than there are messages, which
    always leaves the loop ([TunnelProofs.read_loop_terminates]). *)
Definition try_fulfill_read : M tunnel event unit := fun t =>
  match pending_read_handler t, pending_read_buffer t with
  | Some _, Some cap =>
      let '(_, t', ev) := fulfill_loop (S (length (KcpWrapper.queue (t_kcp t)))) cap t in (tt, t', ev)
  | _, _ => (tt, t, [])
  end.

(** [maybe_log_stats()]. *)
Definition maybe_log_stats (e : tenv) : M tunnel event unit := fun t =>
  if 30 * 1000000 <=? now_us e - last_stats_us t then
    (tt, set_last_stats_us (now_us e) t, [StatsLine])
  else (tt, t, []).

(** [kcp_.send(...)]. *)
Definition kcp_send (from : origin) (data : list Z) : M tunnel event Z := fun t =>
  let '(w, ret) := KcpWrapper.send data (t_kcp t) in (ret, set_kcp w t, [KcpSend from data ret]).

(** [maybe_send_keepalive()]. *)
Definition maybe_send_keepalive (e : tenv) : M tunnel event unit :=
  let* t := egets id in
  if negb (handshake_done t) then eret tt
  else if (now_us e - last_keepalive_us t <? KCP_KEEPALIVE_SEC * 1000000) || (0 <? peek_size t)
  then eret tt
  else
    let* ret := kcp_send FromKeepalive (build_keepalive_payload t) in
    ewhen (0 <=? ret)
      (emodify (fun t => set_needs_flush true (set_last_keepalive_us (now_us e) t))).

End Tunnel.

(** ** The virtual functions *)

(** One datagram handed to the socket. *)
Definition count_tx `{Crypto.Aead} `{Kcp} `{FecCodec} (d : list Z) (t : tunnel) : tunnel :=
  bump udp_tx_bytes (Z.of_nat (length d)) (bump udp_tx_packets 1 t).

Class OutputHost {A : Crypto.Aead} {K : Kcp} {F : FecCodec} (St : Type) := {
  tun : St -> tunnel;
  set_tun : tunnel -> St -> St;
  handle_kcp_output : tenv -> list Z -> M St event unit;
  handle_kcp_output_batch : tenv -> list (list Z) -> M St event unit }.

(** The base subobject behaves as one. *)
Class SubObject {A : Crypto.Aead} {K : Kcp} {F : FecCodec} (St : Type) {O : OutputHost St} : Prop := {
  tun_set t s : tun (set_tun t s) = t;
  set_tun_tun s : set_tun (tun s) s = s;
  set_tun_set t1 t2 s : set_tun t1 (set_tun t2 s) = set_tun t1 s }.

(** Run a member of the base class on the derived object. *)
Definition on_tun `{OutputHost St} {X} (m : M tunnel event X) : M St event X := fun s =>
  let '(x, t, ev) := m (tun s) in (x, set_tun t s, ev).
Definition upd `{OutputHost St} (f : tunnel -> tunnel) : M St event unit := on_tun (emodify f).
Definition look `{OutputHost St} {X} (f : tunnel -> X) : M St event X := egets (fun s => f (tun s)).

Section Output.
Context {A : Crypto.Aead} {K : Kcp} {F : FecCodec} {St : Type} {O : OutputHost St}.

(** The default [handle_kcp_output_batch]. *)
Definition default_output_batch (e : tenv) (datagrams : list (list Z)) : M St event unit :=
  efor (handle_kcp_output e) datagrams.

(** [emit_output]. *)
Definition emit_output (e : tenv) (data : list Z) : M St event unit :=
  let* depth := look batch_depth in
  if depth =? 0 then handle_kcp_output e data
  else upd (fun t => set_out_batch (out_batch t ++ [data]) t).

(** [v.resize(n)] on the reused send frame, then the payload is copied in. *)
Definition fill_frame (data buf : list Z) : list Z :=
  let frame_size := (FEC_CRYPTO_RESERVE + 8 + length data)%nat in
  let resized := take frame_size buf ++ replicate (frame_size - length buf) 0 in
  take (FEC_CRYPTO_RESERVE + 8) resized ++ data.

(** [on_kcp_datagram]: the data shard, then the parity shards of its set. *)
Definition on_kcp_datagram (e : tenv) (live_rto : Z) (data : list Z) : M St event unit :=
  let* enc := look fec_encoder in
  match enc with
  | None => emit_output e data
  | Some enc =>
      upd (bump fec_data_sent 1) ;;;
      let* buf := look fec_send_buf in
      let rto := if parity_enabled e then live_rto else 0 in
      let '(enc', frame, parity) := Encode (now_kcp_ms e) (fill_frame data buf) rto enc in
      upd (fun t => set_fec_encoder (Some enc') (set_fec_send_buf frame t)) ;;;
      emit_output e (drop FEC_CRYPTO_RESERVE frame) ;;;
      efor (fun p => upd (bump fec_parity_sent 1) ;;; emit_output e (drop FEC_CRYPTO_RESERVE p)) parity
  end.

(** The output callback, for every datagram one library call produced. *)
Definition deliver_outputs (e : tenv) (outs : list output) : M St event unit :=
  efor (fun o => on_kcp_datagram e (o_rto o) (o_data o)) (KcpWrapper.c_output_filter outs).

Definition kcp_input (e : tenv) (data : list Z) : M St event Z :=
  let* w := look t_kcp in
  let '(w', ret, outs) := KcpWrapper.input data w in
  upd (set_kcp w') ;;; deliver_outputs e outs ;;; eret ret.

Definition kcp_update (e : tenv) (ms : Z) : M St event unit :=
  let* w := look t_kcp in
  let '(w', outs) := KcpWrapper.update ms w in
  upd (set_kcp w') ;;; deliver_outputs e outs.

Definition kcp_flush (e : tenv) : M St event unit :=
  let* w := look t_kcp in
  let '(w', outs) := KcpWrapper.flush w in
  upd (set_kcp w') ;;; deliver_outputs e outs.

Definition begin_output_batch : M St event unit :=
  upd (fun t => set_batch_depth (batch_depth t + 1) t).

(** [end_output_batch]: the accumulator is reset before the burst leaves. *)
Definition end_output_batch (e : tenv) : M St event unit :=
  upd (fun t => if 0 <? batch_depth t then set_batch_depth (batch_depth t - 1) t else t) ;;;
  let* t := look id in
  if (0 <? batch_depth t) || bool_decide (out_batch t = []) then eret tt
  else
    upd (set_out_batch []) ;;;
    handle_kcp_output_batch e (out_batch t).

(** [flush_cycle(now_ms)]. *)
Definition flush_cycle (e : tenv) (ms : Z) : M St event unit :=
  upd (apply_rto_floor e) ;;;
  begin_output_batch ;;;
  kcp_update e ms ;;;
  kcp_flush e ;;;
  end_output_batch e.

(** A shard the decoder rebuilt: [len(2) | payload | padding]. *)
Definition feed_rebuilt (e : tenv) (rebuilt : list Z) : M St event unit :=
  if (length rebuilt <? 2)%nat then eret tt
  else
    let declared := le16_at rebuilt 0 in
    if (declared <=? 2) || (Z.of_nat (length rebuilt) <? declared) then eret tt
    else
      let* r := kcp_input e (slice 2 (Z.to_nat (declared - 2)) rebuilt) in
      ewhen (0 <=? r) (upd (bump fec_repaired 1)).

(** [fec_decoder_->Decode(data, size)] and the loop over what it rebuilt. *)
Definition feed_decoder (e : tenv) (data : list Z) : M St event unit :=
  let* dec := look fec_decoder in
  match dec with
  | None => eret tt
  | Some dec =>
      let '(dec', rebuilt) := Decode (now_kcp_ms e) data dec in
      upd (set_fec_decoder (Some dec')) ;;; efor (feed_rebuilt e) rebuilt
  end.

(** [feed_kcp_input(data, size)]. *)
Definition feed_kcp_input (e : tenv) (data : list Z) : M St event Z :=
  upd (set_needs_flush true) ;;;
  let* dec := look fec_decoder in
  match dec with
  | None => kcp_input e data
  | Some _ =>
      if (length data <? 8)%nat then eret (-2)
      else
        let flag := le16_at data 4 in
        if flag =? kTypeData then
          let declared := le16_at data 6 in
          if (declared <=? 2) || negb (declared + 6 =? Z.of_nat (length data)) then eret (-2)
          else
            let* ret := kcp_input e (drop 8 data) in
            feed_decoder e data ;;; eret ret
        else if negb (flag =? kTypeParity) && negb (flag =? kTypeOob) then eret (-2)
        else feed_decoder e data ;;; eret 0
  end.
End Output.

(** The rest of the interface: liveness, teardown, and what a parked write
    loop does when it is resumed. *)
Class Host {A : Crypto.Aead} {K : Kcp} {F : FecCodec} (St : Type) {O : OutputHost St} := {
  is_active : St -> bool;
  can_accept_data : St -> bool;
  shut_down : tenv -> M St event unit;
  run_resume : tenv -> Z -> M St event unit }.

Section Host.
Context {A : Crypto.Aead} {K : Kcp} {F : FecCodec} {St : Type} {O : OutputHost St} {H : Host St}.

(** [do_send_fin()]. *)
Definition do_send_fin (e : tenv) : M St event unit :=
  let* t := look id in
  let* active := egets is_active in
  if negb (fin_enabled t) then eret tt
  else if negb active then eret tt
  else if fin_sent t then eret tt
  else
    let* ret := on_tun (kcp_send FromFin (build_control_payload KCP_CONTROL_FIN t)) in
    if ret <? 0 then eret tt
    else upd (set_fin_sent true) ;;; flush_cycle e (now_kcp_ms e).

(** [send_fin()]: latch, then try once. *)
Definition send_fin (e : tenv) : M St event unit :=
  upd (set_fin_requested true) ;;; do_send_fin e.

(** [retry_pending_fin()]. *)
Definition retry_pending_fin (e : tenv) : M St event unit :=
  let* t := look id in
  if negb (fin_requested t) then eret tt
  else if fin_sent t then eret tt
  else if sndwnd (e_tuning e) <=? wait_send t then eret tt
  else do_send_fin e.

(** [maybe_resume_write()]: take and clear before invoking. *)
Definition maybe_resume_write (e : tenv) : M St event unit :=
  let* t := look id in
  match write_resume_cb t with
  | None => eret tt
  | Some hook =>
      if backpressure_resume (e_tuning e) <? wait_send t then eret tt
      else upd unpark_write ;;; run_resume e hook
  end.

(** [on_send(data)]. *)
Definition on_send (e : tenv) (data : list Z) : M St event unit :=
  let* active := egets is_active in
  if negb active then eret tt
  else
    let* ret := on_tun (kcp_send FromApp data) in
    if ret <? 0 then upd (bump send_errors 1) ;;; shut_down e
    else
      upd (fun t => bump bytes_sent (Z.of_nat (length data)) (bump packets_sent 1 t)) ;;;
      flush_cycle e (now_kcp_ms e).

(** [send_data(data)], on the strand. *)
Definition send_data (e : tenv) (data : list Z) : M St event unit :=
  let* ok := egets can_accept_data in
  if negb ok then eret tt else on_send e data.

(** [on_async_read_some(buffer, handler)]. *)
Definition on_async_read_some (cap : nat) (handler : Z) : M St event unit :=
  let* active := egets is_active in
  if negb active then emit (Complete handler ec_operation_aborted [])
  else
    let* pending := look pending_read_handler in
    match pending with
    | Some _ => emit (Complete handler ec_already_started [])
    | None =>
        upd (fun t => set_pending_read_handler (Some handler) (set_pending_read_buffer (Some cap) t)) ;;;
        on_tun try_fulfill_read
    end.

(** The end of both sessions' receive handlers, after decryption. *)
Definition feed_and_drain (e : tenv) (plain : list Z) : M St event unit :=
  let* ret := feed_kcp_input e plain in
  ewhen (ret <? 0) (emit (InputRejected ret (length plain))) ;;;
  on_tun try_fulfill_read ;;;
  maybe_resume_write e.

(** [wait_send() > 0 || needs_flush_.exchange(false)], of both ticks. *)
Definition flush_due : M St event bool :=
  let* t := look id in
  if 0 <? wait_send t then eret true
  else upd (set_needs_flush false) ;;; eret (needs_flush t).
End Host.
