(* ===== verification/Diagnostics.v ===== *)
(** * Diagnostics: what the datagram path may write to the log

    Models the rejection lines of crypto.cpp ([log_reject_throttled] with its
    four process-wide throttles) and [log_msg] and [stats_summary] of
    kcp_tunnel.cpp. A line costs more than the decryption it reports, so the
    throttles are what keeps a flood of datagrams from becoming a flood of
    lines. The statistics line takes what it reads from the transport library
    (this tunnel's round trip and window, the process-wide counters) as
    records. *)

From Stdlib Require Import ZArith Lia Sorting.Sorted.
From stdpp Require Import base list strings.
From S2P Require Import Prelude Config Runtime Kcp Tunnel.
From S2P Require Crypto.

(** ** The rejections of a decryption *)

Inductive reject : Type :=
| SaltMismatch
| WrongDirection (got expected : Z)
| NonceSpace (counter : Z)
| ReplayStale (counter highest : Z).

(** Each has a throttle of its own. *)
Inductive reject_kind : Type := KSalt | KDirection | KNonce | KReplay.
#[export] Instance reject_kind_eq_dec : EqDecision reject_kind.
Proof. solve_decision. Defined.

Definition kind_of (r : reject) : reject_kind :=
  match r with
  | SaltMismatch => KSalt
  | WrongDirection _ _ => KDirection
  | NonceSpace _ => KNonce
  | ReplayStale _ _ => KReplay
  end.

(** The messages. *)
Definition reject_text (r : reject) : list Z :=
  match r with
  | SaltMismatch => bytes_of_string "decrypt: session salt mismatch (possible injection)"
  | WrongDirection got expected =>
      bytes_of_string "decrypt: wrong direction byte " ++ dec_bytes got ++ bytes_of_string " (expected " ++
      dec_bytes expected ++ bytes_of_string ")"
  | NonceSpace counter =>
      bytes_of_string "decrypt: counter " ++ dec_bytes counter ++ bytes_of_string " outside the nonce space"
  | ReplayStale counter highest =>
      bytes_of_string "decrypt: replay/stale rejected counter=" ++ dec_bytes counter ++ bytes_of_string " highest=" ++
      dec_bytes highest
  end.

Section Rejects.
Context {A : Crypto.Aead}.

(** What [decrypt_impl] reports about the nonce of a datagram. *)
Definition nonce_reject (c : list Z) (s : Crypto.t) : option reject :=
  let direction := byte_at (Crypto.pkt_nonce c) 8 in
  let counter := Crypto.pkt_counter c in
  if negb (direction =? Crypto.peer_direction s) then Some (WrongDirection direction (Crypto.peer_direction s))
  else if MAX_COUNTER <=? counter then Some (NonceSpace counter)
  else if negb (Crypto.server_mode s && negb (Crypto.any_received s)) && negb (Crypto.check_replay_window counter s)
  then Some (ReplayStale counter (Crypto.highest_received s))
  else None.

(** The rejection [decrypt_impl] reports, if any. *)
Definition decrypt_reject (f : Crypto.evp_fault) (c : list Z) (s : Crypto.t) : option reject :=
  if (length c <? SESSION_SALT_SIZE + NONCE_SIZE + TAG_SIZE)%nat then None
  else if negb (Crypto.salt_set s) then
    match Crypto.derive_session_keys f (Crypto.pkt_salt c) s with
    | (_, Some _) => None
    | (s', None) => nonce_reject c s'
    end
  else if negb (Crypto.matches_salt c s) then Some SaltMismatch
  else nonce_reject c s.

(** ** The throttled line *)

(** The four function-local statics, one per reason. *)
Definition reject_logs : Type := reject_kind -> LogThrottle.t.
Definition init_logs : reject_logs := fun _ => LogThrottle.init 1000000000.

Definition put (k : reject_kind) (t : LogThrottle.t) (l : reject_logs) : reject_logs :=
  fun x => if bool_decide (x = k) then t else l x.

(** [log_reject_throttled(throttle, make_message)] at time [now]: the tally
    and the message of the WARNING it asks for, if it does. *)
Definition log_reject_throttled (now : Z) (r : reject) (l : reject_logs) : reject_logs * option (Z * list Z) :=
  let '(t, emitted) := LogThrottle.should_log now (l (kind_of r)) in
  (put (kind_of r) t l, (fun n => (n, reject_text r ++ LogThrottle.throttle_suffix n)) <$> emitted).

(** Datagrams decrypted by any instances of the process, in the order their
    decryptions report; the lines, with reason, time and tally. *)
Definition arrival : Type := Z * Crypto.evp_fault * list Z * Crypto.t.
Record line := mkLine { ln_kind : reject_kind; ln_time : Z; ln_tally : Z; ln_text : list Z }.

Definition reports (x : arrival) : option (Z * reject) :=
  let '(now, f, c, s) := x in (fun r => (now, r)) <$> decrypt_reject f c s.

Fixpoint lines (l : reject_logs) (xs : list arrival) : reject_logs * list line :=
  match xs with
  | [] => (l, [])
  | x :: rest =>
      match reports x with
      | None => lines l rest
      | Some (now, r) =>
          let '(l1, out) := log_reject_throttled now r l in
          let '(l2, more) := lines l1 rest in
          (l2, match out with Some (n, text) => mkLine (kind_of r) now n text :: more | None => more end)
      end
  end.

(** The times at which one reason was reported, and its lines. *)
Definition reported (k : reject_kind) (xs : list arrival) : list Z :=
  omap (fun x => match reports x with
                 | Some (now, r) => if bool_decide (kind_of r = k) then Some now else None
                 | None => None end) xs.
Definition of_kind (k : reject_kind) (ls : list line) : list (Z * Z) :=
  omap (fun x => if bool_decide (ln_kind x = k) then Some (ln_time x, ln_tally x) else None) ls.

(** ** What is reported is what was refused *)

Lemma nonce_reject_code f learning c out s :
  nonce_reject c s <> None <->
  ((Crypto.decrypt_body f learning c out s).2 = ec_permission_denied \/
   (Crypto.decrypt_body f learning c out s).2 = ec_replay).
Proof.
  unfold nonce_reject, Crypto.decrypt_body. destruct (negb (_ =? _)); [by simpl; split; auto|].
  destruct (MAX_COUNTER <=? _); [by simpl; split; auto|].
  destruct (negb (_ && _) && negb _); [by simpl; split; auto|].
  split; [done|]. destruct f; simpl; try (by intros [?|?]); destruct (Crypto.gcm_open _ _ _ _); by intros [?|?].
Qed.

(** A decryption reports a reason exactly when it refuses the datagram with
    [permission_denied] or as a replay; every other outcome is silent at this
    level. *)
Lemma decrypt_reports f c out s :
  decrypt_reject f c s <> None <->
  ((Crypto.decrypt_impl f c out s).2 = ec_permission_denied \/ (Crypto.decrypt_impl f c out s).2 = ec_replay).
Proof.
  unfold decrypt_reject, Crypto.decrypt_impl. destruct (_ <? _)%nat; [simpl; split; [done | by intros [?|?]]|].
  destruct (negb (Crypto.salt_set s)).
  - destruct (Crypto.derive_session_keys f (Crypto.pkt_salt c) s) as [s' [w|]];
      [simpl; split; [done | by intros [?|?]] | apply nonce_reject_code].
  - destruct (negb _); [by simpl; split; auto | apply nonce_reject_code].
Qed.

(** ** The throttles do not interfere *)

Lemma lines_project k xs : forall l,
  (lines l xs).1 k = (LogThrottle.calls (l k) (reported k xs)).1 /\
  of_kind k (lines l xs).2 = (LogThrottle.calls (l k) (reported k xs)).2.
Proof.
  induction xs as [|x xs IH]; intros l; [done|].
  change (reported k (x :: xs)) with (reported k ([x] ++ xs)). unfold reported. rewrite omap_app. cbn [lines].
  fold (reported k xs). destruct (reports x) as [[now r]|] eqn:Er; simpl; rewrite Er; [|by apply IH].
  unfold log_reject_throttled. destruct (LogThrottle.should_log now (l (kind_of r))) as [t em] eqn:Es.
  specialize (IH (put (kind_of r) t l)). destruct (lines (put (kind_of r) t l) xs) as [l2 more]. simpl in *.
  destruct (bool_decide (kind_of r = k)) eqn:Ek; [apply bool_decide_eq_true in Ek | apply bool_decide_eq_false in Ek].
  - subst k. unfold put in IH. rewrite bool_decide_true in IH by done. destruct IH as [IH1 IH2].
    simpl. rewrite Es. destruct (LogThrottle.calls t (reported (kind_of r) xs)) as [t2 out]. simpl in *.
    split; [done|]. destruct em as [n|]; simpl; [|done]. unfold of_kind. simpl. rewrite bool_decide_true by done.
    by rewrite <- IH2.
  - unfold put in IH. rewrite bool_decide_false in IH by congruence. destruct IH as [IH1 IH2]. simpl.
    split; [done|]. destruct em as [n|]; simpl; [|done]. unfold of_kind. simpl. by rewrite bool_decide_false.
Qed.

(** C35: a flood of hostile datagrams is not a flood of log lines. Whatever
    datagrams are decrypted by whatever instances of the process at whatever
    times, two lines of the same reason are at least one interval apart; the
    reasons do not disturb each other (the lines and tallies of one depend
    only on its own occurrences); and no occurrence is hidden, up to the width
    of a printed tally: there are counts, one per line, that with the lines
    themselves and the rest still pending make up all occurrences, and each is
    printed clamped to 2^32 - 1, so exactly as long as there are fewer than
    2^32 occurrences. *)
Theorem reject_flood_bounded (xs : list arrival) (k : reject_kind) :
  let '(l, out) := lines init_logs xs in
  Sorted (fun a b => a + 1000000000 <= b) (of_kind k out).*1 /\
  of_kind k out = (LogThrottle.calls (LogThrottle.init 1000000000) (reported k xs)).2 /\
  (exists counts rest,
     (of_kind k out).*2 = Z.min (2 ^ 32 - 1) <$> counts /\ LogThrottle.pending (l k) = Z.min (2 ^ 32 - 1) rest /\
     Z.of_nat (length (reported k xs)) = Z.of_nat (length counts) + foldr Z.add 0 counts + rest) /\
  (Z.of_nat (length (reported k xs)) < 2 ^ 32 ->
   Z.of_nat (length (reported k xs)) =
     Z.of_nat (length (of_kind k out)) + foldr Z.add 0 (of_kind k out).*2 + LogThrottle.pending (l k)).
Proof.
  pose proof (lines_project k xs init_logs) as [H1 H2].
  destruct (lines init_logs xs) as [l out]. simpl in H1, H2.
  change (init_logs k) with (LogThrottle.init 1000000000) in H1, H2. rewrite H1, H2. split_and!.
  - pose proof (LogThrottle.calls_spaced (LogThrottle.init 1000000000) (reported k xs)) as H. by inversion H.
  - done.
  - destruct (LogThrottle.calls_accounted (reported k xs) (LogThrottle.init 1000000000) 0)
      as (counts & rest & E1 & E2 & _ & E3); [done | done|]. by exists counts, rest.
  - intros Hlen. by apply (LogThrottle.throttle_bounded_and_honest (LogThrottle.init 1000000000) (reported k xs)).
Qed.
End Rejects.

(** Three forged datagrams at a session whose salt is known: one line at
    once, the second suppressed, and its tally in the third. *)
Definition flood : list arrival :=
  (fun now => (now, Crypto.no_fault, replicate 64 0,
     (Crypto.derive_session_keys (A := Crypto.ToyAead.toy) Crypto.no_fault Crypto.ToyAead.salt
        (Crypto.fresh Crypto.ToyAead.psk NONCE_DIR_SERVER true)).1)) <$>
  [5000000000; 5200000000; 6100000000].

Lemma reject_flood_bounded_witness :
  of_kind KSalt (lines (A := Crypto.ToyAead.toy) init_logs flood).2 = [(5000000000, 0); (6100000000, 1)] /\
  Sorted (fun a b => a + 1000000000 <= b) (of_kind KSalt (lines (A := Crypto.ToyAead.toy) init_logs flood).2).*1.
Proof.
  split; [by vm_compute|].
  pose proof (reject_flood_bounded (A := Crypto.ToyAead.toy) flood KSalt) as H.
  destruct (lines init_logs flood) as [l out]. exact (proj1 H).
Defined.

(** ** The statistics line *)

(** What the transport library answers for this tunnel, and its process-wide
    counters. *)
Record kcp_view := mkView { v_srtt : Z; v_rto : Z; v_snd_wnd : Z; v_nodelay : Z }.
Record SnmpSnapshot := mkSnmp {
  out_segs : Z; in_segs : Z; retrans_segs : Z; fast_retrans_segs : Z; lost_segs : Z; repeat_segs : Z }.

(** [log_msg(text)]. *)
Definition log_msg (log_tag text : list Z) : list Z :=
  if bool_decide (log_tag = []) then text else log_tag ++ bytes_of_string ": " ++ text.

Section Stats.
Context {K : Kcp} {F : FecCodec}.

Definition parity_mode (e : tenv) (t : tunnel) : list Z :=
  match fec_encoder t with
  | None => bytes_of_string "off"
  | Some _ => if parity_enabled e then bytes_of_string "full" else bytes_of_string "econ"
  end.

Definition field (name : string) (n : Z) : list Z := bytes_of_string name ++ int_bytes n.

(** [stats_summary()]. *)
Definition stats_summary (log_tag : list Z) (v : kcp_view) (snmp : SnmpSnapshot) (e : tenv) (t : tunnel) : list Z :=
  let m := metrics t in
  log_msg log_tag
    (field "stats tx_pkt=" (m udp_tx_packets) ++ field " tx_bytes=" (m udp_tx_bytes) ++
     field " rx_pkt=" (m udp_rx_packets) ++ field " rx_bytes=" (m udp_rx_bytes) ++
     field " replay_dropped=" (m replay_dropped) ++ field " decrypt_err=" (m decrypt_errors) ++
     field " encrypt_err=" (m encrypt_errors) ++ field " send_err=" (m send_errors) ++
     field " fec_repaired=" (m fec_repaired) ++ field " fec_data_tx=" (m fec_data_sent) ++
     field " fec_parity_tx=" (m fec_parity_sent) ++ bytes_of_string " fec_parity=" ++ parity_mode e t ++
     field " srtt=" (v_srtt v) ++ field " rto=" (v_rto v) ++ field " wnd=" (v_snd_wnd v) ++
     field " nodelay=" (v_nodelay v) ++ field " snmp_out_segs=" (out_segs snmp) ++
     field " snmp_in_segs=" (in_segs snmp) ++ field " snmp_retrans=" (retrans_segs snmp) ++
     field " snmp_fast_retrans=" (fast_retrans_segs snmp) ++ field " snmp_lost=" (lost_segs snmp) ++
     field " snmp_repeat=" (repeat_segs snmp)).

(** The line says "econ" exactly when the tunnel frames FEC and an installed
    gate withholds the parity. *)
Lemma parity_mode_econ e t :
  parity_mode e t = bytes_of_string "econ" <-> fec_encoder t <> None /\ e_parity_gate e = Some false.
Proof.
  unfold parity_mode, parity_enabled. destruct (fec_encoder t); destruct (e_parity_gate e) as [[]|]; simpl;
    split; intros H; (done || by destruct H).
Qed.
End Stats.
