(* ===== verification/Coding.v ===== *)
(** * Coding: what the error correction did to the datagrams, and its guarantee

    A tunnel that frames FEC hands every KCP datagram to the encoder and puts
    its shards on the wire; the peer takes the datagram out of a data shard and
    gives every shard to its decoder, which rebuilds what was lost. [coding]
    and [decodes] are the calls into the codec over a stretch of a tunnel's
    life; [FecSound] is the documented guarantee of an erasure code, stated on
    them: from shards of one encoder a decoder of the same geometry rebuilds
    only what that encoder was given. [Mirror] is a codec with the guarantee
    whose parity is a second copy. As for the protocol machine in [History],
    the codec's sequence numbers are taken not to come round again within one
    session. *)

From Stdlib Require Import ZArith Lia.
From stdpp Require Import base list strings.
From S2P Require Import Prelude Config Kcp Tunnel.
From S2P Require Crypto.

(** ** Shards *)

(** The datagram in a shard the decoder rebuilt ([len | payload | padding]),
    as [feed_rebuilt] takes it out. *)
Definition carried (r : list Z) : option (list Z) :=
  if (length r <? 2)%nat then None
  else
    let declared := le16_at r 0 in
    if (declared <=? 2) || (Z.of_nat (length r) <? declared) then None
    else Some (slice 2 (Z.to_nat (declared - 2)) r).

(** A well-formed data shard, as [feed_kcp_input] tests it. *)
Definition data_shard (u : list Z) : bool :=
  negb (length u <? 8)%nat && (le16_at u 4 =? kTypeData) &&
  negb ((le16_at u 6 <=? 2) || negb (le16_at u 6 + 6 =? Z.of_nat (length u))).

(** Short enough for the 16-bit length field of a frame. *)
Definition small (d : list Z) : Prop := Z.of_nat (FEC_CRYPTO_RESERVE + 8 + length d) < 65536.

Lemma length_fill_frame d buf : length (fill_frame d buf) = (FEC_CRYPTO_RESERVE + 8 + length d)%nat.
Proof.
  unfold fill_frame. rewrite length_app, length_take, length_app, length_take, length_replicate. lia.
Qed.

Lemma drop_fill_frame d buf : drop (FEC_CRYPTO_RESERVE + 8) (fill_frame d buf) = d.
Proof.
  unfold fill_frame. apply drop_app_length'. rewrite length_take, length_app, length_take, length_replicate. lia.
Qed.

(** ** Histories *)

Section Coding.
Context {F : FecCodec}.

(** The datagrams [ds] went through the encoder, if there is one, and came
    out as [us]. *)
Inductive coding : option enc_state -> list (list Z) -> list (list Z) -> option enc_state -> Prop :=
| coding_nil x : coding x [] [] x
| coding_plain d ds us : coding None ds us None -> coding None (d :: ds) (d :: us) None
| coding_frame clock buf rto enc enc' frame parity d ds us x :
    Encode clock (fill_frame d buf) rto enc = (enc', frame, parity) -> coding (Some enc') ds us x ->
    coding (Some enc) (d :: ds) ((drop FEC_CRYPTO_RESERVE <$> frame :: parity) ++ us) x.

(** The units [us] went through the decoder, which rebuilt [rs]. *)
Inductive decodes : option dec_state -> list (list Z) -> list (list Z) -> option dec_state -> Prop :=
| decodes_nil x : decodes x [] [] x
| decodes_one clock dec dec' u out us rs x :
    Decode clock u dec = (dec', out) -> decodes (Some dec') us rs x ->
    decodes (Some dec) (u :: us) (out ++ rs) x.

Lemma coding_one clock buf rto enc enc' frame parity d :
  Encode clock (fill_frame d buf) rto enc = (enc', frame, parity) ->
  coding (Some enc) [d] (drop FEC_CRYPTO_RESERVE <$> frame :: parity) (Some enc').
Proof.
  intros E. rewrite <- (app_nil_r (_ <$> _)). eapply coding_frame; [exact E | constructor].
Qed.

Lemma decodes_single clock dec dec' u out :
  Decode clock u dec = (dec', out) -> decodes (Some dec) [u] out (Some dec').
Proof. intros E. rewrite <- (app_nil_r out). eapply decodes_one; [exact E | constructor]. Qed.

Lemma coding_app x ds us y ds' us' z :
  coding x ds us y -> coding y ds' us' z -> coding x (ds ++ ds') (us ++ us') z.
Proof.
  induction 1 as [x|d ds us _ IH|clock buf rto enc enc' frame parity d ds us x E _ IH]; intros H; [done | |].
  - assert (z = None) as ->.
    { clear IH. remember None as y eqn:Ey. by induction H. }
    constructor. by apply IH.
  - rewrite <- !app_assoc. simpl. econstructor; [done | by apply IH].
Qed.

Lemma decodes_app x us rs y us' rs' z :
  decodes x us rs y -> decodes y us' rs' z -> decodes x (us ++ us') (rs ++ rs') z.
Proof.
  induction 1 as [x|clock dec dec' u out us rs x E _ IH]; intros H; [done|].
  rewrite <- app_assoc. simpl. econstructor; [done | by apply IH].
Qed.

(** Whether there is a decoder does not change. *)
Lemma decodes_present x us rs y : decodes x us rs y -> is_Some y <-> is_Some x.
Proof. induction 1 as [|? ? ? ? ? ? ? ? _ _ IH]; [done|]. rewrite IH. split; by eexists. Qed.

Lemma decodes_silent x rs y : decodes x [] rs y -> rs = [].
Proof. by inversion 1. Qed.

(** Without an encoder the units are the datagrams. *)
Lemma coding_off ds us y : coding None ds us y -> us = ds.
Proof. remember None as x eqn:Ex. induction 1 as [|? ? ? _ IH|]; [done | by rewrite IH | done]. Qed.

(** ** The guarantee *)

Class FecSound : Prop := {
  encode_parity clock frame rto enc :
    (FEC_CRYPTO_RESERVE + 8 <= length frame)%nat -> Z.of_nat (length frame) < 65536 ->
    Forall (fun p => le16_at (drop FEC_CRYPTO_RESERVE p) 4 = kTypeParity) (Encode clock frame rto enc).2;
  rebuilds_data ds ps enc enc' dec dec' ins us heard rs :
    fec_new_encoder ds ps FEC_CRYPTO_RESERVE = Some enc -> fec_new_decoder ds ps = Some dec ->
    coding (Some enc) ins us enc' -> Forall small ins ->
    decodes (Some dec) heard rs dec' -> (forall u, u ∈ heard -> u ∈ us) ->
    forall r d, r ∈ rs -> carried r = Some d -> d ∈ ins }.

Context {FL : FecLaws F} {FS : FecSound}.

(** A data shard carries a datagram its encoder was given. *)
Lemma data_shard_given x ds us y u :
  coding (Some x) ds us y -> Forall small ds -> u ∈ us -> data_shard u = true -> drop 8 u ∈ ds.
Proof.
  remember (Some x) as x0 eqn:Ex. intros Hc. revert x Ex.
  induction Hc as [|? ? ? _ _|clock buf rto enc enc' frame parity d ds us y E Hc IH]; intros x1 Ex Hs Hu Hd;
    [by apply elem_of_nil in Hu | done|].
  apply list.Forall_cons in Hs as [Hsm Hs]. injection Ex as <-.
  apply elem_of_app in Hu as [Hu|Hu].
  2:{ apply elem_of_cons. right. by eapply IH. }
  apply elem_of_cons. left. rewrite fmap_cons in Hu. apply elem_of_cons in Hu as [->|Hu].
  - pose proof (encode_frame clock (fill_frame d buf) rto enc) as Hf. rewrite E, length_fill_frame in Hf.
    destruct Hf as (_ & Hf & _); [lia | exact Hsm|]. rewrite drop_drop, Hf. apply drop_fill_frame.
  - exfalso. apply list_elem_of_fmap in Hu as (p & -> & Hp).
    pose proof (encode_parity clock (fill_frame d buf) rto enc) as Ht. rewrite E, length_fill_frame in Ht.
    specialize (Ht ltac:(lia) Hsm). simpl in Ht. rewrite list.Forall_forall in Ht. specialize (Ht p Hp). unfold data_shard in Hd. rewrite Ht in Hd.
    by rewrite andb_false_r in Hd.
Qed.
End Coding.
Arguments FecSound F : clear implicits.

(** ** A codec with the guarantee

    The parity of a frame is its copy; the decoder ignores data shards and
    rebuilds the datagram of a parity shard. *)
Module Mirror.
Import Loopback.

#[export] Instance mirror : FecCodec := {|
  enc_state := unit;
  dec_state := unit;
  fec_new_encoder _ _ _ := Some tt;
  fec_new_decoder _ _ := Some tt;
  Encode _ frame rto _ :=
    (tt, typed_frame kTypeData frame, if rto =? 0 then [] else [typed_frame kTypeParity frame]);
  Decode _ u _ := (tt, if le16_at u 4 =? kTypeParity then [drop 6 u] else []) |}.

#[export] Instance mirror_laws : FecLaws mirror.
Proof. constructor; [|done|done]. intros clock frame rto enc H1 H2. by apply typed_frame_ok. Qed.

(** A unit with the parity type is the copy of a datagram, and rebuilds it. *)
Lemma mirror_parity x ds us y u :
  coding (Some x) ds us y -> Forall small ds -> u ∈ us -> le16_at u 4 = kTypeParity ->
  exists d, d ∈ ds /\ forall d', carried (drop 6 u) = Some d' -> d' = d.
Proof.
  remember (Some x) as x0 eqn:Ex. intros Hc. revert x Ex.
  induction Hc as [|? ? ? _ _|clock buf rto enc enc' frame parity d ds us y E Hc IH]; intros x1 Ex Hs Hu Ht;
    [by apply elem_of_nil in Hu | done|].
  apply list.Forall_cons in Hs as [Hsm Hs].
  apply elem_of_app in Hu as [Hu|Hu].
  2:{ destruct (IH _ eq_refl Hs Hu Ht) as (d0 & Hd0 & Hr). exists d0. split; [|done]. apply elem_of_cons. by right. }
  exists d. split; [apply elem_of_cons; by left|]. simpl in E. injection E as _ <- <-.
  assert (Hty : forall ty, 0 <= ty < 256 ->
    let u := drop FEC_CRYPTO_RESERVE (typed_frame ty (fill_frame d buf)) in
    le16_at u 4 = ty /\ le16_at u 6 = Z.of_nat (2 + length d) /\ drop 8 u = d /\ length u = (8 + length d)%nat).
  { intros ty Hy. destruct (typed_frame_ok ty (fill_frame d buf)) as (H1 & H2 & H3 & H4);
      rewrite ?length_fill_frame; [done | lia | exact Hsm|]. rewrite length_fill_frame in *. cbv zeta.
    split_and!; [done | rewrite H4; lia | by rewrite drop_drop, H2, drop_fill_frame | rewrite length_drop, H1; lia]. }
  rewrite fmap_cons in Hu. apply elem_of_cons in Hu as [->|Hu].
  { destruct (Hty kTypeData) as [H _]; [done|]. by rewrite H in Ht. }
  destruct (rto =? 0); [by apply elem_of_nil in Hu|]. apply list_elem_of_singleton in Hu as ->.
  destruct (Hty kTypeParity) as (_ & H2 & H3 & H4); [done|]. cbv zeta in *.
  set (u := drop FEC_CRYPTO_RESERVE _) in *. intros d'. unfold carried.
  assert (Hl : le16_at (drop 6 u) 0 = le16_at u 6).
  { unfold le16_at, byte_at. by rewrite !lookup_drop. }
  rewrite Hl, H2. destruct (_ <? _)%nat; [done|]. destruct (_ || _); [done|]. intros [= <-].
  unfold slice. rewrite drop_drop. change (6 + 2)%nat with 8%nat. rewrite H3. apply take_ge. lia.
Qed.

Lemma mirror_decodes x us rs y r :
  decodes x us rs y -> r ∈ rs -> exists u, u ∈ us /\ le16_at u 4 = kTypeParity /\ r = drop 6 u.
Proof.
  induction 1 as [|clock dec dec' u out us rs x E _ IH]; [by intros ?%elem_of_nil|].
  intros [Hr|Hr]%elem_of_app.
  - simpl in E. injection E as _ <-. destruct (Z.eqb_spec (le16_at u 4) kTypeParity); [|by apply elem_of_nil in Hr].
    apply list_elem_of_singleton in Hr as ->. exists u. split_and!; [apply elem_of_cons; by left | done | done].
  - destruct (IH Hr) as (v & Hv & H). exists v. split; [|done]. apply elem_of_cons. by right.
Qed.

#[export] Instance mirror_sound : FecSound mirror.
Proof.
  constructor.
  - intros clock frame rto enc H1 H2. simpl. destruct (rto =? 0); [done|]. apply list.Forall_singleton.
    by apply (typed_frame_ok kTypeParity).
  - intros ds ps enc enc' dec dec' ins us heard rs _ _ Hc Hs Hd Hsub r d Hr Hcar.
    destruct (mirror_decodes _ _ _ _ _ Hd Hr) as (u & Hu & Ht & ->).
    destruct (mirror_parity _ _ _ _ _ Hc Hs (Hsub u Hu) Ht) as (d0 & Hd0 & Heq). by rewrite (Heq d Hcar).
Qed.
End Mirror.
