(* ===== verification/Policies.v ===== *)
(** * Policies: the adaptive policies as the two programs wire them

    Models [AdaptiveSettings] and [AdaptiveHooks] (kcp_tunnel.hpp), the
    construction of the two controllers in the constructors of [KCPServer] and
    [KCPProxyClient], and [sample_adaptive_policies] of both (server.cpp,
    client.cpp). The gates the tunnels read are the ones a controller drives:
    [adaptive_hooks] is where the environment of a tunnel call gets them. *)

From Stdlib Require Import ZArith Lia.
From stdpp Require Import base list strings.
From S2P Require Import Prelude Config CleanPath Effects Kcp Tunnel.
From S2P Require Crypto.
Import CleanPathTracker (CleanPathTuning, mkTuning, sample_t, mkSample).

(** [struct AdaptiveSettings]; [FecParityTuning] has the fields of the
    tracker's tuning. *)
Record AdaptiveSettings := mkSettings {
  fec_parity : bool;
  fec_parity_tuning : CleanPathTuning;
  rto_relax_sec : Z }.

(** [struct AdaptiveHooks]: the value of each installed gate. *)
Record AdaptiveHooks := mkHooks { parity_gate : option bool; rto_floor_gate : option bool }.

(** The controllers a program owns, with the tuning each was built with. *)
Record policies := mkPolicies {
  parity_ctl : option (CleanPathTuning * FecParity.controller);
  rto_ctl : option (CleanPathTuning * RtoFloor.controller) }.

(** [RtoFloorController(gate, relax_sec)] with its default arguments. *)
Definition rto_tuning (relax_sec : Z) : CleanPathTuning :=
  mkTuning relax_sec KCP_RTO_HOLD_SEC ADAPTIVE_MIN_SEG_RATE.

Definition make_rto (a : AdaptiveSettings) : option (CleanPathTuning * RtoFloor.controller) :=
  if 0 <? rto_relax_sec a then Some (rto_tuning (rto_relax_sec a), RtoFloor.init) else None.

(** The constructor bodies: the server installs the parity policy whenever it
    is asked for, the client only when it frames FEC itself. *)
Definition server_policies (a : AdaptiveSettings) : policies :=
  mkPolicies (if fec_parity a then Some (fec_parity_tuning a, FecParity.init) else None) (make_rto a).
Definition client_policies (a : AdaptiveSettings) (fec : FecConfig) : policies :=
  mkPolicies (if fec_parity a && fec_enabled fec then Some (fec_parity_tuning a, FecParity.init) else None)
    (make_rto a).

(** [adaptive_hooks()]. *)
Definition adaptive_hooks (p : policies) : AdaptiveHooks :=
  mkHooks ((fun x => FecParity.gate_enabled x.2) <$> parity_ctl p)
          ((fun x => RtoFloor.gate_low_latency x.2) <$> rto_ctl p).

(** The INFO lines of a transition, with the seconds they name. *)
Inductive policy_line : Type :=
| ParityOff (probe_sec : Z)
| ParityOn (hold_sec : Z)
| RtoRelaxed (relax_sec : Z)
| RtoLowLatency (hold_sec : Z).

(** Their texts: the programs differ in the direction they send in and in who
    reports the retransmit. *)
Definition policy_text (traffic reporter : string) (l : policy_line) : list Z :=
  match l with
  | ParityOff probe =>
      bytes_of_string "FEC adaptive: parity off after " ++ int_bytes probe ++ bytes_of_string "s of clean " ++
      bytes_of_string traffic ++
      bytes_of_string " traffic (no fast retransmits); a loss falls back to KCP retransmission"
  | ParityOn hold =>
      bytes_of_string "FEC adaptive: parity on - " ++ bytes_of_string reporter ++
      bytes_of_string " reported a retransmit; staying protected for " ++ int_bytes hold ++ bytes_of_string "s"
  | RtoRelaxed relax =>
      bytes_of_string "RTO adaptive: floor 30ms -> 100ms after " ++ int_bytes relax ++ bytes_of_string "s of clean " ++
      bytes_of_string traffic ++
      bytes_of_string " traffic; queued datagrams are no longer mistaken for lost ones"
  | RtoLowLatency hold =>
      bytes_of_string "RTO adaptive: floor 100ms -> 30ms - " ++ bytes_of_string reporter ++
      bytes_of_string " reported a retransmit; staying low-latency for " ++ int_bytes hold ++ bytes_of_string "s"
  end.
Definition client_policy_text : policy_line -> list Z := policy_text "upload" "the peer".
Definition server_policy_text : policy_line -> list Z := policy_text "download" "a client".

Definition sample_parity (x : sample_t) (c : option (CleanPathTuning * FecParity.controller))
  : option (CleanPathTuning * FecParity.controller) * list policy_line :=
  match c with
  | None => (None, [])
  | Some (tun, c) =>
      let '(c', tr) := FecParity.on_sample tun c x in
      (Some (tun, c'),
       match tr with
       | FecParity.kToEconomy => [ParityOff (CleanPathTracker.clean_sec tun)]
       | FecParity.kToProtected => [ParityOn (CleanPathTracker.hold_sec tun)]
       | FecParity.kNone => []
       end)
  end.

Definition sample_rto (x : sample_t) (c : option (CleanPathTuning * RtoFloor.controller))
  : option (CleanPathTuning * RtoFloor.controller) * list policy_line :=
  match c with
  | None => (None, [])
  | Some (tun, c) =>
      let '(c', tr) := RtoFloor.on_sample tun c x in
      (Some (tun, c'),
       match tr with
       | RtoFloor.kToRelaxed => [RtoRelaxed (CleanPathTracker.clean_sec tun)]
       | RtoFloor.kToLowLatency => [RtoLowLatency (CleanPathTracker.hold_sec tun)]
       | RtoFloor.kNone => []
       end)
  end.

(** [sample_adaptive_policies()]: the clock and the process-wide counters are
    the sample. *)
Definition sample_adaptive_policies (x : sample_t) (p : policies) : policies * list policy_line :=
  let '(pc, l1) := sample_parity x (parity_ctl p) in
  let '(rc, l2) := sample_rto x (rto_ctl p) in
  (mkPolicies pc rc, l1 ++ l2).

Definition sample_all (xs : list sample_t) (p : policies) : policies :=
  foldl (fun p x => (sample_adaptive_policies x p).1) p xs.

(** The environment of a tunnel call made while [p] is in force. *)
Definition with_hooks (p : policies) (e : tenv) : tenv :=
  mkTenv (e_ns e) (e_fault e) (e_rx_fault e) (parity_gate (adaptive_hooks p))
    (rto_floor_gate (adaptive_hooks p)) (e_tuning e) (e_drain e).

(** ** The gates and the trackers agree *)

Record in_step (p : policies) : Prop := {
  step_parity tun c : parity_ctl p = Some (tun, c) ->
    FecParity.gate_enabled c = negb (CleanPathTracker.clean (FecParity.tracker c)) /\
    CleanPathTracker.counters_wf (FecParity.tracker c);
  step_rto tun c : rto_ctl p = Some (tun, c) ->
    RtoFloor.gate_low_latency c = negb (CleanPathTracker.clean (RtoFloor.tracker c)) /\
    CleanPathTracker.counters_wf (RtoFloor.tracker c) }.

Lemma fresh_in_step a :
  in_step (server_policies a) /\ forall fec, in_step (client_policies a fec).
Proof.
  unfold server_policies, client_policies, make_rto. split; intros; split; intros tun c; simpl;
    case_match; intros; simplify_eq; by vm_compute.
Qed.

Lemma parity_sample_step x c tun :
  CleanPathTracker.sample_wf x ->
  FecParity.gate_enabled c = negb (CleanPathTracker.clean (FecParity.tracker c)) ->
  exists c' lines, sample_parity x (Some (tun, c)) = (Some (tun, c'), lines) /\
  FecParity.gate_enabled c' = negb (CleanPathTracker.clean (FecParity.tracker c')) /\
  CleanPathTracker.counters_wf (FecParity.tracker c') /\
  FecParity.tracker c' = (CleanPathTracker.on_sample tun (FecParity.tracker c) x).1 /\
  (lines <> [] <-> FecParity.gate_enabled c' <> FecParity.gate_enabled c).
Proof.
  intros Hx Hg. unfold sample_parity, FecParity.on_sample.
  pose proof (CleanPathTracker.on_sample_transition tun (FecParity.tracker c) x) as Ht.
  pose proof (CleanPathTracker.on_sample_counters tun (FecParity.tracker c) x Hx) as Hw.
  destruct (CleanPathTracker.on_sample tun (FecParity.tracker c) x) as [t []]; simpl in *;
    do 2 eexists; (split; [done|]); simpl; rewrite Hg; destruct_and?;
    repeat match goal with H : CleanPathTracker.clean _ = _ |- _ => rewrite H end; split_and!; done.
Qed.

Lemma rto_sample_step x c tun :
  CleanPathTracker.sample_wf x ->
  RtoFloor.gate_low_latency c = negb (CleanPathTracker.clean (RtoFloor.tracker c)) ->
  exists c' lines, sample_rto x (Some (tun, c)) = (Some (tun, c'), lines) /\
  RtoFloor.gate_low_latency c' = negb (CleanPathTracker.clean (RtoFloor.tracker c')) /\
  CleanPathTracker.counters_wf (RtoFloor.tracker c') /\
  RtoFloor.tracker c' = (CleanPathTracker.on_sample tun (RtoFloor.tracker c) x).1 /\
  (lines <> [] <-> RtoFloor.gate_low_latency c' <> RtoFloor.gate_low_latency c).
Proof.
  intros Hx Hg. unfold sample_rto, RtoFloor.on_sample.
  pose proof (CleanPathTracker.on_sample_transition tun (RtoFloor.tracker c) x) as Ht.
  pose proof (CleanPathTracker.on_sample_counters tun (RtoFloor.tracker c) x Hx) as Hw.
  destruct (CleanPathTracker.on_sample tun (RtoFloor.tracker c) x) as [t []]; simpl in *;
    do 2 eexists; (split; [done|]); simpl; rewrite Hg; destruct_and?;
    repeat match goal with H : CleanPathTracker.clean _ = _ |- _ => rewrite H end; split_and!; done.
Qed.

Lemma sample_policies_ctl x p :
  parity_ctl (sample_adaptive_policies x p).1 = (sample_parity x (parity_ctl p)).1 /\
  rto_ctl (sample_adaptive_policies x p).1 = (sample_rto x (rto_ctl p)).1.
Proof.
  unfold sample_adaptive_policies.
  destruct (sample_parity x (parity_ctl p)), (sample_rto x (rto_ctl p)). done.
Qed.

Lemma sample_in_step x p :
  CleanPathTracker.sample_wf x -> in_step p -> in_step (sample_adaptive_policies x p).1.
Proof.
  intros Hx [Hp Hr]. destruct (sample_policies_ctl x p) as [E1 E2]. split; intros tun c; rewrite ?E1, ?E2.
  - destruct (parity_ctl p) as [[t c0]|]; [|done].
    destruct (parity_sample_step x c0 t Hx (proj1 (Hp _ _ eq_refl))) as (c' & l & -> & ? & ? & _).
    simpl. intros. by simplify_eq.
  - destruct (rto_ctl p) as [[t c0]|]; [|done].
    destruct (rto_sample_step x c0 t Hx (proj1 (Hr _ _ eq_refl))) as (c' & l & -> & ? & ? & _).
    simpl. intros. by simplify_eq.
Qed.

Lemma sample_all_in_step xs p :
  Forall CleanPathTracker.sample_wf xs -> in_step p -> in_step (sample_all xs p).
Proof.
  unfold sample_all. intros Hx. revert p. induction Hx as [|x xs Hw _ IH]; intros p Hp; simpl; [done|].
  by apply IH, sample_in_step.
Qed.

(** Evidence of loss for every controller that is installed. *)
Definition loss_seen (x : sample_t) (p : policies) : Prop :=
  (forall tun c, parity_ctl p = Some (tun, c) -> CleanPathTracker.loss_evidence (FecParity.tracker c) x) /\
  (forall tun c, rto_ctl p = Some (tun, c) -> CleanPathTracker.loss_evidence (RtoFloor.tracker c) x).

(** What the tunnels obey right now: parity is emitted and the low-latency
    floor is in force, or the policy that would say so is off. *)
Definition protected (p : policies) : Prop :=
  parity_gate (adaptive_hooks p) <> Some false /\ rto_floor_gate (adaptive_hooks p) <> Some false.

Lemma loss_sample_protects x p :
  CleanPathTracker.sample_wf x -> in_step p -> loss_seen x p ->
  protected (sample_adaptive_policies x p).1.
Proof.
  intros Hx [Hp Hr] [Lp Lr]. destruct (sample_policies_ctl x p) as [E1 E2].
  unfold protected, adaptive_hooks. rewrite E1, E2. cbn [parity_gate rto_floor_gate]. split.
  - destruct (parity_ctl p) as [[t c]|]; [|done]. destruct (Hp _ _ eq_refl) as [Hg Hw].
    destruct (CleanPathTracker.on_sample_loss t _ x Hw Hx (Lp _ _ eq_refl)) as (Hc & _).
    destruct (parity_sample_step x c t Hx Hg) as (c' & l & -> & Hg' & _ & Ht & _).
    simpl. by rewrite Hg', Ht, Hc.
  - destruct (rto_ctl p) as [[t c]|]; [|done]. destruct (Hr _ _ eq_refl) as [Hg Hw].
    destruct (CleanPathTracker.on_sample_loss t _ x Hw Hx (Lr _ _ eq_refl)) as (Hc & _).
    destruct (rto_sample_step x c t Hx Hg) as (c' & l & -> & Hg' & _ & Ht & _).
    simpl. by rewrite Hg', Ht, Hc.
Qed.

(** A tunnel that runs while [p] is protected emits parity. *)
Lemma protected_parity p e : protected p -> parity_enabled (with_hooks p e) = true.
Proof.
  intros [H _]. unfold parity_enabled, with_hooks. unfold adaptive_hooks in *. cbn in *.
  destruct (parity_ctl p) as [[t c]|]; [|done]. simpl in *. by destruct (FecParity.gate_enabled c).
Qed.

(** ** The tick counter of the server *)

(** [parity_ticks_] beside the controllers. *)
Record sampler := mkSampler { s_policies : policies; parity_ticks : Z }.

Definition any_policy (p : policies) : bool :=
  match parity_ctl p, rto_ctl p with None, None => false | _, _ => true end.

(** The sampling block of the server's [do_update_tick]: one sample every
    [FEC_PARITY_SAMPLE_TICKS] ticks. *)
Definition tick_sample (x : sample_t) (s : sampler) : sampler * list policy_line :=
  if any_policy (s_policies s) then
    if FEC_PARITY_SAMPLE_TICKS <=? parity_ticks s + 1 then
      let '(p, lines) := sample_adaptive_policies x (s_policies s) in (mkSampler p 0, lines)
    else (mkSampler (s_policies s) (parity_ticks s + 1), [])
  else (s, []).

Definition tick_samples (xs : list sample_t) (s : sampler) : sampler :=
  foldl (fun s x => (tick_sample x s).1) s xs.

Definition ticks_ok (s : sampler) : Prop := 0 <= parity_ticks s < FEC_PARITY_SAMPLE_TICKS.

Lemma any_policy_sample x p : any_policy (sample_adaptive_policies x p).1 = any_policy p.
Proof.
  destruct (sample_policies_ctl x p) as [E1 E2]. unfold any_policy. rewrite E1, E2.
  unfold sample_parity, sample_rto. repeat case_match; by simplify_eq/=.
Qed.

Lemma tick_sample_ok x s : ticks_ok s -> ticks_ok (tick_sample x s).1.
Proof.
  unfold ticks_ok, tick_sample. assert (0 < FEC_PARITY_SAMPLE_TICKS) by done.
  intros H'. repeat case_bool; zb_props; [|simpl; lia|done].
  destruct (sample_adaptive_policies x (s_policies s)). simpl. lia.
Qed.

Lemma tick_sample_in_step x s :
  CleanPathTracker.sample_wf x -> in_step (s_policies s) -> in_step (s_policies (tick_sample x s).1).
Proof.
  intros Hx Hs. unfold tick_sample. repeat case_bool; simpl; try done.
  pose proof (sample_in_step x _ Hx Hs) as H. by destruct (sample_adaptive_policies x (s_policies s)).
Qed.

(** Ticks short of the period only count. *)
Lemma ticks_before_period xs s :
  any_policy (s_policies s) = true -> 0 <= parity_ticks s ->
  parity_ticks s + Z.of_nat (length xs) < FEC_PARITY_SAMPLE_TICKS ->
  tick_samples xs s = mkSampler (s_policies s) (parity_ticks s + Z.of_nat (length xs)).
Proof.
  intros Ha. revert s Ha. induction xs as [|x xs IH]; intros s Ha Hs Hn; simpl in *.
  - destruct s. f_equal. simpl. lia.
  - assert (E : (tick_sample x s).1 = mkSampler (s_policies s) (parity_ticks s + 1)).
    { unfold tick_sample. rewrite Ha, (proj2 (Z.leb_gt _ _)) by lia. done. }
    rewrite E. change (foldl _ ?s0 xs) with (tick_samples xs s0).
    rewrite IH; simpl; [f_equal; lia | done | lia | lia].
Qed.

(** Exactly one sample is taken in a period: that of the tick that completes it. *)
Lemma one_sample_per_period xs x ys s :
  any_policy (s_policies s) = true -> 0 <= parity_ticks s ->
  parity_ticks s + Z.of_nat (length xs) + 1 = FEC_PARITY_SAMPLE_TICKS ->
  Z.of_nat (length ys) < FEC_PARITY_SAMPLE_TICKS ->
  tick_samples (xs ++ x :: ys) s =
  mkSampler (sample_adaptive_policies x (s_policies s)).1 (Z.of_nat (length ys)).
Proof.
  intros Ha Hs Hn Hy. unfold tick_samples. rewrite foldl_app. cbn [foldl].
  fold (tick_samples xs s). rewrite ticks_before_period by (done || lia).
  set (s1 := mkSampler (s_policies s) (parity_ticks s + Z.of_nat (length xs))).
  assert (E : (tick_sample x s1).1 = mkSampler (sample_adaptive_policies x (s_policies s)).1 0).
  { unfold tick_sample, s1. cbn [s_policies parity_ticks]. rewrite Ha, (proj2 (Z.leb_le _ _)) by lia.
    by destruct (sample_adaptive_policies x (s_policies s)). }
  rewrite E. change (foldl _ ?s0 ys) with (tick_samples ys s0).
  rewrite ticks_before_period; cbn [s_policies parity_ticks]; [done | by rewrite any_policy_sample | lia..].
Qed.

(** C26: loss is noticed within one sampling period of the server. If the
    counters show a fast retransmit since the last sample, then after any
    [FEC_PARITY_SAMPLE_TICKS] consecutive ticks, wherever in the period the
    first of them falls, every tunnel emits parity again and no tunnel is
    told to use the relaxed retransmission floor. *)
Theorem loss_noticed_within_period (s : sampler) (xs : list sample_t) :
  in_step (s_policies s) -> ticks_ok s ->
  Z.of_nat (length xs) = FEC_PARITY_SAMPLE_TICKS ->
  Forall (fun x => CleanPathTracker.sample_wf x /\ loss_seen x (s_policies s)) xs ->
  any_policy (s_policies s) = true ->
  parity_ticks (tick_samples xs s) = parity_ticks s /\
  forall e, parity_enabled (with_hooks (s_policies (tick_samples xs s)) e) = true /\
            e_rto_gate (with_hooks (s_policies (tick_samples xs s)) e) <> Some false.
Proof.
  intros Hi [Ht0 Ht1] Hn Hx Ha.
  set (k := Z.to_nat (FEC_PARITY_SAMPLE_TICKS - parity_ticks s - 1)).
  destruct (lookup_lt_is_Some_2 xs k) as [x Hk]; [lia|].
  rewrite <- (take_drop_middle xs k x Hk).
  assert (length (take k xs) = k) by (rewrite length_take; lia).
  assert (length (drop (S k) xs) = Z.to_nat (parity_ticks s)) by (rewrite length_drop; lia).
  rewrite one_sample_per_period by (done || lia). simpl. split; [lia|].
  destruct (Forall_lookup_1 _ _ _ _ Hx Hk) as [Hw Hl].
  pose proof (loss_sample_protects x _ Hw Hi Hl) as Hp. intros e. split; [by apply protected_parity|].
  apply Hp.
Qed.

(** A server with both policies on, one sample taken, 57 ticks into the next
    period; then a client reports a fast retransmit. *)
Definition example_settings : AdaptiveSettings := mkSettings true (mkTuning 30 60 ADAPTIVE_MIN_SEG_RATE) 30.
Definition example_sampler : sampler :=
  mkSampler (sample_all [mkSample 100 0 1000] (server_policies example_settings)) 57.

Lemma loss_noticed_within_period_witness :
  parity_ticks (tick_samples (replicate 200 (mkSample 900 1 2001000)) example_sampler) = 57.
Proof.
  apply (loss_noticed_within_period example_sampler).
  - apply sample_all_in_step; [by repeat constructor | apply fresh_in_step].
  - done.
  - by rewrite length_replicate.
  - apply Forall_replicate. split; [done|]. split; intros tun c H; vm_compute in H; simplify_eq; done.
  - done.
Defined.
