(* ===== verification/SocketBuffer.v ===== *)
(** * SocketBuffer: the kernel buffers of the UDP sockets

    Models socket_buffer.hpp: [describe_buffer_clamp] and
    [apply_udp_buffer_sizes], with the once-per-process cache of its
    [report_once] mode. The answers of [setsockopt] and [getsockopt] are
    parameters. The Windows-only [disable_udp_connreset] is one system call
    and is not modelled. *)

From Stdlib Require Import ZArith Lia.
From stdpp Require Import base list sets strings.
From S2P Require Import Prelude Config Runtime.

(** [fmt] on an [int]. *)
Definition int_bytes (z : Z) : list Z := if z <? 0 then 45 :: dec_bytes (- z) else dec_bytes z.

(** [describe_buffer_clamp(option_name, sysctl_name, requested, effective)]. *)
Definition describe_buffer_clamp (option_name sysctl_name : list Z) (requested effective : Z) : list Z :=
  if requested <=? effective then []
  else
    bytes_of_string "UDP socket buffer clamped by the kernel: " ++ option_name ++
    bytes_of_string " requested=" ++ int_bytes requested ++
    bytes_of_string " effective=" ++ int_bytes effective ++
    bytes_of_string " -- the kernel caps it at " ++ sysctl_name ++
    bytes_of_string " (raise it, e.g. via /etc/sysctl.d/99-kcp-proxy.conf; otherwise a burst " ++
    bytes_of_string "overflows the buffer and the resulting drops look like network loss)".

(** What the kernel answers: the results of the two [set_option] calls and,
    for each option read back, its value or a failure. *)
Record sock_answers := mkAnswers {
  set_rcv_failed : bool;
  set_snd_failed : bool;
  got_rcv : option Z;
  got_snd : option Z }.

(** [struct EffectiveBufferSizes]. *)
Record EffectiveBufferSizes := mkSizes { rcv : list Z; snd : list Z }.

Definition unknown : list Z := bytes_of_string "?".

(** The lines reported, by what they say. *)
Inductive line : Type :=
| SetFailed (option_name : list Z)
| Buffers (sizes : EffectiveBufferSizes)
| Clamped (text : list Z).

Definition line_level (l : line) : LogLevel :=
  match l with SetFailed _ => Warning | Buffers _ => Info | Clamped _ => Warning end.

Definition so_rcvbuf : list Z := bytes_of_string "so_rcvbuf".
Definition so_sndbuf : list Z := bytes_of_string "so_sndbuf".
Definition rmem_max : list Z := bytes_of_string "net.core.rmem_max".
Definition wmem_max : list Z := bytes_of_string "net.core.wmem_max".

Definition size_text (v : option Z) : list Z := match v with Some z => int_bytes z | None => unknown end.

Definition clamp_lines (option_name sysctl_name : list Z) (requested : Z) (v : option Z) : list line :=
  match v with
  | None => []
  | Some eff =>
      match describe_buffer_clamp option_name sysctl_name requested eff with
      | [] => []
      | text => [Clamped text]
      end
  end.

(** The lambda [read_and_report]. *)
Definition read_and_report (a : sock_answers) : EffectiveBufferSizes * list line :=
  let out := mkSizes (size_text (got_rcv a)) (size_text (got_snd a)) in
  (out, Buffers out ::
        clamp_lines so_rcvbuf rmem_max UDP_SO_RCVBUF_BYTES (got_rcv a) ++
        clamp_lines so_sndbuf wmem_max UDP_SO_SNDBUF_BYTES (got_snd a)).

Definition set_lines (a : sock_answers) : list line :=
  (if set_rcv_failed a then [SetFailed so_rcvbuf] else []) ++
  (if set_snd_failed a then [SetFailed so_sndbuf] else []).

(** [apply_udp_buffer_sizes]; the cache is the [static] pair of the
    [call_once], empty until the first call of that mode. *)
Definition apply_udp_buffer_sizes (report_once : bool) (a : sock_answers) (cache : option EffectiveBufferSizes)
  : option EffectiveBufferSizes * EffectiveBufferSizes * list line :=
  if report_once then
    match cache with
    | Some c => (cache, c, set_lines a)
    | None => let '(out, ls) := read_and_report a in (Some out, out, set_lines a ++ ls)
    end
  else let '(out, ls) := read_and_report a in (cache, out, set_lines a ++ ls).

(** A sequence of calls of the once mode: what each returned, all lines. *)
Fixpoint apply_all (calls : list sock_answers) (cache : option EffectiveBufferSizes)
  : list EffectiveBufferSizes * list line :=
  match calls with
  | [] => ([], [])
  | a :: rest =>
      let '(cache', out, ls) := apply_udp_buffer_sizes true a cache in
      let '(outs, lss) := apply_all rest cache' in
      (out :: outs, ls ++ lss)
  end.

Definition is_report (l : line) : bool := match l with SetFailed _ => false | _ => true end.

Lemma clamp_described option_name sysctl_name requested eff :
  describe_buffer_clamp option_name sysctl_name requested eff <> [] <-> eff < requested.
Proof.
  unfold describe_buffer_clamp. destruct (Z.leb_spec requested eff); split; intros; try done; lia.
Qed.

Lemma clamp_lines_iff option_name sysctl_name requested v :
  (exists text, Clamped text ∈ clamp_lines option_name sysctl_name requested v) <->
  exists eff, v = Some eff /\ eff < requested.
Proof.
  unfold clamp_lines. destruct v as [eff|]; [|split; [by intros [? ?%elem_of_nil] | by intros (? & ? & _)]].
  pose proof (clamp_described option_name sysctl_name requested eff) as H.
  destruct (describe_buffer_clamp _ _ _ _) as [|b text]; split.
  - by intros [? ?%elem_of_nil].
  - intros (eff' & [= <-] & Hlt). by destruct (proj2 H Hlt).
  - intros _. exists eff. split; [done|]. by apply H.
  - intros _. eexists. by apply list_elem_of_singleton.
Qed.

Lemma clamp_lines_report option_name sysctl_name requested v :
  filter (fun l => is_report l = true) (clamp_lines option_name sysctl_name requested v) =
  clamp_lines option_name sysctl_name requested v.
Proof. unfold clamp_lines. by repeat case_match. Qed.

Lemma cached_calls c calls :
  apply_all calls (Some c) = (replicate (length calls) c, mjoin (set_lines <$> calls)).
Proof.
  induction calls as [|a calls IH]; [done|]. simpl. by rewrite IH.
Qed.

Lemma set_lines_silent a : filter (fun l => is_report l = true) (set_lines a) = [].
Proof. unfold set_lines. by destruct (set_rcv_failed a), (set_snd_failed a). Qed.

(** A clamp by the kernel is reported exactly when a buffer can be read back
    and is smaller than what was asked for; and however many sockets a client
    opens, the sizes and the clamps are reported for the first one only, while
    every caller gets those sizes. *)
Theorem buffer_report_once (a : sock_answers) (rest : list sock_answers) :
  let '(outs, lines) := apply_all (a :: rest) None in
  outs = replicate (S (length rest)) (read_and_report a).1 /\
  filter (fun l => is_report l = true) lines = (read_and_report a).2 /\
  ((exists text, Clamped text ∈ lines) <->
   (exists eff, got_rcv a = Some eff /\ eff < UDP_SO_RCVBUF_BYTES) \/
   (exists eff, got_snd a = Some eff /\ eff < UDP_SO_SNDBUF_BYTES)).
Proof.
  cbn [apply_all apply_udp_buffer_sizes]. destruct (read_and_report a) as [out ls] eqn:E.
  rewrite cached_calls.
  assert (Hrest : filter (fun l => is_report l = true) (mjoin (set_lines <$> rest)) = []).
  { induction rest as [|b rest IH]; [done|].
    change (mjoin (set_lines <$> b :: rest)) with (set_lines b ++ mjoin (set_lines <$> rest)).
    by rewrite filter_app, set_lines_silent, IH. }
  injection E as <- <-. set (r := clamp_lines so_rcvbuf _ _ _). set (w := clamp_lines so_sndbuf _ _ _).
  set (ls := _ :: r ++ w).
  assert (Hf : filter (fun l => is_report l = true) ls = ls).
  { unfold ls. rewrite filter_cons_True by done. rewrite filter_app. unfold r, w. by rewrite !clamp_lines_report. }
  assert (Hlines : filter (fun l => is_report l = true) ((set_lines a ++ ls) ++ mjoin (set_lines <$> rest)) = ls)
    by by rewrite !filter_app, set_lines_silent, Hrest, Hf, app_nil_r.
  split_and!; [done | done |].
  rewrite <- (clamp_lines_iff so_rcvbuf rmem_max), <- (clamp_lines_iff so_sndbuf wmem_max). fold r w.
  assert (Hc : forall text, Clamped text ∈ (set_lines a ++ ls) ++ mjoin (set_lines <$> rest) <->
                            Clamped text ∈ r \/ Clamped text ∈ w).
  { intros text. transitivity (Clamped text ∈ ls).
    - split; intros Ht.
      + rewrite <- Hlines. by apply list_elem_of_filter.
      + rewrite <- Hlines in Ht. by apply list_elem_of_filter in Ht as [_ Ht].
    - unfold ls. rewrite elem_of_cons, elem_of_app. naive_solver. }
  setoid_rewrite Hc. naive_solver.
Qed.
