(* ===== verification/ServerLife.v ===== *)
(** * ServerLife: start, ticking and shutdown of the server

    Models the part of [KCPServer] (server.cpp) that keeps the others going:
    the constructor, [start], [do_receive] with the readiness wait, the drain
    and its backoff, [do_update_tick] with the sampling of the adaptive
    policies and the fan-out to the sessions, the re-arming of [do_cleanup],
    [stop], the destructor, [bound_port] and the datagram sends. The session
    table and the routing are [Router]; the drain and the batched send are
    [Udp]; the policies are [Policies]. *)

From Stdlib Require Import ZArith Lia.
From stdpp Require Import base list gmap strings.
From S2P Require Import Prelude Config Asio CleanPath Runtime Udp Effects Kcp.
From S2P Require Import Router RouterProofs Policies SocketBuffer.
From S2P Require Crypto Tombstones.

(** The shared UDP socket: closed, open, or bound with the port that
    [local_endpoint] reports ([None] when that call fails). *)
Inductive udp_state : Type := UdpClosed | UdpOpen | UdpBound (local : option Z).

Definition is_open (u : udp_state) : bool := match u with UdpClosed => false | _ => true end.

(** The members the life cycle reads or writes, [router] being those of the
    session tables. [waits] counts the readiness waits outstanding on the
    socket, [waits_aborted] those its [close] cancelled; [stop_timers_queued]
    and [stop_socket_queued] say that the handler [stop] posted to that strand
    has not run yet. *)
Record life := mkLife {
  host : list Z;
  port : Z;
  router : server;
  sampling : sampler;
  udp_socket : udp_state;
  waits : nat;
  waits_aborted : nat;
  recv_backoff_armed : bool;
  receive_backoff_timer : Timer.t;
  cleanup_timer : Timer.t;
  update_tick_timer : Timer.t;
  recv_error_log : LogThrottle.t;
  send_error_log : LogThrottle.t;
  stop_timers_queued : bool;
  stop_socket_queued : bool }.

(** What happens outside: an effect of the routing, a tick dispatched to a
    session, a datagram taken by [sendmmsg] or handed to [async_send_to], and
    the log lines that carry state. *)
Inductive event : Type :=
| Routed (eff : effect)
| TickSession (id : Z)
| SentNow (ep : endpoint) (data : list Z)
| AsyncSend (ep : endpoint) (data : list Z)
| PolicyChange (l : policy_line)
| SocketReport (l : line)
| Listening (bound_port : Z)
| ErrorLine (suppressed : Z).

Definition set_router (r : server) (s : life) : life :=
  mkLife (host s) (port s) r (sampling s) (udp_socket s) (waits s) (waits_aborted s) (recv_backoff_armed s)
    (receive_backoff_timer s) (cleanup_timer s) (update_tick_timer s) (recv_error_log s) (send_error_log s)
    (stop_timers_queued s) (stop_socket_queued s).
Definition set_sampling (v : sampler) (s : life) : life :=
  mkLife (host s) (port s) (router s) v (udp_socket s) (waits s) (waits_aborted s) (recv_backoff_armed s)
    (receive_backoff_timer s) (cleanup_timer s) (update_tick_timer s) (recv_error_log s) (send_error_log s)
    (stop_timers_queued s) (stop_socket_queued s).
Definition set_udp (v : udp_state) (s : life) : life :=
  mkLife (host s) (port s) (router s) (sampling s) v (waits s) (waits_aborted s) (recv_backoff_armed s)
    (receive_backoff_timer s) (cleanup_timer s) (update_tick_timer s) (recv_error_log s) (send_error_log s)
    (stop_timers_queued s) (stop_socket_queued s).
Definition set_waits (n aborted : nat) (s : life) : life :=
  mkLife (host s) (port s) (router s) (sampling s) (udp_socket s) n aborted (recv_backoff_armed s)
    (receive_backoff_timer s) (cleanup_timer s) (update_tick_timer s) (recv_error_log s) (send_error_log s)
    (stop_timers_queued s) (stop_socket_queued s).
Definition set_backoff (b : bool) (v : Timer.t) (s : life) : life :=
  mkLife (host s) (port s) (router s) (sampling s) (udp_socket s) (waits s) (waits_aborted s) b
    v (cleanup_timer s) (update_tick_timer s) (recv_error_log s) (send_error_log s)
    (stop_timers_queued s) (stop_socket_queued s).
Definition set_cleanup_timer (v : Timer.t) (s : life) : life :=
  mkLife (host s) (port s) (router s) (sampling s) (udp_socket s) (waits s) (waits_aborted s) (recv_backoff_armed s)
    (receive_backoff_timer s) v (update_tick_timer s) (recv_error_log s) (send_error_log s)
    (stop_timers_queued s) (stop_socket_queued s).
Definition set_tick_timer (v : Timer.t) (s : life) : life :=
  mkLife (host s) (port s) (router s) (sampling s) (udp_socket s) (waits s) (waits_aborted s) (recv_backoff_armed s)
    (receive_backoff_timer s) (cleanup_timer s) v (recv_error_log s) (send_error_log s)
    (stop_timers_queued s) (stop_socket_queued s).
Definition set_recv_log (v : LogThrottle.t) (s : life) : life :=
  mkLife (host s) (port s) (router s) (sampling s) (udp_socket s) (waits s) (waits_aborted s) (recv_backoff_armed s)
    (receive_backoff_timer s) (cleanup_timer s) (update_tick_timer s) v (send_error_log s)
    (stop_timers_queued s) (stop_socket_queued s).
Definition set_send_log (v : LogThrottle.t) (s : life) : life :=
  mkLife (host s) (port s) (router s) (sampling s) (udp_socket s) (waits s) (waits_aborted s) (recv_backoff_armed s)
    (receive_backoff_timer s) (cleanup_timer s) (update_tick_timer s) (recv_error_log s) v
    (stop_timers_queued s) (stop_socket_queued s).
Definition set_queued (timers socket : bool) (s : life) : life :=
  mkLife (host s) (port s) (router s) (sampling s) (udp_socket s) (waits s) (waits_aborted s) (recv_backoff_armed s)
    (receive_backoff_timer s) (cleanup_timer s) (update_tick_timer s) (recv_error_log s) (send_error_log s)
    timers socket.

Definition set_running (b : bool) (r : server) : server :=
  mkServer (sessions r) (connections r) b (stopped r) (auth_attempts_window r) (auth_window_start r)
    (auth_failures_by_addr r) (tombstones r) (srv_key r) (srv_fec r) (next_uid r).

Definition set_key (k : list Z) (r : server) : server :=
  mkServer (sessions r) (connections r) (running r) (stopped r) (auth_attempts_window r) (auth_window_start r)
    (auth_failures_by_addr r) (tombstones r) k (srv_fec r) (next_uid r).

Definition is_running (s : life) : bool := running (router s).

Definition LOG_THROTTLE_NS : Z := 1000000000.

(** The constructor: not running, nothing armed. *)
Definition new_server (h : list Z) (p : Z) (key : list Z) (fec : FecConfig) (a : AdaptiveSettings) : life :=
  mkLife h p (set_running false (init_server key fec)) (mkSampler (server_policies a) 0)
    UdpClosed 0 0 false Timer.idle Timer.idle Timer.idle
    (LogThrottle.init LOG_THROTTLE_NS) (LogThrottle.init LOG_THROTTLE_NS) false false.

Section Operations.
Context {I : AsioIp} {A : Crypto.Aead}.
Local Abbreviation Op := (M life event).

(** A throttled error line. *)
Definition throttled (now : Z) (log : life -> LogThrottle.t) (set : LogThrottle.t -> life -> life) : Op unit :=
  let* l := egets log in
  let '(l', out) := LogThrottle.should_log now l in
  emodify (set l') ;;; match out with Some n => emit (ErrorLine n) | None => eret tt end.

(** [arm_receive_drain()]: one readiness wait. *)
Definition arm_receive_drain : Op unit :=
  let* r := egets is_running in
  ewhen r (emodify (fun s => set_waits (S (waits s)) (waits_aborted s) s)).

(** [do_receive()] on Linux. *)
Definition do_receive : Op unit :=
  let* r := egets is_running in ewhen r arm_receive_drain.

(** [park_receive_drain()]. *)
Definition park_receive_drain : Op unit :=
  let* armed := egets recv_backoff_armed in
  ewhen (negb armed) (emodify (fun s => set_backoff true (Timer.arm (receive_backoff_timer s)) s)).

(** The handler of the backoff timer. *)
Definition on_receive_backoff (ec : error_code) : Op unit :=
  emodify (fun s => set_backoff false (receive_backoff_timer s) s) ;;;
  let* r := egets is_running in
  ewhen (negb (ec_failed ec) && r) arm_receive_drain.

(** [route_datagram(endpoint, data)]; [e] is the clock and the library at
    that call. *)
Definition route (e : env) (d : Drain.datagram) : Op unit :=
  match Drain.decode_source (Drain.source d) with
  | None => eret tt
  | Some (addr, p) =>
      let* r := egets router in
      let '(r', eff, _) := route_datagram e (mkEndpoint addr p) (Drain.bytes d) r in
      emodify (set_router r') ;;; emit_all (Routed <$> eff)
  end.

(** [handle_receive_drain(wait_ec)]: the drain reads before anything is
    routed; the kernel's answers and the clock of each routed datagram are
    parameters. *)
Definition handle_receive_drain (ec : error_code) (answers : list Drain.sys_result) (clock : nat -> env)
    (now : Z) : Op unit :=
  let* r := egets is_running in
  let '(routed, nxt) := Drain.handle_receive_drain r r (bool_decide (ec = ec_operation_aborted)) (ec_failed ec) answers in
  efor (fun '(i, d) => route (clock i) d) (imap pair routed) ;;;
  match nxt with
  | Drain.ChainEnds => eret tt
  | Drain.ParkBackoff => throttled now recv_error_log set_recv_log ;;; park_receive_drain
  | Drain.ArmAgain => arm_receive_drain
  end.

(** The sessions of the table, as the tick's snapshot takes them. *)
Definition tick_snapshot (r : server) : list Z := (fun '(_, s) => uid s) <$> map_to_list (sessions r).

(** [do_update_tick(ec)]: re-arm, sample, fan out. [x] is the clock and the
    counters of a sample, [gone] the sessions destroyed between the snapshot
    and their dispatch, whose weak reference no longer locks. *)
Definition do_update_tick (ec : error_code) (x : CleanPathTracker.sample_t) (gone : list Z) : Op unit :=
  let* r := egets is_running in
  if ec_failed ec || negb r then eret tt
  else
    emodify (fun s => set_tick_timer (Timer.arm (update_tick_timer s)) s) ;;;
    let* sm := egets sampling in
    let '(sm', lines) := tick_sample x sm in
    emodify (set_sampling sm') ;;; emit_all (PolicyChange <$> lines) ;;;
    let* snap := egets (fun s => tick_snapshot (router s)) in
    emit_all (TickSession <$> filter (fun id => id ∉ gone) snap).

(** [do_cleanup(ec)]: the sweep of [Router], then the timer again. *)
Definition on_cleanup (ec : error_code) (e : env) : Op unit :=
  let* r := egets router in
  if ec_failed ec || negb (running r) then eret tt
  else
    let '(r', eff) := do_cleanup e r in
    emodify (set_router r') ;;; emit_all (Routed <$> eff) ;;;
    emodify (fun s => set_cleanup_timer (Timer.arm (cleanup_timer s)) s).

(** What the kernel answers during [start]. *)
Record start_answers := mkStart {
  open_ec : error_code;
  bind_ec : error_code;
  local_port : option Z;
  sock_bufs : sock_answers;
  first_sample : CleanPathTracker.sample_t }.

(** The exceptions of [start]. *)
Inductive start_error : Type :=
| InvalidListenHost
| OpenFailed (ec : error_code)
| BindFailed (ec : error_code).

(** [bound_port()]. *)
Definition bound_port (s : life) : Z :=
  match udp_socket s with UdpBound (Some p) => p | _ => port s end.

(** [start()]; [Some err] when it throws. *)
Definition start (a : start_answers) : Op (option start_error) :=
  let* h := egets host in
  match make_address h with
  | None => eret (Some InvalidListenHost)
  | Some addr =>
      if ec_failed (open_ec a) then eret (Some (OpenFailed (open_ec a)))
      else
        emodify (set_udp UdpOpen) ;;;
        if ec_failed (bind_ec a) then eret (Some (BindFailed (bind_ec a)))
        else
          emodify (set_udp (UdpBound (local_port a))) ;;;
          let '(_, _, lines) := apply_udp_buffer_sizes false (sock_bufs a) None in
          emit_all (SocketReport <$> lines) ;;;
          emodify (fun s => set_router (set_running true (router s)) s) ;;;
          emodify (fun s => set_cleanup_timer (Timer.arm (cleanup_timer s)) s) ;;;
          do_update_tick ec_none (first_sample a) [] ;;;
          let* p := egets bound_port in
          emit (Listening p) ;;;
          do_receive ;;;
          eret None
  end.

(** [stop()], on the caller's thread: the flags and the tables are
    [Router.stop]; the rest is posted to the strands that own the timers and
    the socket, and runs there later, or never when the io_context stops
    first. *)
Definition stop_server : Op unit :=
  let* r := egets router in
  if negb (running r) then eret tt
  else
    let '(r', eff) := Router.stop r in
    emodify (fun s => set_queued true true (set_router r' s)) ;;;
    emit_all (Routed <$> eff).

(** [wipe_key()]. *)
Definition wipe_key : Op unit := emodify (fun s => set_router (set_key [] (router s)) s).

(** The two handlers [stop] posts; [alive] is the lock of the weak reference. *)
Definition on_stop_timers (alive : bool) : Op unit :=
  emodify (fun s => set_queued false (stop_socket_queued s) s) ;;;
  ewhen alive (emodify (fun s =>
    set_tick_timer (Timer.cancel (update_tick_timer s)) (set_cleanup_timer (Timer.cancel (cleanup_timer s)) s))).
Definition on_stop_socket (alive : bool) : Op unit :=
  emodify (fun s => set_queued (stop_timers_queued s) false s) ;;;
  ewhen alive
    (emodify (fun s =>
       set_waits 0 (waits s + waits_aborted s)
         (set_backoff (recv_backoff_armed s) (Timer.cancel (receive_backoff_timer s)) (set_udp UdpClosed s))) ;;;
     wipe_key).

(** The destructor. *)
Definition destroy : Op unit := stop_server ;;; wipe_key.

(** [initiate_send_to]; its completion only reports. *)
Definition initiate_send_to (ep : endpoint) (data : list Z) : Op unit := emit (AsyncSend ep data).
Definition on_sent (ec : error_code) (now : Z) : Op unit :=
  ewhen (ec_failed ec && negb (bool_decide (ec = ec_operation_aborted)))
    (throttled now send_error_log set_send_log).

(** [send_to_client] and [send_batch_to_client], on the socket's strand. *)
Definition can_send (s : life) : bool := is_running s && is_open (udp_socket s).
Definition send_to_client (ep : endpoint) (data : list Z) : Op unit :=
  let* ok := egets can_send in ewhen ok (initiate_send_to ep data).
Definition send_batch_to_client (ep : endpoint) (answers : list BatchSend.sys_result) (batch : list (list Z))
  : Op unit :=
  match batch with
  | [] => eret tt
  | [d] => send_to_client ep d
  | _ =>
      let* ok := egets can_send in
      let '(taken, rest) := BatchSend.send_batch ok answers batch in
      emit_all (SentNow ep <$> taken) ;;; efor (initiate_send_to ep) rest
  end.
End Operations.

(** ** What the routing leaves alone *)

Section Steady.
Context {I : AsioIp} {A : Crypto.Aead}.

(** Everything the server does but [start] and [stop]: the flags and the key
    stay, the bounds of the tables are kept, and a stopped server registers
    nothing. *)
Record steady (r r' : server) : Prop := {
  st_running : running r' = running r;
  st_stopped : stopped r' = stopped r;
  st_key : srv_key r' = srv_key r;
  st_inv : router_inv r -> router_inv r';
  st_empty : stopped r = true -> sessions r = ∅ -> sessions r' = ∅ }.

Lemma steady_refl r : steady r r.
Proof. by split. Qed.
Lemma steady_trans r1 r2 r3 : steady r1 r2 -> steady r2 r3 -> steady r1 r3.
Proof.
  intros [A1 A2 A3 A4 A5] [B1 B2 B3 B4 B5].
  split; [congruence..|auto|]. intros Hs H. apply B5; [congruence | by apply A5].
Qed.

Lemma steady_pre_auth e sid pkt r : steady r (pre_auth e sid pkt r).1.1.
Proof.
  pose proof (pre_auth_inv e sid pkt r) as Hi. pose proof (pre_auth_spec e sid pkt r) as H.
  destruct (pre_auth e sid pkt r) as [[r' eff] res]. destruct H as [[[-> _]|(s & _ & _ & -> & _)] _].
  { apply steady_refl. }
  destruct (evict_spec sid s r) as (Es & _ & Er & Est & _ & _ & _ & _ & Ek & _). simpl in *.
  split; try done. intros _ H. by rewrite Es, H, delete_empty.
Qed.

Lemma steady_authenticate e addr pkt r : steady r (authenticate e addr pkt r).1.
Proof.
  pose proof (authenticate_inv e addr pkt r) as Hi.
  destruct (authenticate_frame e addr pkt r) as (Es & _ & Er & Est & _ & Ek & _).
  split; try done. intros _ H. by rewrite Es.
Qed.

Lemma enroll_frame e sid pkt pt c eff rep r :
  let r' := (enroll e sid pkt pt c eff rep r).1.1 in
  running r' = running r /\ stopped r' = stopped r /\ srv_key r' = srv_key r.
Proof. unfold enroll. repeat case_bool; try done. Qed.

Lemma commit_frame e sid pkt pt c r :
  let r' := (commit e sid pkt pt c r).1.1 in
  running r' = running r /\ stopped r' = stopped r /\ srv_key r' = srv_key r.
Proof.
  cbv zeta. unfold commit. destruct (stopped r) eqn:Hst; [done|]. rewrite <- Hst.
  destruct (sessions r !! sid) as [s|]; [|apply enroll_frame].
  repeat case_bool; try done; [apply enroll_frame|].
  destruct (evict_spec sid s r) as (_ & _ & Er & Est & _ & _ & _ & _ & Ek & _).
  destruct (evict sid s r) as [r1 eff1]. simpl in *. rewrite <- Er, <- Est, <- Ek. apply enroll_frame.
Qed.

Lemma steady_commit e sid pkt pt c r : steady r (commit e sid pkt pt c r).1.1.
Proof.
  destruct (commit_frame e sid pkt pt c r) as (? & ? & ?).
  split; try done; [apply commit_inv|]. intros Hst Hs. unfold commit. by rewrite Hst.
Qed.

Lemma steady_close sid owner r : steady r (close_connection sid owner r).1.
Proof.
  pose proof (close_inv sid owner r) as Hi. revert Hi. unfold close_connection.
  case_bool; simpl; intros Hi; split; try done. intros _ H. simpl. by rewrite H, delete_empty.
Qed.

Lemma steady_cleanup e r : steady r (do_cleanup e r).1.
Proof.
  pose proof (cleanup_inv e r) as Hi. revert Hi. unfold do_cleanup.
  case_bool; simpl; intros Hi; split; try done. intros _ H. simpl. by rewrite H, map_to_list_empty.
Qed.

Lemma steady_goc e ep pkt r : steady r (get_or_create_session e ep pkt r).1.1.
Proof.
  unfold get_or_create_session. pose proof (steady_pre_auth e (session_id ep) pkt r) as H1.
  destruct (pre_auth e (session_id ep) pkt r) as [[r1 eff] [s|[]]]; simpl in *; try done.
  pose proof (steady_authenticate e (ep_addr ep) pkt r1) as H2.
  destruct (authenticate e (ep_addr ep) pkt r1) as [r2 [why|[c pt]]]; simpl in *; [by eapply steady_trans|].
  pose proof (steady_commit e (session_id ep) pkt pt c r2) as H3.
  destruct (commit e (session_id ep) pkt pt c r2) as [[r3 eff3] out]. simpl in *.
  eauto using steady_trans.
Qed.

Lemma steady_route e ep pkt r : steady r (route_datagram e ep pkt r).1.1.
Proof.
  unfold route_datagram. pose proof (steady_goc e ep pkt r) as H.
  by destruct (get_or_create_session e ep pkt r) as [[r' eff] []].
Qed.

(** Any phase of the routing, any work of a session, any teardown. *)
Lemma steady_step x y : RouterProofs.step x y -> running y.1 = running x.1 -> steady x.1 y.1.
Proof.
  intros Hst Hr. destruct Hst; simpl in *.
  - pose proof (steady_pre_auth e (session_id ep) pkt r) as Hp. by rewrite H in Hp.
  - pose proof (steady_pre_auth e (session_id ep) pkt r) as Hp. by rewrite H in Hp.
  - pose proof (steady_authenticate e (ep_addr ep) pkt r) as Hp. by rewrite H in Hp.
  - pose proof (steady_authenticate e (ep_addr ep) pkt r) as Hp. by rewrite H in Hp.
  - pose proof (steady_commit e (session_id ep) pkt plaintext c r) as Hp. by rewrite H in Hp.
  - apply steady_close.
  - apply steady_cleanup.
  - unfold Router.stop in *. destruct (running r) eqn:E; simpl in *; [done | apply steady_refl].
  - split; try done; simpl; [intros; by eapply session_update_inv|]. intros _ Hs. by rewrite Hs in H.
  - pose proof (register_inv sid owner sock r) as Hi. revert Hi. unfold register_connection.
    case_bool_decide; intros Hi; [|apply steady_refl]. by split.
Qed.
End Steady.

(** ** The loops stay armed *)

Section Loops.
Context {I : AsioIp} {A : Crypto.Aead}.

(** Only the session tables change, and steadily. *)
Definition routes (s : life) (_ : list event) (s' : life) : Prop :=
  s' = set_router (router s') s /\ steady (router s) (router s').

#[local] Instance routes_comp : Compositional routes.
Proof.
  split.
  - intros s. split; [by destruct s | apply steady_refl].
  - intros s1 s2 s3 e1 e2 [E1 H1] [E2 H2]. split; [|by eapply steady_trans].
    rewrite E2, E1. by destruct s1.
Qed.

Lemma route_routes e d : keeps routes (route e d).
Proof.
  intros s. unfold route. destruct (Drain.decode_source (Drain.source d)) as [[addr p]|].
  2:{ apply (comp_refl (R := routes)). }
  unfold routes. rewrite final_gets.
  pose proof (steady_route e (mkEndpoint addr p) (Drain.bytes d) (router s)) as H.
  destruct (route_datagram e (mkEndpoint addr p) (Drain.bytes d) (router s)) as [[r' eff] out].
  simpl in H. by rewrite final_modify, emit_all_final.
Qed.

Lemma throttled_final now log set s :
  final (throttled now log set) s = set (LogThrottle.should_log now (log s)).1 s.
Proof.
  unfold throttled. rewrite final_gets.
  destruct (LogThrottle.should_log now (log s)) as [l' out]. rewrite final_modify. by destruct out.
Qed.

(** The completions the environment can deliver, one at a time, between the
    phases of the routing and the work of the sessions. A wait that is still
    outstanding completes with anything but an abort; one that was cancelled
    completes with an abort or, when it was already queued, with what it had. *)
Inductive lstep : life -> life -> Prop :=
| l_readiness ec answers clock now s n :
    waits s = S n -> ec <> ec_operation_aborted ->
    lstep s (final (handle_receive_drain ec answers clock now) (set_waits n (waits_aborted s) s))
| l_readiness_aborted ec answers clock now s n :
    waits_aborted s = S n ->
    lstep s (final (handle_receive_drain ec answers clock now) (set_waits (waits s) n s))
| l_backoff s :
    (0 < Timer.waiting (receive_backoff_timer s))%nat ->
    lstep s (final (on_receive_backoff ec_none)
               (set_backoff (recv_backoff_armed s) (Timer.fire (receive_backoff_timer s)) s))
| l_backoff_aborted ec s :
    (0 < Timer.aborted (receive_backoff_timer s))%nat ->
    lstep s (final (on_receive_backoff ec)
               (set_backoff (recv_backoff_armed s) (Timer.deliver_abort (receive_backoff_timer s)) s))
| l_tick x gone s :
    (0 < Timer.waiting (update_tick_timer s))%nat ->
    lstep s (final (do_update_tick ec_none x gone) (set_tick_timer (Timer.fire (update_tick_timer s)) s))
| l_tick_aborted ec x gone s :
    (0 < Timer.aborted (update_tick_timer s))%nat ->
    lstep s (final (do_update_tick ec x gone) (set_tick_timer (Timer.deliver_abort (update_tick_timer s)) s))
| l_cleanup e s :
    (0 < Timer.waiting (cleanup_timer s))%nat ->
    lstep s (final (on_cleanup ec_none e) (set_cleanup_timer (Timer.fire (cleanup_timer s)) s))
| l_cleanup_aborted ec e s :
    (0 < Timer.aborted (cleanup_timer s))%nat ->
    lstep s (final (on_cleanup ec e) (set_cleanup_timer (Timer.deliver_abort (cleanup_timer s)) s))
| l_router r' f f' s :
    RouterProofs.step (router s, f) (r', f') -> running r' = is_running s -> lstep s (set_router r' s)
| l_send ep answers batch s : lstep s (final (send_batch_to_client ep answers batch) s)
| l_sent ec now s : lstep s (final (on_sent ec now) s)
| l_stop s : lstep s (final stop_server s)
| l_stop_timers s : stop_timers_queued s = true -> lstep s (final (on_stop_timers true) s)
| l_stop_socket s : stop_socket_queued s = true -> lstep s (final (on_stop_socket true) s).

(** A server whose [start] returned, and everything that can follow. *)
Inductive lives (s0 : life) : life -> Prop :=
| lives_start a : result (start a) s0 = None -> lives s0 (final (start a) s0)
| lives_step s s' : lives s0 s -> lstep s s' -> lives s0 s'.

(** While it runs, each chain has exactly one completion outstanding, the
    receive chain on the socket or on its backoff timer. Once stopped no chain
    has more than one, none is armed again, no session is registered, and what
    the posted handlers tear down is down when they have run. *)
Record loops_ok (s : life) : Prop := {
  lo_inv : router_inv (router s);
  lo_running : is_running s = true ->
    stopped (router s) = false /\ is_open (udp_socket s) = true /\
    (waits s + Timer.waiting (receive_backoff_timer s) = 1)%nat /\ waits_aborted s = 0%nat /\
    receive_backoff_timer s = Timer.mk (if recv_backoff_armed s then 1 else 0) 0 /\
    update_tick_timer s = Timer.mk 1 0 /\ cleanup_timer s = Timer.mk 1 0 /\
    stop_timers_queued s = false /\ stop_socket_queued s = false;
  lo_stopped : is_running s = false -> stopped (router s) = true /\ sessions (router s) = ∅;
  lo_timers : is_running s = false ->
    let n := if stop_timers_queued s then 1%nat else 0%nat in
    (Timer.waiting (update_tick_timer s) <= n)%nat /\ (Timer.waiting (cleanup_timer s) <= n)%nat;
  lo_socket : is_running s = false ->
    (waits s + Timer.waiting (receive_backoff_timer s) <= (if stop_socket_queued s then 1 else 0))%nat /\
    (stop_socket_queued s = false -> udp_socket s = UdpClosed /\ srv_key (router s) = []) }.

(** The final state of each handler. *)
Lemma tick_final ec x gone s :
  final (do_update_tick ec x gone) s =
  if ec_failed ec || negb (is_running s) then s
  else set_sampling (tick_sample x (sampling s)).1 (set_tick_timer (Timer.arm (update_tick_timer s)) s).
Proof.
  unfold do_update_tick. rewrite final_gets. case_bool; [done|]. rewrite final_modify, final_gets.
  change (sampling (set_tick_timer _ s)) with (sampling s).
  destruct (tick_sample x (sampling s)) as [sm lines].
  by rewrite final_modify, final_bind, final_gets, !emit_all_final.
Qed.

Lemma cleanup_final ec e s :
  exists r', steady (router s) r' /\
  final (on_cleanup ec e) s =
  if ec_failed ec || negb (is_running s) then s
  else set_cleanup_timer (Timer.arm (cleanup_timer s)) (set_router r' s).
Proof.
  unfold on_cleanup. rewrite final_gets. unfold is_running.
  case_bool; [exists (router s); by split; [apply steady_refl|]|].
  pose proof (steady_cleanup e (router s)) as H. destruct (do_cleanup e (router s)) as [r' eff].
  exists r'. split; [done|]. by rewrite final_modify, final_bind, emit_all_final.
Qed.

Lemma arm_final s : final arm_receive_drain s = if is_running s then set_waits (S (waits s)) (waits_aborted s) s else s.
Proof. unfold arm_receive_drain. rewrite final_gets. by destruct (is_running s). Qed.

Lemma park_final s :
  final park_receive_drain s =
  if recv_backoff_armed s then s else set_backoff true (Timer.arm (receive_backoff_timer s)) s.
Proof. unfold park_receive_drain. rewrite final_gets. by destruct (recv_backoff_armed s). Qed.

(** A drain leaves the receive chain armed or parked, never both; without
    [running_] it does nothing. *)
Lemma drain_final ec answers clock now s :
  final (handle_receive_drain ec answers clock now) s = s /\
  (is_running s = false \/ ec = ec_operation_aborted) \/
  is_running s = true /\
  exists r' l, steady (router s) r' /\
  (final (handle_receive_drain ec answers clock now) s =
     set_waits (S (waits s)) (waits_aborted s) (set_router r' s) \/
   final (handle_receive_drain ec answers clock now) s =
     (if recv_backoff_armed s then set_recv_log l (set_router r' s)
      else set_backoff true (Timer.arm (receive_backoff_timer s)) (set_recv_log l (set_router r' s)))).
Proof.
  unfold handle_receive_drain. rewrite final_gets.
  destruct (Drain.handle_receive_drain _ _ _ _ _) as [routed nxt] eqn:E.
  unfold Drain.handle_receive_drain in E.
  destruct (bool_decide (ec = ec_operation_aborted) || negb (is_running s)) eqn:Eg.
  { injection E as <- <-. left. split; [done|]. apply orb_true_iff in Eg as [Eg|Eg]; zb_props; auto. }
  apply orb_false_iff in Eg as [_ Hr]. zb_props. right. split; [done|].
  rewrite final_bind. set (loop := efor _ _).
  assert (Hk : keeps routes loop).
  { apply keeps_for; [apply _|]. intros [i d]. apply route_routes. }
  destruct (Hk s) as [Es Hs]. rewrite Es. revert Hs. generalize (router (final loop s)) as r1. intros r1 Hs.
  assert (Hpark : final (throttled now recv_error_log set_recv_log ;;; park_receive_drain) (set_router r1 s) =
    let l := (LogThrottle.should_log now (recv_error_log s)).1 in
    if recv_backoff_armed s then set_recv_log l (set_router r1 s)
    else set_backoff true (Timer.arm (receive_backoff_timer s)) (set_recv_log l (set_router r1 s))).
  { rewrite final_bind, throttled_final, park_final. done. }
  exists r1, (LogThrottle.should_log now (recv_error_log s)).1. split; [done|].
  destruct (ec_failed ec); [injection E as <- <-; right; exact Hpark|].
  destruct (Drain.drain_loop answers []) as [got failed]. rewrite Hr in E. cbn [negb] in E.
  destruct failed; injection E as <- <-; [right; exact Hpark|left].
  rewrite arm_final. unfold is_running in *. cbn [router set_router]. by rewrite (st_running _ _ Hs), Hr.
Qed.

Lemma backoff_final ec s :
  final (on_receive_backoff ec) s =
  let s1 := set_backoff false (receive_backoff_timer s) s in
  if negb (ec_failed ec) && is_running s then set_waits (S (waits s)) (waits_aborted s) s1 else s1.
Proof.
  unfold on_receive_backoff. rewrite final_modify, final_gets.
  change (is_running (set_backoff false (receive_backoff_timer s) s)) with (is_running s).
  destruct (ec_failed ec); [done|]. destruct (is_running s) eqn:E; [|done]. cbn [negb andb ewhen].
  rewrite arm_final. change (is_running (set_backoff false (receive_backoff_timer s) s)) with (is_running s).
  by rewrite E.
Qed.

(** A steady change of the tables keeps the invariant of the loops. *)
Lemma loops_router r' s : steady (router s) r' -> loops_ok s -> loops_ok (set_router r' s).
Proof.
  intros [H1 H2 H3 H4 H5] [Hi Hr Hs Ht Hk].
  split; unfold is_running in *; cbn [router set_router] in *; rewrite ?H1, ?H2, ?H3; try done; [auto|].
  intros E. destruct (Hs E). auto.
Qed.

(** A stopped server: completions only disappear. *)
Lemma loops_stopped_down s n ab bo rb cl tk :
  is_running s = false -> loops_ok s ->
  (n <= waits s)%nat -> (Timer.waiting rb <= Timer.waiting (receive_backoff_timer s))%nat ->
  (Timer.waiting cl <= Timer.waiting (cleanup_timer s))%nat ->
  (Timer.waiting tk <= Timer.waiting (update_tick_timer s))%nat ->
  loops_ok (set_waits n ab (set_backoff bo rb (set_cleanup_timer cl (set_tick_timer tk s)))).
Proof.
  intros E [Hi Hr Hs Ht Hk] H1 H2 H3 H4. unfold is_running in E. destruct (Ht E), (Hk E) as [? ?].
  split; unfold is_running; cbn; try done; [congruence | intros _; lia|]. intros _. split; [lia | done].
Qed.

Lemma loops_readiness ec answers clock now s n :
  waits s = S n -> ec <> ec_operation_aborted -> loops_ok s ->
  loops_ok (final (handle_receive_drain ec answers clock now) (set_waits n (waits_aborted s) s)).
Proof.
  intros Hw Hec Hok. destruct (is_running s) eqn:Er.
  2:{ destruct (drain_final ec answers clock now (set_waits n (waits_aborted s) s)) as [[-> _]|(H & _)].
      - pose proof (loops_stopped_down s n (waits_aborted s) (recv_backoff_armed s) (receive_backoff_timer s)
          (cleanup_timer s) (update_tick_timer s) Er Hok ltac:(lia)) as H. destruct s. by apply H.
      - unfold is_running in *. simpl in *. congruence. }
  destruct (lo_running _ Hok Er) as (Hst & Hop & Hsum & Hab & Hbt & Htk & Hcl & Hq1 & Hq2).
  assert (n = 0%nat) as -> by lia. rewrite Hbt, Hw in Hsum. simpl in Hsum.
  assert (recv_backoff_armed s = false) as Hb by (destruct (recv_backoff_armed s); [lia | done]).
  destruct (drain_final ec answers clock now (set_waits 0 (waits_aborted s) s))
    as [[-> [Hf|Hf]]|(_ & r' & l & Hsd & Hf)]; [unfold is_running in *; simpl in *; congruence | done|].
  pose proof (loops_router r' s Hsd Hok) as [Ri Rr Rs Rt Rk].
  assert (Er' : running r' = true) by (rewrite (st_running _ _ Hsd); exact Er).
  destruct (Rr Er') as (? & ? & ? & ? & ? & ? & ? & ? & ?). cbn in *.
  destruct Hf as [->| ->]; cbn [recv_backoff_armed set_waits]; rewrite ?Hb;
    (split; unfold is_running in *; cbn in *; [done | | congruence..]); rewrite Hbt, Hb in *; done.
Qed.

Lemma loops_tick ec x gone t s :
  loops_ok s ->
  (is_running s = true -> ec_failed ec = false) ->
  (is_running s = true -> t = Timer.mk 0 0) -> (Timer.waiting t <= Timer.waiting (update_tick_timer s))%nat ->
  loops_ok (final (do_update_tick ec x gone) (set_tick_timer t s)).
Proof.
  intros Hok Hec Ht Ht'. rewrite tick_final. change (is_running (set_tick_timer t s)) with (is_running s).
  destruct (is_running s) eqn:E.
  - rewrite (Hec eq_refl), (Ht eq_refl). cbn [orb negb]. destruct Hok as [Hi Hr Hs Hti Hk].
    destruct (Hr E) as (? & ? & ? & ? & ? & ? & ? & ? & ?). unfold is_running in *.
    split; unfold is_running; cbn; try done; congruence.
  - rewrite orb_true_r. pose proof (loops_stopped_down s (waits s) (waits_aborted s) (recv_backoff_armed s)
      (receive_backoff_timer s) (cleanup_timer s) t E Hok) as H. destruct s. by apply H.
Qed.

Lemma loops_cleanup ec e t s :
  loops_ok s ->
  (is_running s = true -> ec_failed ec = false) ->
  (is_running s = true -> t = Timer.mk 0 0) -> (Timer.waiting t <= Timer.waiting (cleanup_timer s))%nat ->
  loops_ok (final (on_cleanup ec e) (set_cleanup_timer t s)).
Proof.
  intros Hok Hec Ht Ht'. destruct (cleanup_final ec e (set_cleanup_timer t s)) as (r' & Hsd & ->).
  change (is_running (set_cleanup_timer t s)) with (is_running s). destruct (is_running s) eqn:E.
  - rewrite (Hec eq_refl), (Ht eq_refl). cbn [orb negb].
    destruct (loops_router r' s Hsd Hok) as [Ri Rr Rs Rti Rk].
    assert (Er' : running r' = true) by (rewrite (st_running _ _ Hsd); exact E).
    destruct (Rr Er') as (? & ? & ? & ? & ? & ? & ? & ? & ?).
    split; unfold is_running; cbn; try done; congruence.
  - rewrite orb_true_r. pose proof (loops_stopped_down s (waits s) (waits_aborted s) (recv_backoff_armed s)
      (receive_backoff_timer s) t (update_tick_timer s) E Hok) as H. destruct s. by apply H.
Qed.

Lemma loops_backoff ec t s :
  loops_ok s ->
  (is_running s = true -> ec_failed ec = false /\ Timer.waiting (receive_backoff_timer s) = 1%nat /\ t = Timer.mk 0 0) ->
  (Timer.waiting t <= Timer.waiting (receive_backoff_timer s))%nat ->
  loops_ok (final (on_receive_backoff ec) (set_backoff (recv_backoff_armed s) t s)).
Proof.
  intros Hok Ht Ht'. rewrite backoff_final.
  change (is_running (set_backoff (recv_backoff_armed s) t s)) with (is_running s).
  destruct (is_running s) eqn:E.
  - destruct (Ht eq_refl) as (-> & Hw & ->). cbn [negb andb]. destruct Hok as [Hi Hr Hs Hti Hk].
    destruct (Hr E) as (? & ? & ? & ? & ? & ? & ? & ? & ?).
    assert (waits s = 0%nat) as Hz by lia. unfold is_running in *.
    split; unfold is_running; cbn; try done; try congruence. rewrite Hz. done.
  - rewrite andb_false_r. pose proof (loops_stopped_down s (waits s) (waits_aborted s) false t
      (cleanup_timer s) (update_tick_timer s) E Hok) as H. destruct s. by apply H.
Qed.

Lemma stop_final s :
  final stop_server s =
  if negb (is_running s) then s else set_queued true true (set_router (Router.stop (router s)).1 s).
Proof.
  unfold stop_server. rewrite final_gets. unfold is_running. case_bool; [done|].
  destruct (Router.stop (router s)) as [r' eff]. by rewrite final_modify, emit_all_final.
Qed.

Lemma loops_stop s : loops_ok s -> loops_ok (final stop_server s).
Proof.
  intros Hok. rewrite stop_final. destruct (is_running s) eqn:E; [|done]. cbn [negb].
  destruct (lo_running _ Hok E) as (_ & _ & Hsum & _ & _ & Htk & Hcl & _).
  pose proof (stop_inv (router s) (lo_inv _ Hok)) as Hi. unfold is_running in E.
  unfold Router.stop in *. rewrite E in *. cbn in *. split; cbn; try done.
  - by rewrite Htk, Hcl.
  - intros _. split; [lia | done].
Qed.

(** The posted handlers, once the server is stopped. *)
Lemma loops_stop_timers s : stop_timers_queued s = true -> loops_ok s -> loops_ok (final (on_stop_timers true) s).
Proof.
  intros Hq [Hi Hr Hs Ht Hk]. unfold on_stop_timers. rewrite final_modify. cbn.
  split; unfold is_running in *; cbn; try done. intros E. destruct (Hr E) as (? & ? & ? & ? & ? & ? & ? & ? & ?). congruence.
Qed.

Lemma key_inv k r : router_inv r -> router_inv (set_key k r).
Proof. by apply router_inv_same_tables. Qed.

Lemma loops_stop_socket s : stop_socket_queued s = true -> loops_ok s -> loops_ok (final (on_stop_socket true) s).
Proof.
  intros Hq [Hi Hr Hs Ht Hk]. unfold on_stop_socket, wipe_key. rewrite final_modify. cbn.
  split; unfold is_running in *; cbn; try done; [by apply key_inv|].
  intros E. destruct (Hr E) as (? & ? & ? & ? & ? & ? & ? & ? & ?). congruence.
Qed.

Lemma send_batch_final ep answers batch s : final (send_batch_to_client ep answers batch) s = s.
Proof.
  unfold send_batch_to_client, send_to_client, initiate_send_to.
  destruct batch as [|d [|d' batch]]; [done | rewrite final_gets; by destruct (can_send s)|].
  rewrite final_gets. destruct (BatchSend.send_batch _ _ _) as [taken rest].
  rewrite final_bind, emit_all_final. induction rest as [|x rest IH]; [done|]. simpl. by rewrite final_bind.
Qed.

Lemma on_sent_final ec now s : exists l, final (on_sent ec now) s = set_send_log l s.
Proof.
  unfold on_sent. destruct (ec_failed ec && _); cbn [ewhen]; [rewrite throttled_final; eauto|].
  exists (send_error_log s). by destruct s.
Qed.

Lemma loops_step s s' : lstep s s' -> loops_ok s -> loops_ok s'.
Proof.
  intros Hst Hok.
  assert (Hrun : is_running s = true -> receive_backoff_timer s = Timer.mk (if recv_backoff_armed s then 1 else 0) 0 /\
    update_tick_timer s = Timer.mk 1 0 /\ cleanup_timer s = Timer.mk 1 0 /\ waits_aborted s = 0%nat)
    by (intros E; by destruct (lo_running _ Hok E) as (? & ? & ? & ? & ? & ? & ? & ? & ?)).
  destruct Hst as [ec answers clock now s n Hw Hec | ec answers clock now s n Hw | s Hw | ec s Hw
    | x gone s Hw | ec x gone s Hw | e s Hw | ec e s Hw | r' f f' s Hst Hr | ep answers batch s | ec now s | s
    | s Hq | s Hq].
  - by apply loops_readiness.
  - destruct (is_running s) eqn:E; [destruct (Hrun eq_refl) as (_ & _ & _ & H); lia|].
    destruct (drain_final ec answers clock now (set_waits (waits s) n s)) as [[-> _]|(H & _)].
    + pose proof (loops_stopped_down s (waits s) n (recv_backoff_armed s) (receive_backoff_timer s)
        (cleanup_timer s) (update_tick_timer s) E Hok) as H. destruct s. by apply H.
    + unfold is_running in *. cbn in *. congruence.
  - apply loops_backoff; [done| |simpl; lia]. intros E. destruct (Hrun E) as (Ht & _). rewrite Ht in Hw |- *.
    destruct (recv_backoff_armed s); simpl in *; [done | lia].
  - destruct (is_running s) eqn:E; [destruct (Hrun eq_refl) as (H & _); rewrite H in Hw; simpl in Hw; lia|].
    apply loops_backoff; [done | congruence | done].
  - apply loops_tick; [done | done | | simpl; lia]. intros E. by destruct (Hrun E) as (_ & -> & _).
  - destruct (is_running s) eqn:E; [destruct (Hrun eq_refl) as (_ & H & _); rewrite H in Hw; simpl in Hw; lia|].
    apply loops_tick; [done | congruence | congruence | done].
  - apply loops_cleanup; [done | done | | simpl; lia]. intros E. by destruct (Hrun E) as (_ & _ & -> & _).
  - destruct (is_running s) eqn:E; [destruct (Hrun eq_refl) as (_ & _ & H & _); rewrite H in Hw; simpl in Hw; lia|].
    apply loops_cleanup; [done | congruence | congruence | done].
  - apply loops_router; [|done]. by apply steady_step in Hst.
  - by rewrite send_batch_final.
  - destruct (on_sent_final ec now s) as [l ->]. by destruct Hok as [Hi Hr Hs Ht Hk]; split.
  - by apply loops_stop.
  - by apply loops_stop_timers.
  - by apply loops_stop_socket.
Qed.

(** [start()] either throws, with nothing armed and the server not running,
    or leaves a running server with every loop armed. *)
Lemma start_final h p key fec a ans :
  let s0 := new_server h p key fec a in
  match result (start ans) s0 with
  | Some _ => is_running (final (start ans) s0) = false /\ waits (final (start ans) s0) = 0%nat /\
              cleanup_timer (final (start ans) s0) = Timer.idle /\
              update_tick_timer (final (start ans) s0) = Timer.idle
  | None => loops_ok (final (start ans) s0) /\ is_running (final (start ans) s0) = true
  end.
Proof.
  intros s0. unfold start. rewrite result_gets, final_gets. cbn [host s0 new_server].
  destruct (make_address h) as [addr|]; [|done].
  destruct (ec_failed (open_ec ans)) eqn:Eo; [done|]. rewrite result_modify, final_modify.
  destruct (ec_failed (bind_ec ans)) eqn:Eb; [done|]. rewrite result_modify, final_modify.
  destruct (apply_udp_buffer_sizes false (sock_bufs ans) None) as [[c o] lines].
  rewrite result_bind, final_bind, emit_all_final, !result_modify, !final_modify.
  rewrite result_bind, final_bind, tick_final, result_gets, final_gets.
  rewrite !result_bind, !final_bind. unfold do_receive. rewrite final_gets.
  cbn. split; [|done]. split; cbn; try done. apply (router_inv_same_tables (init_server key fec)); [done..|]. apply init_inv.
Qed.

Lemma lives_ok h p key fec a s : lives (new_server h p key fec a) s -> loops_ok s.
Proof.
  induction 1 as [ans Hr | s s' _ IH Hst]; [|by eapply loops_step].
  pose proof (start_final h p key fec a ans) as H. cbv zeta in H. rewrite Hr in H. apply H.
Qed.

(** A handler that runs after [stop()] has no effect. *)
Lemma stopped_handlers ec x gone e answers clock now s :
  is_running s = false ->
  trace (do_update_tick ec x gone) s = [] /\ trace (on_cleanup ec e) s = [] /\
  trace (on_receive_backoff ec) s = [] /\ trace (handle_receive_drain ec answers clock now) s = [].
Proof.
  intros E. assert (E' : running (router s) = false) by done. split_and!.
  - unfold do_update_tick. rewrite trace_gets, E. by rewrite orb_true_r.
  - unfold on_cleanup. rewrite trace_gets, E'. by rewrite orb_true_r.
  - unfold on_receive_backoff. rewrite trace_modify, trace_gets.
    change (is_running (set_backoff false (receive_backoff_timer s) s)) with (is_running s).
    rewrite E. by rewrite andb_false_r.
  - unfold handle_receive_drain. rewrite trace_gets, E. unfold Drain.handle_receive_drain.
    by rewrite orb_true_r.
Qed.

Lemma destroy_final s :
  is_running (final destroy s) = false /\ srv_key (router (final destroy s)) = [].
Proof.
  unfold destroy, wipe_key. rewrite final_bind, stop_final. cbn. split; [|done].
  unfold is_running. destruct (running (router s)) eqn:E; cbn; [|done]. unfold Router.stop. by rewrite E.
Qed.

(** C21: whatever the kernel answers and whatever the order of completions,
    errors, routed datagrams, sweeps and a stop, as long as the server runs
    each of its chains has exactly one completion outstanding: the tick timer,
    the sweep timer, and for reception either the readiness wait on the open
    socket or the backoff timer. So no chain dies and none is doubled. From
    the stop on no session is registered, a completion of any of the chains
    has no effect and arms nothing, so at most the one that was outstanding is
    left; once the handler posted to the timers' strand has run, neither timer
    is waiting, and once the one posted to the socket's strand has run, no
    reception is outstanding, the socket is closed and the key is wiped. When
    the posted handlers never run, the destructor wipes the key. *)
Theorem server_loops_alive (h : list Z) (p : Z) (key : list Z) (fec : FecConfig) (a : AdaptiveSettings) (s : life) :
  lives (new_server h p key fec a) s ->
  (is_running s = true ->
     Timer.waiting (update_tick_timer s) = 1%nat /\ Timer.waiting (cleanup_timer s) = 1%nat /\
     (waits s + Timer.waiting (receive_backoff_timer s) = 1)%nat /\ is_open (udp_socket s) = true) /\
  (is_running s = false ->
     sessions (router s) = ∅ /\
     (Timer.waiting (update_tick_timer s) <= 1)%nat /\ (Timer.waiting (cleanup_timer s) <= 1)%nat /\
     (waits s + Timer.waiting (receive_backoff_timer s) <= 1)%nat /\
     (stop_timers_queued s = false ->
        Timer.waiting (update_tick_timer s) = 0%nat /\ Timer.waiting (cleanup_timer s) = 0%nat) /\
     (stop_socket_queued s = false ->
        waits s = 0%nat /\ Timer.waiting (receive_backoff_timer s) = 0%nat /\
        udp_socket s = UdpClosed /\ srv_key (router s) = []) /\
     forall ec x gone e answers clock now,
       trace (do_update_tick ec x gone) s = [] /\ trace (on_cleanup ec e) s = [] /\
       trace (on_receive_backoff ec) s = [] /\ trace (handle_receive_drain ec answers clock now) s = []) /\
  srv_key (router (final destroy s)) = [].
Proof.
  intros H. apply lives_ok in H as [_ Hr Hs Ht Hk]. split_and!; [| | apply destroy_final]; intros E.
  - destruct (Hr E) as (? & ? & ? & ? & ? & -> & -> & ?). done.
  - destruct (Hs E) as [_ Hse], (Ht E) as [Ht1 Ht2], (Hk E) as [Hk1 Hk2].
    split_and!; [done | destruct (stop_timers_queued s); lia | destruct (stop_timers_queued s); lia
      | destruct (stop_socket_queued s); lia | intros Eq; rewrite Eq in *; lia
      | intros Eq; specialize (Hk2 Eq); rewrite Eq in Hk1; split_and!; (lia || apply Hk2) |].
    intros. by apply stopped_handlers.
Qed.

(** [start()] throws exactly when the listen host is not an address or
    the socket cannot be opened or bound; then the server is not running and
    no timer or wait was armed. Otherwise it returns with every loop armed. *)
Theorem start_outcome (h : list Z) (p : Z) (key : list Z) (fec : FecConfig) (a : AdaptiveSettings) (ans : start_answers) :
  let s0 := new_server h p key fec a in
  let s := final (start ans) s0 in
  (result (start ans) s0 = None <->
     (exists addr, make_address h = Some addr) /\ ec_failed (open_ec ans) = false /\ ec_failed (bind_ec ans) = false) /\
  match result (start ans) s0 with
  | Some _ => is_running s = false /\ waits s = 0%nat /\
              cleanup_timer s = Timer.idle /\ update_tick_timer s = Timer.idle
  | None => is_running s = true /\ waits s = 1%nat /\ bound_port s = default p (local_port ans) /\
            cleanup_timer s = Timer.mk 1 0 /\ update_tick_timer s = Timer.mk 1 0
  end.
Proof.
  cbv zeta. unfold start. rewrite !result_gets, !final_gets. cbn [host new_server].
  destruct (make_address h) as [addr|]; [|split; [|done]; split; [done | by intros [[? ?] _]]].
  destruct (ec_failed (open_ec ans)) eqn:Eo; [split; [|done]; split; [done | by intros (_ & ? & _)]|].
  rewrite !result_modify, !final_modify.
  destruct (ec_failed (bind_ec ans)) eqn:Eb; [split; [|done]; split; [done | by intros (_ & _ & ?)]|].
  rewrite !result_modify, !final_modify.
  destruct (apply_udp_buffer_sizes false (sock_bufs ans) None) as [[c o] lines].
  rewrite !result_bind, !final_bind, !emit_all_final, !tick_final. unfold do_receive. rewrite !final_gets.
  split; [split; [intros _; by split; [eexists|]|done]|].
  cbn. split_and!; try done; by destruct (local_port ans).
Qed.

(** The sessions a trace ticks. *)
Definition ticked (evs : list event) : list Z :=
  omap (fun ev => match ev with TickSession id => Some id | _ => None end) evs.

Lemma ticked_other {X} (f : X -> event) xs : (forall x, ticked [f x] = []) -> ticked (f <$> xs) = [].
Proof.
  intros H. unfold ticked in *. induction xs as [|x xs IH]; [done|]. specialize (H x). simpl in *.
  by destruct (f x).
Qed.

Lemma ticked_ids ids : ticked (TickSession <$> ids) = ids.
Proof. unfold ticked. induction ids as [|id ids IH]; [done|]. simpl. by f_equal. Qed.

Lemma tick_trace x gone s :
  is_running s = true ->
  ticked (trace (do_update_tick ec_none x gone) s) =
  filter (fun id => id ∉ gone) (tick_snapshot (router s)).
Proof.
  intros E. unfold do_update_tick. rewrite trace_gets, E. cbn [ec_failed orb negb].
  rewrite trace_modify, trace_gets. destruct (tick_sample _ _) as [sm lines].
  rewrite trace_modify, trace_bind, trace_gets, !emit_all_trace, emit_all_final.
  unfold ticked. rewrite omap_app. fold (ticked (PolicyChange <$> lines)).
  rewrite (ticked_other PolicyChange) by done. cbn [app].
  change (omap _ ?l) with (ticked l). by rewrite ticked_ids.
Qed.

Lemma snapshot_nodup r : router_inv r -> NoDup (tick_snapshot r).
Proof.
  intros Hi. unfold tick_snapshot. apply NoDup_fmap_2_strong; [|apply NoDup_map_to_list].
  intros [k1 s1] [k2 s2] H1%elem_of_map_to_list H2%elem_of_map_to_list Hu. simpl in *.
  pose proof (inv_distinct _ Hi k1 k2 s1 s2 H1 H2 Hu) as <-. congruence.
Qed.

(** In every state a running server can reach, one tick of the 10 ms
    chain is dispatched to every registered session that still exists exactly
    once, and to nothing else. *)
Theorem tick_reaches_every_session (h : list Z) (p : Z) (key : list Z) (fec : FecConfig) (a : AdaptiveSettings)
    (s : life) (x : CleanPathTracker.sample_t) (gone : list Z) :
  lives (new_server h p key fec a) s -> is_running s = true ->
  let ids := ticked (trace (do_update_tick ec_none x gone) s) in
  NoDup ids /\
  forall id, id ∈ ids <-> (id ∉ gone) /\ exists sid sess, sessions (router s) !! sid = Some sess /\ uid sess = id.
Proof.
  intros Hl Hr ids. pose proof (lo_inv _ (lives_ok _ _ _ _ _ _ Hl)) as Hi.
  unfold ids. rewrite tick_trace by done. split; [by apply NoDup_filter, snapshot_nodup|].
  intros id. rewrite list_elem_of_filter. apply and_iff_compat_l. unfold tick_snapshot.
  rewrite list_elem_of_fmap. split.
  - intros ([sid sess] & -> & Hin%elem_of_map_to_list). eauto.
  - intros (sid & sess & Hs & <-). exists (sid, sess). split; [done|]. by apply elem_of_map_to_list.
Qed.
End Loops.

(** ** A concrete run *)

Module ServerExample.
Import RouterExample.
#[local] Existing Instance TextIp.text_ip.
#[local] Existing Instance Crypto.ToyAead.toy.

Definition fresh_server : life :=
  new_server (bytes_of_string "0.0.0.0") 8388 psk fec_off example_settings.
Definition quiet : CleanPathTracker.sample_t := CleanPathTracker.mkSample 0 0 0.
Definition kernel_ok : start_answers :=
  mkStart ec_none ec_none (Some 8388) (mkAnswers false false (Some 425984) (Some 425984)) quiet.
Definition started : life := final (start kernel_ok) fresh_server.

(** A client's first datagram, then a failed readiness wait. *)
Definition arrival : Drain.datagram := Drain.mkDatagram (Drain.AF_INET [203; 0; 113; 1] [15; 160]) pkt1.
Definition admitted : life :=
  final (handle_receive_drain ec_none [Drain.Got [arrival]] (fun _ => at_sec 1000) 0)
    (set_waits 0 (waits_aborted started) started).
Definition parked : life :=
  final (handle_receive_drain (ec_other 9) [] (fun _ => at_sec 1001) 2000000000)
    (set_waits 0 (waits_aborted admitted) admitted).
Definition halted : life := final stop_server parked.
Definition torn_down : life := final (on_stop_socket true) halted.

Lemma started_lives : lives fresh_server started.
Proof. by apply lives_start. Qed.
Lemma admitted_lives : lives fresh_server admitted.
Proof. eapply lives_step; [apply started_lives|]. by apply (l_readiness ec_none _ _ _ started 0). Qed.
Lemma parked_lives : lives fresh_server parked.
Proof.
  eapply lives_step; [apply admitted_lives|]. apply (l_readiness (ec_other 9) _ _ _ admitted 0); [|done].
  by vm_compute.
Qed.

Lemma server_loops_alive_witness :
  (waits parked + Timer.waiting (receive_backoff_timer parked) = 1)%nat /\
  srv_key (router halted) <> [] /\ udp_socket torn_down = UdpClosed /\ srv_key (router torn_down) = [].
Proof.
  split; [|split; [by vm_compute|]].
  - refine (proj1 (proj2 (proj2 (proj1 (server_loops_alive _ _ _ _ _ parked parked_lives) _)))). by vm_compute.
  - destruct (server_loops_alive (bytes_of_string "0.0.0.0") 8388 psk fec_off example_settings torn_down) as (_ & H & _).
    + eapply lives_step; [eapply lives_step; [apply parked_lives | apply l_stop]|]. by apply l_stop_socket.
    + destruct H as (_ & _ & _ & _ & _ & H & _); [by vm_compute|]. destruct H as (_ & _ & H); [by vm_compute|]. exact H.
Defined.

Lemma tick_reaches_every_session_witness :
  NoDup (ticked (trace (do_update_tick ec_none quiet []) admitted)) /\
  0 ∈ ticked (trace (do_update_tick ec_none quiet []) admitted).
Proof.
  destruct (tick_reaches_every_session _ _ _ _ _ admitted quiet [] admitted_lives) as [H1 H2]; [by vm_compute|].
  split; [exact H1|]. apply H2. split; [by apply not_elem_of_nil|].
  exists (session_id ep1), (session_of ep1 (router admitted)). by vm_compute.
Defined.
End ServerExample.
