(* ===== verification/TunnelProofs.v ===== *)
(** * TunnelProofs: what the tunnel promises

    Theorems about [Tunnel], proved against the interface of the concrete
    sessions: control messages are recognised exactly, a read is completed
    from the queue as its specification says, one flush cycle is one burst, an
    FEC shard carries its datagram to the peer, reads complete exactly once
    and the FIN is queued at most once whatever the tunnel does. *)

From Stdlib Require Import ZArith Lia.
From stdpp Require Import base list strings.
From S2P Require Import Prelude Config Effects Kcp Tunnel Coding.
From S2P Require Crypto.

Section Read.
Context {A : Crypto.Aead} {K : Kcp} {F : FecCodec} {L : KcpLaws K}.

(** ** Control messages *)

Lemma is_control_spec (data magic : list Z) (t : tunnel) :
  is_control data magic t = true <-> data = build_control_payload magic t.
Proof.
  unfold is_control, build_control_payload. set (salt := Crypto.session_salt (t_crypto t)).
  destruct (length data =? length magic + length salt)%nat eqn:El; simpl.
  - apply Nat.eqb_eq in El.
    assert (Hs : data = magic ++ salt <->
                 take (length magic) data = magic /\ drop (length magic) data = salt).
    { split; [intros ->; by rewrite take_app_length, drop_app_length|].
      intros [H1 H2]. rewrite <- (take_drop (length magic) data). congruence. }
    rewrite Hs. assert (Hd : length (drop (length magic) data) = length salt) by (rewrite length_drop; lia).
    rewrite (take_ge (drop _ _)) by lia.
    case_bool_decide; simpl; [|by split; [|intros [? _]]].
    case_bool_decide as Hsalt; simpl; [by rewrite andb_false_r|]. rewrite andb_true_r.
    destruct salt as [|b salt']; [by destruct Hsalt; apply nil_length_inv|]. simpl.
    by split; [|intros [_ ?]].
  - apply Nat.eqb_neq in El. split; [done|]. intros ->. rewrite length_app in El. lia.
Qed.

(** A FIN is never a keepalive: the two magics differ in length. *)
Lemma fin_not_keepalive (t : tunnel) :
  is_keepalive (build_control_payload KCP_CONTROL_FIN t) t = false.
Proof.
  apply not_true_is_false. intros H%is_control_spec.
  apply (f_equal length) in H. unfold build_control_payload in H. rewrite !length_app in H.
  change (length KCP_CONTROL_FIN) with 16%nat in H.
  change (length KCP_CONTROL_KEEPALIVE) with 22%nat in H. lia.
Qed.

(** ** The read contract

    What one pending read of capacity [cap] gets from a queue of messages:
    how it completes ([None]: it stays pending) and which messages remain. *)
Fixpoint read_spec (keepalive fin : list Z) (cap : nat) (q : list (list Z))
  : option (error_code * list Z) * list (list Z) :=
  match q with
  | [] => (None, [])
  | m :: q' =>
      if bool_decide (m = []) then (None, q)
      else if (Z.to_nat FWD_BUF_SIZE <? length m)%nat then (Some (ec_message_size, []), q')
      else if bool_decide (m = keepalive) then read_spec keepalive fin cap q'
      else if bool_decide (m = fin) then (Some (ec_eof, []), q')
      else if (cap <? length m)%nat then (Some (ec_message_size, []), q')
      else (Some (ec_none, m), q')
  end.

Definition tunnel_read_spec (cap : nat) (t : tunnel) : option (error_code * list Z) * list (list Z) :=
  read_spec (build_keepalive_payload t) (build_control_payload KCP_CONTROL_FIN t) cap
    (KcpWrapper.queue (t_kcp t)).

(** The members a read leaves alone. *)
Definition read_frame (t t' : tunnel) : Prop :=
  t_crypto t' = t_crypto t /\ created_us t' = created_us t /\ out_batch t' = out_batch t /\
  batch_depth t' = batch_depth t /\ handshake_done t' = handshake_done t /\
  fin_enabled t' = fin_enabled t /\ fin_requested t' = fin_requested t /\ fin_sent t' = fin_sent t /\
  last_activity_us t' = last_activity_us t /\ last_keepalive_us t' = last_keepalive_us t /\
  write_resume_cb t' = write_resume_cb t /\ wait_send t' = wait_send t.

Lemma is_keepalive_decide m t :
  is_keepalive m t = bool_decide (m = build_keepalive_payload t).
Proof. apply eq_bool_prop_intro. rewrite bool_decide_spec, Is_true_true. apply is_control_spec. Qed.

Lemma is_peer_fin_decide m t :
  is_peer_fin m t = bool_decide (m = build_control_payload KCP_CONTROL_FIN t).
Proof. apply eq_bool_prop_intro. rewrite bool_decide_spec, Is_true_true. apply is_control_spec. Qed.

(** What a call of the read loop does, in terms of the specification. *)
Definition read_outcome (h : Z) (spec : option (error_code * list Z) * list (list Z)) (t : tunnel)
    (run : unit * tunnel * list event) : Prop :=
  let '(res, q') := spec in
  let '(_, t', ev) := run in
  ev = match res with None => [] | Some (ec, d) => [Complete h ec d] end /\
  KcpWrapper.queue (t_kcp t') = q' /\
  pending_read_handler t' = match res with None => Some h | Some _ => None end /\
  pending_read_buffer t' = match res with None => pending_read_buffer t | Some _ => None end /\
  peer_fin_received t' =
    peer_fin_received t || match res with Some (ec_eof, _) => true | _ => false end /\
  read_frame t t'.

Lemma complete_outcome h ec t w q' :
  pending_read_handler t = Some h -> KcpWrapper.queue w = q' -> ec <> ec_eof ->
  KcpWrapper.wait_send w = wait_send t ->
  read_outcome h (Some (ec, []), q') t (complete_pending_read ec (set_kcp w t)).
Proof.
  intros Hh Hq Hec Hw. unfold complete_pending_read. simpl. rewrite Hh.
  repeat split; try done. simpl. by destruct ec; rewrite ?orb_false_r.
Qed.

(** An outcome of the rest of the queue is an outcome of the whole, once a
    message has been taken. *)
Lemma outcome_after_take h spec t w run :
  KcpWrapper.wait_send w = wait_send t ->
  read_outcome h spec (set_kcp w t) run -> read_outcome h spec t run.
Proof.
  intros Hw. destruct spec as [res q'], run as [[u t'] ev]. unfold read_outcome, read_frame.
  simpl. intros (? & ? & ? & ? & ? & Hf). destruct_and! Hf. split_and!; try done.
  transitivity (KcpWrapper.wait_send w); done.
Qed.

(** The loop is left, with that outcome. *)
Definition loop_outcome (h : Z) (spec : option (error_code * list Z) * list (list Z)) (t : tunnel)
    (run : bool * tunnel * list event) : Prop :=
  let '(out, t', ev) := run in out = true /\ read_outcome h spec t (tt, t', ev).

Lemma loop_completes h spec t ec (s : tunnel) :
  read_outcome h spec t (complete_pending_read ec s) ->
  loop_outcome h spec t ((complete_pending_read ec ;;; eret true) s).
Proof.
  unfold ebind, eret. destruct (complete_pending_read ec s) as [[[] t'] ev]. simpl. by rewrite app_nil_r.
Qed.

Lemma fulfill_loop_spec h cap q : forall fuel t,
  KcpWrapper.queue (t_kcp t) = q -> pending_read_handler t = Some h -> (length q < fuel)%nat ->
  loop_outcome h (tunnel_read_spec cap t) t (fulfill_loop fuel cap t).
Proof.
  induction q as [|m q IH]; intros [|fuel] t Hq Hh Hf; try (simpl in Hf; lia);
    unfold tunnel_read_spec; rewrite Hq; cbn [fulfill_loop read_spec]; unfold ebind at 1, recv_fixed.
  - rewrite recv_fixed_none by auto. simpl. rewrite orb_false_r. by repeat split.
  - case_bool_decide as Hm.
    { rewrite recv_fixed_none by (rewrite Hm in Hq; eauto). simpl. rewrite orb_false_r. by repeat split. }
    destruct (Nat.ltb_spec (Z.to_nat FWD_BUF_SIZE) (length m)) as [Hbig|Hfit].
    { rewrite (recv_fixed_big _ _ m q Hq Hbig). unfold ebind at 1, recv_oversized. simpl.
      destruct (recv_vector_spec (t_kcp t) m q Hq Hm) as (w' & Ew & Hq' & Hw'). rewrite Ew. simpl.
      change (set_kcp w' (set_kcp (t_kcp t) t)) with (set_kcp w' t).
      pose proof (loop_completes h _ t ec_message_size (set_kcp w' t)
        (complete_outcome h ec_message_size t w' q Hh Hq' ltac:(done) Hw')) as Hc.
      by destruct ((complete_pending_read ec_message_size ;;; eret true) (set_kcp w' t)) as [[l t'] ev]. }
    destruct (recv_fixed_fits _ _ m q Hq Hm Hfit) as (w' & Ew & Hq' & Hw').
    assert (0 < length m)%nat by (destruct m; simpl in *; [done|lia]).
    rewrite Ew, take_ge by lia.
    rewrite (proj2 (Z.eqb_neq _ _)) by (unfold KcpWrapper.KCP_RECV_MSG_TOO_BIG; lia).
    rewrite (proj2 (Z.leb_gt _ _)) by lia.
    rewrite gets_bind, is_keepalive_decide.
    change (build_keepalive_payload (set_kcp w' t)) with (build_keepalive_payload t).
    case_bool_decide as Hka.
    { specialize (IH fuel (set_kcp w' t) Hq' Hh ltac:(simpl in Hf; lia)).
      unfold tunnel_read_spec in IH. simpl t_kcp in IH. rewrite Hq' in IH.
      destruct (fulfill_loop fuel cap (set_kcp w' t)) as [[u t'] ev]. destruct IH as [Hu IH].
      split; [done | by apply (outcome_after_take h _ t w')]. }
    rewrite gets_bind, is_peer_fin_decide.
    change (build_control_payload KCP_CONTROL_FIN (set_kcp w' t))
      with (build_control_payload KCP_CONTROL_FIN t).
    case_bool_decide as Hfin.
    { unfold ebind, emodify, complete_pending_read. simpl. rewrite Hh. simpl.
      rewrite orb_true_r. by repeat split. }
    rewrite Nat2Z.id. destruct (cap <? length m)%nat.
    { pose proof (loop_completes h _ t ec_message_size (set_kcp w' t)
        (complete_outcome h ec_message_size t w' q Hh Hq' ltac:(done) Hw')) as Hc.
      by destruct ((complete_pending_read ec_message_size ;;; eret true) (set_kcp w' t)) as [[l t'] ev]. }
    unfold ebind, deliver. simpl. rewrite Hh. simpl. rewrite orb_false_r. by repeat split.
Qed.

Lemma try_fulfill_read_outcome h cap t :
  pending_read_handler t = Some h -> pending_read_buffer t = Some cap ->
  read_outcome h (tunnel_read_spec cap t) t (try_fulfill_read t).
Proof.
  intros Hh Hb. unfold try_fulfill_read. rewrite Hh, Hb.
  pose proof (fulfill_loop_spec h cap _ (S (length (KcpWrapper.queue (t_kcp t)))) t eq_refl Hh ltac:(lia)) as H.
  by destruct (fulfill_loop _ cap t) as [[l t'] ev], H.
Qed.

Lemma trace_then_ret {S E X Y} (m : M S E X) (y : Y) s : trace (m ;;; eret y) s = trace m s.
Proof. rewrite trace_bind. apply app_nil_r. Qed.
Lemma final_then_ret {S E X Y} (m : M S E X) (y : Y) s : final (m ;;; eret y) s = final m s.
Proof. by rewrite final_bind. Qed.

(** What the loop keeps, the call keeps. *)
Lemma keeps_fulfill (R : tunnel -> list event -> tunnel -> Prop) `{!Compositional R} :
  (forall fuel cap, keeps R (fulfill_loop fuel cap)) -> keeps R try_fulfill_read.
Proof.
  intros Hl t. unfold trace, final, try_fulfill_read.
  destruct (pending_read_handler t), (pending_read_buffer t) as [cap|]; try apply comp_refl.
  pose proof (Hl (S (length (KcpWrapper.queue (t_kcp t)))) cap t) as H. unfold trace, final in H.
  by destruct (fulfill_loop _ cap t) as [[l t'] ev].
Qed.

(** A pending read is served from KCP's queue exactly as specified:
    keepalives of this session are skipped, the peer's FIN completes the read
    with end-of-file, a message that fits neither the receive buffer nor the
    caller's completes it with an error and never truncated, any other message
    is delivered whole; the read stays pending exactly when no message is left,
    and nothing but the read, the queue and the FIN flag changes. The loop
    always ends within one iteration per queued message. *)
Theorem try_fulfill_read_contract (h : Z) (cap : nat) (t : tunnel) :
  pending_read_handler t = Some h -> pending_read_buffer t = Some cap ->
  let '(res, q') := tunnel_read_spec cap t in
  let '(_, t', ev) := try_fulfill_read t in
  ev = match res with None => [] | Some (ec, d) => [Complete h ec d] end /\
  KcpWrapper.queue (t_kcp t') = q' /\
  pending_read_handler t' = match res with None => Some h | Some _ => None end /\
  peer_fin_received t' =
    peer_fin_received t || match res with Some (ec_eof, _) => true | _ => false end /\
  read_frame t t'.
Proof.
  intros Hh Hb. pose proof (try_fulfill_read_outcome h cap t Hh Hb) as Ho. unfold read_outcome in Ho.
  destruct (tunnel_read_spec cap t) as [res q'], (try_fulfill_read t) as [[u t'] ev]. by destruct_and! Ho.
Qed.

(** The loop does not depend on its fuel once that exceeds the number of
    queued messages: only a keepalive makes it go round, and consumes it. *)
Lemma fulfill_loop_fuel cap q : forall n m t,
  KcpWrapper.queue (t_kcp t) = q -> (length q < n)%nat -> (length q < m)%nat ->
  fulfill_loop n cap t = fulfill_loop m cap t.
Proof.
  induction q as [|x q IH]; intros [|n] [|m] t Hq Hn Hm; try (simpl in *; lia);
    cbn [fulfill_loop]; apply bind_ext; unfold result, final, recv_fixed.
  - by rewrite recv_fixed_none by auto.
  - destruct (decide (x = [])) as [->|Hx]; [by rewrite recv_fixed_none by eauto|].
    destruct (decide (Z.to_nat FWD_BUF_SIZE < length x)%nat) as [Hb|Hfit];
      [by rewrite (recv_fixed_big _ _ x q Hq Hb)|].
    destruct (recv_fixed_fits (Z.to_nat FWD_BUF_SIZE) (t_kcp t) x q Hq Hx ltac:(lia)) as (w' & Ew & Hq' & _). rewrite Ew. cbn [fst snd].
    destruct (_ =? _); [done|]. destruct (_ <=? _); [done|]. rewrite !gets_bind.
    destruct (is_keepalive _ _); [|done]. apply IH; [done | simpl in *; lia | simpl in *; lia].
Qed.

Lemma read_spec_pending ka fin cap q q' :
  read_spec ka fin cap q = (None, q') -> q' = [] \/ exists rest, q' = [] :: rest.
Proof.
  induction q as [|m q IH]; simpl; [intros [= <-]; by left|].
  repeat case_bool; intros E; simplify_eq; eauto. case_bool_decide; simplify_eq; eauto.
Qed.

(** C24: the read loop of [try_fulfill_read] ends. However many messages KCP
    holds, it leaves by one of its returns within one iteration per message
    and one more, whatever larger number of iterations it is allowed, with the
    state and the completions of [try_fulfill_read]; and when it leaves the
    read pending it is because no message is left to read. *)
Theorem read_loop_terminates (h : Z) (cap n : nat) (t : tunnel) :
  pending_read_handler t = Some h -> pending_read_buffer t = Some cap ->
  (length (KcpWrapper.queue (t_kcp t)) < n)%nat ->
  result (fulfill_loop n cap) t = true /\
  final (fulfill_loop n cap) t = final try_fulfill_read t /\
  trace (fulfill_loop n cap) t = trace try_fulfill_read t /\
  (pending_read_handler (final try_fulfill_read t) <> None -> peek_size (final try_fulfill_read t) <= 0).
Proof.
  intros Hh Hb Hn. pose proof (fulfill_loop_spec h cap _ n t eq_refl Hh Hn) as Hl.
  pose proof (try_fulfill_read_outcome h cap t Hh Hb) as Ho.
  assert (E : (tt, final (fulfill_loop n cap) t, trace (fulfill_loop n cap) t) = try_fulfill_read t).
  { unfold try_fulfill_read, final, trace. rewrite Hh, Hb.
    rewrite (fulfill_loop_fuel cap _ n (S (length (KcpWrapper.queue (t_kcp t)))) t eq_refl) by lia.
    by destruct (fulfill_loop (S (length (KcpWrapper.queue (t_kcp t)))) cap t) as [[l t'] ev]. }
  unfold final at 2, trace at 2. rewrite <- E. split_and!; [|done|done|].
  - unfold result. destruct (fulfill_loop n cap t) as [[l t'] ev]. apply Hl.
  - unfold final at 1 2. rewrite <- E. rewrite <- E in Ho. unfold read_outcome in Ho. simpl.
    destruct (tunnel_read_spec cap t) as [res q'] eqn:Es.
    destruct Ho as (_ & Hq & Hp & _). intros Hne. destruct res as [[ec d]|]; [congruence|].
    unfold peek_size, KcpWrapper.peek_size, KcpWrapper.queue in *.
    destruct (read_spec_pending _ _ _ _ _ Es) as [->|[rest ->]];
      [rewrite (peek_empty _ Hq); lia | rewrite (peek_head _ _ _ Hq); simpl; lia].
Qed.

(** ** A stream of reads *)

(** A message of the stream: it fits and is no control message but keepalive. *)
Definition stream_message (fin : list Z) (cap : nat) (m : list Z) : Prop :=
  m <> [] /\ m <> fin /\ (length m <= cap)%nat /\ (length m <= Z.to_nat FWD_BUF_SIZE)%nat.

Lemma read_spec_stream ka fin cap q d ds :
  Forall (stream_message fin cap) q -> filter (fun m => m <> ka) q = d :: ds ->
  exists q', read_spec ka fin cap q = (Some (ec_none, d), q') /\
             Forall (stream_message fin cap) q' /\ filter (fun m => m <> ka) q' = ds.
Proof.
  induction q as [|m q IH]; [done|]. intros [(H1 & H2 & H3 & H4) Hq]%list.Forall_cons Hf.
  simpl. rewrite bool_decide_false by done.
  rewrite (proj2 (Nat.ltb_ge _ _)) by done. case_bool_decide as Hk.
  - apply IH; [done|]. by rewrite filter_cons_False in Hf by (by intros ?).
  - rewrite bool_decide_false by done. rewrite (proj2 (Nat.ltb_ge _ _)) by done.
    rewrite filter_cons_True in Hf by done. simplify_eq. by eexists.
Qed.
End Read.

(** ** The interface in use *)

Section Subobject.
Context {A : Crypto.Aead} {K : Kcp} {F : FecCodec} {St : Type} {O : OutputHost St} {SO : SubObject St}.

Lemma on_tun_run {X} (m : M tunnel event X) (s : St) :
  on_tun m s = (result m (tun s), set_tun (final m (tun s)) s, trace m (tun s)).
Proof. unfold on_tun, result, final, trace. by destruct (m (tun s)) as [[x t] ev]. Qed.

Lemma upd_run f (s : St) : upd f s = (tt, set_tun (f (tun s)) s, []).
Proof. done. Qed.

(** Sequencing after an update or a read of the base object. *)
Lemma upd_bind {X} f (k : M St event X) (s : St) :
  (upd f ;;; k) s = k (set_tun (f (tun s)) s).
Proof. unfold ebind, upd, on_tun, emodify. simpl. by destruct (k _) as [[x s'] ev]. Qed.

Lemma look_bind {X Y} (f : tunnel -> X) (k : X -> M St event Y) (s : St) :
  ebind (look f) k s = k (f (tun s)) s.
Proof. unfold ebind, look, egets. by destruct (k _ _) as [[x s'] ev]. Qed.

End Subobject.

(** Liveness of a session is not a member of the base object. *)
Class ActiveLaw {A : Crypto.Aead} {K : Kcp} {F : FecCodec} (St : Type) {O : OutputHost St}
    {H : Host St} : Prop := active_set t s : is_active (set_tun t s) = is_active s.

Section Stream.
Context {A : Crypto.Aead} {K : Kcp} {F : FecCodec} {L : KcpLaws K}.
Context {St : Type} {O : OutputHost St} {SO : SubObject St} {H : Host St} {AL : ActiveLaw St}.

(** On a live tunnel, successive reads deliver the queued messages in
    order, each exactly once and whole, with the keepalives left out: the
    stream the peer sent, and nothing else, reaches the caller. *)
Theorem reads_deliver_stream (cap : nat) (hs : list Z) (s : St) :
  is_active s = true -> pending_read_handler (tun s) = None ->
  let ka := build_keepalive_payload (tun s) in
  let fin := build_control_payload KCP_CONTROL_FIN (tun s) in
  Forall (stream_message fin cap) (KcpWrapper.queue (t_kcp (tun s))) ->
  let data := filter (fun m => m <> ka) (KcpWrapper.queue (t_kcp (tun s))) in
  (length hs <= length data)%nat ->
  trace (efor (on_async_read_some cap) hs) s =
  zip_with (fun h d => Complete h ec_none d) hs data.
Proof.
  revert s. induction hs as [|h hs IH]; intros s Ha Hp ka fin Hq data Hl; [done|].
  destruct data as [|d ds] eqn:Ed; [simpl in Hl; lia|].
  cbn [efor]. rewrite trace_bind. unfold trace at 1, final. unfold on_async_read_some.
  rewrite gets_bind, Ha. cbn [negb]. rewrite look_bind, Hp, upd_bind, on_tun_run, tun_set.
  set (t1 := set_pending_read_handler (Some h) (set_pending_read_buffer (Some cap) (tun s))).
  pose proof (try_fulfill_read_outcome h cap t1 eq_refl eq_refl) as Ho.
  unfold tunnel_read_spec in Ho. change (KcpWrapper.queue (t_kcp t1)) with (KcpWrapper.queue (t_kcp (tun s))) in Ho.
  change (build_keepalive_payload t1) with ka in Ho.
  change (build_control_payload KCP_CONTROL_FIN t1) with fin in Ho.
  destruct (read_spec_stream ka fin cap _ d ds Hq Ed) as (q' & Hr & Hq' & Hd'). rewrite Hr in Ho.
  unfold read_outcome in Ho. rewrite set_tun_set. unfold trace at 1, final at 1 2.
  destruct (try_fulfill_read t1) as [[u t'] ev]. simpl in Ho.
  destruct Ho as (-> & Hkq & Hkh & _ & _ & Hfr). simpl. f_equal.
  destruct Hfr as (Hc & _).
  assert (Hka : build_keepalive_payload t' = ka) by (unfold ka, build_keepalive_payload, build_control_payload; by rewrite Hc).
  assert (Hfin : build_control_payload KCP_CONTROL_FIN t' = fin) by (unfold fin, build_control_payload; by rewrite Hc).
  specialize (IH (set_tun t' s)). cbv zeta in IH. rewrite active_set, tun_set, Hka, Hfin, Hkq, Hd' in IH.
  apply IH; try done. simpl in Hl. lia.
Qed.
End Stream.

(** ** One flush cycle is one burst *)

Section Burst.
Context {A : Crypto.Aead} {K : Kcp} {F : FecCodec}.

(** The frames one datagram becomes and the codec state it leaves, as a pure
    function: the datagram itself without FEC; with FEC its data shard followed
    by the parity of the set it completes. *)
Definition frame_one (e : tenv) (o : output) (t : tunnel) : tunnel * list (list Z) :=
  match fec_encoder t with
  | None => (t, [o_data o])
  | Some enc =>
      let '(enc', frame, parity) :=
        Encode (now_kcp_ms e) (fill_frame (o_data o) (fec_send_buf t))
          (if parity_enabled e then o_rto o else 0) enc in
      (foldl (fun t _ => bump fec_parity_sent 1 t)
         (set_fec_encoder (Some enc') (set_fec_send_buf frame (bump fec_data_sent 1 t))) parity,
       drop FEC_CRYPTO_RESERVE <$> frame :: parity)
  end.

Fixpoint frame_all (e : tenv) (outs : list output) (t : tunnel) : tunnel * list (list Z) :=
  match outs with
  | [] => (t, [])
  | o :: outs' =>
      let '(t1, f1) := frame_one e o t in
      let '(t2, f2) := frame_all e outs' t1 in
      (t2, f1 ++ f2)
  end.

(** A tunnel in an open batch holding [b]. *)
Definition batching (b : list (list Z)) (t : tunnel) : tunnel := set_out_batch b (set_batch_depth 1 t).

Context {St : Type} {O : OutputHost St} {SO : SubObject St}.

Lemma emit_batched e d b t (s : St) :
  tun s = batching b t -> emit_output e d s = (tt, set_tun (batching (b ++ [d]) t) s, []).
Proof. intros Ht. unfold emit_output. rewrite look_bind, Ht. simpl. by rewrite upd_run, Ht. Qed.

Lemma parity_batched e (ps : list (list Z)) : forall b t (s : St),
  tun s = batching b t ->
  efor (fun p => upd (bump fec_parity_sent 1) ;;; emit_output e (drop FEC_CRYPTO_RESERVE p)) ps s =
  (tt, set_tun (batching (b ++ (drop FEC_CRYPTO_RESERVE <$> ps))
                  (foldl (fun t _ => bump fec_parity_sent 1 t) t ps)) s, []).
Proof.
  induction ps as [|p ps IH]; intros b t s Ht; cbn [efor foldl].
  - unfold eret. rewrite app_nil_r, <- Ht. by rewrite set_tun_tun.
  - rewrite ebind_assoc, upd_bind, Ht. unfold ebind.
    rewrite (emit_batched e _ b (bump fec_parity_sent 1 t)) by (by rewrite tun_set).
    rewrite set_tun_set. rewrite (IH (b ++ [drop FEC_CRYPTO_RESERVE p]) (bump fec_parity_sent 1 t)).
    + rewrite set_tun_set, fmap_cons, <- app_assoc. done.
    + by rewrite tun_set.
Qed.

Lemma datagram_batched e o b t (s : St) :
  tun s = batching b t ->
  on_kcp_datagram e (o_rto o) (o_data o) s =
  (tt, set_tun (batching (b ++ (frame_one e o t).2) (frame_one e o t).1) s, []).
Proof.
  intros Ht. unfold on_kcp_datagram, frame_one. rewrite look_bind, Ht.
  change (fec_encoder (batching b t)) with (fec_encoder t).
  destruct (fec_encoder t) as [enc|]; [|by apply emit_batched].
  rewrite upd_bind, look_bind, tun_set, Ht.
  change (fec_send_buf (bump fec_data_sent 1 (batching b t))) with (fec_send_buf t).
  destruct (Encode _ _ _ enc) as [[enc' frame] parity]. rewrite upd_bind, tun_set, set_tun_set.
  unfold ebind. set (t1 := set_fec_encoder (Some enc') (set_fec_send_buf frame (bump fec_data_sent 1 t))).
  rewrite (emit_batched e _ b t1) by (by rewrite tun_set). rewrite set_tun_set.
  rewrite (parity_batched e parity (b ++ [drop FEC_CRYPTO_RESERVE frame]) t1) by (by rewrite tun_set).
  by rewrite set_tun_set, fmap_cons, <- app_assoc.
Qed.

Lemma deliver_batched e outs : forall b t (s : St),
  tun s = batching b t ->
  efor (fun o => on_kcp_datagram e (o_rto o) (o_data o)) outs s =
  (tt, set_tun (batching (b ++ (frame_all e outs t).2) (frame_all e outs t).1) s, []).
Proof.
  induction outs as [|o outs IH]; intros b t s Ht; cbn [efor frame_all].
  - unfold eret. simpl. by rewrite app_nil_r, <- Ht, set_tun_tun.
  - unfold ebind. rewrite (datagram_batched e o b t s Ht).
    destruct (frame_one e o t) as [t1 f1]. simpl.
    rewrite (IH (b ++ f1) t1) by (by rewrite tun_set). destruct (frame_all e outs t1) as [t2 f2]. simpl.
    by rewrite set_tun_set, app_assoc.
Qed.

(** The pure part of a flush cycle: the library's output of update and flush,
    in order, framed. *)
Definition cycle_frames (e : tenv) (ms : Z) (t : tunnel) : tunnel * list (list Z) :=
  let t0 := apply_rto_floor e t in
  let '(w1, o1) := KcpWrapper.update ms (t_kcp t0) in
  let '(t1, f1) := frame_all e (KcpWrapper.c_output_filter o1) (set_kcp w1 t0) in
  let '(w2, o2) := KcpWrapper.flush (t_kcp t1) in
  let '(t2, f2) := frame_all e (KcpWrapper.c_output_filter o2) (set_kcp w2 t1) in
  (t2, f1 ++ f2).

Lemma apply_rto_floor_batch e t :
  batch_depth (apply_rto_floor e t) = batch_depth t /\ out_batch (apply_rto_floor e t) = out_batch t.
Proof. unfold apply_rto_floor. destruct (e_rto_gate e); [|done]. by case_bool. Qed.

Lemma frame_all_batch e outs : forall t,
  batch_depth (frame_all e outs t).1 = batch_depth t /\ out_batch (frame_all e outs t).1 = out_batch t.
Proof.
  assert (Hp : forall (ps : list (list Z)) t,
    batch_depth (foldl (fun t _ => bump fec_parity_sent 1 t) t ps) = batch_depth t /\
    out_batch (foldl (fun t _ => bump fec_parity_sent 1 t) t ps) = out_batch t).
  { induction ps as [|p ps IH]; intros t; [done|]. simpl. destruct (IH (bump fec_parity_sent 1 t)). done. }
  induction outs as [|o outs IH]; intros t; [done|]. simpl.
  destruct (frame_one e o t) as [t1 f1] eqn:E1. specialize (IH t1).
  destruct (frame_all e outs t1) as [t2 f2]. simpl in *. destruct IH as [-> ->].
  unfold frame_one in E1. destruct (fec_encoder t) as [enc|]; [|by simplify_eq].
  destruct (Encode _ _ _ enc) as [[enc' frame] parity]. simplify_eq.
  match goal with |- context [foldl _ ?t0 parity] => destruct (Hp parity t0) as [-> ->] end. done.
Qed.

Lemma cycle_frames_batch e ms t :
  batch_depth (cycle_frames e ms t).1 = batch_depth t /\ out_batch (cycle_frames e ms t).1 = out_batch t.
Proof.
  unfold cycle_frames. destruct (apply_rto_floor_batch e t) as [H1 H2].
  destruct (KcpWrapper.update _ _) as [w1 o1].
  pose proof (frame_all_batch e (KcpWrapper.c_output_filter o1) (set_kcp w1 (apply_rto_floor e t))) as H3.
  destruct (frame_all _ _ _) as [t1 f1]. destruct (KcpWrapper.flush _) as [w2 o2].
  pose proof (frame_all_batch e (KcpWrapper.c_output_filter o2) (set_kcp w2 t1)) as H4.
  destruct (frame_all _ _ _) as [t2 f2]. simpl in *. destruct_and!. split; congruence.
Qed.

Lemma flush_cycle_burst e ms (s : St) :
  batch_depth (tun s) = 0 -> out_batch (tun s) = [] ->
  let '(t', fs) := cycle_frames e ms (tun s) in
  flush_cycle e ms s =
  match fs with
  | [] => (tt, set_tun t' s, [])
  | _ => handle_kcp_output_batch e fs (set_tun t' s)
  end.
Proof.
  intros Hd Hb. pose proof (cycle_frames_batch e ms (tun s)) as Hcb. revert Hcb.
  unfold cycle_frames, flush_cycle. destruct (apply_rto_floor_batch e (tun s)) as [Hd0 Hb0].
  rewrite upd_bind. unfold begin_output_batch. rewrite upd_bind, tun_set, set_tun_set.
  set (t0 := apply_rto_floor e (tun s)) in *. rewrite Hd in Hd0. rewrite Hb in Hb0.
  replace (set_batch_depth (batch_depth t0 + 1) t0) with (batching [] t0)
    by (unfold batching, set_out_batch, set_batch_depth; simpl; by rewrite Hb0, Hd0).
  unfold kcp_update, deliver_outputs. rewrite ebind_assoc, look_bind, tun_set.
  change (t_kcp (batching [] t0)) with (t_kcp t0).
  destruct (KcpWrapper.update ms (t_kcp t0)) as [w1 o1].
  rewrite ebind_assoc, upd_bind, tun_set, set_tun_set. unfold ebind at 1.
  rewrite (deliver_batched e _ [] (set_kcp w1 t0)) by (by rewrite tun_set). rewrite set_tun_set.
  destruct (frame_all e (KcpWrapper.c_output_filter o1) (set_kcp w1 t0)) as [t1 f1] eqn:E1. simpl fst. simpl snd.
  unfold kcp_flush, deliver_outputs. rewrite ebind_assoc, look_bind, tun_set.
  change (t_kcp (batching ([] ++ f1) t1)) with (t_kcp t1).
  destruct (KcpWrapper.flush (t_kcp t1)) as [w2 o2].
  rewrite ebind_assoc, upd_bind, tun_set, set_tun_set. unfold ebind at 1.
  rewrite (deliver_batched e _ f1 (set_kcp w2 t1)) by (by rewrite tun_set). rewrite set_tun_set.
  destruct (frame_all e (KcpWrapper.c_output_filter o2) (set_kcp w2 t1)) as [t2 f2] eqn:E2. simpl fst. simpl snd.
  intros [Hd2 Hb2]. rewrite Hd in Hd2. rewrite Hb in Hb2.
  unfold end_output_batch. rewrite upd_bind, tun_set, set_tun_set.
  cbn [batching set_batch_depth set_out_batch batch_depth].
  rewrite look_bind, tun_set. unfold id. cbn.
  replace (set_batch_depth (1 - 1) (batching (f1 ++ f2) t2)) with (set_out_batch (f1 ++ f2) t2)
    by (unfold batching, set_out_batch, set_batch_depth; simpl; by rewrite Hd2).
  assert (Hreset : set_out_batch [] t2 = t2) by (destruct t2; simpl in *; by subst).
  destruct (f1 ++ f2) as [|d fs] eqn:Ef; simpl.
  - by rewrite Hreset.
  - rewrite upd_bind, tun_set, set_tun_set.
    change (set_out_batch [] (set_out_batch (d :: fs) t2)) with (set_out_batch [] t2). rewrite Hreset.
    by destruct (handle_kcp_output_batch e (d :: fs) (set_tun t2 s)) as [[u s'] ev].
Qed.

(** One scheduling cycle hands the session exactly one burst, and none
    when KCP had nothing to say: every datagram of the update and then of the
    flush, in KCP's order, each framed with its own parity behind it; by then
    the batch is closed and its accumulator empty, whatever the session does
    with the burst. *)
Theorem flush_cycle_one_burst (e : tenv) (ms : Z) (s : St) :
  batch_depth (tun s) = 0 -> out_batch (tun s) = [] ->
  let '(t', fs) := cycle_frames e ms (tun s) in
  flush_cycle e ms s =
  match fs with
  | [] => (tt, set_tun t' s, [])
  | _ => handle_kcp_output_batch e fs (set_tun t' s)
  end /\ batch_depth t' = 0 /\ out_batch t' = [].
Proof.
  intros Hd Hb. pose proof (flush_cycle_burst e ms s Hd Hb) as Hc.
  pose proof (cycle_frames_batch e ms (tun s)) as [Hd' Hb'].
  destruct (cycle_frames e ms (tun s)) as [t' fs]. simpl in *. split_and!; congruence.
Qed.

(** ** FEC framing reaches the peer *)

Context {FL : FecLaws F}.

(** The receiver of [shard] hands KCP exactly [d], then feeds the shard to its
    decoder. *)
Definition reaches_kcp (d shard : list Z) : Prop :=
  forall (e : tenv) (r : St), fec_decoder (tun r) <> None ->
  feed_kcp_input e shard r =
  (upd (set_needs_flush true) ;;;
   let* ret := kcp_input e d in
   feed_decoder e shard ;;; eret ret) r.

(** A sender's datagram: not empty, and within the largest MTU. *)
Definition fits_mtu (o : output) : Prop := o_data o <> [] /\ Z.of_nat (length (o_data o)) <= KCP_MTU_MAX.

Lemma frame_one_shard e o t :
  fec_encoder t <> None -> fits_mtu o ->
  exists shard parity, (frame_one e o t).2 = shard :: parity /\ reaches_kcp (o_data o) shard.
Proof.
  intros He [Hne Hlen]. unfold frame_one. destruct (fec_encoder t) as [enc|]; [|done].
  pose proof (length_fill_frame (o_data o) (fec_send_buf t)) as Hfl.
  pose proof (drop_fill_frame (o_data o) (fec_send_buf t)) as Hfd.
  pose proof (encode_frame (now_kcp_ms e) (fill_frame (o_data o) (fec_send_buf t))
                (if parity_enabled e then o_rto o else 0) enc) as Hl.
  destruct (Encode _ _ _ enc) as [[enc' frame] parity].
  destruct Hl as (H1 & H2 & H3 & H4); [lia | rewrite Hfl; unfold FEC_CRYPTO_RESERVE, SESSION_SALT_SIZE, NONCE_SIZE, KCP_MTU_MAX in *; lia|].
  exists (drop FEC_CRYPTO_RESERVE frame), (drop FEC_CRYPTO_RESERVE <$> parity). split; [done|].
  set (shard := drop FEC_CRYPTO_RESERVE frame) in *.
  assert (Hs : length shard = (8 + length (o_data o))%nat) by (unfold shard; rewrite length_drop; lia).
  assert (Hp : drop 8 shard = o_data o) by (unfold shard; by rewrite drop_drop, H2).
  assert (0 < length (o_data o))%nat by (destruct (o_data o); simpl in *; [done|lia]).
  intros e' r Hd. unfold feed_kcp_input. rewrite upd_bind, look_bind, tun_set, upd_bind.
  change (fec_decoder (set_needs_flush true (tun r))) with (fec_decoder (tun r)).
  destruct (fec_decoder (tun r)) as [dec|]; [|done].
  rewrite (proj2 (Nat.ltb_ge _ _)) by lia. rewrite H3, H4. cbn [Z.eqb]. rewrite Z.eqb_refl.
  rewrite (proj2 (Z.leb_gt _ _)) by lia. rewrite (proj2 (Z.eqb_eq _ _)) by lia. simpl orb.
  by rewrite Hp.
Qed.

(** Framing keeps the encoder on, and leaves KCP alone. *)
Lemma frame_one_keeps e o t :
  t_kcp (frame_one e o t).1 = t_kcp t /\ (fec_encoder t <> None -> fec_encoder (frame_one e o t).1 <> None).
Proof.
  assert (Hp : forall (ps : list (list Z)) t0,
    t_kcp (foldl (fun t _ => bump fec_parity_sent 1 t) t0 ps) = t_kcp t0 /\
    fec_encoder (foldl (fun t _ => bump fec_parity_sent 1 t) t0 ps) = fec_encoder t0).
  { induction ps as [|p ps IH]; intros t0; [done|]. simpl. by destruct (IH (bump fec_parity_sent 1 t0)) as [-> ->]. }
  unfold frame_one. destruct (fec_encoder t) as [enc|] eqn:E; [|done].
  destruct (Encode _ _ _ enc) as [[enc' frame] parity]. simpl.
  match goal with |- context [foldl _ ?t0 parity] => destruct (Hp parity t0) as [-> ->] end. done.
Qed.

Lemma frame_all_shards e outs : forall t,
  fec_encoder t <> None -> Forall fits_mtu outs ->
  t_kcp (frame_all e outs t).1 = t_kcp t /\ fec_encoder (frame_all e outs t).1 <> None /\
  exists groups, (frame_all e outs t).2 = concat groups /\
    Forall2 (fun o g => exists shard parity, g = shard :: parity /\ reaches_kcp (o_data o) shard) outs groups.
Proof.
  induction outs as [|o outs IH]; intros t He Ho; [by split_and!; try done; exists []|].
  inversion Ho as [|? ? Ho1 Ho2]; subst. cbn [frame_all].
  pose proof (frame_one_shard e o t He Ho1) as (shard & parity & Hs & Hr).
  destruct (frame_one_keeps e o t) as [Hk He1]. specialize (He1 He).
  destruct (frame_one e o t) as [t1 f1]. cbn [fst snd] in *. subst f1.
  destruct (IH t1 He1 Ho2) as (Hk2 & He2 & groups & Hg & Hall).
  destruct (frame_all e outs t1) as [t2 f2]. cbn [fst snd] in *. subst f2. split_and!; [congruence | done |].
  exists ((shard :: parity) :: groups). split; [done|]. constructor; [by exists shard, parity | done].
Qed.

(** C30: with FEC on at both ends, a scheduling cycle hands the session, as
    one burst, a group of shards for each datagram KCP put out in it, update
    first, then flush, in KCP's order; the first shard of a group is the
    datagram's own: the receiver's framing checks pass it, and the receiver
    hands KCP exactly that datagram before it feeds the shard to its decoder.
    (KCP's datagrams are within the largest MTU, and the cycle starts outside
    a batch, as every call leaves the tunnel.) *)
Theorem fec_shard_reaches_kcp (e : tenv) (ms : Z) (s : St) w1 o1 w2 o2 :
  batch_depth (tun s) = 0 -> out_batch (tun s) = [] -> fec_encoder (tun s) <> None ->
  KcpWrapper.update ms (t_kcp (apply_rto_floor e (tun s))) = (w1, o1) ->
  KcpWrapper.flush w1 = (w2, o2) ->
  let outs := KcpWrapper.c_output_filter (o1 ++ o2) in
  outs <> [] -> Forall (fun o => Z.of_nat (length (o_data o)) <= KCP_MTU_MAX) outs ->
  exists t' groups,
    flush_cycle e ms s = handle_kcp_output_batch e (concat groups) (set_tun t' s) /\
    Forall2 (fun o g => exists shard parity, g = shard :: parity /\
      forall (e' : tenv) (r : St), fec_decoder (tun r) <> None ->
      feed_kcp_input e' shard r =
      (upd (set_needs_flush true) ;;;
       let* ret := kcp_input e' (o_data o) in
       feed_decoder e' shard ;;; eret ret) r) outs groups.
Proof.
  intros Hd Hb He H1 H2 outs Hne Hsz. pose proof (flush_cycle_burst e ms s Hd Hb) as Hc.
  assert (Hf : Forall fits_mtu outs).
  { rewrite Forall_forall in Hsz |- *. intros o Hin. split; [|by apply Hsz]. by apply list_elem_of_filter in Hin as [? _]. }
  unfold outs, KcpWrapper.c_output_filter in Hf. rewrite filter_app in Hf. apply Forall_app in Hf as [Hf1 Hf2].
  fold (KcpWrapper.c_output_filter o1) in Hf1. fold (KcpWrapper.c_output_filter o2) in Hf2.
  assert (He0 : fec_encoder (set_kcp w1 (apply_rto_floor e (tun s))) <> None)
    by (unfold apply_rto_floor; destruct (e_rto_gate e); [by case_bool | done]).
  unfold cycle_frames in Hc. rewrite H1 in Hc.
  destruct (frame_all_shards e _ _ He0 Hf1) as (Hk1 & He1 & g1 & Hg1 & Ha1).
  destruct (frame_all e (KcpWrapper.c_output_filter o1) _) as [t1 f1]. cbn [fst snd] in *. subst f1.
  rewrite Hk1 in Hc. change (t_kcp (set_kcp w1 (apply_rto_floor e (tun s)))) with w1 in Hc. rewrite H2 in Hc.
  destruct (frame_all_shards e _ (set_kcp w2 t1) He1 Hf2) as (_ & _ & g2 & Hg2 & Ha2).
  destruct (frame_all e (KcpWrapper.c_output_filter o2) _) as [t2 f2]. cbn [fst snd] in *. subst f2.
  pose proof (Forall2_app Ha1 Ha2) as Ha. unfold KcpWrapper.c_output_filter in Ha. rewrite <- filter_app in Ha.
  fold (KcpWrapper.c_output_filter (o1 ++ o2)) in Ha. fold outs in Ha.
  exists t2, (g1 ++ g2). split; [|exact Ha]. rewrite concat_app.
  destruct (concat g1 ++ concat g2) eqn:E; [|done]. exfalso. rewrite <- concat_app in E.
  destruct Ha as [|o g outs' gs (shard & parity & -> & _)]; done.
Qed.
End Burst.

(** ** Accounting: reads and the FIN, whatever the tunnel does *)

Definition completes (h : Z) (ev : event) : Prop := match ev with Complete h' _ _ => h' = h | _ => False end.
Definition queues_fin (ev : event) : Prop :=
  match ev with KcpSend FromFin _ ret => 0 <= ret | _ => False end.

#[export] Instance completes_dec h ev : Decision (completes h ev).
Proof. unfold completes. destruct ev; apply _. Defined.
#[export] Instance queues_fin_dec ev : Decision (queues_fin ev).
Proof. unfold queues_fin. destruct ev as [from msg ret| | | | | | | | | | | | | | | | |]; try destruct from; apply _. Defined.

(** How often the handler [h] completed, and how many FINs were queued. *)
Definition completions (h : Z) (ev : list event) : nat := length (filter (completes h) ev).
Definition fins (ev : list event) : nat := length (filter queues_fin ev).

(** A step whose events are not accounted for. *)
Ltac step_split := split; simpl; try done; try (cbv; intros; lia).

Section Accounting.
Context {A : Crypto.Aead} {K : Kcp} {F : FecCodec}.

Definition pend (h : Z) (t : tunnel) : nat := if bool_decide (pending_read_handler t = Some h) then 1 else 0.

(** The books of a tunnel: a handler leaves the pending slot by completing and
    in no other way; every queued FIN turns [fin_sent] on, once, and needs the
    negotiated capability and the request; neither of these changes; the peer's
    FIN is never forgotten; the creation clock and the handshake verdict stay
    as they are. *)
Record tun_step (t : tunnel) (ev : list event) (t' : tunnel) : Prop := {
  ts_reads : forall h, (completions h ev + pend h t' = pend h t)%nat;
  ts_fin : (fins ev + Nat.b2n (fin_sent t) = Nat.b2n (fin_sent t'))%nat;
  ts_fin_only : (0 < fins ev)%nat -> fin_enabled t = true /\ fin_requested t = true;
  ts_enabled : fin_enabled t' = fin_enabled t /\ fin_requested t' = fin_requested t;
  ts_peer : peer_fin_received t = true -> peer_fin_received t' = true;
  ts_clock : created_us t' = created_us t /\ handshake_done t' = handshake_done t }.

Lemma completions_app h e1 e2 : completions h (e1 ++ e2) = (completions h e1 + completions h e2)%nat.
Proof. unfold completions. by rewrite filter_app, length_app. Qed.
Lemma fins_app e1 e2 : fins (e1 ++ e2) = (fins e1 + fins e2)%nat.
Proof. unfold fins. by rewrite filter_app, length_app. Qed.

#[export] Instance tun_step_comp : Compositional tun_step.
Proof.
  split.
  - intros t. split; try done. unfold fins. simpl. lia.
  - intros t1 t2 t3 e1 e2 [R1 F1 O1 E1 P1 C1] [R2 F2 O2 E2 P2 C2]. split.
    + intros h. rewrite completions_app. specialize (R1 h). specialize (R2 h). lia.
    + rewrite fins_app. lia.
    + rewrite fins_app. intros Hf. destruct (decide (0 < fins e1)%nat); [auto|].
      destruct E1 as [<- <-]. apply O2. lia.
    + destruct E1, E2. split; congruence.
    + auto.
    + destruct C1, C2. split; congruence.
Qed.

(** An update that touches none of the accounted members. *)
Lemma benign (f : tunnel -> tunnel) :
  (forall t, pending_read_handler (f t) = pending_read_handler t /\ fin_sent (f t) = fin_sent t /\
             fin_enabled (f t) = fin_enabled t /\ fin_requested (f t) = fin_requested t /\
             (peer_fin_received t = true -> peer_fin_received (f t) = true) /\
             created_us (f t) = created_us t /\ handshake_done (f t) = handshake_done t) ->
  forall t, tun_step t [] (f t).
Proof.
  intros Hf t. destruct (Hf t) as (H1 & H2 & H3 & H3' & H4 & H5 & H6).
  split; simpl; try done; unfold pend, fins, completions; simpl; [intros h; by rewrite H1 | by rewrite H2 | lia].
Qed.


Lemma handler_done h ec d t :
  pending_read_handler t = Some h ->
  tun_step t [Complete h ec d] (set_pending_read_handler None (set_pending_read_buffer None t)).
Proof.
  intros E. step_split. intros h'. unfold completions, pend. simpl. rewrite E.
  rewrite filter_cons, filter_nil. case_decide as Hc; simpl in Hc; simpl.
  - subst. by rewrite bool_decide_true.
  - rewrite bool_decide_false by congruence. done.
Qed.

Lemma complete_step ec : keeps tun_step (complete_pending_read ec).
Proof.
  intros t. unfold trace, final, complete_pending_read.
  destruct (pending_read_handler t) eqn:E; [by apply handler_done | apply comp_refl].
Qed.

Lemma deliver_step d : keeps tun_step (deliver d).
Proof.
  intros t. unfold trace, final, deliver.
  destruct (pending_read_handler t) eqn:E; [by apply handler_done | apply comp_refl].
Qed.

Lemma kcp_send_step from d :
  from <> FromFin -> keeps tun_step (kcp_send from d).
Proof.
  intros Hf t. unfold trace, final, kcp_send. destruct (KcpWrapper.send d (t_kcp t)) as [w ret].
  destruct from; try done; step_split.
Qed.

Lemma fulfill_loop_step fuel cap : keeps tun_step (fulfill_loop fuel cap).
Proof.
  induction fuel as [|fuel IH]; cbn [fulfill_loop]; keeps_walk; auto using complete_step, deliver_step.
  - intros t. unfold trace, final, recv_fixed.
    destruct (KcpWrapper.recv_fixed _ _) as [[w size] buf]. simpl.
    apply (benign (set_kcp w)). by intros.
  - intros t. apply (benign (fun t => set_kcp (KcpWrapper.recv_vector (t_kcp t)).1.1 t)). by intros.
  - apply keeps_modify. apply benign. by intros.
Qed.

Lemma try_fulfill_step : keeps tun_step try_fulfill_read.
Proof. apply keeps_fulfill; [apply _ | apply fulfill_loop_step]. Qed.

Lemma log_stats_step e : keeps tun_step (maybe_log_stats e).
Proof.
  intros t. unfold trace, final, maybe_log_stats. case_bool; simpl; [|apply comp_refl].
  change [StatsLine] with ([] ++ [StatsLine]).
  apply comp_trans with (set_last_stats_us (now_us e) t); [|by step_split].
  apply (benign (set_last_stats_us (now_us e))). by intros.
Qed.

Lemma keepalive_step e : keeps tun_step (maybe_send_keepalive e).
Proof.
  unfold maybe_send_keepalive. keeps_walk.
  - by apply kcp_send_step.
  - apply keeps_modify, benign. by intros.
Qed.
End Accounting.

(** The books of a step that may first latch the request for a FIN. *)
Section Latch.
Context {A : Crypto.Aead} {K : Kcp} {F : FecCodec}.

Definition tun_book (t : tunnel) (ev : list event) (t' : tunnel) : Prop :=
  exists t0, (t0 = t \/ t0 = set_fin_requested true t) /\ tun_step t0 ev t'.

Lemma tun_step_latch t ev t' :
  tun_step t ev t' -> tun_step (set_fin_requested true t) ev (set_fin_requested true t').
Proof.
  intros [R1 F1 O1 [E1 E2] P1 C1]. split; try done. intros Hf. by destruct (O1 Hf).
Qed.

Lemma latched_already (t : tunnel) : fin_requested t = true -> set_fin_requested true t = t.
Proof. destruct t. simpl. by intros ->. Qed.

#[export] Instance tun_book_comp : Compositional tun_book.
Proof.
  split; [intros t; exists t; split; [by left | apply comp_refl]|].
  intros t1 t2 t3 e1 e2 (x & Hx & S1) (y & Hy & S2). destruct Hy as [->| ->].
  - exists x. split; [done|]. by eapply comp_trans.
  - exists (set_fin_requested true t1). split; [by right|]. eapply comp_trans; [|exact S2].
    destruct Hx as [->| ->]; [by apply tun_step_latch|].
    destruct (ts_enabled _ _ _ S1) as [_ E]. simpl in E. by rewrite (latched_already t2 E).
Qed.

Lemma tun_step_book t ev t' : tun_step t ev t' -> tun_book t ev t'.
Proof. intros H. exists t. by split; [left|]. Qed.
End Latch.

#[export] Hint Resolve complete_step try_fulfill_step log_stats_step keepalive_step : keeps.

(** The same books for the whole session object, given that its own virtual
    functions keep them. *)
Definition on_st `{OutputHost St} (R : tunnel -> list event -> tunnel -> Prop)
    (s : St) (ev : list event) (s' : St) : Prop := R (tun s) ev (tun s').

#[export] Instance on_st_comp `{OutputHost St} R : Compositional R -> Compositional (on_st (St := St) R).
Proof. intros HR. split; unfold on_st; [intros; apply comp_refl | intros; by eapply comp_trans]. Qed.

Class OutputSteps {A : Crypto.Aead} {K : Kcp} {F : FecCodec} (St : Type) {O : OutputHost St} : Prop := {
  os_output e d : keeps (on_st tun_step) (handle_kcp_output e d);
  os_batch e ds : keeps (on_st tun_step) (handle_kcp_output_batch e ds) }.

Class HostSteps {A : Crypto.Aead} {K : Kcp} {F : FecCodec} (St : Type) {O : OutputHost St}
    {H : Host St} : Prop := {
  hs_shut e : keeps (on_st tun_step) (shut_down e);
  hs_resume e hook : keeps (on_st tun_step) (run_resume e hook) }.

Section OutputAccounting.
Context {A : Crypto.Aead} {K : Kcp} {F : FecCodec} {St : Type} {O : OutputHost St} {SO : SubObject St}.
Context {OS : OutputSteps St}.

Lemma keeps_on_tun {X} (m : M tunnel event X) : keeps tun_step m -> keeps (on_st tun_step) (on_tun m).
Proof.
  intros Hm s. unfold on_st, trace, final. rewrite on_tun_run. simpl. rewrite tun_set. apply Hm.
Qed.

Lemma keeps_upd f : (forall t, tun_step t [] (f t)) -> keeps (on_st tun_step) (upd f).
Proof. intros Hf. apply keeps_on_tun, keeps_modify, Hf. Qed.

Lemma keeps_look {X} (f : tunnel -> X) : keeps (on_st (St := St) tun_step) (look f).
Proof. apply keeps_gets, _. Qed.

(** Updates of the base object, one after another. *)
Ltac benign_upd := apply keeps_upd, benign; by intros.
Ltac walk := repeat first [keeps_step | apply keeps_look | benign_upd].

Lemma emit_output_step e d : keeps (on_st tun_step) (emit_output e d).
Proof. unfold emit_output. walk. apply os_output. Qed.

Lemma on_kcp_datagram_step e rto d : keeps (on_st tun_step) (on_kcp_datagram e rto d).
Proof. unfold on_kcp_datagram. walk; apply emit_output_step. Qed.

Lemma deliver_outputs_step e outs : keeps (on_st tun_step) (deliver_outputs e outs).
Proof. unfold deliver_outputs. walk. apply on_kcp_datagram_step. Qed.

Lemma kcp_input_step e d : keeps (on_st tun_step) (kcp_input e d).
Proof. unfold kcp_input. walk. apply deliver_outputs_step. Qed.

Lemma apply_rto_floor_step e t : tun_step t [] (apply_rto_floor e t).
Proof.
  apply (benign (apply_rto_floor e)). intros t'. unfold apply_rto_floor.
  destruct (e_rto_gate e); [|done]. by case_bool.
Qed.

Lemma end_output_batch_step e : keeps (on_st tun_step) (end_output_batch e).
Proof.
  unfold end_output_batch. walk; [|apply os_batch].
  apply keeps_upd, benign. intros t. by case_bool.
Qed.

Lemma flush_cycle_step e ms : keeps (on_st tun_step) (flush_cycle e ms).
Proof.
  unfold flush_cycle, begin_output_batch, kcp_update, kcp_flush. walk;
    auto using deliver_outputs_step, end_output_batch_step.
  apply keeps_upd, apply_rto_floor_step.
Qed.

Lemma feed_decoder_step e d : keeps (on_st tun_step) (feed_decoder e d).
Proof. unfold feed_decoder, feed_rebuilt. walk. apply kcp_input_step. Qed.

Lemma feed_kcp_input_step e d : keeps (on_st tun_step) (feed_kcp_input e d).
Proof. unfold feed_kcp_input. walk; auto using kcp_input_step, feed_decoder_step. Qed.

Context {H : Host St} {HS : HostSteps St}.

(** The FIN: accepted by KCP, then remembered. *)
Lemma do_send_fin_step e s :
  fin_requested (tun s) = true -> on_st tun_step s (trace (do_send_fin e) s) (final (do_send_fin e) s).
Proof.
  intros Hreq. unfold do_send_fin. unfold trace, final. rewrite look_bind, gets_bind. unfold id.
  destruct (fin_enabled (tun s)) eqn:Ee; simpl; [|apply comp_refl].
  destruct (is_active s); simpl; [|apply comp_refl].
  destruct (fin_sent (tun s)) eqn:Es; simpl; [apply comp_refl|].
  rewrite ebind_run. unfold result, trace, final. rewrite on_tun_run. unfold kcp_send.
  set (p := build_control_payload KCP_CONTROL_FIN (tun s)).
  assert (Hs : forall w ret, tun_step (tun s) [KcpSend FromFin p ret]
                 (if ret <? 0 then set_kcp w (tun s) else set_fin_sent true (set_kcp w (tun s)))).
  { intros w ret. destruct (Z.ltb_spec ret 0); split; simpl; try done; unfold fins;
      rewrite filter_cons, filter_nil; case_decide as Hq; simpl in Hq; try lia; simpl; by rewrite ?Es. }
  unfold result, final, trace. destruct (KcpWrapper.send p (t_kcp (tun s))) as [w ret]. simpl.
  specialize (Hs w ret). destruct (ret <? 0); simpl.
  - unfold on_st. by rewrite tun_set.
  - rewrite upd_bind. rewrite tun_set, set_tun_set.
    change (KcpSend FromFin p ret :: ?l) with ([KcpSend FromFin p ret] ++ l).
    eapply (comp_trans (R := on_st tun_step)); [|apply flush_cycle_step].
    unfold on_st. by rewrite tun_set.
Qed.

Lemma send_fin_step e : keeps (on_st tun_book) (send_fin e).
Proof.
  intros s. exists (set_fin_requested true (tun s)). split; [by right|].
  unfold send_fin, trace, final. rewrite upd_bind.
  pose proof (do_send_fin_step e (set_tun (set_fin_requested true (tun s)) s)) as Hd.
  unfold on_st in Hd. rewrite tun_set in Hd. by apply Hd.
Qed.

Lemma retry_pending_fin_step e : keeps (on_st tun_step) (retry_pending_fin e).
Proof.
  intros s. unfold retry_pending_fin, trace, final. rewrite look_bind. unfold id.
  destruct (fin_requested (tun s)) eqn:Er; cbn [negb]; [|apply comp_refl].
  repeat case_bool; try apply comp_refl. by apply do_send_fin_step.
Qed.

Lemma maybe_resume_write_step e : keeps (on_st tun_step) (maybe_resume_write e).
Proof. unfold maybe_resume_write. walk. apply hs_resume. Qed.

Lemma on_send_step e d : keeps (on_st tun_step) (on_send e d).
Proof.
  unfold on_send. walk; auto using hs_shut, flush_cycle_step.
  by apply keeps_on_tun, kcp_send_step.
Qed.

Lemma send_data_step e d : keeps (on_st tun_step) (send_data e d).
Proof. unfold send_data. walk. apply on_send_step. Qed.

(** Registering a read adds one obligation for its handler. *)
Lemma on_async_read_some_step cap h (s : St) :
  let s' := final (on_async_read_some cap h) s in
  let ev := trace (on_async_read_some cap h) s in
  (forall h', (completions h' ev + pend h' (tun s') =
              pend h' (tun s) + if bool_decide (h' = h) then 1 else 0)%nat) /\
  (fins ev + Nat.b2n (fin_sent (tun s)) = Nat.b2n (fin_sent (tun s')))%nat /\
  ((0 < fins ev)%nat -> fin_enabled (tun s) = true /\ fin_requested (tun s) = true) /\
  (fin_enabled (tun s') = fin_enabled (tun s) /\ fin_requested (tun s') = fin_requested (tun s)) /\
  (peer_fin_received (tun s) = true -> peer_fin_received (tun s') = true) /\
  created_us (tun s') = created_us (tun s) /\ handshake_done (tun s') = handshake_done (tun s).
Proof.
  assert (Hone : forall ec h', completions h' [Complete h ec []] = if bool_decide (h' = h) then 1%nat else 0%nat).
  { intros ec h'. unfold completions. rewrite filter_cons, filter_nil.
    case_decide as Hc; simpl in Hc; case_bool_decide; simplify_eq; done. }
  assert (Hrej : forall ec, (forall h', (completions h' [Complete h ec []] + pend h' (tun s) =
            pend h' (tun s) + if bool_decide (h' = h) then 1 else 0)%nat)) by (intros; rewrite Hone; lia).
  unfold trace, final, on_async_read_some. rewrite gets_bind.
  destruct (is_active s); cbn [negb]; [|split_and!; try done; [apply Hrej | unfold fins; simpl; lia]].
  rewrite look_bind. destruct (pending_read_handler (tun s)) as [h0|] eqn:Ep;
    [split_and!; try done; [apply Hrej | unfold fins; simpl; lia]|].
  rewrite upd_bind, on_tun_run, tun_set. cbn [fst snd]. rewrite tun_set.
  set (t1 := set_pending_read_handler (Some h) (set_pending_read_buffer (Some cap) (tun s))).
  destruct (try_fulfill_step t1) as [R1 F1 O1 [E1 E2] P1 [C1 C2]]. split_and!; try done.
  intros h'. rewrite R1. unfold pend. rewrite Ep. simpl.
  repeat case_bool_decide; simplify_eq; done.
Qed.

Lemma feed_and_drain_step e d : keeps (on_st tun_step) (feed_and_drain e d).
Proof.
  unfold feed_and_drain. walk; [apply feed_kcp_input_step | | apply keeps_on_tun, try_fulfill_step
                               | apply maybe_resume_write_step].
  apply keeps_emit. intros s. unfold on_st. step_split.
Qed.

Lemma flush_due_step : keeps (on_st tun_step) (flush_due (St := St)).
Proof. unfold flush_due. walk. Qed.
End OutputAccounting.

(** ** Which events an operation can cause

    A predicate on events that holds of sends, completions and statistics and
    that the session's own functions respect holds of everything a tunnel
    operation emits. *)

Definition emits {S} (P : event -> Prop) (_ : S) (ev : list event) (_ : S) : Prop := Forall P ev.

#[export] Instance emits_comp {S} P : Compositional (emits (S := S) P).
Proof. split; unfold emits; [constructor | intros; by apply Forall_app]. Qed.

Section Events.
Context {A : Crypto.Aead} {K : Kcp} {F : FecCodec} {St : Type} {O : OutputHost St}.
Context (P : event -> Prop).
Context (P_send : forall from m ret, P (KcpSend from m ret)) (P_complete : forall h ec d, P (Complete h ec d)).
Context (P_stats : P StatsLine).

Lemma emits_on_tun {X} (m : M tunnel event X) : keeps (emits P) m -> keeps (emits (S := St) P) (on_tun m).
Proof.
  intros Hm s. unfold emits, trace, on_tun. specialize (Hm (tun s)). unfold emits, trace in Hm.
  by destruct (m (tun s)) as [[x t] ev].
Qed.

Lemma emits_modify {S} (f : S -> S) : keeps (emits P) (emodify f).
Proof. intros s. constructor. Qed.

Lemma emits_upd f : keeps (emits (S := St) P) (upd f).
Proof. apply emits_on_tun, emits_modify. Qed.

Lemma emits_emit {S} ev : P ev -> keeps (emits (S := S) P) (emit ev).
Proof. intros He s. by repeat constructor. Qed.

Ltac walk := repeat first [keeps_step | apply keeps_gets; apply _ | apply emits_upd | apply emits_modify].

Lemma emits_complete ec : keeps (emits P) (complete_pending_read ec).
Proof. intros t. unfold emits, trace, complete_pending_read. destruct (pending_read_handler t); by repeat constructor. Qed.

Lemma emits_kcp_send from d : keeps (emits P) (kcp_send from d).
Proof. intros t. unfold emits, trace, kcp_send. destruct (KcpWrapper.send _ _). by repeat constructor. Qed.

Lemma emits_loop fuel cap : keeps (emits P) (fulfill_loop fuel cap).
Proof.
  induction fuel as [|fuel IH]; cbn [fulfill_loop]; walk; auto using emits_complete.
  - intros t. unfold emits, trace, recv_fixed. destruct (KcpWrapper.recv_fixed _ _) as [[? ?] ?]. constructor.
  - intros t. unfold emits, trace, deliver. destruct (pending_read_handler t); by repeat constructor.
Qed.

Lemma emits_fulfill : keeps (emits P) try_fulfill_read.
Proof. apply keeps_fulfill; [apply _ | apply emits_loop]. Qed.

Lemma emits_stats e : keeps (emits P) (maybe_log_stats e).
Proof. intros t. unfold emits, trace, maybe_log_stats. case_bool; by repeat constructor. Qed.

Lemma emits_keepalive e : keeps (emits P) (maybe_send_keepalive e).
Proof. unfold maybe_send_keepalive. walk. apply emits_kcp_send. Qed.

Context (P_out : forall e d, keeps (emits (S := St) P) (handle_kcp_output e d)).
Context (P_batch : forall e ds, keeps (emits (S := St) P) (handle_kcp_output_batch e ds)).

Lemma emits_outputs e outs : keeps (emits (S := St) P) (deliver_outputs e outs).
Proof. unfold deliver_outputs, on_kcp_datagram, emit_output, look. walk; apply P_out. Qed.

Lemma emits_flush_cycle e ms : keeps (emits (S := St) P) (flush_cycle e ms).
Proof.
  unfold flush_cycle, begin_output_batch, kcp_update, kcp_flush, end_output_batch, look. walk;
    auto using emits_outputs.
Qed.

Lemma emits_feed e d : keeps (emits (S := St) P) (feed_kcp_input e d).
Proof.
  unfold feed_kcp_input, feed_decoder, feed_rebuilt, kcp_input, look. walk; auto using emits_outputs.
Qed.

Context {H : Host St}.
Context (P_resume : forall e hook, keeps (emits (S := St) P) (run_resume e hook)).

Lemma emits_do_send_fin e : keeps (emits (S := St) P) (do_send_fin e).
Proof.
  unfold do_send_fin, look. walk; auto using emits_flush_cycle, emits_on_tun, emits_kcp_send.
Qed.

Lemma emits_send_fin e : keeps (emits (S := St) P) (send_fin e).
Proof. unfold send_fin. walk. apply emits_do_send_fin. Qed.

Lemma emits_retry_fin e : keeps (emits (S := St) P) (retry_pending_fin e).
Proof. unfold retry_pending_fin, look. walk; apply emits_do_send_fin. Qed.

Lemma emits_resume e : keeps (emits (S := St) P) (maybe_resume_write e).
Proof. unfold maybe_resume_write, look. walk. apply P_resume. Qed.
End Events.

(** ** What the base class leaves to the derived one

    A relation that ignores the base object and the events the base class
    emits by itself, and that the virtual functions keep, is kept by every
    operation of the base class. *)

Definition base_event (ev : event) : Prop :=
  match ev with KcpSend _ _ _ | Complete _ _ _ | StatsLine => True | _ => False end.

Class BaseFrame {A : Crypto.Aead} {K : Kcp} {F : FecCodec} {St : Type} {O : OutputHost St}
    (R : St -> list event -> St -> Prop) : Prop := {
  frame_comp :: Compositional R;
  frame_base t s ev : Forall base_event ev -> R s ev (set_tun t s) }.

Class OutputFrame {A : Crypto.Aead} {K : Kcp} {F : FecCodec} {St : Type} {O : OutputHost St}
    (R : St -> list event -> St -> Prop) : Prop := {
  frame_out e d : keeps R (handle_kcp_output e d);
  frame_batch e ds : keeps R (handle_kcp_output_batch e ds) }.

Class HostFrame {A : Crypto.Aead} {K : Kcp} {F : FecCodec} {St : Type} {O : OutputHost St} {H : Host St}
    (R : St -> list event -> St -> Prop) : Prop := {
  frame_shut e : keeps R (shut_down e);
  frame_resume e hook : keeps R (run_resume e hook) }.

Section Frame.
Context {A : Crypto.Aead} {K : Kcp} {F : FecCodec} {St : Type} {O : OutputHost St}.
Context (R : St -> list event -> St -> Prop) {BF : BaseFrame R}.

Lemma frame_tun {X} (m : M tunnel event X) : keeps (emits base_event) m -> keeps R (on_tun m).
Proof. intros Hm s. unfold trace, final. rewrite on_tun_run. apply frame_base, Hm. Qed.

Lemma frame_upd f : keeps R (upd f).
Proof. apply frame_tun. intros t. constructor. Qed.

Lemma frame_look {X} (f : tunnel -> X) : keeps R (look f).
Proof. apply keeps_gets, _. Qed.

Ltac walk := repeat first [keeps_step | apply frame_look | apply frame_upd].

Lemma frame_fulfill : keeps R (on_tun try_fulfill_read).
Proof. by apply frame_tun, emits_fulfill. Qed.

Context {OF : OutputFrame R}.

Lemma frame_outputs e outs : keeps R (deliver_outputs e outs).
Proof. unfold deliver_outputs, on_kcp_datagram, emit_output. walk; apply frame_out. Qed.

Lemma frame_input e d : keeps R (kcp_input e d).
Proof. unfold kcp_input. walk. apply frame_outputs. Qed.

Lemma frame_flush_cycle e ms : keeps R (flush_cycle e ms).
Proof.
  unfold flush_cycle, begin_output_batch, kcp_update, kcp_flush, end_output_batch. walk;
    first [apply frame_outputs | apply frame_batch].
Qed.

Lemma frame_feed e d : keeps R (feed_kcp_input e d).
Proof. unfold feed_kcp_input, feed_decoder, feed_rebuilt. walk; apply frame_input. Qed.

Lemma frame_flush_due : keeps R (flush_due (St := St)).
Proof. unfold flush_due. walk. Qed.

Context {H : Host St}.

Lemma frame_do_send_fin e : keeps R (do_send_fin e).
Proof.
  unfold do_send_fin. walk; [by apply frame_tun, emits_kcp_send | apply frame_flush_cycle].
Qed.

Lemma frame_send_fin e : keeps R (send_fin e).
Proof. unfold send_fin. walk. apply frame_do_send_fin. Qed.

Lemma frame_retry_fin e : keeps R (retry_pending_fin e).
Proof. unfold retry_pending_fin. walk; apply frame_do_send_fin. Qed.

Context {SO : SubObject St}.

Lemma frame_event ev : base_event ev -> keeps R (emit ev).
Proof.
  intros He s. unfold trace, final. simpl. rewrite <- (set_tun_tun s) at 2.
  apply frame_base. by repeat constructor.
Qed.

Lemma frame_read_some cap h : keeps R (on_async_read_some cap h).
Proof. unfold on_async_read_some. walk; first [by apply frame_event | apply frame_fulfill]. Qed.

Context {HF : HostFrame R}.

Lemma frame_maybe_resume e : keeps R (maybe_resume_write e).
Proof. unfold maybe_resume_write. walk. apply frame_resume. Qed.

Lemma frame_send_data e d : keeps R (send_data e d).
Proof.
  unfold send_data, on_send. walk;
    first [by apply frame_tun, emits_kcp_send | apply frame_shut | apply frame_flush_cycle].
Qed.

Lemma frame_feed_and_drain e d :
  (forall ret n, keeps R (emit (InputRejected ret n))) -> keeps R (feed_and_drain e d).
Proof.
  intros Hr. unfold feed_and_drain. walk;
    first [apply frame_feed | apply Hr | apply frame_fulfill | apply frame_maybe_resume].
Qed.
End Frame.

(** The walk over an operation in the middle of a frame proof. *)
Ltac frame_walk :=
  repeat first [keeps_step | apply frame_look; apply _ | apply frame_upd; apply _ | by intros ?].
