(* ===== verification/Flow.v ===== *)
(** * Flow: what a tunnel lets through

    The relation [flow] follows a tunnel across any operation: which calls
    into the KCP library it made, that the messages it queued are the ones the
    trace says, that the datagrams it fed were allowed, that every packet it
    put on the wire seals a datagram KCP put out, and that what its readers
    got are the messages it received, without the control messages. With the
    error correction on, what goes out are the shards of those datagrams, and
    what is fed comes out of shards that were allowed or was rebuilt from
    them. The relation is established for every operation of [KcpTunnel]
    against the interface of the concrete sessions ([OutputFlow],
    [HostFlow]). *)

From Stdlib Require Import ZArith Lia.
From stdpp Require Import base list strings.
From S2P Require Import Prelude Config Effects Kcp Tunnel TunnelProofs History Coding.
From S2P Require Crypto.

(** ** What a trace shows *)

(** The messages KCP accepted. *)
Definition queued (ev : list event) : list (list Z) :=
  omap (fun x => match x with KcpSend _ m ret => if ret <? 0 then None else Some m | _ => None end) ev.

(** Those that are not the tunnel's own keepalives and FINs. *)
Definition offered (ev : list event) : list (list Z) :=
  omap (fun x => match x with
                 | KcpSend (FromApp | FromHello) m ret => if ret <? 0 then None else Some m
                 | _ => None end) ev.

(** The packets handed to the socket. *)
Definition on_wire (ev : list event) : list (list Z) :=
  flat_map (fun x => match x with Wire ds => ds | _ => [] end) ev.

(** The data handed to readers. *)
Definition delivered (ev : list event) : list (list Z) :=
  omap (fun x => match x with
                 | Complete _ ec d => if bool_decide (ec = ec_none) then Some d else None
                 | _ => None end) ev.

(** Some read failed because its message did not fit: the message is gone. *)
Definition overrun (ev : list event) : bool :=
  existsb (fun x => match x with Complete _ ec _ => bool_decide (ec = ec_message_size) | _ => false end) ev.

Lemma queued_app e1 e2 : queued (e1 ++ e2) = queued e1 ++ queued e2.
Proof. apply omap_app. Qed.
Lemma offered_app e1 e2 : offered (e1 ++ e2) = offered e1 ++ offered e2.
Proof. apply omap_app. Qed.
Lemma offered_nil ev : queued ev = [] -> offered ev = [].
Proof.
  induction ev as [|x ev IH]; [done|]. unfold queued, offered in *. simpl.
  destruct x as [[] m ret| | | | | | | | | | | | | | | | |]; simpl; try done; destruct (ret <? 0); auto; done.
Qed.
Lemma on_wire_app e1 e2 : on_wire (e1 ++ e2) = on_wire e1 ++ on_wire e2.
Proof. apply flat_map_app. Qed.
Lemma delivered_app e1 e2 : delivered (e1 ++ e2) = delivered e1 ++ delivered e2.
Proof. apply omap_app. Qed.
Lemma overrun_app e1 e2 : overrun (e1 ++ e2) = overrun e1 || overrun e2.
Proof. apply existsb_app. Qed.

(** The messages of a session that are not its own control messages. *)
Definition payload (salt m : list Z) : Prop :=
  m <> KCP_CONTROL_KEEPALIVE ++ salt /\ m <> KCP_CONTROL_FIN ++ salt.
#[export] Instance payload_dec salt m : Decision (payload salt m).
Proof. unfold payload. apply _. Defined.

(** What the codec did over a stretch: the datagrams it was given, the units
    that came out, the units it heard, the shards it rebuilt. *)
Record code := mkCode {
  given : list (list Z);
  units : list (list Z);
  heard : list (list Z);
  rebuilt : list (list Z) }.
Definition code_nil : code := mkCode [] [] [] [].
Definition code_app (a b : code) : code :=
  mkCode (given a ++ given b) (units a ++ units b) (heard a ++ heard b) (rebuilt a ++ rebuilt b).

(** What an operation may have been handed by its caller: datagrams of KCP to
    send, units to put on the wire, shards that were rebuilt. *)
Inductive source_kind : Type := Datagram | Unit | Rebuilt.
Abbreviation source := (source_kind -> list Z -> Prop).
Definition no_source : source := fun _ _ => False.
Definition grown_source (src : source) (o : obs) (c : code) : source := fun k d =>
  src k d \/ d ∈ match k with Datagram => emitted o | Unit => units c | Rebuilt => rebuilt c end.

(** What a stretch without observations owes. *)
Ltac idle :=
  try first [done | apply khist_nil | apply coding_nil | apply decodes_nil | by intros ? ?%elem_of_nil | by auto].

Section Flow.
Context {A : Crypto.Aead} {AL : Crypto.AeadLaws A} {K : Kcp} {F : FecCodec}.

(** The secret and the salt of the session, and the direction it sends in. *)
Variables (psk salt : list Z) (dir peer : Z).

(** The units this end may be given. *)
Variable admitted : list Z -> Prop.

Record end_inv (t : tunnel) : Prop := {
  ei_keyed : Crypto.keyed psk salt (t_crypto t);
  ei_salt : length salt = SESSION_SALT_SIZE;
  ei_local : Crypto.local_direction (t_crypto t) = dir;
  ei_peer : Crypto.peer_direction (t_crypto t) = peer;
  ei_counter : 0 <= Crypto.encrypt_counter (t_crypto t) }.

(** A packet this end produces, and the datagram inside. *)
Definition seals (p d : list Z) : Prop :=
  exists n, 0 <= n < 2 ^ 64 /\ p = Crypto.sealed psk salt dir n d.

(** Where a datagram fed to KCP may come from: without a decoder it is a unit
    itself, with one it is the body of a data shard or was rebuilt. *)
Definition fed_from (dec : option dec_state) (rb : list Z -> Prop) (d : list Z) : Prop :=
  match dec with
  | None => admitted d
  | Some _ => (exists u, admitted u /\ data_shard u = true /\ d = drop 8 u) \/ (exists r, rb r /\ carried r = Some d)
  end.

(** One stretch of a tunnel's life, with what [src] says it was handed in
    addition to what KCP put out and the batch it had begun. *)
Record flow_obs (src : source) (o : obs) (c : code) (t : tunnel) (ev : list event) (t' : tunnel) : Prop := {
  fl_kcp : khist (KcpWrapper.kcp (t_kcp t)) o (KcpWrapper.kcp (t_kcp t'));
  fl_sent : sent o = queued ev;
  fl_own : filter (payload salt) (queued ev) = filter (payload salt) (offered ev);
  fl_code : coding (fec_encoder t) (given c) (units c) (fec_encoder t');
  fl_given d : d ∈ given c -> d ∈ emitted o \/ src Datagram d;
  fl_dec : decodes (fec_decoder t) (heard c) (rebuilt c) (fec_decoder t');
  fl_heard : Forall admitted (heard c);
  fl_fed d : d ∈ fed o -> fed_from (fec_decoder t) (fun r => r ∈ rebuilt c \/ src Rebuilt r) d;
  fl_batch u : u ∈ out_batch t' -> u ∈ units c \/ u ∈ out_batch t \/ src Unit u;
  fl_wire p : p ∈ on_wire ev -> exists u, seals p u /\ (u ∈ units c \/ u ∈ out_batch t \/ src Unit u);
  fl_read : overrun ev = false -> delivered ev = filter (payload salt) (received o) }.

Definition flow (src : source) (t : tunnel) (ev : list event) (t' : tunnel) : Prop :=
  end_inv t -> end_inv t' /\ exists o c, flow_obs src o c t ev t'.

Lemma fed_from_mono x us rs y (rb1 rb2 : list Z -> Prop) d :
  decodes x us rs y -> (forall r, rb1 r -> rb2 r) -> fed_from y rb1 d -> fed_from x rb2 d.
Proof.
  intros Hd Hr. pose proof (decodes_present _ _ _ _ Hd) as Hp.
  destruct x as [x|], y as [y|]; simpl; try done.
  - intros [?|(r & H1 & H2)]; [by left|]. right. exists r. auto.
  - by destruct (proj2 Hp (ex_intro _ x eq_refl)).
  - by destruct (proj1 Hp (ex_intro _ y eq_refl)).
Qed.

#[export] Instance flow_comp src : Compositional (flow src).
Proof.
  split.
  - intros t Hi. split; [done|]. exists obs_nil, code_nil.
    split; simpl; idle.
  - intros t t1 t2 e1 e2 H1 H2 Hi. destruct (H1 Hi) as (Hi1 & o1 & c1 & [K1 S1 O1 C1 G1 D1 A1 F1 B1 W1 R1]).
    destruct (H2 Hi1) as (Hi2 & o2 & c2 & [K2 S2 O2 C2 G2 D2 A2 F2 B2 W2 R2]). split; [done|].
    exists (obs_app o1 o2), (code_app c1 c2).
    assert (Hsrc : forall u, u ∈ units c2 \/ u ∈ out_batch t1 \/ src Unit u ->
                    u ∈ units (code_app c1 c2) \/ u ∈ out_batch t \/ src Unit u).
    { intros d. simpl. rewrite elem_of_app. intros [Hd|[Hd|Hd]]; [by auto | | by auto].
      destruct (B1 d Hd) as [?|[?|?]]; auto. }
    split; simpl.
    + by eapply khist_app.
    + by rewrite S1, S2, queued_app.
    + by rewrite queued_app, offered_app, !filter_app, O1, O2.
    + by eapply coding_app.
    + intros d. rewrite !elem_of_app. intros [Hd|Hd]; [destruct (G1 d Hd) | destruct (G2 d Hd)]; auto.
    + by eapply decodes_app.
    + by apply Forall_app.
    + intros d [Hd|Hd]%elem_of_app; [eapply fed_from_mono; [constructor | | by apply F1]
        | eapply fed_from_mono; [exact D1 | | by apply F2]]; intros r; rewrite elem_of_app; tauto.
    + intros d Hd. by apply Hsrc, B2.
    + intros p. rewrite on_wire_app. intros [Hp|Hp]%elem_of_app.
      * destruct (W1 p Hp) as (d & Hd & Hs). exists d. split; [done|]. rewrite elem_of_app. tauto.
      * destruct (W2 p Hp) as (d & Hd & Hs). exists d. split; [done|]. by apply Hsrc.
    + rewrite overrun_app. intros [Ho1 Ho2]%orb_false_iff.
      by rewrite delivered_app, filter_app, R1, R2.
Qed.

(** ** Steps that are not calls into the library *)

(** A step with no observation: it leaves KCP and the batch alone, and the
    trace shows nothing the relation counts. *)
Lemma flow_quiet src t ev t' :
  (end_inv t -> end_inv t') -> t_kcp t' = t_kcp t -> out_batch t' = out_batch t ->
  fec_encoder t' = fec_encoder t -> fec_decoder t' = fec_decoder t ->
  queued ev = [] -> on_wire ev = [] -> (overrun ev = false -> delivered ev = []) -> flow src t ev t'.
Proof.
  intros Hi Hk Hb He Hdec Hq Hw Hd Hinv. split; [by apply Hi|]. exists obs_nil, code_nil.
  split; simpl; rewrite ?Hk, ?He, ?Hdec, ?Hb, ?Hw; idle. by rewrite Hq, offered_nil.
Qed.

(** Updates of members outside the relation. *)
Lemma flow_benign src (f : tunnel -> tunnel) :
  (forall t, t_kcp (f t) = t_kcp t /\ out_batch (f t) = out_batch t /\ t_crypto (f t) = t_crypto t /\
             fec_encoder (f t) = fec_encoder t /\ fec_decoder (f t) = fec_decoder t) ->
  forall t, flow src t [] (f t).
Proof.
  intros Hf t. destruct (Hf t) as (Hk & Hb & Hc & He & Hd). apply flow_quiet; try done.
  intros [I1 I2 I3 I4 I5]. split; congruence.
Qed.

Lemma flow_complete src ec : ec <> ec_none -> keeps (flow src) (complete_pending_read ec).
Proof.
  intros Hec t. unfold keeps, trace, final, complete_pending_read. destruct (pending_read_handler t); simpl.
  - apply flow_quiet; try done; [by intros [] |]. intros _. unfold delivered. simpl.
    by rewrite bool_decide_eq_false_2.
  - apply comp_refl.
Qed.

Lemma flow_log src e : keeps (flow src) (maybe_log_stats e).
Proof.
  intros t. unfold keeps, trace, final, maybe_log_stats. case_bool; [|apply comp_refl].
  apply flow_quiet; try done. by intros [].
Qed.

(** ** Calls into the library *)

(** A step observed as [o1] and [c1]; what follows may use what it yields. *)
Lemma flow_absorb src o1 c1 t t1 ev t' :
  khist (KcpWrapper.kcp (t_kcp t)) o1 (KcpWrapper.kcp (t_kcp t1)) ->
  sent o1 = [] -> received o1 = [] ->
  coding (fec_encoder t) (given c1) (units c1) (fec_encoder t1) -> Forall (src Datagram) (given c1) ->
  decodes (fec_decoder t) (heard c1) (rebuilt c1) (fec_decoder t1) -> Forall admitted (heard c1) ->
  Forall (fed_from (fec_decoder t) (src Rebuilt)) (fed o1) ->
  (end_inv t -> end_inv t1) -> out_batch t1 = out_batch t ->
  flow (grown_source src o1 c1) t1 ev t' -> flow src t ev t'.
Proof.
  intros Hk Hs Hr Hc Hg Hd Ha Hf Hi Hb Hfl Hinv.
  destruct (Hfl (Hi Hinv)) as (Hinv' & o & c & [K1 S1 O1 C1 G1 D1 A1 F1 B1 W1 R1]).
  rewrite list.Forall_forall in Hg, Hf. split; [done|]. exists (obs_app o1 o), (code_app c1 c).
  assert (Hsrc : forall u, u ∈ units c \/ u ∈ out_batch t1 \/ grown_source src o1 c1 Unit u ->
                  u ∈ units (code_app c1 c) \/ u ∈ out_batch t \/ src Unit u).
  { intros u. unfold grown_source. rewrite Hb. simpl. rewrite elem_of_app. tauto. }
  split; simpl.
  - by eapply khist_app.
  - by rewrite Hs.
  - done.
  - by eapply coding_app.
  - intros d. rewrite !elem_of_app. intros [Hin|Hin]; [by auto|]. destruct (G1 d Hin) as [?|[?|?]]; auto.
  - by eapply decodes_app.
  - by apply Forall_app.
  - intros d [Hin|Hin]%elem_of_app; [eapply fed_from_mono; [constructor | | by apply Hf]; auto|].
    eapply fed_from_mono; [exact Hd | | by apply F1]. intros r. unfold grown_source. rewrite elem_of_app. tauto.
  - intros d Hin. by apply Hsrc, B1.
  - intros p Hp. destruct (W1 p Hp) as (d & Hseal & Hs'). exists d. split; [done|]. by apply Hsrc.
  - by rewrite Hr.
Qed.

(** The batch is handed over: its units become the source. *)
Lemma flow_release src t ev t' :
  flow (fun k u => k = Unit /\ u ∈ out_batch t) (set_out_batch [] t) ev t' -> flow src t ev t'.
Proof.
  intros Hfl Hinv. destruct Hfl as (Hinv' & o & c & [K1 S1 O1 C1 G1 D1 A1 F1 B1 W1 R1]); [by destruct Hinv|].
  simpl in *. split; [done|]. exists o, c. split; try done.
  - intros d Hd. destruct (G1 d Hd) as [?|[[=] _]]; auto.
  - intros d Hd. eapply fed_from_mono; [constructor | | by apply F1]. intros r [?|[[=] _]]; auto.
  - intros u Hu. destruct (B1 u Hu) as [?|[?%elem_of_nil|[_ ?]]]; auto; done.
  - intros p Hp. destruct (W1 p Hp) as (d & Hd & [?|[?%elem_of_nil|[_ ?]]]); exists d; split; auto; done.
Qed.

Lemma control_not_payload t magic :
  end_inv t -> magic = KCP_CONTROL_KEEPALIVE \/ magic = KCP_CONTROL_FIN ->
  ~ payload salt (build_control_payload magic t).
Proof.
  intros Hi Hm [H1 H2]. destruct (ei_keyed t Hi) as (_ & Hs & _). unfold build_control_payload in *.
  rewrite Hs in *. destruct Hm as [-> | ->]; done.
Qed.

(** A message is the caller's own, or one of the tunnel's control messages. *)
Lemma flow_kcp_send src from d t :
  (end_inv t -> from = FromKeepalive \/ from = FromFin -> ~ payload salt d) ->
  flow src t (trace (kcp_send from d) t) (final (kcp_send from d) t).
Proof.
  intros Hd. unfold trace, final, kcp_send, KcpWrapper.send.
  destruct (Send d (KcpWrapper.kcp (t_kcp t))) as [k ret] eqn:E. simpl. intros Hinv.
  split; [by destruct Hinv|]. exists (mkObs (if ret <? 0 then [] else [d]) [] [] []), code_nil.
  pose proof (kcall_send d (KcpWrapper.kcp (t_kcp t))) as Hc. rewrite E in Hc. simpl in Hc.
  split; simpl; idle.
  - by apply khist_one.
  - unfold queued. simpl. by destruct (ret <? 0).
  - unfold queued, offered. simpl. destruct from; [done | | | done]; destruct (ret <? 0); try done;
      rewrite filter_cons_False, filter_nil; auto.
Qed.

Lemma flow_nodelay src e t : flow src t [] (apply_rto_floor e t).
Proof.
  unfold apply_rto_floor. destruct (e_rto_gate e) as [b|]; [|apply comp_refl].
  case_bool; [apply comp_refl|]. eapply (flow_absorb src obs_nil code_nil _ _ []);
    [| done | done | | | | | | | | apply comp_refl]; simpl; idle; [apply khist_one; constructor | by intros []].
Qed.

Lemma flow_keepalive src e : keeps (flow src) (maybe_send_keepalive e).
Proof.
  intros t. unfold maybe_send_keepalive. rewrite trace_gets, final_gets. unfold id.
  destruct (negb (handshake_done t)); [apply comp_refl|]. destruct (_ || _); [apply comp_refl|].
  rewrite trace_bind, final_bind. eapply (comp_trans (R := flow src)).
  - apply flow_kcp_send. intros Hi _. apply control_not_payload; auto.
  - apply (keeps_when (flow src) _ (emodify _)), keeps_modify, flow_benign. by intros.
Qed.

(** ** The read loop *)

(** Taking one message: it is observed, and nothing else changes. *)
Lemma recv_fixed_obs t :
  let '((size, data), t1, ev) := recv_fixed t in
  ev = [] /\ t1 = set_kcp (t_kcp t1) t /\
  khist (KcpWrapper.kcp (t_kcp t)) (mkObs [] (if 0 <? size then [data] else []) [] [])
    (KcpWrapper.kcp (t_kcp t1)).
Proof.
  unfold recv_fixed, KcpWrapper.recv_fixed. destruct (t_kcp t) as [k ms up] eqn:Ek. simpl.
  destruct (PeekSize k <=? 0); [split_and!; [done | done | constructor]|].
  destruct (_ <? _)%nat; [split_and!; [done | done | constructor]|].
  pose proof (kcall_recv (Z.to_nat (PeekSize k)) k) as Hc.
  destruct (Recv (Z.to_nat (PeekSize k)) k) as [[k' got] buf]. simpl in *.
  split_and!; [done | done | by apply khist_one].
Qed.

(** Dropping a message that does not fit any buffer. *)
Lemma recv_oversized_obs t :
  exists ms, khist (KcpWrapper.kcp (t_kcp t)) (mkObs [] ms [] [])
    (KcpWrapper.kcp (t_kcp (final recv_oversized t))) /\
  trace recv_oversized t = [] /\ final recv_oversized t = set_kcp (t_kcp (final recv_oversized t)) t.
Proof.
  unfold recv_oversized, final, trace, KcpWrapper.recv_vector. simpl.
  destruct (t_kcp t) as [k mz up]. simpl. case_bool; simpl; [exists []; split_and!; [constructor | done | done]|].
  pose proof (kcall_recv (Z.to_nat (PeekSize k)) k) as Hc.
  destruct (Recv (Z.to_nat (PeekSize k)) k) as [[k' got] buf]. simpl in *.
  eexists. case_bool; simpl; split_and!; by try apply khist_one.
Qed.

(** A stretch that only receives. *)
Lemma flow_received src ms t ev t' :
  khist (KcpWrapper.kcp (t_kcp t)) (mkObs [] ms [] []) (KcpWrapper.kcp (t_kcp t')) ->
  (end_inv t -> end_inv t') -> out_batch t' = out_batch t ->
  fec_encoder t' = fec_encoder t -> fec_decoder t' = fec_decoder t ->
  queued ev = [] -> on_wire ev = [] ->
  (end_inv t -> overrun ev = false -> delivered ev = filter (payload salt) ms) -> flow src t ev t'.
Proof.
  intros Hk Hi Hb He Hdec Hq Hw Hd Hinv. split; [by apply Hi|]. exists (mkObs [] ms [] []), code_nil.
  split; simpl; rewrite ?He, ?Hdec, ?Hb, ?Hw; idle. by rewrite Hq, offered_nil.
Qed.

(** A completion that carries no data: a message received with it must be a
    control message or be lost on record. *)
Lemma flow_complete_with src ms ec h t w (f : tunnel -> tunnel) :
  khist (KcpWrapper.kcp (t_kcp t)) (mkObs [] ms [] []) (KcpWrapper.kcp w) ->
  (forall t, t_kcp (f t) = t_kcp t /\ out_batch (f t) = out_batch t /\ t_crypto (f t) = t_crypto t /\
             fec_encoder (f t) = fec_encoder t /\ fec_decoder (f t) = fec_decoder t /\
             pending_read_handler (f t) = pending_read_handler t) ->
  pending_read_handler t = Some h -> ec <> ec_none ->
  (ec = ec_message_size \/ (end_inv t -> filter (payload salt) ms = [])) ->
  flow src t (trace (complete_pending_read ec) (f (set_kcp w t)))
    (final (complete_pending_read ec) (f (set_kcp w t))).
Proof.
  intros Hk Hf Hh Hec Hm. destruct (Hf (set_kcp w t)) as (Ek & Eb & Ec & Ee & Ed & Eh).
  simpl in Ek, Eb, Ec, Ee, Ed, Eh. unfold trace, final, complete_pending_read. rewrite Eh, Hh. simpl.
  apply (flow_received src ms); simpl; try done; [by rewrite Ek | |].
  - intros [I1 I2 I3 I4 I5]. split; simpl; congruence.
  - intros Hi. unfold overrun, delivered. simpl. rewrite (bool_decide_eq_false_2 (ec = ec_none)) by done.
    destruct Hm as [->|Hm]; [done|]. by rewrite Hm.
Qed.

Lemma payload_spec m t :
  end_inv t -> payload salt m <-> is_keepalive m t = false /\ is_peer_fin m t = false.
Proof.
  intros Hi. destruct (ei_keyed t Hi) as (_ & Hsalt & _).
  unfold payload. rewrite is_keepalive_decide, is_peer_fin_decide, !bool_decide_eq_false.
  unfold build_keepalive_payload, build_control_payload. by rewrite Hsalt.
Qed.

Lemma filter_control m t :
  end_inv t -> is_keepalive m t = true \/ is_peer_fin m t = true -> filter (payload salt) [m] = [].
Proof.
  intros Hi Hm. rewrite filter_cons_False, filter_nil; [done|].
  rewrite (payload_spec m t Hi). destruct Hm as [->| ->]; by intros [].
Qed.

Lemma flow_loop src cap h fuel : forall t,
  pending_read_handler t = Some h ->
  flow src t (trace (fulfill_loop fuel cap) t) (final (fulfill_loop fuel cap) t).
Proof.
  induction fuel as [|fuel IH]; intros t Hh; [apply comp_refl|]. cbn [fulfill_loop].
  rewrite trace_bind, final_bind. pose proof (recv_fixed_obs t) as Hr. unfold result, trace, final in *.
  destruct (recv_fixed t) as [[[size data] t1] ev]. destruct Hr as (-> & Et & Hk). simpl in *.
  revert Et Hk. generalize (t_kcp t1). intros w -> Hk. simpl in Hk. simpl.
  destruct (size =? KcpWrapper.KCP_RECV_MSG_TOO_BIG) eqn:Ebig.
  { destruct (recv_oversized_obs (set_kcp w t)) as (ms & Hk2 & Etr & Efi).
    set (t2 := final recv_oversized (set_kcp w t)) in *.
    change (flow src t (trace (recv_oversized ;;; complete_pending_read ec_message_size ;;; eret true) (set_kcp w t))
              (final (recv_oversized ;;; complete_pending_read ec_message_size ;;; eret true) (set_kcp w t))).
    rewrite trace_bind, final_bind, trace_then_ret, final_then_ret. fold t2. rewrite Etr. simpl. rewrite Efi.
    apply (flow_complete_with src _ _ h t _ id (khist_app _ _ _ _ _ Hk Hk2)); auto; done. }
  destruct (size <=? 0) eqn:Esz; zb_props.
  { rewrite (proj2 (Z.ltb_ge _ _)) in Hk by lia. apply (flow_received src []); simpl; try done.
    by intros []. }
  rewrite (proj2 (Z.ltb_lt _ _)) in Hk by lia. rewrite gets_bind.
  assert (Hi1 : end_inv t -> end_inv (set_kcp w t)) by (by intros []).
  destruct (is_keepalive data (set_kcp w t)) eqn:Eka.
  { apply (comp_trans (R := flow src) t (set_kcp w t) _ [] _); [|by apply IH].
    apply (flow_received src [data]); simpl; try done.
    intros Hi _. symmetry. apply (filter_control _ (set_kcp w t)); auto. }
  rewrite gets_bind. destruct (is_peer_fin data (set_kcp w t)) eqn:Efin.
  { rewrite modify_bind. fold (trace (complete_pending_read ec_eof ;;; eret true) (set_peer_fin_received true (set_kcp w t))).
    fold (final (complete_pending_read ec_eof ;;; eret true) (set_peer_fin_received true (set_kcp w t))).
    rewrite trace_then_ret, final_then_ret.
    apply (flow_complete_with src _ _ h t _ (set_peer_fin_received true) Hk); auto; try done.
    right. intros Hi. apply (filter_control _ (set_kcp w t)); auto. }
  destruct (_ <? _)%nat.
  { fold (trace (complete_pending_read ec_message_size ;;; eret true) (set_kcp w t)).
    fold (final (complete_pending_read ec_message_size ;;; eret true) (set_kcp w t)).
    rewrite trace_then_ret, final_then_ret. by apply (flow_complete_with src _ _ h t _ id Hk); auto. }
  unfold ebind, deliver. simpl. rewrite Hh. simpl. apply (flow_received src [data]); simpl; try done; [by intros []|].
  intros Hi _. rewrite filter_cons_True, filter_nil; [done|]. by apply (payload_spec _ (set_kcp w t)); auto.
Qed.

Lemma flow_fulfill src : keeps (flow src) try_fulfill_read.
Proof.
  intros t. unfold try_fulfill_read, trace, final.
  destruct (pending_read_handler t) as [h|] eqn:Eh; [|apply comp_refl].
  destruct (pending_read_buffer t) as [cap|]; [|apply comp_refl].
  pose proof (flow_loop src cap h (S (length (KcpWrapper.queue (t_kcp t)))) t Eh) as H. unfold trace, final in H.
  by destruct (fulfill_loop _ cap t) as [[l t'] ev].
Qed.
End Flow.

(** ** Against the interface of the concrete sessions *)

(** What a session promises for its output path, for its teardown and for
    its parked loop. *)
Class OutputFlow {A : Crypto.Aead} {K : Kcp} {F : FecCodec} (psk salt : list Z) (dir peer : Z)
    (admitted : list Z -> Prop) (St : Type) {O : OutputHost St} : Prop := {
  of_output (src : source) e d : src Unit d ->
    keeps (on_st (flow psk salt dir peer admitted src)) (handle_kcp_output e d);
  of_batch (src : source) e ds : Forall (src Unit) ds ->
    keeps (on_st (flow psk salt dir peer admitted src)) (handle_kcp_output_batch e ds) }.

Class HostFlow {A : Crypto.Aead} {K : Kcp} {F : FecCodec} (psk salt : list Z) (dir peer : Z)
    (admitted : list Z -> Prop) (St : Type) {O : OutputHost St} {H : Host St} : Prop := {
  hf_shut src e : keeps (on_st (flow psk salt dir peer admitted src)) (shut_down e);
  hf_resume src e hook : keeps (on_st (flow psk salt dir peer admitted src)) (run_resume e hook) }.

Section HostFlow.
Context {A : Crypto.Aead} {AL : Crypto.AeadLaws A} {K : Kcp} {F : FecCodec}.
Context {St : Type} {O : OutputHost St} {SO : SubObject St}.
Context (psk salt : list Z) (dir peer : Z) (admitted : list Z -> Prop).
Context {OF : OutputFlow psk salt dir peer admitted St}.

Abbreviation fl src := (on_st (St := St) (flow psk salt dir peer admitted src)).

Lemma fl_tun {X} src (m : M tunnel event X) :
  keeps (flow psk salt dir peer admitted src) m -> keeps (fl src) (on_tun m).
Proof. intros Hm s. unfold on_st, trace, final. rewrite on_tun_run. simpl. rewrite tun_set. apply Hm. Qed.

Lemma fl_upd src f : (forall t, flow psk salt dir peer admitted src t [] (f t)) -> keeps (fl src) (upd f).
Proof. intros Hf. apply fl_tun, keeps_modify, Hf. Qed.

Lemma fl_look {X} src (f : tunnel -> X) : keeps (fl src) (look f).
Proof. apply keeps_gets, _. Qed.

Ltac benign := apply fl_upd, flow_benign; by intros.
Ltac walk := repeat first [keeps_step | apply fl_look | benign].

(** An event the relation does not count. *)
Lemma fl_emit src ev :
  queued [ev] = [] -> on_wire [ev] = [] -> delivered [ev] = [] -> keeps (fl src) (emit ev).
Proof. intros H1 H2 H3 s. by apply flow_quiet. Qed.

(** Units of the source go to the batch or out. *)
Lemma fl_emit_output (src : source) e d : src Unit d -> keeps (fl src) (emit_output e d).
Proof.
  intros Hd. unfold emit_output. walk; [by apply of_output|].
  apply fl_upd. intros t Hi. split; [by destruct Hi|]. exists obs_nil, code_nil.
  split; simpl; idle.
  intros x [Hx|Hx]%elem_of_app; [by auto|]. apply list_elem_of_singleton in Hx as ->. auto.
Qed.

(** A step on the base object that is observed, then a computation that may
    use what it yields. *)
Lemma fl_observed {X} src o1 c1 (f : tunnel -> tunnel) (k : M St event X) (s : St) :
  let t := tun s in
  khist (KcpWrapper.kcp (t_kcp t)) o1 (KcpWrapper.kcp (t_kcp (f t))) -> sent o1 = [] -> received o1 = [] ->
  coding (fec_encoder t) (given c1) (units c1) (fec_encoder (f t)) -> Forall (src Datagram) (given c1) ->
  decodes (fec_decoder t) (heard c1) (rebuilt c1) (fec_decoder (f t)) -> Forall admitted (heard c1) ->
  Forall (fed_from admitted (fec_decoder t) (src Rebuilt)) (fed o1) ->
  t_crypto (f t) = t_crypto t -> out_batch (f t) = out_batch t ->
  keeps (fl (grown_source src o1 c1)) k ->
  fl src s (trace (upd f ;;; k) s) (final (upd f ;;; k) s).
Proof.
  intros t Hk Hs Hr Hc Hg Hd Ha Hf Hi Hb Hkeeps. unfold trace, final. rewrite upd_bind.
  set (s1 := set_tun (f (tun s)) s). specialize (Hkeeps s1). unfold on_st in *. unfold s1 in Hkeeps at 1.
  rewrite tun_set in Hkeeps. eapply (flow_absorb _ _ _ _ _ src o1 c1 (tun s) (f (tun s))); try done.
  unfold t in Hi. intros []. split; by rewrite ?Hi.
Qed.

(** A KCP datagram leaves as it is, or as the shards the encoder makes. *)
Lemma fl_datagram (src : source) e rto d : src Datagram d -> keeps (fl src) (on_kcp_datagram e rto d).
Proof.
  intros Hd s. unfold on_kcp_datagram, look. rewrite trace_gets, final_gets.
  destruct (fec_encoder (tun s)) as [enc|] eqn:Ee.
  - rewrite trace_bind, final_bind. set (s1 := final (upd (bump fec_data_sent 1)) s).
    assert (E1 : fec_encoder (tun s1) = Some enc).
    { unfold s1, final. rewrite upd_run. simpl. by rewrite tun_set. }
    apply (comp_trans (R := fl src) _ s1); [apply fl_upd, flow_benign; by intros|].
    rewrite trace_gets, final_gets. revert E1. generalize s1. clear s1 Ee s. intros s Ee.
    destruct (Encode _ _ _ enc) as [[enc' frame] parity] eqn:E.
    apply (fl_observed src obs_nil (mkCode [d] (drop FEC_CRYPTO_RESERVE <$> frame :: parity) [] [])); simpl; idle.
    + rewrite Ee. by eapply coding_one.
    + apply keeps_bind; [apply _ | apply fl_emit_output; right; apply elem_of_cons; by left | intros _].
      apply keeps_for_in; [apply _|]. intros p Hp. walk. apply fl_emit_output. right. apply elem_of_cons. right.
      by apply list_elem_of_fmap_2.
  - unfold on_st. eapply (flow_absorb _ _ _ _ _ src obs_nil (mkCode [d] [d] [] []) (tun s) (tun s)); simpl; idle.
    + rewrite Ee. constructor. constructor.
    + apply (fl_emit_output _ e d). right. simpl. apply list_elem_of_singleton. done.
Qed.

Lemma fl_outputs (src : source) e outs :
  Forall (src Datagram) (o_data <$> outs) -> keeps (fl src) (deliver_outputs e outs).
Proof.
  intros Hs. unfold deliver_outputs, KcpWrapper.c_output_filter.
  assert (Hf : Forall (src Datagram) (o_data <$> filter (fun o => o_data o <> []) outs)).
  { apply list.Forall_forall. intros d (o & -> & Ho)%list_elem_of_fmap.
    apply list_elem_of_filter in Ho as [_ Ho]. rewrite list.Forall_forall in Hs.
    apply Hs, list_elem_of_fmap. eauto. }
  induction (filter _ outs) as [|o os IH]; simpl; [apply keeps_ret; apply _|].
  apply list.Forall_cons in Hf as [Ho Hos]. apply keeps_bind; [apply _ | by apply fl_datagram | by intros ?; apply IH].
Qed.

(** A library call, then a computation that may send what it put out. *)
Lemma fl_call {X} src o1 w (k : M St event X) (s : St) :
  kcall (KcpWrapper.kcp (t_kcp (tun s))) o1 (KcpWrapper.kcp w) ->
  sent o1 = [] -> received o1 = [] -> Forall (fed_from admitted (fec_decoder (tun s)) (src Rebuilt)) (fed o1) ->
  keeps (fl (grown_source src o1 code_nil)) k ->
  fl src s (trace (upd (set_kcp w) ;;; k) s) (final (upd (set_kcp w) ;;; k) s).
Proof. intros Hc Hs Hr Hf Hk. apply (fl_observed src o1 code_nil); simpl; idle. by apply khist_one. Qed.

Lemma put_out (src : source) o1 c outs :
  emitted o1 = o_data <$> outs -> Forall (grown_source src o1 c Datagram) (o_data <$> outs).
Proof. intros He. apply list.Forall_forall. intros d Hd. right. by rewrite He. Qed.

(** Feeding KCP a datagram whose origin is known. *)
Lemma fl_input src e d s :
  fed_from admitted (fec_decoder (tun s)) (src Rebuilt) d ->
  fl src s (trace (kcp_input e d) s) (final (kcp_input e d) s).
Proof.
  intros Hd. unfold kcp_input, look. rewrite trace_gets, final_gets. unfold KcpWrapper.input.
  destruct (t_kcp (tun s)) as [k ms up] eqn:Ek. simpl.
  pose proof (kcall_input ms d k) as Hc. destruct (Input ms d k) as [[k' ret] outs]. simpl in Hc.
  eapply (fl_call src); [by rewrite Ek | done | done | by constructor |].
  apply keeps_bind; [apply _ | by apply fl_outputs, put_out | intros ?; apply keeps_ret, _].
Qed.

Lemma fl_update src e ms : keeps (fl src) (kcp_update e ms).
Proof.
  intros s. unfold kcp_update, look. rewrite trace_gets, final_gets. unfold KcpWrapper.update.
  destruct (t_kcp (tun s)) as [k ms0 up] eqn:Ek. simpl.
  pose proof (kcall_update ms k) as Hc. destruct (Update ms k) as [k' outs]. simpl in Hc.
  eapply (fl_call src); [by rewrite Ek | done | done | done | by apply fl_outputs, put_out].
Qed.

Lemma fl_flush src e : keeps (fl src) (kcp_flush e).
Proof.
  intros s. unfold kcp_flush, look. rewrite trace_gets, final_gets. unfold KcpWrapper.flush.
  destruct (t_kcp (tun s)) as [k ms up] eqn:Ek. destruct up; simpl.
  - pose proof (kcall_flush ms k) as Hc. destruct (Flush ms k) as [k' outs]. simpl in Hc.
    eapply (fl_call src); [by rewrite Ek | done | done | done | by apply fl_outputs, put_out].
  - change (fl src s (trace (upd (set_kcp (KcpWrapper.mk k ms false)) ;;; deliver_outputs e []) s)
      (final (upd (set_kcp (KcpWrapper.mk k ms false)) ;;; deliver_outputs e []) s)).
    rewrite trace_bind, final_bind. eapply (comp_trans (R := fl src)); [|by apply fl_outputs].
    unfold trace, final. rewrite upd_run. simpl. unfold on_st. rewrite tun_set, <- Ek.
    apply flow_quiet; try done. by intros [].
Qed.

Lemma fl_end_batch src e : keeps (fl src) (end_output_batch e).
Proof.
  unfold end_output_batch. apply keeps_bind; [apply _ | apply fl_upd, flow_benign; intros t; by case_bool |].
  intros _ s. unfold look. rewrite trace_gets, final_gets. unfold id. case_bool; [apply (comp_refl (R := fl src))|].
  unfold trace, final. rewrite upd_bind. set (s1 := set_tun (set_out_batch [] (tun s)) s).
  unfold on_st. apply flow_release.
  pose proof (of_batch (fun k u => k = Unit /\ u ∈ out_batch (tun s)) e (out_batch (tun s))) as Hb.
  specialize (Hb (proj2 (list.Forall_forall _ _) (fun x Hx => conj eq_refl Hx)) s1). unfold on_st in Hb.
  unfold s1 in Hb at 1.
  by rewrite tun_set in Hb.
Qed.

Lemma fl_cycle src e ms : keeps (fl src) (flush_cycle e ms).
Proof.
  unfold flush_cycle, begin_output_batch. walk;
    [apply fl_upd, flow_nodelay | apply fl_update | apply fl_flush | apply fl_end_batch].
Qed.

(** A shard the decoder rebuilt. *)
Lemma feed_rebuilt_carried e r :
  feed_rebuilt (St := St) e r =
  match carried r with
  | None => eret tt
  | Some d => let* ret := kcp_input e d in ewhen (0 <=? ret) (upd (bump fec_repaired 1))
  end.
Proof. unfold feed_rebuilt, carried. destruct (_ <? _)%nat; [done|]. by destruct (_ || _). Qed.

Lemma fl_rebuilt (src : source) e r s :
  src Rebuilt r -> is_Some (fec_decoder (tun s)) ->
  fl src s (trace (feed_rebuilt e r) s) (final (feed_rebuilt e r) s).
Proof.
  intros Hr [dec Hd]. rewrite feed_rebuilt_carried. destruct (carried r) as [d|] eqn:Ec; [|apply (comp_refl (R := fl src))].
  rewrite trace_bind, final_bind. eapply (comp_trans (R := fl src)).
  - apply fl_input. rewrite Hd. right. eauto.
  - assert (Hk : forall ret, keeps (fl src) (ewhen (0 <=? ret) (upd (bump fec_repaired 1)))) by (intros ret; walk).
    apply Hk.
Qed.

(** A stretch neither installs nor removes the decoder. *)
Lemma fl_present src s ev s' :
  fl src s ev s' -> end_inv psk salt dir peer (tun s) ->
  is_Some (fec_decoder (tun s')) <-> is_Some (fec_decoder (tun s)).
Proof. intros Hf Hi. destruct (Hf Hi) as (_ & o & c & []). by eapply decodes_present. Qed.

Lemma fl_rebuilt_all (src : source) e rs : forall s,
  Forall (src Rebuilt) rs -> is_Some (fec_decoder (tun s)) ->
  fl src s (trace (efor (feed_rebuilt e) rs) s) (final (efor (feed_rebuilt e) rs) s).
Proof.
  induction rs as [|r rs IH]; intros s Hrs Hd; [apply (comp_refl (R := fl src))|].
  apply list.Forall_cons in Hrs as [Hr Hrs]. cbn [efor]. rewrite trace_bind, final_bind. intros Hi.
  pose proof (fl_rebuilt src e r s Hr Hd) as H1. pose proof (fl_present _ _ _ _ H1 Hi) as Hp.
  revert Hi. eapply (comp_trans (R := fl src)); [exact H1|]. apply IH; [done|]. by apply Hp.
Qed.

(** An admitted unit goes through the decoder; what it rebuilds is fed. *)
Lemma fl_decoder src e u s :
  admitted u -> fl src s (trace (feed_decoder e u) s) (final (feed_decoder e u) s).
Proof.
  intros Hu. unfold feed_decoder, look. rewrite trace_gets, final_gets.
  destruct (fec_decoder (tun s)) as [dec|] eqn:Ed; [|apply (comp_refl (R := fl src))].
  destruct (Decode (now_kcp_ms e) u dec) as [dec' rs] eqn:E. intros Hi. revert Hi.
  unfold trace, final. rewrite upd_bind. set (s1 := set_tun (set_fec_decoder (Some dec') (tun s)) s).
  unfold on_st. eapply (flow_absorb _ _ _ _ _ src obs_nil (mkCode [] [] [u] rs) (tun s) (tun s1));
    unfold s1; rewrite ?tun_set; simpl; idle.
  - rewrite Ed. by eapply decodes_single.
  - by intros [].
  - fold s1. rewrite <- (tun_set (set_fec_decoder (Some dec') (tun s)) s). fold s1.
    apply (fl_rebuilt_all (grown_source src obs_nil (mkCode [] [] [u] rs)) e rs s1).
    + apply list.Forall_forall. intros r Hr. by right.
    + unfold s1. rewrite tun_set. by eexists.
Qed.

(** Feeding the tunnel an admitted unit, with or without the codec. *)
Lemma fl_feed src e u : admitted u -> keeps (fl src) (feed_kcp_input e u).
Proof.
  intros Hu. unfold feed_kcp_input. apply keeps_bind; [apply _ | benign|]. intros _ s.
  unfold look. rewrite trace_gets, final_gets. destruct (fec_decoder (tun s)) as [dec|] eqn:Ed.
  2:{ apply fl_input. by rewrite Ed. }
  destruct (length u <? 8)%nat eqn:E1; [apply (comp_refl (R := fl src))|].
  assert (Hdec : forall ret : Z, keeps (fl src) (feed_decoder e u ;;; eret ret)).
  { intros ret. apply keeps_bind; [apply _ | intros ?; by apply fl_decoder | intros _; apply keeps_ret, _]. }
  destruct (le16_at u 4 =? kTypeData) eqn:E2.
  - destruct (_ || _) eqn:E3; [apply (comp_refl (R := fl src))|].
    rewrite trace_bind, final_bind. eapply (comp_trans (R := fl src)); [|apply Hdec].
    apply fl_input. rewrite Ed. left. exists u. split_and!; [done | | done].
    unfold data_shard. by rewrite E1, E2, E3.
  - destruct (_ && _); [apply (comp_refl (R := fl src)) | apply Hdec].
Qed.

Lemma fl_due src : keeps (fl src) flush_due.
Proof. unfold flush_due. walk. Qed.

Context {H : Host St}.

Lemma fl_do_send_fin src e : keeps (fl src) (do_send_fin e).
Proof.
  intros s. unfold do_send_fin, look. rewrite trace_gets, final_gets, trace_gets, final_gets. unfold id.
  destruct (fin_enabled _); [|apply (comp_refl (R := fl src))]. destruct (is_active s); [|apply (comp_refl (R := fl src))].
  destruct (fin_sent _); [apply (comp_refl (R := fl src))|]. cbn [negb]. rewrite trace_bind, final_bind.
  set (m := on_tun (kcp_send _ _)). set (s1 := final m s).
  apply (comp_trans (R := fl src) s s1).
  - unfold s1, m, on_st, trace, final. rewrite on_tun_run. cbn [fst snd]. rewrite tun_set. apply flow_kcp_send.
    intros Hi _. apply (control_not_payload psk salt dir peer); auto.
  - match goal with |- fl src _ (trace ?k _) _ => enough (Hk : keeps (fl src) k) by exact (Hk s1) end.
    walk. apply fl_cycle.
Qed.

(** A message of the caller. *)
Lemma fl_kcp_send src from d : from = FromApp \/ from = FromHello -> keeps (fl src) (on_tun (kcp_send from d)).
Proof. intros Hf. apply fl_tun. intros t. apply flow_kcp_send. intros _. destruct Hf as [-> | ->]; by intros [?|?]. Qed.

Lemma fl_send_fin src e : keeps (fl src) (send_fin e).
Proof. unfold send_fin. walk. apply fl_do_send_fin. Qed.

Lemma fl_retry_fin src e : keeps (fl src) (retry_pending_fin e).
Proof. unfold retry_pending_fin. walk; apply fl_do_send_fin. Qed.

Lemma fl_read_some src cap h : keeps (fl src) (on_async_read_some cap h).
Proof. unfold on_async_read_some. walk; [by apply fl_emit.. | apply fl_tun, flow_fulfill]. Qed.

Context {HF : HostFlow psk salt dir peer admitted St}.

Lemma fl_resume src e : keeps (fl src) (maybe_resume_write e).
Proof. unfold maybe_resume_write. walk. apply hf_resume. Qed.

Lemma fl_send_data src e d : keeps (fl src) (send_data e d).
Proof.
  unfold send_data, on_send. walk; [apply fl_kcp_send; auto | apply hf_shut | apply fl_cycle].
Qed.

Lemma fl_feed_and_drain src e d : admitted d -> keeps (fl src) (feed_and_drain e d).
Proof.
  intros Hd. unfold feed_and_drain. walk;
    [by apply fl_feed | by apply fl_emit | apply fl_tun, flow_fulfill | apply fl_resume].
Qed.
End HostFlow.
