(* ===== verification/Session.v ===== *)
(** * Session: the server's KCP session

    Models [KCPSession] (kcp_session.cpp/.hpp): the packed state flags, the
    encrypting output path, reception, the update tick with its drained
    teardown, [stop]. It is a [KcpTunnel], so it implements the interface of
    [Tunnel]. What the write loop does when it is resumed is the server's
    [forward_tcp_to_kcp] (server.cpp), and its teardown is the server's
    [close_connection] as this session sees it. *)

From Stdlib Require Import ZArith Lia.
From stdpp Require Import base list strings.
From S2P Require Import Prelude Config Effects Kcp Tunnel.
From S2P Require Crypto.

(** The flag bits of [state_flags_]. *)
Definition RUNNING : Z := 1.
Definition PROTOCOL_HS_DONE : Z := 2.
Definition SOCKS5_READ_PENDING : Z := 8.
Definition FORWARD_READ_PENDING : Z := 16.
Definition CONNECT_PENDING : Z := 32.

Section Session.
Context {A : Crypto.Aead} {K : Kcp} {F : FecCodec}.

(** [KCPSession]: its base object, its own members, and its standing in the
    server's tables: [owned] when [sessions_[sid]] is this object, [registered]
    when [connections_[sid]] holds its target socket, [target_open] when that
    socket (also captured by the forwarding loops) is open. *)
Record session := mkSession {
  base : tunnel;
  state_flags : Z;
  send_callback : bool;
  target_closed : bool;
  drained_cb : bool;
  owned : bool;
  registered : bool;
  target_open : bool }.

Definition set_base (v : tunnel) (s : session) : session :=
  mkSession v (state_flags s) (send_callback s) (target_closed s) (drained_cb s)
    (owned s) (registered s) (target_open s).
Definition set_flags (v : Z) (s : session) : session :=
  mkSession (base s) v (send_callback s) (target_closed s) (drained_cb s)
    (owned s) (registered s) (target_open s).
Definition set_send_callback (v : bool) (s : session) : session :=
  mkSession (base s) (state_flags s) v (target_closed s) (drained_cb s)
    (owned s) (registered s) (target_open s).
Definition set_target_closed (v : bool) (s : session) : session :=
  mkSession (base s) (state_flags s) (send_callback s) v (drained_cb s)
    (owned s) (registered s) (target_open s).
Definition set_drained_callback (v : bool) (s : session) : session :=
  mkSession (base s) (state_flags s) (send_callback s) (target_closed s) v
    (owned s) (registered s) (target_open s).
Definition set_tables (own reg : bool) (s : session) : session :=
  mkSession (base s) (state_flags s) (send_callback s) (target_closed s) (drained_cb s)
    own reg (target_open s).
Definition set_target_open (v : bool) (s : session) : session :=
  mkSession (base s) (state_flags s) (send_callback s) (target_closed s) (drained_cb s)
    (owned s) (registered s) v.

(** [state_flags_.fetch_or(f)] and [fetch_and(~f)] on eight bits. *)
Definition flag_on (f : Z) (s : session) : session := set_flags (Z.lor (state_flags s) f) s.
Definition flag_off (f : Z) (s : session) : session := set_flags (Z.land (state_flags s) (u8 (Z.lnot f))) s.
Definition has_flag (f : Z) (s : session) : bool := negb (Z.land (state_flags s) f =? 0).
Definition set_flag (f : Z) (v : bool) (s : session) : session := if v then flag_on f s else flag_off f s.

Definition is_running : session -> bool := has_flag RUNNING.
Definition is_protocol_handshake_done : session -> bool := has_flag PROTOCOL_HS_DONE.
Definition is_socks5_read_pending : session -> bool := has_flag SOCKS5_READ_PENDING.
Definition is_forward_read_pending : session -> bool := has_flag FORWARD_READ_PENDING.
Definition is_connect_pending : session -> bool := has_flag CONNECT_PENDING.

(** [try_set_forward_read_pending()]: the old value. *)
Definition try_set_forward_read_pending : M session event bool := fun s =>
  (is_forward_read_pending s, flag_on FORWARD_READ_PENDING s, []).

Abbreviation Op X := (M session event X).

(** A member of the base object run on this one. *)
Definition with_base {X} (m : M tunnel event X) : Op X := fun s =>
  let '(x, t, ev) := m (base s) in (x, set_base t s, ev).

(** [stop()], on the strand. *)
Definition stop : Op unit :=
  let* old := egets is_running in
  emodify (flag_off RUNNING) ;;;
  if negb old then eret tt
  else
    emodify (set_send_callback false) ;;;
    with_base (emodify unpark_write) ;;;
    emodify (flag_off (Z.lor (Z.lor FORWARD_READ_PENDING SOCKS5_READ_PENDING) CONNECT_PENDING)) ;;;
    with_base (complete_pending_read ec_operation_aborted) ;;;
    emit StatsLine.

(** [encrypt_for_wire(data, out)]: [None] when the session was torn down. *)
Definition encrypt_for_wire (e : tenv) (data : list Z) : Op (option (list Z)) :=
  let* c := egets (fun s => t_crypto (base s)) in
  let '(c', out, ec) := Crypto.encrypt_impl (e_fault e (Crypto.encrypt_counter c)) data [] c in
  with_base (emodify (set_crypto c')) ;;;
  if negb (ec_failed ec) then eret (Some out)
  else
    with_base (emodify (bump encrypt_errors 1)) ;;;
    stop ;;;
    eret None.

(** [handle_kcp_output(data)]. *)
Definition session_output (e : tenv) (data : list Z) : Op unit :=
  let* ok := egets (fun s => is_running s && send_callback s) in
  if negb ok then eret tt
  else
    let* enc := encrypt_for_wire e data in
    match enc with
    | None => eret tt
    | Some d => with_base (emodify (count_tx d)) ;;; emit (Wire [d])
    end.

(** The loop of [handle_kcp_output_batch]: [None] if an encryption failed. *)
Fixpoint encrypt_batch (e : tenv) (datagrams encrypted : list (list Z)) : Op (option (list (list Z))) :=
  match datagrams with
  | [] => eret (Some encrypted)
  | data :: rest =>
      let* enc := encrypt_for_wire e data in
      match enc with
      | None => eret None
      | Some d => with_base (emodify (count_tx d)) ;;; encrypt_batch e rest (encrypted ++ [d])
      end
  end.

(** [handle_kcp_output_batch(datagrams, count)]. *)
Definition session_output_batch (e : tenv) (datagrams : list (list Z)) : Op unit :=
  let* ok := egets (fun s => is_running s && send_callback s) in
  if negb ok then eret tt
  else
    let* enc := encrypt_batch e datagrams [] in
    match enc with
    | None => eret tt
    | Some ds => emit (Wire ds)
    end.

#[export] Instance session_output_host : OutputHost session := {|
  tun := base;
  set_tun := set_base;
  handle_kcp_output := session_output;
  handle_kcp_output_batch := session_output_batch |}.

#[export] Instance session_subobject : SubObject session.
Proof. split; by intros; try destruct s. Qed.

(** [close_connection(sid, caller, owner)] as the owner sees it: nothing if
    the session was replaced; otherwise both table entries go, the registered
    socket is closed and the session stopped. *)
Definition close_connection : Op unit :=
  emit CloseConnection ;;;
  let* own := egets owned in
  if negb own then eret tt
  else
    let* was_open := egets (fun s => registered s && target_open s) in
    emodify (set_tables false false) ;;;
    ewhen was_open (emodify (set_target_open false) ;;; emit TargetClosed) ;;;
    stop.

(** [forward_tcp_to_kcp]: read the target again, or park until KCP drains. *)
Definition tcp_loop_hook : Z := 0.

Definition forward_tcp_to_kcp (e : tenv) : Op unit :=
  let* s := egets id in
  if target_closed s then eret tt
  else if negb (target_open s) then close_connection
  else if negb (is_running s) then close_connection
  else if backpressure_threshold (e_tuning e) <=? wait_send (base s)
  then upd (park_write tcp_loop_hook)
  else emit TargetRead.

#[export] Instance session_host : Host session := {|
  is_active := is_running;
  can_accept_data := is_running;
  shut_down _ := stop;
  run_resume e _ := forward_tcp_to_kcp e |}.

(** ** Reception *)

(** [on_receive(encrypted)]. *)
Definition on_receive (e : tenv) (encrypted : list Z) : Op unit :=
  let* run := egets is_running in
  if negb run then eret tt
  else
    let* t := look id in
    let '(c, plain, ec) :=
      Crypto.decrypt_impl (e_rx_fault e) encrypted (decrypt_buf t) (t_crypto t) in
    upd (fun t => set_decrypt_buf plain (set_crypto c t)) ;;;
    upd (fun t => bump udp_rx_bytes (Z.of_nat (length encrypted)) (bump udp_rx_packets 1 t)) ;;;
    if bool_decide (ec = ec_replay) then upd (bump replay_dropped 1)
    else if ec_failed ec then upd (bump decrypt_errors 1)
    else
      upd (touch_activity e) ;;;
      upd (fun t => bump bytes_received (Z.of_nat (length plain)) (bump packets_received 1 t)) ;;;
      feed_and_drain e plain.

(** [on_inject_decrypted(decrypted)]. *)
Definition on_inject_decrypted (e : tenv) (plain : list Z) : Op unit :=
  let* run := egets is_running in
  if negb run then eret tt
  else upd (touch_activity e) ;;; feed_and_drain e plain.

(** [is_alive()]. *)
Definition is_alive (e : tenv) (s : session) : bool :=
  if negb (is_running s) then false
  else activity_age_us e (base s) <? KCP_TIMEOUT_SEC * 1000000.

(** [mark_handshake_done()] of the derived class. *)
Definition session_handshake_done : Op unit :=
  emodify (flag_off CONNECT_PENDING) ;;; upd mark_handshake_done.

(** [mark_target_closed()]. *)
Definition mark_target_closed : Op unit :=
  emodify (set_target_closed true) ;;; upd unpark_write.

(** ** The tick *)

(** The drained teardown: once, and only with an empty send buffer. *)
Definition maybe_drained : Op unit :=
  let* s := egets id in
  if target_closed s && (wait_send (base s) =? 0) && drained_cb s then
    emodify (set_drained_callback false) ;;;
    emit DrainedCallback ;;;
    close_connection
  else eret tt.

(** [on_update_tick()]. *)
Definition on_update_tick (e : tenv) : Op unit :=
  let* run := egets is_running in
  if negb run then eret tt
  else
    on_tun (maybe_log_stats e) ;;;
    let* due := flush_due in
    ewhen due (flush_cycle e (now_kcp_ms e)) ;;;
    let* pending := look pending_read_handler in
    ewhen (bool_decide (pending <> None)) (on_tun try_fulfill_read) ;;;
    maybe_resume_write e ;;;
    let* closed := egets target_closed in
    ewhen (negb closed) (on_tun (maybe_send_keepalive e)) ;;;
    retry_pending_fin e ;;;
    maybe_drained.

(** [handle_target_closed(session, tcp_socket)] (server.cpp). *)
Definition handle_target_closed (e : tenv) : Op unit :=
  let* closed := egets target_closed in
  ewhen (negb closed) (mark_target_closed ;;; send_fin e) ;;;
  let* is_open := egets target_open in
  ewhen is_open (emodify (set_target_open false) ;;; emit TargetClosed) ;;;
  emodify (flag_off FORWARD_READ_PENDING).

(** The constructor. *)
Definition new_session (e : tenv) (conv : Z) (crypto : Crypto.t) (fec : FecConfig) : exn_result session :=
  match create e conv crypto fec with
  | Ret t => Ret (flag_on RUNNING (mkSession t 0 true false false true false false))
  | Throw what => Throw what
  end.
End Session.

(** ** The calls a session receives on its strand *)

Inductive call : Type :=
| CReceive (e : tenv) (datagram : list Z)
| CInject (e : tenv) (plain : list Z)
| CTick (e : tenv)
| CSend (e : tenv) (data : list Z)
| CRead (cap : nat) (handler : Z)
| CStop
| CEnableFin
| CHandshakeDone
| CSendFin (e : tenv)
| CForwardTcp (e : tenv)
| CTargetClosed (e : tenv)
| CClose
| CReplaced.

Section Calls.
Context {A : Crypto.Aead} {K : Kcp} {F : FecCodec}.

(** [CReplaced] is what the server's other threads do to the session's table
    entries: eviction, replacement, the sweep. *)
Definition perform (c : call) : M session event unit :=
  match c with
  | CReceive e d => on_receive e d
  | CInject e d => on_inject_decrypted e d
  | CTick e => on_update_tick e
  | CSend e d => send_data e d
  | CRead cap h => on_async_read_some cap h
  | CStop => stop
  | CEnableFin => upd enable_fin
  | CHandshakeDone => session_handshake_done
  | CSendFin e => send_fin e
  | CForwardTcp e => forward_tcp_to_kcp e
  | CTargetClosed e => handle_target_closed e
  | CClose => close_connection
  | CReplaced => emodify (set_tables false false)
  end.

Definition perform_all (cs : list call) : M session event unit := efor perform cs.
End Calls.
