(* ===== verification/SessionProofs.v ===== *)
(** * SessionProofs: guarantees of the server's session

    The session discharges the interface of [Tunnel], and with it come the
    end-to-end statements about any sequence of calls a session can receive:
    every read completes exactly once, at most one FIN is queued, a stopped
    session never sends again, a datagram that fails to authenticate changes
    nothing, a burst arrives at the peer as it was framed. *)

From Stdlib Require Import ZArith Lia.
From stdpp Require Import base list strings.
From S2P Require Import Prelude Config Effects Kcp Tunnel TunnelProofs Session.
From S2P Require Crypto.

(** ** The session discharges the interface *)

Section Interface.
Context {A : Crypto.Aead} {K : Kcp} {F : FecCodec}.

#[export] Instance session_active_law : ActiveLaw session.
Proof. by intros t s. Qed.

Abbreviation ok := (keeps (on_st tun_step)).

Lemma with_base_step {X} (m : M tunnel event X) : keeps tun_step m -> ok (with_base m).
Proof. exact (keeps_on_tun (St := session) m). Qed.

(** Members outside the base object do not enter the books. *)
Lemma own_member (f : session -> session) : (forall s, base (f s) = base s) -> ok (emodify f).
Proof. intros Hf s. unfold on_st, trace, final. simpl. rewrite Hf. apply comp_refl. Qed.

Lemma other_event ev : (forall t, tun_step t [ev] t) -> ok (emit ev).
Proof. intros He s. apply He. Qed.

Ltac base_upd := apply with_base_step, keeps_modify, benign; by intros.
Ltac base_upd' := apply keeps_upd, benign; by intros.
Ltac own := apply own_member; by intros.
Ltac note := apply other_event; intros; step_split.
Ltac walk := repeat first [keeps_step | apply keeps_look | base_upd | base_upd' | own | note].

Lemma stop_step : ok stop.
Proof. unfold stop. walk. apply with_base_step, complete_step. Qed.

Lemma encrypt_for_wire_step e d : ok (encrypt_for_wire e d).
Proof. unfold encrypt_for_wire. walk. apply stop_step. Qed.

Lemma encrypt_batch_step e ds : forall acc, ok (encrypt_batch e ds acc).
Proof.
  induction ds as [|d ds IH]; intros acc; cbn [encrypt_batch]; walk; auto using encrypt_for_wire_step.
Qed.

#[export] Instance session_output_steps : OutputSteps session.
Proof.
  split; intros; simpl; unfold session_output, session_output_batch; walk;
    auto using encrypt_for_wire_step, encrypt_batch_step.
Qed.

Lemma close_connection_step : ok close_connection.
Proof. unfold close_connection. walk. apply stop_step. Qed.

Lemma forward_tcp_to_kcp_step e : ok (forward_tcp_to_kcp e).
Proof. unfold forward_tcp_to_kcp. walk; apply close_connection_step. Qed.

#[export] Instance session_host_steps : HostSteps session.
Proof. split; intros; [apply stop_step | apply forward_tcp_to_kcp_step]. Qed.

Lemma on_receive_step e d : ok (on_receive e d).
Proof. unfold on_receive. walk. apply feed_and_drain_step. Qed.

Lemma on_inject_step e d : ok (on_inject_decrypted e d).
Proof. unfold on_inject_decrypted. walk. apply feed_and_drain_step. Qed.

Lemma on_update_tick_step e : ok (on_update_tick e).
Proof.
  unfold on_update_tick, maybe_drained. walk;
    try (apply keeps_on_tun);
    first [apply flush_due_step | apply log_stats_step | apply flush_cycle_step | apply try_fulfill_step
          | apply maybe_resume_write_step | apply keepalive_step | apply retry_pending_fin_step
          | apply close_connection_step].
Qed.

Lemma handle_target_closed_step e : keeps (on_st tun_book) (handle_target_closed e).
Proof.
  assert (Hb : forall X (m : M session event X), ok m -> keeps (on_st tun_book) m)
    by (intros X m Hm s; apply tun_step_book, Hm).
  unfold handle_target_closed, mark_target_closed.
  repeat first [keeps_step | apply Hb, own_member; by intros | apply Hb, other_event; intros; step_split
    | apply keeps_gets; apply _ | apply Hb; base_upd']; apply send_fin_step.
Qed.
End Interface.

(** ** Any sequence of calls *)

Section Sequences.
Context {A : Crypto.Aead} {K : Kcp} {F : FecCodec}.

(** The reads with handler [h] among the calls. *)
Definition registers (h : Z) (c : call) : nat :=
  match c with CRead _ h' => if bool_decide (h = h') then 1 else 0 | _ => 0 end.

Fixpoint registered_reads (h : Z) (cs : list call) : nat :=
  match cs with [] => 0 | c :: cs' => registers h c + registered_reads h cs' end.

(** The calls that ask for a FIN. *)
Definition requests_fin (c : call) : Prop :=
  match c with CSendFin _ | CTargetClosed _ => True | _ => False end.

(** What one call does to the books. *)
Record call_step (c : call) (t : tunnel) (ev : list event) (t' : tunnel) : Prop := {
  cs_reads : forall h, (completions h ev + pend h t' = pend h t + registers h c)%nat;
  cs_fin : (fins ev + Nat.b2n (fin_sent t) = Nat.b2n (fin_sent t'))%nat;
  cs_fin_only : (0 < fins ev)%nat -> fin_enabled t = true /\ (fin_requested t = true \/ requests_fin c);
  cs_requested : fin_requested t' = true -> fin_requested t = true \/ requests_fin c;
  cs_created : created_us t' = created_us t;
  cs_handshake : c <> CHandshakeDone -> handshake_done t' = handshake_done t }.

Lemma tun_call_step c t ev t' :
  (forall h, registers h c = 0%nat) -> tun_step t ev t' -> call_step c t ev t'.
Proof.
  intros Hc [R1 F1 O1 [E1 E2] P1 [C1 C2]]. split; try done.
  - intros h. rewrite Hc, R1. lia.
  - intros Hf. destruct (O1 Hf). auto.
  - left. congruence.
Qed.

Lemma tun_book_call_step c t ev t' :
  (forall h, registers h c = 0%nat) -> requests_fin c -> tun_book t ev t' -> call_step c t ev t'.
Proof.
  intros Hc Hq (t0 & Ht & Hs). apply (tun_call_step c) in Hs; [|done].
  destruct Ht as [->| ->]; [done|]. destruct Hs as [R1 F1 O1 Q1 C1 C2]. split; try done; auto.
  intros Hf. destruct (O1 Hf). auto.
Qed.

Lemma perform_step c s :
  call_step c (tun s) (trace (perform c) s) (tun (final (perform c) s)).
Proof.
  destruct c; simpl perform;
    lazymatch goal with
    | |- call_step CEnableFin _ _ _ => idtac
    | |- call_step CHandshakeDone _ _ _ => idtac
    | |- call_step (CRead _ _) _ _ _ => idtac
    | |- call_step (CSendFin _) _ _ _ => apply tun_book_call_step; [done | done|]
    | |- call_step (CTargetClosed _) _ _ _ => apply tun_book_call_step; [done | done|]
    | |- _ => apply tun_call_step; [done|]
    end.
  - apply on_receive_step.
  - apply on_inject_step.
  - apply on_update_tick_step.
  - apply send_data_step.
  - destruct (on_async_read_some_step cap handler s) as (H1 & H2 & H3 & [_ H4] & _ & H5 & H6).
    split; [exact H1 | done | intros Hf; destruct (H3 Hf); auto | left; congruence | done | done].
  - apply stop_step.
  - split; try done; [unfold fins; simpl; lia | by left].
  - split; try done; [unfold fins; simpl; lia | by left].
  - apply send_fin_step.
  - apply forward_tcp_to_kcp_step.
  - apply handle_target_closed_step.
  - apply close_connection_step.
  - apply comp_refl.
Qed.

(** C12: whatever a session goes through (datagrams, ticks, sends, teardowns,
    replacement, in any order), every registered read is completed exactly
    once or is still the one pending read: no completion is lost, none is
    delivered twice. *)
Theorem reads_complete_exactly_once (cs : list call) (s : session) (h : Z) :
  (completions h (trace (perform_all cs) s) + pend h (tun (final (perform_all cs) s)) =
   pend h (tun s) + registered_reads h cs)%nat.
Proof.
  revert s. induction cs as [|c cs IH]; intros s; [cbn; lia|].
  unfold perform_all. cbn [efor registered_reads]. rewrite trace_bind, final_bind, completions_app.
  specialize (IH (final (perform c) s)). unfold perform_all in IH.
  destruct (perform_step c s) as [R1 _ _ _ _ _]. specialize (R1 h). lia.
Qed.

(** C33: over the whole life of a session at most one FIN is queued and a FIN
    that was queued is remembered: [fin_sent] counts them exactly. The call
    that queues it finds a session that has not sent one and whose peer has
    already negotiated the capability, and either finds the FIN requested by
    an earlier call or is itself the request; without any request none is
    queued. *)
Theorem fin_queued_at_most_once (cs : list call) (s : session) :
  (fins (trace (perform_all cs) s) + Nat.b2n (fin_sent (tun s)) =
   Nat.b2n (fin_sent (tun (final (perform_all cs) s))))%nat /\
  (forall before c after, cs = before ++ c :: after ->
     let s1 := final (perform_all before) s in
     (0 < fins (trace (perform c) s1))%nat ->
     fin_sent (tun s1) = false /\ fin_enabled (tun s1) = true /\
     (fin_requested (tun s1) = true \/ requests_fin c)) /\
  ((0 < fins (trace (perform_all cs) s))%nat -> fin_requested (tun s) = true \/ Exists requests_fin cs).
Proof.
  split_and!.
  - revert s. induction cs as [|c cs IH]; intros s; [done|].
    unfold perform_all in *. cbn [efor]. rewrite trace_bind, final_bind, fins_app.
    specialize (IH (final (perform c) s)). destruct (perform_step c s) as [_ F1 _ _ _ _]. lia.
  - intros before c after _ s1 Hf. destruct (perform_step c s1) as [_ F1 O1 _ _ _].
    destruct (O1 Hf) as [He Hq]. split_and!; [|done|done]. destruct (fin_sent (tun s1)) eqn:Es; [|done].
    destruct (fin_sent (tun (final (perform c) s1))); simpl in F1; lia.
  - revert s. induction cs as [|c cs IH]; intros s; [unfold fins; simpl; lia|].
    unfold perform_all in *. cbn [efor]. rewrite trace_bind, fins_app. intros Hf.
    destruct (perform_step c s) as [_ _ O1 Q1 _ _].
    destruct (decide (0 < fins (trace (perform c) s))%nat) as [H0|H0].
    + destruct (O1 H0) as [_ [?|?]]; [by left | right; by constructor].
    + destruct (IH (final (perform c) s) ltac:(lia)) as [H|H]; [|right; by apply List.Exists_cons_tl].
      destruct (Q1 H); [by left | right; by constructor].
Qed.

(** Nothing a peer sends can postpone the handshake deadline: through any
    calls but the completion of the handshake itself, the stall verdict at a
    given time is the one the session had at creation, so a client that
    dribbles authenticated bytes is still swept. *)
Theorem handshake_deadline_fixed (cs : list call) (s : session) (e : tenv) (timeout_sec : Z) :
  CHandshakeDone ∉ cs ->
  handshake_stalled e timeout_sec (tun (final (perform_all cs) s)) =
  handshake_stalled e timeout_sec (tun s).
Proof.
  enough (Hall : CHandshakeDone ∉ cs -> forall s,
    created_us (tun (final (perform_all cs) s)) = created_us (tun s) /\
    handshake_done (tun (final (perform_all cs) s)) = handshake_done (tun s)).
  { intros Hn. unfold handshake_stalled. by destruct (Hall Hn s) as [-> ->]. }
  clear s. induction cs as [|c cs IH]; intros Hn s; [done|].
  apply not_elem_of_cons in Hn as [Hc Hn]. unfold perform_all. cbn [efor]. rewrite final_bind.
  destruct (IH Hn (final (perform c) s)) as [I1 I2]. unfold perform_all in *.
  destruct (perform_step c s) as [_ _ _ _ C1 C2]. rewrite I1, I2. split; [done|]. by apply C2.
Qed.
End Sequences.

(** ** A stopped session *)

Section Stopped.
Context {A : Crypto.Aead} {K : Kcp} {F : FecCodec}.

(** The bits of the packed flags. *)
Lemma flag_off_has f g s :
  has_flag f s = false -> has_flag f (flag_off g s) = false.
Proof.
  unfold has_flag, flag_off. simpl. rewrite !negb_false_iff, !Z.eqb_eq. intros Hz.
  by rewrite <- Z.land_assoc, (Z.land_comm _ f), Z.land_assoc, Hz, Z.land_0_l.
Qed.

Lemma flag_off_same f s : 0 <= f < 256 -> has_flag f (flag_off f s) = false.
Proof.
  intros Hf. unfold has_flag, flag_off. simpl. rewrite negb_false_iff, Z.eqb_eq, <- Z.land_assoc.
  replace (Z.land (u8 (Z.lnot f)) f) with 0; [apply Z.land_0_r|].
  symmetry. apply Z.bits_inj'. intros n Hn. rewrite Z.bits_0, Z.land_spec. unfold u8.
  destruct (Z.ltb_spec n 8).
  - rewrite Z.mod_pow2_bits_low, Z.lnot_spec by lia. by destruct (Z.testbit f n).
  - by rewrite Z.mod_pow2_bits_high by lia.
Qed.

Definition stopped (s : session) : Prop :=
  is_running s = false /\ send_callback s = false /\
  pending_read_handler (base s) = None /\ write_resume_cb (base s) = None.

Lemma stop_stops (s : session) : is_running s = true -> stopped (final stop s).
Proof.
  intros Hr. unfold stop, final. rewrite gets_bind, Hr. unfold ebind, emodify, with_base, emit, complete_pending_read.
  simpl. destruct (pending_read_handler (base s)) eqn:Ep; simpl; split_and!; try done;
    try (apply flag_off_has, flag_off_same; by vm_compute).
Qed.

(** What a stopped session may still do: no datagram leaves, no message enters
    KCP, no read of the target starts and nothing is written to it, and a read
    completes only as aborted, without data. *)
Definition mute (x : event) : Prop :=
  match x with
  | Wire _ | TargetRead | TargetWrite _ | KcpSend _ _ _ => False
  | Complete _ ec data => ec = ec_operation_aborted /\ data = []
  | _ => True
  end.

(** What stopping leaves of the record of a stopped session. *)
Definition silent (s : session) (ev : list event) (s' : session) : Prop :=
  stopped s ->
  stopped s' /\ Crypto.encrypt_counter (t_crypto (base s')) = Crypto.encrypt_counter (t_crypto (base s)) /\
  Forall mute ev.

#[export] Instance silent_comp : Compositional silent.
Proof.
  split; [intros s Hs; split_and!; auto|].
  intros s1 s2 s3 e1 e2 H1 H2 Hs. destruct (H1 Hs) as (Hs2 & C1 & F1).
  destruct (H2 Hs2) as (Hs3 & C2 & F2). split_and!; [done | congruence | by apply Forall_app].
Qed.

Lemma silent_noop (m : M session event unit) :
  (forall s, stopped s -> m s = (tt, s, [])) -> keeps silent m.
Proof.
  intros Hm s Hs. unfold trace, final. rewrite (Hm s Hs). split_and!; [done|done|constructor].
Qed.

(** An operation that first asks whether the session runs. *)
Lemma guarded_noop (m : M session event unit) :
  keeps silent (let* run := egets is_running in if negb run then eret tt else m).
Proof.
  apply silent_noop. intros s (Hr & _). rewrite gets_bind, Hr. done.
Qed.

Lemma silent_member (f : session -> session) :
  (forall s, state_flags (f s) = state_flags s /\ send_callback (f s) = send_callback s /\
             pending_read_handler (base (f s)) = pending_read_handler (base s) /\
             (write_resume_cb (base s) = None -> write_resume_cb (base (f s)) = None) /\
             t_crypto (base (f s)) = t_crypto (base s)) -> keeps silent (emodify f).
Proof.
  intros Hf s (Hr & Hc & Hp & Hw). unfold trace, final. simpl.
  destruct (Hf s) as (H1 & H2 & H3 & H4 & H5). unfold stopped, is_running, has_flag in *.
  rewrite H1, H2, H3, H5. split_and!; auto.
Qed.

Lemma silent_upd f :
  (forall t, pending_read_handler (f t) = pending_read_handler t /\
             (write_resume_cb t = None -> write_resume_cb (f t) = None) /\
             t_crypto (f t) = t_crypto t) -> keeps silent (upd f).
Proof.
  intros Hf s. apply (silent_member (fun s => set_base (f (base s)) s)). intros s'.
  destruct (Hf (base s')) as (? & ? & ?). by split_and!.
Qed.

Lemma silent_flag_off g : keeps silent (emodify (flag_off g)).
Proof.
  intros s (Hr & Hc & Hp & Hw). split_and!; [|done|constructor]. split_and!; try done.
  by apply flag_off_has.
Qed.

Lemma silent_emit ev : mute ev -> keeps silent (emit ev).
Proof. intros He s Hs. by split_and!; [done|done|constructor]. Qed.

Ltac quiet :=
  repeat first [keeps_step | apply guarded_noop | apply silent_flag_off
    | apply silent_emit; exact I | apply silent_upd; by intros | apply silent_member; by intros].

Lemma silent_stop : keeps silent stop.
Proof.
  intros s Hs. pose proof Hs as (Hr & _). unfold trace, final, stop. rewrite gets_bind, Hr. simpl.
  by apply (silent_flag_off RUNNING s).
Qed.

Lemma silent_close : keeps silent close_connection.
Proof. unfold close_connection. quiet. apply silent_stop. Qed.

Lemma silent_fin e : keeps silent (send_fin e).
Proof.
  unfold send_fin. quiet. apply silent_noop. intros s (Hr & _).
  unfold do_send_fin. rewrite look_bind, gets_bind. change (is_active s) with (is_running s). rewrite Hr. simpl.
  by destruct (fin_enabled _).
Qed.

Lemma silent_perform c : keeps silent (perform c).
Proof.
  destruct c; simpl; try apply guarded_noop; auto using silent_stop, silent_close, silent_fin.
  - intros s Hs. unfold trace, final, on_async_read_some. rewrite gets_bind.
    change (is_active s) with (is_running s). rewrite (proj1 Hs). by apply (silent_emit (Complete handler ec_operation_aborted [])).
  - apply silent_upd. by intros.
  - unfold session_handshake_done. quiet.
  - intros s Hs. unfold trace, final, forward_tcp_to_kcp. rewrite gets_bind. unfold id.
    rewrite (proj1 Hs). simpl. repeat case_bool; try (by apply silent_close); by apply (keeps_ret silent tt).
  - unfold handle_target_closed, mark_target_closed. quiet. apply silent_fin.
  - apply silent_member. by intros.
Qed.

Lemma stop_mute (s : session) : Forall mute (trace stop s).
Proof.
  unfold trace, stop. rewrite gets_bind. unfold ebind, emodify, with_base, emit, complete_pending_read. simpl.
  destruct (is_running s); simpl; [|constructor]. destruct (pending_read_handler (base s)); repeat constructor.
Qed.

End Stopped.

(** ** The encrypting output path *)

Section Wire.
Context {A : Crypto.Aead} {K : Kcp} {F : FecCodec}.

Lemma with_base_bind {X} f (k : M session event X) s :
  (with_base (emodify f) ;;; k) s = k (set_base (f (base s)) s).
Proof. exact (upd_bind f k s). Qed.

Lemma encrypt_for_wire_result e d (s : session) :
  is_running s = true ->
  match result (encrypt_for_wire e d) s with
  | Some out => trace (encrypt_for_wire e d) s = [] /\ is_running (final (encrypt_for_wire e d) s) = true
  | None => stopped (final (encrypt_for_wire e d) s) /\
            Forall (fun x => match x with Wire _ => False | _ => True end) (trace (encrypt_for_wire e d) s)
  end.
Proof.
  intros Hr. unfold encrypt_for_wire, result, trace, final. rewrite gets_bind.
  destruct (Crypto.encrypt_impl _ d [] _) as [[c' out] ec]. unfold ebind at 1, with_base, emodify. simpl.
  destruct (ec_failed ec); simpl; [|done]. unfold ebind, with_base, emodify. simpl.
  set (s1 := set_base _ (set_base _ s)). pose proof (stop_stops s1 Hr) as Hst.
  assert (Hev : Forall (fun x => match x with Wire _ => False | _ => True end) (trace stop s1)).
  { unfold trace, stop. rewrite gets_bind. change (is_running s1) with (is_running s). rewrite Hr.
    unfold ebind, emodify, with_base, emit, complete_pending_read. simpl.
    destruct (pending_read_handler _); repeat constructor. }
  unfold final, trace in *. destruct (stop s1) as [[u s2] ev]. simpl in *. by rewrite app_nil_r.
Qed.

Lemma encrypt_batch_result e ds : forall acc (s : session),
  is_running s = true ->
  match result (encrypt_batch e ds acc) s with
  | Some out => length out = (length acc + length ds)%nat /\ trace (encrypt_batch e ds acc) s = [] /\
                is_running (final (encrypt_batch e ds acc) s) = true
  | None => stopped (final (encrypt_batch e ds acc) s) /\
            Forall (fun x => match x with Wire _ => False | _ => True end) (trace (encrypt_batch e ds acc) s)
  end.
Proof.
  induction ds as [|d ds IH]; intros acc s Hr; cbn [encrypt_batch].
  - unfold result, trace, final, eret. simpl. split_and!; [lia | done | done].
  - rewrite result_bind, trace_bind, final_bind. pose proof (encrypt_for_wire_result e d s Hr) as Hw.
    destruct (result (encrypt_for_wire e d) s) as [out|].
    + destruct Hw as [-> Hr']. set (s1 := final (encrypt_for_wire e d) s) in *. simpl app.
      specialize (IH (acc ++ [out]) (set_base (count_tx out (base s1)) s1) Hr').
      unfold result, trace, final in *. rewrite with_base_bind.
      rewrite length_app in IH. simpl in IH |- *.
      by replace (length acc + S (length ds))%nat with (length acc + 1 + length ds)%nat by lia.
    + simpl. rewrite app_nil_r. exact Hw.
Qed.

(** The batch path of a live session: encrypt everything, then one send. *)
Lemma output_batch_run e ds (s : session) :
  is_running s = true -> send_callback s = true ->
  session_output_batch e ds s =
  (tt, final (encrypt_batch e ds []) s,
   trace (encrypt_batch e ds []) s ++
   match result (encrypt_batch e ds []) s with Some pkts => [Wire pkts] | None => [] end).
Proof.
  intros Hr Hc. unfold session_output_batch. rewrite gets_bind, Hr, Hc. cbn [andb negb].
  rewrite ebind_run. by destruct (result (encrypt_batch e ds []) s).
Qed.

(** A burst is all or nothing. Either every datagram of the flush cycle
    is encrypted and the whole burst leaves in one send, in order, the session
    still running; or an encryption failed, and then nothing of the burst
    leaves and the session is stopped with its pending read aborted: the peer
    never sees a stream with a hole in it. *)
Theorem burst_all_or_nothing (e : tenv) (ds : list (list Z)) (s : session) :
  is_running s = true -> send_callback s = true ->
  (exists pkts, trace (session_output_batch e ds) s = [Wire pkts] /\ length pkts = length ds /\
                is_running (final (session_output_batch e ds) s) = true) \/
  (stopped (final (session_output_batch e ds) s) /\
   Forall (fun x => match x with Wire _ => False | _ => True end) (trace (session_output_batch e ds) s)).
Proof.
  intros Hr Hc. pose proof (encrypt_batch_result e ds [] s Hr) as Hb.
  unfold trace, final. rewrite output_batch_run by done. simpl.
  destruct (result (encrypt_batch e ds []) s) as [out|]; [left|right].
  - destruct Hb as (Hl & Ht & Hr'). exists out. by rewrite Ht.
  - by rewrite app_nil_r.
Qed.

(** ** The peer's end *)

Lemma accept_newer (seen : list Z) c : Forall (fun x => x < c) seen -> Crypto.accept_spec seen c = true.
Proof.
  intros Hs. rewrite list.Forall_forall in Hs. unfold Crypto.accept_spec. apply andb_true_iff. split.
  - apply bool_decide_eq_true_2. intros Hin. specialize (Hs c Hin). lia.
  - apply Crypto.forallb_all. intros x Hx. specialize (Hs x Hx). apply Z.leb_le.
    unfold REPLAY_WINDOW_BITS. lia.
Qed.

Fixpoint sealed_run (psk salt : list Z) (direction counter : Z) (ms : list (list Z)) : list (list Z) :=
  match ms with
  | [] => []
  | m :: ms' => Crypto.sealed psk salt direction counter m :: sealed_run psk salt direction (counter + 1) ms'
  end.

Lemma decrypt_run_in_order {AL : Crypto.AeadLaws A} psk salt direction ms : forall counter seen c,
  psk <> [] -> length salt = SESSION_SALT_SIZE -> 0 <= counter ->
  counter + Z.of_nat (length ms) <= MAX_COUNTER ->
  Crypto.can_receive psk salt c -> Crypto.peer_direction c = direction ->
  Crypto.window_inv seen c -> Forall (fun x => x < counter) seen ->
  Crypto.decrypt_all c (sealed_run psk salt direction counter ms) = (fun m => (m, ec_none)) <$> ms.
Proof.
  induction ms as [|m ms IH]; intros counter seen c Hp Hl H0 Hmax Hr Hd Hw Hs; [done|].
  cbn [sealed_run Crypto.decrypt_all]. unfold Crypto.decrypt_noexcept. cbn [length] in Hmax.
  destruct (Crypto.decrypt_sealed psk salt direction counter m [] seen c Hr Hp Hl Hd Hw ltac:(lia)
              (accept_newer seen counter Hs)) as (c' & -> & Hk & Hd' & Hw').
  rewrite fmap_cons. f_equal. apply (IH (counter + 1) (counter :: seen)); try done; try lia.
  - by left.
  - constructor; [lia|]. by apply (List.Forall_impl _ (P := fun x => x < counter)); [intros; lia|].
Qed.

Lemma encrypt_for_wire_sealed e psk salt d (s : session) :
  (forall n, e_fault e n = Crypto.no_fault) -> length salt = SESSION_SALT_SIZE ->
  let c := t_crypto (base s) in
  Crypto.keyed psk salt c -> Crypto.encrypt_counter c < MAX_COUNTER ->
  encrypt_for_wire e d s =
  (Some (Crypto.sealed psk salt (Crypto.local_direction c) (Crypto.encrypt_counter c) d),
   set_base (set_crypto (Crypto.set_counter (u64 (Crypto.encrypt_counter c + 1)) c) (base s)) s, []).
Proof.
  intros Hf Hl c Hk Hc. unfold encrypt_for_wire. rewrite gets_bind. fold c.
  by rewrite Hf, (Crypto.encrypt_sealed psk salt) by (done || lia).
Qed.

Lemma encrypt_batch_sealed e psk salt ds : forall acc (s : session),
  (forall n, e_fault e n = Crypto.no_fault) -> length salt = SESSION_SALT_SIZE ->
  Crypto.keyed psk salt (t_crypto (base s)) ->
  0 <= Crypto.encrypt_counter (t_crypto (base s)) ->
  Crypto.encrypt_counter (t_crypto (base s)) + Z.of_nat (length ds) <= MAX_COUNTER ->
  result (encrypt_batch e ds acc) s =
    Some (acc ++ sealed_run psk salt (Crypto.local_direction (t_crypto (base s)))
                  (Crypto.encrypt_counter (t_crypto (base s))) ds) /\
  trace (encrypt_batch e ds acc) s = [].
Proof.
  induction ds as [|d ds IH]; intros acc s Hf Hl Hk H0 Hmax; cbn [encrypt_batch sealed_run].
  { rewrite app_nil_r. done. }
  cbn [length] in Hmax. set (c := t_crypto (base s)) in *.
  pose proof (encrypt_for_wire_sealed e psk salt d s Hf Hl Hk ltac:(fold c; lia)) as Hw. fold c in Hw.
  unfold result, trace in *. unfold ebind at 1 3. rewrite Hw, !with_base_bind. simpl.
  set (s1 := set_base _ _).
  assert (Hn : Crypto.encrypt_counter (t_crypto (base s1)) = Crypto.encrypt_counter c + 1)
    by (apply u64_small; unfold MAX_COUNTER in Hmax; lia).
  destruct (IH (acc ++ [Crypto.sealed psk salt (Crypto.local_direction c) (Crypto.encrypt_counter c) d]) s1)
    as [I1 I2]; try done; try (rewrite Hn; lia).
  destruct (encrypt_batch e ds _ s1) as [[out s2] ev]. cbn [fst snd] in I1, I2. subst.
  cbn [fst snd app]. by rewrite Hn, <- app_assoc.
Qed.

Context {AL : Crypto.AeadLaws A}.

(** What a session's flush cycle puts on the wire is what its peer reads:
    with the shared key and salt, the peer's decryption of the burst, in the
    order it was sent, yields the framed datagrams unchanged. *)
Theorem burst_reaches_peer (psk salt : list Z) (e : tenv) (ds : list (list Z)) (s : session)
    (peer : Crypto.t) (seen : list Z) :
  psk <> [] -> length salt = SESSION_SALT_SIZE ->
  is_running s = true -> send_callback s = true -> (forall n, e_fault e n = Crypto.no_fault) ->
  let c := t_crypto (base s) in
  Crypto.keyed psk salt c -> 0 <= Crypto.encrypt_counter c ->
  Crypto.encrypt_counter c + Z.of_nat (length ds) <= MAX_COUNTER ->
  Crypto.can_receive psk salt peer -> Crypto.peer_direction peer = Crypto.local_direction c ->
  Crypto.window_inv seen peer -> Forall (fun x => x < Crypto.encrypt_counter c) seen ->
  exists pkts, trace (session_output_batch e ds) s = [Wire pkts] /\
               Crypto.decrypt_all peer pkts = (fun m => (m, ec_none)) <$> ds.
Proof.
  intros Hp Hl Hr Hc Hf c Hk H0 Hmax Hrecv Hd Hw Hs.
  destruct (encrypt_batch_sealed e psk salt ds [] s Hf Hl Hk H0 Hmax) as [Hres Htr].
  eexists. split.
  - unfold trace. rewrite output_batch_run by done. simpl. by rewrite Hres, Htr.
  - by apply (decrypt_run_in_order psk salt _ ds _ seen).
Qed.
End Wire.

(** ** Reception, the tick and the write loop *)

Section Strand.
Context {A : Crypto.Aead} {K : Kcp} {F : FecCodec}.

(** A datagram that does not authenticate, or that the replay window
    rejects, is inert: beyond the cipher's own state, its output buffer and the
    counters nothing of the session changes. KCP is not fed, the activity clock
    is not refreshed, no read is served, nothing is sent. *)
Theorem rejected_datagram_is_inert (e : tenv) (d : list Z) (s : session) :
  let '(c, plain, ec) := Crypto.decrypt_impl (e_rx_fault e) d (decrypt_buf (base s)) (t_crypto (base s)) in
  ec_failed ec = true ->
  trace (on_receive e d) s = [] /\
  (is_running s = true ->
   exists m, final (on_receive e d) s =
               set_base (set_metrics m (set_decrypt_buf plain (set_crypto c (base s)))) s /\
             m udp_rx_packets = u64 (metrics (base s) udp_rx_packets + 1) /\
             let reason := if bool_decide (ec = ec_replay) then replay_dropped else decrypt_errors in
             m reason = u64 (metrics (base s) reason + 1)).
Proof.
  unfold trace, final, on_receive. rewrite gets_bind.
  destruct (is_running s); cbn [negb];
    [|destruct (Crypto.decrypt_impl _ _ _ _) as [[c plain] ec]; by split].
  rewrite look_bind. unfold id. cbn [tun session_output_host].
  destruct (Crypto.decrypt_impl _ d _ _) as [[c plain] ec]. intros Hec.
  rewrite !upd_bind. rewrite tun_set, set_tun_set. rewrite Hec.
  case_bool_decide as Hr; rewrite upd_run, tun_set, set_tun_set; (split; [done|]); intros _;
    (eexists; split; [reflexivity|]); by unfold metric_add.
Qed.

Lemma close_keeps_kcp (s : session) :
  let s' := final close_connection s in
  wait_send (base s') = wait_send (base s) /\ target_closed s' = target_closed s /\ drained_cb s' = drained_cb s.
Proof.
  unfold close_connection, stop, final, ebind, ewhen, emit, egets, emodify, with_base, eret,
    complete_pending_read. simpl.
  repeat (case_bool; simpl; try done); by destruct (pending_read_handler (base s)).
Qed.

Lemma maybe_drained_done (s : session) :
  let s' := final maybe_drained s in
  target_closed s' = true -> wait_send (base s') = 0 -> drained_cb s' = false.
Proof.
  cbv zeta. unfold maybe_drained. rewrite final_bind.
  change (result (egets id) s) with s. change (final (egets id) s) with s.
  destruct (target_closed s && (wait_send (base s) =? 0) && drained_cb s) eqn:E.
  - intros _ _. rewrite !final_bind.
    exact (proj2 (proj2 (close_keeps_kcp (set_drained_callback false s)))).
  - change (final (eret tt) s) with s. intros Hc Hw. rewrite Hc, Hw in E. by destruct (drained_cb s).
Qed.

(** Nothing but the drained branch of the tick announces it. *)
Definition not_drained (x : event) : Prop := match x with DrainedCallback => False | _ => True end.

Ltac quiet_walk :=
  repeat first [keeps_step | apply keeps_gets; apply _ | apply emits_upd | apply emits_modify
    | apply emits_emit; exact I].

Lemma nd_stop : keeps (emits not_drained) stop.
Proof.
  unfold stop. quiet_walk.
  exact (emits_on_tun (St := session) not_drained _ (emits_complete _ (fun _ _ _ => I) _)).
Qed.

Lemma nd_encrypt e d : keeps (emits not_drained) (encrypt_for_wire e d).
Proof.
  unfold encrypt_for_wire. quiet_walk; apply nd_stop.
Qed.

Lemma nd_batch e ds : forall acc, keeps (emits not_drained) (encrypt_batch e ds acc).
Proof.
  induction ds as [|d ds IH]; intros acc; cbn [encrypt_batch]; quiet_walk; auto using nd_encrypt.
Qed.

Lemma nd_close : keeps (emits not_drained) close_connection.
Proof. unfold close_connection. quiet_walk. apply nd_stop. Qed.

Lemma nd_output e d : keeps (emits not_drained) (handle_kcp_output (St := session) e d).
Proof. simpl. unfold session_output. quiet_walk. apply nd_encrypt. Qed.

Lemma nd_output_batch e ds : keeps (emits not_drained) (handle_kcp_output_batch (St := session) e ds).
Proof. simpl. unfold session_output_batch. quiet_walk. apply nd_batch. Qed.

Lemma nd_resume e hook : keeps (emits not_drained) (run_resume (St := session) e hook).
Proof. simpl. unfold forward_tcp_to_kcp. quiet_walk; apply nd_close. Qed.

(** Everything in the tick before the drained branch. *)
Definition tick_work (e : tenv) : M session event unit :=
  on_tun (maybe_log_stats e) ;;;
  let* due := flush_due in
  ewhen due (flush_cycle e (now_kcp_ms e)) ;;;
  let* pending := look pending_read_handler in
  ewhen (bool_decide (pending <> None)) (on_tun try_fulfill_read) ;;;
  maybe_resume_write e ;;;
  let* closed := egets target_closed in
  ewhen (negb closed) (on_tun (maybe_send_keepalive e)) ;;;
  retry_pending_fin e.

Lemma tick_split e s :
  is_running s = true -> on_update_tick e s = (tick_work e ;;; maybe_drained) s.
Proof.
  intros Hr. unfold on_update_tick, tick_work. rewrite gets_bind, Hr. cbn [negb].
  rewrite ebind_assoc. apply ebind_proper; [done|]. intros []. intros s1.
  rewrite ebind_assoc. apply ebind_proper; [done|]. intros due. intros s2.
  rewrite ebind_assoc. apply ebind_proper; [done|]. intros []. intros s3.
  rewrite ebind_assoc. apply ebind_proper; [done|]. intros pending. intros s4.
  rewrite ebind_assoc. apply ebind_proper; [done|]. intros []. intros s5.
  rewrite ebind_assoc. apply ebind_proper; [done|]. intros []. intros s6.
  rewrite ebind_assoc. apply ebind_proper; [done|]. intros closed. intros s7.
  by rewrite ebind_assoc.
Qed.

Lemma nd_tick_work e : keeps (emits not_drained) (tick_work e).
Proof.
  unfold tick_work, flush_due, look. quiet_walk.
  - by apply emits_on_tun, emits_stats.
  - apply emits_flush_cycle; [apply nd_output | apply nd_output_batch].
  - by apply emits_on_tun, emits_fulfill.
  - apply emits_resume, nd_resume.
  - by apply emits_on_tun, emits_keepalive.
  - apply emits_retry_fin; [done | apply nd_output | apply nd_output_batch].
Qed.

(** The drained teardown is never late and never early. After a tick on a
    running session it is not the case that the target has closed, the send
    buffer is empty and the teardown has still to run; and when a tick runs
    it, the target had closed and every queued byte had been acknowledged. *)
Theorem drained_teardown_exact (e : tenv) (s : session) :
  is_running s = true ->
  let s' := final (on_update_tick e) s in
  let ev := trace (on_update_tick e) s in
  (target_closed s' = true -> wait_send (base s') = 0 -> drained_cb s' = false) /\
  (DrainedCallback ∈ ev -> target_closed s' = true /\ wait_send (base s') = 0 /\ drained_cb s' = false).
Proof.
  intros Hr. cbv zeta. unfold final, trace. rewrite tick_split by done.
  rewrite ebind_run. cbn [fst snd]. set (s1 := final (tick_work e) s). split.
  - apply maybe_drained_done.
  - intros Hin. apply elem_of_app in Hin as [Hin|Hin].
    { pose proof (nd_tick_work e s) as Hf. unfold emits in Hf. rewrite list.Forall_forall in Hf.
      by specialize (Hf _ Hin). }
    revert Hin. unfold maybe_drained. rewrite final_bind, trace_bind.
    change (result (egets id) s1) with s1. change (final (egets id) s1) with s1.
    change (trace (egets id) s1) with (@nil event).
    destruct (target_closed s1 && (wait_send (base s1) =? 0) && drained_cb s1) eqn:E;
      [|by intros ?%not_elem_of_nil].
    intros _. apply andb_true_iff in E as [[Hc Hw%Z.eqb_eq]%andb_true_iff Hcb].
    rewrite !final_bind. destruct (close_keeps_kcp (set_drained_callback false s1)) as (E1 & E2 & E3).
    change (final (emit DrainedCallback) ?x) with x. change (final (emodify ?f) ?x) with (f x).
    rewrite E1, E2, E3. by split_and!.
Qed.
End Strand.

Section Resume.
Context {A : Crypto.Aead} {K : Kcp} {F : FecCodec}.

(** A session that is still running has its parked loop and its target as they
    were. *)
Definition waiting_kept (s : session) (_ : list event) (s' : session) : Prop :=
  is_running s' = true ->
  is_running s = true /\ write_resume_cb (base s') = write_resume_cb (base s) /\
  target_open s' = target_open s /\ target_closed s' = target_closed s.

#[local] Instance waiting_kept_comp : Compositional waiting_kept.
Proof.
  split; [done|]. intros s1 s2 s3 e1 e2 H1 H2 Hr. destruct (H2 Hr) as (Hr2 & -> & -> & ->). by apply H1.
Qed.

Lemma wk_upd f : (forall t, write_resume_cb (f t) = write_resume_cb t) -> keeps waiting_kept (upd f).
Proof.
  intros Hf s Hr. unfold final in *. rewrite upd_run in *.
  split_and!; [exact Hr | apply Hf | reflexivity | reflexivity].
Qed.

Lemma wk_tun {X} (m : M tunnel event X) :
  (forall t, write_resume_cb (final m t) = write_resume_cb t) -> keeps waiting_kept (on_tun m).
Proof.
  intros Hm s Hr. unfold final in *. rewrite on_tun_run in *. cbn [fst snd] in *.
  split_and!; [exact Hr | exact (Hm (base s)) | reflexivity | reflexivity].
Qed.

Lemma wk_stopped (m : M session event unit) :
  (forall s, is_running (final m s) = false) -> keeps waiting_kept m.
Proof. intros Hm s Hr. by rewrite Hm in Hr. Qed.

Lemma wk_emit x : keeps waiting_kept (emit x).
Proof. by intros s. Qed.

Ltac wk_walk :=
  repeat first [keeps_step | apply keeps_gets; apply _ | apply wk_emit | apply wk_upd; by intros
    | exact (wk_upd _ (fun _ => eq_refl))].

Lemma wk_stop : keeps waiting_kept stop.
Proof.
  apply wk_stopped. intros s. destruct (is_running s) eqn:Hr; [by apply stop_stops|].
  unfold final, stop. rewrite gets_bind, Hr. by apply flag_off_has.
Qed.

Lemma wk_encrypt e d : keeps waiting_kept (encrypt_for_wire e d).
Proof. unfold encrypt_for_wire. wk_walk. apply wk_stop. Qed.

Lemma wk_batch e ds : forall acc, keeps waiting_kept (encrypt_batch e ds acc).
Proof. induction ds as [|d ds IH]; intros acc; cbn [encrypt_batch]; wk_walk; auto using wk_encrypt. Qed.

Lemma wk_outputs e outs : keeps waiting_kept (deliver_outputs e outs).
Proof.
  unfold deliver_outputs, on_kcp_datagram, emit_output, look. wk_walk;
    cbn [handle_kcp_output session_output_host]; unfold session_output; wk_walk; apply wk_encrypt.
Qed.

Lemma wk_cycle e ms : keeps waiting_kept (flush_cycle e ms).
Proof.
  unfold flush_cycle, begin_output_batch, end_output_batch, kcp_update, kcp_flush, look. wk_walk;
    try apply wk_outputs.
  - apply wk_upd. intros t. unfold apply_rto_floor. destruct (e_rto_gate e); [|done]. by case_bool.
  - apply wk_upd. intros t. by case_bool.
  - cbn [handle_kcp_output_batch session_output_host]. unfold session_output_batch. wk_walk. apply wk_batch.
Qed.

Lemma wk_feed e d : keeps waiting_kept (feed_kcp_input e d).
Proof. unfold feed_kcp_input, feed_decoder, feed_rebuilt, kcp_input, look. wk_walk; apply wk_outputs. Qed.

Lemma fulfill_parked t : write_resume_cb (final try_fulfill_read t) = write_resume_cb t.
Proof.
  set (R := fun (t : tunnel) (_ : list event) t' => write_resume_cb t' = write_resume_cb t).
  assert (HR : Compositional R) by (split; [done | unfold R; congruence]).
  apply (keeps_fulfill R). intros fuel cap. induction fuel as [|fuel IH]; cbn [fulfill_loop]; keeps_walk; try done.
  all: intros t'; unfold R, final, complete_pending_read, recv_fixed, deliver; repeat case_match; done.
Qed.

(** The calls that look at a parked loop, up to that point: the flush and the
    reads of a tick; what a datagram that was accepted feeds. *)
Definition tick_front (e : tenv) : M session event unit :=
  on_tun (maybe_log_stats e) ;;;
  let* due := flush_due in
  ewhen due (flush_cycle e (now_kcp_ms e)) ;;;
  let* pending := look pending_read_handler in
  ewhen (bool_decide (pending <> None)) (on_tun try_fulfill_read).
Definition feed_front (e : tenv) (plain : list Z) : M session event unit :=
  let* ret := feed_kcp_input e plain in
  ewhen (ret <? 0) (emit (InputRejected ret (length plain))) ;;;
  on_tun try_fulfill_read.
Definition accept_front (e : tenv) (d : list Z) : M session event unit :=
  let* t := look id in
  let '(c, plain, ec) := Crypto.decrypt_impl (e_rx_fault e) d (decrypt_buf t) (t_crypto t) in
  upd (fun t => set_decrypt_buf plain (set_crypto c t)) ;;;
  upd (fun t => bump udp_rx_bytes (Z.of_nat (length d)) (bump udp_rx_packets 1 t)) ;;;
  upd (touch_activity e) ;;;
  upd (fun t => bump bytes_received (Z.of_nat (length plain)) (bump packets_received 1 t)) ;;;
  feed_front e plain.

(** A datagram the session's cipher accepts. *)
Definition accepted (e : tenv) (d : list Z) (s : session) : Prop :=
  (Crypto.decrypt_impl (e_rx_fault e) d (decrypt_buf (base s)) (t_crypto (base s))).2 = ec_none.

(** The three turns that resume a parked loop. *)
Inductive turn : Type := TickTurn | PacketTurn (d : list Z) | FirstTurn (plain : list Z).
Definition turn_op (e : tenv) (x : turn) : M session event unit :=
  match x with
  | TickTurn => on_update_tick e
  | PacketTurn d => on_receive e d
  | FirstTurn p => on_inject_decrypted e p
  end.
Definition turn_front (e : tenv) (x : turn) : M session event unit :=
  match x with
  | TickTurn => tick_front e
  | PacketTurn d => accept_front e d
  | FirstTurn p => upd (touch_activity e) ;;; feed_front e p
  end.

Lemma wk_feed_front e p : keeps waiting_kept (feed_front e p).
Proof. unfold feed_front. wk_walk; [apply wk_feed | apply wk_tun, fulfill_parked]. Qed.

Lemma wk_front e x : keeps waiting_kept (turn_front e x).
Proof.
  destruct x; simpl.
  - unfold tick_front, flush_due, look. wk_walk; [| apply wk_cycle | apply wk_tun, fulfill_parked].
    apply wk_tun. intros t. unfold final, maybe_log_stats. by case_bool.
  - unfold accept_front, look. apply keeps_bind; [apply _ | apply keeps_gets, _|]. intros t.
    destruct (Crypto.decrypt_impl _ _ _ _) as [[c plain] ec]. wk_walk. apply wk_feed_front.
  - wk_walk. apply wk_feed_front.
Qed.

Lemma feed_split e p s : feed_and_drain e p s = (feed_front e p ;;; maybe_resume_write e) s.
Proof.
  unfold feed_and_drain, feed_front. rewrite ebind_assoc. apply ebind_proper; [done|]. intros ret s1.
  rewrite ebind_assoc. apply ebind_proper; [done|]. by intros [] s2.
Qed.

Lemma ret_unit {S E} (m : M S E unit) s : (m ;;; eret tt) s = m s.
Proof. unfold ebind, eret. destruct (m s) as [[[] s1] e1]. by rewrite app_nil_r. Qed.

(** Each turn of a running session is its front, the test, and a rest. *)
Lemma turn_split e x s :
  is_running s = true -> (forall d, x = PacketTurn d -> accepted e d s) ->
  exists rest : M session event unit, turn_op e x s = ((turn_front e x ;;; maybe_resume_write e) ;;; rest) s.
Proof.
  intros Hr Hacc. destruct x as [|d|p]; simpl.
  - eexists. unfold on_update_tick, tick_front. rewrite gets_bind, Hr. cbn [negb].
    rewrite !ebind_assoc. apply ebind_proper; [done|]. intros [] s1.
    rewrite !ebind_assoc. apply ebind_proper; [done|]. intros due s2.
    rewrite !ebind_assoc. apply ebind_proper; [done|]. intros [] s3.
    rewrite !ebind_assoc. apply ebind_proper; [done|]. intros pending s4.
    apply ebind_proper; [done|]. intros [] s5. reflexivity.
  - exists (eret tt). specialize (Hacc d eq_refl). unfold accepted in Hacc.
    rewrite ret_unit. unfold on_receive, accept_front. rewrite gets_bind, Hr. cbn [negb].
    rewrite ebind_assoc, !look_bind. unfold id. cbn [tun session_output_host].
    destruct (Crypto.decrypt_impl _ _ _ _) as [[c plain] ec]. simpl in Hacc. subst ec.
    rewrite !ebind_assoc. apply ebind_proper; [done|]. intros [] s1.
    rewrite !ebind_assoc. apply ebind_proper; [done|]. intros [] s2. simpl.
    rewrite !ebind_assoc. apply ebind_proper; [done|]. intros [] s3.
    rewrite !ebind_assoc. apply ebind_proper; [done|]. intros [] s4. apply feed_split.
  - exists (eret tt). rewrite ret_unit. unfold on_inject_decrypted. rewrite gets_bind, Hr. cbn [negb].
    rewrite ebind_assoc. apply ebind_proper; [done|]. intros [] s1. apply feed_split.
Qed.

(** The test itself. *)
Lemma resume_run (e : tenv) (hook : Z) (s : session) :
  backpressure_resume (e_tuning e) < backpressure_threshold (e_tuning e) ->
  write_resume_cb (base s) = Some hook ->
  is_running s = true -> target_open s = true -> target_closed s = false ->
  maybe_resume_write e s =
  if backpressure_resume (e_tuning e) <? wait_send (base s)
  then (tt, s, [])
  else (tt, set_base (set_write_resume_cb None (base s)) s, [TargetRead]).
Proof.
  intros Hband Hw Hr Ho Hc. unfold maybe_resume_write. rewrite look_bind. unfold id.
  cbn [tun session_output_host]. rewrite Hw.
  destruct (Z.ltb_spec (backpressure_resume (e_tuning e)) (wait_send (base s))); [done|].
  rewrite upd_bind. cbn [run_resume session_host]. unfold forward_tcp_to_kcp. rewrite gets_bind. unfold id.
  set (s1 := set_tun _ s). change (target_closed s1) with (target_closed s).
  change (target_open s1) with (target_open s). change (is_running s1) with (is_running s).
  change (wait_send (base s1)) with (wait_send (base s)).
  rewrite Hc, Ho, Hr. simpl negb. cbn match. by rewrite (proj2 (Z.leb_gt _ _)) by lia.
Qed.

Lemma resume_band t :
  backpressure_invariant_holds t = true -> 0 < backpressure_resume t < backpressure_threshold t.
Proof.
  unfold backpressure_invariant_holds. rewrite !andb_true_iff, !Z.gtb_lt, Z.leb_le.
  unfold backpressure_resume, KCP_BACKPRESSURE_BURST_MSGS. lia.
Qed.

(** C31: backpressure never strands the target. Under a tuning whose
    backpressure invariant holds, on a running session whose target is open
    and whose read loop is parked: every tick, and every datagram the cipher
    accepts, tests the send queue after its flush and its reads (unless the
    output of that flush stopped the session). If the queue has drained to the
    resume threshold, which it has in particular when everything is
    acknowledged, the turn reads the target again and takes the hook, and it
    does not park the loop again; above the threshold the loop stays parked
    with its hook. *)
Theorem parked_loop_resumes (e : tenv) (x : turn) (hook : Z) (s : session) :
  backpressure_invariant_holds (e_tuning e) = true ->
  is_running s = true -> target_open s = true -> target_closed s = false ->
  write_resume_cb (base s) = Some hook -> (forall d, x = PacketTurn d -> accepted e d s) ->
  let s1 := final (turn_front e x) s in
  is_running s1 = true ->
  0 < backpressure_resume (e_tuning e) /\
  (wait_send (base s1) <= backpressure_resume (e_tuning e) ->
     TargetRead ∈ trace (turn_op e x) s /\
     write_resume_cb (base (final (turn_front e x ;;; maybe_resume_write e) s)) = None) /\
  (backpressure_resume (e_tuning e) < wait_send (base s1) ->
     write_resume_cb (base (final (turn_front e x ;;; maybe_resume_write e) s)) = Some hook).
Proof.
  intros Hinv Hr Ho Hc Hw Hacc s1 Hr1. pose proof (resume_band _ Hinv) as [H0 Hb].
  destruct (wk_front e x s Hr1) as (_ & W & O & C). fold s1 in W, O, C.
  rewrite Hw in W. rewrite Ho in O. rewrite Hc in C.
  pose proof (resume_run e hook s1 Hb W Hr1 O C) as Hrun.
  destruct (turn_split e x s Hr Hacc) as [rest Hs]. rewrite final_bind. fold s1.
  split; [done|]. split; intros Hq.
  - rewrite (proj2 (Z.ltb_ge _ _)) in Hrun by done. split; [|unfold final; by rewrite Hrun].
    unfold trace at 1. rewrite Hs. fold (trace ((turn_front e x ;;; maybe_resume_write e) ;;; rest) s).
    rewrite !trace_bind. fold s1. apply elem_of_app. left. apply elem_of_app. right.
    unfold trace. rewrite Hrun. by apply list_elem_of_singleton.
  - rewrite (proj2 (Z.ltb_lt _ _)) in Hrun by done. unfold final. by rewrite Hrun.
Qed.
End Resume.

(** ** Witnesses: a session over a loss-free pipe and a toy cipher *)

Module SessionExample.
#[local] Existing Instance Crypto.ToyAead.toy.
#[local] Existing Instance Crypto.ToyAead.toy_laws.
#[local] Existing Instance Loopback.loopback.
#[local] Existing Instance Loopback.loopback_laws.
#[local] Existing Instance Loopback.plain_codec.
#[local] Existing Instance Loopback.plain_codec_laws.

Definition env_at (sec : Z) : tenv :=
  mkTenv (sec * 1000000000) (fun _ => Crypto.no_fault) Crypto.no_fault None None default_tuning [].

Definition psk : list Z := Crypto.ToyAead.psk.
Definition salt : list Z := Crypto.ToyAead.salt.

Definition keyed_end (direction : Z) : Crypto.t :=
  match Crypto.Crypto_new Crypto.no_fault psk direction salt false with
  | Ret c => c
  | Throw _ => Crypto.fresh [] 0 false
  end.
Definition server_crypto : Crypto.t := keyed_end NONCE_DIR_SERVER.
Definition client_crypto : Crypto.t := keyed_end NONCE_DIR_CLIENT.

Definition session_with (fec : FecConfig) : session :=
  match new_session (env_at 100) KCP_CONV server_crypto fec with
  | Ret s => s
  | Throw _ => mkSession (mkTunnel server_crypto (KcpWrapper.create default_tuning KCP_CONV) 0 [] 0 None None []
      (fun _ => 0) false false false false false false 0 0 0 None None None [] true)
      0 false false false false false false
  end.
Definition s0 : session := session_with fec_off.

(** A keepalive and two messages waiting, nobody reading. *)
Definition with_inbox (q : list (list Z)) (s : session) : session :=
  set_base (set_kcp (KcpWrapper.mk (Loopback.mkPipe q []) 0 true) (base s)) s.
Definition ka : list Z := KCP_CONTROL_KEEPALIVE ++ salt.
Definition s_inbox : session := with_inbox [[7; 8]; ka; [9]] s0.

Lemma reads_deliver_stream_witness :
  trace (efor (on_async_read_some 100) [41; 42]) s_inbox =
  [Complete 41 ec_none [7; 8]; Complete 42 ec_none [9]].
Proof.
  assert (Hq : KcpWrapper.queue (t_kcp (tun s_inbox)) = [[7; 8]; ka; [9]]) by (by vm_compute).
  assert (Hk : build_keepalive_payload (tun s_inbox) = ka) by (by vm_compute).
  assert (Hf : build_control_payload KCP_CONTROL_FIN (tun s_inbox) = KCP_CONTROL_FIN ++ salt) by (by vm_compute).
  pose proof (reads_deliver_stream 100 [41; 42] s_inbox) as H. cbv zeta in H. rewrite Hq, Hk, Hf in H.
  rewrite H; [by vm_compute | by vm_compute | by vm_compute | | vm_compute; lia].
  assert (Hm : forall m, m <> [] -> m <> KCP_CONTROL_FIN ++ salt -> (length m <= 100)%nat ->
             stream_message (KCP_CONTROL_FIN ++ salt) 100 m)
    by (intros; unfold stream_message, FWD_BUF_SIZE; split_and!; (done || lia)).
  apply List.Forall_cons; [|apply List.Forall_cons; [|apply List.Forall_cons; [|apply List.Forall_nil]]];
    apply Hm; vm_compute; (discriminate || lia).
Defined.

Lemma read_loop_terminates_witness :
  let t := set_pending_read_handler (Some 41) (set_pending_read_buffer (Some 100%nat)
             (base (with_inbox [ka; ka] s0))) in
  result (fulfill_loop 50 100) t = true /\ peek_size (final try_fulfill_read t) <= 0.
Proof.
  intros t. destruct (read_loop_terminates 41 100 50 t eq_refl eq_refl) as (H1 & _ & _ & H4); [vm_compute; lia|].
  split; [exact H1|]. apply H4. by vm_compute.
Defined.

Lemma try_fulfill_read_contract_witness :
  let t := set_pending_read_handler (Some 41) (set_pending_read_buffer (Some 100%nat)
             (base (with_inbox [ka; KCP_CONTROL_FIN ++ salt] s0))) in
  trace try_fulfill_read t = [Complete 41 ec_eof []].
Proof.
  intros t. pose proof (try_fulfill_read_contract 41 100 t eq_refl eq_refl) as H.
  unfold trace. destruct (tunnel_read_spec 100 t) as [res q'] eqn:E. vm_compute in E. simplify_eq.
  destruct (try_fulfill_read t) as [[u t'] ev]. by destruct H as [-> _].
Defined.

(** Something to send. *)
Definition s_sending : session :=
  set_base (set_kcp (KcpWrapper.mk (Loopback.mkPipe [] [[1; 2]; [3]]) 0 true) (base s0)) s0.

Lemma flush_cycle_one_burst_witness :
  (cycle_frames (env_at 101) 5 (base s_sending)).2 = [[1; 2]; [3]] /\
  batch_depth (cycle_frames (env_at 101) 5 (base s_sending)).1 = 0.
Proof.
  pose proof (flush_cycle_one_burst (env_at 101) 5 s_sending eq_refl eq_refl) as H.
  change (tun s_sending) with (base s_sending) in H.
  split; [by vm_compute|]. destruct (cycle_frames (env_at 101) 5 (base s_sending)) as [t' fs].
  by destruct H as (_ & H & _).
Defined.

(** A sender and a receiver with FEC; the sender's KCP has two datagrams. *)
Definition s_fec : session := session_with (Build_FecConfig 10 3).
Definition s_fec_sending : session :=
  set_base (set_kcp (KcpWrapper.mk (Loopback.mkPipe [] [[1; 2; 3]; [4]]) 0 true) (base s_fec)) s_fec.

(** The receiver's KCP holds exactly the datagram, for each of the two. *)
Lemma fec_shard_reaches_kcp_witness :
  exists t' shard1 shard2 p1 p2,
    flush_cycle (env_at 101) 5 s_fec_sending =
      handle_kcp_output_batch (env_at 101) (shard1 :: p1 ++ shard2 :: p2) (set_base t' s_fec_sending) /\
    Loopback.inbox (KcpWrapper.kcp (t_kcp (base (final (feed_kcp_input (env_at 102) shard1) s_fec)))) = [[1; 2; 3]] /\
    Loopback.inbox (KcpWrapper.kcp (t_kcp (base (final (feed_kcp_input (env_at 102) shard2) s_fec)))) = [[4]].
Proof.
  edestruct (fec_shard_reaches_kcp (env_at 101) 5 s_fec_sending) as (t' & groups & Hc & Hg);
    [done | done | by vm_compute | by vm_compute | by vm_compute | by vm_compute | by repeat constructor|].
  inversion Hg as [|? ? ? ? (shard1 & p1 & -> & H1) Hg']; subst.
  inversion Hg' as [|? ? ? ? (shard2 & p2 & -> & H2) Hg2]; subst. inversion Hg2; subst.
  exists t', shard1, shard2, p1, p2. split; [by rewrite Hc; simpl; rewrite app_nil_r|].
  unfold final. by rewrite H1, H2 by (by vm_compute).
Defined.


Lemma burst_all_or_nothing_witness :
  (exists pkts, trace (session_output_batch (env_at 101) [[1]; [2]]) s0 = [Wire pkts] /\ length pkts = 2%nat /\
     is_running (final (session_output_batch (env_at 101) [[1]; [2]]) s0) = true) \/
  (stopped (final (session_output_batch (env_at 101) [[1]; [2]]) s0) /\
   Forall (fun x => match x with Wire _ => False | _ => True end)
     (trace (session_output_batch (env_at 101) [[1]; [2]]) s0)).
Proof. apply (burst_all_or_nothing (env_at 101) [[1]; [2]] s0); by vm_compute. Defined.

Lemma burst_reaches_peer_witness :
  exists pkts, trace (session_output_batch (env_at 101) [[1]; [2; 2]]) s0 = [Wire pkts] /\
               Crypto.decrypt_all client_crypto pkts = [([1], ec_none); ([2; 2], ec_none)].
Proof.
  apply (burst_reaches_peer psk salt (env_at 101) [[1]; [2; 2]] s0 client_crypto []);
    try (by vm_compute); try (vm_compute; congruence).
  - left. by vm_compute.
Defined.

Lemma rejected_datagram_is_inert_witness :
  trace (on_receive (env_at 101) [1; 2; 3]) s0 = [].
Proof.
  pose proof (rejected_datagram_is_inert (env_at 101) [1; 2; 3] s0) as H.
  destruct (Crypto.decrypt_impl _ [1; 2; 3] _ _) as [[c plain] ec] eqn:E. vm_compute in E. simplify_eq.
  by destruct (H eq_refl).
Defined.

Definition s_draining : session := set_drained_callback true (set_target_closed true s0).

Lemma drained_teardown_exact_witness :
  drained_cb (final (on_update_tick (env_at 101)) s_draining) = false.
Proof.
  destruct (drained_teardown_exact (env_at 101) s_draining) as [H _]; [by vm_compute|].
  apply H; by vm_compute.
Defined.

Lemma handshake_deadline_fixed_witness :
  handshake_stalled (env_at 131) 30
    (tun (final (perform_all [CReceive (env_at 120) [1]; CTick (env_at 130)]) s0)) = true.
Proof.
  rewrite handshake_deadline_fixed; [by vm_compute|].
  apply not_elem_of_cons; split; [done|]. apply not_elem_of_cons; split; [done|]. apply not_elem_of_nil.
Defined.

Lemma parked_loop_resumes_witness :
  TargetRead ∈ trace (on_update_tick (env_at 101)) (set_target_open true (set_base (park_write 0 (base s0)) s0)).
Proof.
  destruct (parked_loop_resumes (env_at 101) TickTurn 0 (set_target_open true (set_base (park_write 0 (base s0)) s0)))
    as (_ & H & _); [by vm_compute .. | done | by vm_compute |].
  apply H. vm_compute. congruence.
Defined.
End SessionExample.
