(* ===== verification/Connection.v ===== *)
(** * Connection: what the server does for one session

    Models the per-session handlers of [KCPServer] (server.cpp): the protocol
    handshake, the SOCKS5 request accumulator, the CONNECT command with its
    SSRF guard, deadline, resolution and upstream connect, and the two
    forwarding loops. Everything runs on the session's strand; each completion
    handler of an asynchronous operation is one operation here, and the
    environment decides which completion arrives next. *)

From Stdlib Require Import ZArith Lia.
From stdpp Require Import base list strings.
From S2P Require Import Prelude Config Asio Address Socks5 Allowlist Effects Kcp Tunnel Session.
From S2P Require Crypto.

(** Which completion handler a pending KCP read belongs to. *)
Definition H_PROTOCOL : Z := 1.
Definition H_SOCKS5 : Z := 2.
Definition H_FORWARD : Z := 3.

(** What a handler makes happen: the session's events and the server's own. *)
Inductive cevent : Type :=
| Ses (ev : event)
| ReplySent (code : Z)
| DeadlineArmed
| DeadlineCancelled
| ResolveStart (host : list Z) (port : Z)
| ResolveCancelled
| ConnectStart (host : list Z) (port : Z) (endpoints : list ip_address)
| InitialWrite (payload : list Z)
| Threw (what : list Z).

Section Connection.
Context {I : AsioIp} {A : Crypto.Aead} {K : Kcp} {F : FecCodec}.

(** The session, the shared accumulator, and the captures of the CONNECT
    handlers: the request, its pipelined payload and the [fired] latch. *)
Record conn := mkConn {
  ses : session;
  accum : list Z;
  request : option SOCKS5Request;
  initial_payload : list Z;
  fired : bool }.

Definition set_ses (v : session) (c : conn) : conn :=
  mkConn v (accum c) (request c) (initial_payload c) (fired c).
Definition set_accum (v : list Z) (c : conn) : conn :=
  mkConn (ses c) v (request c) (initial_payload c) (fired c).
Definition set_attempt (r : SOCKS5Request) (payload : list Z) (c : conn) : conn :=
  mkConn (ses c) (accum c) (Some r) payload false.
Definition set_fired (c : conn) : conn :=
  mkConn (ses c) (accum c) (request c) (initial_payload c) true.

Abbreviation Op X := (M conn cevent X).

(** An operation of the session, and an update of one of its members. *)
Definition on_ses {X} (m : M session event X) : Op X := fun c =>
  let '(x, s, ev) := m (ses c) in (x, set_ses s c, Ses <$> ev).
Definition upd_ses (f : session -> session) : Op unit := on_ses (emodify f).
Definition look_ses {X} (f : session -> X) : Op X := egets (fun c => f (ses c)).

(** What one handler reads from outside: the session's environment and the
    operator's [allowed_targets_]. *)
Record cenv := mkCenv { c_env : tenv; c_allowed : list (list Z) }.

Definition is_target_allowed (e : cenv) (host : list Z) (port : Z) : bool :=
  target_matches_allowlist (c_allowed e) host port.

(** [send_socks5_reply]. *)
Definition send_socks5_reply (e : cenv) (reply : Z) (host : list Z) (port : Z) : Op unit :=
  match build (mkResponse reply host port) with
  | Throw what => emit (Threw what)
  | Ret data => emit (ReplySent reply) ;;; on_ses (send_data (c_env e) data)
  end.

(** A failure reply followed by the teardown. *)
Definition fail_with (e : cenv) (reply : Z) : Op unit :=
  send_socks5_reply e reply [] 0 ;;; on_ses close_connection.

(** [get_error_reply_code(ec)]. *)
Definition get_error_reply_code (ec : error_code) : Z :=
  match ec with
  | ec_connection_refused => SOCKS5_REPLY_CONNECTION_REFUSED
  | ec_network_unreachable => SOCKS5_REPLY_NETWORK_UNREACHABLE
  | ec_host_unreachable => SOCKS5_REPLY_HOST_UNREACHABLE
  | ec_timed_out => SOCKS5_REPLY_TTL_EXPIRED
  | _ => SOCKS5_REPLY_GENERAL_FAILURE
  end.

(** ** The forwarding loops *)

(** [forward_kcp_to_tcp]: claim the loop, check the tables, register a read. *)
Definition forward_kcp_to_tcp (e : cenv) : Op unit :=
  let* s := look_ses id in
  if target_closed s then upd_ses (flag_off FORWARD_READ_PENDING)
  else if peer_fin_received (base s) then upd_ses (flag_off FORWARD_READ_PENDING)
  else
    let* old := on_ses try_set_forward_read_pending in
    if old : bool then eret tt
    else if negb (is_running s) then upd_ses (flag_off FORWARD_READ_PENDING)
    else if negb (owned s) then upd_ses (flag_off FORWARD_READ_PENDING)
    else if negb (registered s) then upd_ses (flag_off FORWARD_READ_PENDING)
    else if negb (target_open s) then upd_ses (flag_off FORWARD_READ_PENDING)
    else on_ses (on_async_read_some (Z.to_nat FWD_BUF_SIZE) H_FORWARD).

(** The completion of that read. *)
Definition on_forward_read (e : cenv) (ec : error_code) (data : list Z) : Op unit :=
  if bool_decide (ec = ec_eof) then
    upd_ses (flag_off FORWARD_READ_PENDING) ;;;
    let* is_open := look_ses target_open in
    ewhen is_open (on_ses (emit TargetShutdownSend))
  else if ec_failed ec || bool_decide (data = []) then on_ses close_connection
  else
    let* closed := look_ses target_closed in
    if closed : bool then upd_ses (flag_off FORWARD_READ_PENDING)
    else on_ses (emit (TargetWrite data)).

(** The completion of the write to the target. *)
Definition on_forward_written (e : cenv) (ec : error_code) : Op unit :=
  if ec_failed ec then on_ses (handle_target_closed (c_env e))
  else
    let* run := look_ses is_running in
    upd_ses (flag_off FORWARD_READ_PENDING) ;;;
    ewhen run (forward_kcp_to_tcp e).

(** The completion of the target read [forward_tcp_to_kcp] started. *)
Definition on_target_read (e : cenv) (ec : error_code) (data : list Z) : Op unit :=
  if ec_failed ec || bool_decide (data = []) then on_ses (handle_target_closed (c_env e))
  else on_ses (send_data (c_env e) data) ;;; on_ses (forward_tcp_to_kcp (c_env e)).

(** ** The CONNECT command *)

(** [handle_connect_command]: the deadline, then the early SSRF guard on a
    literal address, then the resolution. *)
Definition handle_connect_command (e : cenv) (r : SOCKS5Request) (payload : list Z) : Op unit :=
  emodify (set_attempt r payload) ;;;
  emit DeadlineArmed ;;;
  let literal_restricted :=
    match make_address (req_host r) with Some ip => is_restricted_target ip | None => false end in
  if literal_restricted && negb (is_target_allowed e (req_host r) (req_port r)) then
    emodify set_fired ;;;
    emit DeadlineCancelled ;;;
    fail_with e SOCKS5_REPLY_NOT_ALLOWED
  else emit (ResolveStart (req_host r) (req_port r)).

(** The deadline handler. *)
Definition on_deadline (e : cenv) (ec : error_code) : Op unit :=
  if bool_decide (ec = ec_operation_aborted) then eret tt
  else
    let* was := egets fired in
    if was : bool then eret tt
    else
      emodify set_fired ;;;
      emit ResolveCancelled ;;;
      let* is_open := look_ses target_open in
      ewhen is_open (upd_ses (set_target_open false) ;;; on_ses (emit TargetClosed)) ;;;
      fail_with e SOCKS5_REPLY_TTL_EXPIRED.

(** The resolution handler: the post-resolve SSRF guard looks at every
    endpoint, then the connect is started on the whole set. *)
Definition on_resolved (e : cenv) (ec : error_code) (results : list ip_address) : Op unit :=
  let* was := egets fired in
  let* req := egets request in
  match was, req with
  | false, Some r =>
      if ec_failed ec then
        emodify set_fired ;;; emit DeadlineCancelled ;;; fail_with e SOCKS5_REPLY_HOST_UNREACHABLE
      else if existsb is_restricted_target results &&
              negb (is_target_allowed e (req_host r) (req_port r)) then
        emodify set_fired ;;; emit DeadlineCancelled ;;; fail_with e SOCKS5_REPLY_NOT_ALLOWED
      else
        upd_ses (set_target_open true) ;;; emit (ConnectStart (req_host r) (req_port r) results)
  | _, _ => eret tt
  end.

(** [start_forwarding]: only the session that still owns the endpoint. *)
Definition start_forwarding (e : cenv) : Op unit :=
  let* own := look_ses owned in
  if negb own then upd_ses (set_target_open false)
  else
    upd_ses (set_tables true true) ;;;
    upd_ses (set_drained_callback true) ;;;
    on_ses (forward_tcp_to_kcp (c_env e)) ;;;
    forward_kcp_to_tcp e.

(** The connect handler; [local] is the bound address and port, if known. *)
Definition on_connected (e : cenv) (ec : error_code) (local : option (ip_address * Z)) : Op unit :=
  let* was := egets fired in
  if was : bool then eret tt
  else
    emodify set_fired ;;;
    emit DeadlineCancelled ;;;
    if ec_failed ec then fail_with e (get_error_reply_code ec)
    else
      (match local with
       | Some (a, p) => send_socks5_reply e SOCKS5_REPLY_SUCCEEDED (addr_to_string a) p
       | None => send_socks5_reply e SOCKS5_REPLY_SUCCEEDED [] 0
       end) ;;;
      on_ses session_handshake_done ;;;
      let* payload := egets initial_payload in
      if bool_decide (payload = []) then start_forwarding e else emit (InitialWrite payload).

(** The completion of the pipelined payload's write. *)
Definition on_initial_written (e : cenv) (ec : error_code) : Op unit :=
  if ec_failed ec then on_ses close_connection else start_forwarding e.

(** ** The SOCKS5 request *)

(** [handle_udp_associate]: refused. *)
Definition handle_udp_associate (e : cenv) : Op unit := fail_with e SOCKS5_REPLY_COMMAND_NOT_SUPPORTED.

(** [parse_accumulated_socks5]: false when more data is needed. *)
Definition parse_accumulated_socks5 (e : cenv) : Op bool :=
  let* acc := egets accum in
  let parsed := parse_socks5_request acc in
  match pr_status parsed, pr_request parsed with
  | PsNeedMore, _ => eret false
  | PsInvalid, _ =>
      upd_ses (flag_off SOCKS5_READ_PENDING) ;;;
      fail_with e (if pr_bad_atyp parsed then SOCKS5_REPLY_ADDRESS_TYPE_NOT_SUPPORTED
                   else SOCKS5_REPLY_GENERAL_FAILURE) ;;;
      eret true
  | PsComplete, None => upd_ses (flag_off SOCKS5_READ_PENDING) ;;; eret true
  | PsComplete, Some r =>
      upd_ses (flag_off SOCKS5_READ_PENDING) ;;;
      (if req_cmd r =? SOCKS5_CMD_CONNECT then
         upd_ses (flag_on CONNECT_PENDING) ;;; handle_connect_command e r (req_initial_payload r)
       else if req_cmd r =? SOCKS5_CMD_UDP_ASSOCIATE then handle_udp_associate e
       else fail_with e SOCKS5_REPLY_COMMAND_NOT_SUPPORTED) ;;;
      eret true
  end.

(** [read_more_socks5]. *)
Definition read_more_socks5 (e : cenv) : Op unit :=
  let* acc := egets accum in
  let* parsed := (if bool_decide (acc = []) then eret false else parse_accumulated_socks5 e) in
  if parsed : bool then eret tt
  else
    upd_ses (flag_on SOCKS5_READ_PENDING) ;;;
    on_ses (on_async_read_some (Z.to_nat FWD_BUF_SIZE) H_SOCKS5).

(** [handle_socks5_request(session, initial_data)]. *)
Definition handle_socks5_request (e : cenv) (initial : list Z) : Op unit :=
  emodify (set_accum initial) ;;; read_more_socks5 e.

(** The completion of a fragment's read: bound, append, parse. *)
Definition on_socks5_read (e : cenv) (ec : error_code) (data : list Z) : Op unit :=
  if ec_failed ec then
    upd_ses (flag_off SOCKS5_READ_PENDING) ;;; fail_with e SOCKS5_REPLY_GENERAL_FAILURE
  else
    let* acc := egets accum in
    if FWD_BUF_SIZE <? Z.of_nat (length acc) + Z.of_nat (length data) then
      upd_ses (flag_off SOCKS5_READ_PENDING) ;;; fail_with e SOCKS5_REPLY_GENERAL_FAILURE
    else
      emodify (set_accum (acc ++ data)) ;;;
      let* parsed := parse_accumulated_socks5 e in
      if parsed : bool then eret tt else read_more_socks5 e.

(** ** Dispatch *)

(** [handle_protocol_handshake]. *)
Definition handle_protocol_handshake : Op unit :=
  upd_ses (flag_on SOCKS5_READ_PENDING) ;;;
  on_ses (on_async_read_some (Z.to_nat FWD_BUF_SIZE) H_PROTOCOL).

(** [handle_kcp_data]. *)
Definition handle_kcp_data (e : cenv) : Op unit :=
  let* s := look_ses id in
  if peek_size (base s) <=? 0 then eret tt
  else if negb (is_protocol_handshake_done s) then
    if is_socks5_read_pending s then eret tt else handle_protocol_handshake
  else if handshake_done (base s) then forward_kcp_to_tcp e
  else if is_socks5_read_pending s || is_connect_pending s then eret tt
  else handle_socks5_request e [].

(** The completion of the handshake read. *)
Definition on_protocol_read (e : cenv) (ec : error_code) (data : list Z) : Op unit :=
  upd_ses (flag_off SOCKS5_READ_PENDING) ;;;
  if ec_failed ec || bool_decide (data = []) then on_ses close_connection
  else
    let hello_v2 := bool_decide (data = KCP_CONTROL_HELLO_V2) in
    if negb (bool_decide (data = KCP_CONTROL_HELLO)) && negb hello_v2 then
      upd_ses (flag_on PROTOCOL_HS_DONE) ;;; handle_socks5_request e data
    else
      upd_ses (flag_on PROTOCOL_HS_DONE) ;;;
      ewhen hello_v2 (on_ses (upd enable_fin)) ;;;
      on_ses (send_data (c_env e) (if hello_v2 then KCP_CONTROL_HELLO_ACK_V2 else KCP_CONTROL_HELLO_ACK)) ;;;
      handle_kcp_data e.

(** The completion of a KCP read goes to the handler it was registered with. *)
Definition on_read_complete (e : cenv) (handler : Z) (ec : error_code) (data : list Z) : Op unit :=
  if handler =? H_PROTOCOL then on_protocol_read e ec data
  else if handler =? H_SOCKS5 then on_socks5_read e ec data
  else on_forward_read e ec data.

(** The datagram paths of [route_datagram_impl]: feed the session, then run
    the dispatcher on the same strand turn. *)
Definition on_datagram (e : cenv) (encrypted : list Z) : Op unit :=
  on_ses (on_receive (c_env e) encrypted) ;;; handle_kcp_data e.
Definition on_first_datagram (e : cenv) (plain : list Z) : Op unit :=
  on_ses (on_inject_decrypted (c_env e) plain) ;;; handle_kcp_data e.

(** ** The completions the environment can deliver *)

Inductive happening : Type :=
| HDatagram (encrypted : list Z)
| HFirst (plain : list Z)
| HTick
| HReadComplete (handler : Z) (ec : error_code) (data : list Z)
| HDeadline (ec : error_code)
| HResolved (ec : error_code) (results : list ip_address)
| HConnected (ec : error_code) (local : option (ip_address * Z))
| HInitialWritten (ec : error_code)
| HTargetRead (ec : error_code) (data : list Z)
| HTargetWritten (ec : error_code)
| HReplaced
| HStop.

Definition happen (e : cenv) (h : happening) : Op unit :=
  match h with
  | HDatagram d => on_datagram e d
  | HFirst p => on_first_datagram e p
  | HTick => on_ses (on_update_tick (c_env e))
  | HReadComplete h ec d => on_read_complete e h ec d
  | HDeadline ec => on_deadline e ec
  | HResolved ec rs => on_resolved e ec rs
  | HConnected ec l => on_connected e ec l
  | HInitialWritten ec => on_initial_written e ec
  | HTargetRead ec d => on_target_read e ec d
  | HTargetWritten ec => on_forward_written e ec
  | HReplaced => upd_ses (set_tables false false)
  | HStop => on_ses stop
  end.

Definition happen_all (hs : list (cenv * happening)) : Op unit :=
  efor (fun '(e, h) => happen e h) hs.
End Connection.
