(* ===== verification/ConnectionProofs.v ===== *)
(** * ConnectionProofs: guarantees of the per-session handlers

    For any sequence of completions the environment delivers: the server never
    connects to a restricted target the operator did not allow, the SOCKS5
    accumulator stays bounded, a CONNECT request gets exactly one verdict, the
    client-to-target loop runs at most once at a time. *)

From Stdlib Require Import ZArith Lia.
From stdpp Require Import base list strings.
From S2P Require Import Prelude Config Asio Address Socks5 Allowlist Effects Kcp Tunnel TunnelProofs.
From S2P Require Import Session SessionProofs Connection.
From S2P Require Crypto.

Section Ssrf.
Context {I : AsioIp} {A : Crypto.Aead} {K : Kcp} {F : FecCodec}.

(** ** The SSRF guard *)

Definition literal_restricted (host : list Z) : bool :=
  match make_address host with Some ip => is_restricted_target ip | None => false end.

(** What may be resolved and connected under an allowlist. *)
Definition target_ok (allowed : list (list Z)) (ev : cevent) : Prop :=
  match ev with
  | ResolveStart host port =>
      literal_restricted host = true -> target_matches_allowlist allowed host port = true
  | ConnectStart host port endpoints =>
      Exists (fun a => is_restricted_target a = true) endpoints ->
      target_matches_allowlist allowed host port = true
  | _ => True
  end.

Definition cemits (P : cevent -> Prop) (_ : conn) (ev : list cevent) (_ : conn) : Prop := Forall P ev.

#[export] Instance cemits_comp P : Compositional (cemits P).
Proof. split; unfold cemits; [constructor | intros; by apply Forall_app]. Qed.

Lemma cemits_ses P {X} (m : M session event X) : (forall ev, P (Ses ev)) -> keeps (cemits P) (on_ses m).
Proof.
  intros HP c. unfold cemits, trace, on_ses. destruct (m (ses c)) as [[x s] ev]. simpl.
  apply list.Forall_forall. intros y (z & -> & _)%list_elem_of_fmap. apply HP.
Qed.

Lemma cemits_modify P f : keeps (cemits P) (emodify f).
Proof. intros c. constructor. Qed.

Lemma cemits_emit (P : cevent -> Prop) ev : P ev -> keeps (cemits P) (emit ev).
Proof. intros He c. by repeat constructor. Qed.

Context (e : cenv).
Abbreviation ok := (keeps (cemits (target_ok (c_allowed e)))).

Ltac guard_walk :=
  repeat first [keeps_step | apply keeps_gets; apply _ | apply cemits_modify
    | apply cemits_ses; done | apply cemits_emit; exact Logic.I].

Lemma ok_reply r h p : ok (send_socks5_reply e r h p).
Proof. unfold send_socks5_reply. guard_walk. Qed.

Lemma ok_fail r : ok (fail_with e r).
Proof. unfold fail_with. guard_walk. apply ok_reply. Qed.

Lemma ok_connect_command r payload : ok (handle_connect_command e r payload).
Proof.
  unfold handle_connect_command. guard_walk; try apply ok_fail.
  apply cemits_emit. simpl. intros Hl. unfold literal_restricted in Hl.
  match goal with Hb : _ && negb _ = false |- _ => rewrite Hl in Hb; simpl in Hb end.
  by apply negb_false_iff.
Qed.

Lemma ok_resolved ec results : ok (on_resolved e ec results).
Proof.
  unfold on_resolved. guard_walk; try apply ok_fail.
  apply cemits_emit. simpl. intros Hl.
  assert (Hx : existsb is_restricted_target results = true).
  { apply existsb_exists. apply list.Exists_exists in Hl as (ip & Hin & Hip). exists ip. split; [|done].
    by apply list_elem_of_In. }
  match goal with Hb : _ && negb _ = false |- _ => rewrite Hx in Hb; simpl in Hb end.
  by apply negb_false_iff.
Qed.

Lemma ok_forward : ok (forward_kcp_to_tcp e).
Proof. unfold forward_kcp_to_tcp, look_ses, upd_ses. guard_walk. Qed.

Lemma ok_start : ok (start_forwarding e).
Proof. unfold start_forwarding, look_ses, upd_ses. guard_walk. apply ok_forward. Qed.

Lemma ok_parse : ok (parse_accumulated_socks5 e).
Proof. unfold parse_accumulated_socks5, handle_udp_associate, upd_ses. guard_walk; auto using ok_fail, ok_connect_command. Qed.

Lemma ok_read_more : ok (read_more_socks5 e).
Proof. unfold read_more_socks5, upd_ses. guard_walk; auto using ok_parse. Qed.

Lemma ok_request d : ok (handle_socks5_request e d).
Proof. unfold handle_socks5_request. guard_walk. apply ok_read_more. Qed.

Lemma ok_kcp_data : ok (handle_kcp_data e).
Proof.
  unfold handle_kcp_data, handle_protocol_handshake, look_ses, upd_ses. guard_walk;
    auto using ok_forward, ok_request.
Qed.

Lemma ok_happen h : ok (happen e h).
Proof.
  destruct h; simpl; unfold on_datagram, on_first_datagram, on_read_complete, on_protocol_read, on_socks5_read,
    on_forward_read, on_deadline, on_connected, on_initial_written, on_target_read, on_forward_written,
    look_ses, upd_ses; guard_walk;
    auto using ok_kcp_data, ok_request, ok_fail, ok_parse, ok_read_more, ok_forward, ok_start, ok_reply,
      ok_resolved.
Qed.
End Ssrf.

Section Guarantees.
Context {I : AsioIp} {A : Crypto.Aead} {K : Kcp} {F : FecCodec}.

(** C5: the SSRF guard cannot be talked around. Through any sequence of
    datagrams, completions and failures, the server starts an upstream connect
    on a set of endpoints only if none of them is restricted or the operator's
    allowlist names the requested host and port, and it never even resolves a
    restricted literal address the allowlist does not name. *)
Theorem no_connection_to_restricted_target (allowed : list (list Z)) (hs : list (cenv * happening)) (c : conn) :
  Forall (fun '(e, _) => c_allowed e = allowed) hs ->
  Forall (target_ok allowed) (trace (happen_all hs) c).
Proof.
  revert c. induction hs as [|[e h] hs IH]; intros c Hall; [constructor|].
  apply list.Forall_cons in Hall as [<- Hall]. unfold happen_all. cbn [efor]. rewrite trace_bind.
  apply Forall_app. split; [apply (ok_happen e h c) | by apply IH].
Qed.

(** ** The accumulator *)

(** Data the environment delivers fits the buffers it was read into. *)
Definition fits_buffers (h : happening) : Prop :=
  match h with
  | HReadComplete _ _ d => Z.of_nat (length d) <= FWD_BUF_SIZE
  | _ => True
  end.

Definition bounded (c : conn) : Prop := Z.of_nat (length (accum c)) <= FWD_BUF_SIZE.
Definition stays_bounded (c : conn) (_ : list cevent) (c' : conn) : Prop := bounded c -> bounded c'.

#[export] Instance stays_bounded_comp : Compositional stays_bounded.
Proof. split; unfold stays_bounded; auto. Qed.

Lemma sb_ses {X} (m : M session event X) : keeps stays_bounded (on_ses m).
Proof. intros c Hc. unfold final, on_ses. by destruct (m (ses c)) as [[x s] ev]. Qed.

Lemma sb_modify f : (forall c, accum (f c) = accum c) -> keeps stays_bounded (emodify f).
Proof. intros Hf c Hc. unfold final, bounded in *. simpl. by rewrite Hf. Qed.

Lemma sb_emit ev : keeps stays_bounded (emit ev).
Proof. intros c Hc. exact Hc. Qed.

Lemma sb_set d : Z.of_nat (length d) <= FWD_BUF_SIZE -> keeps stays_bounded (emodify (set_accum d)).
Proof. intros Hd c _. exact Hd. Qed.

Ltac bound_walk :=
  repeat first [keeps_step | apply keeps_gets; apply _ | apply sb_emit | apply sb_ses | apply sb_modify; by intros].

Lemma sb_reply e r h p : keeps stays_bounded (send_socks5_reply e r h p).
Proof. unfold send_socks5_reply. bound_walk. Qed.

Lemma sb_fail e r : keeps stays_bounded (fail_with e r).
Proof. unfold fail_with. bound_walk. apply sb_reply. Qed.

Lemma sb_parse e : keeps stays_bounded (parse_accumulated_socks5 e).
Proof. unfold parse_accumulated_socks5, handle_udp_associate, handle_connect_command, upd_ses. bound_walk; apply sb_fail. Qed.

Lemma sb_read_more e : keeps stays_bounded (read_more_socks5 e).
Proof. unfold read_more_socks5, upd_ses. bound_walk. apply sb_parse. Qed.

Lemma sb_forward e : keeps stays_bounded (forward_kcp_to_tcp e).
Proof. unfold forward_kcp_to_tcp, look_ses, upd_ses. bound_walk. Qed.

Lemma sb_request e d : Z.of_nat (length d) <= FWD_BUF_SIZE -> keeps stays_bounded (handle_socks5_request e d).
Proof. intros Hd. unfold handle_socks5_request. bound_walk; [by apply sb_set | apply sb_read_more]. Qed.

Lemma sb_kcp_data e : keeps stays_bounded (handle_kcp_data e).
Proof.
  unfold handle_kcp_data, handle_protocol_handshake, look_ses, upd_ses. bound_walk;
    [apply sb_forward | by apply sb_request].
Qed.

(** The fragment handler appends only what it has checked. *)
Lemma sb_socks5_read e ec d : keeps stays_bounded (on_socks5_read e ec d).
Proof.
  unfold on_socks5_read, upd_ses. destruct (ec_failed ec); [bound_walk; apply sb_fail|].
  intros c. unfold stays_bounded, final. rewrite gets_bind.
  destruct (Z.ltb_spec FWD_BUF_SIZE (Z.of_nat (length (accum c)) + Z.of_nat (length d))) as [|Hle].
  - match goal with |- _ -> bounded (?m _).1.2 => cut (keeps stays_bounded m); [intros Hk; apply (Hk c)|] end.
    bound_walk. apply sb_fail.
  - match goal with |- _ -> bounded (?m _).1.2 => cut (keeps stays_bounded m); [intros Hk; apply (Hk c)|] end.
    bound_walk; [apply sb_set; rewrite length_app; lia | apply sb_parse | apply sb_read_more].
Qed.

Lemma sb_happen e h : fits_buffers h -> keeps stays_bounded (happen e h).
Proof.
  destruct h; simpl; intros Hf; unfold on_datagram, on_first_datagram, on_read_complete, on_protocol_read,
    on_forward_read, on_deadline, on_resolved, on_connected, on_initial_written, on_target_read,
    on_forward_written, start_forwarding, look_ses, upd_ses; bound_walk;
    auto using sb_kcp_data, sb_request, sb_fail, sb_parse, sb_read_more, sb_forward, sb_reply, sb_socks5_read.
Qed.

(** The SOCKS5 accumulator never exceeds one forwarding buffer, however
    the request is fragmented and whatever else the session goes through. *)
Theorem accumulator_bounded (hs : list (cenv * happening)) (c : conn) :
  bounded c -> Forall (fun '(_, h) => fits_buffers h) hs ->
  Z.of_nat (length (accum (final (happen_all hs) c))) <= FWD_BUF_SIZE.
Proof.
  revert c. induction hs as [|[e h] hs IH]; intros c Hc Hall; [done|].
  apply list.Forall_cons in Hall as [Hf Hall]. unfold happen_all. cbn [efor]. rewrite final_bind.
  apply IH; [|done]. by apply (sb_happen e h Hf c).
Qed.
End Guarantees.

(** ** One verdict per CONNECT *)

Section Verdict.
Context {I : AsioIp} {IL : AsioIpLaws I} {A : Crypto.Aead} {K : Kcp} {F : FecCodec}.

Definition is_reply (ev : cevent) : Prop := match ev with ReplySent _ => True | _ => False end.
#[local] Instance is_reply_dec ev : Decision (is_reply ev).
Proof. destruct ev; simpl; apply _. Defined.
Definition replies (ev : list cevent) : nat := length (filter is_reply ev).

(** [m] sends exactly [n] replies and leaves the latch alone. *)
Definition gives (n : nat) (c : conn) (ev : list cevent) (c' : conn) : Prop :=
  replies ev = n /\ fired c' = fired c /\ request c' = request c.

Lemma gives_bind {X Y} n k (m : M conn cevent X) (f : X -> M conn cevent Y) :
  keeps (gives n) m -> (forall x, keeps (gives k) (f x)) -> keeps (gives (n + k)) (ebind m f).
Proof.
  intros Hm Hf c. rewrite final_bind, trace_bind.
  destruct (Hm c) as (H1 & H2 & H3). destruct (Hf (result m c) (final m c)) as (F1 & F2 & F3).
  unfold gives, replies in *. rewrite filter_app, length_app. split_and!; [lia | congruence | congruence].
Qed.

#[export] Instance gives0_comp : Compositional (gives 0).
Proof.
  split; [done|]. intros c1 c2 c3 e1 e2 (H1 & H2 & H3) (F1 & F2 & F3). unfold gives, replies in *.
  rewrite filter_app, length_app. split_and!; [lia | congruence | congruence].
Qed.

Lemma gives_ses {X} (m : M session event X) : keeps (gives 0) (on_ses m).
Proof.
  intros c. unfold gives, trace, final, on_ses. destruct (m (ses c)) as [[x s] ev]. simpl. split_and!; [|done|done].
  induction ev as [|y ev IH]; [done|]. by rewrite fmap_cons.
Qed.

Lemma gives_emit ev : ~ is_reply ev -> keeps (gives 0) (emit ev).
Proof. intros He c. by destruct ev. Qed.

Ltac give_walk :=
  repeat first [keeps_step | apply keeps_gets; apply _ | apply gives_ses | apply gives_emit; intros []].

Lemma gives_reply e r h p :
  (exists d, build (mkResponse r h p) = Ret d) -> keeps (gives 1) (send_socks5_reply e r h p).
Proof.
  intros [d Hd]. unfold send_socks5_reply. rewrite Hd.
  apply (gives_bind 1 0); [by intros c | intros _; apply gives_ses].
Qed.

Lemma gives_fail e r : keeps (gives 1) (fail_with e r).
Proof. apply (gives_bind 1 0); [by apply gives_reply; eexists | intros _; apply gives_ses]. Qed.

Lemma gives_forward e : keeps (gives 0) (forward_kcp_to_tcp e).
Proof. unfold forward_kcp_to_tcp, look_ses, upd_ses. give_walk. Qed.

Lemma gives_start e : keeps (gives 0) (start_forwarding e).
Proof. unfold start_forwarding, look_ses, upd_ses. give_walk. apply gives_forward. Qed.

(** Handlers that never touch the deadline. *)
Definition uncancelled (ev : cevent) : Prop := ev <> DeadlineCancelled.

Ltac calm_walk :=
  repeat first [keeps_step | apply keeps_gets; apply _ | apply cemits_modify
    | apply cemits_ses; done | apply cemits_emit; done].

Lemma calm_forward e : keeps (cemits uncancelled) (forward_kcp_to_tcp e).
Proof. unfold forward_kcp_to_tcp, look_ses, upd_ses. calm_walk. Qed.

Lemma calm_start e : keeps (cemits uncancelled) (start_forwarding e).
Proof. unfold start_forwarding, look_ses, upd_ses. calm_walk. apply calm_forward. Qed.

(** The latch counts the verdicts, and the deadline is cancelled only once it
    has fired. *)
Definition latched (c : conn) (ev : list cevent) (c' : conn) : Prop :=
  (replies ev + Nat.b2n (fired c) = Nat.b2n (fired c'))%nat /\ request c' = request c /\
  (DeadlineCancelled ∈ ev -> fired c' = true).

Lemma gives_latched {X} (m : M conn cevent X) : keeps (gives 0) m -> keeps (cemits uncancelled) m -> keeps latched m.
Proof.
  intros Hg Hu c. destruct (Hg c) as (H1 & H2 & H3). unfold latched. rewrite H1, H2, H3. split_and!; [done | done |].
  intros Hin. pose proof (Hu c) as Hu'. unfold cemits in Hu'. rewrite list.Forall_forall in Hu'. by apply Hu' in Hin.
Qed.

#[export] Instance latched_comp : Compositional latched.
Proof.
  split; [intros c; unfold latched; split_and!; [done | done | by intros ?%elem_of_nil]|].
  intros c1 c2 c3 e1 e2 (H1 & H2 & H3) (F1 & F2 & F3). unfold latched, replies in *.
  rewrite filter_app, length_app. split_and!; [lia | congruence |].
  intros [Hin|Hin]%elem_of_app; [|auto]. rewrite (H3 Hin) in F1. simpl in F1. destruct (fired c3); [done | simpl in F1; lia].
Qed.

(** Setting the latch and then sending one reply. *)
Lemma fire_fired (m : M conn cevent unit) c :
  keeps (gives 1) m -> fired (final (emodify set_fired ;;; m) c) = true.
Proof. intros Hm. rewrite final_modify. destruct (Hm (set_fired c)) as (_ & -> & _). done. Qed.

Lemma fire_once (m : M conn cevent unit) c :
  fired c = false -> keeps (gives 1) m ->
  latched c (trace (emodify set_fired ;;; m) c) (final (emodify set_fired ;;; m) c).
Proof.
  intros Hf Hm. unfold latched. rewrite (fire_fired m c Hm), trace_modify, final_modify.
  destruct (Hm (set_fired c)) as (H1 & _ & H3). by rewrite H1, Hf, H3.
Qed.

Definition local_ok (local : option (ip_address * Z)) : Prop :=
  match local with Some (a, _) => ip_wf a | None => True end.

Lemma build_local r a p : ip_wf a -> exists d, build (mkResponse r (addr_to_string a) p) = Ret d.
Proof.
  intros Ha. unfold build, encode_address. simpl. rewrite make_address_to_string by done.
  case_bool_decide; destruct a; eauto.
Qed.

Lemma connected_gives e ec local :
  local_ok local -> keeps (gives 1)
    (emit DeadlineCancelled ;;;
     if ec_failed ec then fail_with e (get_error_reply_code ec)
     else
       (match local with
        | Some (a, p) => send_socks5_reply e SOCKS5_REPLY_SUCCEEDED (addr_to_string a) p
        | None => send_socks5_reply e SOCKS5_REPLY_SUCCEEDED [] 0
        end) ;;;
       on_ses session_handshake_done ;;;
       let* payload := egets initial_payload in
       if bool_decide (payload = []) then start_forwarding e else emit (InitialWrite payload)).
Proof.
  intros Hl. apply (gives_bind 0 1); [apply gives_emit; intros []|]. intros _.
  destruct (ec_failed ec); [apply gives_fail|]. apply (gives_bind 1 0).
  - destruct local as [[a p]|]; apply gives_reply; [by apply build_local | by eexists].
  - intros _. give_walk. apply gives_start.
Qed.

(** What the deadline does once it finds the attempt unsettled. *)
Lemma deadline_gives e :
  keeps (gives 1) (emit ResolveCancelled ;;;
    let* is_open := look_ses target_open in
    ewhen is_open (upd_ses (set_target_open false) ;;; on_ses (emit TargetClosed)) ;;;
    fail_with e SOCKS5_REPLY_TTL_EXPIRED).
Proof.
  apply (gives_bind 0 1); [apply gives_emit; intros []|]. intros _.
  apply (gives_bind 0 1); [apply keeps_gets, _|]. intros op.
  apply (gives_bind 0 1); [|intros _; apply gives_fail]. unfold upd_ses. give_walk.
Qed.

Lemma cancel_gives e reply : keeps (gives 1) (emit DeadlineCancelled ;;; fail_with e reply).
Proof. apply (gives_bind 0 1); [apply gives_emit; intros [] | intros _; apply gives_fail]. Qed.

(** The dispatcher never replies: without accumulated bytes it only reads. *)
Lemma kcp_data_latched e : keeps latched (handle_kcp_data e).
Proof.
  assert (Hr : forall c, handle_socks5_request e [] c =
    (upd_ses (flag_on SOCKS5_READ_PENDING) ;;; on_ses (on_async_read_some (Z.to_nat FWD_BUF_SIZE) H_SOCKS5)) (set_accum [] c)).
  { intros c. unfold handle_socks5_request. rewrite modify_bind. unfold read_more_socks5. rewrite gets_bind. simpl.
    generalize (upd_ses (flag_on SOCKS5_READ_PENDING) ;;; on_ses (on_async_read_some (Z.to_nat FWD_BUF_SIZE) H_SOCKS5)).
    intros m. unfold ebind, eret. by destruct (m (set_accum [] c)) as [[? ?] ?]. }
  apply gives_latched; unfold handle_kcp_data, handle_protocol_handshake, look_ses, upd_ses.
  - give_walk; [apply gives_forward|]. intros c. unfold trace, final. rewrite Hr.
    match goal with |- gives 0 c (?m ?c').2 _ => assert (Hm : keeps (gives 0) m) by (unfold upd_ses; give_walk); exact (Hm c') end.
  - calm_walk; [apply calm_forward|]. intros c. unfold cemits, trace. rewrite Hr.
    match goal with |- Forall _ (?m ?c').2 => apply (fun H : keeps (cemits uncancelled) m => H c') end.
    unfold upd_ses. calm_walk.
Qed.

(** Everything that can happen while a CONNECT is in progress: the request's
    own reads are over, the only reads that complete are those of the
    forwarding loop. *)
Definition during_connect (h : happening) : Prop :=
  match h with
  | HReadComplete handler _ _ => handler = H_FORWARD
  | HConnected _ local => local_ok local
  | _ => True
  end.

Lemma latched_ses {X} (m : M session event X) : keeps latched (on_ses m).
Proof. apply gives_latched; [apply gives_ses | by apply cemits_ses]. Qed.

Lemma resolved_latched e ec results : keeps latched (on_resolved e ec results).
Proof.
  intros c. unfold on_resolved. unfold trace, final. rewrite !gets_bind.
  destruct (fired c) eqn:Ef; [exact (keeps_ret latched tt c)|].
  destruct (request c) as [r|]; [|exact (keeps_ret latched tt c)].
  destruct (ec_failed ec); [|destruct (existsb _ results && negb _)].
  1,2: apply fire_once; [done | apply cancel_gives].
  match goal with |- latched _ (?m c).2 _ => apply (fun H : keeps latched m => H c) end.
  apply gives_latched; unfold upd_ses; [give_walk | calm_walk].
Qed.

Lemma latched_happen e h : during_connect h -> keeps latched (happen e h).
Proof.
  destruct h; simpl; intros Hh.
  - apply keeps_bind; [apply _ | apply latched_ses | intros _; apply kcp_data_latched].
  - apply keeps_bind; [apply _ | apply latched_ses | intros _; apply kcp_data_latched].
  - apply latched_ses.
  - subst handler. apply gives_latched; unfold on_read_complete, on_forward_read, look_ses, upd_ses; simpl;
      [give_walk | calm_walk].
  - intros c. unfold on_deadline. case_bool_decide; [exact (keeps_ret latched tt c)|].
    unfold trace, final. rewrite gets_bind. destruct (fired c) eqn:Ef; [exact (keeps_ret latched tt c)|].
    apply fire_once; [done | apply deadline_gives].
  - apply resolved_latched.
  - intros c. unfold on_connected. unfold trace, final. rewrite gets_bind.
    destruct (fired c) eqn:Ef; [exact (keeps_ret latched tt c)|]. apply fire_once; [done|]. by apply connected_gives.
  - apply gives_latched; unfold on_initial_written; [give_walk; apply gives_start | calm_walk; apply calm_start].
  - apply gives_latched; unfold on_target_read; [give_walk | calm_walk].
  - apply gives_latched; unfold on_forward_written, look_ses, upd_ses;
      [give_walk; apply gives_forward | calm_walk; apply calm_forward].
  - apply latched_ses.
  - apply latched_ses.
Qed.

(** The completions that must settle the attempt for [r]: the expiry of the
    deadline, a failed or refused resolution, any end of the connect. *)
Definition settles (r : SOCKS5Request) (x : cenv * happening) : Prop :=
  match x.2 with
  | HDeadline ec => ec <> ec_operation_aborted
  | HResolved ec results =>
      ec_failed ec = true \/
      existsb is_restricted_target results = true /\ is_target_allowed x.1 (req_host r) (req_port r) = false
  | HConnected _ local => local_ok local
  | _ => False
  end.

Lemma settles_fires r e h c :
  request c = Some r -> settles r (e, h) -> fired (final (happen e h) c) = true.
Proof.
  intros Hr. destruct h; unfold settles; simpl; try done; intros Hs.
  - unfold on_deadline. rewrite bool_decide_eq_false_2, final_gets by done.
    destruct (fired c) eqn:Ef; [done|]. apply fire_fired, deadline_gives.
  - unfold on_resolved. rewrite !final_gets, Hr. destruct (fired c) eqn:Ef; [done|].
    cbn [fst] in Hs. destruct Hs as [->|[-> ->]]; [apply fire_fired, cancel_gives|].
    destruct (ec_failed ec); simpl; apply fire_fired, cancel_gives.
  - unfold on_connected. rewrite final_gets. destruct (fired c) eqn:Ef; [done|]. by apply fire_fired, connected_gives.
Qed.

Lemma latched_run hs : Forall (fun '(_, h) => during_connect h) hs -> keeps latched (happen_all hs).
Proof. intros Hall. apply keeps_for_in; [apply _|]. intros [e h] Hin. rewrite list.Forall_forall in Hall. exact (latched_happen e h (Hall _ Hin)). Qed.

Lemma settled_run r hs c :
  Forall (fun '(_, h) => during_connect h) hs -> request c = Some r -> Exists (settles r) hs ->
  fired (final (happen_all hs) c) = true.
Proof.
  revert c. induction hs as [|[e h] hs IH]; intros c Hall Hr Hs; [inversion Hs|].
  apply list.Forall_cons in Hall as [Hh Hall]. unfold happen_all. cbn [efor]. rewrite final_bind.
  destruct (latched_happen e h Hh c) as (_ & Hr' & _). apply List.Exists_cons in Hs as [Hs|Hs].
  - apply (settles_fires r e h c Hr) in Hs. destruct (latched_run hs Hall (final (happen e h) c)) as (H1 & _).
    rewrite Hs in H1. fold (happen_all hs). destruct (fired (final (happen_all hs) _)); [done | simpl in H1; lia].
  - apply IH; [done | congruence | done].
Qed.

(** The early guard refuses the request on the spot. *)
Definition refused_at_once (e : cenv) (r : SOCKS5Request) : bool :=
  literal_restricted (req_host r) && negb (is_target_allowed e (req_host r) (req_port r)).

Lemma connect_command_run e r payload c :
  let m := handle_connect_command e r payload in
  request (final m c) = Some r /\ DeadlineArmed ∈ trace m c /\
  fired (final m c) = refused_at_once e r /\ replies (trace m c) = Nat.b2n (refused_at_once e r) /\
  (DeadlineCancelled ∈ trace m c -> refused_at_once e r = true).
Proof.
  cbv zeta. unfold handle_connect_command. rewrite final_modify, trace_modify, final_bind, trace_bind.
  change (match make_address (req_host r) with Some ip => is_restricted_target ip | None => false end)
    with (literal_restricted (req_host r)). fold (refused_at_once e r).
  set (c0 := set_attempt r payload c). change (final (emit DeadlineArmed) c0) with c0.
  change (trace (emit DeadlineArmed) c0) with [DeadlineArmed].
  destruct (refused_at_once e r).
  - pose proof (fire_fired _ c0 (cancel_gives e SOCKS5_REPLY_NOT_ALLOWED)) as Hf.
    destruct (fire_once _ c0 eq_refl (cancel_gives e SOCKS5_REPLY_NOT_ALLOWED)) as (H1 & H2 & _).
    rewrite Hf in H1. simpl in H1. rewrite Hf, H2. split_and!; [done | by left | done | | done].
    rewrite Nat.add_0_r in H1. exact H1.
  - split_and!; [done | by left | done | done |]. intros Hin.
    change (DeadlineCancelled ∈ [DeadlineArmed; ResolveStart (req_host r) (req_port r)]) in Hin.
    rewrite !elem_of_cons, elem_of_nil in Hin. by destruct Hin as [?|[?|?]].
Qed.

End Verdict.

(** ** One client-to-target loop *)

Section Forward.
Context {I : AsioIp} {A : Crypto.Aead} {K : Kcp} {F : FecCodec}.

Lemma flag_on_again (s : session) :
  is_forward_read_pending s = true -> flag_on FORWARD_READ_PENDING s = s.
Proof.
  unfold is_forward_read_pending, has_flag, flag_on, FORWARD_READ_PENDING.
  rewrite negb_true_iff, Z.eqb_neq. intros Hb.
  assert (Ht : Z.testbit (state_flags s) 4 = true).
  { apply not_false_is_true. intros Hf. apply Hb. apply Z.bits_inj'. intros n Hn.
    rewrite Z.land_spec, Z.bits_0. change 16 with (2 ^ 4). rewrite Z.pow2_bits_eqb by lia.
    destruct (Z.eqb_spec 4 n) as [<-|]; [by rewrite Hf | by rewrite andb_false_r]. }
  destruct s as [b fl sc tc dc ow rg op]. unfold set_flags. cbn [base state_flags send_callback target_closed drained_cb owned registered target_open] in *.
  f_equal.
  apply Z.bits_inj'. intros n Hn. rewrite Z.lor_spec. change 16 with (2 ^ 4). rewrite Z.pow2_bits_eqb by lia.
  destruct (Z.eqb_spec 4 n) as [<-|]; [by rewrite Ht | by rewrite orb_false_r].
Qed.

(** At most one client-to-target loop. While the loop holds its claim (it
    waits for a read or is in the middle of a write) every further request to
    start it, from whichever datagram, is a complete no-op: no second read is
    registered, so two writes to the target can never interleave. *)
Theorem forward_loop_claim_exclusive (e : cenv) (c : conn) :
  is_forward_read_pending (ses c) = true ->
  target_closed (ses c) = false -> peer_fin_received (base (ses c)) = false ->
  forward_kcp_to_tcp e c = (tt, c, []).
Proof.
  intros Hp Hc Hf. unfold forward_kcp_to_tcp, look_ses. rewrite gets_bind. unfold id. rewrite Hc, Hf.
  unfold ebind, on_ses, try_set_forward_read_pending. rewrite Hp. simpl.
  rewrite flag_on_again by done. by destruct c.
Qed.
End Forward.

(** ** Witnesses *)

Module ConnectionExample.
#[local] Existing Instance TextIp.text_ip.
#[local] Existing Instance TextIp.text_ip_laws.
#[local] Existing Instance Crypto.ToyAead.toy.
#[local] Existing Instance Loopback.loopback.
#[local] Existing Instance Loopback.plain_codec.

Definition env_at (sec : Z) : cenv := mkCenv (SessionExample.env_at sec) [].
Definition req : SOCKS5Request := mkRequest SOCKS5_CMD_CONNECT (bytes_of_string "example.com") 80 3 [].
Definition idle : conn := mkConn SessionExample.s0 [] None [] false.
Definition connecting : conn := final (handle_connect_command (env_at 101) req []) idle.

(** A name that resolves into the private network, then to a public host. *)
Definition script : list (cenv * happening) :=
  [(env_at 102, HResolved ec_none [V4 [93; 184; 216; 34]; V4 [192; 168; 0; 1]]);
   (env_at 103, HConnected ec_none None); (env_at 116, HDeadline ec_none)].

Lemma no_connection_to_restricted_target_witness :
  Forall (target_ok []) (trace (happen_all script) connecting).
Proof. apply no_connection_to_restricted_target. repeat constructor. Defined.

Lemma accumulator_bounded_witness :
  Z.of_nat (length (accum (final (happen_all script) connecting))) <= FWD_BUF_SIZE.
Proof. apply accumulator_bounded; [vm_compute; congruence | repeat constructor]. Defined.


Definition claimed : conn := set_ses (flag_on FORWARD_READ_PENDING SessionExample.s0) idle.

Lemma forward_loop_claim_exclusive_witness : forward_kcp_to_tcp (env_at 101) claimed = (tt, claimed, []).
Proof. apply forward_loop_claim_exclusive; by vm_compute. Defined.
End ConnectionExample.
