(* ===== verification/ClientSession.v ===== *)
(** * ClientSession: the client's KCP session

    Models [KCPClientSession] (kcp_client_session.cpp/.hpp): the UDP socket it
    owns and its receive loop, the KCP handshake with its deadline and its
    completion callback, the liveness timeout of the tick, the encrypting
    output path with the deferred teardown, [on_close]. It is the second
    [KcpTunnel], so it implements the interface of [Tunnel]. What the write
    loop does when it is resumed is the client's [forward_client_to_kcp]
    (client.cpp). *)

From Stdlib Require Import ZArith Lia.
From stdpp Require Import base list strings.
From S2P Require Import Prelude Config Effects Kcp Tunnel.
From S2P Require Crypto.

(** The read handler of the handshake's ACK. *)
Definition H_ACK : Z := 10.

(** How far the socket calls of [on_connect] get: [open] throws, [bind] or
    [connect] throws on an open socket, or all succeed. *)
Inductive socket_setup : Type := OpenFails | BindOrConnectFails | SocketReady.

Section ClientSession.
Context {A : Crypto.Aead} {K : Kcp} {F : FecCodec}.

(** [KCPClientSession]: its base object and its own members. [udp_socket] is
    the optional socket, with whether it is open; the timers and the receive
    operation are the waits outstanding on them; [completion] says that the
    callback given to [connect] has not been taken yet; [local_open] is the
    local application's socket, which the parked write loop captures. *)
Record client_session := mkClient {
  cbase : tunnel;
  running : bool;
  connected : bool;
  connect_pending : bool;
  encrypt_teardown : bool;
  udp_socket : option bool;
  last_rx_us : Z;
  timer_armed : bool;
  receive_armed : bool;
  backoff_armed : bool;
  completion : bool;
  local_open : bool }.

Definition set_cbase (v : tunnel) (s : client_session) : client_session :=
  mkClient v (running s) (connected s) (connect_pending s) (encrypt_teardown s) (udp_socket s)
    (last_rx_us s) (timer_armed s) (receive_armed s) (backoff_armed s) (completion s) (local_open s).
Definition set_running (v : bool) (s : client_session) : client_session :=
  mkClient (cbase s) v (connected s) (connect_pending s) (encrypt_teardown s) (udp_socket s)
    (last_rx_us s) (timer_armed s) (receive_armed s) (backoff_armed s) (completion s) (local_open s).
Definition set_connected (v : bool) (s : client_session) : client_session :=
  mkClient (cbase s) (running s) v (connect_pending s) (encrypt_teardown s) (udp_socket s)
    (last_rx_us s) (timer_armed s) (receive_armed s) (backoff_armed s) (completion s) (local_open s).
Definition set_connect_pending (v : bool) (s : client_session) : client_session :=
  mkClient (cbase s) (running s) (connected s) v (encrypt_teardown s) (udp_socket s) (last_rx_us s)
    (timer_armed s) (receive_armed s) (backoff_armed s) (completion s) (local_open s).
Definition set_encrypt_teardown (v : bool) (s : client_session) : client_session :=
  mkClient (cbase s) (running s) (connected s) (connect_pending s) v (udp_socket s) (last_rx_us s)
    (timer_armed s) (receive_armed s) (backoff_armed s) (completion s) (local_open s).
Definition set_udp_socket (v : option bool) (s : client_session) : client_session :=
  mkClient (cbase s) (running s) (connected s) (connect_pending s) (encrypt_teardown s) v
    (last_rx_us s) (timer_armed s) (receive_armed s) (backoff_armed s) (completion s) (local_open s).
Definition set_last_rx_us (v : Z) (s : client_session) : client_session :=
  mkClient (cbase s) (running s) (connected s) (connect_pending s) (encrypt_teardown s) (udp_socket
    s) v (timer_armed s) (receive_armed s) (backoff_armed s) (completion s) (local_open s).
Definition set_timer_armed (v : bool) (s : client_session) : client_session :=
  mkClient (cbase s) (running s) (connected s) (connect_pending s) (encrypt_teardown s) (udp_socket
    s) (last_rx_us s) v (receive_armed s) (backoff_armed s) (completion s) (local_open s).
Definition set_receive_armed (v : bool) (s : client_session) : client_session :=
  mkClient (cbase s) (running s) (connected s) (connect_pending s) (encrypt_teardown s) (udp_socket
    s) (last_rx_us s) (timer_armed s) v (backoff_armed s) (completion s) (local_open s).
Definition set_backoff_armed (v : bool) (s : client_session) : client_session :=
  mkClient (cbase s) (running s) (connected s) (connect_pending s) (encrypt_teardown s) (udp_socket
    s) (last_rx_us s) (timer_armed s) (receive_armed s) v (completion s) (local_open s).
Definition set_completion (v : bool) (s : client_session) : client_session :=
  mkClient (cbase s) (running s) (connected s) (connect_pending s) (encrypt_teardown s) (udp_socket
    s) (last_rx_us s) (timer_armed s) (receive_armed s) (backoff_armed s) v (local_open s).
Definition set_local_open (v : bool) (s : client_session) : client_session :=
  mkClient (cbase s) (running s) (connected s) (connect_pending s) (encrypt_teardown s) (udp_socket
    s) (last_rx_us s) (timer_armed s) (receive_armed s) (backoff_armed s) (completion s) v.

Abbreviation Op X := (M client_session event X).

(** A member of the base object run on this one. *)
Definition with_cbase {X} (m : M tunnel event X) : Op X := fun s =>
  let '(x, t, ev) := m (cbase s) in (x, set_cbase t s, ev).

(** [is_connected()]. *)
Definition is_connected (s : client_session) : bool := connected s && running s.

(** [udp_socket_ && running_]. *)
Definition can_output (s : client_session) : bool := bool_decide (udp_socket s <> None) && running s.

(** ** The encrypting output path *)

(** [if (!encrypt_teardown_.exchange(true)) asio::post(strand(), shut_down)]. *)
Definition request_teardown : Op unit := fun s =>
  (tt, set_encrypt_teardown true s, if encrypt_teardown s then [] else [PostShutDown]).

(** [encrypt_for_wire(data, out)]: [None] on a refusal, whose first occurrence
    posts the teardown. *)
Definition client_encrypt_for_wire (e : tenv) (data : list Z) : Op (option (list Z)) :=
  let* c := egets (fun s => t_crypto (cbase s)) in
  let '(c', out, ec) := Crypto.encrypt_impl (e_fault e (Crypto.encrypt_counter c)) data [] c in
  with_cbase (emodify (set_crypto c')) ;;;
  if negb (ec_failed ec) then eret (Some out)
  else
    with_cbase (emodify (bump encrypt_errors 1)) ;;;
    request_teardown ;;;
    eret None.

(** [handle_kcp_output(data)]. *)
Definition client_output (e : tenv) (data : list Z) : Op unit :=
  let* ok := egets can_output in
  if negb ok then eret tt
  else
    let* enc := client_encrypt_for_wire e data in
    match enc with
    | None => eret tt
    | Some d => with_cbase (emodify (count_tx d)) ;;; emit (Wire [d])
    end.

(** The loop of [handle_kcp_output_batch]: [None] if an encryption failed. *)
Fixpoint client_encrypt_batch (e : tenv) (datagrams encrypted : list (list Z))
  : Op (option (list (list Z))) :=
  match datagrams with
  | [] => eret (Some encrypted)
  | data :: rest =>
      let* enc := client_encrypt_for_wire e data in
      match enc with
      | None => eret None
      | Some d => with_cbase (emodify (count_tx d)) ;;; client_encrypt_batch e rest (encrypted ++ [d])
      end
  end.

(** [handle_kcp_output_batch(datagrams, count)]; the burst then goes through
    [send_batch_wire], the loop of [Udp]. *)
Definition client_output_batch (e : tenv) (datagrams : list (list Z)) : Op unit :=
  let* ok := egets can_output in
  if negb ok then eret tt
  else
    let* enc := client_encrypt_batch e datagrams [] in
    match enc with
    | None => eret tt
    | Some ds => emit (Wire ds)
    end.

#[export] Instance client_output_host : OutputHost client_session := {|
  tun := cbase;
  set_tun := set_cbase;
  handle_kcp_output := client_output;
  handle_kcp_output_batch := client_output_batch |}.

#[export] Instance client_subobject : SubObject client_session.
Proof. split; by intros; try destruct s. Qed.

(** ** Teardown *)

(** The socket is closed if there is an open one. *)
Definition close_socket : Op unit :=
  let* sock := egets udp_socket in
  ewhen (bool_decide (sock = Some true)) (emodify (set_udp_socket (Some false)) ;;; emit SocketClosed).

(** [on_close()]: one last flush while the session still counts as running,
    then everything that could restart it is disarmed. *)
Definition on_close (e : tenv) : Op unit :=
  let* run := egets running in
  if negb run then eret tt
  else
    flush_cycle e (now_kcp_ms e) ;;;
    emodify (fun s => set_connect_pending false (set_connected false (set_running false s))) ;;;
    emodify (fun s => set_backoff_armed false (set_timer_armed false s)) ;;;
    close_socket ;;;
    upd unpark_write ;;;
    on_tun (complete_pending_read ec_operation_aborted) ;;;
    emit StatsLine.

(** ** The write loop (client.cpp) *)

(** [client_socket->close()]. *)
Definition close_local : Op unit :=
  let* is_open := egets local_open in
  ewhen is_open (emodify (set_local_open false) ;;; emit LocalClosed).

Definition client_loop_hook : Z := 1.

(** [forward_client_to_kcp]: read the application again, or park. *)
Definition forward_client_to_kcp (e : tenv) : Op unit :=
  let* n := look wait_send in
  if backpressure_threshold (e_tuning e) <=? n then upd (park_write client_loop_hook)
  else emit LocalRead.

(** The parked hook: a dead session closes the application's socket. *)
Definition resume_local (e : tenv) : Op unit :=
  let* up := egets is_connected in
  if negb up then close_local else forward_client_to_kcp e.

#[export] Instance client_host : Host client_session := {|
  is_active := running;
  can_accept_data s := running s && connected s;
  shut_down := on_close;
  run_resume e _ := resume_local e |}.

(** ** Reception *)

(** [on_receive(packet)]: only an authentic packet advances [last_rx_us_]. *)
Definition client_on_receive (e : tenv) (packet : list Z) : Op unit :=
  let* run := egets running in
  if negb run then eret tt
  else
    upd (fun t => bump udp_rx_bytes (Z.of_nat (length packet)) (bump udp_rx_packets 1 t)) ;;;
    let* t := look id in
    let '(c, plain, ec) :=
      Crypto.decrypt_impl (e_rx_fault e) packet (decrypt_buf t) (t_crypto t) in
    upd (fun t => set_decrypt_buf plain (set_crypto c t)) ;;;
    if bool_decide (ec = ec_replay) then upd (bump replay_dropped 1)
    else if ec_failed ec then upd (bump decrypt_errors 1)
    else
      upd (touch_activity e) ;;;
      emodify (set_last_rx_us (now_us e)) ;;;
      upd (fun t => bump bytes_received (Z.of_nat (length plain)) (bump packets_received 1 t)) ;;;
      feed_and_drain e plain.

(** [do_udp_receive()]. *)
Definition do_udp_receive : Op unit :=
  let* ok := egets can_output in
  ewhen ok (emodify (set_receive_armed true)).

(** The completion of a receive. *)
Definition on_udp_receive (e : tenv) (ec : error_code) (packet : list Z) : Op unit :=
  emodify (set_receive_armed false) ;;;
  let* run := egets running in
  if ec_failed ec then
    if negb (bool_decide (ec = ec_operation_aborted)) && run then
      if bool_decide (ec = ec_connection_refused) || bool_decide (ec = ec_connection_reset)
      then do_udp_receive
      else emodify (set_backoff_armed true)
    else eret tt
  else if negb run then eret tt
  else ewhen (bool_decide (packet <> [])) (client_on_receive e packet) ;;; do_udp_receive.

(** The backoff timer's handler. *)
Definition on_receive_backoff (ec : error_code) : Op unit :=
  emodify (set_backoff_armed false) ;;; ewhen (negb (ec_failed ec)) do_udp_receive.

(** ** The KCP handshake *)

(** [if (h) h(ok)] after the callback was moved out of [completion]. *)
Definition take_completion (ok : bool) : Op unit :=
  let* h := egets completion in
  emodify (set_completion false) ;;; ewhen h (emit (ConnectDone ok)).

(** [send_connect_hello()]: [false] when it throws. *)
Definition send_connect_hello (e : tenv) : Op bool :=
  let* ret := on_tun (kcp_send FromHello KCP_CONTROL_HELLO_V2) in
  if ret <? 0 then eret false else flush_cycle e (now_kcp_ms e) ;;; eret true.

(** A socket that [on_close] left open because the session never ran. *)
Definition drop_socket : Op unit :=
  let* sock := egets udp_socket in
  ewhen (bool_decide (sock = Some true)) (emit SocketClosed ;;; emodify (set_udp_socket None)).

(** The catch block of [on_connect]. *)
Definition connect_failed (e : tenv) : Op unit :=
  on_close e ;;; drop_socket ;;; take_completion false.

(** The part of [on_connect] that marks the session live and starts to
    receive. *)
Definition go_live (e : tenv) : Op unit :=
  emodify (fun s => set_connect_pending true (set_connected false (set_running true s))) ;;;
  upd (touch_activity e) ;;;
  do_udp_receive.

(** The part that waits for the ACK, arms the deadline and sends the HELLO. *)
Definition start_handshake (e : tenv) : Op unit :=
  on_async_read_some (Z.to_nat FWD_BUF_SIZE) H_ACK ;;;
  emodify (set_timer_armed true) ;;;
  let* sent := send_connect_hello e in
  ewhen (negb sent) (connect_failed e).

(** [on_connect(handler)]. *)
Definition on_connect (e : tenv) (setup : socket_setup) : Op unit :=
  emodify (set_completion true) ;;;
  match setup with
  | OpenFails => emodify (set_udp_socket (Some false)) ;;; connect_failed e
  | BindOrConnectFails => emodify (set_udp_socket (Some true)) ;;; connect_failed e
  | SocketReady => emodify (set_udp_socket (Some true)) ;;; go_live e ;;; start_handshake e
  end.

(** [connect_pending_.exchange(false)]. *)
Definition take_pending : Op bool := fun s => (connect_pending s, set_connect_pending false s, []).

(** The ACK's read handler. *)
Definition on_ack (e : tenv) (ec : error_code) (msg : list Z) : Op unit :=
  let* pending := take_pending in
  if negb pending then eret tt
  else
    emodify (set_timer_armed false) ;;;
    let* h := egets completion in
    emodify (set_completion false) ;;;
    if ec_failed ec || bool_decide (msg = []) then
      on_close e ;;; ewhen h (emit (ConnectDone false))
    else if negb (bool_decide (msg = KCP_CONTROL_HELLO_ACK_V2)) &&
            negb (bool_decide (msg = KCP_CONTROL_HELLO_ACK)) then
      on_close e ;;; ewhen h (emit (ConnectDone false))
    else
      ewhen (bool_decide (msg = KCP_CONTROL_HELLO_ACK_V2)) (upd enable_fin) ;;;
      emodify (set_connected true) ;;;
      upd (touch_activity e) ;;;
      ewhen h (emit (ConnectDone true)).

(** The handshake timer's handler. *)
Definition on_connect_timer (e : tenv) (ec : error_code) : Op unit :=
  if bool_decide (ec = ec_operation_aborted) then eret tt
  else
    emodify (set_timer_armed false) ;;;
    let* pending := take_pending in
    if negb pending then eret tt else on_close e ;;; take_completion false.

(** ** The tick *)

Definition client_update_tick (e : tenv) : Op unit :=
  let* run := egets running in
  if negb run then eret tt
  else
    on_tun (maybe_log_stats e) ;;;
    let* s := egets id in
    if is_connected s && (KCP_TIMEOUT_SEC * 1000000 <? now_us e - last_rx_us s) then on_close e
    else
      let* due := flush_due in
      ewhen due (flush_cycle e (now_kcp_ms e)) ;;;
      let* pending := look pending_read_handler in
      ewhen (bool_decide (pending <> None)) (on_tun try_fulfill_read) ;;;
      maybe_resume_write e ;;;
      on_tun (maybe_send_keepalive e) ;;;
      retry_pending_fin e.

(** The constructor; the application's socket is open when it is made. *)
Definition new_client (e : tenv) (conv : Z) (crypto : Crypto.t) (fec : FecConfig) : exn_result client_session :=
  match create e conv crypto fec with
  | Ret t => Ret (mkClient t false false false false None (now_us e) false false false false true)
  | Throw what => Throw what
  end.
End ClientSession.

(** ** The calls a client session receives on its strand *)

Inductive client_call : Type :=
| KReceived (e : tenv) (ec : error_code) (packet : list Z)
| KBackoff (ec : error_code)
| KTick (e : tenv)
| KSend (e : tenv) (data : list Z)
| KRead (cap : nat) (handler : Z)
| KAck (e : tenv) (ec : error_code) (msg : list Z)
| KConnectTimer (e : tenv) (ec : error_code)
| KClose (e : tenv)
| KShutDown (e : tenv)
| KHandshakeDone
| KSendFin (e : tenv)
| KForwardLocal (e : tenv)
| KCloseLocal.

Section ClientCalls.
Context {A : Crypto.Aead} {K : Kcp} {F : FecCodec}.

Definition client_perform (c : client_call) : M client_session event unit :=
  match c with
  | KReceived e ec p => on_udp_receive e ec p
  | KBackoff ec => on_receive_backoff ec
  | KTick e => client_update_tick e
  | KSend e d => send_data e d
  | KRead cap h => on_async_read_some cap h
  | KAck e ec msg => on_ack e ec msg
  | KConnectTimer e ec => on_connect_timer e ec
  | KClose e => on_close e
  | KShutDown e => shut_down e
  | KHandshakeDone => upd mark_handshake_done
  | KSendFin e => send_fin e
  | KForwardLocal e => forward_client_to_kcp e
  | KCloseLocal => close_local
  end.

Definition client_perform_all (cs : list client_call) : M client_session event unit := efor client_perform cs.

(** What the executor can deliver: a receive completes with an abort, and a
    cancelled timer reports an error, only after [on_close] closed the socket
    and cancelled the timers. *)
Definition deliverable (c : client_call) (s : client_session) : bool :=
  match c with
  | KReceived _ ec _ => negb (bool_decide (ec = ec_operation_aborted)) || negb (running s)
  | KBackoff ec => negb (ec_failed ec) || negb (running s)
  | _ => true
  end.

(** The life of a session: created, [connect] called once, then any
    deliverable calls. *)
Inductive lived : list client_call -> list event -> client_session -> Prop :=
| lived_connect e0 conv crypto fec s0 e setup :
    new_client e0 conv crypto fec = Ret s0 ->
    lived [] (trace (on_connect e setup) s0) (final (on_connect e setup) s0)
| lived_call cs ev s c :
    lived cs ev s -> deliverable c s = true ->
    lived (cs ++ [c]) (ev ++ trace (client_perform c) s) (final (client_perform c) s).
End ClientCalls.
