(* ===== verification/ClientSessionProofs.v ===== *)
(** * ClientSessionProofs: guarantees of the client's session

    The client's session discharges the interface of [Tunnel], and over its
    whole life: the handshake gives one verdict, the receive loop is never
    lost, a FIN is sent only to a server that negotiated it, a silent server is
    noticed, the teardown after a failed encryption is requested once. *)

From Stdlib Require Import ZArith Lia.
From stdpp Require Import base list strings.
From S2P Require Import Prelude Config Effects Kcp Tunnel TunnelProofs ClientSession.
From S2P Require Crypto SessionProofs.

(** ** The session discharges the interface *)

Section Interface.
Context {A : Crypto.Aead} {K : Kcp} {F : FecCodec}.

Abbreviation ok := (keeps (on_st tun_step)).

Lemma with_cbase_step {X} (m : M tunnel event X) : keeps tun_step m -> ok (with_cbase m).
Proof. exact (keeps_on_tun (St := client_session) m). Qed.

Lemma client_member (f : client_session -> client_session) : (forall s, cbase (f s) = cbase s) -> ok (emodify f).
Proof. intros Hf s. unfold on_st, trace, final. simpl. rewrite Hf. apply comp_refl. Qed.

Lemma client_event ev : (forall t, tun_step t [ev] t) -> ok (emit ev).
Proof. intros He s. apply He. Qed.

Ltac base_upd := first [apply with_cbase_step, keeps_modify, benign; by intros
                       | apply keeps_upd, benign; by intros].
Ltac own := apply client_member; by intros.
Ltac note := apply client_event; intros; step_split.
Ltac walk := repeat first [keeps_step | apply keeps_look | base_upd | own | note].

Lemma client_encrypt_step e d : ok (client_encrypt_for_wire e d).
Proof.
  unfold client_encrypt_for_wire. walk. intros s. unfold on_st, trace, final. simpl.
  destruct (encrypt_teardown s); [apply comp_refl | step_split].
Qed.

Lemma client_encrypt_batch_step e ds : forall acc, ok (client_encrypt_batch e ds acc).
Proof.
  induction ds as [|d ds IH]; intros acc; cbn [client_encrypt_batch]; walk; auto using client_encrypt_step.
Qed.

#[export] Instance client_output_steps : OutputSteps client_session.
Proof.
  split; intros; simpl; unfold client_output, client_output_batch; walk;
    auto using client_encrypt_step, client_encrypt_batch_step.
Qed.

Lemma on_close_step e : ok (on_close e).
Proof.
  unfold on_close, close_socket. walk; [apply flush_cycle_step | apply keeps_on_tun, complete_step].
Qed.

Lemma forward_client_step e : ok (forward_client_to_kcp e).
Proof. unfold forward_client_to_kcp. walk. Qed.

#[export] Instance client_host_steps : HostSteps client_session.
Proof.
  split; intros; [apply on_close_step|]. simpl. unfold resume_local, close_local. walk.
  apply forward_client_step.
Qed.

Lemma client_on_receive_step e d : ok (client_on_receive e d).
Proof. unfold client_on_receive. walk. apply feed_and_drain_step. Qed.

Lemma on_udp_receive_step e ec d : ok (on_udp_receive e ec d).
Proof. unfold on_udp_receive, do_udp_receive. walk. apply client_on_receive_step. Qed.

Lemma client_tick_step e : ok (client_update_tick e).
Proof.
  unfold client_update_tick. walk; try apply keeps_on_tun;
    first [apply log_stats_step | apply on_close_step | apply flush_due_step | apply flush_cycle_step
          | apply try_fulfill_step | apply maybe_resume_write_step | apply keepalive_step
          | apply retry_pending_fin_step].
Qed.

Lemma connect_timer_step e ec : ok (on_connect_timer e ec).
Proof.
  unfold on_connect_timer, take_completion. walk; apply on_close_step.
Qed.

Lemma connect_failed_step e : ok (connect_failed e).
Proof. unfold connect_failed, drop_socket, take_completion. walk. apply on_close_step. Qed.
End Interface.

(** ** The members outside the base object *)

Definition is_done (ev : event) : Prop := match ev with ConnectDone _ => True | _ => False end.
Definition is_post (ev : event) : Prop := match ev with PostShutDown => True | _ => False end.

#[export] Instance is_done_dec ev : Decision (is_done ev).
Proof. unfold is_done. destruct ev; apply _. Defined.
#[export] Instance is_post_dec ev : Decision (is_post ev).
Proof. unfold is_post. destruct ev; apply _. Defined.

(** How often the connect callback ran, how often a teardown was posted. *)
Definition verdicts (ev : list event) : nat := length (filter is_done ev).
Definition posts (ev : list event) : nat := length (filter is_post ev).

Lemma verdicts_app e1 e2 : verdicts (e1 ++ e2) = (verdicts e1 + verdicts e2)%nat.
Proof. unfold verdicts. by rewrite filter_app, length_app. Qed.
Lemma posts_app e1 e2 : posts (e1 ++ e2) = (posts e1 + posts e2)%nat.
Proof. unfold posts. by rewrite filter_app, length_app. Qed.

Lemma base_events_silent ev : Forall base_event ev -> verdicts ev = 0%nat /\ posts ev = 0%nat.
Proof.
  unfold verdicts, posts. induction 1 as [|x ev Hx _ [IH1 IH2]]; [done|].
  rewrite !filter_cons. by destruct x.
Qed.

Section Members.
Context {A : Crypto.Aead} {K : Kcp} {F : FecCodec}.

(** The state of the socket, the handshake and the waits. *)
Definition shell (s : client_session) :=
  (running s, connected s, connect_pending s, udp_socket s, timer_armed s, receive_armed s, backoff_armed s).

(** What [on_close] leaves of it. *)
Definition closed_shell (s : client_session) :=
  (false, false, false, (fun _ => false) <$> udp_socket s, false, receive_armed s, false).

(** A step that leaves the shell as it is, or closes a running session; the
    connect callback is neither taken nor called, and the first failed
    encryption posts one teardown. *)
Record member_step (keeps_open : bool) (s : client_session) (ev : list event) (s' : client_session) : Prop := {
  ms_shell : shell s' = shell s \/ (keeps_open = false /\ running s = true /\ shell s' = closed_shell s);
  ms_completion : completion s' = completion s;
  ms_done : verdicts ev = 0%nat;
  ms_post : (posts ev + Nat.b2n (encrypt_teardown s) = Nat.b2n (encrypt_teardown s'))%nat }.

#[export] Instance member_step_comp b : Compositional (member_step b).
Proof.
  split; [intros s; split; auto; unfold posts; simpl; lia|].
  intros s1 s2 s3 e1 e2 [S1 C1 D1 P1] [S2 C2 D2 P2].
  split; [|congruence | by rewrite verdicts_app, D1, D2 | rewrite posts_app; lia].
  unfold shell, closed_shell in *.
  destruct S1 as [S1|(Hb & Hr & S1)]; destruct S2 as [S2|(Hb2 & Hr2 & S2)].
  - left. congruence.
  - right. split_and!; [done | congruence|]. rewrite S2. congruence.
  - right. split_and!; [done | done | congruence].
  - simplify_eq. congruence.
Qed.

Lemma member_weaken {X} (m : M client_session event X) : keeps (member_step true) m -> keeps (member_step false) m.
Proof. intros Hm s. destruct (Hm s) as [[S1|(? & _)] C1 D1 P1]; [|done]. split; auto. Qed.

#[export] Instance member_base b : BaseFrame (St := client_session) (member_step b).
Proof.
  split; [apply _|]. intros t s ev [Hd Hp]%base_events_silent. split; [by left | done | done |].
  rewrite Hp. done.
Qed.

(** Members the relation does not mention, and events it does not count. *)
Lemma member_set b (f : client_session -> client_session) :
  (forall s, shell (f s) = shell s /\ completion (f s) = completion s /\
             encrypt_teardown (f s) = encrypt_teardown s) -> keeps (member_step b) (emodify f).
Proof.
  intros Hf s. destruct (Hf s) as (H1 & H2 & H3). unfold trace, final. simpl.
  split; [by left | done | done | by rewrite H3].
Qed.

Lemma member_emit b ev : ~ is_done ev -> ~ is_post ev -> keeps (member_step b) (emit ev).
Proof.
  intros Hd Hp s. unfold trace, final. simpl. split; [by left | done | |]; unfold verdicts, posts.
  - by rewrite filter_cons_False.
  - by rewrite filter_cons_False.
Qed.

Lemma member_with_cbase b {X} (m : M tunnel event X) :
  keeps (emits base_event) m -> keeps (member_step b) (with_cbase m).
Proof. exact (frame_tun (St := client_session) (member_step b) m). Qed.

Ltac member :=
  repeat first [keeps_step | apply frame_look; apply _ | apply frame_upd; apply _
    | apply member_with_cbase; by intros ? | apply member_set; by intros | apply member_emit; solve [intros []]].

Lemma member_request b : keeps (member_step b) request_teardown.
Proof.
  intros s. unfold trace, final. simpl.
  split; [by left | done | |]; simpl; by destruct (encrypt_teardown s).
Qed.

Lemma member_encrypt b e d : keeps (member_step b) (client_encrypt_for_wire e d).
Proof. unfold client_encrypt_for_wire. member. apply member_request. Qed.

Lemma member_encrypt_batch b e ds : forall acc, keeps (member_step b) (client_encrypt_batch e ds acc).
Proof.
  induction ds as [|d ds IH]; intros acc; cbn [client_encrypt_batch]; member; auto using member_encrypt.
Qed.

#[export] Instance member_output b : OutputFrame (St := client_session) (member_step b).
Proof.
  split; intros; simpl; unfold client_output, client_output_batch; member;
    auto using member_encrypt, member_encrypt_batch.
Qed.

(** Everything of [on_close] after its last flush. *)
Definition close_rest : M client_session event unit :=
  emodify (fun s => set_connect_pending false (set_connected false (set_running false s))) ;;;
  emodify (fun s => set_backoff_armed false (set_timer_armed false s)) ;;;
  close_socket ;;;
  upd unpark_write ;;;
  on_tun (complete_pending_read ec_operation_aborted) ;;;
  emit StatsLine.

Lemma close_rest_shell s :
  running s = true ->
  member_step false s (trace close_rest s) (final close_rest s) /\
  shell (final close_rest s) = closed_shell s.
Proof.
  intros Hr. unfold close_rest, trace, final. rewrite !modify_bind. unfold close_socket.
  unfold ebind, egets, emodify, ewhen, emit, eret, upd, on_tun, complete_pending_read, unpark_write.
  destruct s as [t r c p et us rx ta ra ba co lo]. simpl in *. subst r.
  destruct us as [[]|]; simpl; destruct (pending_read_handler t); simpl; (split; [|done]); split; simpl; auto.
Qed.

Lemma on_close_split e s :
  running s = true -> on_close e s = (flush_cycle e (now_kcp_ms e) ;;; close_rest) s.
Proof. intros Hr. unfold on_close. by rewrite gets_bind, Hr. Qed.

Lemma member_close e : keeps (member_step false) (on_close e).
Proof.
  intros s. unfold trace, final. destruct (running s) eqn:Hr.
  - rewrite on_close_split by done. fold (trace (flush_cycle e (now_kcp_ms e) ;;; close_rest) s).
    fold (final (flush_cycle e (now_kcp_ms e) ;;; close_rest) s). rewrite trace_bind, final_bind.
    pose proof (frame_flush_cycle (member_step true) e (now_kcp_ms e) s) as Hf.
    eapply comp_trans; [apply (member_weaken (flush_cycle e (now_kcp_ms e))), frame_flush_cycle; apply _|].
    apply close_rest_shell. destruct Hf as [[Hs|(? & _)] _ _ _]; [|done]. unfold shell in Hs. congruence.
  - unfold on_close. rewrite gets_bind, Hr. apply comp_refl.
Qed.

Lemma on_close_shell e s : running s = true -> shell (final (on_close e) s) = closed_shell s.
Proof.
  intros Hr. unfold final. rewrite on_close_split by done.
  fold (final (flush_cycle e (now_kcp_ms e) ;;; close_rest) s). rewrite final_bind.
  destruct (frame_flush_cycle (member_step true) e (now_kcp_ms e) s) as [[Hs|(? & _)] _ _ _]; [|done].
  unfold shell in Hs. destruct (close_rest_shell (final (flush_cycle e (now_kcp_ms e)) s)) as [_ ->]; [congruence|].
  unfold closed_shell. congruence.
Qed.

Lemma close_stops e s : running (final (on_close e) s) = false.
Proof.
  destruct (running s) eqn:Hr.
  - pose proof (on_close_shell e s Hr) as Sh. unfold shell, closed_shell in Sh. by injection Sh as E1 _ _ _ _ _ _.
  - unfold on_close, final. by rewrite gets_bind, Hr.
Qed.

Lemma member_forward e : keeps (member_step false) (forward_client_to_kcp e).
Proof. unfold forward_client_to_kcp. member. Qed.

#[export] Instance member_host : HostFrame (St := client_session) (member_step false).
Proof.
  split; intros; [apply member_close|]. simpl. unfold resume_local, close_local. member. apply member_forward.
Qed.

Lemma member_receive e d : keeps (member_step false) (client_on_receive e d).
Proof.
  unfold client_on_receive. member. apply frame_feed_and_drain; [apply _.. |]. intros. by member.
Qed.

Lemma member_tick e : keeps (member_step false) (client_update_tick e).
Proof.
  unfold client_update_tick. member;
    first [apply member_close | apply frame_flush_due | apply frame_flush_cycle | apply frame_fulfill
          | apply frame_maybe_resume | apply frame_retry_fin | apply frame_tun]; try apply _.
  - by apply emits_stats.
  - by apply emits_keepalive.
Qed.
End Members.

(** ** The whole life of a session *)

Section Life.
Context {A : Crypto.Aead} {K : Kcp} {F : FecCodec}.

(** The invariant, apart from the receive loop. *)
Record life_inv (ev : list event) (s : client_session) : Prop := {
  li_verdict : (verdicts ev + Nat.b2n (completion s) = 1)%nat;
  li_pending : connect_pending s = true -> completion s = true /\ running s = true /\ timer_armed s = true;
  li_waiting : completion s = true -> running s = true -> connect_pending s = true;
  li_socket : udp_socket s = Some true <-> running s = true;
  li_connected : connected s = true -> running s = true;
  li_post : posts ev = Nat.b2n (encrypt_teardown s) }.

Definition receiving (s : client_session) : Prop :=
  running s = true -> receive_armed s = true \/ backoff_armed s = true.

Lemma life_member ev ev' s s' :
  life_inv ev s -> member_step false s ev' s' -> life_inv (ev ++ ev') s'.
Proof.
  intros [V P W S C T] [Sh Co D Po].
  assert (Hv : (verdicts (ev ++ ev') + Nat.b2n (completion s') = 1)%nat) by (rewrite verdicts_app, D, Co; lia).
  assert (Hp : posts (ev ++ ev') = Nat.b2n (encrypt_teardown s')) by (rewrite posts_app; lia).
  destruct Sh as [Sh|(_ & Hr & Sh)]; unfold shell, closed_shell in Sh;
    injection Sh as E1 E2 E3 E4 E5 E6 E7; split; try done; rewrite ?Co, ?E1, ?E2, ?E3, ?E4, ?E5; try done.
  split; [|done]. by destruct (udp_socket s).
Qed.

Lemma receiving_member s ev s' : receiving s -> member_step false s ev s' -> receiving s'.
Proof.
  intros Hr [Sh _ _ _] Hrun. unfold shell, closed_shell in Sh.
  destruct Sh as [Sh|(_ & _ & Sh)]; simplify_eq; [|congruence].
  destruct Hr as [Hr|Hr]; [congruence | left | right]; congruence.
Qed.

(** A change of the waits alone. *)
Lemma life_receive_armed ev s v : life_inv ev s -> life_inv ev (set_receive_armed v s).
Proof. intros [V P W S C T]. by split. Qed.
Lemma life_backoff_armed ev s v : life_inv ev s -> life_inv ev (set_backoff_armed v s).
Proof. intros [V P W S C T]. by split. Qed.

(** Re-arming the receive restores the loop. *)
Lemma rearm_receives ev s :
  life_inv ev s -> life_inv ev (final do_udp_receive s) /\ receiving (final do_udp_receive s) /\
                   trace do_udp_receive s = [].
Proof.
  intros Hi. pose proof Hi as [V P W S C T]. unfold do_udp_receive, final, trace. rewrite gets_bind.
  unfold can_output. destruct (running s) eqn:Hr.
  - rewrite bool_decide_true by (by rewrite (proj2 S eq_refl)). simpl. split_and!; [by apply life_receive_armed | intros _; by left | done].
  - rewrite andb_false_r. simpl. split_and!; [done | | done]. unfold receiving. congruence.
Qed.

Lemma life_received ev s e ec d :
  life_inv ev s -> receiving s -> deliverable (KReceived e ec d) s = true ->
  life_inv (ev ++ trace (on_udp_receive e ec d) s) (final (on_udp_receive e ec d) s) /\
  receiving (final (on_udp_receive e ec d) s).
Proof.
  intros Hi Hr Hd. pose proof (life_receive_armed ev s false Hi) as H1.
  set (s1 := set_receive_armed false s) in *.
  unfold on_udp_receive, trace, final. rewrite modify_bind, gets_bind. fold s1.
  change (running s1) with (running s). simpl in Hd.
  destruct (ec_failed ec).
  - destruct (running s) eqn:Hrun; [|rewrite andb_false_r; simpl; rewrite app_nil_r; split; [done|unfold receiving; simpl; congruence]].
    rewrite orb_false_r in Hd. rewrite Hd. simpl. destruct (_ || _).
    + destruct (rearm_receives ev s1 H1) as (H2 & H3 & H4). unfold trace, final in *. by rewrite H4, app_nil_r.
    + simpl. rewrite app_nil_r. split; [by apply life_backoff_armed | intros _; by right].
  - destruct (running s) eqn:Hrun; simpl; [|rewrite app_nil_r; split; [done|unfold receiving; simpl; congruence]].
    fold (trace (ewhen (bool_decide (d <> [])) (client_on_receive e d) ;;; do_udp_receive) s1).
    fold (final (ewhen (bool_decide (d <> [])) (client_on_receive e d) ;;; do_udp_receive) s1).
    rewrite trace_bind, final_bind.
    pose proof (keeps_when (member_step false) (bool_decide (d <> [])) (client_on_receive e d)
                  (member_receive e d) s1) as Hm.
    apply (life_member ev _ s1) in Hm; [|done].
    destruct (rearm_receives _ _ Hm) as (H2 & H3 & H4). by rewrite H4, app_nil_r.
Qed.

Lemma life_backoff ev s ec :
  life_inv ev s -> deliverable (KBackoff ec) s = true ->
  life_inv (ev ++ trace (on_receive_backoff ec) s) (final (on_receive_backoff ec) s) /\
  receiving (final (on_receive_backoff ec) s).
Proof.
  intros Hi Hd. pose proof (life_backoff_armed ev s false Hi) as H1.
  unfold on_receive_backoff, trace, final. rewrite modify_bind. simpl in Hd.
  destruct (ec_failed ec); simpl in *.
  - rewrite app_nil_r. split; [done|]. unfold receiving. simpl. by destruct (running s).
  - destruct (rearm_receives _ _ H1) as (H2 & H3 & H4). unfold trace, final in *. by rewrite H4, app_nil_r.
Qed.

(** A verdict given after closing a session whose callback was still owed. *)
Lemma closed_verdict ev e s b :
  verdicts ev = 0%nat -> posts ev = Nat.b2n (encrypt_teardown s) -> running s = true ->
  let s' := set_completion false (final (on_close e) s) in
  life_inv (ev ++ trace (on_close e) s ++ [ConnectDone b]) s' /\ receiving s'.
Proof.
  intros Hv Hp Hr. destruct (member_close e s) as [_ Co D Po].
  pose proof (on_close_shell e s Hr) as Sh. unfold shell, closed_shell in Sh.
  injection Sh as E1 E2 E3 E4 E5 E6 E7. cbv zeta.
  split; [|unfold receiving; simpl; rewrite E1; done].
  split; simpl; rewrite ?E1, ?E2, ?E3, ?E4; try done.
  - rewrite !verdicts_app, Hv, D. done.
  - split; [|done]. by destruct (udp_socket s).
  - rewrite !posts_app, Hp. unfold posts at 2. simpl. lia.
Qed.

Lemma completion_taken s : completion s = false -> set_completion false s = s.
Proof. destruct s. by intros [=->]. Qed.

(** The handshake's two handlers when nothing is owed any more. *)
Lemma pending_settled ev s :
  life_inv ev s -> connect_pending s = false -> set_connect_pending false s = s.
Proof. destruct s. by intros _ [=->]. Qed.

Lemma take_pending_bind {X} (k : bool -> M client_session event X) s :
  (let* p := take_pending in k p) s = k (connect_pending s) (set_connect_pending false s).
Proof. unfold ebind, take_pending. by destruct (k _ _) as [[x s'] ev]. Qed.

Lemma life_ack ev s e ec msg :
  life_inv ev s -> receiving s ->
  life_inv (ev ++ trace (on_ack e ec msg) s) (final (on_ack e ec msg) s) /\
  receiving (final (on_ack e ec msg) s).
Proof.
  intros Hi Hr. pose proof Hi as [V P W S C T]. unfold on_ack, trace, final.
  rewrite take_pending_bind. destruct (connect_pending s) eqn:Ep; cbn [negb].
  2:{ cbn [eret fst snd]. rewrite app_nil_r, (pending_settled ev) by done. done. }
  destruct P as (Hc & Hrun & Ht); [done|]. rewrite Hc in V. simpl in V.
  rewrite modify_bind, gets_bind, modify_bind. cbn [completion set_timer_armed set_connect_pending]. rewrite Hc.
  set (s1 := set_completion false _).
  assert (Hfail : life_inv (ev ++ trace (on_close e ;;; ewhen true (emit (ConnectDone false))) s1)
             (final (on_close e ;;; ewhen true (emit (ConnectDone false))) s1) /\
    receiving (final (on_close e ;;; ewhen true (emit (ConnectDone false))) s1)).
  { rewrite trace_bind, final_bind. cbn [ewhen].
    destruct (closed_verdict ev e s1 false) as [H1 H2]; [lia | done | done |].
    rewrite completion_taken in H1, H2 by (by destruct (member_close e s1) as [_ -> _ _]). by split. }
  destruct (ec_failed ec || _); [exact Hfail|]. destruct (_ && _); [exact Hfail|].
  set (v2 := bool_decide (msg = KCP_CONTROL_HELLO_ACK_V2)).
  replace ((ewhen v2 (upd enable_fin) ;;; emodify (set_connected true) ;;; upd (touch_activity e) ;;;
            ewhen true (emit (ConnectDone true))) s1)
    with (tt, set_connected true (set_cbase (touch_activity e (if v2 then enable_fin (cbase s1) else cbase s1)) s1),
          [ConnectDone true]) by (by destruct v2).
  cbn [fst snd]. split; [|done].
  assert (Hv : verdicts (ev ++ [ConnectDone true]) = 1%nat) 
    by (rewrite verdicts_app; change (verdicts [ConnectDone true]) with 1%nat; lia).
  assert (Hp : posts (ev ++ [ConnectDone true]) = posts ev) 
    by (rewrite posts_app; change (posts [ConnectDone true]) with 0%nat; lia).
  split; rewrite ?Hv, ?Hp; done.
Qed.

Lemma take_completion_run b s :
  completion s = true ->
  trace (take_completion b) s = [ConnectDone b] /\ final (take_completion b) s = set_completion false s.
Proof. intros Hc. unfold take_completion, trace, final. by rewrite !gets_bind, Hc. Qed.

Lemma life_timer ev s e ec :
  life_inv ev s -> receiving s ->
  life_inv (ev ++ trace (on_connect_timer e ec) s) (final (on_connect_timer e ec) s) /\
  receiving (final (on_connect_timer e ec) s).
Proof.
  intros Hi Hr. pose proof Hi as [V P W S C T]. unfold on_connect_timer, trace, final.
  case_bool_decide; [cbn; by rewrite app_nil_r|].
  rewrite modify_bind, take_pending_bind. cbn [connect_pending set_timer_armed].
  destruct (connect_pending s) eqn:Ep; cbn [negb].
  2:{ cbn [eret fst snd]. rewrite app_nil_r. split; [|done]. by split. }
  destruct P as (Hc & Hrun & Ht); [done|]. rewrite Hc in V. simpl in V.
  set (s1 := set_connect_pending false _).
  fold (trace (on_close e ;;; take_completion false) s1). fold (final (on_close e ;;; take_completion false) s1).
  rewrite trace_bind, final_bind.
  destruct (take_completion_run false (final (on_close e) s1)) as [-> ->];
    [by destruct (member_close e s1) as [_ -> _ _]|].
  apply (closed_verdict ev e s1 false); [lia | done | done].
Qed.

Lemma drop_socket_none s :
  udp_socket s <> Some true -> trace drop_socket s = [] /\ final drop_socket s = s.
Proof. intros Hs. unfold drop_socket, trace, final. rewrite !gets_bind. by rewrite bool_decide_false. Qed.

(** The catch block on a running session: closed, then the verdict. *)
Lemma connect_failed_run e s :
  running s = true -> completion s = true ->
  trace (connect_failed e) s = trace (on_close e) s ++ [ConnectDone false] /\
  final (connect_failed e) s = set_completion false (final (on_close e) s).
Proof.
  intros Hr Hc. pose proof (on_close_shell e s Hr) as Sh. unfold shell, closed_shell in Sh.
  injection Sh as E1 E2 E3 E4 E5 E6 E7. unfold connect_failed. rewrite !trace_bind, !final_bind.
  destruct (drop_socket_none (final (on_close e) s)) as [-> ->]; [rewrite E4; by destruct (udp_socket s)|].
  by destruct (take_completion_run false (final (on_close e) s)) as [-> ->];
    [destruct (member_close e s) as [_ -> _ _]|].
Qed.

Lemma life_connect_failed ev e s :
  life_inv ev s -> running s = true -> completion s = true ->
  life_inv (ev ++ trace (connect_failed e) s) (final (connect_failed e) s) /\
  receiving (final (connect_failed e) s).
Proof.
  intros [V P W S C T] Hr Hc. destruct (connect_failed_run e s Hr Hc) as [-> ->].
  apply closed_verdict; [rewrite Hc in V; simpl in V; lia | done | done].
Qed.

Lemma hello_member b e : keeps (member_step b) (send_connect_hello e).
Proof.
  unfold send_connect_hello. repeat keeps_step; [|apply frame_flush_cycle; apply _].
  apply frame_tun; [apply _|]. by apply emits_kcp_send.
Qed.

(** The handshake of a fresh session on a working socket. *)
Lemma life_hello ev e s :
  life_inv ev s -> receiving s -> running s = true -> completion s = true ->
  let m := (let* sent := send_connect_hello e in ewhen (negb sent) (connect_failed e)) in
  life_inv (ev ++ trace m s) (final m s) /\ receiving (final m s).
Proof.
  intros Hi Hrec Hr Hc m. unfold m. rewrite trace_bind, final_bind.
  pose proof (member_weaken _ (hello_member true e) s) as Hw.
  destruct (hello_member true e s) as [[Sh|(? & _)] Co _ _]; [|done].
  unfold shell in Sh. injection Sh as E1 _ _ _ _ _ _. rewrite app_assoc.
  destruct (result (send_connect_hello e) s); cbn [negb ewhen].
  - cbn. rewrite app_nil_r. split; [by eapply life_member | by eapply receiving_member].
  - apply life_connect_failed; [by eapply life_member | congruence | congruence].
Qed.

(** The state in which the handshake starts. *)
Definition live_client (e e0 : tenv) (t : tunnel) : client_session :=
  mkClient (touch_activity e t) true false true false (Some true) (now_us e0) false true false true true.

Lemma on_connect_ready e e0 t :
  on_connect e SocketReady (mkClient t false false false false None (now_us e0) false false false false true) =
  start_handshake e (live_client e e0 t).
Proof.
  unfold on_connect, go_live, do_udp_receive. rewrite !modify_bind. unfold ebind at 1 2 3.
  unfold upd, on_tun, emodify, egets, ebind. cbn. by destruct (start_handshake e _) as [[x s'] ev].
Qed.

Lemma life_handshake e e0 t :
  let m := start_handshake e in let s := live_client e e0 t in
  life_inv (trace m s) (final m s) /\ receiving (final m s).
Proof.
  intros m s. unfold m, start_handshake. rewrite !trace_bind, !final_bind.
  set (rd := on_async_read_some _ _).
  destruct (frame_read_some (member_step true) (Z.to_nat FWD_BUF_SIZE) H_ACK s) as [[Sh|(? & _)] Co D Po]; [|done].
  fold rd in Sh, Co, D, Po. set (s2 := final rd s) in *. unfold shell in Sh.
  injection Sh as E1 E2 E3 E4 E5 E6 E7. cbn in E1, E2, E3, E4, E5, E6, E7, Co, Po.
  change (trace (emodify (set_timer_armed true)) s2) with (@nil event).
  change (final (emodify (set_timer_armed true)) s2) with (set_timer_armed true s2). cbn [app].
  rewrite Nat.add_0_r in Po.
  pose proof (life_hello (trace rd s) e (set_timer_armed true s2)) as Hh. cbv zeta in Hh.
  rewrite trace_bind, final_bind in Hh. apply Hh; [|intros _; by left |done|done].
  split; simpl; rewrite ?Co, ?E1, ?E2, ?E3, ?E4; try done. by rewrite D.
Qed.

(** The beginning of a life. *)
Lemma life_connect e0 conv crypto fec s0 e setup :
  new_client e0 conv crypto fec = Ret s0 ->
  life_inv (trace (on_connect e setup) s0) (final (on_connect e setup) s0) /\
  receiving (final (on_connect e setup) s0).
Proof.
  unfold new_client. destruct (create e0 conv crypto fec) as [t|]; [|done]. intros [= <-].
  destruct setup; [by split; [split|]..|].
  unfold trace, final. rewrite on_connect_ready. apply life_handshake.
Qed.

(** Any call. *)
Lemma life_perform ev s c :
  life_inv ev s -> receiving s -> deliverable c s = true ->
  life_inv (ev ++ trace (client_perform c) s) (final (client_perform c) s) /\
  receiving (final (client_perform c) s).
Proof.
  intros Hi Hr Hd.
  assert (Hm : keeps (member_step false) (client_perform c) ->
    life_inv (ev ++ trace (client_perform c) s) (final (client_perform c) s) /\
    receiving (final (client_perform c) s))
    by (intros Hk; split; [by eapply life_member, Hk | by eapply receiving_member, Hk]).
  destruct c; simpl in Hm |- *;
    try (apply Hm; first [apply member_tick | apply member_close | apply member_forward
      | apply frame_send_data; apply _ | apply frame_read_some; apply _ | apply frame_upd; apply _
      | apply frame_send_fin; apply _]).
  - by apply life_received.
  - by apply life_backoff.
  - by apply life_ack.
  - by apply life_timer.
  - apply Hm. unfold close_local. repeat keeps_step; [by apply member_set | apply member_emit; intros []].
Qed.

Lemma lived_inv cs ev s : lived cs ev s -> life_inv ev s /\ receiving s.
Proof.
  induction 1 as [e0 conv crypto fec s0 e setup Hn|cs ev s c _ [IH1 IH2] Hd];
    [by eapply life_connect | by apply life_perform].
Qed.

(** No call revives a closed session or reports for it. *)
Lemma closed_call c s :
  running s = false -> connect_pending s = false ->
  let m := client_perform c in
  verdicts (trace m s) = 0%nat /\ completion (final m s) = completion s /\
  running (final m s) = false /\ connect_pending (final m s) = false.
Proof.
  intros Hr Hp.
  assert (Hm : keeps (member_step false) (client_perform c) ->
    verdicts (trace (client_perform c) s) = 0%nat /\ completion (final (client_perform c) s) = completion s /\
    running (final (client_perform c) s) = false /\ connect_pending (final (client_perform c) s) = false).
  { intros Hk. destruct (Hk s) as [[Sh|(_ & H & _)] Co D _]; [|congruence].
    unfold shell in Sh. injection Sh as E1 _ E3 _ _ _ _. split_and!; congruence. }
  destruct c; simpl in Hm |- *;
    try (apply Hm; first [apply member_tick | apply member_close | apply member_forward
      | apply frame_send_data; apply _ | apply frame_read_some; apply _ | apply frame_upd; apply _
      | apply frame_send_fin; apply _]).
  - unfold on_udp_receive, trace, final. rewrite modify_bind, gets_bind. cbn [running set_receive_armed].
    rewrite Hr, andb_false_r. by destruct (ec_failed ec).
  - unfold on_receive_backoff, do_udp_receive, trace, final. rewrite modify_bind. unfold ewhen.
    destruct (negb _); [|done]. rewrite gets_bind. unfold can_output. cbn [running set_backoff_armed].
    by rewrite Hr, andb_false_r.
  - unfold on_ack, trace, final. rewrite take_pending_bind, Hp. done.
  - unfold on_connect_timer, trace, final. case_bool_decide; [done|].
    rewrite modify_bind, take_pending_bind. cbn [connect_pending set_timer_armed]. by rewrite Hp.
  - apply Hm. unfold close_local. repeat keeps_step; [by apply member_set | apply member_emit; intros []].
Qed.

(** C18: [connect] reports exactly once. At every point of a client session's
    life (any receives, errors, ticks, timers, closes, in any order) the
    callback has run exactly once, or it is still owed; while it is owed and
    the session runs, the handshake is pending with its deadline timer armed,
    and that timer's expiry delivers it. *)
Theorem connect_reports_once (cs : list client_call) (ev : list event) (s : client_session) :
  lived cs ev s ->
  (verdicts ev + Nat.b2n (completion s) = 1)%nat /\
  (completion s = true -> running s = true ->
   connect_pending s = true /\ timer_armed s = true /\
   forall e ec, ec <> ec_operation_aborted ->
     ConnectDone false ∈ trace (on_connect_timer e ec) s /\ running (final (on_connect_timer e ec) s) = false).
Proof.
  intros Hl. destruct (lived_inv _ _ _ Hl) as [Hi _]. pose proof Hi as [V P W S C T]. split; [done|].
  intros Hc Hr. pose proof (W Hc Hr) as Hp. destruct (P Hp) as (_ & _ & Ht). split_and!; [done..|].
  intros e ec Hec. unfold on_connect_timer, trace, final. rewrite bool_decide_false by done.
  rewrite modify_bind, take_pending_bind. cbn [connect_pending set_timer_armed]. rewrite Hp. cbn [negb].
  set (s1 := set_connect_pending false _).
  fold (trace (on_close e ;;; take_completion false) s1). fold (final (on_close e ;;; take_completion false) s1).
  rewrite trace_bind, final_bind.
  destruct (take_completion_run false (final (on_close e) s1)) as [-> ->];
    [by destruct (member_close e s1) as [_ -> _ _]|].
  split; [apply elem_of_app; right; by apply list_elem_of_singleton|]. pose proof (on_close_shell e s1 Hr) as Sh. unfold shell, closed_shell in Sh.
  by injection Sh as E1 _ _ _ _ _ _.
Qed.

(** C34: one path loses the verdict. When a session is closed while the
    handshake is pending (by [close()], or by the teardown posted when
    encrypting the HELLO fails), the closing does not run the callback, and no
    later call ever does: [on_close] disarms both handlers that could, so the
    callback, which had not run before, is owed for ever and whoever waits for
    [connect] is left to its own deadline. *)
Theorem closed_session_never_reports (cs : list client_call) (ev : list event) (s : client_session) (e : tenv)
    (more : list client_call) :
  lived cs ev s -> connect_pending s = true ->
  let m := on_close e ;;; client_perform_all more in
  running (final (on_close e) s) = false /\
  verdicts (ev ++ trace m s) = 0%nat /\ completion (final m s) = true.
Proof.
  intros Hl Hpend m. destruct (lived_inv _ _ _ Hl) as [[V P _ _ _ _] _].
  destruct (P Hpend) as (Hc & Hr & _). rewrite Hc in V. simpl in V.
  unfold m. rewrite trace_bind, final_bind, !verdicts_app.
  pose proof (on_close_shell e s Hr) as Sh. unfold shell, closed_shell in Sh. injection Sh as Hr' _ Hp' _ _ _ _.
  destruct (member_close e s) as [_ Hc' Hv' _]. rewrite Hc in Hc'.
  revert Hr' Hc' Hp'. generalize (final (on_close e) s) as s1. intros s1 Hr1 Hc1 Hp1.
  assert (Hmore : verdicts (trace (client_perform_all more) s1) = 0%nat /\
                  completion (final (client_perform_all more) s1) = true).
  { clear - Hr1 Hc1 Hp1. revert s1 Hr1 Hc1 Hp1. unfold client_perform_all.
    induction more as [|c more IH]; intros s1 Hr1 Hc1 Hp1; [done|].
    cbn [efor]. rewrite trace_bind, final_bind, verdicts_app.
    destruct (closed_call c s1 Hr1 Hp1) as (H1 & H2 & H3 & H4). rewrite H1. apply IH; congruence. }
  destruct Hmore as [Hv Hcf]. split_and!; [done | lia | done].
Qed.

(** The client never goes deaf and never leaks its socket: at every point
    of a session's life a running session has a receive outstanding or the
    backoff timer that will re-arm it, its socket is open exactly while it
    runs, and at most one teardown is ever posted for failed encryptions. *)
Theorem client_receive_loop_alive (cs : list client_call) (ev : list event) (s : client_session) :
  lived cs ev s ->
  (running s = true -> receive_armed s = true \/ backoff_armed s = true) /\
  (udp_socket s = Some true <-> running s = true) /\
  posts ev = Nat.b2n (encrypt_teardown s).
Proof. intros Hl. destruct (lived_inv _ _ _ Hl) as [[V P W S C T] Hr]. by split_and!. Qed.
End Life.

(** ** The FIN and the negotiated version *)

Section Fin.
Context {A : Crypto.Aead} {K : Kcp} {F : FecCodec}.

(** The books of the FIN over a step in which [allow] may enable it. *)
Record fin_books (allow : Prop) (t : tunnel) (ev : list event) (t' : tunnel) : Prop := {
  fb_fin : (fins ev + Nat.b2n (fin_sent t) = Nat.b2n (fin_sent t'))%nat;
  fb_only : (0 < fins ev)%nat -> fin_enabled t = true \/ allow;
  fb_enabled : fin_enabled t' = true -> fin_enabled t = true \/ allow }.

#[export] Instance fin_books_comp allow : Compositional (fin_books allow).
Proof.
  split; [intros t; split; auto; unfold fins; simpl; lia|].
  intros t1 t2 t3 e1 e2 [F1 O1 E1] [F2 O2 E2]. split.
  - rewrite fins_app. lia.
  - rewrite fins_app. intros Hf. destruct (decide (0 < fins e1)%nat); [auto|].
    destruct O2; [lia | auto | auto].
  - intros H3. destruct (E2 H3); auto.
Qed.

Lemma fin_books_of allow {X} (m : M client_session event X) :
  keeps (on_st tun_step) m -> keeps (on_st (fin_books allow)) m.
Proof.
  intros Hm s. destruct (Hm s) as [_ F1 O1 [E1 _] _ _]. split; [done | by left; apply O1 | left; congruence].
Qed.

Ltac books :=
  repeat first [keeps_step | apply fin_books_of, client_member; by intros
    | apply fin_books_of, client_event; intros; step_split | apply fin_books_of, on_close_step
    | apply fin_books_of, keeps_upd, benign; by intros | by intros s].

Lemma fin_ack e ec msg :
  keeps (on_st (fin_books (ec_failed ec = false /\ msg = KCP_CONTROL_HELLO_ACK_V2))) (on_ack e ec msg).
Proof.
  unfold on_ack. destruct (ec_failed ec) eqn:Hec; [books|].
  destruct (decide (msg = KCP_CONTROL_HELLO_ACK_V2)) as [Hm|Hm].
  - books. intros s. split; [done | unfold fins; simpl; lia | by right].
  - rewrite (bool_decide_false (msg = KCP_CONTROL_HELLO_ACK_V2)) by done. cbn [ewhen]. books.
Qed.

Lemma fin_perform c s :
  fin_books (exists e ec, c = KAck e ec KCP_CONTROL_HELLO_ACK_V2 /\ ec_failed ec = false)
    (tun s) (trace (client_perform c) s) (tun (final (client_perform c) s)).
Proof.
  destruct c; simpl client_perform;
    lazymatch goal with
    | |- context [on_ack] => idtac
    | |- context [on_async_read_some] => idtac
    | |- context [mark_handshake_done] => idtac
    | |- context [send_fin] => idtac
    | |- _ => refine (fin_books_of _ _ _ s)
    end.
  - apply on_udp_receive_step.
  - unfold on_receive_backoff, do_udp_receive.
    repeat first [keeps_step | apply client_member; by intros].
  - apply client_tick_step.
  - apply send_data_step.
  - destruct (on_async_read_some_step cap handler s) as (_ & H2 & H3 & [H4 _] & _).
    split; [done | by left; apply H3 | left; congruence].
  - destruct (fin_ack e ec msg s) as [F1 O1 E1].
    split; [done | intros Hf; destruct (O1 Hf) as [?|[? ->]] | intros Hf; destruct (E1 Hf) as [?|[? ->]]]; eauto.
  - apply connect_timer_step.
  - apply on_close_step.
  - apply on_close_step.
  - split; [done | unfold fins; simpl; lia | by left].
  - destruct (send_fin_step e s) as (t0 & Ht & [_ F1 O1 [E1 _] _ _]).
    destruct Ht as [->| ->]; (split; [exact F1 | intros Hf; left; by apply O1 | intros Hf; left; rewrite E1 in Hf; exact Hf]).
  - apply forward_client_step.
  - unfold close_local. repeat first [keeps_step | apply client_member; by intros
      | apply client_event; intros; step_split].
Qed.

Lemma fin_connect e setup s :
  fin_enabled (tun s) = false -> fin_sent (tun s) = false ->
  fins (trace (on_connect e setup) s) = 0%nat /\ fin_enabled (tun (final (on_connect e setup) s)) = false /\
  fin_sent (tun (final (on_connect e setup) s)) = false.
Proof.
  intros He Hs. assert (Hk : keeps (on_st (fin_books False)) (on_connect e setup)).
  { unfold on_connect, go_live, do_udp_receive, start_handshake, send_connect_hello. books;
      try (by apply fin_books_of, connect_failed_step); try (by apply fin_books_of, flush_cycle_step).
    - intros s'. destruct (on_async_read_some_step (Z.to_nat FWD_BUF_SIZE) H_ACK s') as (_ & H2 & H3 & [H4 _] & _).
      split; [done | by left; apply H3 | left; congruence].
    - by apply fin_books_of, keeps_on_tun, kcp_send_step. }
  destruct (Hk s) as [F1 O1 E1]. rewrite He, Hs in *. simpl in *.
  assert (fins (trace (on_connect e setup) s) = 0%nat) as Hf.
  { destruct (fins (trace (on_connect e setup) s)); [done|]. destruct O1; [lia|done|done]. }
  split_and!; [done | | ].
  - apply not_true_is_false. intros H. by destruct (E1 H).
  - rewrite Hf in F1. apply not_true_is_false. intros H. by rewrite H in F1.
Qed.

(** Half-close is spoken only to a server that understands it: over the
    whole life of a client session at most one FIN is queued, and if one is,
    the handshake was answered, without error, by the version-2 ACK. A
    version-1 server never sees a control message in its stream. *)
Theorem client_fin_needs_v2 (cs : list client_call) (ev : list event) (s : client_session) :
  lived cs ev s ->
  (fins ev <= 1)%nat /\
  ((0 < fins ev)%nat ->
   exists e ec, KAck e ec KCP_CONTROL_HELLO_ACK_V2 ∈ cs /\ ec_failed ec = false).
Proof.
  intros Hl. enough (Hall : fins ev = Nat.b2n (fin_sent (tun s)) /\
    ((0 < fins ev)%nat \/ fin_enabled (tun s) = true ->
     exists e ec, KAck e ec KCP_CONTROL_HELLO_ACK_V2 ∈ cs /\ ec_failed ec = false)).
  { destruct Hall as [Hf Hx]. split; [|auto]. rewrite Hf. by destruct (fin_sent _); simpl; lia. }
  induction Hl as [e0 conv crypto fec s0 e setup Hn|cs ev s c _ [IH1 IH2] Hd].
  - assert (H0 : fin_enabled (tun s0) = false /\ fin_sent (tun s0) = false).
    { unfold new_client, create in Hn. repeat case_match; by simplify_eq. }
    destruct H0 as [He Hs]. destruct (fin_connect e setup s0 He Hs) as (H1 & H2 & H3).
    rewrite H1, H2, H3. split; [done|]. intros [?|?]; [lia|done].
  - destruct (fin_perform c s) as [F1 O1 E1]. rewrite fins_app. split; [lia|].
    assert (Hold : (0 < fins ev)%nat \/ fin_enabled (tun s) = true ->
       exists e ec, KAck e ec KCP_CONTROL_HELLO_ACK_V2 ∈ cs ++ [c] /\ ec_failed ec = false).
    { intros H. destruct (IH2 H) as (e & ec & Hin & He). exists e, ec. split; [|done]. apply elem_of_app. by left. }
    assert (Hnew : (exists e ec, c = KAck e ec KCP_CONTROL_HELLO_ACK_V2 /\ ec_failed ec = false) ->
       exists e ec, KAck e ec KCP_CONTROL_HELLO_ACK_V2 ∈ cs ++ [c] /\ ec_failed ec = false).
    { intros (e & ec & -> & He). exists e, ec. split; [|done]. apply elem_of_app. right. by apply list_elem_of_singleton. }
    intros [Hf|Hf]; [|destruct (E1 Hf); auto].
    destruct (decide (0 < fins ev)%nat); [auto|]. destruct O1; [lia|auto|auto].
Qed.
End Fin.

(** ** Frames of the client's session

    A relation that allows the tunnel's own steps, the two events of the
    output path and the members [on_close] clears is kept by the whole output
    path and by [on_close]. *)

Section ClientFrames.
Context {A : Crypto.Aead} {K : Kcp} {F : FecCodec}.

Class ClientFrame (R : client_session -> list event -> client_session -> Prop) : Prop := {
  client_frame_base :: BaseFrame R;
  client_frame_request : keeps R request_teardown;
  client_frame_wire ds : keeps R (emit (Wire ds));
  client_frame_disarm :
    keeps R (emodify (fun s => set_connect_pending false (set_connected false (set_running false s)))) /\
    keeps R (emodify (fun s => set_backoff_armed false (set_timer_armed false s)));
  client_frame_socket : keeps R close_socket }.

Context (R : client_session -> list event -> client_session -> Prop) {CF : ClientFrame R}.

Lemma frame_with_cbase f : keeps R (with_cbase (emodify f)).
Proof. exact (frame_upd R f). Qed.

Ltac out_walk := repeat first [keeps_step | apply frame_with_cbase | apply client_frame_request | apply client_frame_wire].

Lemma frame_encrypt e d : keeps R (client_encrypt_for_wire e d).
Proof. unfold client_encrypt_for_wire. out_walk. Qed.

Lemma frame_encrypt_batch e ds : forall acc, keeps R (client_encrypt_batch e ds acc).
Proof. induction ds; intros; cbn [client_encrypt_batch]; out_walk; auto using frame_encrypt. Qed.

#[export] Instance client_frame_output : OutputFrame R.
Proof.
  split; intros; simpl; unfold client_output, client_output_batch; out_walk;
    auto using frame_encrypt, frame_encrypt_batch.
Qed.

Lemma frame_on_close e : keeps R (on_close e).
Proof.
  destruct client_frame_disarm as [Hd1 Hd2]. unfold on_close.
  repeat first [keeps_step | apply Hd1 | apply Hd2 | apply client_frame_socket | apply frame_upd; apply _].
  - apply frame_flush_cycle; apply _.
  - apply frame_tun; [apply _ | by apply emits_complete].
  - by apply frame_event; try apply _.
Qed.
End ClientFrames.

(** ** A silent server *)

Section Idle.
Context {A : Crypto.Aead} {K : Kcp} {F : FecCodec}.

(** The datagram of this call authenticates in this state. *)
Definition authentic (c : client_call) (s : client_session) : bool :=
  match c with
  | KReceived e ec p =>
      negb (ec_failed ec) && running s && bool_decide (p <> []) &&
      negb (ec_failed (Crypto.decrypt_impl (e_rx_fault e) p (decrypt_buf (cbase s)) (t_crypto (cbase s))).2)
  | _ => false
  end.

(** Calls none of which brings authentic data. *)
Fixpoint quiet_run (cs : list client_call) (s : client_session) : Prop :=
  match cs with
  | [] => True
  | c :: cs' => authentic c s = false /\ quiet_run cs' (final (client_perform c) s)
  end.

Definition same_rx (s : client_session) (_ : list event) (s' : client_session) : Prop :=
  last_rx_us s' = last_rx_us s.

#[export] Instance same_rx_comp : Compositional same_rx.
Proof. split; unfold same_rx; [done | congruence]. Qed.
#[export] Instance same_rx_base : BaseFrame (St := client_session) same_rx.
Proof. split; [apply _ | done]. Qed.

#[export] Instance same_rx_client : ClientFrame same_rx.
Proof. split; [apply _ | by intros ? | by intros ? ? | by split; intros ? | unfold close_socket; frame_walk]. Qed.

#[export] Instance same_rx_host : HostFrame (St := client_session) same_rx.
Proof.
  split; intros; [apply (frame_on_close same_rx)|]. simpl. unfold resume_local, close_local, forward_client_to_kcp. frame_walk.
Qed.

(** A packet that does not authenticate leaves the liveness clock alone. *)
Lemma same_rx_receive e p s :
  ec_failed (Crypto.decrypt_impl (e_rx_fault e) p (decrypt_buf (cbase s)) (t_crypto (cbase s))).2 = true ->
  same_rx s [] (final (client_on_receive e p) s).
Proof.
  intros Hd. unfold client_on_receive, final. rewrite gets_bind. destruct (running s); [|done]. cbn [negb].
  rewrite upd_bind, look_bind. unfold id. rewrite tun_set.
  set (t1 := bump _ _ _). change (decrypt_buf t1) with (decrypt_buf (cbase s)).
  change (t_crypto t1) with (t_crypto (cbase s)).
  destruct (Crypto.decrypt_impl _ _ _ _) as [[c plain] ec]. cbn in Hd. rewrite upd_bind, Hd. by case_bool.
Qed.

Lemma same_rx_udp_receive e ec p s :
  authentic (KReceived e ec p) s = false -> same_rx s [] (final (on_udp_receive e ec p) s).
Proof.
  intros Ha. unfold same_rx, on_udp_receive, final. rewrite modify_bind, gets_bind. set (s1 := set_receive_armed false s).
  change (running s1) with (running s).
  assert (Hk : keeps same_rx do_udp_receive) by (unfold do_udp_receive; frame_walk).
  simpl in Ha. destruct (ec_failed ec).
  - clear Ha. destruct (_ && _); [|done]. destruct (_ || _); [|done]. exact (Hk s1).
  - destruct (running s); [|done]. cbn [negb].
    fold (final (ewhen (bool_decide (p <> [])) (client_on_receive e p) ;;; do_udp_receive) s1). rewrite final_bind.
    rewrite (Hk _). case_bool_decide; [|done]. cbn [ewhen].
    apply (same_rx_receive e p s1). simpl in Ha. by apply negb_false_iff in Ha.
Qed.

(** One that does sets it to the time of its arrival. *)
Lemma authentic_sets_rx e ec p s :
  authentic (KReceived e ec p) s = true -> last_rx_us (final (client_perform (KReceived e ec p)) s) = now_us e.
Proof.
  simpl. rewrite !andb_true_iff, !negb_true_iff, bool_decide_eq_true. intros (((Hec & Hr) & Hp) & Hd).
  unfold on_udp_receive, final. rewrite modify_bind, gets_bind. set (s1 := set_receive_armed false s).
  change (running s1) with (running s). rewrite Hec, Hr. cbn [negb]. rewrite bool_decide_true by done. cbn [ewhen].
  fold (final (client_on_receive e p ;;; do_udp_receive) s1). rewrite final_bind.
  assert (Hk : keeps same_rx do_udp_receive) by (unfold do_udp_receive; frame_walk). rewrite (Hk _).
  unfold client_on_receive, final. rewrite gets_bind. change (running s1) with (running s). rewrite Hr. cbn [negb].
  rewrite upd_bind, look_bind. unfold id. rewrite tun_set. set (t1 := bump _ _ _).
  change (decrypt_buf t1) with (decrypt_buf (cbase s)). change (t_crypto t1) with (t_crypto (cbase s)).
  destruct (Crypto.decrypt_impl _ _ _ _) as [[c plain] ec']. simpl in Hd.
  rewrite upd_bind, Hd, bool_decide_false by (by intros ->). rewrite upd_bind, modify_bind, upd_bind.
  assert (Hf : forall x, last_rx_us (feed_and_drain e plain x).1.2 = last_rx_us x).
  { intros x. apply (frame_feed_and_drain same_rx e plain). intros. by intros ?. }
  by rewrite Hf.
Qed.

Lemma same_rx_tick e : keeps same_rx (client_update_tick e).
Proof.
  unfold client_update_tick. frame_walk;
    first [apply (frame_on_close same_rx) | apply frame_flush_due | apply frame_flush_cycle | apply frame_fulfill
          | apply frame_maybe_resume | apply frame_retry_fin | apply frame_tun]; try apply _.
  - by apply emits_stats.
  - by apply emits_keepalive.
Qed.

Lemma same_rx_perform c s :
  authentic c s = false -> last_rx_us (final (client_perform c) s) = last_rx_us s.
Proof.
  intros Ha. assert (Hk : keeps same_rx (client_perform c) -> last_rx_us (final (client_perform c) s) = last_rx_us s)
    by (intros H; apply (H s)).
  destruct c; simpl in Hk |- *; try (by apply (same_rx_udp_receive e ec packet s)); apply Hk;
    try (first [apply same_rx_tick | apply (frame_on_close same_rx) | apply frame_send_data | apply frame_read_some
               | apply frame_send_fin | apply frame_upd]; apply _).
  - unfold on_receive_backoff, do_udp_receive. frame_walk.
  - unfold on_ack. frame_walk; apply (frame_on_close same_rx).
  - unfold on_connect_timer, take_completion. frame_walk; apply (frame_on_close same_rx).
  - unfold forward_client_to_kcp. frame_walk.
  - unfold close_local. frame_walk.
Qed.

Lemma quiet_run_rx cs : forall s,
  quiet_run cs s -> last_rx_us (final (client_perform_all cs) s) = last_rx_us s.
Proof.
  induction cs as [|c cs IH]; intros s Hq; [done|]. destruct Hq as [Ha Hq].
  unfold client_perform_all. cbn [efor]. rewrite final_bind. rewrite <- (same_rx_perform c s Ha). by apply IH.
Qed.

(** The work of a tick that finds the server alive. *)
Definition tick_rest (e : tenv) : M client_session event unit :=
  let* due := flush_due in
  ewhen due (flush_cycle e (now_kcp_ms e)) ;;;
  let* pending := look pending_read_handler in
  ewhen (bool_decide (pending <> None)) (on_tun try_fulfill_read) ;;;
  maybe_resume_write e ;;;
  on_tun (maybe_send_keepalive e) ;;;
  retry_pending_fin e.

Lemma tick_rest_open e : keeps (member_step true) (tick_rest e).
Proof.
  unfold tick_rest, maybe_resume_write. repeat first [keeps_step | apply frame_look; apply _ | apply frame_upd; apply _];
    try (first [apply frame_flush_due | apply frame_flush_cycle | apply frame_fulfill | apply frame_retry_fin]; apply _).
  - simpl. unfold resume_local, close_local, forward_client_to_kcp.
    repeat first [keeps_step | apply frame_look; apply _ | apply frame_upd; apply _
      | apply member_set; by intros | apply member_emit; solve [intros []]].
  - apply frame_tun; [apply _ | by apply emits_keepalive].
Qed.

Lemma log_stats_open e : keeps (member_step true) (on_tun (maybe_log_stats e)).
Proof. apply frame_tun; [apply _ | by apply emits_stats]. Qed.

(** C20: a dead server is noticed, and only a dead one. Only authentic packets
    advance the liveness clock, and each sets it to its arrival: when a packet
    authenticates at time [now_us e0] and after it any calls bring none that
    does, the next tick of a connected session closes it exactly when more
    than the timeout has passed since that packet; our own keepalives, forged
    and replayed datagrams never keep it open. *)
Theorem silent_server_noticed (e0 : tenv) (ec : error_code) (packet : list Z) (cs : list client_call)
    (s0 : client_session) (e : tenv) :
  authentic (KReceived e0 ec packet) s0 = true ->
  let s := final (client_perform (KReceived e0 ec packet)) s0 in
  quiet_run cs s ->
  let s1 := final (client_perform_all cs) s in
  is_connected s1 = true ->
  (running (final (client_update_tick e) s1) = false <->
   KCP_TIMEOUT_SEC * 1000000 < now_us e - now_us e0).
Proof.
  intros Ha s Hq s1 Hc. rewrite <- (authentic_sets_rx e0 ec packet s0 Ha). fold s.
  rewrite <- (quiet_run_rx cs s Hq). fold s1.
  assert (Hr : running s1 = true) by (unfold is_connected in Hc; by destruct (running s1), (connected s1)).
  unfold client_update_tick, final. rewrite gets_bind, Hr. cbn [negb].
  rewrite ebind_run. cbn [fst snd]. set (s2 := final (on_tun (maybe_log_stats e)) s1).
  unfold final at 1. rewrite gets_bind. unfold id.
  destruct (log_stats_open e s1) as [[Sh|(? & _)] _ _ _]; [|done]. fold s2 in Sh.
  unfold shell in Sh. injection Sh as E1 E2 _ _ _ _ _.
  assert (Hx : last_rx_us s2 = last_rx_us s1)
    by (apply (frame_tun same_rx (maybe_log_stats e) ltac:(by apply emits_stats) s1)).
  rewrite Hx. unfold is_connected. rewrite E1, E2. unfold is_connected in Hc. rewrite Hc. cbn [andb].
  destruct (Z.ltb_spec (KCP_TIMEOUT_SEC * 1000000) (now_us e - last_rx_us s1)) as [Hlt|Hge].
  - split; [done|]. intros _. pose proof (on_close_shell e s2 ltac:(congruence)) as Hs.
    unfold shell, closed_shell in Hs. by injection Hs as E3 _ _ _ _ _ _.
  - split; [|lia]. intros Hf. exfalso. fold (tick_rest e) in Hf.
    destruct (tick_rest_open e s2) as [[Sh|(? & _)] _ _ _]; [|done]. unfold shell in Sh.
    injection Sh as E3 _ _ _ _ _ _. unfold final in E3. congruence.
Qed.
End Idle.

(** ** A life *)

Module ClientExample.
Import SessionProofs.SessionExample.
#[local] Existing Instance Crypto.ToyAead.toy.
#[local] Existing Instance Crypto.ToyAead.toy_laws.
#[local] Existing Instance Loopback.loopback.
#[local] Existing Instance Loopback.plain_codec.

Definition c0 : client_session :=
  match new_client (env_at 100) KCP_CONV client_crypto fec_off with
  | Ret s => s
  | Throw _ => mkClient (Session.base s0) false false false false None 0 false false false false true
  end.

Lemma c0_new : new_client (env_at 100) KCP_CONV client_crypto fec_off = Ret c0.
Proof. reflexivity. Qed.

(** Connected on a working socket; the ACK arrives; the application closes. *)
Definition c1 : client_session := final (on_connect (env_at 100) SocketReady) c0.
Definition ack : client_call := KAck (env_at 101) ec_none KCP_CONTROL_HELLO_ACK_V2.
Definition c2 : client_session := final (client_perform ack) c1.

Lemma lived_c1 : lived [] (trace (on_connect (env_at 100) SocketReady) c0) c1.
Proof. eapply lived_connect, c0_new. Qed.

Lemma lived_c2 :
  lived [ack] (trace (on_connect (env_at 100) SocketReady) c0 ++ trace (client_perform ack) c1) c2.
Proof. apply (lived_call [] _ c1 ack); [apply lived_c1 | reflexivity]. Qed.

Lemma connect_reports_once_witness :
  ConnectDone false ∈ trace (on_connect_timer (env_at 103) ec_none) c1.
Proof.
  destruct (connect_reports_once _ _ _ lived_c1) as [_ H].
  destruct H as (_ & _ & H); [by vm_compute | by vm_compute |]. by apply (H (env_at 103) ec_none).
Defined.

Lemma client_receive_loop_alive_witness : receive_armed c2 = true \/ backoff_armed c2 = true.
Proof. apply (client_receive_loop_alive _ _ _ lived_c2). by vm_compute. Defined.

(** The HELLO cannot be encrypted; the posted teardown runs. *)
Definition env_bad : tenv :=
  mkTenv 100000000000 (fun _ => Crypto.fault_iv) Crypto.no_fault None None default_tuning [].
Definition c_bad : client_session := final (on_connect env_bad SocketReady) c0.

Lemma closed_session_never_reports_witness :
  PostShutDown ∈ trace (on_connect env_bad SocketReady) c0 /\
  completion (final (on_close env_bad ;;;
    client_perform_all [KAck (env_at 101) ec_operation_aborted []; KConnectTimer (env_at 103) ec_none]) c_bad) = true.
Proof.
  split; [vm_compute; repeat constructor|].
  destruct (closed_session_never_reports [] (trace (on_connect env_bad SocketReady) c0) c_bad env_bad
    [KAck (env_at 101) ec_operation_aborted []; KConnectTimer (env_at 103) ec_none]) as (_ & _ & H).
  - eapply lived_connect, c0_new.
  - by vm_compute.
  - exact H.
Defined.

Lemma client_fin_needs_v2_witness :
  let ev := (trace (on_connect (env_at 100) SocketReady) c0 ++ trace (client_perform ack) c1) ++
            trace (client_perform (KSendFin (env_at 102))) c2 in
  fins ev = 1%nat /\ (fins ev <= 1)%nat.
Proof.
  intros ev. split; [by vm_compute|].
  apply (client_fin_needs_v2 ([ack] ++ [KSendFin (env_at 102)]) ev (final (client_perform (KSendFin (env_at 102))) c2)).
  apply lived_call; [apply lived_c2 | reflexivity].
Defined.

Definition hail : list Z := Crypto.sealed psk salt NONCE_DIR_SERVER 3 [9].

Lemma silent_server_noticed_witness :
  running (final (client_update_tick (env_at 171)) (final (client_perform_all [KTick (env_at 150)])
    (final (client_perform (KReceived (env_at 110) ec_none hail)) c2))) = false.
Proof.
  apply (silent_server_noticed (env_at 110) ec_none hail [KTick (env_at 150)] c2 (env_at 171)); by vm_compute.
Defined.
End ClientExample.
