(* ===== verification/Calm.v ===== *)
(** * Calm: operations that leave the relay alone

    Most of what a session does (receive, tick, close, retransmit) moves the
    relay between the two sockets neither forward nor back: it queues no
    message of the caller, starts no read of the local socket unless a write
    loop was parked, and a pending read of the tunnel stays or completes once.
    The relation [calm] says so, and is established for the base class against
    an interface, then for the two sessions. *)

From Stdlib Require Import ZArith Lia.
From stdpp Require Import base list strings.
From S2P Require Import Prelude Config Effects Kcp Tunnel TunnelProofs Flow Session SessionProofs.
From S2P Require Import ClientSession ClientSessionProofs.
From S2P Require Crypto.

(** ** What a trace shows of the relay *)

(** The completions of tunnel reads, in order. *)
Definition reads_done (ev : list event) : list (Z * error_code * list Z) :=
  omap (fun x => match x with Complete h ec d => Some (h, ec, d) | _ => None end) ev.

(** A read of the local socket (the target's, or the application's). *)
Definition is_pull (x : event) : Prop :=
  match x with TargetRead | LocalRead => True | _ => False end.

(** A message of the caller, or a write to the target. *)
Definition is_relay (x : event) : Prop :=
  match x with KcpSend (FromApp | FromHello) _ _ | TargetWrite _ => True | _ => False end.

Lemma reads_done_app e1 e2 : reads_done (e1 ++ e2) = reads_done e1 ++ reads_done e2.
Proof. apply omap_app. Qed.

Lemma no_relay_offered ev : Forall (fun x => ~ is_relay x) ev -> offered ev = [].
Proof.
  induction 1 as [|x ev Hx _ IH]; [done|]. unfold offered in *. simpl.
  destruct x as [[] m ret| | | | | | | | | | | | | | | | |]; simpl in *; tauto.
Qed.

Section Reads.
Context {A : Crypto.Aead} {K : Kcp} {F : FecCodec}.

Lemma pend_pos h t : (0 < pend h t)%nat <-> pending_read_handler t = Some h.
Proof. unfold pend. destruct (bool_decide_reflect (pending_read_handler t = Some h)); split; try done; lia. Qed.

Lemma pend_le h t : (pend h t <= 1)%nat.
Proof. unfold pend. by destruct (bool_decide _); lia. Qed.

Lemma completions_reads h ev :
  completions h ev = length (filter (fun x : Z * error_code * list Z => x.1.1 = h) (reads_done ev)).
Proof.
  induction ev as [|x ev IH]; [done|]. unfold completions in *. rewrite filter_cons.
  change (reads_done (x :: ev)) with (reads_done ([x] ++ ev)). rewrite reads_done_app.
  destruct x; try (rewrite decide_False by (by intros []); exact IH).
  simpl. rewrite filter_cons. repeat case_decide; simpl in *; auto; done.
Qed.

(** A pending read stays as it is or completes, once. *)
Lemma tun_step_read t ev t' :
  tun_step t ev t' ->
  (pending_read_handler t' = pending_read_handler t /\ reads_done ev = []) \/
  (exists h ec d, pending_read_handler t = Some h /\ pending_read_handler t' = None /\
     reads_done ev = [(h, ec, d)]).
Proof.
  intros [Hr _ _ _ _ _]. setoid_rewrite completions_reads in Hr.
  destruct (reads_done ev) as [|[[h ec] d] rest].
  - left. split; [|done]. simpl in Hr.
    destruct (pending_read_handler t') as [h|] eqn:E'.
    + symmetry. apply pend_pos. rewrite <- Hr. by apply pend_pos.
    + destruct (pending_read_handler t) as [h|] eqn:E; [|done]. apply pend_pos in E. rewrite <- Hr in E.
      apply pend_pos in E. congruence.
  - right. exists h, ec, d.
    assert (Hh : pending_read_handler t = Some h).
    { apply pend_pos. rewrite <- Hr, filter_cons_True by done. simpl. lia. }
    split; [done|]. split.
    + destruct (pending_read_handler t') as [h'|] eqn:E'; [|done]. apply pend_pos in E'.
      pose proof (pend_le h t). pose proof (Hr h) as H1. rewrite filter_cons_True in H1 by done. simpl in H1.
      pose proof (Hr h') as H2. destruct (decide (h' = h)) as [->|Hn]; [lia|].
      assert (pend h' t = 0)%nat; [|lia]. apply Nat.le_0_r, Nat.nlt_ge. rewrite pend_pos. congruence.
    + destruct rest as [|[[h2 ec2] d2] rest]; [done|]. exfalso. pose proof (Hr h2) as H2.
      assert (Hp : (0 < pend h2 t)%nat).
      { rewrite <- H2, filter_cons. case_decide; rewrite ?filter_cons_True by done; simpl; lia. }
      apply pend_pos in Hp. assert (h2 = h) as -> by congruence.
      rewrite !filter_cons_True in H2 by done. simpl in H2. pose proof (pend_le h t). lia.
Qed.

Lemma tun_book_read t ev t' :
  tun_book t ev t' ->
  (pending_read_handler t' = pending_read_handler t /\ reads_done ev = []) \/
  (exists h ec d, pending_read_handler t = Some h /\ pending_read_handler t' = None /\
     reads_done ev = [(h, ec, d)]).
Proof. intros (t0 & [->| ->] & H); exact (tun_step_read _ _ _ H). Qed.

Lemma tun_book_clock t ev t' : tun_book t ev t' -> handshake_done t' = handshake_done t.
Proof. intros (t0 & [->| ->] & [_ _ _ _ _ [_ H]]); exact H. Qed.
End Reads.

(** ** The relation *)

Section Calm.
Context {A : Crypto.Aead} {K : Kcp} {F : FecCodec} {St : Type} {O : OutputHost St} {H : Host St}.

(** [strict] asks for the clause about a parked loop, which an operation that
    resumes one does not keep. *)
Record calm (strict : bool) (s : St) (ev : list event) (s' : St) : Prop := {
  cm_active : is_active s = false -> is_active s' = false;
  cm_idle : pending_read_handler (tun s) = None -> pending_read_handler (tun s') = None;
  cm_settled : is_active s = true -> is_active s' = false -> pending_read_handler (tun s') = None;
  cm_parked : strict = true -> write_resume_cb (tun s) = None ->
    write_resume_cb (tun s') = None /\ Forall (fun x => ~ is_pull x) ev;
  cm_relay : Forall (fun x => ~ is_relay x) ev }.

#[export] Instance calm_comp b : Compositional (calm b).
Proof.
  split.
  - intros s. split; try done; intros; try congruence; try constructor; done.
  - intros s1 s2 s3 e1 e2 [A1 I1 S1 P1 R1] [A2 I2 S2 P2 R2]. split.
    + auto.
    + auto.
    + intros Ha Hn. destruct (is_active s2) eqn:E; auto.
    + intros Hb Hp. destruct (P1 Hb Hp) as [Hp2 F1]. destruct (P2 Hb Hp2) as [Hp3 F2]. split; [done | by apply Forall_app].
    + by apply Forall_app.
Qed.

(** A step of the loop itself. *)
Lemma calm_loop s ev s' :
  is_active s' = is_active s -> pending_read_handler (tun s') = pending_read_handler (tun s) ->
  Forall (fun x => ~ is_relay x) ev -> calm false s ev s'.
Proof. intros H1 H2 H3. split; rewrite ?H1, ?H2; auto; congruence. Qed.
End Calm.

(** What a session promises of its virtual functions. *)
Class OutputCalm {A : Crypto.Aead} {K : Kcp} {F : FecCodec} (St : Type) {O : OutputHost St} {H : Host St} : Prop := {
  oc_output b e d : keeps (calm b) (handle_kcp_output (St := St) e d);
  oc_batch b e ds : keeps (calm b) (handle_kcp_output_batch (St := St) e ds) }.

Section BaseCalm.
Context {A : Crypto.Aead} {K : Kcp} {F : FecCodec} {St : Type} {O : OutputHost St} {SO : SubObject St} {H : Host St}.
Context {AW : ActiveLaw St} (b : bool).

(** A member of the base class. *)
Lemma calm_tun {X} (m : M tunnel event X) :
  (forall t, pending_read_handler t = None -> pending_read_handler (final m t) = None) ->
  (forall t, write_resume_cb t = None -> write_resume_cb (final m t) = None) ->
  (forall t, Forall (fun x => ~ is_pull x) (trace m t) /\ Forall (fun x => ~ is_relay x) (trace m t)) ->
  keeps (calm (St := St) b) (on_tun m).
Proof.
  intros Hp Hw He s. unfold trace, final. rewrite on_tun_run. destruct (He (tun s)) as [H1 H2].
  split; simpl; rewrite ?active_set, ?tun_set; auto; congruence.
Qed.

Lemma calm_upd f :
  (forall t, (pending_read_handler t = None -> pending_read_handler (f t) = None) /\
             (write_resume_cb t = None -> write_resume_cb (f t) = None)) -> keeps (calm (St := St) b) (upd f).
Proof.
  intros Hf. apply calm_tun; [intros t; apply (Hf t) | intros t; apply (Hf t) | intros t; split; constructor].
Qed.

Lemma calm_look {X} (f : tunnel -> X) : keeps (calm (St := St) b) (look f).
Proof. apply keeps_gets, _. Qed.

Lemma calm_emit x : ~ is_pull x -> ~ is_relay x -> keeps (calm (St := St) b) (emit x).
Proof.
  intros H1 H2 s. unfold trace, final, emit. split; simpl; intros; try split; try congruence;
    by try apply list.Forall_singleton.
Qed.

Ltac benign := apply calm_upd; by intros.
Ltac note := apply calm_emit; by intros [].
Ltac walk := repeat first [keeps_step | apply calm_look | benign | note].

(** Pending reads are left or completed. *)
Lemma calm_complete ec : keeps (calm (St := St) b) (on_tun (complete_pending_read ec)).
Proof.
  apply calm_tun; intros t; unfold final, trace, complete_pending_read;
    destruct (pending_read_handler t) eqn:E; simpl; auto; split; repeat constructor; by intros [].
Qed.

Definition read_events (t : tunnel) (ev : list event) (t' : tunnel) : Prop :=
  (pending_read_handler t = None -> pending_read_handler t' = None) /\
  write_resume_cb t' = write_resume_cb t /\
  Forall (fun x => ~ is_pull x) ev /\ Forall (fun x => ~ is_relay x) ev.

#[local] Instance read_events_comp : Compositional read_events.
Proof.
  split; [intros t; split_and!; auto|]. intros t1 t2 t3 e1 e2 (P1 & W1 & F1 & G1) (P2 & W2 & F2 & G2).
  split_and!; [auto | congruence | by apply Forall_app | by apply Forall_app].
Qed.

Lemma read_events_loop fuel cap : keeps read_events (fulfill_loop fuel cap).
Proof.
  induction fuel as [|fuel IH]; cbn [fulfill_loop]; keeps_walk; auto; intros t;
    unfold trace, final, recv_fixed, recv_oversized, complete_pending_read, deliver, emodify.
  - destruct (KcpWrapper.recv_fixed _ _) as [[w size] buf]. split_and!; simpl; auto.
  - split_and!; simpl; auto.
  - destruct (pending_read_handler t) eqn:E; split_and!; simpl; auto; repeat constructor; by intros [].
  - split_and!; simpl; auto.
  - destruct (pending_read_handler t) eqn:E; split_and!; simpl; auto; repeat constructor; by intros [].
  - destruct (pending_read_handler t) eqn:E; split_and!; simpl; auto; repeat constructor; by intros [].
  - destruct (pending_read_handler t) eqn:E; split_and!; simpl; auto; repeat constructor; by intros [].
Qed.

Lemma read_events_fulfill : keeps read_events try_fulfill_read.
Proof. apply keeps_fulfill; [apply _ | apply read_events_loop]. Qed.

Lemma calm_fulfill : keeps (calm (St := St) b) (on_tun try_fulfill_read).
Proof.
  apply calm_tun; intros t; destruct (read_events_fulfill t) as (H1 & H2 & H3 & H4); auto. by rewrite H2.
Qed.

Lemma calm_stats e : keeps (calm (St := St) b) (on_tun (maybe_log_stats e)).
Proof.
  apply calm_tun; intros t; unfold final, trace, maybe_log_stats; case_bool; simpl; auto;
    split; repeat constructor; by intros [].
Qed.

(** Sends of the tunnel's own. *)
Lemma calm_kcp_send from d :
  from = FromKeepalive \/ from = FromFin -> keeps (calm (St := St) b) (on_tun (kcp_send from d)).
Proof.
  intros Hf. apply calm_tun; intros t; unfold final, trace, kcp_send; destruct (KcpWrapper.send _ _) as [w ret];
    simpl; auto; split; repeat constructor; destruct Hf as [-> | ->]; by intros [].
Qed.

Lemma calm_keepalive e : keeps (calm (St := St) b) (on_tun (maybe_send_keepalive e)).
Proof.
  apply calm_tun; intros t; unfold final, trace, maybe_send_keepalive; rewrite gets_bind; unfold id;
    repeat case_bool; simpl; auto; unfold ebind, kcp_send, ewhen, emodify, eret;
    destruct (KcpWrapper.send _ _) as [w ret]; case_bool; simpl; auto; split; repeat constructor; by intros [].
Qed.

Context {OC : OutputCalm St}.

Lemma calm_outputs e outs : keeps (calm (St := St) b) (deliver_outputs e outs).
Proof. unfold deliver_outputs, on_kcp_datagram, emit_output. walk; apply oc_output. Qed.

Lemma calm_input e d : keeps (calm (St := St) b) (kcp_input e d).
Proof. unfold kcp_input. walk. apply calm_outputs. Qed.

Lemma calm_cycle e ms : keeps (calm (St := St) b) (flush_cycle e ms).
Proof.
  unfold flush_cycle, begin_output_batch, kcp_update, kcp_flush, end_output_batch. walk;
    first [apply calm_outputs | apply oc_batch | apply calm_upd; intros t].
  - unfold apply_rto_floor. destruct (e_rto_gate e); repeat case_bool; by simpl.
  - by case_bool.
Qed.

Lemma calm_feed e d : keeps (calm (St := St) b) (feed_kcp_input e d).
Proof. unfold feed_kcp_input, feed_decoder, feed_rebuilt. walk; apply calm_input. Qed.

Lemma calm_due : keeps (calm (St := St) b) flush_due.
Proof. unfold flush_due. walk. Qed.

Lemma calm_do_fin e : keeps (calm (St := St) b) (do_send_fin e).
Proof. unfold do_send_fin. walk; [apply calm_kcp_send; auto | apply calm_cycle]. Qed.

Lemma calm_send_fin e : keeps (calm (St := St) b) (send_fin e).
Proof. unfold send_fin. walk. apply calm_do_fin. Qed.

Lemma calm_retry_fin e : keeps (calm (St := St) b) (retry_pending_fin e).
Proof. unfold retry_pending_fin. walk; apply calm_do_fin. Qed.
End BaseCalm.

(** The teardown and the resumed loop of a session. *)
Class HostCalm {A : Crypto.Aead} {K : Kcp} {F : FecCodec} (St : Type) {O : OutputHost St} {H : Host St} : Prop := {
  hc_shut b e : keeps (calm b) (shut_down (St := St) e);
  hc_resume e hook : keeps (calm false) (run_resume (St := St) e hook) }.

Section HostCalm.
Context {A : Crypto.Aead} {K : Kcp} {F : FecCodec} {St : Type} {O : OutputHost St} {SO : SubObject St} {H : Host St}.
Context {AW : ActiveLaw St} {OC : OutputCalm St} {HC : HostCalm St} (b : bool).

(** A loop that was parked may read its socket again; otherwise nothing. *)
Lemma calm_resume e : keeps (calm (St := St) b) (maybe_resume_write e).
Proof.
  intros s. unfold maybe_resume_write, look. rewrite trace_gets, final_gets. unfold id.
  destruct (write_resume_cb (tun s)) as [hook|] eqn:E; [|apply comp_refl].
  case_bool; [apply comp_refl|].
  assert (Hk : keeps (calm (St := St) false) (upd unpark_write ;;; run_resume e hook)).
  { apply keeps_bind; [apply _ | by apply calm_upd | intros _; apply hc_resume]. }
  destruct (Hk s) as [H1 H2 H3 _ H5]. split; auto. intros _. by rewrite E.
Qed.

Lemma calm_feed_and_drain e d : keeps (calm (St := St) b) (feed_and_drain e d).
Proof.
  unfold feed_and_drain. repeat keeps_step;
    [apply calm_feed | apply calm_emit; by intros [] | apply calm_fulfill | apply calm_resume]; apply _.
Qed.
End HostCalm.

(** ** The packed flags *)

Section Flags.
Context {A : Crypto.Aead} {K : Kcp} {F : FecCodec}.

Lemma flag_off_other f g (s : session) :
  Z.land (u8 (Z.lnot g)) f = f -> has_flag f (flag_off g s) = has_flag f s.
Proof. intros E. unfold has_flag, flag_off. simpl. by rewrite <- Z.land_assoc, E. Qed.

Lemma flag_on_other f g (s : session) : Z.land g f = 0 -> has_flag f (flag_on g s) = has_flag f s.
Proof. intros E. unfold has_flag, flag_on. simpl. by rewrite Z.land_lor_distr_l, E, Z.lor_0_r. Qed.

Lemma flag_on_same f (s : session) : f <> 0 -> has_flag f (flag_on f s) = true.
Proof.
  intros Hf. unfold has_flag, flag_on. simpl. rewrite negb_true_iff, Z.eqb_neq.
  rewrite Z.land_lor_distr_l, Z.land_diag. intros [_ ?]%Z.lor_eq_0_iff. done.
Qed.
End Flags.

(** ** The server's session *)

Section ServerCalm.
Context {A : Crypto.Aead} {K : Kcp} {F : FecCodec}.

(** Its own members, as long as it keeps running. *)
Lemma calm_own b (f : session -> session) :
  (forall s, base (f s) = base s /\ is_running (f s) = is_running s) -> keeps (calm b) (emodify f).
Proof.
  intros Hf s. destruct (Hf s) as [H1 H2]. unfold trace, final, emodify.
  split; simpl; rewrite ?H1, ?H2; auto; congruence.
Qed.

Lemma calm_base {X} b (m : M tunnel event X) :
  keeps (calm (St := session) b) (on_tun m) -> keeps (calm b) (with_base m).
Proof. exact id. Qed.

Lemma calm_flag_off b g : Z.land (u8 (Z.lnot g)) RUNNING = RUNNING -> keeps (calm b) (emodify (flag_off g)).
Proof. intros E. apply calm_own. intros s. split; [done | by apply flag_off_other]. Qed.

Ltac walk :=
  repeat first [keeps_step | apply calm_look | apply calm_upd; by intros | by apply calm_flag_off
    | apply calm_emit; by intros [] | apply calm_own; by intros | apply calm_base, calm_upd; by intros].

Lemma calm_stop b : keeps (calm b) stop.
Proof.
  intros s. destruct (is_running s) eqn:Hr.
  - destruct (stop_stops s Hr) as (S1 & _ & S3 & S4). split; auto.
    + intros _ _. split; [done|]. unfold trace, stop. rewrite gets_bind, Hr.
      unfold ebind, emodify, with_base, emit, complete_pending_read. simpl.
      destruct (pending_read_handler (base s)); repeat constructor; by intros [].
    + unfold trace, stop. rewrite gets_bind, Hr.
      unfold ebind, emodify, with_base, emit, complete_pending_read. simpl.
      destruct (pending_read_handler (base s)); repeat constructor; by intros [].
  - unfold trace, final, stop. rewrite gets_bind, Hr. simpl.
    split; simpl; auto; try (by rewrite Hr). intros _. by apply flag_off_has.
Qed.

#[export] Instance session_output_calm : OutputCalm session.
Proof.
  assert (He : forall b e d, keeps (calm b) (encrypt_for_wire e d)).
  { intros. unfold encrypt_for_wire. walk. apply calm_stop. }
  split; intros b e d; simpl.
  - unfold session_output. walk. apply He.
  - unfold session_output_batch. walk. generalize (@nil (list Z)) as acc.
    induction d as [|x d IH]; intros acc; cbn [encrypt_batch]; walk; auto.
Qed.

Lemma calm_close b : keeps (calm b) close_connection.
Proof. unfold close_connection. walk. apply calm_stop. Qed.

Lemma calm_forward_tcp e : keeps (calm false) (forward_tcp_to_kcp e).
Proof.
  unfold forward_tcp_to_kcp. walk; try apply calm_close.
  - intros s. unfold trace, final. rewrite upd_run. apply calm_loop; by try constructor.
  - intros s. apply calm_loop; try done. repeat constructor; by intros [].
Qed.

#[export] Instance session_host_calm : HostCalm session.
Proof. split; intros; [apply calm_stop | apply calm_forward_tcp]. Qed.

Lemma calm_receive b e p : keeps (calm b) (on_receive e p).
Proof. unfold on_receive. walk. apply calm_feed_and_drain; apply _. Qed.

Lemma calm_inject b e p : keeps (calm b) (on_inject_decrypted e p).
Proof. unfold on_inject_decrypted. walk. apply calm_feed_and_drain; apply _. Qed.

Lemma calm_tick b e : keeps (calm b) (on_update_tick e).
Proof.
  unfold on_update_tick, maybe_drained. walk;
    first [apply calm_stats | apply calm_due | apply calm_cycle | apply calm_fulfill | apply calm_resume
          | apply calm_keepalive | apply calm_retry_fin | apply calm_close]; apply _.
Qed.

Lemma calm_target_closed b e : keeps (calm b) (handle_target_closed e).
Proof. unfold handle_target_closed, mark_target_closed. walk. apply calm_send_fin; apply _. Qed.

(** The flags the handlers steer by. *)
Record flags_kept (s : session) (ev : list event) (s' : session) : Prop := {
  fk_proto : is_protocol_handshake_done s' = is_protocol_handshake_done s;
  fk_socks : is_running s' = true -> is_socks5_read_pending s' = is_socks5_read_pending s;
  fk_connect : is_running s' = true -> is_connect_pending s' = is_connect_pending s;
  fk_running : is_running s = false -> is_running s' = false;
  fk_closed : target_closed s = true -> target_closed s' = true }.

#[export] Instance flags_kept_comp : Compositional flags_kept.
Proof.
  split; [by split|]. intros s1 s2 s3 e1 e2 [P1 S1 C1 R1 T1] [P2 S2 C2 R2 T2].
  assert (Hr : is_running s3 = true -> is_running s2 = true) 
    by (intros E; destruct (is_running s2) eqn:E2; [done | by rewrite R2 in E]).
  split; try congruence; auto; intros Hx; etransitivity; auto.
Qed.

#[export] Instance flags_base : BaseFrame (St := session) flags_kept.
Proof. split; [apply _|]. by intros t s ev _. Qed.

Lemma calm_flags_own (f : session -> session) :
  (forall s, state_flags (f s) = state_flags s /\ (target_closed s = true -> target_closed (f s) = true)) ->
  keeps flags_kept (emodify f).
Proof.
  intros Hf s. destruct (Hf s) as [H1 H2]. unfold trace, final. simpl.
  split; auto; unfold is_protocol_handshake_done, is_socks5_read_pending, is_connect_pending, is_running, has_flag;
    by rewrite H1.
Qed.

Lemma flags_emit x : keeps flags_kept (emit x).
Proof. by intros s. Qed.

Lemma flags_with_base f : keeps flags_kept (with_base (emodify f)).
Proof. by intros s. Qed.

Ltac fwalk :=
  repeat first [keeps_step | apply frame_look; apply _ | apply frame_upd; apply _ | apply flags_with_base
    | apply calm_flags_own; by intros | apply flags_emit].

Lemma flags_stop : keeps flags_kept stop.
Proof.
  intros s. assert (Hf : is_running (final stop s) = false).
  { destruct (is_running s) eqn:Hr; [by apply stop_stops|]. unfold final, stop. rewrite gets_bind, Hr. simpl.
    by apply flag_off_has. }
  split; rewrite ?Hf; auto; try done.
  - unfold stop, final. rewrite gets_bind. unfold ebind, emodify, with_base, emit, complete_pending_read.
    destruct (is_running s); simpl; [destruct (pending_read_handler (base s))|]; simpl;
      unfold is_protocol_handshake_done; try (apply flag_off_other; by vm_compute);
      (etransitivity; [apply (flag_off_other PROTOCOL_HS_DONE); by vm_compute|]);
      exact (flag_off_other PROTOCOL_HS_DONE RUNNING s eq_refl).
  - unfold stop, final. rewrite gets_bind. unfold ebind, emodify, with_base, emit, complete_pending_read.
    destruct (is_running s); simpl; [destruct (pending_read_handler (base s))|]; by simpl.
Qed.

#[export] Instance flags_output : OutputFrame (St := session) flags_kept.
Proof.
  assert (He : forall e d, keeps flags_kept (encrypt_for_wire e d)).
  { intros. unfold encrypt_for_wire. fwalk. apply flags_stop. }
  split; intros e d; simpl.
  - unfold session_output. fwalk. apply He.
  - unfold session_output_batch. fwalk. generalize (@nil (list Z)) as acc.
    induction d as [|x d IH]; intros acc; cbn [encrypt_batch]; fwalk; auto.
Qed.

Lemma flags_close : keeps flags_kept close_connection.
Proof. unfold close_connection. fwalk. apply flags_stop. Qed.

Lemma flags_forward_tcp e : keeps flags_kept (forward_tcp_to_kcp e).
Proof. unfold forward_tcp_to_kcp. fwalk; apply flags_close. Qed.

#[export] Instance flags_host : HostFrame (St := session) flags_kept.
Proof. split; intros; [apply flags_stop | apply flags_forward_tcp]. Qed.

Lemma flags_receive e p : keeps flags_kept (on_receive e p).
Proof. unfold on_receive. fwalk. apply frame_feed_and_drain; [apply _.. |]. intros. apply flags_emit. Qed.

Lemma flags_inject e p : keeps flags_kept (on_inject_decrypted e p).
Proof. unfold on_inject_decrypted. fwalk. apply frame_feed_and_drain; [apply _.. |]. intros. apply flags_emit. Qed.

Lemma flags_tick e : keeps flags_kept (on_update_tick e).
Proof.
  unfold on_update_tick, maybe_drained. fwalk;
    first [apply frame_flush_due | apply frame_flush_cycle | apply frame_fulfill | apply frame_maybe_resume
          | apply frame_retry_fin | apply flags_close | apply frame_tun]; try apply _;
    [by apply emits_stats | by apply emits_keepalive].
Qed.

Lemma flags_target_closed e : keeps flags_kept (handle_target_closed e).
Proof.
  unfold handle_target_closed, mark_target_closed. fwalk; [apply frame_send_fin; apply _|].
  intros s. unfold trace, final. simpl.
  split; auto; unfold is_protocol_handshake_done, is_socks5_read_pending, is_connect_pending, is_running;
    intros; by rewrite flag_off_other in *.
Qed.
End ServerCalm.

(** ** The client's session *)

Section ClientCalm.
Context {A : Crypto.Aead} {K : Kcp} {F : FecCodec}.

#[export] Instance client_active_law : ActiveLaw client_session.
Proof. by intros t s. Qed.

Lemma calm_client b (f : client_session -> client_session) :
  (forall s, cbase (f s) = cbase s /\ running (f s) = running s) -> keeps (calm b) (emodify f).
Proof.
  intros Hf s. destruct (Hf s) as [H1 H2]. unfold trace, final, emodify.
  split; simpl; rewrite ?H1, ?H2; auto; congruence.
Qed.

Lemma calm_cbase {X} b (m : M tunnel event X) :
  keeps (calm (St := client_session) b) (on_tun m) -> keeps (calm b) (with_cbase m).
Proof. exact id. Qed.

Ltac walk :=
  repeat first [keeps_step | apply calm_look | apply calm_upd; by intros
    | apply calm_emit; by intros [] | apply calm_client; by intros | apply calm_cbase, calm_upd; by intros].

Lemma calm_request b : keeps (calm b) request_teardown.
Proof.
  intros s. unfold trace, final, request_teardown. split; simpl; auto; try congruence;
    intros; try split; auto; destruct (encrypt_teardown s); repeat constructor; by intros [].
Qed.

#[export] Instance client_output_calm : OutputCalm client_session.
Proof.
  assert (He : forall b e d, keeps (calm b) (client_encrypt_for_wire e d)).
  { intros. unfold client_encrypt_for_wire. walk. apply calm_request. }
  split; intros b e d; simpl.
  - unfold client_output. walk. apply He.
  - unfold client_output_batch. walk. generalize (@nil (list Z)) as acc.
    induction d as [|x d IH]; intros acc; cbn [client_encrypt_batch]; walk; auto.
Qed.

Lemma close_rest_calm b s :
  running s = true -> calm b s (trace close_rest s) (final close_rest s).
Proof.
  intros Hr. unfold close_rest, trace, final. rewrite !modify_bind. unfold close_socket.
  unfold ebind, egets, emodify, ewhen, emit, eret, upd, on_tun, complete_pending_read, unpark_write.
  destruct s as [t r c p et us rx ta ra ba co lo]. simpl in *. subst r.
  destruct us as [[]|]; simpl; destruct (pending_read_handler t) eqn:E; split; simpl; auto;
    intros; try split; auto; repeat constructor; by intros [].
Qed.

Lemma calm_on_close b e : keeps (calm b) (on_close e).
Proof.
  intros s. destruct (running s) eqn:Hr.
  - unfold trace, final. rewrite on_close_split by done.
    fold (trace (flush_cycle e (now_kcp_ms e) ;;; close_rest) s).
    fold (final (flush_cycle e (now_kcp_ms e) ;;; close_rest) s). rewrite trace_bind, final_bind.
    eapply comp_trans; [apply calm_cycle; apply _|]. apply close_rest_calm.
    destruct (frame_flush_cycle (member_step true) e (now_kcp_ms e) s) as [[Hs|(? & _)] _ _ _]; [|done].
    unfold shell in Hs. congruence.
  - unfold trace, final, on_close. rewrite gets_bind, Hr. apply comp_refl.
Qed.

Lemma calm_forward_local e : keeps (calm false) (forward_client_to_kcp e).
Proof.
  unfold forward_client_to_kcp. walk; intros s.
  - unfold trace, final. rewrite upd_run. apply calm_loop; by try constructor.
  - apply calm_loop; try done. repeat constructor; by intros [].
Qed.

Lemma calm_close_local b : keeps (calm b) close_local.
Proof. unfold close_local. walk. Qed.

#[export] Instance client_host_calm : HostCalm client_session.
Proof.
  split; intros; [apply calm_on_close|]. simpl. unfold resume_local. walk;
    [apply calm_close_local | apply calm_forward_local].
Qed.

Lemma calm_udp_receive b e ec p : keeps (calm b) (on_udp_receive e ec p).
Proof.
  unfold on_udp_receive, do_udp_receive, client_on_receive. walk. apply calm_feed_and_drain; apply _.
Qed.

Lemma calm_backoff b ec : keeps (calm b) (on_receive_backoff ec).
Proof. unfold on_receive_backoff, do_udp_receive. walk. Qed.

Lemma calm_client_tick b e : keeps (calm b) (client_update_tick e).
Proof.
  unfold client_update_tick. walk;
    first [apply calm_stats | apply calm_on_close | apply calm_due | apply calm_cycle | apply calm_fulfill
          | apply calm_resume | apply calm_keepalive | apply calm_retry_fin]; apply _.
Qed.

Lemma calm_take_pending b : keeps (calm b) take_pending.
Proof. intros s. unfold trace, final, take_pending. split; simpl; auto; congruence. Qed.

Lemma calm_take_completion b ok : keeps (calm b) (take_completion ok).
Proof. unfold take_completion. walk. Qed.

Lemma calm_timer b e ec : keeps (calm b) (on_connect_timer e ec).
Proof.
  unfold on_connect_timer. walk; first [apply calm_take_pending | apply calm_on_close | apply calm_take_completion].
Qed.

Lemma calm_ack b e ec m : keeps (calm b) (on_ack e ec m).
Proof. unfold on_ack. walk; first [apply calm_take_pending | apply calm_on_close]. Qed.

Lemma calm_connect_failed b e : keeps (calm b) (connect_failed e).
Proof. unfold connect_failed, drop_socket. walk; [apply calm_on_close | apply calm_take_completion]. Qed.
End ClientCalm.

(** ** Sends

    The part of [calm] that a send of the caller's keeps too, and what the
    send adds to the stream. *)

Section Still.
Context {A : Crypto.Aead} {K : Kcp} {F : FecCodec} {St : Type} {O : OutputHost St} {H : Host St}.

Record still (strict : bool) (s : St) (ev : list event) (s' : St) : Prop := {
  st_active : is_active s = false -> is_active s' = false;
  st_idle : pending_read_handler (tun s) = None -> pending_read_handler (tun s') = None;
  st_settled : is_active s = true -> is_active s' = false -> pending_read_handler (tun s') = None;
  st_parked : strict = true -> write_resume_cb (tun s) = None ->
    write_resume_cb (tun s') = None /\ Forall (fun x => ~ is_pull x) ev }.

Lemma calm_still b s ev s' : calm b s ev s' -> still b s ev s'.
Proof. by intros []. Qed.

#[export] Instance still_comp b : Compositional (still b).
Proof.
  split.
  - intros s. apply calm_still, comp_refl.
  - intros s1 s2 s3 e1 e2 [A1 I1 S1 P1] [A2 I2 S2 P2]. split.
    + auto.
    + auto.
    + intros Ha Hn. destruct (is_active s2) eqn:E; auto.
    + intros Hb Hp. destruct (P1 Hb Hp) as [Hp2 F1]. destruct (P2 Hb Hp2) as [Hp3 F2].
      split; [done | by apply Forall_app].
Qed.
End Still.

(** Shutting a session down ends it. *)
Class ShutLaw {A : Crypto.Aead} {K : Kcp} {F : FecCodec} (St : Type) {O : OutputHost St} {H : Host St} : Prop :=
  shut_ends e s : is_active (final (shut_down (St := St) e) s) = false.

Section Sends.
Context {A : Crypto.Aead} {K : Kcp} {F : FecCodec} {St : Type} {O : OutputHost St} {SO : SubObject St} {H : Host St}.
Context {AW : ActiveLaw St} {OC : OutputCalm St} {HC : HostCalm St} {SL : ShutLaw St}.

(** A send that is let in queues the message, or ends the session. *)
Lemma send_offers e d (s : St) :
  still true s (trace (send_data e d) s) (final (send_data e d) s) /\
  Forall (fun x => match x with TargetWrite _ => False | _ => True end) (trace (send_data e d) s) /\
  (can_accept_data s = false -> offered (trace (send_data e d) s) = []) /\
  (offered (trace (send_data e d) s) = [d] \/
   offered (trace (send_data e d) s) = [] /\
     (can_accept_data s = false \/ is_active s = false \/ is_active (final (send_data e d) s) = false)).
Proof.
  unfold send_data. rewrite trace_gets, final_gets.
  destruct (can_accept_data s) eqn:Ec; [|by split_and!; [apply comp_refl | constructor | auto | auto]].
  cbn [negb]. unfold on_send, trace, final. rewrite gets_bind.
  destruct (is_active s) eqn:Ea; [|by split_and!; [apply comp_refl | constructor | auto | auto]].
  cbn [negb]. set (k := fun ret : Z => if ret <? 0 then _ else _). fold (trace (ebind (on_tun (kcp_send FromApp d)) k) s).
  fold (final (ebind (on_tun (kcp_send FromApp d)) k) s). rewrite trace_bind, final_bind.
  set (m := on_tun (kcp_send FromApp d)). set (s1 := final m s).
  assert (Hm : exists w ret, s1 = set_tun (set_kcp w (tun s)) s /\ trace m s = [KcpSend FromApp d ret] /\ result m s = ret).
  { unfold s1, m, final, trace, result. rewrite on_tun_run. unfold final, trace, result, kcp_send.
    destruct (KcpWrapper.send d (t_kcp (tun s))) as [w ret]. simpl. by exists w, ret. }
  destruct Hm as (w & ret & Es & Et & Er). rewrite Et, Er.
  assert (Hk : calm true s1 (trace (k ret) s1) (final (k ret) s1)).
  { assert (Hk : keeps (calm true) (k ret)); [|apply Hk]. unfold k. case_bool;
      repeat first [keeps_step | apply calm_upd; by intros | apply hc_shut | apply calm_cycle; apply _]. }
  split_and!.
  - apply (comp_trans (R := still true) s s1 _ [_]); [|by apply calm_still]. rewrite Es.
    split; simpl; rewrite ?active_set, ?tun_set; intros; try congruence; auto.
  - apply Forall_app. split; [by repeat constructor|]. eapply List.Forall_impl; [|apply (cm_relay _ _ _ _ Hk)].
    intros []; simpl; tauto.
  - done.
  - rewrite offered_app, (no_relay_offered _ (cm_relay _ _ _ _ Hk)). unfold offered. simpl.
    destruct (ret <? 0) eqn:E; [right | by left]. split; [done|]. right. right.
    unfold k. rewrite E, final_bind. apply shut_ends.
Qed.
End Sends.

#[export] Instance session_shut_law {A : Crypto.Aead} {K : Kcp} {F : FecCodec} : ShutLaw session.
Proof.
  intros e s. simpl. destruct (is_running s) eqn:Hr; [by apply stop_stops|]. unfold final, stop.
  rewrite gets_bind, Hr. simpl. by apply flag_off_has.
Qed.

#[export] Instance client_shut_law {A : Crypto.Aead} {K : Kcp} {F : FecCodec} : ShutLaw client_session.
Proof. intros e s. apply close_stops. Qed.

(** ** Reads *)

Section ReadSteps.
Context {A : Crypto.Aead} {K : Kcp} {F : FecCodec}.

(** A pending read stays, or completes once. *)
Definition read_step (t : tunnel) (ev : list event) (t' : tunnel) : Prop :=
  (pending_read_handler t' = pending_read_handler t /\ reads_done ev = []) \/
  (exists h ec d, pending_read_handler t = Some h /\ pending_read_handler t' = None /\
     reads_done ev = [(h, ec, d)]).

#[export] Instance read_step_comp : Compositional read_step.
Proof.
  split; [by left|]. intros t1 t2 t3 e1 e2 H1 H2. unfold read_step. rewrite reads_done_app.
  destruct H1 as [[E1 R1]|(h & ec & d & E1 & E1' & R1)], H2 as [[E2 R2]|(h2 & ec2 & d2 & E2 & E2' & R2)];
    rewrite R1, R2.
  - left. split; [congruence | done].
  - right. exists h2, ec2, d2. split_and!; [congruence | done | done].
  - right. exists h, ec, d. split_and!; [done | congruence | done].
  - congruence.
Qed.

Context {St : Type} {O : OutputHost St} {SO : SubObject St} {H : Host St} {AW : ActiveLaw St}.

(** Registering a read: refused at once, or pending and perhaps completed. *)
Lemma read_registered cap h (s : St) :
  let s' := final (on_async_read_some cap h) s in
  let ev := trace (on_async_read_some cap h) s in
  is_active s' = is_active s /\ write_resume_cb (tun s') = write_resume_cb (tun s) /\
  handshake_done (tun s') = handshake_done (tun s) /\
  Forall (fun x => ~ is_pull x) ev /\ Forall (fun x => ~ is_relay x) ev /\
  (is_active s = false -> tun s' = tun s /\ reads_done ev = [(h, ec_operation_aborted, [])]) /\
  (is_active s = true ->
     (exists h', pending_read_handler (tun s) = Some h' /\ tun s' = tun s /\
        reads_done ev = [(h, ec_already_started, [])]) \/
     (pending_read_handler (tun s) = None /\
        ((pending_read_handler (tun s') = Some h /\ reads_done ev = []) \/
         (exists ec d, pending_read_handler (tun s') = None /\ reads_done ev = [(h, ec, d)])))).
Proof.
  intros s' ev. unfold s', ev, on_async_read_some, trace, final. rewrite gets_bind.
  destruct (is_active s) eqn:Ea; cbn [negb].
  2:{ split_and!; try done; repeat constructor; by intros []. }
  rewrite look_bind. destruct (pending_read_handler (tun s)) as [h'|] eqn:Ep.
  { split_and!; try done; try (repeat constructor; by intros []). intros _. left. eauto. }
  rewrite upd_bind. set (f := set_pending_read_handler _ _). set (s1 := set_tun f s).
  pose proof (calm_fulfill (St := St) true s1) as [C1 _ _ C4 C5].
  pose proof (try_fulfill_step (tun s1)) as Hs. destruct (ts_clock _ _ _ Hs) as [_ Hh]. apply tun_step_read in Hs.
  unfold trace, final in *. rewrite on_tun_run in *. unfold trace, final in *.
  assert (E1 : tun s1 = f) by apply tun_set. rewrite E1 in *.
  destruct (read_events_fulfill f) as (_ & Hw & Hno & _). unfold trace, final in Hw, Hno.
  cbn [fst snd] in *. rewrite !tun_set, !active_set. split_and!; try done.
  - unfold s1. by rewrite active_set.
  - intros _. right. split; [done|]. destruct Hs as [[Hp Hr]|(h2 & ec & d & Hp & Hp' & Hr)].
    + left. by rewrite Hp.
    + right. unfold f in Hp. simpl in Hp. simplify_eq. eauto.
Qed.
End ReadSteps.
