(* ===== verification/Link.v ===== *)
(** * Link: a client session and a server session over a hostile network

    The two concrete sessions discharge the interface of [Flow], and are then
    put at the two ends of a network that may lose, repeat, reorder, reflect,
    modify and invent packets. What the model assumes of the cipher is that a
    packet that opens under a direction's key was produced by the end that
    holds that direction ([intact]), of KCP the guarantees of [History] and of
    the erasure codec, on with the same geometry or off at both ends, the one
    of [Coding].
    The conclusion is the one a user of the proxy relies on: what is read at
    one end is a prefix of what was sent at the other. *)

From Stdlib Require Import ZArith Lia.
From stdpp Require Import base list strings.
From S2P Require Import Prelude Config Effects Kcp History Tunnel TunnelProofs Coding Flow Session ClientSession.
From S2P Require Crypto.

(** ** The encrypting output path, for both sessions

    The two classes have the same output path but for what a refused
    encryption does; [fail] stands for it. *)
Section Sealing.
Context {A : Crypto.Aead} {AL : Crypto.AeadLaws A} {K : Kcp} {F : FecCodec}.
Context {St : Type} {O : OutputHost St} {SO : SubObject St}.
Context (psk salt : list Z) (dir peer : Z) (admitted : list Z -> Prop).
Context (fail : M St event unit).

Abbreviation fl src := (on_st (St := St) (flow psk salt dir peer admitted src)).
Context (fail_flow : forall src, keeps (fl src) fail).

Definition seal_one (e : tenv) (data : list Z) : M St event (option (list Z)) :=
  let* c := look t_crypto in
  let '(c', out, ec) := Crypto.encrypt_impl (e_fault e (Crypto.encrypt_counter c)) data [] c in
  upd (set_crypto c') ;;;
  if negb (ec_failed ec) then eret (Some out)
  else upd (bump encrypt_errors 1) ;;; fail ;;; eret None.

Fixpoint seal_batch (e : tenv) (datagrams encrypted : list (list Z)) : M St event (option (list (list Z))) :=
  match datagrams with
  | [] => eret (Some encrypted)
  | data :: rest =>
      let* enc := seal_one e data in
      match enc with
      | None => eret None
      | Some d => upd (count_tx d) ;;; seal_batch e rest (encrypted ++ [d])
      end
  end.

Ltac benign := apply fl_upd, flow_benign; by intros.

(** One encryption: the books are kept, and a packet seals the datagram. *)
Lemma seal_one_flow src e d s :
  fl src s (trace (seal_one e d) s) (final (seal_one e d) s) /\
  (end_inv psk salt dir peer (tun s) ->
     forall p, result (seal_one e d) s = Some p -> seals psk salt dir p d).
Proof.
  unfold seal_one, look. rewrite trace_gets, final_gets, result_gets.
  set (f := e_fault e _). unfold on_st.
  pose proof (fun Hi : end_inv psk salt dir peer (tun s) => Crypto.encrypt_keyed psk salt f d [] (t_crypto (tun s))
    (ei_keyed _ _ _ _ (tun s) Hi) (ei_salt _ _ _ _ (tun s) Hi) (ei_counter _ _ _ _ (tun s) Hi)) as Hc.
  destruct (Crypto.encrypt_impl f d [] (t_crypto (tun s))) as [[c' out] ec].
  unfold trace, final, result. rewrite upd_bind. set (s1 := set_tun (set_crypto c' (tun s)) s).
  assert (Hs1 : fl src s [] s1).
  { unfold on_st, s1. rewrite tun_set. apply flow_quiet; try done.
    intros Hi. destruct (Hc Hi) as (H1 & H2 & H3 & H4 & _), Hi. split; simpl; congruence. }
  destruct (ec_failed ec) eqn:Ef; simpl.
  - split.
    + apply (comp_trans (R := fl src) _ s1 _ []); [done|].
      revert s1 Hs1. intros s1 _.
      assert (Hk : keeps (fl src) (upd (bump encrypt_errors 1) ;;; fail ;;; eret (@None (list Z)))).
      { repeat first [keeps_step | benign | apply fail_flow]. }
      apply Hk.
    + intros _ p. unfold ebind. destruct (upd _ _) as [[u s2] e2], (fail s2) as [[u3 s3] e3]. done.
  - split; [done|]. intros Hi p [= <-]. destruct (Hc Hi) as (_ & _ & _ & _ & Hp).
    rewrite (ei_local _ _ _ _ _ Hi) in Hp. apply Hp. by destruct ec.
Qed.

(** A burst: every packet seals one of its datagrams. *)
Lemma seal_batch_flow src e ds : forall acc s,
  fl src s (trace (seal_batch e ds acc) s) (final (seal_batch e ds acc) s) /\
  (end_inv psk salt dir peer (tun s) ->
     forall ps, result (seal_batch e ds acc) s = Some ps ->
     Forall (fun p => p ∈ acc \/ exists d, d ∈ ds /\ seals psk salt dir p d) ps).
Proof.
  induction ds as [|d ds IH]; intros acc s; cbn [seal_batch].
  { split; [apply (comp_refl (R := fl src))|]. intros _ ps [= <-]. apply list.Forall_forall. auto. }
  rewrite trace_bind, final_bind, result_bind. destruct (seal_one_flow src e d s) as [H1 H2].
  destruct (result (seal_one e d) s) as [p|].
  2:{ split; [|done]. eapply (comp_trans (R := fl src)); [exact H1 | apply (comp_refl (R := fl src))]. }
  set (s1 := final (seal_one e d) s) in *. unfold trace at 2, final, result. rewrite upd_bind.
  set (s2 := set_tun _ s1).
  assert (H12 : fl src s1 [] s2).
  { unfold on_st, s2. rewrite tun_set. apply (flow_benign _ _ _ _ _ src (count_tx p)). by intros. }
  destruct (IH (acc ++ [p]) s2) as [H3 H4]. split.
  - eapply (comp_trans (R := fl src)); [done|]. by apply (comp_trans (R := fl src) _ s2 _ []).
  - intros Hi ps Hps. destruct (H1 Hi) as [Hi1 _]. destruct (H12 Hi1) as [Hi2 _].
    eapply List.Forall_impl; [|by apply H4]. intros q. cbv beta. rewrite elem_of_app, list_elem_of_singleton.
    intros [[?| ->]|(x & Hx & Hq)]; [by left | |]; right.
    + exists d. split; [apply elem_of_cons; by left | by apply (H2 Hi)].
    + exists x. split; [apply elem_of_cons; by right | done].
Qed.

Lemma wire_flow (src : source) ps s :
  (end_inv psk salt dir peer (tun s) -> Forall (fun p => exists d, seals psk salt dir p d /\ src Unit d) ps) ->
  fl src s [Wire ps] s.
Proof.
  intros Hp Hi. split; [done|]. exists obs_nil, code_nil. specialize (Hp Hi). rewrite list.Forall_forall in Hp.
  split; simpl; idle. intros p. rewrite app_nil_r. intros Hin.
  destruct (Hp p Hin) as (d & Hd & Hs). eauto.
Qed.

Lemma seal_output_flow (src : source) e d : src Unit d ->
  keeps (fl src) (let* enc := seal_one e d in
                  match enc with None => eret tt | Some p => upd (count_tx p) ;;; emit (Wire [p]) end).
Proof.
  intros Hd s. rewrite trace_bind, final_bind. destruct (seal_one_flow src e d s) as [H1 H2].
  intros Hi. specialize (H2 Hi). revert Hi. eapply (comp_trans (R := fl src)); [exact H1|].
  destruct (result (seal_one e d) s) as [p|]; [|apply (comp_refl (R := fl src))].
  unfold trace, final. rewrite upd_bind. set (s2 := set_tun _ _).
  apply (comp_trans (R := fl src) _ s2 _ []).
  - unfold on_st, s2. rewrite tun_set. apply (flow_benign _ _ _ _ _ src (count_tx p)). by intros.
  - apply wire_flow. intros _. apply list.Forall_singleton. eauto.
Qed.

Lemma seal_burst_flow (src : source) e ds : Forall (src Unit) ds ->
  keeps (fl src) (let* enc := seal_batch e ds [] in
                  match enc with None => eret tt | Some ps => emit (Wire ps) end).
Proof.
  intros Hds s. rewrite trace_bind, final_bind. destruct (seal_batch_flow src e ds [] s) as [H1 H2].
  intros Hi. specialize (H2 Hi). revert Hi. eapply (comp_trans (R := fl src)); [exact H1|].
  destruct (result (seal_batch e ds []) s) as [ps|]; [|apply (comp_refl (R := fl src))].
  apply wire_flow. intros _. eapply List.Forall_impl; [|by apply H2]. intros p. cbv beta.
  intros [?%elem_of_nil|(d & Hd & Hp)]; [done|]. rewrite list.Forall_forall in Hds. eauto.
Qed.

(** A packet that opens under the peer's key carries an admitted unit. *)
Definition vouched (p : list Z) : Prop := forall pt,
  Crypto.gcm_open (Crypto.direction_key psk salt peer) (Crypto.pkt_nonce p) (Crypto.pkt_cipher p)
    (Crypto.pkt_tag p) = Some pt -> admitted pt.

(** Decrypting a received packet, then anything that is sound for what came
    out of it. *)
Lemma open_flow {X} src f p (k : list Z -> error_code -> M St event X) :
  vouched p -> (forall plain ec, (ec = ec_none -> admitted plain) -> keeps (fl src) (k plain ec)) ->
  keeps (fl src)
    (let* t := look id in
     let '(c, plain, ec) := Crypto.decrypt_impl f p (decrypt_buf t) (t_crypto t) in
     upd (fun t => set_decrypt_buf plain (set_crypto c t)) ;;; k plain ec).
Proof.
  intros Hp Hk s Hi. revert Hi. unfold look. rewrite trace_gets, final_gets. unfold id. intros Hi.
  pose proof (Crypto.decrypt_keyed psk salt f p (decrypt_buf (tun s)) (t_crypto (tun s))
    (ei_keyed _ _ _ _ _ Hi)) as Hd.
  destruct (Crypto.decrypt_impl f p (decrypt_buf (tun s)) (t_crypto (tun s))) as [[c plain] ec].
  destruct Hd as (H1 & H2 & H3 & H4 & H5). rewrite (ei_peer _ _ _ _ _ Hi) in H5.
  specialize (Hk plain ec (fun E => Hp plain (H5 E))). revert Hi.
  unfold trace, final. rewrite upd_bind. set (s1 := set_tun _ s).
  apply (comp_trans (R := fl src) _ s1 _ []); [|apply Hk].
  unfold on_st, s1. rewrite tun_set. apply flow_quiet; try done.
  intros []. split; simpl; congruence.
Qed.
End Sealing.

(** Apply a lemma of the interface, the instances found by resolution. *)
Tactic Notation "via" uconstr(l) := apply l; try apply _.

(** ** The server session *)

Section ServerFlow.
Context {A : Crypto.Aead} {AL : Crypto.AeadLaws A} {K : Kcp} {F : FecCodec}.
Context (psk salt : list Z) (dir peer : Z) (admitted : list Z -> Prop).

Abbreviation fl src := (on_st (St := session) (flow psk salt dir peer admitted src)).

(** Members outside the base object. *)
Lemma own_flow src (f : session -> session) : (forall s, base (f s) = base s) -> keeps (fl src) (emodify f).
Proof. intros Hf s. unfold on_st, trace, final. simpl. rewrite Hf. apply comp_refl. Qed.

Lemma base_flow {X} src (m : M tunnel event X) :
  keeps (flow psk salt dir peer admitted src) m -> keeps (fl src) (with_base m).
Proof. exact (fl_tun (St := session) psk salt dir peer admitted src m). Qed.

Ltac benign := first [apply fl_upd, flow_benign; by intros
                     | apply base_flow, keeps_modify, flow_benign; by intros].
Ltac note := by apply (fl_emit (St := session)).
Ltac walk := repeat first [keeps_step | apply fl_look | benign | apply own_flow; by intros | note].

Lemma stop_flow src : keeps (fl src) stop.
Proof. unfold stop. walk. by apply base_flow, flow_complete. Qed.

#[export] Instance session_output_flow : OutputFlow psk salt dir peer admitted session.
Proof.
  split; intros src e d Hd; simpl; unfold session_output, session_output_batch;
    (apply keeps_bind; [apply _ | apply keeps_gets, _ | intros ok]);
    (destruct (negb ok); [apply keeps_ret, _|]).
  - exact (seal_output_flow psk salt dir peer admitted stop stop_flow src e d Hd).
  - exact (seal_burst_flow psk salt dir peer admitted stop stop_flow src e d Hd).
Qed.

Lemma close_connection_flow src : keeps (fl src) close_connection.
Proof. unfold close_connection. walk. apply stop_flow. Qed.

Lemma forward_tcp_flow src e : keeps (fl src) (forward_tcp_to_kcp e).
Proof. unfold forward_tcp_to_kcp. walk; apply close_connection_flow. Qed.

#[export] Instance session_host_flow : HostFlow psk salt dir peer admitted session.
Proof. split; intros; [apply stop_flow | apply forward_tcp_flow]. Qed.

Lemma receive_flow src e p : vouched psk salt peer admitted p -> keeps (fl src) (on_receive e p).
Proof.
  intros Hp. unfold on_receive. apply keeps_bind; [apply _ | apply keeps_gets, _ | intros run].
  destruct (negb run); [apply keeps_ret, _|].
  apply (open_flow psk salt dir peer admitted src (e_rx_fault e) p (fun plain ec => _) Hp).
  intros plain ec Hplain. walk. via fl_feed_and_drain. apply Hplain. by destruct ec.
Qed.

Lemma inject_flow src e plain : admitted plain -> keeps (fl src) (on_inject_decrypted e plain).
Proof. intros Hp. unfold on_inject_decrypted. walk. by via fl_feed_and_drain. Qed.

Lemma tick_flow src e : keeps (fl src) (on_update_tick e).
Proof.
  unfold on_update_tick, maybe_drained. walk;
    try apply fl_tun;
    first [apply fl_due | apply flow_log | via fl_cycle | apply flow_fulfill | via fl_resume
          | apply flow_keepalive | via fl_retry_fin | apply close_connection_flow].
Qed.

Lemma target_closed_flow src e : keeps (fl src) (handle_target_closed e).
Proof. unfold handle_target_closed, mark_target_closed. walk. via fl_send_fin. Qed.

(** Every call, when the packets it brings are vouched for. *)
Lemma perform_flow src c :
  match c with CReceive _ p => vouched psk salt peer admitted p | CInject _ d => admitted d | _ => True end ->
  keeps (fl src) (perform c).
Proof.
  destruct c; simpl; intros Hc.
  - by apply receive_flow.
  - by apply inject_flow.
  - apply tick_flow.
  - via fl_send_data.
  - via fl_read_some.
  - apply stop_flow.
  - walk.
  - unfold session_handshake_done. walk.
  - via fl_send_fin.
  - apply forward_tcp_flow.
  - apply target_closed_flow.
  - apply close_connection_flow.
  - walk.
Qed.
End ServerFlow.

(** ** The client session *)

Section ClientFlow.
Context {A : Crypto.Aead} {AL : Crypto.AeadLaws A} {K : Kcp} {F : FecCodec}.
Context (psk salt : list Z) (dir peer : Z) (admitted : list Z -> Prop).

Abbreviation fl src := (on_st (St := client_session) (flow psk salt dir peer admitted src)).

Lemma client_own_flow src (f : client_session -> client_session) :
  (forall s, cbase (f s) = cbase s) -> keeps (fl src) (emodify f).
Proof. intros Hf s. unfold on_st, trace, final. simpl. rewrite Hf. apply comp_refl. Qed.

Ltac benign := apply fl_upd, flow_benign; by intros.
Ltac note := by apply (fl_emit (St := client_session)).
Ltac walk := repeat first [keeps_step | apply fl_look | benign | apply client_own_flow; by intros | note].

Lemma request_teardown_flow src : keeps (fl src) request_teardown.
Proof.
  intros s. unfold on_st, trace, final. simpl. destruct (encrypt_teardown s); [apply comp_refl|].
  by apply flow_quiet.
Qed.

#[export] Instance client_output_flow : OutputFlow psk salt dir peer admitted client_session.
Proof.
  split; intros src e d Hd; simpl; unfold client_output, client_output_batch;
    (apply keeps_bind; [apply _ | apply keeps_gets, _ | intros ok]);
    (destruct (negb ok); [apply keeps_ret, _|]).
  - exact (seal_output_flow psk salt dir peer admitted request_teardown request_teardown_flow src e d Hd).
  - exact (seal_burst_flow psk salt dir peer admitted request_teardown request_teardown_flow src e d Hd).
Qed.

Lemma on_close_flow src e : keeps (fl src) (on_close e).
Proof. unfold on_close, close_socket. walk; [via fl_cycle | by apply fl_tun, flow_complete]. Qed.

Lemma forward_client_flow src e : keeps (fl src) (forward_client_to_kcp e).
Proof. unfold forward_client_to_kcp. walk. Qed.

#[export] Instance client_host_flow : HostFlow psk salt dir peer admitted client_session.
Proof.
  split; intros; [apply on_close_flow|]. simpl. unfold resume_local, close_local. walk.
  apply forward_client_flow.
Qed.

Lemma client_receive_flow src e p :
  vouched psk salt peer admitted p -> keeps (fl src) (client_on_receive e p).
Proof.
  intros Hp. unfold client_on_receive. apply keeps_bind; [apply _ | apply keeps_gets, _ | intros run].
  destruct (negb run); [apply keeps_ret, _|]. apply keeps_bind; [apply _ | benign | intros _].
  apply (open_flow psk salt dir peer admitted src (e_rx_fault e) p (fun plain ec => _) Hp).
  intros plain ec Hplain. walk. via fl_feed_and_drain. apply Hplain. by destruct ec.
Qed.

Lemma connect_failed_flow src e : keeps (fl src) (connect_failed e).
Proof. unfold connect_failed, drop_socket, take_completion. walk. apply on_close_flow. Qed.

Lemma on_connect_flow src e setup : keeps (fl src) (on_connect e setup).
Proof.
  unfold on_connect, go_live, start_handshake, send_connect_hello, do_udp_receive. walk;
    first [apply connect_failed_flow | via fl_read_some | apply fl_kcp_send; auto | via fl_cycle].
Qed.

Lemma client_tick_flow src e : keeps (fl src) (client_update_tick e).
Proof.
  unfold client_update_tick. walk; try apply fl_tun;
    first [apply fl_due | apply flow_log | via fl_cycle | apply flow_fulfill | via fl_resume
          | apply flow_keepalive | via fl_retry_fin | apply on_close_flow].
Qed.

Lemma client_perform_flow src c :
  match c with KReceived _ _ p => vouched psk salt peer admitted p | _ => True end ->
  keeps (fl src) (client_perform c).
Proof.
  destruct c; simpl; intros Hc.
  - unfold on_udp_receive, do_udp_receive. walk. by apply client_receive_flow.
  - unfold on_receive_backoff, do_udp_receive. walk.
  - apply client_tick_flow.
  - via fl_send_data.
  - via fl_read_some.
  - unfold on_ack, take_pending. walk; apply on_close_flow.
  - unfold on_connect_timer, take_pending, take_completion. walk. apply on_close_flow.
  - apply on_close_flow.
  - apply on_close_flow.
  - walk.
  - via fl_send_fin.
  - apply forward_client_flow.
  - unfold close_local. walk.
Qed.
End ClientFlow.

(** ** The books of one end since its creation *)

Section Ledger.
Context {A : Crypto.Aead} {AL : Crypto.AeadLaws A} {K : Kcp} {F : FecCodec}.
Context (psk salt : list Z) (dir peer : Z).

(** The codec of a tunnel as [create] makes it. *)
Definition codec_of (fec : FecConfig) (enc : option enc_state) (dec : option dec_state) : Prop :=
  if fec_enabled fec then
    exists x y, fec_new_encoder (data_shards fec) (parity_shards fec) FEC_CRYPTO_RESERVE = Some x /\
      fec_new_decoder (data_shards fec) (parity_shards fec) = Some y /\ enc = Some x /\ dec = Some y
  else enc = None /\ dec = None.

Record ledger (fec : FecConfig) (admitted : list Z -> Prop) (tuning : KcpTuning) (o : obs) (c : code)
    (ev : list event) (t : tunnel) : Prop := {
  lg_inv : end_inv psk salt dir peer t;
  lg_tuning : tuning_legal tuning;
  lg_kcp : khist (KcpWrapper.configure tuning (kcp_new KCP_CONV)) o (KcpWrapper.kcp (t_kcp t));
  lg_sent : sent o = queued ev;
  lg_own : filter (payload salt) (queued ev) = filter (payload salt) (offered ev);
  lg_codec : exists enc dec, codec_of fec enc dec /\
    coding enc (given c) (units c) (fec_encoder t) /\ decodes dec (heard c) (rebuilt c) (fec_decoder t) /\
    forall d, d ∈ fed o -> fed_from admitted dec (fun r => r ∈ rebuilt c) d;
  lg_given d : d ∈ given c -> d ∈ emitted o;
  lg_heard : Forall admitted (heard c);
  lg_batch u : u ∈ out_batch t -> u ∈ units c;
  lg_wire p : p ∈ on_wire ev -> exists u, seals psk salt dir p u /\ u ∈ units c;
  lg_read : overrun ev = false -> delivered ev = filter (payload salt) (received o) }.

Lemma ledger_create admitted e crypto fec t :
  create e KCP_CONV crypto fec = Ret t -> tuning_legal (e_tuning e) ->
  Crypto.keyed psk salt crypto -> length salt = SESSION_SALT_SIZE ->
  Crypto.local_direction crypto = dir -> Crypto.peer_direction crypto = peer ->
  0 <= Crypto.encrypt_counter crypto ->
  ledger fec admitted (e_tuning e) obs_nil code_nil [] t.
Proof.
  unfold create. intros Hc Ht Hk Hl Hd Hp Hn.
  assert (Hcodec : codec_of fec (fec_encoder t) (fec_decoder t) /\ t_crypto t = crypto /\ out_batch t = [] /\
                   t_kcp t = KcpWrapper.create (e_tuning e) KCP_CONV).
  { unfold codec_of. destruct (fec_enabled fec); [|by injection Hc as <-].
    destruct (fec_new_encoder _ _ _) as [x|] eqn:Ex; [|done]. destruct (fec_new_decoder _ _) as [y|] eqn:Ey; [|done].
    injection Hc as <-. split; [|done]. by exists x, y. }
  destruct Hcodec as (Hcd & Hcr & Hb & Hkc).
  split; simpl; rewrite ?Hkc; idle; [by split; rewrite ?Hcr | | by rewrite Hb].
  do 2 eexists. split_and!; [exact Hcd | constructor | constructor | by intros ? ?%elem_of_nil].
Qed.

(** A step of the tunnel extends its books. *)
Lemma ledger_step fec admitted tuning o c ev t ev' t' :
  ledger fec admitted tuning o c ev t -> flow psk salt dir peer admitted no_source t ev' t' ->
  exists o' c', ledger fec admitted tuning (obs_app o o') (code_app c c') (ev ++ ev') t'.
Proof.
  intros [Hi Ht Hk Hs Ho (enc & dec & Hcd & Hc & Hd & Hf) Hg Hh Hb Hw Hr] Hfl.
  destruct (Hfl Hi) as (Hi' & o' & c' & [K1 S1 O1 C1 G1 D1 A1 F1 B1 W1 R1]).
  assert (Hsrc : forall u, u ∈ units c' \/ u ∈ out_batch t \/ no_source Unit u -> u ∈ units (code_app c c')).
  { intros u. simpl. rewrite elem_of_app. intros [?|[?|[]]]; auto. }
  exists o', c'. split; simpl; [done | done | by eapply khist_app | by rewrite Hs, S1, queued_app
    | by rewrite queued_app, offered_app, !filter_app, Ho, O1 | | | by apply Forall_app | | |].
  - exists enc, dec. split_and!; [done | by eapply coding_app | by eapply decodes_app|].
    intros d [Hin|Hin]%elem_of_app; [eapply fed_from_mono; [constructor | | by apply Hf]
      | eapply fed_from_mono; [exact Hd | | by apply F1]]; intros r; rewrite elem_of_app; [by auto|].
    intros [?|[]]. by auto.
  - intros d. rewrite !elem_of_app. intros [Hin|Hin]; [by auto|]. destruct (G1 d Hin) as [?|[]]. by auto.
  - intros d Hin. by apply Hsrc, B1.
  - intros p. rewrite on_wire_app. intros [Hp|Hp]%elem_of_app.
    + destruct (Hw p Hp) as (d & Hseal & He). exists d. rewrite elem_of_app. auto.
    + destruct (W1 p Hp) as (d & Hseal & He). exists d. split; [done | by apply Hsrc].
  - rewrite overrun_app. intros [H1 H2]%orb_false_iff. by rewrite delivered_app, filter_app, Hr, R1.
Qed.

Lemma ledger_run {St : Type} {O : OutputHost St} {X} (m : M St event X) fec admitted tuning o c ev (s : St) :
  ledger fec admitted tuning o c ev (tun s) ->
  keeps (on_st (flow psk salt dir peer admitted no_source)) m ->
  exists o' c', ledger fec admitted tuning (obs_app o o') (code_app c c') (ev ++ trace m s) (tun (final m s)).
Proof. intros HL Hm. exact (ledger_step _ _ _ _ _ _ _ _ _ HL (Hm s)). Qed.

Lemma ledger_mono fec (a1 a2 : list Z -> Prop) tuning o c ev t :
  (forall d, a1 d -> a2 d) -> ledger fec a1 tuning o c ev t -> ledger fec a2 tuning o c ev t.
Proof.
  intros Ha [Hi Ht Hk Hs Ho (enc & dec & Hcd & Hc & Hd & Hf) Hg Hh Hb Hw Hr].
  split; try done; [|by eapply List.Forall_impl]. exists enc, dec. split_and!; try done.
  intros d Hin. specialize (Hf d Hin). destruct dec; [|by apply Ha]. destruct Hf as [(u & ? & ? & ?)|?]; [|by right].
  left. exists u. auto.
Qed.

(** The network delivers a packet that opens under this end's key only if
    this end put its body on the wire. *)
Definition intact (wire : list (list Z)) (p : list Z) : Prop := forall pt,
  Crypto.gcm_open (Crypto.direction_key psk salt dir) (Crypto.pkt_nonce p) (Crypto.pkt_cipher p)
    (Crypto.pkt_tag p) = Some pt ->
  exists q, q ∈ wire /\ Crypto.pkt_body q = Crypto.pkt_body p.

(** So it carries a unit this end put out. *)
Lemma intact_vouched fec admitted tuning o c ev t p :
  ledger fec admitted tuning o c ev t -> intact (on_wire ev) p ->
  vouched psk salt dir (fun u => u ∈ units c) p.
Proof.
  intros HL Hp pt Hopen. pose proof (lg_inv _ _ _ _ _ _ _ HL) as Hi. pose proof (lg_wire _ _ _ _ _ _ _ HL) as Hw. 
  destruct (Hp pt Hopen) as (q & Hq & Hbody). destruct (Hw q Hq) as (d & (n & Hn & ->) & Hd).
  destruct (Crypto.sealed_fields psk salt dir n d (ei_salt _ _ _ _ _ Hi) Hn) as (_ & _ & En & _ & _ & Ec & Et).
  unfold Crypto.pkt_cipher, Crypto.pkt_tag, Crypto.pkt_nonce in *. rewrite <- Hbody in Hopen.
  rewrite En, Ec, Et, Crypto.gcm_open_seal in Hopen. congruence.
Qed.
End Ledger.

(** ** The codec between two ends

    What an end that is given only the other's units feeds to its KCP was put
    out by the other's KCP: with the codec off the units are the datagrams, with
    it on a datagram comes out of a data shard or was rebuilt. *)
Section Repair.
Context {A : Crypto.Aead} {K : Kcp} {M : KcpMtu K} {F : FecCodec} {FL : FecLaws F} {FS : FecSound F}.

Lemma emitted_small tun o k :
  tuning_legal tun -> khist (KcpWrapper.configure tun (kcp_new KCP_CONV)) o k -> forall d, d ∈ emitted o -> small d.
Proof.
  intros Ht Hk d Hd. pose proof (kcp_mtu _ _ _ _ Ht Hk d Hd) as Hm. destruct Ht as (_ & _ & Ht).
  unfold KCP_MTU_MAX in Ht. unfold small. change FEC_CRYPTO_RESERVE with 28%nat. lia.
Qed.

Lemma repaired psk salt dir peer dir' peer' fec adm t1 o1 c1 ev1 x1 t2 o2 c2 ev2 x2 :
  ledger psk salt dir peer fec adm t1 o1 c1 ev1 x1 ->
  ledger psk salt dir' peer' fec (fun u => u ∈ units c1) t2 o2 c2 ev2 x2 ->
  forall d, d ∈ fed o2 -> d ∈ emitted o1.
Proof.
  intros H1 H2 d Hd. apply (lg_given _ _ _ _ _ _ _ _ _ _ _ H1).
  destruct (lg_codec _ _ _ _ _ _ _ _ _ _ _ H1) as (enc1 & dec1 & Hc1 & Hcod & _).
  destruct (lg_codec _ _ _ _ _ _ _ _ _ _ _ H2) as (enc2 & dec2 & Hc2 & _ & Hdec & Hf). specialize (Hf d Hd).
  assert (Hs : Forall small (given c1)).
  { apply list.Forall_forall. intros x Hx. eapply emitted_small; [apply H1 | apply H1|].
    by apply (lg_given _ _ _ _ _ _ _ _ _ _ _ H1). }
  unfold codec_of in *. destruct (fec_enabled fec).
  - destruct Hc1 as (x & y & Ex & Ey & -> & ->), Hc2 as (x' & y' & Ex' & Ey' & -> & ->).
    destruct Hf as [(u & Hu & Hsh & ->)|(r & Hr & Hcar)]; [by eapply data_shard_given|].
    pose proof (lg_heard _ _ _ _ _ _ _ _ _ _ _ H2) as Hh. rewrite list.Forall_forall in Hh.
    by eapply (rebuilds_data _ _ _ _ _ _ _ _ _ _ Ex Ey' Hcod Hs Hdec Hh).
  - destruct Hc1 as [-> ->], Hc2 as [-> ->]. simpl in Hf. by rewrite (coding_off _ _ _ Hcod) in Hf.
Qed.

(** An end that is given nothing feeds nothing. *)
Lemma unfed psk salt dir peer fec (adm : list Z -> Prop) t o c ev x :
  ledger psk salt dir peer fec adm t o c ev x -> (forall u, ~ adm u) -> fed o = [].
Proof.
  intros HL Hn. destruct (lg_codec _ _ _ _ _ _ _ _ _ _ _ HL) as (enc & dec & _ & _ & Hd & Hf).
  assert (Hh : heard c = []).
  { pose proof (lg_heard _ _ _ _ _ _ _ _ _ _ _ HL) as Hh. destruct (heard c) as [|u l]; [done|].
    apply list.Forall_cons in Hh as [Hu _]. by destruct (Hn u). }
  rewrite Hh in Hd. apply decodes_silent in Hd. destruct (fed o) as [|d l]; [done|].
  specialize (Hf d (proj2 (elem_of_cons _ _ _) (or_introl eq_refl))). destruct dec; simpl in Hf; [|by destruct (Hn d)].
  destruct Hf as [(u & Hu & _)|(r & Hr & _)]; [by destruct (Hn u)|]. rewrite Hd in Hr. by apply elem_of_nil in Hr.
Qed.
End Repair.

(** ** The two ends and the network *)

Section World.
Context {A : Crypto.Aead} {AL : Crypto.AeadLaws A} {K : Kcp} {F : FecCodec}.
(** The secret and the salt, and the error correction both ends use. *)
Context (psk salt : list Z) (fec : FecConfig).

(** The client's session; the server's, once it exists; what each has done. *)
Record world := mkWorld {
  w_client : client_session;
  w_cev : list event;
  w_server : option session;
  w_sev : list event }.

Abbreviation from_client := (intact psk salt NONCE_DIR_CLIENT).
Abbreviation from_server := (intact psk salt NONCE_DIR_SERVER).

(** A packet that arrives at the client, or at the server's session. The
    server decrypts the packet that creates a session outside of it, so no
    other plaintext is injected. *)
Definition client_input (w : world) (c : client_call) : Prop :=
  match c with KReceived _ _ p => from_server (on_wire (w_sev w)) p | _ => True end.
Definition server_input (w : world) (c : call) : Prop :=
  match c with CReceive _ p => from_client (on_wire (w_cev w)) p | CInject _ _ => False | _ => True end.

(** The life of a connection: the client makes its session under [salt] and
    connects; the server makes one for a packet with that salt that its
    candidate instance decrypts, and injects the plaintext; calls on either
    end in any order. *)
Inductive linked : world -> Prop :=
| linked_connect f crypto e0 s0 e setup :
    length salt = SESSION_SALT_SIZE ->
    Crypto.Crypto_new f psk NONCE_DIR_CLIENT salt false = Ret crypto ->
    tuning_legal (e_tuning e0) -> new_client e0 KCP_CONV crypto fec = Ret s0 ->
    linked (mkWorld (final (on_connect e setup) s0) (trace (on_connect e setup) s0) None [])
| linked_client w c :
    linked w -> client_input w c ->
    linked (mkWorld (final (client_perform c) (w_client w)) (w_cev w ++ trace (client_perform c) (w_client w))
              (w_server w) (w_sev w))
| linked_accept w f p crypto plain e s :
    linked w -> w_server w = None ->
    Crypto.decrypt_impl f p [] (Crypto.fresh psk NONCE_DIR_SERVER true) = (crypto, plain, ec_none) ->
    Crypto.pkt_salt p = salt -> from_client (on_wire (w_cev w)) p ->
    tuning_legal (e_tuning e) -> new_session e KCP_CONV crypto fec = Ret s ->
    linked (mkWorld (w_client w) (w_cev w)
              (Some (final (on_inject_decrypted e plain) s)) (trace (on_inject_decrypted e plain) s))
| linked_server w s c :
    linked w -> w_server w = Some s -> server_input w c ->
    linked (mkWorld (w_client w) (w_cev w)
              (Some (final (perform c) s)) (w_sev w ++ trace (perform c) s)).

(** The books of both ends, each fed only what the other put out. *)
Definition world_inv (w : world) : Prop := exists tc ts oc os cc cs,
  ledger psk salt NONCE_DIR_CLIENT NONCE_DIR_SERVER fec (fun u => u ∈ units cs) tc oc cc (w_cev w)
    (cbase (w_client w)) /\
  match w_server w with
  | None => os = obs_nil /\ cs = code_nil /\ w_sev w = []
  | Some s => ledger psk salt NONCE_DIR_SERVER NONCE_DIR_CLIENT fec (fun u => u ∈ units cc) ts os cs (w_sev w)
                (base s)
  end.

Lemma grown c c' u : u ∈ units c -> u ∈ units (code_app c c').
Proof. simpl. rewrite elem_of_app. auto. Qed.

Lemma new_keyed f crypto :
  length salt = SESSION_SALT_SIZE -> Crypto.Crypto_new f psk NONCE_DIR_CLIENT salt false = Ret crypto ->
  Crypto.keyed psk salt crypto /\ Crypto.local_direction crypto = NONCE_DIR_CLIENT /\
  Crypto.peer_direction crypto = NONCE_DIR_SERVER /\ 0 <= Crypto.encrypt_counter crypto.
Proof.
  intros Hl. unfold Crypto.Crypto_new. rewrite bool_decide_eq_false_2 by (intros ->; done).
  rewrite Crypto.derive_session_keys_eq. unfold Crypto.commit_session_keys. repeat (case_bool; try done). intros [= <-].
  split_and!; try done. apply be_value_range.
Qed.

Lemma connect_inv f crypto e0 s0 e setup :
  length salt = SESSION_SALT_SIZE -> Crypto.Crypto_new f psk NONCE_DIR_CLIENT salt false = Ret crypto ->
  tuning_legal (e_tuning e0) -> new_client e0 KCP_CONV crypto fec = Ret s0 ->
  world_inv (mkWorld (final (on_connect e setup) s0) (trace (on_connect e setup) s0) None []).
Proof.
  intros Hl Hc Hf Hn. destruct (new_keyed f crypto Hl Hc) as (Hk & Hd & Hp & Hcnt).
  unfold new_client in Hn. destruct (create e0 KCP_CONV crypto fec) as [t|] eqn:Et; [|done].
  pose proof (ledger_create psk salt _ _ (fun u => u ∈ units code_nil) e0 crypto fec t Et Hf Hk Hl Hd Hp Hcnt) as L.
  assert (Hs : tun s0 = t) by (by injection Hn as <-). rewrite <- Hs in L.
  destruct (ledger_run psk salt _ _ (on_connect e setup) _ _ _ _ _ _ _ L) as (o & c & L'); [apply on_connect_flow|].
  by exists (e_tuning e0), default_tuning, (obs_app obs_nil o), obs_nil, (code_app code_nil c), code_nil.
Qed.

(** A stretch of the client's life that is sound for what the server put out. *)
Lemma client_grows w s' ev (arrives : option (list Z)) :
  world_inv w ->
  (forall admitted : list Z -> Prop,
     (forall p, arrives = Some p -> vouched psk salt NONCE_DIR_SERVER admitted p) ->
     flow psk salt NONCE_DIR_CLIENT NONCE_DIR_SERVER admitted no_source (cbase (w_client w)) ev (cbase s')) ->
  (forall p, arrives = Some p -> from_server (on_wire (w_sev w)) p) ->
  world_inv (mkWorld s' (w_cev w ++ ev) (w_server w) (w_sev w)).
Proof.
  intros (tc & ts & oc & os & cc & cs & Hc & Hs) Hfl Hin.
  destruct (ledger_step psk salt _ _ _ _ _ _ _ _ _ ev (cbase s') Hc) as (o & c & Hc').
  { apply Hfl. intros p Hp. specialize (Hin p Hp). destruct (w_server w) as [s|]; [by eapply intact_vouched|].
    destruct Hs as (-> & -> & Hev). rewrite Hev in Hin. intros pt Hpt.
    destruct (Hin pt Hpt) as (q & Hq%elem_of_nil & _). done. }
  exists tc, ts, (obs_app oc o), os, (code_app cc c), cs. split; [done|]. simpl. destruct (w_server w) as [s|]; [|done].
  eapply ledger_mono; [|done]. intros d. apply grown.
Qed.

Lemma client_inv w c :
  world_inv w -> client_input w c ->
  world_inv (mkWorld (final (client_perform c) (w_client w)) (w_cev w ++ trace (client_perform c) (w_client w))
               (w_server w) (w_sev w)).
Proof.
  intros Hw Hin. eapply (client_grows w _ _ match c with KReceived _ _ p => Some p | _ => None end); [done | |].
  - intros admitted Hv. apply client_perform_flow. destruct c; try done. by apply Hv.
  - intros p Hp. destruct c; simplify_eq. exact Hin.
Qed.

(** A session made for a packet of the client, and a first stretch of its life. *)
Lemma accept_grows w f p crypto plain e s s' ev :
  world_inv w -> w_server w = None ->
  Crypto.decrypt_impl f p [] (Crypto.fresh psk NONCE_DIR_SERVER true) = (crypto, plain, ec_none) ->
  Crypto.pkt_salt p = salt -> from_client (on_wire (w_cev w)) p ->
  tuning_legal (e_tuning e) -> new_session e KCP_CONV crypto fec = Ret s ->
  (forall admitted : list Z -> Prop, admitted plain ->
     flow psk salt NONCE_DIR_SERVER NONCE_DIR_CLIENT admitted no_source (base s) ev (base s')) ->
  world_inv (mkWorld (w_client w) (w_cev w) (Some s') ev).
Proof.
  intros (tc & ts & oc & os & cc & cs & Hc & Hs) Hn Hd Hsalt Hin Hf Hnew Hfl. rewrite Hn in Hs.
  destruct Hs as (-> & -> & _).
  pose proof (Crypto.fresh_decrypt_keyed _ _ _ _ _ _ _ Hd) as (Hk & Hdir & Hpeer & Hcnt & Hopen).
  rewrite Hsalt in Hk, Hopen. rewrite Hpeer in Hopen.
  unfold new_session in Hnew. destruct (create e KCP_CONV crypto fec) as [t|] eqn:Et; [|done].
  pose proof (ledger_create psk salt _ _ (fun u => u ∈ units cc) e crypto fec t Et Hf Hk
    (ei_salt _ _ _ _ _ (lg_inv _ _ _ _ _ _ _ _ _ _ _ Hc)) Hdir Hpeer Hcnt) as L.
  assert (Hs : base s = t) by (by injection Hnew as <-). rewrite <- Hs in L.
  destruct (ledger_step psk salt _ _ _ _ _ _ _ _ _ ev (base s') L) as (o & c & L').
  { apply Hfl. by apply (intact_vouched _ _ _ _ _ _ _ _ _ _ _ p Hc Hin). }
  exists tc, (e_tuning e), oc, (obs_app obs_nil o), cc, (code_app code_nil c). split; [|done].
  eapply ledger_mono; [|exact Hc]. simpl. by intros d ?%elem_of_nil.
Qed.

Lemma accept_inv w f p crypto plain e s :
  world_inv w -> w_server w = None ->
  Crypto.decrypt_impl f p [] (Crypto.fresh psk NONCE_DIR_SERVER true) = (crypto, plain, ec_none) ->
  Crypto.pkt_salt p = salt -> from_client (on_wire (w_cev w)) p ->
  tuning_legal (e_tuning e) -> new_session e KCP_CONV crypto fec = Ret s ->
  world_inv (mkWorld (w_client w) (w_cev w)
               (Some (final (on_inject_decrypted e plain) s)) (trace (on_inject_decrypted e plain) s)).
Proof.
  intros. eapply accept_grows; eauto. intros admitted Hp. by apply inject_flow.
Qed.

(** The same for the server. *)
Lemma server_grows w s s' ev (arrives : option (list Z)) :
  world_inv w -> w_server w = Some s ->
  (forall admitted : list Z -> Prop,
     (forall p, arrives = Some p -> vouched psk salt NONCE_DIR_CLIENT admitted p) ->
     flow psk salt NONCE_DIR_SERVER NONCE_DIR_CLIENT admitted no_source (base s) ev (base s')) ->
  (forall p, arrives = Some p -> from_client (on_wire (w_cev w)) p) ->
  world_inv (mkWorld (w_client w) (w_cev w) (Some s') (w_sev w ++ ev)).
Proof.
  intros (tc & ts & oc & os & cc & cs & Hc & Hs) Hn Hfl Hin. rewrite Hn in Hs.
  destruct (ledger_step psk salt _ _ _ _ _ _ _ _ _ ev (base s') Hs) as (o & c & Hs').
  { apply Hfl. intros p Hp. by apply (intact_vouched _ _ _ _ _ _ _ _ _ _ _ p Hc), Hin. }
  exists tc, ts, oc, (obs_app os o), cc, (code_app cs c). split; [|done].
  eapply ledger_mono; [|done]. intros d. apply grown.
Qed.

Lemma server_inv w s c :
  world_inv w -> w_server w = Some s -> server_input w c ->
  world_inv (mkWorld (w_client w) (w_cev w)
               (Some (final (perform c) s)) (w_sev w ++ trace (perform c) s)).
Proof.
  intros Hw Hn Hin. eapply (server_grows w s _ _ match c with CReceive _ p => Some p | _ => None end); [done.. | |].
  - intros admitted Hv. apply perform_flow. destruct c; try done. by apply Hv.
  - intros p Hp. destruct c; simplify_eq. exact Hin.
Qed.

Lemma linked_inv w : linked w -> world_inv w.
Proof.
  induction 1; eauto using connect_inv, client_inv, accept_inv, server_inv.
Qed.

Lemma filter_prefix (P : list Z -> Prop) `{forall x, Decision (P x)} l1 l2 :
  l1 `prefix_of` l2 -> filter P l1 `prefix_of` filter P l2.
Proof. intros [k ->]. rewrite filter_app. by eexists. Qed.

Context {R : KcpReliable K} {KM : KcpMtu K} {FL : FecLaws F} {FS : FecSound F}.

(** What the books say of the two streams. *)
Lemma world_streams (w : world) :
  world_inv w ->
  (overrun (w_sev w) = false ->
     delivered (w_sev w) `prefix_of` filter (payload salt) (queued (w_cev w))) /\
  (overrun (w_cev w) = false ->
     delivered (w_cev w) `prefix_of` filter (payload salt) (queued (w_sev w))).
Proof.
  intros (tc & ts & oc & os & cc & cs & Hc & Hs).
  assert (Hs' : exists ks, khist (KcpWrapper.configure ts (kcp_new KCP_CONV)) os ks /\
    sent os = queued (w_sev w) /\ (forall d, d ∈ fed os -> d ∈ emitted oc) /\
    (forall d, d ∈ fed oc -> d ∈ emitted os) /\
    (overrun (w_sev w) = false -> delivered (w_sev w) = filter (payload salt) (received os))).
  { destruct (w_server w) as [s|].
    - eexists. split_and!; [apply Hs | apply Hs | by eapply repaired | by eapply repaired | apply Hs].
    - destruct Hs as (-> & -> & ->). eexists. split_and!; [constructor | done | by intros ? ?%elem_of_nil | | done].
      rewrite (unfed _ _ _ _ _ _ _ _ _ _ _ Hc); [done|]. by intros u ?%elem_of_nil. }
  destruct Hc as [_ _ Kc Sc _ _ _ _ _ _ Rc].
  destruct Hs' as (ks & Ks & Ss & Fs & Fc & Rs). split; intros Ho.
  - rewrite (Rs Ho), <- Sc. apply filter_prefix, (kcp_reliable _ _ _ _ _ _ _ Kc Ks Fc Fs).
  - rewrite (Rc Ho), <- Ss. apply filter_prefix, (kcp_reliable _ _ _ _ _ _ _ Ks Kc Fs Fc).
Qed.

(** C3: the proxy's tunnel is a pair of reliable byte-exact streams whatever
    the network does. A client session and the server session of its salt are
    connected by a network that loses, repeats, reorders, reflects, modifies
    and invents packets, with the error correction off or on; calls, ticks,
    timers, library faults and closings come in any order at both ends. Then
    at every moment what the readers at one end have been given is a prefix of
    the messages the other end has queued, in order, unchanged and each once,
    the session's own keepalives and FINs aside, in both directions (unless a
    read failed because its buffer was too small for the message, the one case
    in which a message is dropped, and reported). *)
Theorem stream_end_to_end (w : world) :
  linked w ->
  (overrun (w_sev w) = false ->
     delivered (w_sev w) `prefix_of` filter (payload salt) (queued (w_cev w))) /\
  (overrun (w_cev w) = false ->
     delivered (w_cev w) `prefix_of` filter (payload salt) (queued (w_sev w))).
Proof. intros Hw. by apply world_streams, linked_inv. Qed.
End World.

(** ** A concrete connection

    The handshake and one message in each direction, over the toy cipher and
    the go-back-N protocol of [History], with the error correction on. *)
Module LinkExample.
#[local] Existing Instance Crypto.ToyAead.toy.
#[local] Existing Instance Crypto.ToyAead.toy_laws.
#[local] Existing Instance Sequenced.sequenced.
#[local] Existing Instance Sequenced.sequenced_reliable.
#[local] Existing Instance Sequenced.sequenced_mtu.
#[local] Existing Instance Mirror.mirror.
#[local] Existing Instance Mirror.mirror_laws.
#[local] Existing Instance Mirror.mirror_sound.

Definition psk : list Z := Crypto.ToyAead.psk.
Definition salt : list Z := Crypto.ToyAead.salt.

(** Every datagram leaves as a data shard and a parity shard. *)
Definition paired : FecConfig := {| data_shards := 1; parity_shards := 1 |}.

Definition at_sec (sec : Z) : tenv :=
  mkTenv (sec * 1000000000) (fun _ => Crypto.no_fault) Crypto.no_fault None None default_tuning [].

Definition crypto0 : Crypto.t :=
  match Crypto.Crypto_new Crypto.no_fault psk NONCE_DIR_CLIENT salt false with
  | Ret c => c
  | Throw _ => Crypto.fresh [] 0 false
  end.
Definition tunnel0 (c : Crypto.t) (sec : Z) : tunnel :=
  match create (at_sec sec) KCP_CONV c paired with
  | Ret t => t
  | Throw _ => mkTunnel c (KcpWrapper.create default_tuning KCP_CONV) 0 [] 0 None None []
      (fun _ => 0) false false false false false false 0 0 0 None None None [] true
  end.
Definition client0 : client_session :=
  mkClient (tunnel0 crypto0 1) false false false false None (now_us (at_sec 1)) false false false false true.

Definition client_does (c : client_call) (w : world) : world :=
  mkWorld (final (client_perform c) (w_client w)) (w_cev w ++ trace (client_perform c) (w_client w))
    (w_server w) (w_sev w).
Definition server_does (c : call) (w : world) : world :=
  match w_server w with
  | None => w
  | Some s => mkWorld (w_client w) (w_cev w) (Some (final (perform c) s)) (w_sev w ++ trace (perform c) s)
  end.

Definition w0 : world :=
  mkWorld (final (on_connect (at_sec 1) SocketReady) client0)
    (trace (on_connect (at_sec 1) SocketReady) client0) None [].

(** The first packet, the candidate instance that decrypts it, the session. *)
Definition hello_packet : list Z := on_wire (w_cev w0) !!! 0%nat.
Definition candidate : Crypto.t * list Z * error_code :=
  Crypto.decrypt_impl Crypto.no_fault hello_packet [] (Crypto.fresh psk NONCE_DIR_SERVER true).
Definition session0 : session :=
  flag_on RUNNING (mkSession (tunnel0 candidate.1.1 2) 0 true false false true false false).
Definition w1 : world :=
  mkWorld (w_client w0) (w_cev w0) (Some (final (on_inject_decrypted (at_sec 2) candidate.1.2) session0))
    (trace (on_inject_decrypted (at_sec 2) candidate.1.2) session0).

(** The server reads the HELLO and answers; the client takes the answer and
    sends; the network repeats the first packet, and of the answer and of the
    data it delivers only the parity. *)
Definition w2 : world :=
  server_does (CSend (at_sec 3) KCP_CONTROL_HELLO_ACK_V2) (server_does (CRead 100 50) w1).
Definition ack_packet : list Z := on_wire (w_sev w2) !!! 1%nat.
Definition w3 : world :=
  client_does (KSend (at_sec 5) [1; 2; 3])
    (client_does (KAck (at_sec 4) ec_none KCP_CONTROL_HELLO_ACK_V2)
       (client_does (KReceived (at_sec 4) ec_none ack_packet) w2)).
Definition data_packet : list Z := on_wire (w_cev w3) !!! 5%nat.
Definition w4 : world :=
  server_does (CRead 100 51)
    (server_does (CReceive (at_sec 6) data_packet)
       (server_does (CReceive (at_sec 6) hello_packet) w3)).

(** A packet of the wire is what it is. *)
Lemma genuine dir wire p : bool_decide (p ∈ wire) = true -> intact psk salt dir wire p.
Proof. intros Hp%bool_decide_eq_true pt _. by exists p. Qed.

Lemma client_step w c :
  linked psk salt paired w -> client_input psk salt w c -> linked psk salt paired (client_does c w).
Proof. apply linked_client. Qed.

Lemma server_step w c :
  linked psk salt paired w -> server_input psk salt w c -> linked psk salt paired (server_does c w).
Proof.
  intros Hw Hc. unfold server_does. destruct (w_server w) as [s|] eqn:E; [|done].
  by apply linked_server.
Qed.

Lemma linked_w4 : linked psk salt paired w4.
Proof.
  assert (H0 : linked psk salt paired w0).
  { apply (linked_connect psk salt paired Crypto.no_fault crypto0 (at_sec 1) client0 (at_sec 1) SocketReady);
      [by vm_compute | by vm_compute | exact default_tuning_legal
      | vm_cast_no_check (@eq_refl (exn_result client_session) (Ret client0))]. }
  assert (H1 : linked psk salt paired w1).
  { apply (linked_accept psk salt paired w0 Crypto.no_fault hello_packet candidate.1.1 candidate.1.2 (at_sec 2)
      session0 H0);
      [reflexivity | vm_cast_no_check (eq_refl candidate) | by vm_compute | apply genuine; by vm_compute
      | exact default_tuning_legal | vm_cast_no_check (@eq_refl (exn_result session) (Ret session0))]. }
  assert (H2 : linked psk salt paired w2) by (apply server_step; [apply server_step; [exact H1 | exact I] | exact I]).
  assert (H3 : linked psk salt paired w3).
  { apply client_step; [apply client_step; [apply client_step; [exact H2|] | exact I] | exact I].
    apply genuine. by vm_compute. }
  apply server_step; [apply server_step; [apply server_step; [exact H3|]|] | exact I];
    apply genuine; by vm_compute.
Qed.

Lemma stream_end_to_end_witness :
  delivered (w_sev w4) = [KCP_CONTROL_HELLO_V2; [1; 2; 3]] /\
  delivered (w_cev w4) = [KCP_CONTROL_HELLO_ACK_V2] /\
  delivered (w_sev w4) `prefix_of` filter (payload salt) (queued (w_cev w4)) /\
  delivered (w_cev w4) `prefix_of` filter (payload salt) (queued (w_sev w4)).
Proof.
  destruct (stream_end_to_end psk salt paired w4 linked_w4) as [H1 H2].
  split_and!; [by vm_compute | by vm_compute | apply H1; by vm_compute | apply H2; by vm_compute].
Defined.
End LinkExample.
