(* ===== verification/Widths.v ===== *)
(** * Widths: the members of a session keep the values of their C++ types

    The model's integers are unbounded; the members they stand for are not.
    Between any two calls every counter of a session is a [uint64_t], the
    replay window fits its bitset, the state flags of the server session are
    a [uint8_t] with only the declared bits, and the output batch that
    [flush_cycle] opens has been closed again with nothing left in it. *)

From Stdlib Require Import ZArith Lia.
From stdpp Require Import base list strings.
From S2P Require Import Prelude Config Effects Kcp Tunnel TunnelProofs Session ClientSession.
From S2P Require Crypto.

(** ** The cipher object *)

Record crypto_wf (c : Crypto.t) : Prop := {
  cw_counter : 0 <= Crypto.encrypt_counter c < 2 ^ 64;
  cw_highest : 0 <= Crypto.highest_received c < 2 ^ 64;
  cw_window : 0 <= Crypto.replay_window c < 2 ^ REPLAY_WINDOW_BITS }.

(** A bit inside the window keeps it a 2048-bit value. *)
Lemma setbit_bound w i n : 0 <= w < 2 ^ n -> 0 <= i < n -> 0 <= Z.setbit w i < 2 ^ n.
Proof.
  intros Hw Hi. rewrite Z.setbit_spec'. split; [apply Z.lor_nonneg; split; [lia | apply Z.pow_nonneg; lia]|].
  apply Z.log2_lt_cancel. rewrite Z.log2_lor, Z.log2_pow2, Z.log2_pow2 by (try apply Z.pow_nonneg; lia).
  apply Z.max_lub_lt; [|lia]. destruct (Z.eq_dec w 0) as [->|Hne]; [simpl; lia|]. apply Z.log2_lt_pow2; lia.
Qed.

Lemma window_shift_bound w k : 0 <= Crypto.window_shift w k < 2 ^ REPLAY_WINDOW_BITS.
Proof.
  unfold Crypto.window_shift. rewrite Z.land_ones by (unfold REPLAY_WINDOW_BITS; lia).
  apply Z.mod_pos_bound. unfold REPLAY_WINDOW_BITS. lia.
Qed.

Lemma commit_wf n c : 0 <= n < 2 ^ 64 -> crypto_wf c -> crypto_wf (Crypto.commit_replay_window n c).
Proof.
  intros Hn [H1 H2 H3]. unfold Crypto.commit_replay_window.
  assert (Hz : 0 <= 0 < 2 ^ REPLAY_WINDOW_BITS) by (unfold REPLAY_WINDOW_BITS; lia).
  destruct (Crypto.any_received c); simpl; [|by split].
  destruct (Z.ltb_spec (Crypto.highest_received c) n).
  - rewrite u64_small by lia. destruct (Z.ltb_spec REPLAY_WINDOW_BITS (n - Crypto.highest_received c)); [by split|].
    split; try done. apply setbit_bound; [apply window_shift_bound | lia].
  - destruct (Z.ltb_spec n (Crypto.highest_received c)); [|by split]. rewrite u64_small by lia.
    destruct (Z.leb_spec (Crypto.highest_received c - n) REPLAY_WINDOW_BITS); [|by split].
    split; try done. apply setbit_bound; [done | lia].
Qed.

Lemma zero_wf : 0 <= 0 < 2 ^ 64 /\ 0 <= 0 < 2 ^ REPLAY_WINDOW_BITS.
Proof. unfold REPLAY_WINDOW_BITS. lia. Qed.

Lemma forget_wf c : crypto_wf (Crypto.forget_learned_salt c).
Proof. destruct zero_wf. by split. Qed.

Section Cipher.
Context {A : Crypto.Aead}.

Lemma encrypt_wf f pt out c : crypto_wf c -> crypto_wf (Crypto.encrypt_impl f pt out c).1.1.
Proof.
  intros [H1 H2 H3]. unfold Crypto.encrypt_impl. destruct (Crypto.salt_set c); simpl; [|by split].
  assert (crypto_wf (Crypto.set_counter (u64 (Crypto.encrypt_counter c + 1)) c)).
  { split; try done. simpl. unfold u64. apply Z.mod_pos_bound. lia. }
  case_bool; [done|]. destruct f; try done; by destruct (Crypto.gcm_seal _ _ pt).
Qed.

Lemma derive_wf f salt c : crypto_wf c -> crypto_wf (Crypto.derive_session_keys f salt c).1.
Proof.
  intros [H1 H2 H3]. rewrite Crypto.derive_session_keys_eq. unfold Crypto.commit_session_keys. pose proof (be_value_range (take 6 salt)).
  repeat case_bool; by split.
Qed.

Lemma decrypt_body_wf f learning p out c :
  crypto_wf c -> crypto_wf (Crypto.decrypt_body f learning p out c).1.1.
Proof.
  intros Hc. unfold Crypto.decrypt_body. pose proof (forget_wf c).
  pose proof (commit_wf _ _ (Crypto.pkt_counter_range p) Hc).
  repeat case_bool; try done; destruct f; try done; destruct (Crypto.gcm_open _ _ _ _); done.
Qed.

Lemma decrypt_wf f p out c : crypto_wf c -> crypto_wf (Crypto.decrypt_impl f p out c).1.1.
Proof.
  intros Hc. unfold Crypto.decrypt_impl. case_bool; [done|].
  destruct (negb (Crypto.salt_set c)).
  - pose proof (derive_wf f (Crypto.pkt_salt p) c Hc).
    destruct (Crypto.derive_session_keys _ _ c) as [c' [w|]]; [apply forget_wf | by apply decrypt_body_wf].
  - destruct (Crypto.matches_salt p c); [by apply decrypt_body_wf | done].
Qed.

Lemma fresh_wf psk dir server : crypto_wf (Crypto.fresh psk dir server).
Proof. destruct zero_wf. by split. Qed.
End Cipher.

(** ** The tunnel *)

Section Tunnel.
Context {A : Crypto.Aead} {K : Kcp} {F : FecCodec}.

Record wf (t : tunnel) : Prop := {
  wf_metrics m : 0 <= metrics t m < 2 ^ 64;
  wf_crypto : crypto_wf (t_crypto t);
  wf_depth : 0 <= batch_depth t }.

(** A stretch of code: the types are kept, the batch is as open as it was,
    and a closed, empty batch stays empty. *)
Definition widths (t : tunnel) (_ : list event) (t' : tunnel) : Prop :=
  wf t -> wf t' /\ batch_depth t' = batch_depth t /\
          (batch_depth t = 0 -> out_batch t = [] -> out_batch t' = []).

#[export] Instance widths_comp : Compositional widths.
Proof.
  split; [by intros t Ht|]. intros t t1 t2 e1 e2 H1 H2 Ht.
  destruct (H1 Ht) as (Ht1 & Hd1 & Hb1). destruct (H2 Ht1) as (Ht2 & Hd2 & Hb2).
  split_and!; [done | congruence|]. intros Hd Hb. apply Hb2; [congruence | by apply Hb1].
Qed.

Lemma bump_wf m n t : wf t -> wf (bump m n t).
Proof.
  intros [H1 H2 H3]. split; try done. intros x. unfold bump. simpl. unfold metric_add.
  case_bool_decide; [unfold u64; apply Z.mod_pos_bound; lia | apply H1].
Qed.

(** An update of members the types say nothing about, after counters. *)
Lemma widths_update (f : tunnel -> tunnel) :
  (forall t, wf t -> wf (f t)) ->
  (forall t, batch_depth (f t) = batch_depth t /\ out_batch (f t) = out_batch t) ->
  forall t ev, widths t ev (f t).
Proof.
  intros Hf Hb t ev Ht. destruct (Hb t) as [-> ->]. auto.
Qed.

Lemma wf_same (f : tunnel -> tunnel) :
  (forall t, metrics (f t) = metrics t /\ t_crypto (f t) = t_crypto t /\ batch_depth (f t) = batch_depth t) ->
  forall t, wf t -> wf (f t).
Proof. intros Hf t [H1 H2 H3]. destruct (Hf t) as (E1 & E2 & E3). split; by rewrite ?E1, ?E2, ?E3. Qed.

Lemma widths_modify (f : tunnel -> tunnel) :
  (forall t, wf t -> wf (f t)) ->
  (forall t, batch_depth (f t) = batch_depth t /\ out_batch (f t) = out_batch t) ->
  keeps widths (emodify f).
Proof. intros Hf Hb. apply keeps_modify. intros t. by apply widths_update. Qed.
End Tunnel.

(** Solve the conditions on an update: counters are added to, the other
    members are outside. *)
Ltac width_upd :=
  [> first [ apply wf_same; by intros
        | intros ? ?; unfold count_tx; repeat apply bump_wf; assumption ]
   | by intros ].

Section Own.
Context {A : Crypto.Aead} {K : Kcp} {F : FecCodec}.

Lemma complete_widths ec : keeps widths (complete_pending_read ec).
Proof.
  intros t. unfold trace, final, complete_pending_read. destruct (pending_read_handler t); [|apply comp_refl].
  simpl. apply (widths_update (fun t => set_pending_read_handler None (set_pending_read_buffer None t)));
    [apply wf_same|]; by intros.
Qed.

Lemma deliver_widths d : keeps widths (deliver d).
Proof.
  intros t. unfold trace, final, deliver. destruct (pending_read_handler t); [|apply comp_refl].
  simpl. apply (widths_update (fun t => set_pending_read_handler None (set_pending_read_buffer None t)));
    [apply wf_same|]; by intros.
Qed.

Lemma kcp_widths w ev t : widths t ev (set_kcp w t).
Proof. apply (widths_update (set_kcp w)); [apply wf_same|]; by intros. Qed.

Lemma send_widths from d : keeps widths (kcp_send from d).
Proof.
  intros t. unfold trace, final, kcp_send. destruct (KcpWrapper.send d (t_kcp t)). apply kcp_widths.
Qed.

Lemma loop_widths fuel cap : keeps widths (fulfill_loop fuel cap).
Proof.
  induction fuel as [|fuel IH]; cbn [fulfill_loop]; keeps_walk; auto using complete_widths, deliver_widths.
  - intros t. unfold trace, final, recv_fixed. destruct (KcpWrapper.recv_fixed _ _) as [[w sz] b]. apply kcp_widths.
  - intros t. apply kcp_widths.
  - apply widths_modify; width_upd.
Qed.

Lemma fulfill_widths : keeps widths try_fulfill_read.
Proof. apply keeps_fulfill; [apply _ | apply loop_widths]. Qed.

Lemma log_widths e : keeps widths (maybe_log_stats e).
Proof.
  intros t. unfold trace, final, maybe_log_stats. case_bool; [|apply comp_refl].
  apply (widths_update (set_last_stats_us (now_us e))); [apply wf_same|]; by intros.
Qed.

Lemma keepalive_widths e : keeps widths (maybe_send_keepalive e).
Proof.
  unfold maybe_send_keepalive. keeps_walk; [apply send_widths|]. apply widths_modify; width_upd.
Qed.
End Own.

(** ** Against the interface of the concrete sessions *)

Class OutputWidths {A : Crypto.Aead} {K : Kcp} {F : FecCodec} (St : Type) {O : OutputHost St} : Prop := {
  ow_output e d : keeps (on_st widths) (handle_kcp_output e d);
  ow_batch e ds : keeps (on_st widths) (handle_kcp_output_batch e ds) }.

Class HostWidths {A : Crypto.Aead} {K : Kcp} {F : FecCodec} (St : Type) {O : OutputHost St}
    {H : Host St} : Prop := {
  hw_shut e : keeps (on_st widths) (shut_down e);
  hw_resume e hook : keeps (on_st widths) (run_resume e hook) }.

Section HostWidths.
Context {A : Crypto.Aead} {K : Kcp} {F : FecCodec} {St : Type} {O : OutputHost St} {SO : SubObject St}.
Context {OW : OutputWidths St}.

Lemma tun_widths {X} (m : M tunnel event X) : keeps widths m -> keeps (on_st widths) (on_tun m).
Proof. intros Hm s. unfold on_st, trace, final. rewrite on_tun_run. simpl. rewrite tun_set. apply Hm. Qed.

Lemma upd_widths f :
  (forall t, wf t -> wf (f t)) ->
  (forall t, batch_depth (f t) = batch_depth t /\ out_batch (f t) = out_batch t) ->
  keeps (on_st widths) (upd f).
Proof. intros Hf Hb. by apply tun_widths, widths_modify. Qed.

Lemma look_widths {X} (f : tunnel -> X) : keeps (on_st (St := St) widths) (look f).
Proof. apply keeps_gets, _. Qed.

Ltac walk := repeat first [keeps_step | apply look_widths | apply upd_widths; width_upd].

(** A datagram joins an open batch or leaves. *)
Lemma emit_output_widths e d : keeps (on_st widths) (emit_output e d).
Proof.
  intros s. unfold emit_output, trace, final. rewrite look_bind.
  destruct (Z.eqb_spec (batch_depth (tun s)) 0) as [Hd|Hd]; [apply ow_output|].
  rewrite upd_run. unfold on_st. simpl. rewrite tun_set. intros [H1 H2 H3]. by split_and!.
Qed.

Lemma datagram_widths e rto d : keeps (on_st widths) (on_kcp_datagram e rto d).
Proof. unfold on_kcp_datagram. walk; apply emit_output_widths. Qed.

Lemma outputs_widths e outs : keeps (on_st widths) (deliver_outputs e outs).
Proof. unfold deliver_outputs. walk. apply datagram_widths. Qed.

Lemma input_widths e d : keeps (on_st widths) (kcp_input e d).
Proof. unfold kcp_input. walk. apply outputs_widths. Qed.

Lemma update_widths e ms : keeps (on_st widths) (kcp_update e ms).
Proof. unfold kcp_update. walk. apply outputs_widths. Qed.

Lemma flush_widths e : keeps (on_st widths) (kcp_flush e).
Proof. unfold kcp_flush. walk. apply outputs_widths. Qed.

Lemma rto_widths e t : widths t [] (apply_rto_floor e t).
Proof.
  apply (widths_update (apply_rto_floor e)); [apply wf_same|]; intros t'; unfold apply_rto_floor;
    destruct (e_rto_gate e); try done; by case_bool.
Qed.

Lemma final_upd f (s : St) : final (upd f) s = set_tun (f (tun s)) s.
Proof. unfold final. by rewrite upd_run. Qed.

(** Closing a batch that was opened at depth [d]. *)
Lemma close_widths e s d :
  wf (tun s) -> batch_depth (tun s) = d + 1 -> 0 <= d ->
  let s' := final (end_output_batch e) s in
  wf (tun s') /\ batch_depth (tun s') = d /\ (d = 0 -> out_batch (tun s') = []).
Proof.
  intros Hs Hd Hpos. unfold end_output_batch. rewrite final_bind, final_upd, Hd, (proj2 (Z.ltb_lt 0 (d + 1))) by lia.
  set (s4 := set_tun _ s).
  assert (H4 : wf (tun s4) /\ batch_depth (tun s4) = d).
  { unfold s4. rewrite tun_set. simpl. split; [|lia]. destruct Hs. split; simpl; [done | done | lia]. }
  unfold look. rewrite final_gets. unfold id. destruct H4 as [H4 Hd4]. rewrite Hd4.
  destruct (Z.ltb_spec 0 d) as [Hlt|Hge]; [split_and!; [done | done | lia]|].
  case_bool_decide as Hb; [by split_and!|]. cbn [orb]. rewrite final_bind, final_upd. set (s5 := set_tun _ s4).
  assert (H5 : wf (tun s5) /\ batch_depth (tun s5) = d /\ out_batch (tun s5) = []).
  { unfold s5. rewrite tun_set. simpl. split_and!; [by destruct H4 | done | done]. }
  destruct H5 as (H5 & Hd5 & Hb5). destruct (ow_batch e (out_batch (tun s4)) s5 H5) as (H6 & Hd6 & Hb6).
  split_and!; [done | congruence|]. intros H0. apply Hb6; [lia | done].
Qed.

(** The cycle opens the batch, keeps it open while KCP puts out, and closes
    it: what was gathered leaves, so nothing stays behind. *)
Lemma cycle_widths e ms : keeps (on_st widths) (flush_cycle e ms).
Proof.
  unfold flush_cycle. apply keeps_bind; [apply _ | by apply tun_widths, keeps_modify, rto_widths | intros _].
  intros s Hs. unfold begin_output_batch. rewrite !final_bind, final_upd.
  set (s1 := set_tun _ s). set (d := batch_depth (tun s)).
  assert (H1 : wf (tun s1)) by (unfold s1; rewrite tun_set; destruct Hs; split; simpl; [done | done | lia]).
  assert (Hd1 : batch_depth (tun s1) = d + 1) by (unfold s1; by rewrite tun_set).
  destruct (update_widths e ms s1 H1) as (H2 & Hd2 & _).
  destruct (flush_widths e _ H2) as (H3 & Hd3 & _).
  set (s3 := final (kcp_flush e) _) in *. clearbody s3.
  destruct (close_widths e s3 d) as (H4 & Hd4 & Hb4); [done | congruence | apply (wf_depth _ Hs)|].
  split_and!; [done | done|]. intros Hd0 _. by apply Hb4.
Qed.

Lemma feed_decoder_widths e d : keeps (on_st widths) (feed_decoder e d).
Proof. unfold feed_decoder, feed_rebuilt. walk. apply input_widths. Qed.

Lemma feed_widths e d : keeps (on_st widths) (feed_kcp_input e d).
Proof. unfold feed_kcp_input. walk; auto using input_widths, feed_decoder_widths. Qed.

Lemma due_widths : keeps (on_st (St := St) widths) flush_due.
Proof. unfold flush_due. walk. Qed.

Context {H : Host St}.

Lemma do_send_fin_widths e : keeps (on_st widths) (do_send_fin e).
Proof. unfold do_send_fin. walk; [apply tun_widths, send_widths | apply cycle_widths]. Qed.

Lemma send_fin_widths e : keeps (on_st widths) (send_fin e).
Proof. unfold send_fin. walk. apply do_send_fin_widths. Qed.

Lemma retry_fin_widths e : keeps (on_st widths) (retry_pending_fin e).
Proof. unfold retry_pending_fin. walk; apply do_send_fin_widths. Qed.

Lemma emit_widths ev : keeps (on_st (St := St) widths) (emit ev).
Proof. intros s Hs. by split_and!. Qed.

Lemma read_some_widths cap h : keeps (on_st widths) (on_async_read_some cap h).
Proof. unfold on_async_read_some. walk; [apply emit_widths.. | apply tun_widths, fulfill_widths]. Qed.

Context {HW : HostWidths St}.

Lemma resume_widths e : keeps (on_st widths) (maybe_resume_write e).
Proof. unfold maybe_resume_write. walk. apply hw_resume. Qed.

Lemma send_data_widths e d : keeps (on_st widths) (send_data e d).
Proof.
  unfold send_data, on_send. walk; [apply tun_widths, send_widths | apply hw_shut | apply cycle_widths].
Qed.

Lemma feed_and_drain_widths e d : keeps (on_st widths) (feed_and_drain e d).
Proof.
  unfold feed_and_drain. walk;
    [apply feed_widths | apply emit_widths | apply tun_widths, fulfill_widths | apply resume_widths].
Qed.

(** Encryption and decryption replace the cipher object by a typed one. *)
Lemma cipher_widths {X} (c : Crypto.t) (g : tunnel -> tunnel) (k : M St event X) (s : St) :
  (crypto_wf (t_crypto (tun s)) -> crypto_wf c) ->
  (forall t, metrics (g t) = metrics t /\ t_crypto (g t) = t_crypto t /\
             batch_depth (g t) = batch_depth t /\ out_batch (g t) = out_batch t) ->
  keeps (on_st widths) k ->
  on_st widths s (trace (upd (fun t => g (set_crypto c t)) ;;; k) s)
    (final (upd (fun t => g (set_crypto c t)) ;;; k) s).
Proof.
  intros Hc Hg Hk. rewrite trace_bind, final_bind. eapply (comp_trans (R := on_st widths)); [|apply Hk].
  rewrite final_upd. unfold on_st. rewrite tun_set. intros [H1 H2 H3].
  destruct (Hg (set_crypto c (tun s))) as (E1 & E2 & E3 & E4). rewrite E3, E4.
  split_and!; try done. split; rewrite ?E1, ?E2, ?E3; simpl; auto.
Qed.
End HostWidths.

Tactic Notation "widths_by" uconstr(l) := apply l; try apply _.

(** ** The server session *)

Section Server.
Context {A : Crypto.Aead} {K : Kcp} {F : FecCodec}.

Abbreviation ok := (keeps (on_st (St := session) widths)).

Lemma own_widths (f : session -> session) : (forall s, base (f s) = base s) -> ok (emodify f).
Proof. intros Hf s. unfold on_st, trace, final. simpl. rewrite Hf. apply comp_refl. Qed.

Lemma base_widths {X} (m : M tunnel event X) : keeps widths m -> ok (with_base m).
Proof. exact (tun_widths (St := session) m). Qed.

Ltac walk := repeat first [keeps_step | apply look_widths | apply upd_widths; width_upd
  | apply base_widths, widths_modify; width_upd | apply own_widths; by intros
  | apply (emit_widths (St := session))].

Lemma stop_widths : ok stop.
Proof. unfold stop. walk. apply base_widths, complete_widths. Qed.

Lemma encrypt_widths e d : ok (encrypt_for_wire e d).
Proof.
  intros s. unfold encrypt_for_wire. rewrite trace_gets, final_gets. set (f := e_fault e _).
  pose proof (encrypt_wf f d [] (t_crypto (base s))) as Hc.
  destruct (Crypto.encrypt_impl f d [] (t_crypto (base s))) as [[c out] ec].
  change (with_base (emodify (set_crypto c))) with (upd (St := session) (fun t => (fun t => t) (set_crypto c t))).
  refine (cipher_widths (St := session) c (fun t => t) _ s Hc _ _); [by intros |].
  walk. apply stop_widths.
Qed.

Lemma encrypt_batch_widths e ds : forall acc, ok (encrypt_batch e ds acc).
Proof. induction ds as [|d ds IH]; intros acc; cbn [encrypt_batch]; walk; auto using encrypt_widths. Qed.

#[export] Instance session_output_widths : OutputWidths session.
Proof.
  split; intros; simpl; unfold session_output, session_output_batch; walk;
    auto using encrypt_widths, encrypt_batch_widths.
Qed.

Lemma close_connection_widths : ok close_connection.
Proof. unfold close_connection. walk. apply stop_widths. Qed.

Lemma forward_tcp_widths e : ok (forward_tcp_to_kcp e).
Proof. unfold forward_tcp_to_kcp. walk; apply close_connection_widths. Qed.

#[export] Instance session_host_widths : HostWidths session.
Proof. split; intros; [apply stop_widths | apply forward_tcp_widths]. Qed.

Lemma receive_widths e p : ok (on_receive e p).
Proof.
  unfold on_receive. apply keeps_bind; [apply _ | apply keeps_gets, _ | intros run].
  destruct (negb run); [apply keeps_ret, _|]. intros s. unfold look. rewrite trace_gets, final_gets. unfold id.
  pose proof (decrypt_wf (e_rx_fault e) p (decrypt_buf (tun s)) (t_crypto (tun s))) as Hc.
  destruct (Crypto.decrypt_impl _ p _ _) as [[c plain] ec].
  refine (cipher_widths (St := session) c (set_decrypt_buf plain) _ s Hc _ _); [by intros |].
  walk. widths_by feed_and_drain_widths.
Qed.

Lemma tick_widths e : ok (on_update_tick e).
Proof.
  unfold on_update_tick, maybe_drained. walk; try apply tun_widths;
    first [widths_by due_widths | apply log_widths | widths_by cycle_widths | apply fulfill_widths
          | widths_by resume_widths | apply keepalive_widths | widths_by retry_fin_widths
          | apply close_connection_widths].
Qed.

Lemma perform_widths c : ok (perform c).
Proof.
  destruct c; simpl.
  - apply receive_widths.
  - unfold on_inject_decrypted. walk. widths_by feed_and_drain_widths.
  - apply tick_widths.
  - widths_by send_data_widths.
  - widths_by read_some_widths.
  - apply stop_widths.
  - walk.
  - unfold session_handshake_done. walk.
  - widths_by send_fin_widths.
  - apply forward_tcp_widths.
  - unfold handle_target_closed, mark_target_closed. walk. widths_by send_fin_widths.
  - apply close_connection_widths.
  - walk.
Qed.

(** The flags: [RUNNING], [PROTOCOL_HS_DONE], the three pending bits. *)
Definition DECLARED : Z :=
  Z.lor RUNNING (Z.lor PROTOCOL_HS_DONE (Z.lor SOCKS5_READ_PENDING (Z.lor FORWARD_READ_PENDING CONNECT_PENDING))).

Definition flags_ok (s : session) : Prop := Z.ldiff (state_flags s) DECLARED = 0.

Definition flags_kept (s : session) (_ : list event) (s' : session) : Prop := flags_ok s -> flags_ok s'.

#[export] Instance flags_comp : Compositional flags_kept.
Proof. split; unfold flags_kept; auto. Qed.

#[export] Instance flags_base : BaseFrame (St := session) flags_kept.
Proof. split; [apply _|]. intros t s ev _ Hs. exact Hs. Qed.

Lemma flags_own (f : session -> session) :
  (forall s, flags_ok s -> flags_ok (f s)) -> keeps flags_kept (emodify f).
Proof. intros Hf s Hs. apply Hf, Hs. Qed.

Lemma flag_on_ok f s : Z.ldiff f DECLARED = 0 -> flags_ok s -> flags_ok (flag_on f s).
Proof.
  unfold flags_ok, flag_on. simpl. intros Hf Hs. apply Z.bits_inj'. intros n Hn.
  apply (f_equal (fun z => Z.testbit z n)) in Hf, Hs. rewrite Z.ldiff_spec in *.
  rewrite Z.lor_spec, andb_orb_distrib_l, Hf, Hs. by rewrite Z.bits_0.
Qed.

Lemma flag_off_ok f s : flags_ok s -> flags_ok (flag_off f s).
Proof.
  unfold flags_ok, flag_off. simpl. intros Hs. apply Z.bits_inj'. intros n Hn.
  apply (f_equal (fun z => Z.testbit z n)) in Hs. rewrite Z.ldiff_spec in *. rewrite Z.land_spec.
  by rewrite <- andb_assoc, (andb_comm (Z.testbit _ n) (negb _)), andb_assoc, Hs, Z.bits_0.
Qed.

Ltac fwalk := repeat first
  [ keeps_step | apply frame_look; apply _ | apply frame_upd; apply _
  | apply flags_own; intros ? ?; first [assumption | by apply flag_on_ok | by apply flag_off_ok]
  | by intros ? ? ].

Lemma with_base_flags {X} (m : M tunnel event X) : keeps (emits base_event) m -> keeps flags_kept (with_base m).
Proof. exact (frame_tun (St := session) flags_kept m). Qed.

Lemma emit_flags ev : keeps flags_kept (emit ev).
Proof. by intros s Hs. Qed.

Lemma stop_flags : keeps flags_kept stop.
Proof. unfold stop. fwalk. by apply with_base_flags, emits_complete. Qed.

Lemma encrypt_flags e d : keeps flags_kept (encrypt_for_wire e d).
Proof. unfold encrypt_for_wire. fwalk. apply stop_flags. Qed.

Lemma encrypt_batch_flags e ds : forall acc, keeps flags_kept (encrypt_batch e ds acc).
Proof. induction ds as [|d ds IH]; intros acc; cbn [encrypt_batch]; fwalk; auto using encrypt_flags. Qed.

#[export] Instance flags_output : OutputFrame (St := session) flags_kept.
Proof.
  split; intros; simpl; unfold session_output, session_output_batch; fwalk;
    auto using encrypt_flags, encrypt_batch_flags.
Qed.

Lemma close_connection_flags : keeps flags_kept close_connection.
Proof. unfold close_connection. fwalk. apply stop_flags. Qed.

Lemma forward_tcp_flags e : keeps flags_kept (forward_tcp_to_kcp e).
Proof. unfold forward_tcp_to_kcp. fwalk; apply close_connection_flags. Qed.

#[export] Instance flags_host : HostFrame (St := session) flags_kept.
Proof. split; intros; [apply stop_flags | apply forward_tcp_flags]. Qed.

Lemma feed_flags e d : keeps flags_kept (feed_and_drain e d).
Proof. apply (frame_feed_and_drain (St := session)); [apply _ .. | intros; apply emit_flags]. Qed.

Lemma perform_flags c : keeps flags_kept (perform c).
Proof.
  destruct c; simpl;
    unfold on_receive, on_inject_decrypted, on_update_tick, maybe_drained, session_handshake_done,
      handle_target_closed, mark_target_closed; fwalk;
    first [ apply feed_flags | apply stop_flags | apply close_connection_flags | apply forward_tcp_flags
          | apply (frame_send_data (St := session)); apply _
          | apply (frame_read_some (St := session)); apply _
          | apply (frame_send_fin (St := session)); apply _
          | apply (frame_retry_fin (St := session)); apply _
          | apply (frame_maybe_resume (St := session)); apply _
          | apply (frame_flush_cycle (St := session)); apply _
          | apply (frame_flush_due (St := session)); apply _
          | apply (frame_fulfill (St := session)); apply _
          | by apply (frame_tun (St := session) flags_kept), emits_stats
          | by apply (frame_tun (St := session) flags_kept), emits_keepalive ].
Qed.
End Server.

(** ** The client session *)

Section Client.
Context {A : Crypto.Aead} {K : Kcp} {F : FecCodec}.

Abbreviation ok := (keeps (on_st (St := client_session) widths)).

Lemma client_own_widths (f : client_session -> client_session) :
  (forall s, cbase (f s) = cbase s) -> ok (emodify f).
Proof. intros Hf s. unfold on_st, trace, final. simpl. rewrite Hf. apply comp_refl. Qed.

Lemma cbase_widths {X} (m : M tunnel event X) : keeps widths m -> ok (with_cbase m).
Proof. exact (tun_widths (St := client_session) m). Qed.

Ltac walk := repeat first [keeps_step | apply look_widths | apply upd_widths; width_upd
  | apply cbase_widths, widths_modify; width_upd | apply client_own_widths; by intros
  | apply (emit_widths (St := client_session))].

Lemma teardown_widths : ok request_teardown.
Proof. intros s Hs. by split_and!. Qed.

Lemma client_encrypt_widths e d : ok (client_encrypt_for_wire e d).
Proof.
  intros s. unfold client_encrypt_for_wire. rewrite trace_gets, final_gets. set (f := e_fault e _).
  pose proof (encrypt_wf f d [] (t_crypto (cbase s))) as Hc.
  destruct (Crypto.encrypt_impl f d [] (t_crypto (cbase s))) as [[c out] ec].
  change (with_cbase (emodify (set_crypto c)))
    with (upd (St := client_session) (fun t => (fun t => t) (set_crypto c t))).
  refine (cipher_widths (St := client_session) c (fun t => t) _ s Hc _ _); [by intros |].
  repeat first [keeps_step | apply teardown_widths | apply cbase_widths, widths_modify; width_upd].
Qed.

Lemma client_batch_widths e ds : forall acc, ok (client_encrypt_batch e ds acc).
Proof.
  induction ds as [|d ds IH]; intros acc; cbn [client_encrypt_batch]; walk; auto using client_encrypt_widths.
Qed.

#[export] Instance client_output_widths : OutputWidths client_session.
Proof.
  split; intros; simpl; unfold client_output, client_output_batch; walk;
    auto using client_encrypt_widths, client_batch_widths.
Qed.

Lemma on_close_widths e : ok (on_close e).
Proof.
  unfold on_close, close_socket. walk; [widths_by cycle_widths | apply tun_widths, complete_widths].
Qed.

Lemma forward_client_widths e : ok (forward_client_to_kcp e).
Proof. unfold forward_client_to_kcp. walk. Qed.

#[export] Instance client_host_widths : HostWidths client_session.
Proof.
  split; intros; [apply on_close_widths|]. simpl. unfold resume_local, close_local. walk.
  apply forward_client_widths.
Qed.

Lemma client_receive_widths e p : ok (client_on_receive e p).
Proof.
  unfold client_on_receive. apply keeps_bind; [apply _ | apply keeps_gets, _ | intros run].
  destruct (negb run); [apply keeps_ret, _|]. apply keeps_bind; [apply _ | walk | intros _].
  intros s. unfold look. rewrite trace_gets, final_gets. unfold id.
  pose proof (decrypt_wf (e_rx_fault e) p (decrypt_buf (tun s)) (t_crypto (tun s))) as Hc.
  destruct (Crypto.decrypt_impl _ p _ _) as [[c plain] ec].
  refine (cipher_widths (St := client_session) c (set_decrypt_buf plain) _ s Hc _ _); [by intros |].
  walk. widths_by feed_and_drain_widths.
Qed.

Lemma client_tick_widths e : ok (client_update_tick e).
Proof.
  unfold client_update_tick. walk; try apply tun_widths;
    first [widths_by due_widths | apply log_widths | widths_by cycle_widths | apply fulfill_widths
          | widths_by resume_widths | apply keepalive_widths | widths_by retry_fin_widths
          | apply on_close_widths].
Qed.

Lemma on_connect_widths e setup : ok (on_connect e setup).
Proof.
  unfold on_connect, go_live, start_handshake, send_connect_hello, do_udp_receive, connect_failed, drop_socket,
    take_completion. walk;
    first [apply on_close_widths | widths_by read_some_widths | apply tun_widths, send_widths
          | widths_by cycle_widths].
Qed.

Lemma client_perform_widths c : ok (client_perform c).
Proof.
  destruct c; simpl.
  - unfold on_udp_receive, do_udp_receive. walk. apply client_receive_widths.
  - unfold on_receive_backoff, do_udp_receive. walk.
  - apply client_tick_widths.
  - widths_by send_data_widths.
  - widths_by read_some_widths.
  - unfold on_ack. walk; first [apply on_close_widths | intros s Hs; by split_and!].
  - unfold on_connect_timer, take_completion.
    walk; first [apply on_close_widths | intros s Hs; by split_and!].
  - apply on_close_widths.
  - apply on_close_widths.
  - walk.
  - widths_by send_fin_widths.
  - apply forward_client_widths.
  - unfold close_local. walk.
Qed.
End Client.

(** ** Whole lives *)

Section Lives.
Context {A : Crypto.Aead} {K : Kcp} {F : FecCodec}.

(** A tunnel at rest: typed members, no batch open, nothing gathered. *)
Definition at_rest (t : tunnel) : Prop := wf t /\ batch_depth t = 0 /\ out_batch t = [].

Lemma at_rest_create e conv crypto fec t :
  create e conv crypto fec = Ret t -> crypto_wf crypto -> at_rest t.
Proof.
  unfold create. intros Hc Hw.
  assert (H : metrics t = (fun _ => 0) /\ t_crypto t = crypto /\ batch_depth t = 0 /\ out_batch t = []).
  { destruct (fec_enabled fec); [|by injection Hc as <-].
    repeat case_match; try done; by injection Hc as <-. }
  destruct H as (H1 & H2 & H3 & H4). split_and!; try done. split; rewrite ?H1, ?H2, ?H3; [lia | done | lia].
Qed.

Lemma at_rest_step t ev t' : at_rest t -> widths t ev t' -> at_rest t'.
Proof.
  intros (H1 & H2 & H3) Hw. destruct (Hw H1) as (H4 & H5 & H6). split_and!; [done | congruence | auto].
Qed.

(** C23: the values of a session are the values of its C++ members. Take the
    server session made from the instance that decrypted its first packet and
    any calls on it in any order with any library faults: every metric and
    every counter of the cipher object is a [uint64_t], the replay window fits
    its 2048-bit set, the state byte has only the five declared bits, and
    between two calls no output batch is open and no datagram is left in it. *)
Theorem session_members_typed (f : Crypto.evp_fault) (p psk : list Z) (crypto : Crypto.t) (plain : list Z)
    (e : tenv) (conv : Z) (fec : FecConfig) (s : session) (cs : list call) :
  Crypto.decrypt_impl f p [] (Crypto.fresh psk NONCE_DIR_SERVER true) = (crypto, plain, ec_none) ->
  new_session e conv crypto fec = Ret s ->
  at_rest (base (final (perform_all cs) s)) /\ flags_ok (final (perform_all cs) s).
Proof.
  intros Hd Hs. pose proof (decrypt_wf f p [] _ (fresh_wf psk NONCE_DIR_SERVER true)) as Hw. rewrite Hd in Hw.
  unfold new_session in Hs. destruct (create e conv crypto fec) as [t|] eqn:Et; [|done].
  assert (Hb : base s = t /\ flags_ok s) by (by injection Hs as <-). destruct Hb as [Hb Hfl]. split.
  - apply (at_rest_step (base s) []); [|exact (keeps_for (on_st (St := session) widths) perform cs perform_widths s)].
    rewrite Hb. by eapply at_rest_create.
  - by apply (keeps_for flags_kept perform cs perform_flags s).
Qed.

(** The same of a client session, from its creation through [connect]. *)
Theorem client_members_typed (f : Crypto.evp_fault) (psk salt : list Z) (crypto : Crypto.t) (e : tenv)
    (conv : Z) (fec : FecConfig) (s : client_session) (e0 : tenv) (setup : socket_setup)
    (cs : list client_call) :
  Crypto.Crypto_new f psk NONCE_DIR_CLIENT salt false = Ret crypto -> new_client e conv crypto fec = Ret s ->
  at_rest (cbase (final (on_connect e0 setup ;;; client_perform_all cs) s)).
Proof.
  intros Hc Hs. pose proof (fresh_wf psk NONCE_DIR_CLIENT false) as Hf.
  assert (Hw : crypto_wf crypto).
  { pose proof (derive_wf f salt _ Hf) as Hk. unfold Crypto.Crypto_new in Hc.
    case_bool; [by injection Hc as <-|].
    destruct (Crypto.derive_session_keys _ _ _) as [c [w|]]; [done | by injection Hc as <-]. }
  unfold new_client in Hs. destruct (create e conv crypto fec) as [t|] eqn:Et; [|done].
  assert (Hb : cbase s = t) by (by injection Hs as <-).
  apply (at_rest_step (cbase s) []); [|exact (keeps_bind (on_st (St := client_session) widths) (on_connect e0 setup) (fun _ => client_perform_all cs)
    (on_connect_widths e0 setup) (fun _ => keeps_for (on_st (St := client_session) widths) client_perform cs client_perform_widths) s)].
  rewrite Hb. by eapply at_rest_create.
Qed.
End Lives.

Module WidthsExample.
#[local] Existing Instance Crypto.ToyAead.toy.
#[local] Existing Instance Loopback.loopback.
#[local] Existing Instance Loopback.plain_codec.

Definition at_sec (sec : Z) : tenv :=
  mkTenv (sec * 1000000000) (fun _ => Crypto.no_fault) Crypto.no_fault None None default_tuning [].

Definition first_packet : list Z := Crypto.sealed Crypto.ToyAead.psk Crypto.ToyAead.salt NONCE_DIR_CLIENT 7 [1; 2].
Definition next_packet : list Z := Crypto.sealed Crypto.ToyAead.psk Crypto.ToyAead.salt NONCE_DIR_CLIENT 8 [3].
Definition candidate : Crypto.t * list Z * error_code :=
  Crypto.decrypt_impl Crypto.no_fault first_packet [] (Crypto.fresh Crypto.ToyAead.psk NONCE_DIR_SERVER true).

Definition s0 : session :=
  match new_session (at_sec 1) KCP_CONV candidate.1.1 fec_off with
  | Ret s => s
  | Throw _ => mkSession (mkTunnel candidate.1.1 (KcpWrapper.create default_tuning KCP_CONV) 0 [] 0 None None []
      (fun _ => 0) false false false false false false 0 0 0 None None None [] true)
      0 false false false false false false
  end.

Definition calls : list call :=
  [CInject (at_sec 1) [1; 2]; CReceive (at_sec 2) next_packet; CSend (at_sec 2) [9]; CTick (at_sec 3); CStop].

Lemma session_members_typed_witness :
  metrics (base (final (perform_all calls) s0)) udp_tx_packets = 1 /\
  at_rest (base (final (perform_all calls) s0)) /\ flags_ok (final (perform_all calls) s0).
Proof.
  split; [by vm_compute|].
  apply (session_members_typed Crypto.no_fault first_packet Crypto.ToyAead.psk candidate.1.1 candidate.1.2
    (at_sec 1) KCP_CONV fec_off s0 calls); by vm_compute.
Defined.
End WidthsExample.
