(* ===== verification/Client.v ===== *)
(** * Client: what the client does for one local application

    Models the per-connection handlers of [KCPProxyClient] (client.cpp): the
    SOCKS5 greeting and request read from the local application, the CONNECT
    request sent through the tunnel and its accumulated reply, the two
    forwarding loops, the half-close bookkeeping with its grace timer, the
    handshake deadline and [abort_handshake]. Each completion handler is one
    operation; the environment decides which completion arrives next. *)

From Stdlib Require Import ZArith Lia.
From stdpp Require Import base list strings.
From S2P Require Import Prelude Config Asio Address Socks5 Effects Kcp Tunnel ClientSession.
From S2P Require Crypto.

(** The read handlers on the tunnel. *)
Definition H_REPLY : Z := 11.
Definition H_FORWARD : Z := 12.

(** What an [asio::async_read] on the application's socket waits for. *)
Inductive read_stage : Type :=
| GreetHeader | GreetMethods | RequestHeader
| RequestAddress (cmd atyp : Z) | RequestDomain (cmd dlen : Z).

(** What runs when a write to the application settles. *)
Inductive write_stage : Type :=
| ThenAbort | ThenClose | MethodSelected (no_auth : bool) | ReplyForwarded | DataForwarded.

Inductive aevent : Type :=
| Cli (ev : event)
| AppRead (st : read_stage) (n : nat)
| AppWrite (st : write_stage) (data : list Z)
| LocalCancel
| LocalDrained (n : Z)
| HandshakeDeadlineArmed
| HandshakeDeadlineCancelled
| WatchdogArmed
| WatchdogCancelled
| GraceArmed (us : Z)
| GraceCancelled
| ClientThrew (what : list Z).

(** The session-cap ticket of [handle_client_connection]: the counter after
    the attempt, and whether the connection was let in; a ticket is returned
    when its session is destroyed. *)
Definition take_ticket (active : Z) : Z * bool :=
  if MAX_CLIENT_SESSIONS <=? active then (active, false) else (active + 1, true).
Definition return_ticket (active : Z) : Z := active - 1.

Section Client.
Context {I : AsioIp} {A : Crypto.Aead} {K : Kcp} {F : FecCodec}.

(** The session, the handshake's captures ([handshake_cancelled], the reply
    accumulator), the [HalfCloseGuard], and what this connection added to the
    client's traffic counters. *)
Record app_conn := mkApp {
  cli : client_session;
  cancelled : bool;
  reply_accum : list Z;
  app_eof : bool;
  peer_fin : bool;
  last_progress_us : Z;
  grace_armed : bool;
  tx_bytes : Z;
  rx_bytes : Z }.

Definition set_cli (v : client_session) (a : app_conn) : app_conn :=
  mkApp v (cancelled a) (reply_accum a) (app_eof a) (peer_fin a) (last_progress_us a)
    (grace_armed a) (tx_bytes a) (rx_bytes a).
Definition set_cancelled (v : bool) (a : app_conn) : app_conn :=
  mkApp (cli a) v (reply_accum a) (app_eof a) (peer_fin a) (last_progress_us a) (grace_armed a)
    (tx_bytes a) (rx_bytes a).
Definition set_reply_accum (v : list Z) (a : app_conn) : app_conn :=
  mkApp (cli a) (cancelled a) v (app_eof a) (peer_fin a) (last_progress_us a) (grace_armed a)
    (tx_bytes a) (rx_bytes a).
Definition set_app_eof (v : bool) (a : app_conn) : app_conn :=
  mkApp (cli a) (cancelled a) (reply_accum a) v (peer_fin a) (last_progress_us a)
    (grace_armed a) (tx_bytes a) (rx_bytes a).
Definition set_peer_fin (v : bool) (a : app_conn) : app_conn :=
  mkApp (cli a) (cancelled a) (reply_accum a) (app_eof a) v (last_progress_us a) (grace_armed a)
    (tx_bytes a) (rx_bytes a).
Definition set_last_progress_us (v : Z) (a : app_conn) : app_conn :=
  mkApp (cli a) (cancelled a) (reply_accum a) (app_eof a) (peer_fin a) v (grace_armed a)
    (tx_bytes a) (rx_bytes a).
Definition set_grace_armed (v : bool) (a : app_conn) : app_conn :=
  mkApp (cli a) (cancelled a) (reply_accum a) (app_eof a) (peer_fin a) (last_progress_us a) v
    (tx_bytes a) (rx_bytes a).
Definition set_tx_bytes (v : Z) (a : app_conn) : app_conn :=
  mkApp (cli a) (cancelled a) (reply_accum a) (app_eof a) (peer_fin a) (last_progress_us a)
    (grace_armed a) v (rx_bytes a).
Definition set_rx_bytes (v : Z) (a : app_conn) : app_conn :=
  mkApp (cli a) (cancelled a) (reply_accum a) (app_eof a) (peer_fin a) (last_progress_us a)
    (grace_armed a) (tx_bytes a) v.

Abbreviation Op X := (M app_conn aevent X).

(** An operation of the session. *)
Definition on_cli {X} (m : M client_session event X) : Op X := fun a =>
  let '(x, s, ev) := m (cli a) in (x, set_cli s a, Cli <$> ev).

(** ** Ending the handshake *)

(** The drain of [close_local_socket]: at most 64 reads of at most 512 bytes,
    until the kernel has nothing more or fails; the bytes it removed. *)
Fixpoint drain_loop (guard : nat) (answers : list (option Z * option Z)) (drained : Z) : Z :=
  match guard, answers with
  | S g, (Some avail, Some got) :: rest =>
      if avail =? 0 then drained
      else
        let got := Z.min got (Z.min avail 512) in
        if got =? 0 then drained else drain_loop g rest (drained + got)
  | _, _ => drained
  end.

(** [close_local_socket]: cancel, drain, [shutdown(send)], close. *)
Definition close_local_socket (e : tenv) : Op unit :=
  let* is_open := egets (fun a => local_open (cli a)) in
  ewhen is_open
    (emit LocalCancel ;;;
     emit (LocalDrained (drain_loop 64 (e_drain e) 0)) ;;;
     on_cli (emit LocalShutdownSend) ;;;
     on_cli close_local).

(** [handshake_cancelled->exchange(true)]. *)
Definition take_cancelled : Op bool := fun a => (cancelled a, set_cancelled true a, []).

(** [abort_handshake]: idempotent, closes both ends. *)
Definition abort_handshake (e : tenv) : Op unit :=
  let* was := take_cancelled in
  if was : bool then eret tt
  else emit HandshakeDeadlineCancelled ;;; close_local_socket e ;;; on_cli (on_close e).

(** The handshake deadline's handler. *)
Definition on_handshake_deadline (e : tenv) (ec : error_code) : Op unit :=
  if bool_decide (ec = ec_operation_aborted) then eret tt
  else
    let* was := take_cancelled in
    if was : bool then eret tt else close_local_socket e ;;; on_cli (on_close e).

(** A handler of the handshake runs only while it is not over. *)
Definition unless_cancelled (m : Op unit) : Op unit :=
  let* was := egets cancelled in
  if was : bool then eret tt else m.

(** [send_socks5_error(socket, reply, abort_handshake)]. *)
Definition send_socks5_error (reply : Z) : Op unit :=
  match build (mkResponse reply [] 0) with
  | Ret data => emit (AppWrite ThenAbort data)
  | Throw what => emit (ClientThrew what)
  end.

(** ** The greeting *)

(** The completion given to [session->connect]. *)
Definition on_kcp_connected (e : tenv) (ok : bool) : Op unit :=
  unless_cancelled (if negb ok then abort_handshake e else emit (AppRead GreetHeader 2)).

Definition no_acceptable : Op unit :=
  emit (AppWrite ThenAbort [SOCKS5_VERSION; SOCKS5_AUTH_NO_ACCEPTABLE]).

Definition on_greet_header (e : tenv) (ec : error_code) (buf : list Z) : Op unit :=
  unless_cancelled
    (if ec_failed ec then abort_handshake e
     else
       let ver := byte_at buf 0 in
       let nmethods := byte_at buf 1 in
       if negb (ver =? SOCKS5_VERSION) then no_acceptable
       else if nmethods =? 0 then no_acceptable
       else emit (AppRead GreetMethods (Z.to_nat nmethods))).

Definition on_greet_methods (e : tenv) (ec : error_code) (methods : list Z) : Op unit :=
  unless_cancelled
    (if ec_failed ec then abort_handshake e
     else
       let offered := existsb (fun m => m =? SOCKS5_AUTH_NONE) methods in
       emit (AppWrite (MethodSelected offered)
               [SOCKS5_VERSION; if offered then SOCKS5_AUTH_NONE else SOCKS5_AUTH_NO_ACCEPTABLE])).

Definition on_method_written (e : tenv) (ec : error_code) (offered : bool) : Op unit :=
  unless_cancelled
    (if ec_failed ec then abort_handshake e
     else if negb offered then abort_handshake e
     else emit (AppRead RequestHeader 4)).

(** ** The request *)

(** [read_socks5_reply]: one more read of the tunnel. *)
Definition read_socks5_reply : Op unit :=
  on_cli (on_async_read_some (Z.to_nat FWD_BUF_SIZE) H_REPLY).

(** [handle_sync_request(cmd, host, port)]. *)
Definition handle_sync_request (e : tenv) (cmd : Z) (host : list Z) (port : Z) : Op unit :=
  if negb (cmd =? SOCKS5_CMD_CONNECT) then send_socks5_error SOCKS5_REPLY_COMMAND_NOT_SUPPORTED
  else
    match build_connect_request host port with
    | Throw what => emit (ClientThrew what)
    | Ret req =>
        on_cli (send_data e req) ;;;
        emodify (set_reply_accum []) ;;;
        read_socks5_reply
    end.

Definition on_request_header (e : tenv) (ec : error_code) (header : list Z) : Op unit :=
  unless_cancelled
    (if ec_failed ec then abort_handshake e
     else
       let cmd := byte_at header 1 in
       let atyp := byte_at header 3 in
       if negb (byte_at header 0 =? SOCKS5_VERSION) then send_socks5_error SOCKS5_REPLY_GENERAL_FAILURE
       else if negb (byte_at header 2 =? 0) then send_socks5_error SOCKS5_REPLY_GENERAL_FAILURE
       else if atyp =? SOCKS5_ATYP_IPV4 then emit (AppRead (RequestAddress cmd atyp) 6)
       else if atyp =? SOCKS5_ATYP_DOMAIN then emit (AppRead (RequestAddress cmd atyp) 1)
       else if atyp =? SOCKS5_ATYP_IPV6 then emit (AppRead (RequestAddress cmd atyp) 18)
       else send_socks5_error SOCKS5_REPLY_ADDRESS_TYPE_NOT_SUPPORTED).

Definition on_request_address (e : tenv) (cmd atyp : Z) (ec : error_code) (buf : list Z) : Op unit :=
  unless_cancelled
    (if ec_failed ec then abort_handshake e
     else if (atyp =? SOCKS5_ATYP_IPV4) || (atyp =? SOCKS5_ATYP_IPV6) then
       match parse_address (atyp :: buf) (S (length buf)) 0 with
       | Ret parsed => handle_sync_request e cmd (pa_host parsed) (pa_port parsed)
       | Throw what => emit (ClientThrew what)
       end
     else if atyp =? SOCKS5_ATYP_DOMAIN then
       let dlen := byte_at buf 0 in
       if dlen =? 0 then send_socks5_error SOCKS5_REPLY_GENERAL_FAILURE
       else emit (AppRead (RequestDomain cmd dlen) (Z.to_nat dlen + 2))
     else eret tt).

Definition on_request_domain (e : tenv) (cmd dlen : Z) (ec : error_code) (buf : list Z) : Op unit :=
  unless_cancelled
    (if ec_failed ec then abort_handshake e
     else
       let n := Z.to_nat dlen in
       handle_sync_request e cmd (take n buf) (port_of_bytes (byte_at buf n) (byte_at buf (n + 1)))).

(** ** The reply *)

(** The success the application sees, followed by what came after the reply. *)
Definition forward_reply (rest : list Z) : Op unit :=
  match build (mkResponse SOCKS5_REPLY_SUCCEEDED (bytes_of_string "0.0.0.0") 0) with
  | Ret out => emit WatchdogArmed ;;; emit (AppWrite ReplyForwarded (out ++ rest))
  | Throw what => emit (ClientThrew what)
  end.

(** The read handler of [read_socks5_reply]. *)
Definition on_reply_read (e : tenv) (ec : error_code) (data : list Z) : Op unit :=
  unless_cancelled
    (if ec_failed ec || bool_decide (data = []) then send_socks5_error SOCKS5_REPLY_GENERAL_FAILURE
     else
       let* accum := egets reply_accum in
       if FWD_BUF_SIZE <? Z.of_nat (length accum + length data)
       then send_socks5_error SOCKS5_REPLY_GENERAL_FAILURE
       else
         let accum := accum ++ data in
         emodify (set_reply_accum accum) ;;;
         let parsed := parse_socks5_reply accum in
         match rr_status parsed, rr_reply parsed with
         | RsNeedMore, _ => read_socks5_reply
         | RsComplete, Some reply =>
             if negb (rep_reply reply =? SOCKS5_REPLY_SUCCEEDED) then send_socks5_error (rep_reply reply)
             else
               emodify (set_cancelled true) ;;;
               emit HandshakeDeadlineCancelled ;;;
               on_cli (upd mark_handshake_done) ;;;
               forward_reply (drop (rep_length reply) accum)
         | _, _ => send_socks5_error SOCKS5_REPLY_GENERAL_FAILURE
         end).

(** The watchdog over the reply's write. *)
Definition on_watchdog (e : tenv) (ec : error_code) : Op unit :=
  if bool_decide (ec = ec_operation_aborted) then eret tt
  else close_local_socket e ;;; on_cli (on_close e).

(** ** Forwarding and half-close *)

(** [session->async_read_some] of the downstream loop. *)
Definition forward_read : Op unit := on_cli (on_async_read_some (Z.to_nat FWD_BUF_SIZE) H_FORWARD).

(** Both ends. *)
Definition close_both (e : tenv) : Op unit := on_cli close_local ;;; on_cli (on_close e).

Definition cancel_grace : Op unit := emodify (set_grace_armed false) ;;; emit GraceCancelled.

(** [handle_server_fin]. *)
Definition handle_server_fin (e : tenv) : Op unit :=
  emodify (set_peer_fin true) ;;;
  cancel_grace ;;;
  let* eof := egets app_eof in
  if eof : bool then close_both e
  else on_cli (emit LocalShutdownSend) ;;; forward_read.

(** [forward_kcp_to_client]. *)
Definition forward_kcp_to_client (e : tenv) : Op unit :=
  let* a := egets id in
  if peer_fin_received (cbase (cli a)) && negb (peer_fin a) then handle_server_fin e else forward_read.

(** Its read handler. *)
Definition on_kcp_read (e : tenv) (ec : error_code) (data : list Z) : Op unit :=
  if bool_decide (ec = ec_eof) then handle_server_fin e
  else if ec_failed ec || bool_decide (data = []) then cancel_grace ;;; close_both e
  else
    emodify (fun a => set_rx_bytes (u64 (rx_bytes a + Z.of_nat (length data))) a) ;;;
    let* eof := egets app_eof in
    ewhen eof (emodify (set_last_progress_us (now_us e))) ;;;
    emit (AppWrite DataForwarded data).

(** Its write handler. *)
Definition on_data_written (e : tenv) (ec : error_code) : Op unit :=
  if ec_failed ec then cancel_grace ;;; close_both e else forward_kcp_to_client e.

(** [arm_half_close_grace]; [grace_sec] is the configured grace. *)
Definition arm_half_close_grace (e : tenv) (grace_sec : Z) : Op unit :=
  emodify (set_app_eof true) ;;;
  emodify (set_last_progress_us (now_us e)) ;;;
  let* fin := egets peer_fin in
  if fin : bool then close_both e
  else
    on_cli (send_fin e) ;;;
    emodify (set_grace_armed true) ;;; emit (GraceArmed (grace_sec * 1000000)).

(** The read handler of [forward_client_to_kcp]. *)
Definition on_app_read (e : tenv) (grace_sec : Z) (ec : error_code) (data : list Z) : Op unit :=
  if bool_decide (ec = ec_eof) then arm_half_close_grace e grace_sec
  else if ec_failed ec || bool_decide (data = []) then on_cli (on_close e) ;;; on_cli close_local
  else
    emodify (fun a => set_tx_bytes (u64 (tx_bytes a + Z.of_nat (length data))) a) ;;;
    on_cli (send_data e data) ;;;
    on_cli (forward_client_to_kcp e).

(** [on_half_close_check], the grace timer's handler. *)
Definition on_half_close_check (e : tenv) (grace_sec : Z) : Op unit :=
  let* a := egets id in
  emodify (set_grace_armed false) ;;;
  if negb (app_eof a) then eret tt
  else if negb (is_connected (cli a)) then eret tt
  else
    let grace_us := grace_sec * 1000000 in
    let quiet_us := now_us e - last_progress_us a in
    if quiet_us <? grace_us then emodify (set_grace_armed true) ;;; emit (GraceArmed (grace_us - quiet_us))
    else close_both e.

(** The completion of the reply's write: both loops start. *)
Definition on_reply_written (e : tenv) (ec : error_code) : Op unit :=
  emit WatchdogCancelled ;;;
  if ec_failed ec then on_cli (on_close e) ;;; on_cli close_local
  else on_cli (forward_client_to_kcp e) ;;; forward_kcp_to_client e.

(** ** Admission *)

(** A connection whose session is about to be connected. *)
Definition new_app (s : client_session) : app_conn := mkApp s false [] false false 0 false 0 0.

(** [handle_client_connection]: the counter of sessions after it, and the
    connection with its trace, if one was made. Over the cap the application
    gets an error reply; [setup] is the session made from a fresh salt, and a
    setup that throws returns the ticket and closes the socket. *)
Definition handle_client_connection (e : tenv) (setup : exn_result client_session)
    (sock : socket_setup) (active : Z) : Z * option app_conn * list aevent :=
  let '(active', admitted) := take_ticket active in
  if negb admitted then
    (active', None,
     match build (mkResponse SOCKS5_REPLY_GENERAL_FAILURE [] 0) with
     | Ret data => [AppWrite ThenClose data]
     | Throw what => [ClientThrew what]
     end)
  else
    match setup with
    | Throw _ => (return_ticket active', None, [Cli LocalClosed])
    | Ret s =>
        let m := emit HandshakeDeadlineArmed ;;; on_cli (on_connect e sock) in
        (active', Some (final m (new_app s)), trace m (new_app s))
    end.
End Client.

(** ** What can happen to a connection *)

Inductive app_happening : Type :=
| AConnected (e : tenv) (ok : bool)
| AGreetHeader (e : tenv) (ec : error_code) (buf : list Z)
| AGreetMethods (e : tenv) (ec : error_code) (buf : list Z)
| AMethodWritten (e : tenv) (ec : error_code) (offered : bool)
| ARequestHeader (e : tenv) (ec : error_code) (buf : list Z)
| ARequestAddress (e : tenv) (cmd atyp : Z) (ec : error_code) (buf : list Z)
| ARequestDomain (e : tenv) (cmd dlen : Z) (ec : error_code) (buf : list Z)
| AReplyRead (e : tenv) (ec : error_code) (data : list Z)
| ARejected (e : tenv)
| ADeadline (e : tenv) (ec : error_code).

Section AppHappenings.
Context {I : AsioIp} {A : Crypto.Aead} {K : Kcp} {F : FecCodec}.

(** The completions of the handshake. *)
Definition app_happen (h : app_happening) : M app_conn aevent unit :=
  match h with
  | AConnected e ok => on_kcp_connected e ok
  | AGreetHeader e ec b => on_greet_header e ec b
  | AGreetMethods e ec b => on_greet_methods e ec b
  | AMethodWritten e ec o => on_method_written e ec o
  | ARequestHeader e ec b => on_request_header e ec b
  | ARequestAddress e cmd atyp ec b => on_request_address e cmd atyp ec b
  | ARequestDomain e cmd dlen ec b => on_request_domain e cmd dlen ec b
  | AReplyRead e ec d => on_reply_read e ec d
  | ARejected e => abort_handshake e
  | ADeadline e ec => on_handshake_deadline e ec
  end.

Definition app_happen_all (hs : list app_happening) : M app_conn aevent unit := efor app_happen hs.
End AppHappenings.

(** The completions of a forwarding tunnel, and the calls its session gets. *)
Inductive fwd_happening : Type :=
| FKcpRead (e : tenv) (ec : error_code) (data : list Z)
| FDataWritten (e : tenv) (ec : error_code)
| FAppRead (e : tenv) (ec : error_code) (data : list Z)
| FGraceCheck (e : tenv)
| FReceived (e : tenv) (ec : error_code) (packet : list Z)
| FBackoff (ec : error_code)
| FTick (e : tenv)
| FClose (e : tenv).

Section FwdHappenings.
Context {A : Crypto.Aead} {K : Kcp} {F : FecCodec}.

Definition fwd_happen (grace_sec : Z) (h : fwd_happening) : M app_conn aevent unit :=
  match h with
  | FKcpRead e ec d => on_kcp_read e ec d
  | FDataWritten e ec => on_data_written e ec
  | FAppRead e ec d => on_app_read e grace_sec ec d
  | FGraceCheck e => on_half_close_check e grace_sec
  | FReceived e ec p => on_cli (on_udp_receive e ec p)
  | FBackoff ec => on_cli (on_receive_backoff ec)
  | FTick e => on_cli (client_update_tick e)
  | FClose e => on_cli (on_close e)
  end.

Definition fwd_happen_all (grace_sec : Z) (hs : list fwd_happening) : M app_conn aevent unit :=
  efor (fwd_happen grace_sec) hs.
End FwdHappenings.
