(* ===== verification/ClientProofs.v ===== *)
(** * ClientProofs: guarantees of the client's per-connection handlers

    The handshake with the local application has one outcome; the server's
    reply reaches it whole however the tunnel fragments it; a half-closed
    tunnel is always bounded, by the other direction's end or by the grace
    timer; the session cap holds. *)

From Stdlib Require Import ZArith Lia.
From stdpp Require Import base list strings.
From S2P Require Import Prelude Config Asio Address Socks5 Effects Kcp Tunnel TunnelProofs.
From S2P Require Import ClientSession ClientSessionProofs Client.
From S2P Require Crypto SessionProofs.

(** ** What reaches the application *)

Definition app_write (ev : aevent) : option (write_stage * list Z) :=
  match ev with AppWrite st d => Some (st, d) | _ => None end.
Definition app_writes (ev : list aevent) : list (write_stage * list Z) := omap app_write ev.

Lemma app_writes_app e1 e2 : app_writes (e1 ++ e2) = app_writes e1 ++ app_writes e2.
Proof. apply omap_app. Qed.

Lemma app_writes_cli ev : app_writes (Cli <$> ev) = [].
Proof. induction ev; [done|]. done. Qed.

Section Reply.
Context {I : AsioIp} {L : AsioIpLaws I} {A : Crypto.Aead} {K : Kcp} {F : FecCodec}.

(** A cut reply is never mistaken for a whole one, nor for a bad one. *)
Lemma reply_prefix_need_more p q rep :
  parse_socks5_reply (p ++ q) = mkReplyResult RsComplete (Some rep) [] ->
  (length p < rep_length rep)%nat -> parse_socks5_reply p = reply_need_more.
Proof.
  unfold parse_socks5_reply. intros Hc Hl.
  destruct (scan_header reply_messages p) as [|err b|need] eqn:E; [done| |].
  - by rewrite scan_header_app, E in Hc by congruence.
  - rewrite scan_header_app, E in Hc by congruence.
    destruct (length (p ++ q) <? need)%nat; [done|]. destruct (parse_address (p ++ q) need 3); [|done].
    simplify_eq. simpl in Hl. by rewrite (proj2 (Nat.ltb_lt _ _)).
Qed.

(** The length a complete reply reports is that of the built message. *)
Lemma reply_consumed r msg payload :
  is_u16 (rsp_port r) -> build r = Ret msg ->
  exists rep, parse_socks5_reply (msg ++ payload) = mkReplyResult RsComplete (Some rep) [] /\
    rep_reply rep = rsp_reply r /\ rep_length rep = length msg /\
    drop (rep_length rep) (msg ++ payload) = payload.
Proof.
  intros Hp Hb. pose proof (reply_roundtrip r payload Hp) as Hr. rewrite Hb in Hr.
  destruct Hr as (rep & H1 & H2 & _ & _ & H3). exists rep. split_and!; try done.
  assert (Hle : (rep_length rep <= length (msg ++ payload))%nat).
  { unfold parse_socks5_reply in H1. destruct (scan_header _ _); [done..|].
    destruct (_ <? _)%nat eqn:E; [done|]. zb_props. destruct (parse_address _ _ _); [|done].
    simplify_eq. simpl. lia. }
  apply (f_equal length) in H3. rewrite length_drop, length_app in *. lia.
Qed.

(** The success message always builds. *)
Lemma success_builds :
  exists ok, build (mkResponse SOCKS5_REPLY_SUCCEEDED (bytes_of_string "0.0.0.0") 0) = Ret ok.
Proof.
  unfold build, encode_address. simpl. destruct (make_address _) as [[]|]; eauto.
Qed.

(** One read of the tunnel while the reply is incomplete. *)
Lemma on_reply_more e d (a : app_conn) :
  cancelled a = false -> d <> [] -> Z.of_nat (length (reply_accum a) + length d) <= FWD_BUF_SIZE ->
  parse_socks5_reply (reply_accum a ++ d) = reply_need_more ->
  let m := on_reply_read e ec_none d in
  cancelled (final m a) = false /\ reply_accum (final m a) = reply_accum a ++ d /\ app_writes (trace m a) = [].
Proof.
  intros Hc Hd Hl Hp m. unfold m, on_reply_read, unless_cancelled, trace, final.
  rewrite gets_bind, Hc. rewrite bool_decide_false by done. cbn [ec_failed orb]. rewrite gets_bind.
  rewrite (proj2 (Z.ltb_ge _ _)) by lia. rewrite modify_bind, Hp. cbn [rr_status reply_need_more].
  unfold read_socks5_reply, on_cli. destruct (on_async_read_some _ _ _) as [[x s] ev]. cbn.
  by rewrite app_writes_cli.
Qed.

(** The read that completes it. *)
Lemma on_reply_done e d (a : app_conn) rep ok :
  cancelled a = false -> d <> [] -> Z.of_nat (length (reply_accum a) + length d) <= FWD_BUF_SIZE ->
  parse_socks5_reply (reply_accum a ++ d) = mkReplyResult RsComplete (Some rep) [] ->
  rep_reply rep = SOCKS5_REPLY_SUCCEEDED ->
  build (mkResponse SOCKS5_REPLY_SUCCEEDED (bytes_of_string "0.0.0.0") 0) = Ret ok ->
  let m := on_reply_read e ec_none d in
  cancelled (final m a) = true /\
  app_writes (trace m a) = [(ReplyForwarded, ok ++ drop (rep_length rep) (reply_accum a ++ d))].
Proof.
  intros Hc Hd Hl Hp Hr Hb m. unfold m, on_reply_read, unless_cancelled, trace, final.
  rewrite gets_bind, Hc. rewrite bool_decide_false by done. cbn [ec_failed orb]. rewrite gets_bind.
  rewrite (proj2 (Z.ltb_ge _ _)) by lia. rewrite modify_bind, Hp. cbn [rr_status rr_reply]. rewrite Hr. cbn [negb Z.eqb].
  rewrite Z.eqb_refl. cbn [negb]. rewrite modify_bind. unfold forward_reply. rewrite Hb. done.
Qed.

(** Feeding the reply chunk by chunk. *)
Lemma reply_chunks e msg payload rep ok cs : forall last (a : app_conn),
  build (mkResponse SOCKS5_REPLY_SUCCEEDED (bytes_of_string "0.0.0.0") 0) = Ret ok ->
  parse_socks5_reply (msg ++ payload) = mkReplyResult RsComplete (Some rep) [] ->
  rep_reply rep = SOCKS5_REPLY_SUCCEEDED -> rep_length rep = length msg ->
  drop (rep_length rep) (msg ++ payload) = payload ->
  Z.of_nat (length (msg ++ payload)) <= FWD_BUF_SIZE ->
  cancelled a = false -> Forall (fun c => c <> []) cs -> last <> [] ->
  reply_accum a ++ concat cs ++ last = msg ++ payload ->
  (length (reply_accum a ++ concat cs) < length msg)%nat ->
  let m := efor (on_reply_read e ec_none) (cs ++ [last]) in
  cancelled (final m a) = true /\ app_writes (trace m a) = [(ReplyForwarded, ok ++ payload)].
Proof.
  induction cs as [|c cs IH]; intros last a Hb Hp Hr Hn Hd Hl Hc Hf Hne Ha Hlt m; unfold m; cbn [app efor].
  - cbn [concat app] in Ha. rewrite trace_bind, final_bind. cbn. rewrite app_nil_r.
    destruct (on_reply_done e last a rep ok) as [H1 H2]; try done; [|by rewrite Ha|].
    + rewrite <- length_app, Ha. lia.
    + rewrite Ha, Hd in H2. split; [exact H1 | exact H2].
  - apply list.Forall_cons in Hf as [Hc0 Hf]. cbn [concat] in Ha, Hlt. rewrite <- app_assoc in Ha.
    rewrite app_assoc in Ha. rewrite app_assoc in Hlt.
    destruct (on_reply_more e c a) as (H1 & H2 & H3); try done.
    + apply (f_equal length) in Ha. rewrite length_app in Ha. rewrite length_app in Ha. lia.
    + eapply (reply_prefix_need_more _ (concat cs ++ last)); [by rewrite Ha|].
      rewrite Hn. rewrite length_app in Hlt. lia.
    + rewrite trace_bind, final_bind, app_writes_app, H3. cbn [app].
      apply IH; try done; rewrite H2; done.
Qed.

(** C19: the server's reply survives the tunnel's framing. However the
    messages cut the success reply and the target's first payload (each piece
    non-empty, together within one buffer), the client never acts on a partial
    reply, and the application gets exactly one write: the success message
    followed by exactly the payload bytes that came behind the reply. *)
Theorem reply_survives_chunking (e : tenv) (r : SOCKS5Response) (msg payload ok : list Z)
    (cs : list (list Z)) (last : list Z) (a : app_conn) :
  rsp_reply r = SOCKS5_REPLY_SUCCEEDED -> is_u16 (rsp_port r) -> build r = Ret msg ->
  build (mkResponse SOCKS5_REPLY_SUCCEEDED (bytes_of_string "0.0.0.0") 0) = Ret ok ->
  Z.of_nat (length (msg ++ payload)) <= FWD_BUF_SIZE ->
  cancelled a = false -> reply_accum a = [] ->
  Forall (fun c => c <> []) cs -> last <> [] ->
  concat cs ++ last = msg ++ payload -> (length (concat cs) < length msg)%nat ->
  let m := efor (on_reply_read e ec_none) (cs ++ [last]) in
  cancelled (final m a) = true /\ app_writes (trace m a) = [(ReplyForwarded, ok ++ payload)].
Proof.
  intros Hr Hp Hm Hok Hl Hc Ha Hf Hne Hcat Hlt.
  destruct (reply_consumed r msg payload Hp Hm) as (rep & H1 & H2 & H3 & H4).
  eapply (reply_chunks e msg payload rep); try done; [congruence | by rewrite Ha | by rewrite Ha].
Qed.
End Reply.

(** ** The handshake has one outcome *)

Definition success_of (ev : aevent) : option (list Z) :=
  match ev with AppWrite ReplyForwarded d => Some d | _ => None end.
Definition successes (ev : list aevent) : list (list Z) := omap success_of ev.

Lemma successes_app e1 e2 : successes (e1 ++ e2) = successes e1 ++ successes e2.
Proof. apply omap_app. Qed.
Lemma successes_cli ev : successes (Cli <$> ev) = [].
Proof. induction ev; [done|]. done. Qed.

Section Handshake.
Context {I : AsioIp} {A : Crypto.Aead} {K : Kcp} {F : FecCodec}.

(** The session's operations leave the application's socket alone. *)
Definition same_local (s : client_session) (_ : list event) (s' : client_session) : Prop :=
  local_open s' = local_open s.

#[export] Instance same_local_comp : Compositional same_local.
Proof. split; unfold same_local; [done | congruence]. Qed.
#[export] Instance same_local_base : BaseFrame (St := client_session) same_local.
Proof. split; [apply _ | done]. Qed.

#[export] Instance same_local_client : ClientFrame same_local.
Proof. split; [apply _ | by intros ? | by intros ? ? | by split; intros ? | unfold close_socket; frame_walk]. Qed.

Lemma same_local_send e d : keeps same_local (send_data e d).
Proof.
  unfold send_data, on_send. frame_walk; [by apply frame_tun, emits_kcp_send; try apply _ | apply (frame_on_close same_local)
    | apply frame_flush_cycle; apply _].
Qed.

(** A step of the handshake that settles nothing. *)
Definition unsettled (a : app_conn) (ev : list aevent) (a' : app_conn) : Prop :=
  cancelled a' = cancelled a /\ successes ev = [] /\ local_open (cli a') = local_open (cli a).

#[export] Instance unsettled_comp : Compositional unsettled.
Proof.
  split; [done|]. intros a1 a2 a3 e1 e2 (C1 & S1 & L1) (C2 & S2 & L2).
  split_and!; [congruence | by rewrite successes_app, S1, S2 | congruence].
Qed.

Lemma unsettled_cli {X} (m : M client_session event X) : keeps same_local m -> keeps unsettled (on_cli m).
Proof.
  intros Hm a. specialize (Hm (cli a)). unfold on_cli, trace, final in *.
  destruct (m (cli a)) as [[x s] ev]. split_and!; [done | apply successes_cli | exact Hm].
Qed.

Lemma unsettled_error r : keeps unsettled (send_socks5_error r).
Proof. unfold send_socks5_error. repeat keeps_step; by intros ?. Qed.

Lemma unsettled_read : keeps unsettled read_socks5_reply.
Proof. apply unsettled_cli, frame_read_some; apply _. Qed.

Lemma unsettled_request e cmd h p : keeps unsettled (handle_sync_request e cmd h p).
Proof.
  unfold handle_sync_request. repeat keeps_step; auto using unsettled_error, unsettled_read, unsettled_cli, same_local_send;
    by intros ?.
Qed.

(** How a handler leaves a handshake that was open. *)
Inductive outcome (a : app_conn) (ev : list aevent) (a' : app_conn) : Prop :=
| still_open :
    cancelled a' = false -> successes ev = [] -> local_open (cli a') = local_open (cli a) -> outcome a ev a'
| succeeded d :
    cancelled a' = true -> successes ev = [d] -> local_open (cli a') = local_open (cli a) -> outcome a ev a'
| torn_down :
    cancelled a' = true -> successes ev = [] -> local_open (cli a') = false -> running (cli a') = false ->
    outcome a ev a'.

Lemma unsettled_outcome (m : M app_conn aevent unit) a :
  keeps unsettled m -> cancelled a = false -> outcome a (trace m a) (final m a).
Proof. intros Hm Hc. destruct (Hm a) as (H1 & H2 & H3). apply still_open; congruence. Qed.

(** Closing both ends, in the handshake's way. *)
Lemma close_both_ends e a :
  let m := close_local_socket e ;;; on_cli (on_close e) in
  cancelled (final m a) = cancelled a /\ successes (trace m a) = [] /\
  local_open (cli (final m a)) = false /\ running (cli (final m a)) = false.
Proof.
  intros m. unfold m. rewrite trace_bind, final_bind, successes_app.
  assert (H1 : cancelled (final (close_local_socket e) a) = cancelled a /\ successes (trace (close_local_socket e) a) = [] /\
            local_open (cli (final (close_local_socket e) a)) = false).
  { unfold close_local_socket, close_local, on_cli, trace, final. rewrite gets_bind.
    destruct (local_open (cli a)) eqn:E; [|done]. unfold ebind, emit, egets, emodify, ewhen. simpl. by rewrite E. }
  destruct H1 as (C1 & S1 & L1). set (a1 := final (close_local_socket e) a) in *.
  pose proof ((frame_on_close same_local) e (cli a1)) as Hl. unfold same_local in Hl.
  pose proof (close_stops e (cli a1)) as Hr.
  assert (Hc : final (on_cli (on_close e)) a1 = set_cli (final (on_close e) (cli a1)) a1 /\
               trace (on_cli (on_close e)) a1 = Cli <$> trace (on_close e) (cli a1)).
  { unfold on_cli, trace, final. by destruct (on_close e (cli a1)) as [[x s] ev]. }
  destruct Hc as [-> ->]. rewrite S1, successes_cli. split_and!; [done | done | simpl; congruence | done].
Qed.

Lemma take_cancelled_bind {X} (k : bool -> M app_conn aevent X) a :
  (let* p := take_cancelled in k p) a = k (cancelled a) (set_cancelled true a).
Proof. unfold ebind, take_cancelled. by destruct (k _ _) as [[x a'] ev]. Qed.

Lemma cancelled_id (a : app_conn) : cancelled a = true -> set_cancelled true a = a.
Proof. destruct a. by intros [= ->]. Qed.

(** Once settled, every handler of the handshake does nothing. *)
Lemma settled_inert h a : cancelled a = true -> app_happen h a = (tt, a, []).
Proof.
  intros Hc. destruct h; simpl; try (unfold on_kcp_connected, on_greet_header, on_greet_methods, on_method_written,
    on_request_header, on_request_address, on_request_domain, on_reply_read, unless_cancelled; by rewrite gets_bind, Hc).
  - unfold abort_handshake. by rewrite take_cancelled_bind, Hc, cancelled_id.
  - unfold on_handshake_deadline. case_bool_decide; [done|]. by rewrite take_cancelled_bind, Hc, cancelled_id.
Qed.

Lemma torn_outcome e a pre :
  cancelled a = false -> successes pre = [] ->
  let m := close_local_socket e ;;; on_cli (on_close e) in
  outcome a (pre ++ trace m (set_cancelled true a)) (final m (set_cancelled true a)).
Proof.
  intros Hc Hp m. destruct (close_both_ends e (set_cancelled true a)) as (H1 & H2 & H3 & H4). fold m in H1, H2, H3, H4.
  apply torn_down; [done | by rewrite successes_app, Hp, H2 | done | done].
Qed.

Lemma abort_outcome e a :
  cancelled a = false -> outcome a (trace (abort_handshake e) a) (final (abort_handshake e) a).
Proof.
  intros Hc. unfold abort_handshake, trace, final. rewrite take_cancelled_bind, Hc.
  pose proof (torn_outcome e a [HandshakeDeadlineCancelled] Hc eq_refl) as H. cbv zeta in H.
  unfold trace, final in H. unfold ebind at 1 3. unfold emit at 1 2.
  by destruct ((close_local_socket e ;;; on_cli (on_close e)) (set_cancelled true a)) as [[x a'] ev].
Qed.

Lemma unless_open e (m : M app_conn aevent unit) (b : bool) a :
  cancelled a = false -> outcome a (trace m a) (final m a) ->
  outcome a (trace (unless_cancelled (if b then abort_handshake e else m)) a)
            (final (unless_cancelled (if b then abort_handshake e else m)) a).
Proof.
  intros Hc Hm. unfold unless_cancelled, trace, final. rewrite gets_bind, Hc.
  destruct b; [by apply abort_outcome | done].
Qed.

Ltac unsettled_walk :=
  repeat first [keeps_step | apply unsettled_error | apply unsettled_read | apply unsettled_request | by intros ?].

Lemma reply_outcome e ec d a :
  cancelled a = false ->
  outcome a (trace (on_reply_read e ec d) a) (final (on_reply_read e ec d) a).
Proof.
  intros Hc. unfold on_reply_read, unless_cancelled, trace, final. rewrite gets_bind, Hc.
  destruct (ec_failed ec || _); [by apply (unsettled_outcome (send_socks5_error _)), Hc; apply unsettled_error|].
  rewrite gets_bind. destruct (_ <? _); [by apply (unsettled_outcome (send_socks5_error _)), Hc; apply unsettled_error|].
  rewrite modify_bind. set (a1 := set_reply_accum _ a).
  assert (Hu : forall m : M app_conn aevent unit, keeps unsettled m -> outcome a (trace m a1) (final m a1)).
  { intros m Hm. destruct (Hm a1) as (H1 & H2 & H3). by apply still_open; [rewrite H1| |rewrite H3]. }
  destruct (parse_socks5_reply (reply_accum a ++ d)) as [[] [rep|] err]; cbn [rr_status rr_reply]; try (apply Hu; solve [unsettled_walk]).
  destruct (negb _); [apply Hu; unsettled_walk|].
  rewrite modify_bind. unfold forward_reply. destruct success_builds as [ok ->].
  by apply (succeeded _ _ _ (ok ++ drop (rep_length rep) (reply_accum a ++ d))).
Qed.

Lemma happen_outcome h a :
  cancelled a = false -> outcome a (trace (app_happen h) a) (final (app_happen h) a).
Proof.
  intros Hc. destruct h; simpl;
    try (apply unless_open; [done|]; apply unsettled_outcome; [|done]; unfold no_acceptable; solve [unsettled_walk]).
  - unfold on_method_written. apply unless_open; [done|]. destruct (negb offered); [by apply abort_outcome|].
    apply unsettled_outcome; [|done]. by intros ?.
  - by apply reply_outcome.
  - by apply abort_outcome.
  - unfold on_handshake_deadline, trace, final. case_bool_decide; [by apply still_open|].
    rewrite take_cancelled_bind, Hc. by apply (torn_outcome e a []).
Qed.

(** C17: the handshake with a local application has one outcome. After any
    completions, timeouts and errors in any order, either nothing is settled
    and the application's socket is untouched, or exactly one success message
    was written and the connection was left open, or the connection was torn
    down: the application's socket and the session are both closed and no
    success was ever reported. *)
Theorem handshake_one_outcome (hs : list app_happening) (a : app_conn) :
  cancelled a = false ->
  outcome a (trace (app_happen_all hs) a) (final (app_happen_all hs) a).
Proof.
  intros Hc. unfold app_happen_all. revert a Hc.
  assert (Hs : forall hs a, cancelled a = true -> efor app_happen hs a = (tt, a, [])).
  { clear hs. intros hs. induction hs as [|h hs IH]; intros a Hc; [done|].
    cbn [efor]. unfold ebind. rewrite settled_inert by done. by rewrite IH. }
  induction hs as [|h hs IH]; intros a Hc; [by apply still_open|].
  cbn [efor]. rewrite trace_bind, final_bind.
  destruct (happen_outcome h a Hc) as [H1 H2 H3|d H1 H2 H3|H1 H2 H3 H4];
    set (a1 := final (app_happen h) a) in *.
  - destruct (IH a1 H1) as [G1 G2 G3|d G1 G2 G3|G1 G2 G3 G4];
      [apply still_open | apply (succeeded _ _ _ d) | apply torn_down]; try done;
      first [by rewrite successes_app, H2, G2 | congruence].
  - unfold trace at 2, final. rewrite Hs by done. cbn. rewrite app_nil_r. by apply (succeeded _ _ _ d).
  - unfold trace at 2, final. rewrite Hs by done. cbn. rewrite app_nil_r. by apply torn_down.
Qed.
End Handshake.

(** ** Half-close *)

Section HalfClose.
Context {A : Crypto.Aead} {K : Kcp} {F : FecCodec}.

(** A forwarding session only ever winds down. *)
Definition decays (s : client_session) (_ : list event) (s' : client_session) : Prop :=
  (running s' = true -> running s = true /\ connected s' = connected s) /\
  (local_open s' = true -> local_open s = true).

#[export] Instance decays_comp : Compositional decays.
Proof.
  split; [done|]. intros s1 s2 s3 e1 e2 [R1 L1] [R2 L2]. split; [|auto].
  intros H3. destruct (R2 H3) as [H2 ->]. auto.
Qed.
#[export] Instance decays_base : BaseFrame (St := client_session) decays.
Proof. split; [apply _ | done]. Qed.

#[export] Instance decays_client : ClientFrame decays.
Proof. split; [apply _ | by intros ? | by intros ? ? | by split; intros ? | unfold close_socket; frame_walk]. Qed.

Lemma decays_close_local : keeps decays close_local.
Proof. unfold close_local. frame_walk. Qed.

Lemma decays_forward e : keeps decays (forward_client_to_kcp e).
Proof. unfold forward_client_to_kcp. frame_walk. Qed.

#[export] Instance decays_host : HostFrame (St := client_session) decays.
Proof.
  split; intros; [apply (frame_on_close decays)|]. simpl. unfold resume_local. frame_walk;
    auto using decays_close_local, decays_forward.
Qed.

Lemma decays_received e ec p : keeps decays (on_udp_receive e ec p).
Proof.
  unfold on_udp_receive, do_udp_receive, client_on_receive. frame_walk.
  apply frame_feed_and_drain; [apply _..|]. by intros ???.
Qed.

Lemma decays_tick e : keeps decays (client_update_tick e).
Proof.
  unfold client_update_tick. frame_walk;
    first [apply (frame_on_close decays) | apply frame_flush_due | apply frame_flush_cycle | apply frame_fulfill
          | apply frame_maybe_resume | apply frame_retry_fin | apply frame_tun]; try apply _.
  - by apply emits_stats.
  - by apply emits_keepalive.
Qed.

(** The invariant of a forwarding tunnel: when both directions are finished
    both ends are closed; a half-closed one has its grace timer armed. *)
Record fwd_inv (a : app_conn) : Prop := {
  fi_connected : running (cli a) = true -> connected (cli a) = true;
  fi_both : app_eof a = true -> peer_fin a = true -> running (cli a) = false /\ local_open (cli a) = false;
  fi_grace : app_eof a = true -> running (cli a) = true -> grace_armed a = true }.

Lemma on_cli_final {X} (m : M client_session event X) (a : app_conn) :
  final (on_cli m) a = set_cli (final m (cli a)) a.
Proof. unfold on_cli, final. by destruct (m (cli a)) as [[x s] ev]. Qed.

Lemma inv_decays {X} (m : M client_session event X) a :
  keeps decays m -> fwd_inv a -> fwd_inv (final (on_cli m) a).
Proof.
  intros Hm [C B G]. rewrite on_cli_final. destruct (Hm (cli a)) as [R Lo].
  set (s := final m (cli a)) in *. split; simpl.
  - intros Hr. destruct (R Hr) as [Hr' ->]. auto.
  - intros He Hf. destruct (B He Hf) as [B1 B2].
    split; apply not_true_is_false; intros H; [destruct (R H) | apply Lo in H]; congruence.
  - intros He Hr. destruct (R Hr). auto.
Qed.

Lemma close_both_final e a :
  exists s, final (close_both e) a = set_cli s a /\ running s = false /\ local_open s = false.
Proof.
  unfold close_both. rewrite final_bind, !on_cli_final. simpl.
  set (s1 := final close_local (cli a)).
  assert (Hl : local_open s1 = false).
  { unfold s1, close_local, final. rewrite gets_bind. by destruct (local_open (cli a)) eqn:E. }
  exists (final (on_close e) s1). split_and!; [done | apply close_stops |].
  pose proof ((frame_on_close same_local) e s1) as H. unfold same_local in H. congruence.
Qed.

Lemma close_both_inv e a : fwd_inv (final (close_both e) a).
Proof. destruct (close_both_final e a) as (s & -> & Hr & Hl). split; simpl; intros; (done || congruence). Qed.

Lemma final_cancel_grace {X} (m : M app_conn aevent X) a :
  final (cancel_grace ;;; m) a = final m (set_grace_armed false a).
Proof. by rewrite final_bind. Qed.

Lemma read_inv a : fwd_inv a -> fwd_inv (final forward_read a).
Proof. apply inv_decays, frame_read_some; apply _. Qed.

Lemma server_fin_inv e a : fwd_inv a -> fwd_inv (final (handle_server_fin e) a).
Proof.
  intros [C B G]. unfold handle_server_fin. rewrite final_modify, final_cancel_grace, final_gets. simpl.
  destruct (app_eof a) eqn:He; [apply close_both_inv|]. rewrite final_bind. apply read_inv, inv_decays; [by intros ?|].
  split; simpl; [done | congruence | congruence].
Qed.

Lemma forward_inv e a : fwd_inv a -> fwd_inv (final (forward_kcp_to_client e) a).
Proof.
  intros Hi. unfold forward_kcp_to_client. rewrite final_gets. unfold id.
  destruct (_ && _); [by apply server_fin_inv | by apply read_inv].
Qed.

Lemma grace_inv e g a : fwd_inv a -> fwd_inv (final (arm_half_close_grace e g) a).
Proof.
  intros [C B G]. unfold arm_half_close_grace. rewrite !final_modify, final_gets. simpl.
  destruct (peer_fin a) eqn:Hf; [apply close_both_inv|].
  rewrite final_bind, on_cli_final, final_modify. set (s := final (send_fin e) _).
  destruct (frame_send_fin decays e (cli a)) as [R _]. change (final (send_fin e) (cli a)) with s in R.
  split; simpl; [|congruence | done].
  intros Hr. destruct (R Hr) as [Hr' ->]. by apply C.
Qed.

Lemma check_inv e g a : fwd_inv a -> fwd_inv (final (on_half_close_check e g) a).
Proof.
  intros [C B G]. unfold on_half_close_check. rewrite final_gets, final_modify. unfold id.
  destruct (app_eof a) eqn:He; cbn [negb]; [|split; simpl; try done; congruence].
  destruct (is_connected (cli a)) eqn:Hc; cbn [negb].
  - destruct (_ <? _); [|apply close_both_inv]. rewrite final_modify. split; simpl; auto.
  - assert (Hr : running (cli a) = false).
    { apply not_true_is_false. intros H. unfold is_connected in Hc. by rewrite H, (C H) in Hc. }
    split; simpl; [done | auto | congruence].
Qed.

Lemma fwd_step_inv g h a : fwd_inv a -> fwd_inv (final (fwd_happen g h) a).
Proof.
  intros Hi. destruct h; simpl.
  - unfold on_kcp_read. case_bool_decide; [by apply server_fin_inv|].
    destruct (_ || _); [rewrite final_cancel_grace; apply close_both_inv|].
    rewrite final_modify, final_gets, final_bind. simpl. destruct Hi as [C B G].
    unfold final. destruct (app_eof a) eqn:He; split; simpl; rewrite ?He; auto.
  - unfold on_data_written. destruct (ec_failed ec); [rewrite final_cancel_grace; apply close_both_inv|].
    by apply forward_inv.
  - unfold on_app_read. case_bool_decide; [by apply grace_inv|].
    destruct (_ || _); [|rewrite final_modify]; rewrite final_bind.
    + apply inv_decays; [apply decays_close_local|]. by apply inv_decays; [apply (frame_on_close decays)|].
    + destruct Hi as [C B G]. apply inv_decays; [apply decays_forward|]. apply inv_decays; [apply frame_send_data; apply _ | done].
  - by apply check_inv.
  - by apply inv_decays; [apply decays_received|].
  - apply inv_decays; [|done]. unfold on_receive_backoff, do_udp_receive. frame_walk.
  - by apply inv_decays; [apply decays_tick|].
  - by apply inv_decays; [apply (frame_on_close decays)|].
Qed.

(** C16: a half-closed tunnel never leaks. Through any forwarding reads and
    writes, end-of-file and FIN in either order, datagrams, ticks, errors and
    timer expiries: once both directions are finished the application's socket
    and the session are both closed, and as long as only the application has
    finished and the session is up, the grace timer that bounds the wait is
    armed. *)
Theorem half_close_bounded (grace_sec : Z) (hs : list fwd_happening) (a : app_conn) :
  is_connected (cli a) = true -> app_eof a = false ->
  let a' := final (fwd_happen_all grace_sec hs) a in
  (app_eof a' = true -> peer_fin a' = true -> running (cli a') = false /\ local_open (cli a') = false) /\
  (app_eof a' = true -> is_connected (cli a') = true -> grace_armed a' = true).
Proof.
  intros Hc He a'. assert (Hi : fwd_inv a').
  { unfold a', fwd_happen_all. assert (Hi : fwd_inv a).
    { unfold is_connected in Hc. apply andb_true_iff in Hc as [Hc _]. split; [done | congruence | congruence]. }
    clear Hc He a'. revert a Hi. induction hs as [|h hs IH]; intros a Hi; [done|].
    cbn [efor]. rewrite final_bind. apply IH. by apply fwd_step_inv. }
  destruct Hi as [C B G]. split; [done|]. intros H1 H2. apply G; [done|].
  unfold is_connected in H2. by apply andb_true_iff in H2 as [_ H2].
Qed.

(** The grace is exact. When the timer of a half-closed, connected tunnel
    fires, the tunnel is reclaimed (both ends closed) exactly when no payload
    reached it from the target for the whole grace; otherwise nothing is
    touched and the timer is armed again for exactly the rest, so that it fires
    next at the last payload's time plus the grace. *)
Theorem half_close_grace_exact (e : tenv) (grace_sec : Z) (a : app_conn) :
  app_eof a = true -> is_connected (cli a) = true ->
  let m := on_half_close_check e grace_sec in
  let due := last_progress_us a + grace_sec * 1000000 in
  (due <= now_us e -> running (cli (final m a)) = false /\ local_open (cli (final m a)) = false) /\
  (now_us e < due ->
   cli (final m a) = cli a /\ grace_armed (final m a) = true /\ trace m a = [GraceArmed (due - now_us e)]).
Proof.
  intros He Hc m due. unfold m, on_half_close_check. split; intros Hd.
  - rewrite final_gets, final_modify. unfold id. rewrite He, Hc. cbn [negb].
    rewrite (proj2 (Z.ltb_ge _ _)) by lia.
    destruct (close_both_final e (set_grace_armed false a)) as (s & -> & Hr & Hl). by split.
  - unfold trace, final. rewrite gets_bind, modify_bind. unfold id. rewrite He, Hc. cbn [negb].
    rewrite (proj2 (Z.ltb_lt _ _)) by lia. cbn. split_and!; [done | done |].
    do 2 f_equal. unfold due. lia.
Qed.
End HalfClose.

(** ** The session cap *)

Section Cap.
Context {I : AsioIp} {A : Crypto.Aead} {K : Kcp} {F : FecCodec}.

(** A connection is accepted, or a session is destroyed. *)
Inductive cap_op : Type :=
| Accepted (e : tenv) (setup : exn_result client_session) (sock : socket_setup)
| Destroyed.

(** The counter and the number of sessions alive. *)
Definition cap_step (st : Z * nat) (op : cap_op) : Z * nat :=
  match op, st.2 with
  | Accepted e setup sock, live =>
      let '(active, conn, _) := handle_client_connection e setup sock st.1 in
      (active, match conn with Some _ => S live | None => live end)
  | Destroyed, S n => (return_ticket st.1, n)
  | Destroyed, O => st
  end.

(** However connections come, fail and go, the counter is the number of live
    sessions and never exceeds the cap. *)
Lemma session_cap_holds (ops : list cap_op) :
  let '(active, live) := fold_left cap_step ops (0, 0%nat) in
  active = Z.of_nat live /\ Z.of_nat live <= MAX_CLIENT_SESSIONS.
Proof.
  enough (H : forall st : Z * nat, st.1 = Z.of_nat st.2 /\ Z.of_nat st.2 <= MAX_CLIENT_SESSIONS ->
    let '(active, live) := fold_left cap_step ops st in
    active = Z.of_nat live /\ Z.of_nat live <= MAX_CLIENT_SESSIONS) by (by apply H).
  induction ops as [|op ops IH]; intros [active live] [Ha Hl]; simpl in *; [done|].
  apply IH. destruct op as [e setup sock|]; cbn [cap_step fst snd].
  - unfold handle_client_connection, take_ticket.
    destruct (Z.leb_spec MAX_CLIENT_SESSIONS active); cbn [negb]; [done|].
    destruct setup; unfold return_ticket; cbn [fst snd]; lia.
  - destruct live; unfold return_ticket; cbn [fst snd]; lia.
Qed.

(** The drain is bounded, whatever the application keeps sending. *)
Lemma drain_bounded (answers : list (option Z * option Z)) :
  drain_loop 64 answers 0 <= 64 * 512.
Proof.
  enough (H : forall g l d, drain_loop g l d <= d + Z.of_nat g * 512) by apply (H 64%nat answers 0).
  induction g as [|g IH]; intros l d; [simpl; lia|].
  destruct l as [|[[avail|] [got|]] l]; simpl; try lia. repeat case_bool; try lia.
  etransitivity; [apply IH|]. lia.
Qed.
End Cap.

(** ** A connection *)

Module AppExample.
Import SessionProofs.SessionExample ClientSessionProofs.ClientExample.
#[local] Existing Instance TextIp.text_ip.
#[local] Existing Instance TextIp.text_ip_laws.
#[local] Existing Instance Crypto.ToyAead.toy.
#[local] Existing Instance Crypto.ToyAead.toy_laws.
#[local] Existing Instance Loopback.loopback.
#[local] Existing Instance Loopback.plain_codec.

(** The session of [ClientExample], handshaken, waiting for the reply. *)
Definition a0 : app_conn := new_app c2.

Definition reply_bytes : list Z := [5; 0; 0; 1; 10; 0; 0; 7; 1; 187].

Lemma reply_survives_chunking_witness :
  app_writes (trace (efor (on_reply_read (env_at 102) ec_none) ([[5; 0]; [0; 1; 10; 0; 0]] ++ [[7; 1; 187; 72; 105]])) a0)
  = [(ReplyForwarded, [5; 0; 0; 1; 0; 0; 0; 0; 0; 0] ++ [72; 105])].
Proof.
  apply (reply_survives_chunking (env_at 102) (mkResponse 0 (bytes_of_string "10.0.0.7") 443) reply_bytes
           [72; 105] [5; 0; 0; 1; 0; 0; 0; 0; 0; 0] [[5; 0]; [0; 1; 10; 0; 0]] [7; 1; 187; 72; 105] a0);
    try reflexivity; try (vm_compute; (done || lia)); try (unfold is_u16; simpl; lia).
  repeat (apply List.Forall_cons; [done|]). apply List.Forall_nil.
Defined.

(** A version-4 greeting: refused, then the refusal's write settles. *)
Lemma handshake_one_outcome_witness :
  let hs := [AConnected (env_at 102) true; AGreetHeader (env_at 102) ec_none [4; 1]; ARejected (env_at 102);
             ADeadline (env_at 131) ec_none] in
  local_open (cli (final (app_happen_all hs) a0)) = false /\ running (cli (final (app_happen_all hs) a0)) = false.
Proof.
  intros hs. destruct (handshake_one_outcome hs a0) as [H1 H2 H3|d H1 H2 H3|H1 H2 H3 H4]; [by vm_compute| | |].
  - vm_compute in H1. discriminate H1.
  - vm_compute in H2. discriminate H2.
  - by split.
Defined.

Lemma half_close_bounded_witness :
  grace_armed (final (fwd_happen_all 120 [FAppRead (env_at 110) ec_eof []; FTick (env_at 111)]) a0) = true.
Proof.
  apply (half_close_bounded 120 [FAppRead (env_at 110) ec_eof []; FTick (env_at 111)] a0); by vm_compute.
Defined.

Lemma half_close_grace_exact_witness :
  let a := set_app_eof true (set_last_progress_us 110000000 a0) in
  trace (on_half_close_check (env_at 115) 120) a = [GraceArmed 115000000] /\
  running (cli (final (on_half_close_check (env_at 230) 120) a)) = false.
Proof.
  intros a. split.
  - refine (proj2 (proj2 (proj2 (half_close_grace_exact (env_at 115) 120 a _ _) _))); by vm_compute.
  - refine (proj1 (proj1 (half_close_grace_exact (env_at 230) 120 a _ _) _)); by vm_compute.
Defined.
End AppExample.
