(* ===== verification/Relay.v ===== *)
(** * Relay: one connection of the proxy, from socket to socket

    Composes the per-connection handlers of the client ([Client]) and of the
    server ([Connection]) into two event loops over the linked sessions. Each
    loop keeps what it has started and not yet seen complete: the tunnel reads
    whose completion is posted on the session's strand (delivered in order),
    and the socket, resolver and timer operations. A completion is delivered
    only for an operation that was started; ticks, packets, timers and closings
    come at any time. *)

From Stdlib Require Import ZArith Lia.
From stdpp Require Import base list strings.
From S2P Require Import Prelude Config Asio Address Socks5 Allowlist Effects Kcp Tunnel TunnelProofs Flow.
From S2P Require Import Session ClientSession Calm Link Connection ConnectionProofs Client.
From S2P Require Crypto.

#[export] Instance read_stage_eq_dec : EqDecision read_stage.
Proof. solve_decision. Defined.
#[export] Instance write_stage_eq_dec : EqDecision write_stage.
Proof. solve_decision. Defined.

(** The tunnel reads that completed and were not dispatched yet. *)
Abbreviation posted := (list (Z * error_code * list Z)).

(** Take the next one, if it is this. *)
Definition next_read (r : Z * error_code * list Z) (q : posted) : option posted :=
  match q with x :: q' => if bool_decide (x = r) then Some q' else None | [] => None end.

(** ** What holds after an operation of a loop

    The queue of posted reads and the operations outstanding grow by what the
    operation's trace shows; [evs] and [started] read the trace. *)
Section After.
Context {C E O : Type} (evs : list E -> list event) (started : list E -> list O).

Definition after {X} (P : C -> posted -> list O -> Prop) (m : M C E X) (c : C) (q : posted) (ops : list O) : Prop :=
  P (final m c) (q ++ reads_done (evs (trace m c))) (ops ++ started (trace m c)).

Class LoopTrace : Prop := {
  evs_nil : evs [] = [];
  evs_app e1 e2 : evs (e1 ++ e2) = evs e1 ++ evs e2;
  started_nil : started [] = [];
  started_app e1 e2 : started (e1 ++ e2) = started e1 ++ started e2 }.
Context {LT : LoopTrace}.

Lemma after_bind {X Y} P (m : M C E X) (k : X -> M C E Y) c q ops :
  after (after P (k (result m c))) m c q ops -> after P (ebind m k) c q ops.
Proof. unfold after. by rewrite final_bind, trace_bind, evs_app, reads_done_app, started_app, !app_assoc. Qed.

Lemma after_ret {X} (P : C -> posted -> list O -> Prop) (x : X) c q ops : P c q ops -> after P (eret x) c q ops.
Proof. unfold after, final, trace, eret. simpl. by rewrite evs_nil, started_nil, !app_nil_r. Qed.

Lemma after_gets {X Y} P (f : C -> X) (k : X -> M C E Y) c q ops :
  after P (k (f c)) c q ops -> after P (ebind (egets f) k) c q ops.
Proof. unfold after. by rewrite final_gets, trace_gets. Qed.

Lemma after_modify {X} P f (k : M C E X) c q ops : after P k (f c) q ops -> after P (emodify f ;;; k) c q ops.
Proof. unfold after. by rewrite final_modify, trace_modify. Qed.

Lemma after_impl {X} (P Q : C -> posted -> list O -> Prop) (m : M C E X) c q ops :
  (forall c q ops, P c q ops -> Q c q ops) -> after P m c q ops -> after Q m c q ops.
Proof. unfold after. auto. Qed.

Lemma after_emit (P : C -> posted -> list O -> Prop) x c q ops :
  evs [x] = [] -> P c q (ops ++ started [x]) -> after P (emit x) c q ops.
Proof.
  intros Hx. change (after P (emit x) c q ops) with (P c (q ++ reads_done (evs [x])) (ops ++ started [x])).
  rewrite Hx. simpl. by rewrite app_nil_r.
Qed.
End After.

(** ** The server's loop *)

(** The operations of [KCPServer] for one session that complete later. *)
Inductive sop : Type := OResolve | OConnect | OInitial | OPull | OWrite | ODeadline.
#[export] Instance sop_eq_dec : EqDecision sop.
Proof. solve_decision. Defined.

Definition ses_events (ev : list cevent) : list event :=
  omap (fun x => match x with Ses y => Some y | _ => None end) ev.

Definition s_started (ev : list cevent) : list sop :=
  omap (fun x => match x with
                 | DeadlineArmed => Some ODeadline
                 | ResolveStart _ _ => Some OResolve
                 | ConnectStart _ _ _ => Some OConnect
                 | InitialWrite _ => Some OInitial
                 | Ses TargetRead => Some OPull
                 | Ses (TargetWrite _) => Some OWrite
                 | _ => None end) ev.

(** What was written to the target, write by write. *)
Definition to_target (ev : list cevent) : list (list Z) :=
  omap (fun x => match x with
                 | InitialWrite p => Some p
                 | Ses (TargetWrite d) => Some d
                 | _ => None end) ev.

(** The data of the reads dispatched so far, and of the target's reads. *)
Definition s_got (hs : list happening) : list (list Z) :=
  omap (fun h => match h with
                 | HReadComplete _ ec d => if bool_decide (ec = ec_none) then Some d else None
                 | _ => None end) hs.
Definition from_target (hs : list happening) : list (list Z) :=
  omap (fun h => match h with
                 | HTargetRead ec d => if ec_failed ec || bool_decide (d = []) then None else Some d
                 | _ => None end) hs.

(** A datagram, a tick, a replacement and a stop come unasked; the first
    datagram is part of the session's creation. *)
Definition s_take (h : happening) (q : posted) (ops : list sop) : option (posted * list sop) :=
  match h with
  | HFirst _ => None
  | HDatagram _ | HTick | HReplaced | HStop => Some (q, ops)
  | HReadComplete hd ec d => (fun q' => (q', ops)) <$> next_read (hd, ec, d) q
  | HDeadline _ => (fun o => (q, o)) <$> take_one ODeadline ops
  | HResolved _ _ => (fun o => (q, o)) <$> take_one OResolve ops
  | HConnected _ _ => (fun o => (q, o)) <$> take_one OConnect ops
  | HInitialWritten _ => (fun o => (q, o)) <$> take_one OInitial ops
  | HTargetRead _ _ => (fun o => (q, o)) <$> take_one OPull ops
  | HTargetWritten _ => (fun o => (q, o)) <$> take_one OWrite ops
  end.

(** The address a connected socket reports is a well-formed endpoint. *)
Definition endpoint_ok (h : happening) : Prop :=
  match h with HConnected _ (Some (a, p)) => ip_wf a /\ is_u16 p | _ => True end.

Section ServerLoop.
Context {I : AsioIp} {A : Crypto.Aead} {K : Kcp} {F : FecCodec}.

(** The connection, its whole trace, what is outstanding, what was delivered. *)
Record srun := mkSrun {
  s_conn : conn;
  s_ev : list cevent;
  s_posted : posted;
  s_ops : list sop;
  s_in : list happening }.

Definition s_next (e : cenv) (h : happening) (r : srun) (q : posted) (ops : list sop) : srun :=
  let ev := trace (happen e h) (s_conn r) in
  mkSrun (final (happen e h) (s_conn r)) (s_ev r ++ ev)
    (q ++ reads_done (ses_events ev)) (ops ++ s_started ev) (s_in r ++ [h]).

Definition s_step (e : cenv) (h : happening) (r : srun) : option srun :=
  (fun '(q, ops) => s_next e h r q ops) <$> s_take h (s_posted r) (s_ops r).

(** A fresh session and the datagram it was made for. *)
Definition new_conn (s : session) : conn := mkConn s [] None [] false.
Definition s_start (e : cenv) (plain : list Z) (s : session) : srun :=
  let ev := trace (on_first_datagram e plain) (new_conn s) in
  mkSrun (final (on_first_datagram e plain) (new_conn s)) ev
    (reads_done (ses_events ev)) (s_started ev) [].
End ServerLoop.

(** ** The client's loop *)

(** The operations of [KCPProxyClient] for one connection that complete later. *)
Inductive aop : Type :=
| OConnected (ok : bool)
| OAppRead (st : read_stage) (n : nat)
| OAppWrite (st : write_stage)
| OLocalRead.
#[export] Instance aop_eq_dec : EqDecision aop.
Proof. solve_decision. Defined.

Definition cli_events (ev : list aevent) : list event :=
  omap (fun x => match x with Cli y => Some y | _ => None end) ev.

Definition a_started (ev : list aevent) : list aop :=
  omap (fun x => match x with
                 | Cli (ConnectDone ok) => Some (OConnected ok)
                 | AppRead st n => Some (OAppRead st n)
                 | AppWrite st _ => Some (OAppWrite st)
                 | Cli LocalRead => Some OLocalRead
                 | _ => None end) ev.

(** The stream the application is sent once its request succeeded: the
    success reply, then the data forwarded. The method selection and the error
    replies, which the client writes on its own account during the SOCKS5
    handshake, are not part of it. *)
Definition to_app (ev : list aevent) : list (list Z) :=
  omap (fun x => match x with
                 | AppWrite ReplyForwarded d => Some d
                 | AppWrite DataForwarded d => Some d
                 | _ => None end) ev.

(** The completions a connection of the client gets. *)
Inductive app_input : Type :=
| IPacket (e : tenv) (ec : error_code) (packet : list Z)
| IBackoff (ec : error_code)
| ITick (e : tenv)
| IShutDown (e : tenv)
| IConnectTimer (e : tenv) (ec : error_code)
| IReadDone (e : tenv) (handler : Z) (ec : error_code) (data : list Z)
| IConnected (e : tenv) (ok : bool)
| IAppRead (e : tenv) (st : read_stage) (n : nat) (ec : error_code) (buf : list Z)
| IAppWritten (e : tenv) (st : write_stage) (ec : error_code)
| ILocalRead (e : tenv) (ec : error_code) (data : list Z)
| IDeadline (e : tenv) (ec : error_code)
| IWatchdog (e : tenv) (ec : error_code)
| IGrace (e : tenv)
| IClose (e : tenv).

Definition a_got (ins : list app_input) : list (list Z) :=
  omap (fun i => match i with
                 | IReadDone _ _ ec d => if bool_decide (ec = ec_none) then Some d else None
                 | _ => None end) ins.
Definition from_app (ins : list app_input) : list (list Z) :=
  omap (fun i => match i with
                 | ILocalRead _ ec d => if ec_failed ec || bool_decide (d = []) then None else Some d
                 | _ => None end) ins.

Definition a_take (i : app_input) (q : posted) (ops : list aop) : option (posted * list aop) :=
  match i with
  | IReadDone _ hd ec d => (fun q' => (q', ops)) <$> next_read (hd, ec, d) q
  | IConnected _ ok => (fun o => (q, o)) <$> take_one (OConnected ok) ops
  | IAppRead _ st n _ _ => (fun o => (q, o)) <$> take_one (OAppRead st n) ops
  | IAppWritten _ st _ => (fun o => (q, o)) <$> take_one (OAppWrite st) ops
  | ILocalRead _ _ _ => (fun o => (q, o)) <$> take_one OLocalRead ops
  | _ => Some (q, ops)
  end.

(** [asio::async_read] succeeds with exactly the bytes it was asked for. *)
Definition buffer_ok (i : app_input) : Prop :=
  match i with
  | IAppRead _ _ n ec buf => ec_failed ec = false -> length buf = n /\ bytes_ok buf
  | _ => True
  end.

Section ClientLoop.
Context {I : AsioIp} {A : Crypto.Aead} {K : Kcp} {F : FecCodec}.

(** The completion of a tunnel read goes to the handler it was registered with. *)
Definition app_read_complete (e : tenv) (handler : Z) (ec : error_code) (data : list Z) : M app_conn aevent unit :=
  if handler =? H_ACK then on_cli (on_ack e ec data)
  else if handler =? H_REPLY then on_reply_read e ec data
  else on_kcp_read e ec data.

Definition app_run (grace_sec : Z) (i : app_input) : M app_conn aevent unit :=
  match i with
  | IPacket e ec p => on_cli (on_udp_receive e ec p)
  | IBackoff ec => on_cli (on_receive_backoff ec)
  | ITick e => on_cli (client_update_tick e)
  | IShutDown e => on_cli (shut_down e)
  | IConnectTimer e ec => on_cli (on_connect_timer e ec)
  | IReadDone e h ec d => app_read_complete e h ec d
  | IConnected e ok => on_kcp_connected e ok
  | IAppRead e GreetHeader _ ec b => on_greet_header e ec b
  | IAppRead e GreetMethods _ ec b => on_greet_methods e ec b
  | IAppRead e RequestHeader _ ec b => on_request_header e ec b
  | IAppRead e (RequestAddress cmd atyp) _ ec b => on_request_address e cmd atyp ec b
  | IAppRead e (RequestDomain cmd dlen) _ ec b => on_request_domain e cmd dlen ec b
  | IAppWritten e ThenAbort _ => abort_handshake e
  | IAppWritten e ThenClose _ => eret tt
  | IAppWritten e (MethodSelected offered) ec => on_method_written e ec offered
  | IAppWritten e ReplyForwarded ec => on_reply_written e ec
  | IAppWritten e DataForwarded ec => on_data_written e ec
  | ILocalRead e ec d => on_app_read e grace_sec ec d
  | IDeadline e ec => on_handshake_deadline e ec
  | IWatchdog e ec => on_watchdog e ec
  | IGrace e => on_half_close_check e grace_sec
  | IClose e => on_cli (on_close e)
  end.

Record arun := mkArun {
  a_app : app_conn;
  a_ev : list aevent;
  a_posted : posted;
  a_ops : list aop;
  a_in : list app_input }.

Definition a_next (grace_sec : Z) (i : app_input) (r : arun) (q : posted) (ops : list aop) : arun :=
  let ev := trace (app_run grace_sec i) (a_app r) in
  mkArun (final (app_run grace_sec i) (a_app r)) (a_ev r ++ ev)
    (q ++ reads_done (cli_events ev)) (ops ++ a_started ev) (a_in r ++ [i]).

Definition a_step (grace_sec : Z) (i : app_input) (r : arun) : option arun :=
  (fun '(q, ops) => a_next grace_sec i r q ops) <$> a_take i (a_posted r) (a_ops r).

(** The part of [handle_client_connection] that starts the session. *)
Definition a_start (e : tenv) (setup : socket_setup) (s : client_session) : arun :=
  let m := emit HandshakeDeadlineArmed ;;; on_cli (on_connect e setup) in
  let ev := trace m (new_app s) in
  mkArun (final m (new_app s)) ev (reads_done (cli_events ev)) (a_started ev) [].
End ClientLoop.

(** ** Both loops and the network *)

Section Relayed.
Context {I : AsioIp} {A : Crypto.Aead} {K : Kcp} {F : FecCodec}.
Context (psk salt : list Z) (fec : FecConfig).

Record relay := mkRelay { r_app : arun; r_srv : option srun }.

(** The sessions and their traces. *)
Definition relay_world (w : relay) : world :=
  mkWorld (cli (a_app (r_app w))) (cli_events (a_ev (r_app w)))
    ((fun r => ses (s_conn r)) <$> r_srv w)
    (match r_srv w with Some r => ses_events (s_ev r) | None => [] end).

(** The life of a connection, as in [linked]. *)
Inductive relayed : relay -> Prop :=
| relayed_connect f crypto e0 s0 e setup :
    length salt = SESSION_SALT_SIZE ->
    Crypto.Crypto_new f psk NONCE_DIR_CLIENT salt false = Ret crypto ->
    tuning_legal (e_tuning e0) -> new_client e0 KCP_CONV crypto fec = Ret s0 ->
    relayed (mkRelay (a_start e setup s0) None)
| relayed_client w grace_sec i r :
    relayed w -> a_step grace_sec i (r_app w) = Some r -> buffer_ok i ->
    match i with
    | IPacket _ _ p => intact psk salt NONCE_DIR_SERVER (on_wire (w_sev (relay_world w))) p
    | _ => True
    end ->
    relayed (mkRelay r (r_srv w))
| relayed_accept w f p crypto plain e s :
    relayed w -> r_srv w = None ->
    Crypto.decrypt_impl f p [] (Crypto.fresh psk NONCE_DIR_SERVER true) = (crypto, plain, ec_none) ->
    Crypto.pkt_salt p = salt ->
    intact psk salt NONCE_DIR_CLIENT (on_wire (w_cev (relay_world w))) p ->
    tuning_legal (e_tuning (c_env e)) -> new_session (c_env e) KCP_CONV crypto fec = Ret s ->
    relayed (mkRelay (r_app w) (Some (s_start e plain s)))
| relayed_server w s e h r :
    relayed w -> r_srv w = Some s -> s_step e h s = Some r -> endpoint_ok h ->
    match h with
    | HDatagram p => intact psk salt NONCE_DIR_CLIENT (on_wire (w_cev (relay_world w))) p
    | _ => True
    end ->
    relayed (mkRelay (r_app w) (Some r)).
End Relayed.
