(* ===== verification/RelayServer.v ===== *)
(** * RelayServer: the server's half of the relay

    An invariant of the server's loop of [Relay], for a client that speaks the
    protocol: the handshake, one CONNECT request, then data. The phases of a
    session are told apart, with which handler a tunnel read may belong to in
    each; it follows that every message reaches the handler it was meant for,
    so what is written to the target is the data, in order, and what is said
    to the client is the acknowledgement, one verdict and the target's data. *)

From Stdlib Require Import ZArith Lia.
From stdpp Require Import base list strings.
From S2P Require Import Prelude Config Asio Address Socks5 Allowlist Effects Kcp Tunnel TunnelProofs Flow.
From S2P Require Import Session SessionProofs Calm Link Connection ConnectionProofs Relay.
From S2P Require Crypto.

(** ** Bookkeeping of reads and operations *)

Lemma ses_events_app e1 e2 : ses_events (e1 ++ e2) = ses_events e1 ++ ses_events e2.
Proof. apply omap_app. Qed.
Lemma s_started_app e1 e2 : s_started (e1 ++ e2) = s_started e1 ++ s_started e2.
Proof. apply omap_app. Qed.
Lemma to_target_app e1 e2 : to_target (e1 ++ e2) = to_target e1 ++ to_target e2.
Proof. apply omap_app. Qed.
Lemma ses_events_ses ev : ses_events (Ses <$> ev) = ev.
Proof. induction ev as [|x ev IH]; [done|]. rewrite fmap_cons. exact (f_equal (cons x) IH). Qed.
Lemma s_got_app h1 h2 : s_got (h1 ++ h2) = s_got h1 ++ s_got h2.
Proof. apply omap_app. Qed.
Lemma from_target_app h1 h2 : from_target (h1 ++ h2) = from_target h1 ++ from_target h2.
Proof. apply omap_app. Qed.

#[export] Instance server_trace : LoopTrace ses_events s_started.
Proof. split; [done | apply ses_events_app | done | apply s_started_app]. Qed.

Abbreviation after := (Relay.after ses_events s_started).
Abbreviation after_bind := (Relay.after_bind ses_events s_started).
Abbreviation after_ret := (Relay.after_ret ses_events s_started).

(** The handlers of posted completions, and the completions that carry data. *)
Definition tags (q : posted) : list Z := (fun r => r.1.1) <$> q.
Definition good (q : posted) : posted := filter (fun r => r.1.2 = ec_none) q.

Lemma tags_app q1 q2 : tags (q1 ++ q2) = tags q1 ++ tags q2.
Proof. apply fmap_app. Qed.
Lemma good_app q1 q2 : good (q1 ++ q2) = good q1 ++ good q2.
Proof. apply filter_app. Qed.
Lemma good_length q : (length (good q) <= length q)%nat.
Proof. apply length_filter. Qed.

(** The four phases of a session that serves a CONNECT. *)
Inductive phase : Type := PGreet | PRequest | PConnect | PForward.

(** Which handler a read belongs to, how many reads there may be, which
    operations may be outstanding. *)
Definition tag_of (p : phase) : Z :=
  match p with PGreet => H_PROTOCOL | PRequest => H_SOCKS5 | _ => H_FORWARD end.
Definition capped (p : phase) (n : nat) : Prop :=
  match p with PGreet | PRequest => (n <= 1)%nat | PConnect => n = 0%nat | PForward => True end.
Definition op_in (p : phase) (o : sop) : Prop :=
  match p, o with
  | PConnect, (OResolve | OConnect | ODeadline) => True
  | PForward, (OResolve | OConnect | ODeadline | OPull | OWrite) => True
  | _, _ => False
  end.
Definition strict (p : phase) : bool := match p with PForward => false | _ => true end.

Lemma capped_le p n m : capped p n -> (m <= n)%nat -> capped p m.
Proof. destruct p; simpl; lia. Qed.

Definition not_target_write (x : event) : Prop := match x with TargetWrite _ => False | _ => True end.

Section Core.
Context {I : AsioIp} {IL : AsioIpLaws I} {A : Crypto.Aead} {K : Kcp} {F : FecCodec}.

(** ** Steps that stay in a phase *)

Record sdrift (b : bool) (s : session) (ev : list event) (s' : session) : Prop := {
  sd_still : still b s ev s';
  sd_read : read_step (base s) ev (base s');
  sd_hs : handshake_done (base s') = handshake_done (base s);
  sd_flags : flags_kept s ev s';
  sd_writes : Forall not_target_write ev }.

#[export] Instance sdrift_comp b : Compositional (sdrift b).
Proof.
  split; [intros s; split; try apply comp_refl; done|].
  intros s1 s2 s3 e1 e2 [S1 R1 H1 F1 W1] [S2 R2 H2 F2 W2].
  split; [by eapply comp_trans | by eapply (comp_trans (R := read_step)) | congruence | by eapply comp_trans
         | by apply Forall_app].
Qed.

Lemma sdrift_book {X} b (m : M session event X) :
  keeps (calm b) m -> keeps flags_kept m -> keeps (on_st tun_book) m -> keeps (sdrift b) m.
Proof.
  intros Hc Hf Ht s. pose proof (Hc s) as C. pose proof (Ht s) as T.
  split; [by apply calm_still | by apply tun_book_read, T | by apply tun_book_clock in T | apply Hf |].
  eapply List.Forall_impl; [|apply (cm_relay _ _ _ _ C)]. intros []; simpl; tauto.
Qed.

Lemma sdrift_calm {X} b (m : M session event X) :
  keeps (calm b) m -> keeps flags_kept m -> keeps (on_st tun_step) m -> keeps (sdrift b) m.
Proof. intros Hc Hf Ht. apply sdrift_book; [done | done|]. intros s. apply tun_step_book, Ht. Qed.

Lemma still_weaken b (s : session) ev s' : still true s ev s' -> still b s ev s'.
Proof. intros [H1 H2 H3 H4]. split; auto. Qed.

Lemma sdrift_send b e d : keeps (sdrift b) (send_data e d).
Proof.
  intros s. destruct (send_offers e d s) as (H1 & H2 & _ & _).
  pose proof (send_data_step (St := session) e d s) as T.
  split; [by apply still_weaken | by apply tun_step_read, T | by destruct T as [_ _ _ _ _ [_ ?]]
         | apply (frame_send_data flags_kept) | done].
Qed.

Lemma sdrift_emit b x :
  ~ is_pull x -> not_target_write x -> reads_done [x] = [] -> keeps (sdrift b) (emit x).
Proof.
  intros H1 H2 H3 s. unfold trace, final, emit. split; simpl.
  - split; simpl; intros; try congruence; auto.
  - by left.
  - done.
  - done.
  - by apply list.Forall_singleton.
Qed.

Lemma sdrift_own b (f : session -> session) :
  (forall s, base (f s) = base s /\ is_running (f s) = is_running s) -> keeps flags_kept (emodify f) ->
  keeps (sdrift b) (emodify f).
Proof.
  intros Hf Hk. pose proof (calm_own b f Hf) as Hc. intros s. destruct (Hf s) as [H1 _].
  split; [apply calm_still, Hc | | | apply Hk | constructor]; unfold trace, final, emodify; simpl; rewrite H1; by try left.
Qed.

Lemma sdrift_stop b : keeps (sdrift b) stop.
Proof. apply sdrift_calm; [apply calm_stop | apply flags_stop | apply stop_step]. Qed.
Lemma sdrift_close b : keeps (sdrift b) close_connection.
Proof. apply sdrift_calm; [apply calm_close | apply flags_close | apply close_connection_step]. Qed.
Lemma sdrift_receive b e d : keeps (sdrift b) (on_receive e d).
Proof. apply sdrift_calm; [apply calm_receive | apply flags_receive | apply on_receive_step]. Qed.
Lemma sdrift_inject b e d : keeps (sdrift b) (on_inject_decrypted e d).
Proof. apply sdrift_calm; [apply calm_inject | apply flags_inject | apply on_inject_step]. Qed.
Lemma sdrift_tick b e : keeps (sdrift b) (on_update_tick e).
Proof. apply sdrift_calm; [apply calm_tick | apply flags_tick | apply on_update_tick_step]. Qed.
Lemma sdrift_target_closed b e : keeps (sdrift b) (handle_target_closed e).
Proof. apply sdrift_book; [apply calm_target_closed | apply flags_target_closed | apply handle_target_closed_step]. Qed.
Lemma sdrift_forward_tcp e : keeps (sdrift false) (forward_tcp_to_kcp e).
Proof. apply sdrift_calm; [apply calm_forward_tcp | apply flags_forward_tcp | apply forward_tcp_to_kcp_step]. Qed.

(** The claim of the forwarding loop is none of the flags that matter. *)
Lemma sdrift_forward_flag b (f : session -> session) :
  f = flag_off FORWARD_READ_PENDING \/ f = flag_on FORWARD_READ_PENDING -> keeps (sdrift b) (emodify f).
Proof.
  intros [-> | ->]; apply sdrift_own; intros s; unfold trace, final; simpl;
    try (split; [done|]); try split; intros; auto;
    unfold is_protocol_handshake_done, is_socks5_read_pending, is_connect_pending, is_running in *;
    first [apply flag_off_other; by vm_compute | apply flag_on_other; by vm_compute
          | by rewrite flag_off_other | by rewrite flag_on_other].
Qed.

(** The same for the connection. *)
Record drift (p : phase) (c : conn) (ev : list cevent) (c' : conn) : Prop := {
  dr_ses : sdrift (strict p) (ses c) (ses_events ev) (ses c');
  dr_ops : (strict p = true -> write_resume_cb (base (ses c)) = None) -> Forall (op_in p) (s_started ev);
  dr_target : to_target ev = [];
  dr_accum : accum c' = accum c;
  dr_attempt : request c' = request c /\ initial_payload c' = initial_payload c;
  dr_fired : fired c = true -> fired c' = true }.

#[export] Instance drift_comp p : Compositional (drift p).
Proof.
  split.
  - intros c. split; try done. apply comp_refl.
  - intros c1 c2 c3 e1 e2 [S1 O1 T1 A1 [Q1 I1] F1] [S2 O2 T2 A2 [Q2 I2] F2].
    split; rewrite ?ses_events_app, ?s_started_app, ?to_target_app, ?T1, ?T2; try congruence.
    + by eapply comp_trans.
    + intros Hp. apply Forall_app. split; [auto|]. apply O2. intros Hs.
      by apply (st_parked _ _ _ _ (sd_still _ _ _ _ S1)); auto.
    + done.
    + split; congruence.
    + auto.
Qed.

Lemma started_ses p ev :
  Forall not_target_write ev -> (strict p = true -> Forall (fun x => ~ is_pull x) ev) ->
  Forall (op_in p) (s_started (Ses <$> ev)).
Proof.
  intros Hw Hp. induction ev as [|x ev IH]; [done|]. apply list.Forall_cons in Hw as [Hx Hw].
  assert (IH1 : Forall (op_in p) (s_started (Ses <$> ev))).
  { apply IH; [done|]. intros Hs. specialize (Hp Hs). by apply list.Forall_cons in Hp as [_ ?]. }
  rewrite fmap_cons. change (s_started (Ses x :: ?l)) with (s_started ([Ses x] ++ l)). rewrite s_started_app.
  apply Forall_app. split; [|done]. destruct x; simpl in *; try done; constructor; try done.
  destruct p; simpl; try done; (specialize (Hp eq_refl); apply list.Forall_cons in Hp as [Hp _]; by apply Hp).
Qed.

Lemma to_target_ses ev : Forall not_target_write ev -> to_target (Ses <$> ev) = [].
Proof.
  induction 1 as [|x ev Hx _ IH]; [done|]. rewrite fmap_cons. unfold to_target in *. simpl. by destruct x.
Qed.

Lemma drift_ses {X} p (m : M session event X) : keeps (sdrift (strict p)) m -> keeps (drift p) (on_ses m).
Proof.
  intros Hm c. pose proof (Hm (ses c)) as S. unfold trace, final, on_ses in *.
  destruct (m (ses c)) as [[x s] ev]. simpl in *.
  split; simpl; rewrite ?ses_events_ses; try done.
  - intros Hu. apply started_ses; [apply (sd_writes _ _ _ _ S)|]. intros Hs.
    apply (st_parked _ _ _ _ (sd_still _ _ _ _ S) Hs), Hu, Hs.
  - by apply to_target_ses, (sd_writes _ _ _ _ S).
Qed.

Lemma drift_emit p x :
  ses_events [x] = [] -> to_target [x] = [] -> Forall (op_in p) (s_started [x]) -> keeps (drift p) (emit x).
Proof.
  intros H1 H2 H3 c. change (drift p c [x] c). split; try done. rewrite H1. apply comp_refl.
Qed.

Lemma drift_fired p : keeps (drift p) (emodify set_fired).
Proof. intros c. unfold trace, final. split; simpl; try done. apply comp_refl. Qed.

Ltac drifting :=
  repeat first [keeps_step | apply keeps_gets; apply _ | apply drift_fired | apply drift_emit; by repeat constructor
    | apply drift_ses].

Lemma drift_reply p e r h po : keeps (drift p) (send_socks5_reply e r h po).
Proof. unfold send_socks5_reply. drifting. apply sdrift_send. Qed.

Lemma drift_fail p e r : keeps (drift p) (fail_with e r).
Proof. unfold fail_with. drifting; [apply drift_reply | apply sdrift_close]. Qed.

(** ** The invariant of a phase *)

(** The handler of the read that is pending inside the tunnel. *)
Definition waiting (s : session) : list Z :=
  match pending_read_handler (base s) with Some h => [h] | None => [] end.

(** What the phase knows of the handlers' captures. *)
Definition holds (p : phase) (c : conn) : Prop :=
  match p with
  | PGreet | PRequest => accum c = []
  | PConnect => initial_payload c = []
  | PForward => fired c = true
  end.

(** Reads that may still bring data are the phase's; while the session runs,
    so are all that are outstanding, and a claim covers them. *)
Record core (p : phase) (c : conn) (q : posted) (ops : list sop) : Prop := {
  co_clean : is_running (ses c) = false -> pending_read_handler (base (ses c)) = None;
  co_proto : is_protocol_handshake_done (ses c) = match p with PGreet => false | _ => true end;
  co_hs : handshake_done (base (ses c)) = match p with PForward => true | _ => false end;
  co_parked : strict p = true -> write_resume_cb (base (ses c)) = None;
  co_holds : holds p c;
  co_ops : Forall (op_in p) ops;
  co_live : Forall (eq (tag_of p)) (waiting (ses c) ++ tags (good q)) /\
    capped p (length (waiting (ses c) ++ tags (good q)));
  co_run : is_running (ses c) = true ->
    Forall (eq (tag_of p)) (waiting (ses c) ++ tags q) /\
    capped p (length (waiting (ses c) ++ tags q)) /\
    match p with
    | PGreet | PRequest => is_socks5_read_pending (ses c) = false -> waiting (ses c) ++ tags q = []
    | PConnect => is_connect_pending (ses c) = true
    | PForward => True
    end }.

(** Completing a read moves it from the tunnel to the queue. *)
Lemma read_step_waiting s ev s' q :
  read_step (base s) ev (base s') ->
  waiting s' ++ tags (q ++ reads_done ev) ≡ₚ waiting s ++ tags q /\
  exists l, waiting s ++ tags (good q) ≡ₚ l ++ waiting s' ++ tags (good (q ++ reads_done ev)).
Proof.
  unfold waiting. intros [[-> ->]|(h & ec & d & -> & -> & ->)].
  - rewrite app_nil_r. split; [done | by exists []].
  - rewrite good_app, !tags_app. simpl. split; [rewrite Permutation_app_comm; done|].
    unfold good at 3. rewrite filter_cons, filter_nil. case_decide; simpl.
    + exists []. simpl. apply Permutation_cons_append.
    + exists [h]. by rewrite app_nil_r.
Qed.

Lemma capped_perm p (l1 l2 : list Z) : l1 ≡ₚ l2 -> capped p (length l2) -> capped p (length l1).
Proof. by intros ->. Qed.

Lemma drift_core p c ev c' q ops :
  core p c q ops -> drift p c ev c' ->
  core p c' (q ++ reads_done (ses_events ev)) (ops ++ s_started ev).
Proof.
  intros [C1 C2 C3 C4 Ch C5 [C6 C6'] C7] [[S R H Fl W] O T Hacc [_ Hini] Hfir].
  destruct (read_step_waiting _ _ _ q R) as [Hp [l Hl]].
  split.
  - intros Hr. destruct (is_running (ses c)) eqn:E.
    + by apply (st_settled _ _ _ _ S).
    + by apply (st_idle _ _ _ _ S), C1.
  - rewrite (fk_proto _ _ _ Fl). done.
  - by rewrite H.
  - intros Hs. by apply (st_parked _ _ _ _ S Hs), C4.
  - destruct p; simpl in *; [congruence | congruence | congruence | auto].
  - apply Forall_app. auto.
  - rewrite Hl in C6. apply Forall_app in C6 as [_ C6]. split; [done|].
    apply (capped_perm p _ _ (Permutation_sym Hl)) in C6'. eapply capped_le; [done|]. rewrite (length_app l). lia.
  - intros Hr. assert (Hr0 : is_running (ses c) = true).
    { destruct (is_running (ses c)) eqn:E; [done|]. by rewrite (fk_running _ _ _ Fl) in Hr. }
    destruct (C7 Hr0) as (D1 & D2 & D3). split_and!.
    + by rewrite Hp.
    + by eapply capped_perm.
    + destruct p; try done.
      * rewrite (fk_socks _ _ _ Fl Hr). intros Hf. apply Permutation_nil_r. by rewrite Hp, D3.
      * rewrite (fk_socks _ _ _ Fl Hr). intros Hf. apply Permutation_nil_r. by rewrite Hp, D3.
      * by rewrite (fk_connect _ _ _ Fl Hr).
Qed.

(** ** What holds after an operation *)

(** An update of the session's own members. *)
Lemma after_upd P f c q ops : P (set_ses (f (ses c)) c) q ops -> after P (upd_ses f) c q ops.
Proof. unfold Relay.after, final, trace, upd_ses, on_ses, emodify. simpl. by rewrite !app_nil_r. Qed.

Lemma after_drift {X} p (m : M conn cevent X) c q ops :
  keeps (drift p) m -> core p c q ops -> after (core p) m c q ops.
Proof. intros Hm Hc. by apply (drift_core p c _ _ q ops Hc), Hm. Qed.

Lemma core_take p c q ops o ops' : core p c q ops -> take_one o ops = Some ops' -> core p c q ops'.
Proof.
  intros [C1 C2 C3 C4 Ch C5 C6 C7] Ht. split; try done. apply take_one_perm in Ht. rewrite Ht in C5.
  by apply list.Forall_cons in C5 as [_ ?].
Qed.

Lemma core_ops_in p c q ops o ops' : core p c q ops -> take_one o ops = Some ops' -> op_in p o.
Proof.
  intros [_ _ _ _ _ C5 _ _] Ht. apply take_one_perm in Ht. rewrite Ht in C5. by apply list.Forall_cons in C5 as [? _].
Qed.

(** Dispatching the next completion. *)
Lemma core_next p c h ec d q ops :
  core p c ((h, ec, d) :: q) ops ->
  core p c q ops /\
  (ec = ec_none -> h = tag_of p /\ p <> PConnect /\ (p <> PForward -> waiting (ses c) ++ tags (good q) = [])) /\
  (is_running (ses c) = true -> h = tag_of p /\ p <> PConnect /\ (p <> PForward -> waiting (ses c) ++ tags q = [])).
Proof.
  intros [C1 C2 C3 C4 Ch C5 [C6 C6'] C7].
  assert (Hmid : forall l : list Z, waiting (ses c) ++ h :: l ≡ₚ h :: waiting (ses c) ++ l)
    by (intros l; by rewrite Permutation_middle).
  assert (Hone : forall l : list Z, capped p (length (waiting (ses c) ++ h :: l)) ->
    capped p (length (waiting (ses c) ++ l)) /\ p <> PConnect /\ (p <> PForward -> waiting (ses c) ++ l = [])).
  { intros l Hl. rewrite Hmid in Hl. split_and!.
    - eapply capped_le; [done|]. simpl. lia.
    - by intros ->.
    - intros Hp. apply nil_length_inv. destruct p; simpl in Hl; [lia | lia | lia | done]. }
  split_and!.
  - split; try done.
    + unfold good in *. rewrite filter_cons in C6, C6'. case_decide; simpl in C6, C6'; [|done].
      rewrite Hmid in C6. apply list.Forall_cons in C6 as [_ C6]. by apply Hone in C6' as [? _].
    + intros Hr. destruct (C7 Hr) as (D1 & D2 & D3). simpl in D1, D2. rewrite Hmid in D1.
      apply list.Forall_cons in D1 as [_ D1]. apply Hone in D2 as (D2 & D2' & D2''). split_and!; try done.
      destruct p; try done; intros _; by apply D2''.
  - intros ->. unfold good in C6, C6'. rewrite filter_cons_True in C6, C6' by done. simpl in C6, C6'.
    rewrite Hmid in C6. apply list.Forall_cons in C6 as [C6 _]. apply Hone in C6' as (_ & H2 & H3). by split_and!.
  - intros Hr. destruct (C7 Hr) as (D1 & D2 & _). simpl in D1, D2. rewrite Hmid in D1.
    apply list.Forall_cons in D1 as [D1 _]. apply Hone in D2 as (_ & H2 & H3). by split_and!.
Qed.

(** ** Registering a read *)

Lemma final_ses {X} (m : M session event X) c : final (on_ses m) c = set_ses (final m (ses c)) c.
Proof. unfold final, on_ses. by destruct (m (ses c)) as [[x s] ev]. Qed.
Lemma trace_ses {X} (m : M session event X) c : trace (on_ses m) c = Ses <$> trace m (ses c).
Proof. unfold trace, on_ses. by destruct (m (ses c)) as [[x s] ev]. Qed.

Definition same_flags (s : session) (_ : list event) (s' : session) : Prop :=
  state_flags s' = state_flags s /\ target_closed s' = target_closed s.
#[export] Instance same_flags_comp : Compositional same_flags.
Proof. split; unfold same_flags; [done|]. intros s1 s2 s3 _ _ [? ?] [? ?]. split; congruence. Qed.
#[export] Instance same_flags_base : BaseFrame (St := session) same_flags.
Proof. split; [apply _|]. by intros. Qed.

Lemma same_flags_has s ev s' f : same_flags s ev s' -> has_flag f s' = has_flag f s.
Proof. intros [E _]. unfold has_flag. by rewrite E. Qed.

Lemma refused_good (q : posted) h ec : ec <> ec_none -> good (q ++ [(h, ec, [])]) = good q.
Proof. intros He. rewrite good_app. unfold good at 2. rewrite filter_cons_False by done. by rewrite app_nil_r. Qed.

Lemma after_read p cap h c q ops :
  core p c q ops ->
  (is_running (ses c) = true -> h = tag_of p /\
     (p = PForward \/
      p <> PConnect /\ is_socks5_read_pending (ses c) = true /\ waiting (ses c) ++ tags q = [])) ->
  after (core p) (on_ses (on_async_read_some cap h)) c q ops.
Proof.
  intros Hc Hr. unfold Relay.after. rewrite final_ses, trace_ses, ses_events_ses.
  pose proof (read_registered cap h (ses c)) as (Ha & Hw & Hh & Hnp & Hnr & Hoff & Hon).
  pose proof (frame_read_some same_flags cap h (ses c)) as Hf.
  set (s' := final (on_async_read_some cap h) (ses c)) in *.
  set (ev := trace (on_async_read_some cap h) (ses c)) in *.
  assert (Hops : Forall (op_in p) (ops ++ s_started (Ses <$> ev))).
  { apply Forall_app. split; [by destruct Hc|]. apply started_ses; [|by intros].
    eapply List.Forall_impl; [|apply Hnr]. intros []; simpl; tauto. }
  destruct Hc as [C1 C2 C3 C4 Ch C5 [C6 C6'] C7]. change (is_active (ses c)) with (is_running (ses c)) in *.
  change (is_active s') with (is_running s') in Ha. simpl in Hw, Hh, Hon, Hoff.
  destruct (is_running (ses c)) eqn:Er.
  - destruct (Hr eq_refl) as [-> Hcase]. clear Hr Hoff. destruct (C7 eq_refl) as (D1 & D2 & D3).
    assert (Hall : waiting s' ++ tags (q ++ reads_done ev) ≡ₚ tag_of p :: waiting (ses c) ++ tags q /\
      exists l, tag_of p :: waiting (ses c) ++ tags (good q) ≡ₚ l ++ waiting s' ++ tags (good (q ++ reads_done ev))).
    { unfold waiting. destruct (Hon eq_refl) as [(h' & Ep & Et & ->)|(Ep & [[Ep' ->]|(ec & d & Ep' & ->)])]; rewrite Ep.
      - rewrite Et, Ep, refused_good, tags_app by done. simpl. split; [|by exists [tag_of p]].
        rewrite Permutation_app_comm. simpl. constructor.
      - rewrite Ep', app_nil_r. split; [done | by exists []].
      - rewrite Ep', good_app, !tags_app. simpl. split; [by rewrite Permutation_app_comm|].
        unfold good at 3. rewrite filter_cons, filter_nil. case_decide; simpl.
        + exists []. simpl. apply Permutation_cons_append.
        + exists [tag_of p]. by rewrite app_nil_r. }
    destruct Hall as [Hall [l Hl]].
    assert (Hcap : capped p (S (length (waiting (ses c) ++ tags q)))).
    { destruct Hcase as [-> | (Hp & _ & Hnil)]; [done|]. rewrite Hnil. destruct p; simpl; try done; lia. }
    assert (Hcap' : capped p (S (length (waiting (ses c) ++ tags (good q))))).
    { eapply capped_le; [exact Hcap|]. rewrite !length_app. unfold tags. rewrite !length_fmap.
      pose proof (good_length q). lia. }
    split; simpl; rewrite ?Hw, ?Hh; try done.
    + congruence.
    + by rewrite <- C2; apply (same_flags_has _ _ _ PROTOCOL_HS_DONE Hf).
    + assert (Forall (eq (tag_of p)) (tag_of p :: waiting (ses c) ++ tags (good q))) as HF by by constructor.
      rewrite Hl in HF. apply Forall_app in HF as [_ HF]. split; [done|].
      eapply capped_le; [exact Hcap'|]. apply Permutation_length in Hl. rewrite (length_app l) in Hl.
      simpl in Hl. lia.
    + intros _. split_and!; [rewrite Hall; by constructor | by rewrite Hall |].
      destruct Hcase as [-> | (Hp & Hs & _)]; [done|].
      assert (Hs' : is_socks5_read_pending s' = true).
      { rewrite <- Hs. by apply (same_flags_has _ _ _ SOCKS5_READ_PENDING Hf). }
      by destruct p; try done; rewrite Hs'.
  - destruct (Hoff eq_refl) as [Et ->]. split; simpl; unfold waiting; rewrite ?Et, ?Ha; try done.
    + by rewrite <- C2; apply (same_flags_has _ _ _ PROTOCOL_HS_DONE Hf).
    + by rewrite refused_good.
Qed.

(** ** From phase to phase *)

Lemma core_rephase p p' c c' q ops :
  let s' := ses c' in
  core p c q ops -> holds p' c' -> is_running s' = is_running (ses c) ->
  pending_read_handler (base s') = pending_read_handler (base (ses c)) ->
  (strict p' = true -> write_resume_cb (base s') = None) ->
  is_protocol_handshake_done s' = match p' with PGreet => false | _ => true end ->
  handshake_done (base s') = match p' with PForward => true | _ => false end ->
  Forall (op_in p') ops ->
  (p' = p \/ waiting (ses c) ++ tags (good q) = [] /\
     (is_running (ses c) = true -> waiting (ses c) ++ tags q = [])) ->
  (is_running (ses c) = true ->
     match p' with
     | PGreet | PRequest => is_socks5_read_pending s' = false -> waiting (ses c) ++ tags q = []
     | PConnect => is_connect_pending s' = true
     | PForward => True
     end) ->
  core p' c' q ops.
Proof.
  intros s' [C1 _ _ _ _ _ C6 C7] Hm Hr Hp Hw Hpr Hh Ho Hcase Hfl.
  assert (Hwt : waiting s' = waiting (ses c)) by (unfold waiting; by rewrite Hp).
  split; fold s'; rewrite ?Hr, ?Hp, ?Hwt; auto.
  - destruct Hcase as [-> | [-> _]]; [done|]. split; [constructor | by destruct p'; simpl; try lia].
  - intros E. destruct Hcase as [-> | [_ Hnil]].
    + destruct (C7 E) as (D1 & D2 & _). split_and!; [done | done | by apply Hfl].
    + rewrite (Hnil E). split_and!; [constructor | by destruct p'; simpl; try lia |].
      specialize (Hfl E). by destruct p'.
Qed.

Lemma core_members p c c' q ops : ses c' = ses c -> holds p c' -> core p c q ops -> core p c' q ops.
Proof. intros E Hm [C1 C2 C3 C4 Ch C5 C6 C7]. split; by rewrite ?E. Qed.

Lemma core_socks_on p c q ops : core p c q ops -> core p (set_ses (flag_on SOCKS5_READ_PENDING (ses c)) c) q ops.
Proof.
  intros Hc. pose proof Hc as [C1 C2 C3 C4 Ch C5 C6 C7]. apply (core_rephase p p c); auto; try (by destruct p).
  - by apply (flag_on_other RUNNING).
  - rewrite <- C2. by apply (flag_on_other PROTOCOL_HS_DONE).
  - intros Hr. destruct (C7 Hr) as (_ & _ & D3).
    assert (Hs : is_socks5_read_pending (flag_on SOCKS5_READ_PENDING (ses c)) = true) by by apply flag_on_same.
    assert (Hk : is_connect_pending (flag_on SOCKS5_READ_PENDING (ses c)) = is_connect_pending (ses c))
      by by apply (flag_on_other CONNECT_PENDING).
    destruct p; simpl; rewrite ?Hs, ?Hk; done.
Qed.

Lemma core_socks_off p c q ops :
  core p c q ops -> (is_running (ses c) = true -> p <> PForward -> waiting (ses c) ++ tags q = []) ->
  core p (set_ses (flag_off SOCKS5_READ_PENDING (ses c)) c) q ops.
Proof.
  intros Hc Hn. pose proof Hc as [C1 C2 C3 C4 Ch C5 C6 C7]. apply (core_rephase p p c); auto; try (by destruct p).
  - by apply (flag_off_other RUNNING).
  - rewrite <- C2. by apply (flag_off_other PROTOCOL_HS_DONE).
  - intros Hr. destruct (C7 Hr) as (_ & _ & D3).
    assert (Hk : is_connect_pending (flag_off SOCKS5_READ_PENDING (ses c)) = is_connect_pending (ses c))
      by by apply (flag_off_other CONNECT_PENDING).
    destruct p; simpl; rewrite ?Hk; auto.
Qed.

(** ** The forwarding loop and the dispatcher *)

Lemma forward_flag_core p c q ops (f : session -> session) :
  f = flag_off FORWARD_READ_PENDING \/ f = flag_on FORWARD_READ_PENDING ->
  core p c q ops -> after (core p) (upd_ses f) c q ops.
Proof. intros Hf Hc. apply after_drift; [|done]. by apply drift_ses, sdrift_forward_flag. Qed.

Lemma forward_core e c q ops :
  core PForward c q ops -> after (core PForward) (forward_kcp_to_tcp e) c q ops.
Proof.
  intros Hc. unfold forward_kcp_to_tcp, look_ses. apply after_gets. unfold id.
  destruct (target_closed (ses c)); [apply forward_flag_core; auto|].
  destruct (peer_fin_received (base (ses c))); [apply forward_flag_core; auto|].
  apply after_bind. eapply after_impl; [|apply (after_drift PForward); [|exact Hc]].
  - intros c1 q1 ops1 Hc1. destruct (result _ c); [by apply after_ret|].
    do 4 (match goal with |- after _ (if ?b then _ else _) _ _ _ =>
      destruct b; [apply forward_flag_core; auto|] end).
    apply after_read; [done|]. intros _. split; [done | by left].
  - apply drift_ses. intros s. apply (sdrift_forward_flag false (flag_on FORWARD_READ_PENDING)). by right.
Qed.

(** Claiming the handshake's read and registering it. *)
Lemma claim_read p cap h c q ops :
  core p c q ops -> p <> PForward -> (p = PConnect -> is_running (ses c) = false) -> h = tag_of p \/ p = PConnect ->
  is_socks5_read_pending (ses c) = false ->
  after (core p) (upd_ses (flag_on SOCKS5_READ_PENDING) ;;; on_ses (on_async_read_some cap h)) c q ops.
Proof.
  intros Hc Hp Hpc Hh Hs. apply after_bind, after_upd. apply after_read; [by apply core_socks_on|].
  simpl. unfold is_running in *. rewrite flag_on_other by done. intros Hr.
  split; [destruct Hh as [?| ->]; [done|]; by rewrite Hpc in Hr|]. right.
  split_and!; [intros ->; by rewrite Hpc in Hr | by apply flag_on_same|].
  destruct (co_run _ _ _ _ Hc Hr) as (_ & _ & D3). destruct p; try done; try (by rewrite Hpc in Hr); by apply D3.
Qed.

Lemma request_core p e c q ops :
  core p c q ops -> p <> PForward -> p <> PGreet -> (p = PConnect -> is_running (ses c) = false) ->
  is_socks5_read_pending (ses c) = false ->
  after (core p) (handle_socks5_request e []) c q ops.
Proof.
  intros Hc Hp Hg Hpc Hs. unfold handle_socks5_request. apply after_modify. unfold read_more_socks5.
  apply after_gets. simpl. apply after_bind, after_ret. simpl.
  apply claim_read; auto; [by apply (core_members p c); [done | destruct p; try done; apply Hc |] | destruct p; auto; done].
Qed.

Lemma kcp_data_core p e c q ops :
  core p c q ops -> after (core p) (handle_kcp_data e) c q ops.
Proof.
  intros Hc. pose proof Hc as [C1 C2 C3 C4 Ch C5 C6 C7]. unfold handle_kcp_data, look_ses. apply after_gets. unfold id.
  destruct (peek_size (base (ses c)) <=? 0); [by apply after_ret|]. rewrite C2, C3.
  destruct p; simpl.
  - destruct (is_socks5_read_pending (ses c)) eqn:Es; [by apply after_ret|]. by apply claim_read; auto.
  - destruct (is_socks5_read_pending (ses c)) eqn:Es; [by apply after_ret|]. simpl.
    destruct (is_connect_pending (ses c)); [by apply after_ret|]. by apply request_core.
  - destruct (is_socks5_read_pending (ses c)) eqn:Es; [by apply after_ret|]. simpl.
    destruct (is_connect_pending (ses c)) eqn:Ec; [by apply after_ret|]. apply request_core; auto; try done.
    intros _. destruct (is_running (ses c)) eqn:Er; [|done]. by destruct (C7 eq_refl) as (_ & _ & ?).
  - by apply forward_core.
Qed.

(** ** The handlers that stay in a phase *)

Lemma sdrift_upd b f :
  (forall t, pending_read_handler (f t) = pending_read_handler t /\ handshake_done (f t) = handshake_done t /\
     write_resume_cb (f t) = write_resume_cb t) -> keeps (sdrift b) (upd f).
Proof.
  intros Hf s. unfold trace, final. rewrite upd_run. destruct (Hf (base s)) as (H1 & H2 & H3).
  split; simpl; try done; [|by left]. split; simpl; rewrite ?H1, ?H3; auto.
  intros Hr Hr'. change (is_running s = false) in Hr'. congruence.
Qed.

Lemma drift_own p (f : session -> session) :
  (forall s, base (f s) = base s /\ state_flags (f s) = state_flags s /\ target_closed (f s) = target_closed s) ->
  keeps (drift p) (upd_ses f).
Proof.
  intros Hf. apply drift_ses, sdrift_own.
  - intros s. destruct (Hf s) as (H1 & H2 & _). unfold is_running, has_flag. by rewrite H2.
  - apply calm_flags_own. intros s. destruct (Hf s) as (_ & H2 & H3). by rewrite H2, H3.
Qed.

Ltac roam :=
  repeat first [keeps_step | apply keeps_gets; apply _ | apply drift_fired | apply drift_fail | apply drift_reply
    | apply drift_emit; by repeat constructor | apply drift_own; by intros
    | apply drift_ses, sdrift_forward_flag; by auto | apply drift_ses, sdrift_emit; by try intros []
    | apply drift_ses, sdrift_close | apply drift_ses, sdrift_target_closed | apply drift_ses, sdrift_send].

Lemma drift_deadline p e ec : keeps (drift p) (on_deadline e ec).
Proof. unfold on_deadline, look_ses. roam. Qed.

Lemma drift_resolved p e ec rs : op_in p OConnect -> keeps (drift p) (on_resolved e ec rs).
Proof. intros Hp. unfold on_resolved. roam. Qed.

Lemma drift_forward_tcp e : keeps (drift PForward) (on_ses (forward_tcp_to_kcp e)).
Proof. apply drift_ses, sdrift_forward_tcp. Qed.

Lemma drift_target_read e ec d : keeps (drift PForward) (on_target_read e ec d).
Proof. unfold on_target_read. roam. apply drift_forward_tcp. Qed.

Lemma start_core e c q ops : core PForward c q ops -> after (core PForward) (start_forwarding e) c q ops.
Proof.
  intros Hc. unfold start_forwarding, look_ses. apply after_gets.
  destruct (negb (owned (ses c))); [apply after_drift; [apply drift_own; by intros | done]|].
  do 3 (apply after_bind; eapply after_impl;
    [|apply (after_drift PForward);
       [first [apply drift_own; by intros | apply drift_forward_tcp] | eassumption]]; intros ? ? ? ?).
  by apply forward_core.
Qed.

Lemma written_core e ec c q ops : core PForward c q ops -> after (core PForward) (on_forward_written e ec) c q ops.
Proof.
  intros Hc. unfold on_forward_written, look_ses.
  destruct (ec_failed ec); [apply after_drift; [apply drift_ses, sdrift_target_closed | done]|].
  apply after_gets. apply after_bind. eapply after_impl; [|apply forward_flag_core; [by left | exact Hc]].
  intros c1 q1 ops1 Hc1. destruct (is_running (ses c)); simpl; [by apply forward_core | by apply after_ret].
Qed.

Lemma ec_failed_true ec : ec <> ec_none -> ec_failed ec = true.
Proof. by destruct ec. Qed.

(** A failed read stays in the phase; while the session runs it must be the
    phase's own. *)
Lemma failed_forward p e ec d c q ops :
  ec <> ec_none -> core p c q ops -> after (core p) (on_forward_read e ec d) c q ops.
Proof.
  intros He Hc. apply after_drift; [|done]. unfold on_forward_read, look_ses. rewrite ec_failed_true by done. simpl.
  roam.
Qed.

Lemma failed_protocol p e ec d c q ops :
  ec <> ec_none -> core p c q ops ->
  (is_running (ses c) = true -> p <> PForward -> waiting (ses c) ++ tags q = []) ->
  after (core p) (on_protocol_read e ec d) c q ops.
Proof.
  intros He Hc Hn. unfold on_protocol_read. rewrite ec_failed_true by done. cbn [orb].
  apply after_bind, after_upd, (after_drift p); [apply drift_ses, sdrift_close | by apply core_socks_off].
Qed.

Lemma failed_socks p e ec d c q ops :
  ec <> ec_none -> core p c q ops ->
  (is_running (ses c) = true -> p <> PForward -> waiting (ses c) ++ tags q = []) ->
  after (core p) (on_socks5_read e ec d) c q ops.
Proof.
  intros He Hc Hn. unfold on_socks5_read. rewrite ec_failed_true by done.
  apply after_bind, after_upd, (after_drift p); [apply drift_fail | by apply core_socks_off].
Qed.

Lemma failed_read p e h ec d c q ops :
  ec <> ec_none -> core p c q ops ->
  (is_running (ses c) = true -> p <> PForward -> waiting (ses c) ++ tags q = []) ->
  after (core p) (on_read_complete e h ec d) c q ops.
Proof.
  intros He Hc Hn. unfold on_read_complete. repeat case_bool;
    [by apply failed_protocol | by apply failed_socks | by apply failed_forward].
Qed.
End Core.

(** ** What is said to the client *)

Section Said.
Context {I : AsioIp} {A : Crypto.Aead} {K : Kcp} {F : FecCodec}.

(** Nothing is queued; a stopped session stays stopped, a verdict given. *)
Definition mute (c : conn) (ev : list cevent) (c' : conn) : Prop :=
  offered (ses_events ev) = [] /\
  (is_running (ses c) = false -> is_running (ses c') = false) /\ (fired c = true -> fired c' = true).

#[export] Instance mute_comp : Compositional mute.
Proof.
  split; [intros c; unfold mute; by split_and!|]. intros c1 c2 c3 e1 e2 (O1 & R1 & F1) (O2 & R2 & F2).
  unfold mute. rewrite ses_events_app, offered_app, O1, O2. split_and!; auto.
Qed.

(** One message is queued, unless the session was or is stopped. *)
Definition utters (d : list Z) (c : conn) (ev : list cevent) (c' : conn) : Prop :=
  (offered (ses_events ev) = [d] \/ offered (ses_events ev) = [] /\ is_running (ses c') = false) /\
  (is_running (ses c) = false -> is_running (ses c') = false /\ offered (ses_events ev) = []) /\ (fired c = true -> fired c' = true).

Lemma mute_utters {X Y} d (m : M conn cevent X) (k : X -> M conn cevent Y) :
  keeps mute m -> (forall x, keeps (utters d) (k x)) -> keeps (utters d) (ebind m k).
Proof.
  intros Hm Hk c. unfold keeps, utters in *. rewrite trace_bind, final_bind, ses_events_app, offered_app.
  destruct (Hm c) as (O1 & R1 & F1). destruct (Hk (result m c) (final m c)) as (O2 & R2 & F2).
  rewrite O1. split_and!; auto.
Qed.

Lemma utters_mute {X Y} d (m : M conn cevent X) (k : X -> M conn cevent Y) :
  keeps (utters d) m -> (forall x, keeps mute (k x)) -> keeps (utters d) (ebind m k).
Proof.
  intros Hm Hk c. unfold keeps, utters in *. rewrite trace_bind, final_bind, ses_events_app, offered_app.
  destruct (Hm c) as (O1 & R1 & F1). destruct (Hk (result m c) (final m c)) as (O2 & R2 & F2).
  rewrite O2, app_nil_r. split_and!; auto; [destruct O1 as [?|[? ?]]; auto|]. intros Hr. destruct (R1 Hr). auto.
Qed.

Lemma mute_calm {X} b (m : M session event X) : keeps (calm b) m -> keeps mute (on_ses m).
Proof.
  intros Hm c. destruct (Hm (ses c)) as [H1 _ _ _ H5]. unfold mute.
  rewrite final_ses, trace_ses, ses_events_ses. split_and!; [by apply no_relay_offered | exact H1 | done].
Qed.

Lemma mute_emit x : offered (ses_events [x]) = [] -> keeps mute (emit x).
Proof. intros Hx c. change (mute c [x] c). by split_and!. Qed.

Lemma mute_upd f : (forall s, is_running s = false -> is_running (f s) = false) -> keeps mute (upd_ses f).
Proof. intros Hf c. unfold mute, trace, final, upd_ses, on_ses, emodify. simpl. by split_and!; auto. Qed.

Lemma mute_modify f :
  (forall c, ses (f c) = ses c /\ (fired c = true -> fired (f c) = true)) -> keeps mute (emodify f).
Proof. intros Hf c. destruct (Hf c) as [H1 H2]. unfold mute, trace, final. simpl. rewrite H1. by split_and!. Qed.

Lemma mute_read cap h : keeps mute (on_ses (on_async_read_some cap h)).
Proof.
  intros c. pose proof (read_registered cap h (ses c)) as (Ha & _ & _ & _ & Hnr & _). unfold mute.
  rewrite final_ses, trace_ses, ses_events_ses. split_and!; [by apply no_relay_offered | | done].
  intros Hr. etransitivity; [exact Ha | exact Hr].
Qed.

Lemma utters_send e d : keeps (utters d) (on_ses (send_data e d)).
Proof.
  intros c. destruct (send_offers e d (ses c)) as ([Ha _ _ _] & _ & Hn & Ho). unfold utters.
  rewrite final_ses, trace_ses, ses_events_ses. split_and!; [|intros Hr; split; [by apply Ha | by apply Hn] | done].
  clear Hn.
  destruct Ho as [?|[? [Hn|[Hn|Hn]]]]; [by left | | |]; right; (split; [done|]); [by apply Ha | by apply Ha | done].
Qed.

Lemma flag_off_running g (s : session) : is_running s = false -> is_running (flag_off g s) = false.
Proof. apply flag_off_has. Qed.
Lemma flag_on_running g (s : session) : Z.land g RUNNING = 0 -> is_running s = false -> is_running (flag_on g s) = false.
Proof. intros Hg Hr. unfold is_running in *. by rewrite flag_on_other. Qed.

Ltac hush :=
  repeat first [keeps_step | apply keeps_gets; apply _ | apply mute_read | apply mute_upd; by intros
    | apply mute_upd; intros; by apply flag_off_running | apply mute_upd; intros; by apply flag_on_running
    | apply mute_modify; by intros | apply mute_emit; done
    | apply (mute_calm true), calm_close | apply (mute_calm true), calm_target_closed
    | apply (mute_calm true), calm_receive | apply (mute_calm true), calm_inject | apply (mute_calm true), calm_tick
    | apply (mute_calm true), calm_stop | apply (mute_calm false), calm_forward_tcp
    | apply (mute_calm true), calm_emit; by intros [] | apply (mute_calm true), calm_upd; by intros
    | apply (mute_calm true), calm_own; by intros].

Lemma mute_forward e : keeps mute (forward_kcp_to_tcp e).
Proof.
  unfold forward_kcp_to_tcp, look_ses. hush.
Qed.

Lemma mute_start e : keeps mute (start_forwarding e).
Proof. unfold start_forwarding, look_ses. hush. apply mute_forward. Qed.

(** An empty accumulator is not parsed. *)
Lemma mute_request e : keeps mute (handle_socks5_request e []).
Proof.
  intros c. unfold handle_socks5_request, read_more_socks5. rewrite trace_modify, final_modify, trace_gets, final_gets.
  simpl. rewrite trace_bind, final_bind. simpl.
  assert (Hk : keeps mute (upd_ses (flag_on SOCKS5_READ_PENDING) ;;;
    on_ses (on_async_read_some (Z.to_nat FWD_BUF_SIZE) H_SOCKS5))) by hush.
  exact (Hk (set_accum [] c)).
Qed.

Lemma mute_kcp_data e : keeps mute (handle_kcp_data e).
Proof.
  unfold handle_kcp_data, handle_protocol_handshake, look_ses. hush; [apply mute_forward | apply mute_request].
Qed.

Lemma utters_fail e r d : build (mkResponse r [] 0) = Ret d -> keeps (utters d) (fail_with e r).
Proof.
  intros Hb. unfold fail_with, send_socks5_reply. rewrite Hb. apply utters_mute; [|intros; hush].
  apply mute_utters; [hush | intros; apply utters_send].
Qed.
End Said.

(** ** What is not written to the target *)

Section Inert.
Context {I : AsioIp} {A : Crypto.Aead} {K : Kcp} {F : FecCodec}.

Definition inert (c : conn) (ev : list cevent) (c' : conn) : Prop :=
  to_target ev = [] /\ (target_closed (ses c) = true -> target_closed (ses c') = true).

#[export] Instance inert_comp : Compositional inert.
Proof.
  split; [done|]. intros c1 c2 c3 e1 e2 [T1 C1] [T2 C2]. unfold inert. rewrite to_target_app, T1, T2. auto.
Qed.

Lemma inert_ses {X} b (m : M session event X) : keeps (sdrift b) m -> keeps inert (on_ses m).
Proof.
  intros Hm c. destruct (Hm (ses c)) as [_ _ _ [_ _ _ _ Hc] Hw]. unfold inert. rewrite final_ses, trace_ses.
  split; [by apply to_target_ses | exact Hc].
Qed.

Lemma inert_upd f : (forall s, target_closed (f s) = target_closed s) -> keeps inert (upd_ses f).
Proof. intros Hf c. unfold inert, trace, final, upd_ses, on_ses, emodify. simpl. by rewrite Hf. Qed.

Lemma inert_modify f : (forall c, ses (f c) = ses c) -> keeps inert (emodify f).
Proof. intros Hf c. unfold inert, trace, final. simpl. by rewrite Hf. Qed.

Lemma inert_emit x : to_target [x] = [] -> keeps inert (emit x).
Proof. intros Hx c. by change (inert c [x] c). Qed.

Lemma inert_read cap h : keeps inert (on_ses (on_async_read_some cap h)).
Proof.
  intros c. pose proof (read_registered cap h (ses c)) as (_ & _ & _ & _ & Hnr & _).
  pose proof (frame_read_some same_flags cap h (ses c)) as [_ Hc]. unfold inert. rewrite final_ses, trace_ses.
  split; [|simpl; by rewrite Hc]. apply to_target_ses. eapply List.Forall_impl; [|exact Hnr]. intros []; simpl; tauto.
Qed.

Lemma inert_claim : keeps inert (on_ses try_set_forward_read_pending).
Proof. by intros c. Qed.

Lemma inert_done : keeps inert (on_ses session_handshake_done).
Proof. by intros c. Qed.

Ltac rest :=
  repeat first [keeps_step | apply keeps_gets; apply _ | apply inert_read | apply inert_upd; by intros
    | apply inert_modify; by intros | apply inert_emit; done | apply inert_claim | apply inert_done
    | apply (inert_ses true), sdrift_close | apply (inert_ses true), sdrift_send
    | apply (inert_ses true), sdrift_receive | apply (inert_ses true), sdrift_inject | apply (inert_ses true), sdrift_tick
    | apply (inert_ses true), sdrift_stop | apply (inert_ses true), sdrift_target_closed
    | apply (inert_ses false), sdrift_forward_tcp | apply (inert_ses true), sdrift_upd; by intros
    | apply (inert_ses true), sdrift_emit; by try intros []].

Lemma inert_reply e r h p : keeps inert (send_socks5_reply e r h p).
Proof. unfold send_socks5_reply. rest. Qed.
Lemma inert_fail e r : keeps inert (fail_with e r).
Proof. unfold fail_with. rest. apply inert_reply. Qed.
Lemma inert_forward e : keeps inert (forward_kcp_to_tcp e).
Proof. unfold forward_kcp_to_tcp, look_ses. rest. Qed.
Lemma inert_parse e : keeps inert (parse_accumulated_socks5 e).
Proof.
  unfold parse_accumulated_socks5, handle_udp_associate, handle_connect_command. rest; apply inert_fail.
Qed.
Lemma inert_more e : keeps inert (read_more_socks5 e).
Proof. unfold read_more_socks5. rest. apply inert_parse. Qed.
Lemma inert_request e d : keeps inert (handle_socks5_request e d).
Proof. unfold handle_socks5_request. rest. apply inert_more. Qed.
Lemma inert_kcp_data e : keeps inert (handle_kcp_data e).
Proof.
  unfold handle_kcp_data, handle_protocol_handshake, look_ses. rest; [apply inert_forward | apply inert_request].
Qed.
Lemma inert_start e : keeps inert (start_forwarding e).
Proof. unfold start_forwarding, look_ses. rest. apply inert_forward. Qed.

Lemma inert_protocol e ec d : keeps inert (on_protocol_read e ec d).
Proof. unfold on_protocol_read. rest; auto using inert_kcp_data, inert_request. Qed.
Lemma inert_socks e ec d : keeps inert (on_socks5_read e ec d).
Proof. unfold on_socks5_read. rest; auto using inert_fail, inert_parse, inert_more. Qed.

(** A connect with no pipelined payload. *)
Definition same_payload (c : conn) (_ : list cevent) (c' : conn) : Prop := initial_payload c' = initial_payload c.
#[local] Instance same_payload_comp : Compositional same_payload.
Proof. split; unfold same_payload; [done|]. congruence. Qed.

Lemma same_payload_ses {X} (m : M session event X) : keeps same_payload (on_ses m).
Proof. intros c. unfold same_payload. by rewrite final_ses. Qed.

Lemma inert_connected e ec local c :
  initial_payload c = [] -> inert c (trace (on_connected e ec local) c) (final (on_connected e ec local) c).
Proof.
  set (R := fun c ev c' => initial_payload c = [] -> inert c ev c' /\ initial_payload c' = []).
  assert (HR : Compositional R).
  { split; [by intros ? ?|]. intros c1 c2 c3 e1 e2 H1 H2 Hc. destruct (H1 Hc) as [I1 P1], (H2 P1) as [I2 P2].
    split; [by eapply comp_trans | done]. }
  assert (Hof : forall X (m : M conn cevent X), keeps inert m -> keeps same_payload m -> keeps R m).
  { intros X m Hi Hp c0 Hc0. split; [apply Hi | by rewrite (Hp c0)]. }
  assert (Hemit : forall x, to_target [x] = [] -> keeps R (emit x)) by (intros; apply Hof; [by apply inert_emit | done]).
  assert (Hses : forall X (m : M session event X), keeps inert (on_ses m) -> keeps R (on_ses m))
    by (intros; apply Hof; [done | apply same_payload_ses]).
  assert (Hreply : forall rp h p, keeps R (send_socks5_reply e rp h p)).
  { intros. unfold send_socks5_reply. repeat keeps_step; first [by apply Hemit | apply Hses]. rest. }
  assert (Htail : keeps R (let* payload := egets initial_payload in
    if bool_decide (payload = []) then start_forwarding e else emit (InitialWrite payload))).
  { intros c0 Hc0. rewrite trace_gets, final_gets, Hc0. cbn. split; [apply inert_start|].
    assert (Hs : keeps same_payload (start_forwarding e)); [|by rewrite (Hs c0)].
    unfold start_forwarding, forward_kcp_to_tcp, look_ses, upd_ses. repeat first [keeps_step | apply same_payload_ses]. }
  intros Hc. enough (Hk : keeps R (on_connected e ec local)) by apply (Hk c Hc).
  unfold on_connected, fail_with.
  repeat first [apply Htail | keeps_step | by apply Hemit | apply Hreply | apply Hses; rest].
  apply Hof; [by apply inert_modify | done].
Qed.

(** Everything but the reads that carry data to the target, and a connect
    with pipelined payload. *)
Lemma inert_happen e h :
  match h with HReadComplete _ ec _ => ec <> ec_none | HConnected _ _ => False | _ => True end ->
  keeps inert (happen e h).
Proof.
  destruct h; simpl; intros Hh; try done; unfold on_datagram, on_first_datagram, on_read_complete, on_protocol_read,
    on_socks5_read, on_forward_read, on_deadline, on_resolved, on_initial_written, on_target_read, on_forward_written,
    look_ses; rewrite ?ec_failed_true by done; cbn [orb]; rest;
    auto using inert_kcp_data, inert_request, inert_fail, inert_parse, inert_more, inert_forward, inert_start, inert_reply.
Qed.
End Inert.

(** ** The phases of an honest session *)

Section Honest.
Context {I : AsioIp} {IL : AsioIpLaws I} {A : Crypto.Aead} {K : Kcp} {F : FecCodec}.

(** The request of the client: one CONNECT that fits a buffer. *)
Variables (req : list Z) (r : SOCKS5Request).
Hypothesis parses : parse_socks5_request req = mkParseResult PsComplete (Some r) [] false.
Hypothesis connects : req_cmd r = SOCKS5_CMD_CONNECT.
Hypothesis alone : req_initial_payload r = [].
Hypothesis fits : Z.of_nat (length req) <= FWD_BUF_SIZE.

Lemma no_ops p ops : p = PGreet \/ p = PRequest -> Forall (op_in p) ops -> ops = [].
Proof. intros Hp [|o l Ho _]; [done|]. by destruct Hp as [-> | ->], o. Qed.

(** Nothing may be outstanding when a handler of the handshake goes on. *)
Definition quiescent (c : conn) (q : posted) : Prop :=
  waiting (ses c) ++ tags (good q) = [] /\ (is_running (ses c) = true -> waiting (ses c) ++ tags q = []).

Lemma hello_core e c q ops :
  core PGreet c q ops -> quiescent c q ->
  after (core PRequest) (on_protocol_read e ec_none KCP_CONTROL_HELLO_V2) c q ops.
Proof.
  intros Hc [Hl Ho]. pose proof Hc as [C1 C2 C3 C4 Ch C5 C6 C7]. unfold on_protocol_read.
  apply after_bind, after_upd. cbn [ec_failed orb]. rewrite (bool_decide_false (KCP_CONTROL_HELLO_V2 = [])) by done.
  rewrite (bool_decide_true (KCP_CONTROL_HELLO_V2 = KCP_CONTROL_HELLO_V2)) by done.
  cbn [orb negb]. rewrite andb_false_r. apply after_bind, after_upd. cbn [ses set_ses].
  set (c1 := set_ses _ (set_ses _ c)).
  assert (H1 : core PRequest c1 q ops).
  { apply (core_rephase PGreet PRequest c); auto.
    - etransitivity; [apply (flag_on_other RUNNING); by vm_compute | by apply (flag_off_other RUNNING)].
    - by apply (flag_on_same PROTOCOL_HS_DONE). }
  apply after_bind. eapply after_impl; [|apply (after_drift PRequest); [|exact H1]].
  - intros c2 q2 ops2 H2. apply after_bind. eapply after_impl; [|apply (after_drift PRequest); [|exact H2]].
    + intros c3 q3 ops3 H3. by apply kcp_data_core.
    + apply drift_ses, sdrift_send.
  - simpl. apply drift_ses, sdrift_upd. by intros.
Qed.

(** The whole request in one message: the attempt starts at once. *)
Definition attempt_state (c : conn) : conn :=
  set_attempt r [] (set_ses (flag_on CONNECT_PENDING (flag_off SOCKS5_READ_PENDING (ses c))) (set_accum req c)).
Definition attempt (e : cenv) : M conn cevent unit :=
  emit DeadlineArmed ;;;
  if (match make_address (req_host r) with Some ip => is_restricted_target ip | None => false end) &&
     negb (is_target_allowed e (req_host r) (req_port r)) then
    emodify set_fired ;;; emit DeadlineCancelled ;;; fail_with e SOCKS5_REPLY_NOT_ALLOWED
  else emit (ResolveStart (req_host r) (req_port r)).

Lemma upd_ses_bind {X} f (k : M conn cevent X) c : (upd_ses f ;;; k) c = k (set_ses (f (ses c)) c).
Proof. unfold ebind, upd_ses, on_ses, emodify. simpl. by destruct (k _) as [[x c'] ev]. Qed.

Lemma request_run e c :
  accum c = [] -> on_socks5_read e ec_none req c = attempt e (attempt_state c).
Proof.
  intros Hc. unfold on_socks5_read. cbn [ec_failed]. rewrite gets_bind, Hc. cbn [length app].
  rewrite (proj2 (Z.ltb_ge _ _)) by lia. rewrite modify_bind.
  set (c1 := set_accum req c).
  assert (Hp : parse_accumulated_socks5 e c1 = (attempt e ;;; eret true) (attempt_state c)).
  { unfold parse_accumulated_socks5. rewrite gets_bind. cbn [accum c1 set_accum]. rewrite parses.
    cbn [pr_status pr_request]. rewrite connects, alone.
    rewrite upd_ses_bind. etransitivity; [apply ebind_assoc|]. cbv beta. rewrite upd_ses_bind. unfold handle_connect_command.
    etransitivity; [apply ebind_assoc|]. cbv beta. by rewrite modify_bind. }
  unfold ebind. rewrite Hp. unfold ebind, eret. destruct (attempt e (attempt_state c)) as [[[] c2] ev].
  by rewrite !app_nil_r.
Qed.

Lemma request_parsed e c q ops :
  core PRequest c q ops -> quiescent c q ->
  after (core PConnect) (on_socks5_read e ec_none req) c q ops.
Proof.
  intros Hc [Hl Ho]. pose proof Hc as [C1 C2 C3 C4 Ch C5 C6 C7]. unfold Relay.after, final, trace. rewrite request_run by done.
  assert (H2 : core PConnect (attempt_state c) q ops).
  { apply (core_rephase PRequest PConnect c); auto.
    - done.
    - etransitivity; [apply (flag_on_other RUNNING); by vm_compute | by apply (flag_off_other RUNNING)].
    - rewrite <- C2. etransitivity; [apply (flag_on_other PROTOCOL_HS_DONE); by vm_compute
        | by apply (flag_off_other PROTOCOL_HS_DONE)].
    - by rewrite (no_ops PRequest ops); auto.
    - intros _. by apply (flag_on_same CONNECT_PENDING). }
  apply (after_drift PConnect (attempt e)); [|exact H2]. unfold attempt.
  apply keeps_bind; [apply _ | by apply drift_emit; repeat constructor|].
  intros _. match goal with |- keeps _ (if ?b then _ else _) => destruct b end;
    [|by apply drift_emit; repeat constructor].
  apply keeps_bind; [apply _ | apply drift_fired | intros _].
  apply keeps_bind; [apply _ | by apply drift_emit; repeat constructor | intros _; apply drift_fail].
Qed.

Lemma after_done (P : conn -> posted -> list sop -> Prop) c q ops :
  P (set_ses (set_base (mark_handshake_done (base (ses c))) (flag_off CONNECT_PENDING (ses c))) c) q ops ->
  after P (on_ses session_handshake_done) c q ops.
Proof.
  unfold Relay.after, final, trace, on_ses, session_handshake_done, ebind, emodify, upd, on_tun. simpl. by rewrite !app_nil_r.
Qed.

(** A connected target: the reply, then the loops. *)
Lemma connected_forward e local c q ops :
  core PConnect c q ops -> fired c = true ->
  after (core PForward)
    ((match local with
      | Some (a, p) => send_socks5_reply e SOCKS5_REPLY_SUCCEEDED (addr_to_string a) p
      | None => send_socks5_reply e SOCKS5_REPLY_SUCCEEDED [] 0
      end) ;;;
     on_ses session_handshake_done ;;;
     let* payload := egets initial_payload in
     if bool_decide (payload = []) then start_forwarding e else emit (InitialWrite payload)) c q ops.
Proof.
  intros Hc Hf. apply after_bind. set (m := match local with Some _ => _ | None => _ end).
  assert (Hm : keeps (drift PConnect) m) by (unfold m; destruct local as [[a p]|]; apply drift_reply).
  pose proof (Hm c) as [_ _ _ _ _ Hfi]. pose proof (after_drift PConnect m c q ops Hm Hc) as H2.
  unfold Relay.after in H2 |- *. revert H2 Hfi. generalize (final m c) as c2.
  generalize (q ++ reads_done (ses_events (trace m c))) (ops ++ s_started (trace m c)).
  intros q2 ops2 c2 H2 Hfi. pose proof H2 as [C1 C2 C3 C4 Ch C5 [C6 C6'] C7].
  apply (after_bind (core PForward)), after_done. apply after_gets. cbn [initial_payload set_ses].
  simpl in Ch. rewrite Ch, bool_decide_true by done.
  apply start_core, (core_rephase PConnect PForward c2); auto; simpl; auto.
  - by apply (flag_off_other RUNNING).
  - rewrite <- C2. by apply (flag_off_other PROTOCOL_HS_DONE).
  - eapply List.Forall_impl; [|exact C5]. by intros [].
  - right. split; [by apply nil_length_inv | intros Hr; destruct (C7 Hr) as (_ & D2 & _); by apply nil_length_inv].
Qed.

(** The connect handler with no pipelined payload: refused, or forwarding. *)
Lemma connected_core e ec local c q ops :
  core PConnect c q ops ->
  (fired c = true /\ on_connected e ec local c = (tt, c, [])) \/
  (fired c = false /\ ec_failed ec = true /\ after (core PConnect) (on_connected e ec local) c q ops) \/
  (fired c = false /\ ec_failed ec = false /\ after (core PForward) (on_connected e ec local) c q ops).
Proof.
  intros Hc. unfold on_connected. destruct (fired c) eqn:Ef; [left | right].
  { split; [done|]. by rewrite gets_bind, Ef. }
  destruct (ec_failed ec); [left | right]; (split; [done|]); (split; [done|]).
  - apply after_gets. rewrite Ef. apply after_drift; [|done].
    apply keeps_bind; [apply _ | apply drift_fired | intros _].
    apply keeps_bind; [apply _ | by apply drift_emit; repeat constructor | intros _; apply drift_fail].
  - apply after_gets. rewrite Ef. apply after_modify, after_bind, after_emit; [done|]. cbn [s_started omap list_omap].
    rewrite app_nil_r. apply connected_forward; [|done]. by apply (core_members PConnect c); [| apply Hc |].
Qed.
End Honest.
