(* ===== verification/RelayServerRun.v ===== *)
(** * RelayServerRun: what the server relays

    The invariant of a whole run of the server's loop: the messages dispatched
    so far, what was written to the target, what was said to the client, by
    phase. *)

From Stdlib Require Import ZArith Lia.
From stdpp Require Import base list strings.
From S2P Require Import Prelude Config Asio Address Socks5 Allowlist Effects Kcp Tunnel TunnelProofs Flow.
From S2P Require Import Session SessionProofs Calm Link Connection ConnectionProofs Relay RelayServer.
From S2P Require Crypto.

(** ** The server's side of the conversation *)

Abbreviation hello := KCP_CONTROL_HELLO_V2.
Abbreviation ack := KCP_CONTROL_HELLO_ACK_V2.

Section Talk.
Context {I : AsioIp} {IL : AsioIpLaws I} {A : Crypto.Aead} {K : Kcp} {F : FecCodec}.

Definition refusal (f : list Z) : Prop :=
  exists code, code <> SOCKS5_REPLY_SUCCEEDED /\ build (mkResponse code [] 0) = Ret f.
Definition success (f : list Z) : Prop :=
  exists host port, is_u16 port /\ build (mkResponse SOCKS5_REPLY_SUCCEEDED host port) = Ret f.

Definition refused (q : list (list Z)) : Prop := exists f l, q = ack :: f :: l /\ refusal f.
Definition granted (q chunks : list (list Z)) : Prop := exists f, q = ack :: f :: chunks /\ success f.

(** The acknowledgement, one verdict, and after a success the target's data. *)
Definition shape (q chunks : list (list Z)) : Prop :=
  q = [] \/ q = [ack] \/ refused q \/ exists l, granted q l /\ l `prefix_of` chunks.

(** A session that runs has said all it could. *)
Definition current (p : phase) (fired : bool) (q chunks : list (list Z)) : Prop :=
  match p with
  | PGreet => q = []
  | PRequest => q = [ack] \/ refused q
  | PConnect => fired = false -> q = [ack] \/ refused q
  | PForward => granted q chunks \/ refused q
  end.

Record talk (p : phase) (c : conn) (q chunks : list (list Z)) : Prop := {
  tk_shape : shape q chunks;
  tk_current : is_running (ses c) = true -> current p (fired c) q chunks;
  tk_chunks : p <> PForward -> chunks = [] }.

Lemma refused_app q l : refused q -> refused (q ++ l).
Proof. intros (f & k & -> & Hf). exists f, (k ++ l). by simpl. Qed.

Lemma refused_next q f : q = [ack] \/ refused q -> refusal f -> refused (q ++ [f]).
Proof. intros [-> | Hq] Hf; [by exists f, [] | by apply refused_app]. Qed.

Lemma shape_grow q c1 c2 : c1 `prefix_of` c2 -> shape q c1 -> shape q c2.
Proof.
  intros Hp [?|[?|[?|(l & Hg & Hl)]]]; [by left | by right; left | by right; right; left|].
  do 3 right. exists l. split; [done|]. by etransitivity.
Qed.

Lemma talk_mute p c ev c' q chunks :
  talk p c q chunks -> mute c ev c' -> talk p c' (q ++ offered (ses_events ev)) chunks.
Proof.
  intros [T1 T2 T3] (O1 & R1 & F1). rewrite O1, app_nil_r. split; [done | | done]. intros Hr.
  assert (Hr0 : is_running (ses c) = true) by (destruct (is_running (ses c)); [done|]; by rewrite R1 in Hr).
  specialize (T2 Hr0). destruct p; simpl in *; try done. intros Hf. apply T2.
  destruct (fired c); [|done]. by rewrite F1 in Hf.
Qed.

Lemma talk_utter p p' c ev c' d q chunks chunks' :
  talk p c q chunks -> utters d c ev c' -> chunks `prefix_of` chunks' -> (p' <> PForward -> chunks' = []) ->
  (current p (fired c) q chunks -> shape (q ++ [d]) chunks' /\ current p' (fired c') (q ++ [d]) chunks') ->
  talk p' c' (q ++ offered (ses_events ev)) chunks'.
Proof.
  intros [T1 T2 T3] (O1 & R1 & F1) Hp Hc Hn.
  destruct (is_running (ses c)) eqn:Hr.
  - destruct (Hn (T2 eq_refl)) as [N1 N2]. destruct O1 as [O1|[O1 Hr']]; rewrite O1.
    + by split.
    + rewrite app_nil_r. split; [by eapply shape_grow | by rewrite Hr' | done].
  - destruct (R1 eq_refl) as [Hr' O1']. rewrite O1', app_nil_r.
    split; [by eapply shape_grow | by rewrite Hr' | done].
Qed.

(** A refusal, from a phase where the verdict is still open. *)
Lemma talk_refusal p p' c ev c' f q chunks :
  talk p c q chunks -> utters f c ev c' -> refusal f -> p' <> PGreet ->
  (current p (fired c) q chunks -> q = [ack] \/ refused q) -> (p' <> PForward -> chunks = []) ->
  talk p' c' (q ++ offered (ses_events ev)) chunks.
Proof.
  intros Ht Hu Hf Hp Hq Hc. eapply talk_utter; eauto. intros Hcur.
  pose proof (refused_next q f (Hq Hcur) Hf) as Hr. split; [by do 2 right; left|].
  destruct p'; simpl; auto. done.
Qed.

Lemma refusal_builds code : code <> SOCKS5_REPLY_SUCCEEDED -> exists f, refusal f /\ build (mkResponse code [] 0) = Ret f.
Proof. intros Hc. eexists. split; [exists code; split; [done|] |]; reflexivity. Qed.

Lemma utters_refusal e code :
  code <> SOCKS5_REPLY_SUCCEEDED -> exists f, refusal f /\ keeps (utters f) (fail_with e code).
Proof. intros Hc. destruct (refusal_builds code Hc) as (f & Hf & Hb). exists f. split; [done | by apply utters_fail]. Qed.

Lemma mute_fire : keeps mute (emodify set_fired).
Proof. by apply mute_modify. Qed.

Lemma fire_refusal e code (x : cevent) :
  code <> SOCKS5_REPLY_SUCCEEDED -> offered (ses_events [x]) = [] ->
  exists f, refusal f /\ keeps (utters f) (emodify set_fired ;;; emit x ;;; fail_with e code).
Proof.
  intros Hc Hx. destruct (utters_refusal e code Hc) as (f & Hf & Hu). exists f. split; [done|].
  apply mute_utters; [apply mute_fire | intros _]. apply mute_utters; [by apply mute_emit | by intros _].
Qed.

(** ** The handlers *)

Lemma noop_mute {X} (m : M conn cevent X) c x : m c = (x, c, []) -> mute c (trace m c) (final m c).
Proof. intros E. unfold trace, final, mute. rewrite E. by split_and!. Qed.

(** [m] says nothing, or from an open verdict, a refusal. *)
Definition open_or_mute (m : M conn cevent unit) (c : conn) : Prop :=
  mute c (trace m c) (final m c) \/
  fired c = false /\ exists f, refusal f /\ utters f c (trace m c) (final m c).

Lemma deadline_said e ec c : open_or_mute (on_deadline e ec) c.
Proof.
  unfold open_or_mute, on_deadline. case_bool_decide; [left; exact (keeps_ret mute tt c)|].
  unfold trace, final. rewrite gets_bind. destruct (fired c) eqn:Ef; [left; exact (keeps_ret mute tt c)|].
  right. split; [done|]. destruct (utters_refusal e SOCKS5_REPLY_TTL_EXPIRED) as (f & Hf & Hu); [done|].
  exists f. split; [done|]. match goal with |- utters f c (?m c).2 _ => enough (Hk : keeps (utters f) m) by exact (Hk c) end.
  apply mute_utters; [apply mute_fire | intros _]. apply mute_utters; [by apply mute_emit | intros _].
  apply mute_utters; [apply keeps_gets, _ | intros b]. apply mute_utters; [|by intros _].
  destruct b; simpl; [|apply keeps_ret, _]. apply keeps_bind; [apply _ | by apply mute_upd | intros _].
  apply (mute_calm true), calm_emit; by intros [].
Qed.

Lemma resolved_said e ec rs c : open_or_mute (on_resolved e ec rs) c.
Proof.
  unfold open_or_mute, on_resolved, trace, final. rewrite !gets_bind.
  destruct (fired c) eqn:Ef; [left; exact (keeps_ret mute tt c)|].
  destruct (request c) as [rq|]; [|left; exact (keeps_ret mute tt c)].
  destruct (ec_failed ec).
  { right. split; [done|]. destruct (fire_refusal e SOCKS5_REPLY_HOST_UNREACHABLE DeadlineCancelled) as (f & Hf & Hu); [done..|].
    exists f. split; [done | exact (Hu c)]. }
  destruct (existsb _ rs && _).
  { right. split; [done|]. destruct (fire_refusal e SOCKS5_REPLY_NOT_ALLOWED DeadlineCancelled) as (f & Hf & Hu); [done..|].
    exists f. split; [done | exact (Hu c)]. }
  left. match goal with |- mute c (?m c).2 _ => enough (Hk : keeps mute m) by exact (Hk c) end.
  apply keeps_bind; [apply _ | by apply mute_upd | intros _; by apply mute_emit].
Qed.

Lemma error_code_refuses ec : get_error_reply_code ec <> SOCKS5_REPLY_SUCCEEDED.
Proof. by destruct ec. Qed.

Lemma connected_said e ec local c :
  endpoint_ok (HConnected ec local) ->
  (fired c = true /\ mute c (trace (on_connected e ec local) c) (final (on_connected e ec local) c)) \/
  (fired c = false /\ ec_failed ec = true /\
   exists f, refusal f /\ utters f c (trace (on_connected e ec local) c) (final (on_connected e ec local) c)) \/
  (fired c = false /\ ec_failed ec = false /\
   exists f, success f /\ utters f c (trace (on_connected e ec local) c) (final (on_connected e ec local) c)).
Proof.
  intros Hl. unfold on_connected, trace, final. rewrite gets_bind.
  destruct (fired c) eqn:Ef; [left; split; [done | exact (keeps_ret mute tt c)] | right].
  destruct (ec_failed ec); [left | right]; (split; [done|]); (split; [done|]).
  - destruct (fire_refusal e (get_error_reply_code ec) DeadlineCancelled) as (f & Hf & Hu);
      [apply error_code_refuses | done|]. exists f. split; [done | exact (Hu c)].
  - set (m := match local with Some _ => _ | None => _ end).
    assert (Hm : exists f, success f /\ keeps (utters f) m).
    { unfold m. destruct local as [[a po]|].
      - destruct Hl as [Ha Hp]. destruct (build_local SOCKS5_REPLY_SUCCEEDED a po Ha) as [f Hf]. exists f.
        split; [by exists (addr_to_string a), po|]. unfold send_socks5_reply. rewrite Hf.
        apply mute_utters; [by apply mute_emit | intros _; apply utters_send].
      - eexists. split; [exists [], 0; split; [split; lia | reflexivity]|].
        unfold send_socks5_reply. cbn [build]. apply mute_utters; [by apply mute_emit | intros _; apply utters_send]. }
    destruct Hm as (f & Hf & Hu). exists f. split; [done|].
    match goal with |- utters f c (?m c).2 _ => enough (Hk : keeps (utters f) m) by exact (Hk c) end.
    apply mute_utters; [apply mute_fire | intros _]. apply mute_utters; [by apply mute_emit | intros _].
    apply utters_mute; [done|]. intros _. apply keeps_bind; [apply _| |].
    + intros c1. unfold mute, trace, final, on_ses, session_handshake_done, ebind, emodify, upd, on_tun. simpl.
      split_and!; [done | by apply flag_off_running | done].
    + intros _. apply keeps_bind; [apply _ | apply keeps_gets, _ | intros pl].
      destruct (bool_decide _); [apply mute_start | by apply mute_emit].
Qed.
End Talk.

(** ** The run *)

Section Run.
Context {I : AsioIp} {IL : AsioIpLaws I} {A : Crypto.Aead} {K : Kcp} {F : FecCodec}.

Variables (req : list Z) (r : SOCKS5Request).
Hypothesis parses : parse_socks5_request req = mkParseResult PsComplete (Some r) [] false.
Hypothesis connects : req_cmd r = SOCKS5_CMD_CONNECT.
Hypothesis alone : req_initial_payload r = [].
Hypothesis fits : Z.of_nat (length req) <= FWD_BUF_SIZE.

(** The messages a session has dispatched in each phase. *)
Definition stream (p : phase) (ms : list (list Z)) : list (list Z) :=
  match p with
  | PGreet => []
  | PRequest => [hello]
  | PConnect => [hello; req]
  | PForward => hello :: req :: ms
  end.

Record srv_inv (p : phase) (x : srun) : Prop := {
  sv_core : core p (s_conn x) (s_posted x) (s_ops x);
  sv_stream : exists ms,
    s_got (s_in x) = stream p ms /\ (p <> PForward -> ms = []) /\ to_target (s_ev x) `prefix_of` ms /\
    (target_closed (ses (s_conn x)) = false -> to_target (s_ev x) = ms);
  sv_talk : talk p (s_conn x) (offered (ses_events (s_ev x))) (from_target (s_in x)) }.

(** A step that writes nothing to the target and dispatches no data. *)
Lemma srv_still p p' e h x q ops :
  srv_inv p x -> s_got [h] = [] -> (p' = p \/ p = PConnect /\ p' = PForward) ->
  after (core p') (happen e h) (s_conn x) q ops ->
  inert (s_conn x) (trace (happen e h) (s_conn x)) (final (happen e h) (s_conn x)) ->
  talk p' (final (happen e h) (s_conn x))
    (offered (ses_events (s_ev x)) ++ offered (ses_events (trace (happen e h) (s_conn x))))
    (from_target (s_in x ++ [h])) ->
  srv_inv p' (s_next e h x q ops).
Proof.
  intros [_ (ms & S1 & S2 & S3 & S4) _] Hg Hp Ha [Ht Hcl] Htk. split; simpl; [done | |].
  - exists ms. rewrite s_got_app, Hg, app_nil_r, to_target_app, Ht, app_nil_r. split_and!; [| | done |].
    + destruct Hp as [-> | [-> ->]]; [done|]. by rewrite S1, S2.
    + by destruct Hp as [-> | [-> ->]].
    + intros Hc. apply S4. destruct (target_closed (ses (s_conn x))) eqn:E; [by rewrite Hcl in Hc | done].
  - by rewrite ses_events_app, offered_app.
Qed.

(** Nothing said, nothing read from the target. *)
Lemma srv_quiet p e h x q ops :
  srv_inv p x -> s_got [h] = [] -> from_target [h] = [] ->
  after (core p) (happen e h) (s_conn x) q ops -> keeps inert (happen e h) -> keeps mute (happen e h) ->
  srv_inv p (s_next e h x q ops).
Proof.
  intros Hx Hg Hf Ha Hi Hm. eapply srv_still; eauto.
  rewrite from_target_app, Hf, app_nil_r. eapply talk_mute; [apply Hx | apply Hm].
Qed.

(** A verdict that may be open. *)
Lemma srv_verdict p e h x q ops :
  srv_inv p x -> s_got [h] = [] -> from_target [h] = [] -> p = PConnect \/ p = PForward ->
  after (core p) (happen e h) (s_conn x) q ops ->
  inert (s_conn x) (trace (happen e h) (s_conn x)) (final (happen e h) (s_conn x)) ->
  open_or_mute (happen e h) (s_conn x) ->
  srv_inv p (s_next e h x q ops).
Proof.
  intros Hx Hg Hf Hp Ha Hi Ho. eapply srv_still; eauto.
  rewrite from_target_app, Hf, app_nil_r. pose proof (sv_talk _ _ Hx) as Ht.
  destruct Ho as [Hm|(Hfi & f & Hfr & Hu)]; [by eapply talk_mute|].
  destruct Hp as [-> | ->].
  - eapply (talk_refusal PConnect); eauto; try done; by apply Ht.
  - pose proof (co_holds _ _ _ _ (sv_core _ _ Hx)) as Hh. simpl in Hh. congruence.
Qed.

(** ** Reads *)

Lemma mute_protocol_failed e ec d : ec <> ec_none -> keeps mute (on_protocol_read e ec d).
Proof.
  intros He. unfold on_protocol_read. rewrite ec_failed_true by done. cbn [orb].
  apply keeps_bind; [apply _ | apply mute_upd; intros; by apply flag_off_running | intros _].
  apply (mute_calm true), calm_close.
Qed.

Lemma mute_forward_read e ec d : keeps mute (on_forward_read e ec d).
Proof.
  unfold on_forward_read, look_ses. repeat first [keeps_step | apply keeps_gets; apply _
    | apply mute_upd; intros; by apply flag_off_running | apply (mute_calm true), calm_close
    | apply (mute_calm true), calm_emit; by intros []].
  intros c. unfold mute, trace, final, on_ses, emit. simpl. by split_and!.
Qed.

Lemma socks_failed_utters e ec d :
  ec <> ec_none -> exists f, refusal f /\ keeps (utters f) (on_socks5_read e ec d).
Proof.
  intros He. destruct (utters_refusal e SOCKS5_REPLY_GENERAL_FAILURE) as (f & Hf & Hu); [done|].
  exists f. split; [done|]. unfold on_socks5_read. rewrite ec_failed_true by done.
  apply mute_utters; [apply mute_upd; intros; by apply flag_off_running | by intros _].
Qed.

(** A stopped session has nothing more to say. *)
Lemma talk_stopped p c ev c' f q chunks :
  talk p c q chunks -> is_running (ses c) = false -> utters f c ev c' -> talk p c' (q ++ offered (ses_events ev)) chunks.
Proof.
  intros [T1 T2 T3] Hr (_ & R1 & _). destruct (R1 Hr) as [Hr' ->]. rewrite app_nil_r. split; [done | by rewrite Hr' | done].
Qed.

Lemma failed_said p e h ec d c q chunks :
  ec <> ec_none -> talk p c q chunks -> (is_running (ses c) = true -> h = tag_of p) ->
  talk p (final (on_read_complete e h ec d) c)
    (q ++ offered (ses_events (trace (on_read_complete e h ec d) c))) chunks.
Proof.
  intros He Ht Hh. unfold on_read_complete. destruct (h =? H_PROTOCOL) eqn:E1.
  { eapply talk_mute; [done | by apply mute_protocol_failed]. }
  destruct (h =? H_SOCKS5) eqn:E2; [|eapply talk_mute; [done | apply mute_forward_read]].
  destruct (socks_failed_utters e ec d He) as (f & Hf & Hu). specialize (Hu c).
  destruct (is_running (ses c)) eqn:Hr; [|by eapply talk_stopped].
  apply Z.eqb_eq in E2. destruct p; specialize (Hh eq_refl); rewrite E2 in Hh; try done.
  eapply (talk_refusal PRequest); eauto; try done. by apply Ht.
Qed.

Lemma hello_utters e : keeps (utters ack) (on_protocol_read e ec_none hello).
Proof.
  unfold on_protocol_read. apply mute_utters; [apply mute_upd; intros; by apply flag_off_running|]. intros _.
  cbn [ec_failed orb]. rewrite (bool_decide_false (hello = [])), (bool_decide_true (hello = hello)) by done.
  cbn [orb negb]. rewrite andb_false_r.
  apply mute_utters; [apply mute_upd; intros; by apply flag_on_running | intros _].
  apply mute_utters; [by apply (mute_calm true), calm_upd | intros _].
  apply utters_mute; [apply utters_send | intros _; apply mute_kcp_data].
Qed.

Lemma attempt_said e c : open_or_mute (attempt r e) c \/ fired c = true.
Proof.
  destruct (fired c) eqn:Ef; [by right | left]. unfold attempt.
  set (b := _ && _). destruct b; [right; split; [done|] | left].
  - destruct (fire_refusal e SOCKS5_REPLY_NOT_ALLOWED DeadlineCancelled) as (f & Hf & Hu); [done..|].
    exists f. split; [done|].
    enough (Hk : keeps (utters f) (emit DeadlineArmed ;;; emodify set_fired ;;; emit DeadlineCancelled ;;;
      fail_with e SOCKS5_REPLY_NOT_ALLOWED)) by exact (Hk c).
    apply mute_utters; [by apply mute_emit | by intros _].
  - enough (Hk : keeps mute (emit DeadlineArmed ;;; emit (ResolveStart (req_host r) (req_port r)))) by exact (Hk c).
    apply keeps_bind; [apply _ | by apply mute_emit | intros _; by apply mute_emit].
Qed.

Lemma request_said e c q chunks :
  accum c = [] -> talk PRequest c q chunks ->
  talk PConnect (final (on_socks5_read e ec_none req) c)
    (q ++ offered (ses_events (trace (on_socks5_read e ec_none req) c))) chunks.
Proof.
  intros Hc [T1 T2 T3]. unfold final, trace. rewrite (request_run req r) by done.
  assert (Ht : talk PConnect (attempt_state req r c) q chunks).
  { split; [done | | by intros _; apply T3]. intros Hr _. apply T2. rewrite <- Hr. symmetry. unfold is_running. simpl.
    etransitivity; [apply (flag_on_other RUNNING); by vm_compute | by apply (flag_off_other RUNNING)]. }
  destruct (attempt_said e (attempt_state req r c)) as [[Hm|(_ & f & Hf & Hu)]|?]; [| |done].
  - by eapply talk_mute.
  - eapply (talk_refusal PConnect); eauto; done.
Qed.

(** A read that brings data, by phase. *)
Lemma srv_hello e x q ops h :
  srv_inv PGreet x -> s_posted x = (h, ec_none, hello) :: q -> ops = s_ops x ->
  srv_inv PRequest (s_next e (HReadComplete h ec_none hello) x q ops).
Proof.
  intros [Hc (ms & S1 & S2 & S3 & S4) Ht] Eq ->. rewrite Eq in Hc.
  apply core_next in Hc as (Hc & Hgood & Hrun). destruct (Hgood eq_refl) as (-> & _ & Hl).
  specialize (S2 ltac:(done)). subst ms. split; simpl.
  - apply hello_core; [done|]. split; [by apply Hl | intros Hr; by apply Hrun].
  - exists []. rewrite s_got_app, S1, to_target_app. destruct (inert_protocol e ec_none hello (s_conn x)) as [Hti Hcl].
    cbn in Hti, Hcl |- *. rewrite Hti, app_nil_r. split_and!; try done. intros Hx. apply S4.
    destruct (target_closed (ses (s_conn x))); [by rewrite Hcl in Hx | done].
  - rewrite ses_events_app, offered_app, from_target_app, app_nil_r.
    eapply (talk_utter PGreet); [done | apply hello_utters | done | by intros _; apply Ht|].
    simpl. intros ->. split; [by right; left | by left].
Qed.

Lemma srv_request e x q ops h :
  srv_inv PRequest x -> s_posted x = (h, ec_none, req) :: q -> ops = s_ops x ->
  srv_inv PConnect (s_next e (HReadComplete h ec_none req) x q ops).
Proof.
  intros [Hc (ms & S1 & S2 & S3 & S4) Ht] Eq ->. rewrite Eq in Hc.
  apply core_next in Hc as (Hc & Hgood & Hrun). destruct (Hgood eq_refl) as (-> & _ & Hl).
  specialize (S2 ltac:(done)). subst ms. split; simpl.
  - eapply (request_parsed req r); eauto. split; [by apply Hl | intros Hr; by apply Hrun].
  - exists []. rewrite s_got_app, S1, to_target_app. destruct (inert_socks e ec_none req (s_conn x)) as [Hti Hcl].
    cbn in Hti, Hcl |- *. rewrite Hti, app_nil_r. split_and!; try done. intros Hx. apply S4.
    destruct (target_closed (ses (s_conn x))); [by rewrite Hcl in Hx | done].
  - rewrite ses_events_app, offered_app, from_target_app, app_nil_r. apply request_said; [|done].
    apply Hc.
Qed.

Lemma srv_data e x q ops h d :
  srv_inv PForward x -> s_posted x = (h, ec_none, d) :: q -> ops = s_ops x -> d <> [] ->
  srv_inv PForward (s_next e (HReadComplete h ec_none d) x q ops).
Proof.
  intros [Hc (ms & S1 & S2 & S3 & S4) Ht] Eq -> Hd. rewrite Eq in Hc.
  apply core_next in Hc as (Hc & Hgood & Hrun). destruct (Hgood eq_refl) as (-> & _ & _).
  assert (Em : happen e (HReadComplete (tag_of PForward) ec_none d) (s_conn x) =
    (if target_closed (ses (s_conn x)) then upd_ses (flag_off FORWARD_READ_PENDING)
     else on_ses (emit (TargetWrite d))) (s_conn x)).
  { change (happen e _ (s_conn x)) with (on_forward_read e ec_none d (s_conn x)). unfold on_forward_read, look_ses.
    rewrite (bool_decide_false (ec_none = ec_eof)), (bool_decide_false (d = [])) by done. cbn [ec_failed orb].
    by rewrite gets_bind. }
  split; cbn [s_next s_conn s_ev s_posted s_ops s_in]; unfold trace, final.
  - rewrite Em. destruct (target_closed (ses (s_conn x))).
    + by apply (forward_flag_core PForward _ q (s_ops x) (flag_off FORWARD_READ_PENDING)); [left|].
    + unfold on_ses, emit. simpl. rewrite app_nil_r. destruct Hc as [C1 C2 C3 C4 Ch C5 C6 C7].
      split; try done. apply Forall_app. by split; [|repeat constructor].
  - exists (ms ++ [d]). rewrite Em, s_got_app, S1, to_target_app. simpl.
    destruct (target_closed (ses (s_conn x))) eqn:Ecl; simpl.
    + rewrite app_nil_r, Ecl. split_and!; try done. by apply prefix_app_r.
    + rewrite S4 by done. by split_and!.
  - rewrite ses_events_app, offered_app, from_target_app, app_nil_r.
    eapply talk_mute; [done|]. exact (mute_forward_read e ec_none d (s_conn x)).
Qed.

Lemma next_read_some y q q' : next_read y q = Some q' -> q = y :: q'.
Proof. destruct q as [|x q]; simpl; [done|]. case_bool_decide as E; [|done]. by intros [= ->]; subst. Qed.

(** A failed read. *)
Lemma srv_failed p e h ec d x q :
  srv_inv p x -> s_posted x = (h, ec, d) :: q -> ec <> ec_none ->
  srv_inv p (s_next e (HReadComplete h ec d) x q (s_ops x)).
Proof.
  intros Hx Eq He. pose proof (sv_core _ _ Hx) as Hc. rewrite Eq in Hc.
  apply core_next in Hc as (Hc & _ & Hrun). apply (srv_still p); auto.
  - simpl. by rewrite bool_decide_false.
  - apply failed_read; [done | done |]. intros Hr. by apply Hrun.
  - by apply inert_happen.
  - rewrite from_target_app, app_nil_r. apply failed_said; [done | apply Hx |]. intros Hr. by apply Hrun.
Qed.

(** The connect handler. *)
Lemma srv_connected p e ec local x ops :
  srv_inv p x -> p = PConnect \/ p = PForward -> endpoint_ok (HConnected ec local) ->
  core p (s_conn x) (s_posted x) ops ->
  exists p', srv_inv p' (s_next e (HConnected ec local) x (s_posted x) ops).
Proof.
  intros Hx Hp Hl Hc. pose proof (sv_talk _ _ Hx) as Ht.
  assert (Hin : inert (s_conn x) (trace (on_connected e ec local) (s_conn x)) (final (on_connected e ec local) (s_conn x))).
  { destruct Hp as [-> | ->]; [apply inert_connected, Hc|]. pose proof (co_holds _ _ _ _ Hc) as Hh. simpl in Hh.
    unfold on_connected. rewrite trace_gets, final_gets, Hh. exact (keeps_ret inert tt (s_conn x)). }
  assert (Hft : from_target (s_in x ++ [HConnected ec local]) = from_target (s_in x)) by (by rewrite from_target_app, app_nil_r).
  assert (Hno : fired (s_conn x) = true -> after (core p) (on_connected e ec local) (s_conn x) (s_posted x) ops).
  { intros Ef. unfold Relay.after, on_connected. rewrite trace_gets, final_gets, Ef. by apply after_ret. }
  destruct (connected_said e ec local (s_conn x) Hl) as [(Hf & Hm)|[(Hf & He & f & Hr & Hu)|(Hf & He & f & Hs & Hu)]].
  - exists p. apply (srv_still p); auto. rewrite Hft. by eapply talk_mute.
  - destruct Hp as [-> | ->]; [|pose proof (co_holds _ _ _ _ Hc) as Hh; simpl in Hh; congruence].
    destruct (connected_core e ec local _ _ _ Hc) as [(? & _)|[(_ & _ & Ha)|(_ & ? & _)]]; [congruence | | congruence].
    exists PConnect. apply (srv_still PConnect); auto. rewrite Hft.
    eapply (talk_refusal PConnect); eauto; try done. by apply Ht.
  - destruct Hp as [-> | ->]; [|pose proof (co_holds _ _ _ _ Hc) as Hh; simpl in Hh; congruence].
    destruct (connected_core e ec local _ _ _ Hc) as [(? & _)|[(_ & ? & _)|(_ & _ & Ha)]]; [congruence | congruence |].
    exists PForward. apply (srv_still PConnect); auto. rewrite Hft.
    assert (Hch : from_target (s_in x) = []) by by apply Ht. rewrite Hch in *.
    eapply (talk_utter PConnect); eauto; [done..|]. simpl. intros Hq. destruct (Hq Hf) as [Hq'|Hq'].
    + assert (Hg : granted (offered (ses_events (s_ev x)) ++ [f]) []) by (rewrite Hq'; by exists f).
      split; [do 3 right; by exists [] | by left].
    + apply (refused_app _ [f]) in Hq'. split; [by do 2 right; left | by right].
Qed.

(** Data from the target. *)
Lemma srv_target_read e ec d x ops :
  srv_inv PForward x -> core PForward (s_conn x) (s_posted x) ops ->
  srv_inv PForward (s_next e (HTargetRead ec d) x (s_posted x) ops).
Proof.
  intros Hx Hc. apply (srv_still PForward); auto.
  - by apply after_drift; [apply drift_target_read|].
  - by apply inert_happen.
  - rewrite from_target_app. pose proof (sv_talk _ _ Hx) as Ht. simpl. unfold on_target_read.
    destruct (ec_failed ec || bool_decide (d = [])); simpl.
    + rewrite app_nil_r. eapply talk_mute; [done|]. apply (mute_calm true), calm_target_closed.
    + assert (Hu : keeps (utters d) (on_ses (send_data (c_env e) d) ;;; on_ses (forward_tcp_to_kcp (c_env e)))).
      { apply utters_mute; [apply utters_send | intros _; apply (mute_calm false), calm_forward_tcp]. }
      eapply (talk_utter PForward); [done | apply Hu | by apply prefix_app_r | done |]. simpl.
      intros [(f & Hq & Hs)|Hq].
      * assert (Hg : granted (offered (ses_events (s_ev x)) ++ [d]) (from_target (s_in x) ++ [d]))
          by (rewrite Hq; by exists f).
        split; [do 3 right; eauto | by left].
      * apply (refused_app _ [d]) in Hq. split; [by do 2 right; left | by right].
Qed.

Lemma mute_written e ec : keeps mute (on_forward_written e ec).
Proof.
  unfold on_forward_written, look_ses. destruct (ec_failed ec); [apply (mute_calm true), calm_target_closed|].
  apply keeps_bind; [apply _ | apply keeps_gets, _ | intros b].
  apply keeps_bind; [apply _ | apply mute_upd; intros; by apply flag_off_running | intros _].
  apply keeps_when; [apply _ | apply mute_forward].
Qed.

(** One delivery. *)
Lemma srv_step p e h x x' rest :
  srv_inv p x -> s_step e h x = Some x' -> endpoint_ok h ->
  s_got (s_in x') `prefix_of` hello :: req :: rest -> Forall (fun d => d <> []) rest ->
  exists p', srv_inv p' x'.
Proof.
  intros Hx Hs Hl Hpre Hne. unfold s_step in Hs. pose proof (sv_core _ _ Hx) as Hc.
  destruct h as [d|d| |h ec d|ec|ec rs|ec local|ec|ec d|ec| |]; simpl in Hs.
  - injection Hs as <-. exists p. apply srv_quiet; auto.
    + apply after_bind. eapply after_impl; [intros; by apply kcp_data_core|].
      apply after_drift; [apply drift_ses, sdrift_receive | done].
    + by apply inert_happen.
    + apply keeps_bind; [apply _ | apply (mute_calm true), calm_receive | intros _; apply mute_kcp_data].
  - done.
  - injection Hs as <-. exists p. apply srv_quiet; auto.
    + apply after_drift; [apply drift_ses, sdrift_tick | done].
    + by apply inert_happen.
    + apply (mute_calm true), calm_tick.
  - destruct (next_read (h, ec, d) (s_posted x)) as [q|] eqn:Eq; [|done]. injection Hs as <-.
    apply next_read_some in Eq. destruct (decide (ec = ec_none)) as [->|He]; [|exists p; by apply srv_failed].
    destruct (sv_stream _ _ Hx) as (ms & S1 & S2 & _). simpl in Hpre. rewrite s_got_app, S1 in Hpre. simpl in Hpre.
    destruct p; simpl in Hpre.
    + apply prefix_cons_inv_1 in Hpre as ->. exists PRequest. by apply srv_hello.
    + apply prefix_cons_inv_2, prefix_cons_inv_1 in Hpre as ->. exists PConnect. by apply srv_request.
    + rewrite Eq in Hc. apply core_next in Hc as (_ & Hg & _). by destruct (Hg eq_refl) as (_ & ? & _).
    + apply prefix_cons_inv_2, prefix_cons_inv_2 in Hpre. exists PForward. apply srv_data; auto.
      destruct Hpre as [k ->]. rewrite list.Forall_forall in Hne. apply Hne.
      rewrite !elem_of_app, elem_of_cons. auto.
  - destruct (take_one ODeadline (s_ops x)) as [ops|] eqn:Et; [|done]. injection Hs as <-. exists p.
    apply srv_verdict; auto; [| apply after_drift; [apply drift_deadline | by eapply core_take] | by apply inert_happen
      | apply deadline_said].
    pose proof (core_ops_in _ _ _ _ _ _ Hc Et). by destruct p; auto.
  - destruct (take_one OResolve (s_ops x)) as [ops|] eqn:Et; [|done]. injection Hs as <-. exists p.
    pose proof (core_ops_in _ _ _ _ _ _ Hc Et) as Hin.
    apply srv_verdict; auto; [by destruct p; auto | | by apply inert_happen | apply resolved_said].
    apply after_drift; [apply drift_resolved; by destruct p | by eapply core_take].
  - destruct (take_one OConnect (s_ops x)) as [ops|] eqn:Et; [|done]. injection Hs as <-.
    pose proof (core_ops_in _ _ _ _ _ _ Hc Et) as Hin.
    eapply srv_connected; eauto; [by destruct p; auto | by eapply core_take].
  - destruct (take_one OInitial (s_ops x)) as [ops|] eqn:Et; [|done].
    pose proof (core_ops_in _ _ _ _ _ _ Hc Et) as Hin. by destruct p.
  - destruct (take_one OPull (s_ops x)) as [ops|] eqn:Et; [|done]. injection Hs as <-.
    pose proof (core_ops_in _ _ _ _ _ _ Hc Et) as Hin. destruct p; try done. exists PForward.
    apply srv_target_read; [done | by eapply core_take].
  - destruct (take_one OWrite (s_ops x)) as [ops|] eqn:Et; [|done]. injection Hs as <-.
    pose proof (core_ops_in _ _ _ _ _ _ Hc Et) as Hin. destruct p; try done. exists PForward.
    apply srv_quiet; auto; [apply written_core; by eapply core_take | by apply inert_happen | apply mute_written].
  - injection Hs as <-. exists p. apply srv_quiet; auto.
    + apply after_drift; [by apply drift_own | done].
    + by apply inert_happen.
    + by apply mute_upd.
  - injection Hs as <-. exists p. apply srv_quiet; auto.
    + apply after_drift; [apply drift_ses, sdrift_stop | done].
    + by apply inert_happen.
    + apply (mute_calm true), calm_stop.
Qed.

(** A new session. *)
Lemma srv_start e plain e0 conv crypto fec s :
  new_session e0 conv crypto fec = Ret s -> srv_inv PGreet (s_start e plain s).
Proof.
  intros Hn. unfold new_session in Hn. destruct (create e0 conv crypto fec) as [t|] eqn:Et; [|done].
  assert (Ht : pending_read_handler t = None /\ write_resume_cb t = None /\ handshake_done t = false).
  { unfold create in Et. repeat case_match; by simplify_eq. }
  injection Hn as <-. destruct Ht as (H1 & H2 & H3). set (s := flag_on RUNNING _).
  assert (Hc : core PGreet (new_conn s) [] []).
  { split; simpl; try done; unfold waiting; simpl; rewrite ?H1; try done.
    - split; [constructor | simpl; lia].
    - intros _. split_and!; [constructor | simpl; lia | done]. }
  assert (Ha : after (core PGreet) (on_first_datagram e plain) (new_conn s) [] []).
  { apply after_bind. eapply after_impl; [intros; by apply kcp_data_core|].
    apply after_drift; [apply drift_ses, sdrift_inject | done]. }
  assert (Hi : keeps inert (on_first_datagram e plain)) by exact (inert_happen e (HFirst plain) Logic.I).
  assert (Hm : keeps mute (on_first_datagram e plain)).
  { apply keeps_bind; [apply _ | apply (mute_calm true), calm_inject | intros _; apply mute_kcp_data]. }
  split; [exact Ha | |].
  - exists []. unfold s_start. cbn [s_in s_ev]. destruct (Hi (new_conn s)) as [-> _]. done.
  - apply (talk_mute PGreet (new_conn s) _ _ [] []); [|apply Hm]. split; [by left | done | done].
Qed.
End Run.
