(* ===== verification/RelayTarget.v ===== *)
(** * RelayTarget: where the server connects

    What a session resolves and connects to, for a client that speaks the
    protocol: nothing before the request was dispatched, and then only the
    host and the port of the request. *)

From Stdlib Require Import ZArith Lia.
From stdpp Require Import base list strings.
From S2P Require Import Prelude Config Asio Address Socks5 Allowlist Effects Kcp Tunnel TunnelProofs Flow.
From S2P Require Import Session Calm Connection Relay RelayServer RelayServerRun.
From S2P Require Crypto.

(** The hosts and ports given to the resolver and to the connect. *)
Definition targets (ev : list cevent) : list (list Z * Z) :=
  omap (fun x => match x with
                 | ResolveStart h p => Some (h, p)
                 | ConnectStart h p _ => Some (h, p)
                 | _ => None end) ev.

Lemma targets_app e1 e2 : targets (e1 ++ e2) = targets e1 ++ targets e2.
Proof. apply omap_app. Qed.
Lemma targets_ses ev : targets (Ses <$> ev) = [].
Proof. induction ev as [|x ev IH]; [done|]. simpl. exact IH. Qed.

Section Target.
Context {I : AsioIp} {IL : AsioIpLaws I} {A : Crypto.Aead} {K : Kcp} {F : FecCodec}.

Variables (req : list Z) (r : SOCKS5Request).
Hypothesis parses : parse_socks5_request req = mkParseResult PsComplete (Some r) [] false.

Definition target : list Z * Z := (req_host r, req_port r).

(** Before the request, and once it may have been read. *)
Definition early (c : conn) : Prop := accum c = [] /\ request c = None.
Definition late (c : conn) : Prop := (accum c = [] \/ accum c = req) /\ (request c = None \/ request c = Some r).

Definition stays_early (c : conn) (ev : list cevent) (c' : conn) : Prop := early c -> early c' /\ targets ev = [].
Definition stays_late (c : conn) (ev : list cevent) (c' : conn) : Prop :=
  late c -> late c' /\ Forall (eq target) (targets ev).
Definition aims (c : conn) (ev : list cevent) (c' : conn) : Prop := stays_early c ev c' /\ stays_late c ev c'.

#[export] Instance stays_late_comp : Compositional stays_late.
Proof.
  split; [by split|]. intros c1 c2 c3 e1 e2 L1 L2 H. rewrite targets_app.
  destruct (L1 H) as [H2 F1], (L2 H2) as [H3 F2]. split; [done | by apply Forall_app].
Qed.
#[export] Instance aims_comp : Compositional aims.
Proof.
  split; [by split|]. intros c1 c2 c3 e1 e2 [E1 L1] [E2 L2]. split; [|by eapply (comp_trans (R := stays_late))].
  intros H. rewrite targets_app. destruct (E1 H) as [H2 ->], (E2 H2) as [H3 ->]. done.
Qed.
Lemma aims_late {X} (m : M conn cevent X) : keeps aims m -> keeps stays_late m.
Proof. intros Hm c. apply Hm. Qed.

(** The session has no part in it. *)
Lemma aims_ses {X} (m : M session event X) : keeps aims (on_ses m).
Proof. intros c. rewrite final_ses, trace_ses. unfold aims, stays_early, stays_late. by rewrite targets_ses. Qed.
Lemma aims_upd f : keeps aims (upd_ses f).
Proof. apply aims_ses. Qed.
Lemma aims_emit x : targets [x] = [] -> keeps aims (emit x).
Proof. intros Hx c. change (aims c [x] c). unfold aims, stays_early, stays_late. by rewrite Hx. Qed.
Lemma aims_fired : keeps aims (emodify set_fired).
Proof. intros c. by split. Qed.

Ltac aim :=
  repeat first [keeps_step | apply keeps_gets; apply _ | apply aims_ses | apply aims_upd | apply aims_fired
    | apply aims_emit; done].

Lemma aims_reply e c h p : keeps aims (send_socks5_reply e c h p).
Proof. unfold send_socks5_reply. aim. Qed.
Lemma aims_fail e c : keeps aims (fail_with e c).
Proof. unfold fail_with. aim. apply aims_reply. Qed.
Lemma aims_forward e : keeps aims (forward_kcp_to_tcp e).
Proof. unfold forward_kcp_to_tcp, look_ses. aim. Qed.
Lemma aims_start e : keeps aims (start_forwarding e).
Proof. unfold start_forwarding, look_ses. aim. apply aims_forward. Qed.

(** The attempt at the request. *)
Lemma late_attempt e : keeps stays_late (attempt r e).
Proof.
  unfold attempt. apply keeps_bind; [apply _ | by apply aims_late, aims_emit | intros _]. destruct (_ && _).
  - apply aims_late. aim. apply aims_fail.
  - intros c Hc. split; [exact Hc | by repeat constructor].
Qed.
Lemma late_connect e payload : keeps stays_late (handle_connect_command e r payload).
Proof.
  unfold handle_connect_command. apply keeps_bind; [apply _ | | intros _; apply late_attempt].
  intros c [Ha _]. split; [split; [exact Ha | by right] | constructor].
Qed.

Lemma aims_parse e : keeps aims (parse_accumulated_socks5 e).
Proof.
  intros c. unfold parse_accumulated_socks5. rewrite final_gets, trace_gets. split.
  - intros Hc. pose proof (proj1 Hc) as ->. done.
  - intros Hc. pose proof (proj1 Hc) as [-> | ->]; [by split|]. rewrite parses. cbn [pr_status pr_request].
    match goal with |- late (final ?m c) /\ _ => enough (Hk : keeps stays_late m) by exact (Hk c Hc) end.
    apply keeps_bind; [apply _ | apply aims_late, aims_upd | intros _].
    apply keeps_bind; [apply _ | | intros _; apply keeps_ret, _].
    destruct (req_cmd r =? SOCKS5_CMD_CONNECT).
    + apply keeps_bind; [apply _ | apply aims_late, aims_upd | intros _; apply late_connect].
    + apply aims_late. unfold handle_udp_associate. aim; apply aims_fail.
Qed.

Lemma aims_more e : keeps aims (read_more_socks5 e).
Proof. unfold read_more_socks5. aim. apply aims_parse. Qed.
Lemma aims_request e : keeps aims (handle_socks5_request e []).
Proof.
  unfold handle_socks5_request. aim; [|apply aims_more]. intros c. split; intros [Ha Hr]; (split; [|constructor]).
  - by split.
  - split; [by left | exact Hr].
Qed.
Lemma aims_kcp_data e : keeps aims (handle_kcp_data e).
Proof.
  unfold handle_kcp_data, handle_protocol_handshake, look_ses. aim; [apply aims_forward | apply aims_request].
Qed.
Lemma aims_resolved e ec rs : keeps aims (on_resolved e ec rs).
Proof.
  intros c. unfold on_resolved. rewrite !final_gets, !trace_gets.
  destruct (fired c); [apply (keeps_ret aims)|]. split.
  - intros Hc. pose proof (proj2 Hc) as ->. done.
  - intros Hc. pose proof (proj2 Hc) as [-> | ->]; [by split|].
    match goal with |- late (final ?m c) /\ _ => enough (Hk : keeps stays_late m) by exact (Hk c Hc) end.
    destruct (ec_failed ec); [|destruct (_ && _)]; [apply aims_late; aim; apply aims_fail..|].
    apply keeps_bind; [apply _ | apply aims_late, aims_upd | intros _]. intros c1 H1.
    split; [exact H1 | by repeat constructor].
Qed.

(** Everything but the reads that bring the handshake. *)
Lemma aims_happen e h :
  match h with HReadComplete hd ec _ => ec <> ec_none \/ hd = Connection.H_FORWARD | _ => True end -> keeps aims (happen e h).
Proof.
  destruct h as [d|d| |hd ec d|ec|ec rs|ec local|ec|ec d|ec| |]; simpl; intros Hh;
    unfold on_datagram, on_first_datagram, on_deadline, on_connected, on_initial_written,
    on_target_read, on_forward_written, look_ses; aim;
    auto using aims_kcp_data, aims_fail, aims_reply, aims_forward, aims_start, aims_resolved.
  unfold on_read_complete, on_protocol_read, on_socks5_read, on_forward_read, look_ses.
  destruct Hh as [Hh | ->]; [rewrite (ec_failed_true ec) by done|]; cbn [orb]; aim; first [apply aims_fail | discriminate].
Qed.

(** The greeting. *)
Lemma aims_hello e : keeps aims (on_protocol_read e ec_none hello).
Proof.
  unfold on_protocol_read. cbn [ec_failed orb].
  rewrite (bool_decide_false (hello = [])), (bool_decide_true (hello = hello)) by done.
  cbn [orb negb]. rewrite andb_false_r. aim. apply aims_kcp_data.
Qed.

(** ** The run *)

Hypothesis connects : req_cmd r = SOCKS5_CMD_CONNECT.
Hypothesis alone : req_initial_payload r = [].
Hypothesis fits : Z.of_nat (length req) <= FWD_BUF_SIZE.

(** Until the request was dispatched nothing is resolved, then only its
    target. *)
Definition aim_inv (x : srun) : Prop :=
  if (length (s_got (s_in x)) <? 2)%nat then early (s_conn x) /\ targets (s_ev x) = []
  else late (s_conn x) /\ Forall (eq target) (targets (s_ev x)).

Lemma aim_keeps e h x q ops :
  aim_inv x -> aims (s_conn x) (trace (happen e h) (s_conn x)) (final (happen e h) (s_conn x)) ->
  (length (s_got (s_in x ++ [h])) <? 2)%nat = (length (s_got (s_in x)) <? 2)%nat -> aim_inv (s_next e h x q ops).
Proof.
  unfold aim_inv. cbn [s_next s_in s_conn s_ev]. intros Hx [He Hl] ->. rewrite targets_app. destruct (_ <? 2)%nat.
  - destruct Hx as [Hx ->], (He Hx) as [Hx' ->]. done.
  - destruct Hx as [Hx Ht], (Hl Hx) as [Hx' Ht']. split; [done | by apply Forall_app].
Qed.

(** The request brings the connection from early to late. *)
Lemma aim_request e x q ops :
  aim_inv x -> s_got (s_in x) = [hello] -> aim_inv (s_next e (HReadComplete H_SOCKS5 ec_none req) x q ops).
Proof.
  intros Hx Hg. unfold aim_inv in *. rewrite Hg in Hx. destruct Hx as [[Ha Hr] Ht].
  assert (E : happen e (HReadComplete H_SOCKS5 ec_none req) (s_conn x) = attempt r e (attempt_state req r (s_conn x)))
    by exact (request_run req r parses connects alone fits e (s_conn x) Ha).
  cbn [s_next s_in s_conn s_ev]. rewrite s_got_app, Hg, targets_app, Ht. unfold final, trace. rewrite E.
  apply (late_attempt e (attempt_state req r (s_conn x))). split; by right.
Qed.

Lemma aim_step p e h x x' rest :
  srv_inv req p x -> aim_inv x -> s_step e h x = Some x' -> s_got (s_in x') `prefix_of` hello :: req :: rest -> aim_inv x'.
Proof.
  intros Hx Ha Hs Hpre. pose proof (sv_core _ _ _ Hx) as Hc. unfold s_step in Hs.
  destruct (s_take h _ _) as [[q ops]|] eqn:Et; [|done]. injection Hs as <-.
  assert (Hread : (exists hd d, h = HReadComplete hd ec_none d) \/ s_got [h] = [] /\ keeps aims (happen e h)).
  { destruct h as [| | |hd ec d| | | | | | | |]; try (right; split; [done | by apply aims_happen]).
    destruct (decide (ec = ec_none)) as [->|He]; [left; by exists hd, d | right].
    split; [simpl; by rewrite bool_decide_false | apply aims_happen; by left]. }
  destruct Hread as [(hd & d & ->)|[Hg Hk]].
  2:{ apply aim_keeps; [done | apply Hk|]. by rewrite s_got_app, Hg, app_nil_r. }
  simpl in Et. destruct (next_read _ _) as [q'|] eqn:Eq; [|done]. simplify_eq/=. apply next_read_some in Eq.
  rewrite Eq in Hc. apply core_next in Hc as (_ & Hg & _). destruct (Hg eq_refl) as (-> & Hp & _).
  destruct (sv_stream _ _ _ Hx) as (ms & S1 & _). rewrite s_got_app, S1 in Hpre.
  destruct p; simpl in *.
  - apply prefix_cons_inv_1 in Hpre as ->. apply aim_keeps; [done | apply aims_hello|].
    by rewrite s_got_app, S1.
  - apply prefix_cons_inv_2, prefix_cons_inv_1 in Hpre as ->. by apply aim_request.
  - done.
  - apply aim_keeps; [done | apply aims_happen; by right|]. by rewrite s_got_app, S1.
Qed.

Lemma aim_start e plain s : aim_inv (s_start e plain s).
Proof.
  unfold aim_inv. cbn. pose proof (aims_happen e (HFirst plain) Logic.I (new_conn s)) as [He _]. by apply He.
Qed.
End Target.
