(* ===== verification/RelayClient.v ===== *)
(** * RelayClient: the client's half of the relay

    An invariant of the client's loop of [Relay], for a server that speaks the
    protocol. The handshake and the downstream loop are one thread of control:
    at most one of its operations is outstanding at any moment, whatever
    timers, packets and closings come in between; so every message reaches the
    handler it was meant for. *)

From Stdlib Require Import ZArith Lia.
From stdpp Require Import base list strings.
From S2P Require Import Prelude Config Asio Address Socks5 Effects Kcp Tunnel TunnelProofs Flow.
From S2P Require Import ClientSession ClientSessionProofs Calm Link Client ClientProofs Relay.
From S2P Require Import RelayServer RelayServerRun.
From S2P Require Crypto.

Lemma cli_events_app e1 e2 : cli_events (e1 ++ e2) = cli_events e1 ++ cli_events e2.
Proof. apply omap_app. Qed.
Lemma a_started_app e1 e2 : a_started (e1 ++ e2) = a_started e1 ++ a_started e2.
Proof. apply omap_app. Qed.
Lemma to_app_app e1 e2 : to_app (e1 ++ e2) = to_app e1 ++ to_app e2.
Proof. apply omap_app. Qed.
Lemma cli_events_cli ev : cli_events (Cli <$> ev) = ev.
Proof. induction ev as [|x ev IH]; [done|]. rewrite fmap_cons. exact (f_equal (cons x) IH). Qed.
Lemma to_app_cli ev : to_app (Cli <$> ev) = [].
Proof. induction ev as [|x ev IH]; [done|]. rewrite fmap_cons. exact IH. Qed.
Lemma a_got_app h1 h2 : a_got (h1 ++ h2) = a_got h1 ++ a_got h2.
Proof. apply omap_app. Qed.
Lemma from_app_app h1 h2 : from_app (h1 ++ h2) = from_app h1 ++ from_app h2.
Proof. apply omap_app. Qed.

#[export] Instance client_trace : LoopTrace cli_events a_started.
Proof. split; [done | apply cli_events_app | done | apply a_started_app]. Qed.

Abbreviation after := (Relay.after cli_events a_started).
Abbreviation after_bind := (Relay.after_bind cli_events a_started).
Abbreviation after_ret := (Relay.after_ret cli_events a_started).

(** ** Phases *)

(** Connecting the session; the greeting and the request; waiting for the
    reply; refused; telling the application; forwarding. *)
Inductive cphase : Type := CConnect | CGreet | CAsk | CRefused | CReply | CForward.

Definition ctag (ph : cphase) : option Z :=
  match ph with
  | CConnect => Some H_ACK
  | CAsk => Some H_REPLY
  | CForward => Some Client.H_FORWARD
  | CGreet | CRefused | CReply => None
  end.

(** The operations of the thread of control. *)
Definition is_token (o : aop) : Prop :=
  match o with OConnected ok => ok = true | OAppRead _ _ | OAppWrite _ => True | OLocalRead => False end.
#[export] Instance is_token_dec o : Decision (is_token o).
Proof. destruct o; simpl; apply _. Defined.

(** A domain name is read with the length its prefix gave. *)
Definition read_in (st : read_stage) (n : nat) : Prop :=
  match st with RequestDomain _ dlen => 0 < dlen /\ n = (Z.to_nat dlen + 2)%nat | _ => True end.

Definition aop_in (ph : cphase) (o : aop) : Prop :=
  match ph, o with
  | _, OConnected false => True
  | CGreet, OAppRead st n => read_in st n
  | CGreet, (OConnected true | OAppWrite (ThenAbort | MethodSelected _)) => True
  | (CAsk | CRefused), OAppWrite ThenAbort => True
  | CReply, OAppWrite ReplyForwarded => True
  | CForward, (OAppWrite DataForwarded | OLocalRead) => True
  | _, _ => False
  end.

Definition cstrict (ph : cphase) : bool := match ph with CForward => false | _ => true end.

Section Fades.
Context {A : Crypto.Aead} {K : Kcp} {F : FecCodec}.

(** ** A session that is not being connected only winds down *)

Definition fades (s : client_session) (ev : list event) (s' : client_session) : Prop :=
  (running s' = true -> running s = true /\ connected s' = connected s) /\
  Forall (fun x => x <> ConnectDone true) ev.

#[export] Instance fades_comp : Compositional fades.
Proof.
  split; [done|]. intros s1 s2 s3 e1 e2 [R1 E1] [R2 E2]. split; [|by apply Forall_app].
  intros H3. destruct (R2 H3) as [H2 ->]. auto.
Qed.
#[export] Instance fades_base : BaseFrame (St := client_session) fades.
Proof. split; [apply _|]. intros t s ev Hev. split; [done|]. eapply List.Forall_impl; [|exact Hev]. by intros []. Qed.

Lemma fades_emit x : x <> ConnectDone true -> keeps fades (emit x).
Proof. intros Hx s. split; [done|]. by apply list.Forall_singleton. Qed.
Lemma fades_set (f : client_session -> client_session) :
  (forall s, running (f s) = true -> running s = true /\ connected (f s) = connected s) -> keeps fades (emodify f).
Proof. intros Hf s. split; [apply Hf | constructor]. Qed.

Ltac fade :=
  repeat first [keeps_step | apply frame_look; apply _ | apply frame_upd; apply _ | by apply fades_emit
    | apply fades_set; by intros].

#[export] Instance fades_client : ClientFrame fades.
Proof.
  split; [apply _ | | intros; by apply fades_emit | split; by apply fades_set | unfold close_socket; fade].
  intros s. split; [done|]. unfold trace, request_teardown. simpl. destruct (encrypt_teardown s); by repeat constructor.
Qed.

Lemma fades_forward e : keeps fades (forward_client_to_kcp e).
Proof. unfold forward_client_to_kcp. fade. Qed.
Lemma fades_close_local : keeps fades close_local.
Proof. unfold close_local. fade. Qed.

#[export] Instance fades_host : HostFrame (St := client_session) fades.
Proof.
  split; intros; [apply (frame_on_close fades)|]. simpl. unfold resume_local. fade;
    auto using fades_close_local, fades_forward.
Qed.

Lemma fades_received e ec p : keeps fades (on_udp_receive e ec p).
Proof.
  unfold on_udp_receive, do_udp_receive, client_on_receive. fade.
  apply frame_feed_and_drain; [apply _..|]. intros. by apply fades_emit.
Qed.

Lemma fades_backoff ec : keeps fades (on_receive_backoff ec).
Proof. unfold on_receive_backoff, do_udp_receive. fade. Qed.

Lemma fades_tick e : keeps fades (client_update_tick e).
Proof.
  unfold client_update_tick. fade;
    first [apply (frame_on_close fades) | apply frame_flush_due | apply frame_flush_cycle | apply frame_fulfill
          | apply frame_maybe_resume | apply frame_retry_fin | apply frame_tun]; try apply _.
  - by apply emits_stats.
  - by apply emits_keepalive.
Qed.

Lemma fades_timer e ec : keeps fades (on_connect_timer e ec).
Proof.
  unfold on_connect_timer, take_completion. fade; first [apply (frame_on_close fades) | by intros s].
Qed.

(** ** Steps that stay in a phase *)

Record cdrift (b : bool) (s : client_session) (ev : list event) (s' : client_session) : Prop := {
  cd_still : still b s ev s';
  cd_read : read_step (cbase s) ev (cbase s');
  cd_fades : fades s ev s' }.

#[export] Instance cdrift_comp b : Compositional (cdrift b).
Proof.
  split; [intros s; split; apply comp_refl|]. intros s1 s2 s3 e1 e2 [S1 R1 F1] [S2 R2 F2].
  split; [by eapply comp_trans | by eapply (comp_trans (R := read_step)) | by eapply comp_trans].
Qed.

Lemma cdrift_book {X} b (m : M client_session event X) :
  keeps (calm b) m -> keeps (on_st tun_book) m -> keeps fades m -> keeps (cdrift b) m.
Proof. intros Hc Ht Hf s. split; [apply calm_still, Hc | apply tun_book_read, Ht | apply Hf]. Qed.

Lemma cdrift_calm {X} b (m : M client_session event X) :
  keeps (calm b) m -> keeps (on_st tun_step) m -> keeps fades m -> keeps (cdrift b) m.
Proof. intros Hc Ht Hf. apply cdrift_book; [done | | done]. intros s. apply tun_step_book, Ht. Qed.

Lemma cdrift_send b e d : keeps (cdrift b) (send_data e d).
Proof.
  intros s. destruct (send_offers e d s) as ([H1 H2 H3 H4] & _ & _ & _).
  pose proof (send_data_step (St := client_session) e d s) as T.
  split; [split; auto | apply tun_step_read, T | apply (frame_send_data fades)].
Qed.

Lemma cdrift_close b e : keeps (cdrift b) (on_close e).
Proof. apply cdrift_calm; [apply calm_on_close | apply on_close_step | apply (frame_on_close fades)]. Qed.
Lemma cdrift_close_local b : keeps (cdrift b) close_local.
Proof.
  apply cdrift_calm; [apply calm_close_local | | apply fades_close_local]. unfold close_local.
  repeat keeps_step; [by apply client_member | apply client_event; intros; step_split].
Qed.
Lemma cdrift_received b e ec p : keeps (cdrift b) (on_udp_receive e ec p).
Proof. apply cdrift_calm; [apply calm_udp_receive | apply on_udp_receive_step | apply fades_received]. Qed.
Lemma cdrift_tick b e : keeps (cdrift b) (client_update_tick e).
Proof. apply cdrift_calm; [apply calm_client_tick | apply client_tick_step | apply fades_tick]. Qed.
Lemma cdrift_timer b e ec : keeps (cdrift b) (on_connect_timer e ec).
Proof. apply cdrift_calm; [apply calm_timer | apply connect_timer_step | apply fades_timer]. Qed.
Lemma cdrift_backoff b ec : keeps (cdrift b) (on_receive_backoff ec).
Proof.
  apply cdrift_calm; [apply calm_backoff | | apply fades_backoff]. unfold on_receive_backoff, do_udp_receive.
  repeat keeps_step; by apply client_member.
Qed.
Lemma cdrift_fin b e : keeps (cdrift b) (send_fin e).
Proof. apply cdrift_book; [apply calm_send_fin; apply _ | apply send_fin_step | apply frame_send_fin; apply _]. Qed.
Lemma cdrift_forward e : keeps (cdrift false) (forward_client_to_kcp e).
Proof. apply cdrift_calm; [apply calm_forward_local | apply forward_client_step | apply fades_forward]. Qed.
Lemma cdrift_emit b x :
  ~ is_pull x -> ~ is_relay x -> reads_done [x] = [] -> x <> ConnectDone true -> keeps (cdrift b) (emit x).
Proof.
  intros H1 H2 H3 H4 s. split; [by apply calm_still, calm_emit | by left | by apply fades_emit].
Qed.
Lemma cdrift_upd b f :
  (forall t, pending_read_handler (f t) = pending_read_handler t /\ write_resume_cb (f t) = write_resume_cb t) ->
  keeps (cdrift b) (upd f).
Proof.
  intros Hf s. split; [apply calm_still, calm_upd; intros t; by destruct (Hf t) as [-> ->] | | apply (frame_upd fades)].
  unfold trace, final. rewrite upd_run. simpl. left. by destruct (Hf (cbase s)) as [-> _].
Qed.
End Fades.

(** ** The connection *)

Section Core.
Context {I : AsioIp} {A : Crypto.Aead} {K : Kcp} {F : FecCodec}.

(** Steps that stay in a phase and start nothing of the thread. *)
Record adrift (ph : cphase) (a : app_conn) (ev : list aevent) (a' : app_conn) : Prop := {
  ad_cli : cdrift (cstrict ph) (cli a) (cli_events ev) (cli a');
  ad_ops : (cstrict ph = true -> write_resume_cb (cbase (cli a)) = None) ->
    Forall (fun o => aop_in ph o /\ ~ is_token o) (a_started ev);
  ad_accum : reply_accum a' = reply_accum a }.

#[export] Instance adrift_comp ph : Compositional (adrift ph).
Proof.
  split; [intros a; split; [apply comp_refl | constructor | done]|].
  intros a1 a2 a3 e1 e2 [C1 O1 R1] [C2 O2 R2]. split; rewrite ?cli_events_app, ?a_started_app; [| |congruence].
  - by eapply comp_trans.
  - intros Hp. apply Forall_app. split; [auto|]. apply O2. intros Hs.
    by apply (st_parked _ _ _ _ (cd_still _ _ _ _ C1)); auto.
Qed.

Lemma final_cli {X} (m : M client_session event X) a : final (on_cli m) a = set_cli (final m (cli a)) a.
Proof. unfold final, on_cli. by destruct (m (cli a)) as [[x s] ev]. Qed.
Lemma trace_cli {X} (m : M client_session event X) a : trace (on_cli m) a = Cli <$> trace m (cli a).
Proof. unfold trace, on_cli. by destruct (m (cli a)) as [[x s] ev]. Qed.

Lemma started_one ph x :
  x <> ConnectDone true -> (cstrict ph = true -> ~ is_pull x) ->
  Forall (fun o => aop_in ph o /\ ~ is_token o) (a_started [Cli x]).
Proof.
  intros Hx Hp. destruct x; try constructor; try constructor; simpl in *.
  - destruct ok; [done|]. by destruct ph.
  - by destruct ok.
  - destruct ph; simpl in *; auto; by destruct Hp.
  - tauto.
Qed.

Lemma started_cli ph ev :
  Forall (fun x => x <> ConnectDone true) ev -> (cstrict ph = true -> Forall (fun x => ~ is_pull x) ev) ->
  Forall (fun o => aop_in ph o /\ ~ is_token o) (a_started (Cli <$> ev)).
Proof.
  induction ev as [|x ev IH]; [done|]. intros [Hx Hd]%list.Forall_cons Hp.
  rewrite fmap_cons. change (a_started (Cli x :: ?l)) with (a_started ([Cli x] ++ l)). rewrite a_started_app.
  apply Forall_app. split.
  - apply started_one; [done|]. intros Hs. specialize (Hp Hs). by apply list.Forall_cons in Hp as [? _].
  - apply IH; [done|]. intros Hs. specialize (Hp Hs). by apply list.Forall_cons in Hp as [_ ?].
Qed.

Lemma adrift_cli {X} ph (m : M client_session event X) : keeps (cdrift (cstrict ph)) m -> keeps (adrift ph) (on_cli m).
Proof.
  intros Hm a. pose proof (Hm (cli a)) as C. rewrite final_cli, trace_cli.
  split; rewrite ?cli_events_cli; [done | | done]. intros Hp. apply started_cli; [apply C|]. intros Hs.
  apply (st_parked _ _ _ _ (cd_still _ _ _ _ C) Hs), Hp, Hs.
Qed.

Lemma adrift_emit ph x : cli_events [x] = [] -> a_started [x] = [] -> keeps (adrift ph) (emit x).
Proof.
  intros H1 H2 a. change (adrift ph a [x] a). split; [rewrite H1; apply comp_refl | by rewrite H2 | done].
Qed.

Lemma adrift_modify ph f :
  (forall a, cli (f a) = cli a /\ reply_accum (f a) = reply_accum a) -> keeps (adrift ph) (emodify f).
Proof.
  intros Hf a. destruct (Hf a) as [H1 H2]. unfold trace, final. simpl.
  split; simpl; [rewrite H1; apply comp_refl | constructor | done].
Qed.

Lemma adrift_cancelled ph : keeps (adrift ph) take_cancelled.
Proof. intros a. unfold trace, final. split; simpl; [apply comp_refl | constructor | done]. Qed.

Ltac drifting :=
  repeat first [keeps_step | apply keeps_gets; apply _ | apply adrift_cancelled
    | apply adrift_emit; done | apply adrift_modify; by intros
    | apply adrift_cli, cdrift_close_local | apply adrift_cli, cdrift_close | apply adrift_cli, cdrift_fin
    | apply adrift_cli, cdrift_emit; first [done | by intros []]].

Lemma adrift_close_socket ph e : keeps (adrift ph) (close_local_socket e).
Proof. unfold close_local_socket. drifting. Qed.
Lemma adrift_abort ph e : keeps (adrift ph) (abort_handshake e).
Proof. unfold abort_handshake. drifting. apply adrift_close_socket. Qed.
Lemma adrift_deadline ph e ec : keeps (adrift ph) (on_handshake_deadline e ec).
Proof. unfold on_handshake_deadline. drifting. apply adrift_close_socket. Qed.
Lemma adrift_watchdog ph e ec : keeps (adrift ph) (on_watchdog e ec).
Proof. unfold on_watchdog. drifting. apply adrift_close_socket. Qed.
Lemma adrift_check ph e g : keeps (adrift ph) (on_half_close_check e g).
Proof. unfold on_half_close_check, close_both. drifting. Qed.
Lemma adrift_grace ph e g : keeps (adrift ph) (arm_half_close_grace e g).
Proof. unfold arm_half_close_grace, close_both. drifting. Qed.
Lemma adrift_refused ph e : keeps (adrift ph) (on_kcp_connected e false).
Proof. unfold on_kcp_connected, unless_cancelled. drifting. apply adrift_abort. Qed.

(** ** The invariant of a phase *)

Definition cwaiting (s : client_session) : list Z :=
  match pending_read_handler (cbase s) with Some h => [h] | None => [] end.

(** At most one operation of the thread is outstanding, and it is the phase's. *)
Record acore (ph : cphase) (a : app_conn) (q : posted) (ops : list aop) : Prop := {
  ac_one : (length (cwaiting (cli a) ++ tags q) + length (filter is_token ops) <= 1)%nat;
  ac_tags : Forall (fun h => ctag ph = Some h) (cwaiting (cli a) ++ tags q);
  ac_ops : Forall (aop_in ph) ops;
  ac_parked : cstrict ph = true -> write_resume_cb (cbase (cli a)) = None;
  ac_accum : ph = CAsk -> reply_accum a = [] }.

(** None is: a handler of the thread is running. *)
Record spare (ph : cphase) (a : app_conn) (q : posted) (ops : list aop) : Prop := {
  sp_none : cwaiting (cli a) ++ tags q = [];
  sp_ops : Forall (fun o => aop_in ph o /\ ~ is_token o) ops;
  sp_parked : cstrict ph = true -> write_resume_cb (cbase (cli a)) = None;
  sp_accum : ph = CAsk -> reply_accum a = [] }.

Lemma no_tokens ph ops : Forall (fun o => aop_in ph o /\ ~ is_token o) ops -> filter is_token ops = [].
Proof.
  induction 1 as [|o ops [_ Ho] _ IH]; [done|]. by rewrite filter_cons_False.
Qed.

Lemma spare_core ph a q ops : spare ph a q ops -> acore ph a q ops.
Proof.
  intros [S1 S2 S3 S4]. split; [| | | done | done].
  - rewrite S1, (no_tokens ph) by done. simpl. lia.
  - rewrite S1. constructor.
  - eapply List.Forall_impl; [|exact S2]. by intros ? [].
Qed.

Lemma read_step_cwaiting s ev s' q :
  read_step (cbase s) ev (cbase s') -> cwaiting s' ++ tags (q ++ reads_done ev) ≡ₚ cwaiting s ++ tags q.
Proof.
  unfold cwaiting. intros [[-> ->]|(h & ec & d & -> & -> & ->)].
  - by rewrite app_nil_r.
  - rewrite tags_app. simpl. by rewrite Permutation_app_comm.
Qed.

Lemma adrift_core ph a ev a' q ops :
  acore ph a q ops -> adrift ph a ev a' ->
  acore ph a' (q ++ reads_done (cli_events ev)) (ops ++ a_started ev).
Proof.
  intros [C1 C2 C3 C4 C5] [[S R _] O E]. pose proof (read_step_cwaiting _ _ _ q R) as Hp. specialize (O C4).
  split.
  - rewrite Hp, filter_app, (no_tokens ph (a_started ev)), app_nil_r by done. done.
  - by rewrite Hp.
  - apply Forall_app. split; [done|]. eapply List.Forall_impl; [|exact O]. by intros ? [].
  - intros Hs. by apply (st_parked _ _ _ _ S Hs), C4.
  - intros Hph. by rewrite E, C5.
Qed.

Lemma adrift_spare ph a ev a' q ops :
  spare ph a q ops -> adrift ph a ev a' ->
  spare ph a' (q ++ reads_done (cli_events ev)) (ops ++ a_started ev).
Proof.
  intros [S1 S2 S3 S4] [[S R _] O E]. pose proof (read_step_cwaiting _ _ _ q R) as Hp. rewrite S1 in Hp. specialize (O S3).
  split.
  - by apply Permutation_nil_r.
  - by apply Forall_app.
  - intros Hs. by apply (st_parked _ _ _ _ S Hs), S3.
  - intros Hph. by rewrite E, S4.
Qed.

Lemma after_adrift {X} ph (m : M app_conn aevent X) a q ops :
  keeps (adrift ph) m -> acore ph a q ops -> after (acore ph) m a q ops.
Proof. intros Hm Hc. by apply (adrift_core ph a _ _ q ops Hc), Hm. Qed.
Lemma after_spare {X} ph (m : M app_conn aevent X) a q ops :
  keeps (adrift ph) m -> spare ph a q ops -> after (spare ph) m a q ops.
Proof. intros Hm Hc. by apply (adrift_spare ph a _ _ q ops Hc), Hm. Qed.
Lemma after_lone {X} ph (m : M app_conn aevent X) a q ops :
  keeps (adrift ph) m -> spare ph a q ops -> after (acore ph) m a q ops.
Proof. intros Hm Hc. by apply after_adrift, spare_core. Qed.

(** An operation that completes. *)
Lemma core_token ph a q ops o ops' :
  acore ph a q ops -> take_one o ops = Some ops' -> is_token o -> spare ph a q ops' /\ aop_in ph o.
Proof.
  intros [C1 C2 C3 C4 C5] Ht Ho. apply take_one_perm in Ht. rewrite Ht in C1, C3.
  apply list.Forall_cons in C3 as [Hin C3]. rewrite filter_cons_True in C1 by done. simpl in C1.
  split; [|done]. split; try done.
  - apply nil_length_inv. lia.
  - assert (Hn : filter is_token ops' = []) by (apply nil_length_inv; lia).
    apply list.Forall_forall. intros x Hx. rewrite list.Forall_forall in C3. split; [auto|]. intros Hk.
    assert (x ∈ filter is_token ops') as Hf by by apply list_elem_of_filter. rewrite Hn in Hf. by apply elem_of_nil in Hf.
Qed.

Lemma core_other ph a q ops o ops' :
  acore ph a q ops -> take_one o ops = Some ops' -> acore ph a q ops' /\ aop_in ph o.
Proof.
  intros [C1 C2 C3 C4 C5] Ht. apply take_one_perm in Ht. rewrite Ht in C1, C3.
  apply list.Forall_cons in C3 as [Hin C3]. split; [|done]. split; try done.
  rewrite filter_cons in C1. case_decide; simpl in C1; lia.
Qed.

(** A read that completes. *)
Lemma acore_next ph a h ec d q ops :
  acore ph a ((h, ec, d) :: q) ops -> spare ph a q ops /\ ctag ph = Some h.
Proof.
  intros [C1 C2 C3 C4 C5]. change (tags ((h, ec, d) :: q)) with (h :: tags q) in C1, C2.
  rewrite <- Permutation_middle in C1, C2. simpl in C1. apply list.Forall_cons in C2 as [C2 _].
  split; [|done]. split; try done.
  - apply nil_length_inv. lia.
  - assert (Hn : filter is_token ops = []) by (apply nil_length_inv; lia).
    apply list.Forall_forall. intros x Hx. rewrite list.Forall_forall in C3. split; [auto|]. intros Hk.
    assert (x ∈ filter is_token ops) as Hf by by apply list_elem_of_filter. rewrite Hn in Hf. by apply elem_of_nil in Hf.
Qed.

(** Starting the next operation of the thread. *)
Lemma after_token ph x o a q ops :
  cli_events [x] = [] -> a_started [x] = [o] -> aop_in ph o -> spare ph a q ops -> after (acore ph) (emit x) a q ops.
Proof.
  intros H1 H2 H3 [S1 S2 S3 S4]. apply (after_emit cli_events a_started); [done|]. rewrite H2. split; try done.
  - rewrite S1, filter_app, (no_tokens ph ops) by done. simpl. rewrite filter_cons. case_decide; simpl; lia.
  - rewrite S1. constructor.
  - apply Forall_app. split; [|by constructor]. eapply List.Forall_impl; [|exact S2]. by intros ? [].
Qed.

Lemma after_cread ph cap h a q ops :
  ctag ph = Some h -> spare ph a q ops -> after (acore ph) (on_cli (on_async_read_some cap h)) a q ops.
Proof.
  intros Hh [S1 S2 S3 S4]. unfold Relay.after. rewrite final_cli, trace_cli, cli_events_cli.
  pose proof (read_registered cap h (cli a)) as (Ha & Hw & _ & Hnp & _ & Hoff & Hon).
  set (s' := final (on_async_read_some cap h) (cli a)) in *. set (ev := trace (on_async_read_some cap h) (cli a)) in *.
  apply app_nil in S1 as [S1 S1'].
  assert (Hone : cwaiting s' ++ tags (q ++ reads_done ev) = [h]).
  { rewrite tags_app, S1'. unfold cwaiting in *. simpl in Hon, Hoff. destruct (running (cli a)).
    - destruct (Hon eq_refl) as [(h' & E & _)|(_ & [[-> ->]|(ec & d & -> & ->)])]; [by rewrite E in S1 | done | done].
    - destruct (Hoff eq_refl) as [-> ->]. by rewrite S1. }
  assert (Hst : Forall (fun o => aop_in ph o /\ ~ is_token o) (a_started (Cli <$> ev))).
  { apply started_cli; [|by intros]. apply (frame_read_some fades). }
  split; simpl; try done.
  - rewrite Hone, filter_app, !(no_tokens ph) by done. simpl. lia.
  - rewrite Hone. by repeat constructor.
  - apply Forall_app. split; eapply List.Forall_impl; [|exact S2| |exact Hst]; by intros ? [].
  - intros Hs. simpl in Hw. rewrite Hw. by apply S3.
Qed.

(** From phase to phase. *)
Lemma spare_rephase ph ph' a a' q ops :
  spare ph a q ops -> ph <> CForward -> cwaiting (cli a') = cwaiting (cli a) ->
  write_resume_cb (cbase (cli a')) = write_resume_cb (cbase (cli a)) ->
  (ph' = CAsk -> reply_accum a' = []) -> spare ph' a' q ops.
Proof.
  intros [S1 S2 S3 S4] Hph Hw Hr Ha. split; [by rewrite Hw | | | done].
  - eapply List.Forall_impl; [|exact S2]. intros [[]|st n|st|]; simpl; try tauto; intros [Hin _]; split; try done;
      by destruct ph, ph'.
  - intros _. rewrite Hr. apply S3. by destruct ph.
Qed.

(** ** The handlers *)

Lemma after_unless (P : app_conn -> posted -> list aop -> Prop) m a q ops :
  P a q ops -> after P m a q ops -> after P (unless_cancelled m) a q ops.
Proof.
  intros H1 H2. unfold unless_cancelled. apply (after_gets cli_events a_started).
  destruct (cancelled a); [by apply after_ret | done].
Qed.

Lemma error_core ph r a q ops :
  aop_in ph (OAppWrite ThenAbort) -> spare ph a q ops -> after (acore ph) (send_socks5_error r) a q ops.
Proof.
  intros Hp Hs. unfold send_socks5_error. destruct (build _).
  - by eapply after_token.
  - apply after_lone; [by apply adrift_emit | done].
Qed.

Ltac handler :=
  repeat first
    [ apply after_unless; [by apply spare_core|]
    | match goal with |- after _ (if ?b then _ else _) _ _ _ => destruct b eqn:? end
    | by apply after_ret, spare_core
    | by apply after_lone; [apply adrift_abort|]
    | by apply after_lone; [apply adrift_emit|]
    | by apply error_core
    | by eapply after_token ].

Lemma connected_spare e a q ops : spare CGreet a q ops -> after (acore CGreet) (on_kcp_connected e true) a q ops.
Proof. intros Hs. unfold on_kcp_connected. handler. Qed.

Lemma greet_header_core e ec b a q ops : spare CGreet a q ops -> after (acore CGreet) (on_greet_header e ec b) a q ops.
Proof. intros Hs. unfold on_greet_header, no_acceptable. handler. Qed.

Lemma greet_methods_core e ec b a q ops : spare CGreet a q ops -> after (acore CGreet) (on_greet_methods e ec b) a q ops.
Proof. intros Hs. unfold on_greet_methods. handler. Qed.

Lemma method_written_core e ec o a q ops : spare CGreet a q ops -> after (acore CGreet) (on_method_written e ec o) a q ops.
Proof. intros Hs. unfold on_method_written. handler. Qed.

Lemma request_header_core e ec b a q ops : spare CGreet a q ops -> after (acore CGreet) (on_request_header e ec b) a q ops.
Proof. intros Hs. unfold on_request_header. handler. Qed.

(** The request goes into the tunnel and its reply is awaited. *)
Definition asks (e : tenv) (req : list Z) : M app_conn aevent unit :=
  on_cli (send_data e req) ;;; emodify (set_reply_accum []) ;;; read_socks5_reply.

Lemma asks_core e req a q ops : spare CGreet a q ops -> after (acore CAsk) (asks e req) a q ops.
Proof.
  intros Hs. unfold asks. apply after_bind. eapply after_impl; [|apply (after_spare CGreet); [|exact Hs]].
  - intros a1 q1 ops1 H1. apply (after_modify cli_events a_started). apply after_cread; [done|].
    by apply (spare_rephase CGreet CAsk a1).
  - apply adrift_cli, cdrift_send.
Qed.

(** The ACK: the connection is made, or nothing of the thread is started. *)
Lemma cdrift_member b (f : client_session -> client_session) :
  (forall s, cbase (f s) = cbase s /\ running (f s) = running s /\ connected (f s) = connected s) ->
  keeps (cdrift b) (emodify f).
Proof.
  intros Hf. apply cdrift_calm; [apply calm_client | apply client_member | apply fades_set]; intros s;
    destruct (Hf s) as (H1 & H2 & H3); [done | done |]. rewrite H2, H3. auto.
Qed.

Lemma pending_bind {X} (k : bool -> M client_session event X) s :
  ebind take_pending k s = k (connect_pending s) (set_connect_pending false s).
Proof. unfold ebind, take_pending. by destruct (k _ _) as [[x s'] ev]. Qed.

Lemma ack_cases e ec d s :
  let s' := final (on_ack e ec d) s in
  let ev := trace (on_ack e ec d) s in
  (forall b, cdrift b s ev s') \/
  (ec_failed ec = false /\ (ev = [] \/ ev = [ConnectDone true]) /\ running s' = running s /\
   pending_read_handler (cbase s') = pending_read_handler (cbase s) /\
   write_resume_cb (cbase s') = write_resume_cb (cbase s)).
Proof.
  intros s' ev. unfold s', ev, final, trace, on_ack. rewrite pending_bind.
  assert (H0 : forall b, cdrift b s [] (set_connect_pending false s)).
  { intros b. by apply (cdrift_member b (set_connect_pending false)). }
  destruct (connect_pending s); simpl; [|left; exact H0]. set (s1 := set_connect_pending false s) in *.
  rewrite modify_bind, gets_bind, modify_bind. set (s2 := set_completion false _). set (h := completion _).
  assert (H2 : forall b, cdrift b s [] s2).
  { intros b. apply (comp_trans (R := cdrift b) s s1 s2 [] []); [apply H0|].
    by apply (cdrift_member b (fun s => set_completion false (set_timer_armed false s))). }
  assert (Hbad : forall b, cdrift b s (trace (on_close e ;;; ewhen h (emit (ConnectDone false))) s2)
    (final (on_close e ;;; ewhen h (emit (ConnectDone false))) s2)).
  { intros b. apply (comp_trans (R := cdrift b) s s2 _ []); [apply H2|].
    assert (Hk : keeps (cdrift b) (on_close e ;;; ewhen h (emit (ConnectDone false)))); [|apply Hk].
    repeat first [keeps_step | apply cdrift_close | apply cdrift_emit; first [done | by intros []]]. }
  unfold final, trace in Hbad.
  destruct (ec_failed ec || bool_decide (d = [])) eqn:Eb; [left|].
  { exact Hbad. }
  destruct (negb _ && negb _); [left|right].
  { exact Hbad. }
  apply orb_false_iff in Eb as [-> _]. unfold ebind, ewhen, upd, on_tun, emodify, emit, eret. simpl.
  destruct (bool_decide _), h; simpl; split_and!; auto.
Qed.

Lemma ack_failed ph e ec d : ec <> ec_none -> keeps (adrift ph) (on_cli (on_ack e ec d)).
Proof.
  intros He. apply adrift_cli. intros s. destruct (ack_cases e ec d s) as [H|(H & _)]; [apply H|].
  by rewrite ec_failed_true in H.
Qed.

Lemma ack_done e d a q ops : spare CConnect a q ops -> after (acore CGreet) (on_cli (on_ack e ec_none d)) a q ops.
Proof.
  intros Hs. unfold Relay.after. rewrite final_cli, trace_cli, cli_events_cli.
  destruct (ack_cases e ec_none d (cli a)) as [H|(_ & He & Hr & Hp & Hw)].
  - assert (Hd : adrift CConnect a (Cli <$> trace (on_ack e ec_none d) (cli a))
      (set_cli (final (on_ack e ec_none d) (cli a)) a)).
    { split; rewrite ?cli_events_cli; [apply H | | done]. intros Hu. apply started_cli; [apply (H true)|].
      intros _. by apply (st_parked _ _ _ _ (cd_still _ _ _ _ (H true))), Hu. }
    apply (adrift_spare CConnect a _ _ q ops) in Hd; [|done]. rewrite cli_events_cli in Hd.
    by apply spare_core, (spare_rephase CConnect CGreet _ _ _ _ Hd).
  - set (s' := final (on_ack e ec_none d) (cli a)) in *.
    assert (H1 : spare CGreet (set_cli s' a) q ops).
    { apply (spare_rephase CConnect CGreet a); try done. unfold cwaiting. simpl. by rewrite Hp. }
    destruct He as [-> | ->].
    + simpl. rewrite !app_nil_r. by apply spare_core.
    + destruct H1 as [S1 S2 S3 S4]. simpl. rewrite app_nil_r. split; try done.
      * rewrite S1, filter_app, (no_tokens CGreet ops) by done. simpl. lia.
      * rewrite S1. constructor.
      * apply Forall_app. split; [|by repeat constructor]. eapply List.Forall_impl; [|exact S2]. by intros ? [].
Qed.

(** The downstream loop. *)
Ltac along :=
  apply after_bind; eapply after_impl;
    [|apply (after_spare CForward); [unfold cancel_grace; drifting | eassumption]]; intros ? ? ? ?.

Lemma server_fin_core e a q ops : spare CForward a q ops -> after (acore CForward) (handle_server_fin e) a q ops.
Proof.
  intros Hs. unfold handle_server_fin. along. along.
  apply (after_gets cli_events a_started). destruct (app_eof _).
  - apply after_lone; [unfold close_both; drifting | done].
  - along. by apply after_cread.
Qed.

Lemma downstream_core e a q ops : spare CForward a q ops -> after (acore CForward) (forward_kcp_to_client e) a q ops.
Proof.
  intros Hs. unfold forward_kcp_to_client. apply (after_gets cli_events a_started).
  match goal with |- after _ (if ?b then _ else _) _ _ _ => destruct b end; [by apply server_fin_core | by apply after_cread].
Qed.

Lemma read_failed_core e ec d a q ops :
  ec <> ec_none -> spare CForward a q ops -> after (acore CForward) (on_kcp_read e ec d) a q ops.
Proof.
  intros He Hs. unfold on_kcp_read. rewrite (ec_failed_true ec) by done. case_bool_decide; [by apply server_fin_core|].
  cbn [orb]. apply after_lone; [unfold cancel_grace, close_both; drifting | done].
Qed.

Lemma read_data_core e d a q ops :
  d <> [] -> spare CForward a q ops -> after (acore CForward) (on_kcp_read e ec_none d) a q ops.
Proof.
  intros Hd Hs. unfold on_kcp_read. rewrite bool_decide_false by done. rewrite bool_decide_false by done. cbn [ec_failed orb].
  along. apply (after_gets cli_events a_started). along. by eapply after_token.
Qed.

Lemma data_written_core e ec a q ops : spare CForward a q ops -> after (acore CForward) (on_data_written e ec) a q ops.
Proof.
  intros Hs. unfold on_data_written. destruct (ec_failed ec); [|by apply downstream_core].
  apply after_lone; [unfold cancel_grace, close_both; drifting | done].
Qed.

Lemma reply_written_core e ec a q ops : spare CReply a q ops -> after (acore CForward) (on_reply_written e ec) a q ops.
Proof.
  intros Hs. assert (Hf : spare CForward a q ops) by by apply (spare_rephase CReply CForward a).
  unfold on_reply_written. along. destruct (ec_failed ec); [apply after_lone; [drifting | done]|].
  apply after_bind. eapply after_impl; [|apply (after_spare CForward); [apply adrift_cli, cdrift_forward | eassumption]].
  intros ? ? ? ?. by apply downstream_core.
Qed.

(** The upstream loop is no part of the thread. *)
Lemma adrift_app_read e g ec d : keeps (adrift CForward) (on_app_read e g ec d).
Proof.
  unfold on_app_read. drifting; [apply adrift_grace | apply adrift_cli, cdrift_send | apply adrift_cli, cdrift_forward].
Qed.

(** ** The reply *)

(** A failed read of the reply. *)
Lemma reply_failed e ec d a q ops :
  ec <> ec_none -> spare CAsk a q ops -> after (acore CAsk) (on_reply_read e ec d) a q ops.
Proof. intros He Hs. unfold on_reply_read. rewrite (ec_failed_true ec) by done. cbn [orb]. handler. Qed.
End Core.
