(* ===== verification/RelayClientRun.v ===== *)
(** * RelayClientRun: what the client relays

    The invariant of a whole run of the client's loop, for a server that
    speaks the protocol: the messages dispatched so far, what was written to
    the application, what was said to the server, by phase. *)

From Stdlib Require Import ZArith Lia.
From stdpp Require Import base list strings.
From S2P Require Import Prelude Config Asio Address Socks5 Effects Kcp Tunnel TunnelProofs Flow.
From S2P Require Import ClientSession ClientSessionProofs Calm Link Client ClientProofs Relay.
From S2P Require Import RelayServer RelayServerRun RelayClient.
From S2P Require Crypto.

(** ** Steps that neither say nor show anything *)

Section Quiet.
Context {I : AsioIp} {A : Crypto.Aead} {K : Kcp} {F : FecCodec}.

Record aquiet (a : app_conn) (ev : list aevent) (a' : app_conn) : Prop := {
  aq_app : to_app ev = [];
  aq_said : offered (cli_events ev) = [];
  aq_run : running (cli a') = true -> running (cli a) = true /\ connected (cli a') = connected (cli a) }.

#[export] Instance aquiet_comp : Compositional aquiet.
Proof.
  split; [done|]. intros a1 a2 a3 e1 e2 [T1 O1 R1] [T2 O2 R2].
  split; rewrite ?to_app_app, ?cli_events_app, ?offered_app, ?T1, ?T2, ?O1, ?O2; try done.
  intros H3. destruct (R2 H3) as [H2 ->]. auto.
Qed.

Lemma aquiet_cli {X} b (m : M client_session event X) : keeps (calm b) m -> keeps fades m -> keeps aquiet (on_cli m).
Proof.
  intros Hc Hf a. rewrite final_cli, trace_cli. split; rewrite ?cli_events_cli.
  - apply to_app_cli.
  - apply no_relay_offered, Hc.
  - apply Hf.
Qed.

Lemma aquiet_emit x : cli_events [x] = [] -> to_app [x] = [] -> keeps aquiet (emit x).
Proof. intros H1 H2 a. change (aquiet a [x] a). split; by rewrite ?H1. Qed.

Lemma aquiet_modify f : (forall a, cli (f a) = cli a) -> keeps aquiet (emodify f).
Proof. intros Hf a. unfold trace, final. split; simpl; by rewrite ?Hf. Qed.

Lemma aquiet_cancelled : keeps aquiet take_cancelled.
Proof. by intros a. Qed.

Lemma aquiet_read cap h : keeps aquiet (on_cli (on_async_read_some cap h)).
Proof.
  intros a. rewrite final_cli, trace_cli. split; rewrite ?cli_events_cli.
  - apply to_app_cli.
  - pose proof (read_registered cap h (cli a)) as (_ & _ & _ & _ & Hnr & _). by apply no_relay_offered.
  - apply (frame_read_some fades).
Qed.

Lemma aquiet_close e : keeps aquiet (on_cli (on_close e)).
Proof. apply (aquiet_cli true); [apply calm_on_close | apply (frame_on_close fades)]. Qed.
Lemma aquiet_close_local : keeps aquiet (on_cli close_local).
Proof. apply (aquiet_cli true); [apply calm_close_local | apply fades_close_local]. Qed.

Ltac hush :=
  repeat first [keeps_step | apply keeps_gets; apply _ | apply aquiet_cancelled | apply aquiet_read
    | apply aquiet_emit; done | apply aquiet_modify; by intros | apply aquiet_close | apply aquiet_close_local
    | apply (aquiet_cli true); [apply calm_emit; by intros [] | by apply fades_emit]
    | apply (aquiet_cli true); [apply calm_send_fin; apply _ | apply frame_send_fin; apply _]
    | apply (aquiet_cli false); [apply calm_forward_local | apply fades_forward]
    | apply (aquiet_cli true); [apply calm_upd; by intros | apply frame_upd; apply _]].

Lemma aquiet_close_socket e : keeps aquiet (close_local_socket e).
Proof. unfold close_local_socket. hush. Qed.
Lemma aquiet_abort e : keeps aquiet (abort_handshake e).
Proof. unfold abort_handshake. hush. apply aquiet_close_socket. Qed.
Lemma aquiet_deadline e ec : keeps aquiet (on_handshake_deadline e ec).
Proof. unfold on_handshake_deadline. hush. apply aquiet_close_socket. Qed.
Lemma aquiet_watchdog e ec : keeps aquiet (on_watchdog e ec).
Proof. unfold on_watchdog. hush. apply aquiet_close_socket. Qed.
Lemma aquiet_check e g : keeps aquiet (on_half_close_check e g).
Proof. unfold on_half_close_check, close_both. hush. Qed.
Lemma aquiet_grace e g : keeps aquiet (arm_half_close_grace e g).
Proof. unfold arm_half_close_grace, close_both. hush. Qed.
Lemma aquiet_error r : keeps aquiet (send_socks5_error r).
Proof. unfold send_socks5_error. hush. Qed.

Lemma aquiet_connected e ok : keeps aquiet (on_kcp_connected e ok).
Proof. unfold on_kcp_connected, unless_cancelled. hush. apply aquiet_abort. Qed.
Lemma aquiet_greet_header e ec b : keeps aquiet (on_greet_header e ec b).
Proof. unfold on_greet_header, unless_cancelled, no_acceptable. hush. apply aquiet_abort. Qed.
Lemma aquiet_greet_methods e ec b : keeps aquiet (on_greet_methods e ec b).
Proof. unfold on_greet_methods, unless_cancelled. hush. apply aquiet_abort. Qed.
Lemma aquiet_method_written e ec o : keeps aquiet (on_method_written e ec o).
Proof. unfold on_method_written, unless_cancelled. hush; apply aquiet_abort. Qed.
Lemma aquiet_request_header e ec b : keeps aquiet (on_request_header e ec b).
Proof. unfold on_request_header, unless_cancelled. hush; auto using aquiet_abort, aquiet_error. Qed.
Lemma aquiet_reply_failed e ec d : ec <> ec_none -> keeps aquiet (on_reply_read e ec d).
Proof.
  intros He. unfold on_reply_read, unless_cancelled. rewrite (ec_failed_true ec) by done. cbn [orb]. hush.
Qed.
Lemma aquiet_server_fin e : keeps aquiet (handle_server_fin e).
Proof. unfold handle_server_fin, cancel_grace, close_both, forward_read. hush. Qed.
Lemma aquiet_downstream e : keeps aquiet (forward_kcp_to_client e).
Proof. unfold forward_kcp_to_client, forward_read. hush. apply aquiet_server_fin. Qed.
Lemma aquiet_read_failed e ec d : ec <> ec_none -> keeps aquiet (on_kcp_read e ec d).
Proof.
  intros He. unfold on_kcp_read, cancel_grace, close_both. rewrite (ec_failed_true ec) by done. cbn [orb]. hush.
  apply aquiet_server_fin.
Qed.
Lemma aquiet_data_written e ec : keeps aquiet (on_data_written e ec).
Proof. unfold on_data_written, cancel_grace, close_both. hush. apply aquiet_downstream. Qed.
Lemma aquiet_reply_written e ec : keeps aquiet (on_reply_written e ec).
Proof. unfold on_reply_written. hush. apply aquiet_downstream. Qed.
Lemma aquiet_ack_failed e ec d : ec <> ec_none -> keeps aquiet (on_cli (on_ack e ec d)).
Proof.
  intros He. apply (aquiet_cli true); [apply calm_ack|]. intros s.
  destruct (ack_cases e ec d s) as [H|(H & _)]; [apply (H true)|]. by rewrite ec_failed_true in H.
Qed.
End Quiet.

(** ** The request and the reply *)

Section Conversation.
Context {I : AsioIp} {IL : AsioIpLaws I} {A : Crypto.Aead} {K : Kcp} {F : FecCodec}.

(** The host and the port an application names with a CONNECT, in the read
    that completes its request: an address as text, or the domain name. *)
Definition named (i : app_input) : option (list Z * Z) :=
  match i with
  | IAppRead _ (RequestAddress cmd atyp) _ ec b =>
      if ec_failed ec || negb (cmd =? SOCKS5_CMD_CONNECT) then None
      else if atyp =? SOCKS5_ATYP_IPV4 then
        Some (addr_to_string (V4 (take 4 b)), port_of_bytes (byte_at b 4) (byte_at b 5))
      else if atyp =? SOCKS5_ATYP_IPV6 then
        Some (addr_to_string (V6 (take 16 b)), port_of_bytes (byte_at b 16) (byte_at b 17))
      else None
  | IAppRead _ (RequestDomain cmd dlen) _ ec b =>
      if ec_failed ec || negb (cmd =? SOCKS5_CMD_CONNECT) then None
      else Some (take (Z.to_nat dlen) b, port_of_bytes (byte_at b (Z.to_nat dlen)) (byte_at b (Z.to_nat dlen + 1)))
  | _ => None
  end.

(** The bytes of a CONNECT request for [host] and [port]. *)
Definition asks_for (host : list Z) (port : Z) (req : list Z) : Prop :=
  host <> [] /\ is_u16 port /\ build_connect_request host port = Ret req.
Definition asked (req : list Z) : Prop := exists host port, asks_for host port req.

(** The request is for what one of the inputs names. *)
Definition asked_in (ins : list app_input) (req : list Z) : Prop :=
  exists i host port, i ∈ ins /\ named i = Some (host, port) /\ asks_for host port req.

Lemma asked_in_app ins l req : asked_in ins req -> asked_in (ins ++ l) req.
Proof. intros (i & host & port & Hi & H). exists i, host, port. split; [|done]. apply elem_of_app. by left. Qed.
Lemma asked_in_asked ins req : asked_in ins req -> asked req.
Proof. intros (i & host & port & _ & _ & H). by exists host, port. Qed.

(** A step of the greeting, on the input [i]: nothing is said, or the request
    it names is. *)
Definition greets (i : app_input) (m : M app_conn aevent unit) (a : app_conn) : Prop :=
  (aquiet a (trace m a) (final m a) /\ forall q ops, spare CGreet a q ops -> after (acore CGreet) m a q ops) \/
  (exists e req, asked_in [i] req /\ m a = asks e req a).

Lemma greets_quiet i (m : M app_conn aevent unit) a :
  keeps aquiet m -> (forall q ops, spare CGreet a q ops -> after (acore CGreet) m a q ops) -> greets i m a.
Proof. intros Hq Hc. left. split; [apply Hq | done]. Qed.

Lemma greets_abort i e a : greets i (abort_handshake e) a.
Proof. apply greets_quiet; [apply aquiet_abort|]. intros. apply after_lone; [apply adrift_abort | done]. Qed.

Lemma greets_error i r a : greets i (send_socks5_error r) a.
Proof. apply greets_quiet; [apply aquiet_error|]. intros. by apply error_core. Qed.

Lemma greets_throw i what a : greets i (emit (ClientThrew what)) a.
Proof. apply greets_quiet; [by apply aquiet_emit|]. intros. apply after_lone; [by apply adrift_emit | done]. Qed.

Lemma greets_unless i (m : M app_conn aevent unit) a : (cancelled a = false -> greets i m a) -> greets i (unless_cancelled m) a.
Proof.
  intros Hm. unfold greets, unless_cancelled, Relay.after, trace, final. rewrite !gets_bind.
  destruct (cancelled a); [left | by apply Hm]. split; [exact (keeps_ret aquiet tt a)|].
  intros q ops Hs. simpl. rewrite !app_nil_r. by apply spare_core.
Qed.

Lemma greets_request i e cmd host port a :
  host <> [] -> is_u16 port -> ((cmd =? SOCKS5_CMD_CONNECT) = true -> named i = Some (host, port)) ->
  greets i (handle_sync_request e cmd host port) a.
Proof.
  intros Hh Hp Hi. unfold handle_sync_request. destruct (cmd =? _); [|apply greets_error].
  destruct (build_connect_request host port) as [req|] eqn:Hb; [|apply greets_throw].
  right. exists e, req. split; [|done]. exists i, host, port. split; [by left | by split; [apply Hi|]].
Qed.

Lemma to_string_not_nil ip : ip_wf ip -> addr_to_string ip <> [].
Proof. intros Hw E. pose proof (make_address_to_string ip Hw) as H. rewrite E, make_address_nil in H. done. Qed.

Lemma greets_address e cmd atyp n ec buf a :
  let i := IAppRead e (RequestAddress cmd atyp) n ec buf in
  buffer_ok i -> greets i (on_request_address e cmd atyp ec buf) a.
Proof.
  intros i Hb. apply greets_unless. intros _. simpl in Hb. destruct (ec_failed ec) eqn:Eec; [apply greets_abort|].
  destruct (Hb eq_refl) as [_ Hok]. clear Hb.
  destruct ((atyp =? SOCKS5_ATYP_IPV4) || (atyp =? SOCKS5_ATYP_IPV6)) eqn:Ea.
  - destruct (parse_address _ _ _) as [pa|] eqn:Ep; [|apply greets_throw].
    assert (Hw : bytes_ok (drop 1 (atyp :: buf))) by exact Hok.
    unfold parse_address in Ep. change (byte_at (atyp :: buf) 0) with atyp in Ep. cbn [Nat.leb Nat.add] in Ep.
    destruct (atyp =? SOCKS5_ATYP_IPV4) eqn:E4.
    + destruct (_ <? 7)%nat eqn:El in Ep; [done|]. zb_props. injection Ep as <-. simpl.
      apply greets_request; [|apply u16_range | intros Hcmd; unfold i; simpl; by rewrite Eec, Hcmd, E4].
      apply (to_string_not_nil (V4 (slice 1 4 (atyp :: buf)))). split.
      * apply length_slice. simpl. lia.
      * unfold slice. by apply Forall_take.
    + simpl in Ea. rewrite Ea in Ep. assert (Ed : (atyp =? SOCKS5_ATYP_DOMAIN) = false) by (zb_props; by subst).
      rewrite Ed in Ep. destruct (_ <? 19)%nat eqn:El in Ep; [done|]. zb_props. injection Ep as <-. simpl.
      apply greets_request; [|apply u16_range | intros Hcmd; unfold i; simpl; by rewrite Eec, Hcmd, Ea].
      apply (to_string_not_nil (V6 (slice 1 16 (atyp :: buf)))). split.
      * apply length_slice. simpl. lia.
      * unfold slice. by apply Forall_take.
  - destruct (atyp =? SOCKS5_ATYP_DOMAIN).
    + cbv zeta. destruct (byte_at buf 0 =? 0) eqn:E0; [apply greets_error|]. zb_props.
      apply greets_quiet; [by apply aquiet_emit|]. intros q ops Hs. eapply after_token; [done | done | | exact Hs].
      simpl. split; [|done]. pose proof (byte_at_ok buf 0 Hok) as Hby. unfold is_byte in Hby. lia.
    + apply greets_quiet; [apply keeps_ret, _|]. intros q ops Hs. by apply after_ret, spare_core.
Qed.

Lemma greets_domain e cmd dlen n ec buf a :
  let i := IAppRead e (RequestDomain cmd dlen) n ec buf in
  read_in (RequestDomain cmd dlen) n -> buffer_ok i -> greets i (on_request_domain e cmd dlen ec buf) a.
Proof.
  intros i [Hd Hn] Hb. apply greets_unless. intros _. simpl in Hb. destruct (ec_failed ec) eqn:Eec; [apply greets_abort|].
  destruct (Hb eq_refl) as [Hl _]. apply greets_request; [|apply u16_range | intros Hcmd; unfold i; simpl; by rewrite Eec, Hcmd].
  intros E. apply (f_equal length) in E. rewrite length_take in E. simpl in E. lia.
Qed.

(** What the application is told of a granted request. *)
Definition confirmation : list Z :=
  match build (mkResponse SOCKS5_REPLY_SUCCEEDED (bytes_of_string "0.0.0.0") 0) with
  | Ret out => out
  | Throw _ => []
  end.

Lemma confirmation_builds :
  build (mkResponse SOCKS5_REPLY_SUCCEEDED (bytes_of_string "0.0.0.0") 0) = Ret confirmation.
Proof. unfold confirmation. by destruct success_builds as [ok ->]. Qed.

(** A whole reply in one message. *)
Lemma reply_cases e m rep a :
  reply_accum a = [] -> parse_socks5_reply m = mkReplyResult RsComplete (Some rep) [] ->
  drop (rep_length rep) m = [] ->
  let h := on_reply_read e ec_none m in
  (aquiet a (trace h a) (final h a) /\ forall q ops, spare CAsk a q ops -> after (acore CRefused) h a q ops) \/
  (to_app (trace h a) = [confirmation] /\ offered (cli_events (trace h a)) = [] /\
   (running (cli (final h a)) = true -> running (cli a) = true /\ connected (cli (final h a)) = connected (cli a)) /\
   rep_reply rep = SOCKS5_REPLY_SUCCEEDED /\ forall q ops, spare CAsk a q ops -> after (acore CReply) h a q ops).
Proof.
  intros Ha Hm Hd h. unfold h, on_reply_read, unless_cancelled.
  assert (Hs : forall a q ops, spare CAsk a q ops -> spare CRefused a q ops)
    by (intros; by eapply (spare_rephase CAsk)).
  unfold Relay.after, trace, final. rewrite !gets_bind. destruct (cancelled a) eqn:Ec.
  { left. split; [exact (keeps_ret aquiet tt a)|]. intros q ops H. simpl. rewrite !app_nil_r. by apply spare_core, Hs. }
  assert (Hne : m <> []) by (intros ->; done). rewrite bool_decide_false by done. cbn [ec_failed orb].
  rewrite gets_bind, Ha. destruct (FWD_BUF_SIZE <? _).
  { left. split; [exact (aquiet_error SOCKS5_REPLY_GENERAL_FAILURE a)|]. intros q ops H.
    by apply (error_core CRefused), Hs. }
  rewrite modify_bind. cbn [app]. rewrite Hm. cbn [rr_status rr_reply].
  set (a1 := set_reply_accum m a).
  assert (H1 : forall q ops, spare CAsk a q ops -> spare CRefused a1 q ops).
  { intros q ops H. by apply (spare_rephase CAsk CRefused a). }
  destruct (rep_reply rep =? SOCKS5_REPLY_SUCCEEDED) eqn:Er; cbn [negb].
  2:{ left. split; [by destruct (aquiet_error (rep_reply rep) a1)|]. intros q ops H. by apply (error_core CRefused), H1. }
  right. zb_props. unfold forward_reply. rewrite confirmation_builds, Hd, app_nil_r.
  split_and!; try done. intros q ops H. apply H1 in H. cbn. rewrite !app_nil_r.
  apply (spare_rephase CRefused CReply a1 (set_cli (set_cbase (mark_handshake_done (cbase (cli a))) (cli a))
    (set_cancelled true a1))) in H; [|done..].
  destruct H as [S1 S2 S3 S4]. split; try done.
  - change (cwaiting _) with (cwaiting (cli a)) in S1 |- *. rewrite S1, filter_app, (no_tokens CReply ops) by done.
    simpl. lia.
  - by rewrite S1.
  - apply Forall_app. split; [|by repeat constructor]. eapply List.Forall_impl; [|exact S2]. by intros ? [].
Qed.
End Conversation.

(** ** Messages of the client *)

Section Speech.
Context {I : AsioIp} {A : Crypto.Aead} {K : Kcp} {F : FecCodec}.

Abbreviation open_for_data a := (can_accept_data (cli a)).

(** One message is queued, unless the session takes none any more. *)
Record speaks (d : list Z) (a : app_conn) (ev : list aevent) (a' : app_conn) : Prop := {
  sk_app : to_app ev = [];
  sk_said : offered (cli_events ev) = [d] /\ open_for_data a = true \/
    offered (cli_events ev) = [] /\ open_for_data a' = false;
  sk_run : running (cli a') = true -> running (cli a) = true /\ connected (cli a') = connected (cli a) }.

Lemma quiet_open a ev a' : aquiet a ev a' -> open_for_data a' = true -> open_for_data a = true.
Proof. intros [_ _ Hr]. simpl. rewrite !andb_true_iff. intros [H1 H2]. destruct (Hr H1) as [-> <-]. done. Qed.

Lemma speaks_send e d : keeps (speaks d) (on_cli (send_data e d)).
Proof.
  intros a. destruct (send_offers e d (cli a)) as ([Ha _ _ _] & _ & Hn & Ho).
  pose proof (frame_send_data fades e d (cli a)) as [Hf _]. simpl in Ha, Hn, Ho. rewrite final_cli, trace_cli.
  split; rewrite ?cli_events_cli; [apply to_app_cli | | exact Hf]. simpl.
  destruct Ho as [Ho|[Ho Hc]].
  - left. split; [done|]. destruct (_ && _) eqn:E; [done|]. rewrite Ho in Hn. by discriminate Hn.
  - right. split; [done|]. destruct (running (final (send_data e d) (cli a))) eqn:Er; [|done]. simpl.
    destruct (Hf eq_refl) as [H1 ->]. rewrite H1 in Hc. simpl in Hc. by destruct Hc as [?|[?|?]].
Qed.

Lemma speaks_quiet {X Y} d (m : M app_conn aevent X) (k : X -> M app_conn aevent Y) :
  keeps (speaks d) m -> (forall x, keeps aquiet (k x)) -> keeps (speaks d) (ebind m k).
Proof.
  intros Hm Hk a. rewrite trace_bind, final_bind. destruct (Hm a) as [T1 O1 R1].
  pose proof (Hk (result m a) (final m a)) as Hq. pose proof (quiet_open _ _ _ Hq) as Ho. destruct Hq as [T2 O2 R2].
  split; rewrite ?to_app_app, ?cli_events_app, ?offered_app, ?T1, ?T2, ?O2, ?app_nil_r; [done | |].
  - destruct O1 as [?|[? Hc]]; [by left | right]. split; [done|]. destruct (open_for_data (final (k _) _)); [|done].
    by rewrite Ho in Hc.
  - intros H3. destruct (R2 H3) as [H2 ->]. auto.
Qed.

Lemma quiet_speaks {X Y} d (m : M app_conn aevent X) (k : X -> M app_conn aevent Y) :
  keeps aquiet m -> (forall x, keeps (speaks d) (k x)) -> keeps (speaks d) (ebind m k).
Proof.
  intros Hm Hk a. rewrite trace_bind, final_bind. pose proof (Hm a) as Hq. pose proof (quiet_open _ _ _ Hq) as Ho.
  destruct Hq as [T1 O1 R1]. destruct (Hk (result m a) (final m a)) as [T2 O2 R2].
  split; rewrite ?to_app_app, ?cli_events_app, ?offered_app, ?T1, ?T2, ?O1; [done | |].
  - destruct O2 as [[? Hc]|?]; [left; auto | by right].
  - intros H3. destruct (R2 H3) as [H2 ->]. auto.
Qed.

Lemma speaks_ask e req : keeps (speaks req) (asks e req).
Proof.
  apply speaks_quiet; [apply speaks_send | intros _].
  apply keeps_bind; [apply _ | by apply aquiet_modify | intros _; apply aquiet_read].
Qed.

Lemma speaks_data e g d : d <> [] -> keeps (speaks d) (on_app_read e g ec_none d).
Proof.
  intros Hd. unfold on_app_read. rewrite !bool_decide_false by done. cbn [ec_failed orb].
  apply quiet_speaks; [by apply aquiet_modify | intros _]. apply speaks_quiet; [apply speaks_send | intros _].
  apply (aquiet_cli false); [apply calm_forward_local | apply fades_forward].
Qed.

Lemma aquiet_app_read e g ec d :
  ec_failed ec || bool_decide (d = []) = true -> keeps aquiet (on_app_read e g ec d).
Proof.
  intros He. unfold on_app_read. rewrite He. destruct (bool_decide (ec = ec_eof)); [apply aquiet_grace|].
  apply keeps_bind; [apply _ | apply aquiet_close | intros _; apply aquiet_close_local].
Qed.

(** The queue [q] follows the script [s], and is level with it while data is
    taken. *)
Definition level (up : bool) (q s : list (list Z)) : Prop := q `prefix_of` s /\ (up = true -> q = s).

Lemma level_quiet up up' q s : level up q s -> (up' = true -> up = true) -> level up' q s.
Proof. intros [H1 H2] Hu. split; auto. Qed.

Lemma level_speak d a ev a' q s :
  level (open_for_data a) q s -> speaks d a ev a' ->
  level (open_for_data a') (q ++ offered (cli_events ev)) (s ++ [d]).
Proof.
  intros [H1 H2] [_ [[-> Ho]|[-> Ho]] _].
  - by rewrite (H2 Ho).
  - rewrite app_nil_r, Ho. split; [by apply prefix_app_r | done].
Qed.
End Speech.

(** ** The run *)

Section ClientRun.
Context {I : AsioIp} {IL : AsioIpLaws I} {A : Crypto.Aead} {K : Kcp} {F : FecCodec}.

(** What the server says first: an acknowledgement and a whole reply. *)
Variables (m0 m1 : list Z) (rep : SOCKS5Reply).
Hypothesis parsed : parse_socks5_reply m1 = mkReplyResult RsComplete (Some rep) [].
Hypothesis whole : drop (rep_length rep) m1 = [].

(** The messages dispatched, and what the application was written. *)
Definition heard (ph : cphase) (ms : list (list Z)) : list (list Z) :=
  match ph with
  | CConnect => []
  | CGreet | CAsk => [m0]
  | CRefused | CReply => [m0; m1]
  | CForward => m0 :: m1 :: ms
  end.
Definition shown (ph : cphase) (ms : list (list Z)) : list (list Z) :=
  match ph with CReply => [confirmation] | CForward => confirmation :: ms | _ => [] end.

(** What the client says. *)
Definition script (ph : cphase) (req : list Z) (data : list (list Z)) : list (list Z) :=
  match ph with CConnect | CGreet => [hello] | _ => hello :: req :: data end.
Definition talking (ph : cphase) (s : client_session) : bool :=
  match ph with CConnect | CGreet => running s | _ => can_accept_data s end.
Definition requested (ph : cphase) (req : list Z) (ins : list app_input) : Prop :=
  match ph with CConnect | CGreet => True | _ => asked_in ins req end.
Definition confirmed (ph : cphase) : Prop :=
  match ph with CReply | CForward => rep_reply rep = SOCKS5_REPLY_SUCCEEDED | _ => True end.

Record cli_inv (ph : cphase) (x : arun) : Prop := {
  ci_core : acore ph (a_app x) (a_posted x) (a_ops x);
  ci_heard : exists ms, a_got (a_in x) = heard ph ms /\ to_app (a_ev x) = shown ph ms /\ (ph <> CForward -> ms = []);
  ci_said : exists req, requested ph req (a_in x) /\
    level (talking ph (cli (a_app x))) (offered (cli_events (a_ev x))) (script ph req (from_app (a_in x)));
  ci_data : ph <> CForward -> from_app (a_in x) = [];
  ci_granted : confirmed ph }.

Lemma requested_app ph req ins l : requested ph req ins -> requested ph req (ins ++ l).
Proof. destruct ph; simpl; auto using asked_in_app. Qed.

(** A step that says and shows nothing. *)
Lemma cli_quiet ph ph' g i x q ops :
  cli_inv ph x -> a_got [i] = [] -> from_app [i] = [] -> ph' = ph \/ ph = CReply /\ ph' = CForward ->
  after (acore ph') (app_run g i) (a_app x) q ops ->
  aquiet (a_app x) (trace (app_run g i) (a_app x)) (final (app_run g i) (a_app x)) ->
  cli_inv ph' (a_next g i x q ops).
Proof.
  intros [_ (ms & H1 & H2 & H3) (req & Hr & Hl) Hd Hg] Hgot Hfrom Hph Ha Hq. pose proof (quiet_open _ _ _ Hq) as Ho.
  pose proof Hq as [T O R]. split; cbn [a_next a_app a_ev a_posted a_ops a_in]; [exact Ha | | | |].
  - exists ms. rewrite a_got_app, Hgot, to_app_app, T, !app_nil_r. destruct Hph as [-> | [-> ->]]; [done|].
    rewrite H1, H2. by rewrite H3.
  - exists req. rewrite cli_events_app, offered_app, O, from_app_app, Hfrom, !app_nil_r.
    split; [apply (requested_app _ _ _ [i]) in Hr; by destruct Hph as [-> | [-> ->]]|].
    assert (Hs : script ph' = script ph) by by destruct Hph as [-> | [-> ->]]. rewrite Hs.
    eapply level_quiet; [exact Hl|]. destruct Hph as [-> | [-> ->]]; [|exact Ho].
    destruct ph; simpl in *; first [exact Ho | intros Hx; by apply R].
  - rewrite from_app_app, Hfrom, app_nil_r. intros Hx. apply Hd. by destruct Hph as [-> | [-> ->]].
  - by destruct Hph as [-> | [-> ->]].
Qed.

(** Steps of any phase, that start nothing of the thread. *)
Lemma cli_drift ph g i x ops :
  cli_inv ph x -> a_got [i] = [] -> from_app [i] = [] -> acore ph (a_app x) (a_posted x) ops ->
  keeps (adrift ph) (app_run g i) -> keeps aquiet (app_run g i) ->
  cli_inv ph (a_next g i x (a_posted x) ops).
Proof. intros Hx Hg Hf Hc Hd Hq. apply (cli_quiet ph); auto. by apply after_adrift. Qed.

(** The request. *)
Lemma cli_ask e req g i x q ops :
  cli_inv CGreet x -> a_got [i] = [] -> from_app [i] = [] -> asked_in [i] req -> spare CGreet (a_app x) q ops ->
  app_run g i (a_app x) = asks e req (a_app x) -> cli_inv CAsk (a_next g i x q ops).
Proof.
  intros [_ (ms & H1 & H2 & H3) (r0 & _ & Hl) Hd _] Hgot Hfrom Hr Hs Em.
  pose proof (asks_core e req _ _ _ Hs) as Ha. pose proof (speaks_ask e req (a_app x)) as Hk.
  assert (Et : trace (app_run g i) (a_app x) = trace (asks e req) (a_app x)) by (unfold trace; by rewrite Em).
  assert (Ef : final (app_run g i) (a_app x) = final (asks e req) (a_app x)) by (unfold final; by rewrite Em).
  split; cbn [a_next a_app a_ev a_posted a_ops a_in]; rewrite ?Et, ?Ef; [exact Ha | | | |done].
  - exists []. rewrite a_got_app, Hgot, to_app_app, app_nil_r, H1, H2. destruct Hk as [T _ _]. by rewrite T.
  - exists req. split.
    { destruct Hr as (j & h & p & ->%list_elem_of_singleton & Hr). exists i, h, p. split; [apply elem_of_app; right; by left | done]. }
    rewrite cli_events_app, offered_app, from_app_app, Hfrom, app_nil_r, Hd by done.
    eapply (level_speak req _ _ _ _ [hello]); [|exact Hk]. eapply level_quiet; [exact Hl|].
    simpl. by intros [? _]%andb_true_iff.
  - rewrite from_app_app, Hfrom, app_nil_r. intros _. by apply Hd.
Qed.

Lemma cli_greet g i x q ops :
  cli_inv CGreet x -> a_got [i] = [] -> from_app [i] = [] -> spare CGreet (a_app x) q ops ->
  greets i (app_run g i) (a_app x) -> exists ph', cli_inv ph' (a_next g i x q ops).
Proof.
  intros Hx Hg Hf Hs [[Hq Hc]|(e & req & Hr & Em)].
  - exists CGreet. apply (cli_quiet CGreet); auto.
  - exists CAsk. by eapply cli_ask.
Qed.
(** ** Reads of the tunnel *)

Lemma ack_run e ec d a :
  running (cli (final (on_cli (on_ack e ec d)) a)) = true -> running (cli a) = true.
Proof.
  rewrite final_cli. simpl. destruct (calm_ack true e ec d (cli a)) as [H _ _ _ _]. simpl in H. intros Hr.
  destruct (running (cli a)); [done|]. by rewrite H in Hr.
Qed.

Lemma cli_acked e g x q ops h :
  cli_inv CConnect x -> h = H_ACK -> spare CConnect (a_app x) q ops ->
  cli_inv CGreet (a_next g (IReadDone e h ec_none m0) x q ops).
Proof.
  intros [_ (ms & H1 & H2 & H3) (req & _ & Hl) Hd _] -> Hs.
  assert (Em : app_run g (IReadDone e H_ACK ec_none m0) = on_cli (on_ack e ec_none m0)) by done.
  pose proof (ack_done e m0 _ _ _ Hs) as Ha.
  split; cbn [a_next a_app a_ev a_posted a_ops a_in]; rewrite ?Em; [exact Ha | | | | done].
  - exists []. rewrite a_got_app, H1, to_app_app, H2, trace_cli, to_app_cli. done.
  - exists req. split; [done|]. rewrite cli_events_app, offered_app, from_app_app, app_nil_r, trace_cli, cli_events_cli.
    rewrite (no_relay_offered (trace _ _)), app_nil_r by apply (calm_ack true). eapply level_quiet; [exact Hl|].
    simpl. apply ack_run.
  - intros _. rewrite from_app_app, Hd by done. done.
Qed.

Lemma cli_replied e g x q ops h :
  cli_inv CAsk x -> h = H_REPLY -> spare CAsk (a_app x) q ops ->
  exists ph', cli_inv ph' (a_next g (IReadDone e h ec_none m1) x q ops).
Proof.
  intros [_ (ms & H1 & H2 & H3) (req & Hr & Hl) Hd _] -> Hs.
  assert (Em : app_run g (IReadDone e H_REPLY ec_none m1) = on_reply_read e ec_none m1) by done.
  assert (Hf : from_app (a_in x ++ [IReadDone e H_REPLY ec_none m1]) = []) by by rewrite from_app_app, Hd.
  destruct (reply_cases e m1 rep (a_app x)) as [[Hq Hc]|(T & O & R & Hg & Hc)]; [by apply Hs | done | done | |].
  - exists CRefused. pose proof (quiet_open _ _ _ Hq) as Ho. destruct Hq as [T O _].
    split; cbn [a_next a_app a_ev a_posted a_ops a_in]; rewrite ?Em; [by apply Hc | | | by rewrite Hf | done].
    + exists []. by rewrite a_got_app, H1, to_app_app, H2, T.
    + exists req. split; [by apply (requested_app CAsk)|]. rewrite cli_events_app, offered_app, O, app_nil_r, Hf. rewrite Hd in Hl by done.
      eapply level_quiet; [exact Hl | exact Ho].
  - exists CReply. split; cbn [a_next a_app a_ev a_posted a_ops a_in]; rewrite ?Em; [by apply Hc | | | by rewrite Hf | done].
    + exists []. by rewrite a_got_app, H1, to_app_app, H2, T.
    + exists req. split; [by apply (requested_app CAsk)|]. rewrite cli_events_app, offered_app, O, app_nil_r, Hf. rewrite Hd in Hl by done.
      eapply level_quiet; [exact Hl|]. simpl. rewrite !andb_true_iff. intros [A1 A2]. destruct (R A1) as [-> <-]. done.
Qed.

Lemma data_shown e d a :
  d <> [] -> to_app (trace (on_kcp_read e ec_none d) a) = [d] /\ cli (final (on_kcp_read e ec_none d) a) = cli a /\
  cli_events (trace (on_kcp_read e ec_none d) a) = [].
Proof.
  intros Hd. unfold on_kcp_read. rewrite !bool_decide_false by done. cbn [ec_failed orb].
  unfold trace, final. rewrite modify_bind, gets_bind. unfold ewhen. destruct (app_eof _); by cbn.
Qed.

Lemma cli_data e g x q ops h d :
  cli_inv CForward x -> h = Client.H_FORWARD -> spare CForward (a_app x) q ops -> d <> [] ->
  cli_inv CForward (a_next g (IReadDone e h ec_none d) x q ops).
Proof.
  intros [_ (ms & H1 & H2 & H3) (req & Hr & Hl) Hd Hg] -> Hs Hn.
  assert (Em : app_run g (IReadDone e Client.H_FORWARD ec_none d) = on_kcp_read e ec_none d) by done.
  destruct (data_shown e d (a_app x) Hn) as (T & C & E).
  split; cbn [a_next a_app a_ev a_posted a_ops a_in]; rewrite ?Em; [by apply read_data_core | | | done | done].
  - exists (ms ++ [d]). by rewrite a_got_app, H1, to_app_app, H2, T.
  - exists req. split; [by apply requested_app|]. rewrite cli_events_app, offered_app, E, from_app_app, !app_nil_r. by rewrite C.
Qed.

(** A failed read. *)
Lemma cli_failed ph e g x q ops h ec d :
  cli_inv ph x -> ec <> ec_none -> spare ph (a_app x) q ops -> ctag ph = Some h ->
  cli_inv ph (a_next g (IReadDone e h ec d) x q ops).
Proof.
  intros Hx He Hs Ht. apply (cli_quiet ph); auto; [simpl; by rewrite bool_decide_false | |].
  - destruct ph; simplify_eq/=.
    + apply after_lone; [by apply ack_failed | done].
    + by apply reply_failed.
    + by apply read_failed_core.
  - destruct ph; simplify_eq/=.
    + by apply aquiet_ack_failed.
    + by apply aquiet_reply_failed.
    + by apply aquiet_read_failed.
Qed.

(** Data of the application. *)
Lemma cli_local e g ec d x ops :
  cli_inv CForward x -> acore CForward (a_app x) (a_posted x) ops ->
  cli_inv CForward (a_next g (ILocalRead e ec d) x (a_posted x) ops).
Proof.
  intros Hx Hc. assert (Ha : after (acore CForward) (on_app_read e g ec d) (a_app x) (a_posted x) ops).
  { apply after_adrift; [apply adrift_app_read | done]. }
  destruct (ec_failed ec || bool_decide (d = [])) eqn:Ed.
  - apply (cli_quiet CForward); auto; [simpl; by rewrite Ed | by apply aquiet_app_read].
  - destruct Hx as [_ (ms & H1 & H2 & H3) (req & Hr & Hl) Hd Hg].
    assert (Hok : ec = ec_none /\ d <> []).
    { apply orb_false_iff in Ed as [E1 E2]. apply bool_decide_eq_false in E2. by destruct ec. }
    destruct Hok as [-> Hn]. pose proof (speaks_data e g d Hn (a_app x)) as Hk.
    assert (Em : app_run g (ILocalRead e ec_none d) = on_app_read e g ec_none d) by done.
    split; cbn [a_next a_app a_ev a_posted a_ops a_in]; rewrite ?Em; [exact Ha | | | done | done].
    + exists ms. rewrite a_got_app, to_app_app, app_nil_r, H1, H2. destruct Hk as [T _ _]. by rewrite T, app_nil_r.
    + exists req. split; [by apply requested_app|]. rewrite cli_events_app, offered_app, from_app_app. simpl from_app.
      rewrite bool_decide_false by done. exact (level_speak d _ _ _ _ (script CForward req (from_app (a_in x))) Hl Hk).
Qed.

(** ** One delivery *)

Lemma cli_read ph e g x x' h ec d rest :
  cli_inv ph x -> a_step g (IReadDone e h ec d) x = Some x' ->
  a_got (a_in x') `prefix_of` m0 :: m1 :: rest -> (rep_reply rep = SOCKS5_REPLY_SUCCEEDED -> Forall (fun d => d <> []) rest) ->
  exists ph', cli_inv ph' x'.
Proof.
  intros Hx Hs Hpre Hne. unfold a_step in Hs. simpl in Hs. pose proof (ci_core _ _ Hx) as Hc.
  destruct (next_read (h, ec, d) (a_posted x)) as [q|] eqn:Eq; [|done]. injection Hs as <-.
  apply next_read_some in Eq. rewrite Eq in Hc. apply acore_next in Hc as [Hsp Ht].
  destruct (decide (ec = ec_none)) as [->|He]; [|exists ph; by apply cli_failed].
  destruct (ci_heard _ _ Hx) as (ms & H1 & _ & _). cbn [a_next a_in] in Hpre. rewrite a_got_app, H1 in Hpre.
  destruct ph; simplify_eq/=.
  - apply prefix_cons_inv_1 in Hpre as ->. exists CGreet. by apply cli_acked.
  - apply prefix_cons_inv_2, prefix_cons_inv_1 in Hpre as ->. by apply cli_replied.
  - apply prefix_cons_inv_2, prefix_cons_inv_2 in Hpre. exists CForward. apply cli_data; auto.
    specialize (Hne (ci_granted _ _ Hx)). destruct Hpre as [k ->]. rewrite list.Forall_forall in Hne. apply Hne. rewrite !elem_of_app, elem_of_cons. auto.
Qed.

Lemma cli_app_read ph e st n ec b g x x' :
  cli_inv ph x -> a_step g (IAppRead e st n ec b) x = Some x' -> buffer_ok (IAppRead e st n ec b) ->
  exists ph', cli_inv ph' x'.
Proof.
  intros Hx Hs Hb. unfold a_step in Hs. simpl in Hs. destruct (take_one _ (a_ops x)) as [ops|] eqn:Et; [|done].
  injection Hs as <-. destruct (core_token _ _ _ _ _ _ (ci_core _ _ Hx) Et Logic.I) as [Hsp Hin].
  destruct ph; try done. apply cli_greet; auto. destruct st; simpl.
  - apply greets_quiet; [apply aquiet_greet_header | intros; by apply greet_header_core].
  - apply greets_quiet; [apply aquiet_greet_methods | intros; by apply greet_methods_core].
  - apply greets_quiet; [apply aquiet_request_header | intros; by apply request_header_core].
  - by eapply greets_address.
  - by eapply greets_domain.
Qed.

Lemma cli_written ph e st ec g x x' :
  cli_inv ph x -> a_step g (IAppWritten e st ec) x = Some x' -> exists ph', cli_inv ph' x'.
Proof.
  intros Hx Hs. unfold a_step in Hs. simpl in Hs. destruct (take_one _ (a_ops x)) as [ops|] eqn:Et; [|done].
  injection Hs as <-. destruct (core_token _ _ _ _ _ _ (ci_core _ _ Hx) Et Logic.I) as [Hsp Hin].
  destruct st; simpl in Hin.
  - exists ph. apply cli_drift; [done.. | by apply spare_core | apply adrift_abort | apply aquiet_abort].
  - by destruct ph.
  - destruct ph; try done. apply cli_greet; auto.
    apply greets_quiet; [apply aquiet_method_written | intros; by apply method_written_core].
  - destruct ph; try done. exists CForward. apply (cli_quiet CReply); auto; [by apply reply_written_core | apply aquiet_reply_written].
  - destruct ph; try done. exists CForward. apply (cli_quiet CForward); auto; [by apply data_written_core | apply aquiet_data_written].
Qed.

Lemma cli_step ph g i x x' rest :
  cli_inv ph x -> a_step g i x = Some x' -> buffer_ok i ->
  a_got (a_in x') `prefix_of` m0 :: m1 :: rest -> (rep_reply rep = SOCKS5_REPLY_SUCCEEDED -> Forall (fun d => d <> []) rest) ->
  exists ph', cli_inv ph' x'.
Proof.
  intros Hx Hs Hb Hpre Hne. pose proof (ci_core _ _ Hx) as Hc.
  destruct i as [e ec p|ec|e|e|e ec|e h ec d|e ok|e st n ec b|e st ec|e ec d|e ec|e ec|e|e];
    try (injection Hs as <-; exists ph; apply cli_drift; auto).
  - apply adrift_cli, cdrift_received.
  - apply (aquiet_cli true); [apply calm_udp_receive | apply fades_received].
  - apply adrift_cli, cdrift_backoff.
  - apply (aquiet_cli true); [apply calm_backoff | apply fades_backoff].
  - apply adrift_cli, cdrift_tick.
  - apply (aquiet_cli true); [apply calm_client_tick | apply fades_tick].
  - apply adrift_cli, cdrift_close.
  - apply aquiet_close.
  - apply adrift_cli, cdrift_timer.
  - apply (aquiet_cli true); [apply calm_timer | apply fades_timer].
  - by eapply cli_read.
  - unfold a_step in Hs. simpl in Hs. destruct (take_one _ (a_ops x)) as [ops|] eqn:Et; [|done]. injection Hs as <-.
    destruct ok.
    + destruct (core_token _ _ _ _ _ _ Hc Et eq_refl) as [Hsp Hin]. destruct ph; try done.
      apply cli_greet; auto. apply greets_quiet; [apply aquiet_connected | intros; by apply connected_spare].
    + destruct (core_other _ _ _ _ _ _ Hc Et) as [Hc' _]. exists ph.
      apply cli_drift; [done.. | apply adrift_refused | apply aquiet_connected].
  - by eapply cli_app_read.
  - by eapply cli_written.
  - unfold a_step in Hs. simpl in Hs. destruct (take_one _ (a_ops x)) as [ops|] eqn:Et; [|done]. injection Hs as <-.
    destruct (core_other _ _ _ _ _ _ Hc Et) as [Hc' Hin]. destruct ph; try done. exists CForward. by apply cli_local.
  - apply adrift_deadline.
  - apply aquiet_deadline.
  - apply adrift_watchdog.
  - apply aquiet_watchdog.
  - apply adrift_check.
  - apply aquiet_check.
  - apply adrift_cli, cdrift_close.
  - apply aquiet_close.
Qed.
End ClientRun.

(** ** A new connection *)

Section Start.
Context {I : AsioIp} {IL : AsioIpLaws I} {A : Crypto.Aead} {K : Kcp} {F : FecCodec}.

Lemma after_cli_bind {X Y} P (m : M client_session event X) (k : X -> M client_session event Y) a q ops :
  after (after P (on_cli (k (result m (cli a))))) (on_cli m) a q ops -> after P (on_cli (ebind m k)) a q ops.
Proof.
  unfold Relay.after. rewrite !final_cli, !trace_cli, !cli_events_cli, trace_bind, final_bind, fmap_app, a_started_app,
    reads_done_app, !app_assoc. done.
Qed.

Lemma spare_member ph (f : client_session -> client_session) a q ops :
  (forall s, pending_read_handler (cbase (f s)) = pending_read_handler (cbase s) /\
     write_resume_cb (cbase (f s)) = write_resume_cb (cbase s)) ->
  spare ph a q ops -> after (spare ph) (on_cli (emodify f)) a q ops.
Proof.
  intros Hf [S1 S2 S3 S4]. destruct (Hf (cli a)) as [H1 H2]. unfold Relay.after, final, trace. simpl. rewrite !app_nil_r.
  split; simpl; [unfold cwaiting; by rewrite H1 | done | by rewrite H2 | done].
Qed.

Lemma cdrift_failed b e : keeps (cdrift b) (connect_failed e).
Proof.
  unfold connect_failed, drop_socket, take_completion.
  repeat first [keeps_step | apply cdrift_close | apply cdrift_member; by intros
    | apply cdrift_emit; first [done | by intros []]].
Qed.

Lemma cdrift_hello b e : keeps (cdrift b) (send_connect_hello e).
Proof.
  unfold send_connect_hello. apply keeps_bind; [apply _| |intros ret].
  - intros s. unfold trace, final. rewrite on_tun_run. unfold trace, final, kcp_send.
    destruct (KcpWrapper.send _ _) as [w ret]. simpl. split; [split; simpl; auto; congruence | by left |].
    split; [done | by repeat constructor].
  - repeat keeps_step. apply cdrift_calm; [apply calm_cycle; apply _ | apply flush_cycle_step | apply frame_flush_cycle; apply _].
Qed.

Lemma hello_said e s :
  (offered (trace (send_connect_hello e) s) = [hello] /\ result (send_connect_hello e) s = true) \/
  (offered (trace (send_connect_hello e) s) = [] /\ result (send_connect_hello e) s = false).
Proof.
  unfold send_connect_hello. rewrite trace_bind, result_bind. set (m := on_tun (kcp_send FromHello hello)).
  assert (Hm : trace m s = [KcpSend FromHello hello (result m s)]).
  { unfold m, trace, result. rewrite on_tun_run. unfold trace, result, kcp_send. by destruct (KcpWrapper.send _ _). }
  rewrite offered_app, Hm.
  assert (Ho : offered [KcpSend FromHello hello (result m s)] = if result m s <? 0 then [] else [hello])
    by (unfold offered; simpl; by case_bool).
  rewrite Ho. destruct (result m s <? 0); [by right | left].
  - rewrite trace_bind, result_bind, offered_app. split; [|done].
    by rewrite (no_relay_offered (trace (flush_cycle _ _) _)) by apply (calm_cycle (St := client_session) true).
Qed.

Lemma failed_stops e s : running (final (connect_failed e) s) = false.
Proof.
  unfold connect_failed. rewrite final_bind.
  assert (Hk : keeps (calm true) (drop_socket ;;; take_completion false)).
  { unfold drop_socket. repeat first [keeps_step | apply calm_client; by intros | apply calm_emit; by intros []
      | apply calm_take_completion]. }
  apply (Hk (final (on_close e) s)). apply close_stops.
Qed.

Lemma handshake_said e s :
  let q := offered (trace (start_handshake e) s) in
  q `prefix_of` [hello] /\ (running (final (start_handshake e) s) = true -> q = [hello]).
Proof.
  intros q. unfold q, start_handshake. clear q. set (rd := on_async_read_some _ _).
  rewrite trace_bind, final_bind, trace_modify, final_modify, trace_bind, final_bind, !offered_app.
  set (s1 := set_timer_armed true (final rd s)).
  rewrite (no_relay_offered (trace rd s)) by apply (read_registered (Z.to_nat FWD_BUF_SIZE) H_ACK s).
  destruct (hello_said e s1) as [[-> ->]|[-> ->]]; cbn [negb ewhen].
  - by split.
  - unfold ewhen. rewrite (no_relay_offered (trace (connect_failed e) _)) by apply (calm_connect_failed true).
    split; [apply prefix_nil|]. by rewrite failed_stops.
Qed.

Lemma connect_said e setup s :
  let q := offered (trace (on_connect e setup) s) in
  running s = false -> q `prefix_of` [hello] /\ (running (final (on_connect e setup) s) = true -> q = [hello]).
Proof.
  intros q Hr. unfold q, on_connect.
  assert (Hfail : forall f : client_session -> client_session,
    (forall s, cbase (f s) = cbase s /\ running (f s) = running s) ->
    let m := emodify (set_completion true) ;;; emodify f ;;; connect_failed e in
    offered (trace m s) `prefix_of` [hello] /\ (running (final m s) = true -> offered (trace m s) = [hello])).
  { intros f Hf m. assert (Hk : keeps (calm true) m).
    { unfold m. repeat first [keeps_step | apply calm_client; first [by intros | exact Hf] | apply calm_connect_failed]. }
    destruct (Hk s) as [H1 _ _ _ H5]. simpl in H1. rewrite (no_relay_offered _ H5). split; [apply prefix_nil|].
    by rewrite H1. }
  destruct setup; [by apply Hfail | by apply Hfail |].
  rewrite trace_modify, final_modify, trace_modify, final_modify, trace_bind, final_bind, offered_app.
  set (s1 := set_udp_socket _ _).
  assert (Hl : trace (go_live e) s1 = []).
  { unfold go_live, do_udp_receive, trace, ebind, emodify, upd, on_tun, egets, ewhen, eret. simpl.
    done. }
  rewrite Hl. apply handshake_said.
Qed.

Lemma connect_core e setup a q ops :
  spare CConnect a q ops -> after (acore CConnect) (on_cli (on_connect e setup)) a q ops.
Proof.
  intros Hs. unfold on_connect.
  apply after_cli_bind. eapply after_impl; [|apply (spare_member CConnect); [by intros | exact Hs]]. intros a1 q1 o1 H1.
  destruct setup.
  1,2: apply after_lone; [apply adrift_cli | exact H1];
    repeat first [keeps_step | apply cdrift_member; by intros | apply cdrift_failed].
  apply after_cli_bind. eapply after_impl; [|apply (spare_member CConnect); [by intros | exact H1]]. intros a2 q2 o2 H2.
  apply after_cli_bind. eapply after_impl; [|].
  2:{ unfold go_live. apply after_cli_bind. eapply after_impl; [|apply (spare_member CConnect); [by intros | exact H2]].
      intros a3 q3 o3 H3. apply (after_spare CConnect); [apply adrift_cli | exact H3]. unfold do_udp_receive.
      repeat first [keeps_step | apply cdrift_upd; by intros | apply cdrift_member; by intros]. }
  intros a3 q3 o3 H3. unfold start_handshake. apply after_cli_bind.
  eapply after_impl; [|apply (after_cread CConnect); [done | exact H3]]. intros a4 q4 o4 H4.
  apply after_adrift; [apply adrift_cli | exact H4].
  repeat first [keeps_step | apply cdrift_hello | apply cdrift_member; by intros | apply cdrift_failed].
Qed.

Lemma cli_start m0 m1 rep e0 conv crypto fec s e setup :
  new_client e0 conv crypto fec = Ret s -> cli_inv m0 m1 rep CConnect (a_start e setup s).
Proof.
  intros Hn. unfold new_client in Hn. destruct (create e0 conv crypto fec) as [t|] eqn:Et; [|done].
  assert (Ht : pending_read_handler t = None /\ write_resume_cb t = None).
  { unfold create in Et. repeat case_match; by simplify_eq. }
  injection Hn as <-. destruct Ht as [H1 H2]. set (s := mkClient t _ _ _ _ _ _ _ _ _ _ _).
  assert (Hs : spare CConnect (new_app s) [] []).
  { split; simpl; [unfold cwaiting; simpl; by rewrite H1 | constructor | done | done]. }
  unfold a_start. set (m := emit HandshakeDeadlineArmed ;;; on_cli (on_connect e setup)).
  assert (Ef : final m (new_app s) = set_cli (final (on_connect e setup) s) (new_app s))
    by (unfold m; by rewrite final_bind, final_cli).
  assert (Ev : trace m (new_app s) = HandshakeDeadlineArmed :: (Cli <$> trace (on_connect e setup) s))
    by (unfold m; by rewrite trace_bind, trace_cli).
  split; cbn [a_app a_ev a_posted a_ops a_in]; [| | | done | done].
  - change (after (acore CConnect) m (new_app s) [] []). unfold m. apply after_bind.
    eapply after_impl; [|apply (after_spare CConnect); [by apply adrift_emit | exact Hs]]. intros a1 q1 o1 Ha.
    by apply connect_core.
  - exists []. rewrite Ev. change (to_app (?x :: ?l)) with (to_app ([x] ++ l)). by rewrite to_app_app, to_app_cli.
  - exists []. split; [done|]. rewrite Ev, Ef. change (cli_events (?x :: ?l)) with (cli_events ([x] ++ l)).
    rewrite cli_events_app, cli_events_cli. by apply (connect_said e setup s).
Qed.
End Start.
