(* ===== verification/RelayProofs.v ===== *)
(** * RelayProofs: the proxy relays both streams

    Puts the two halves together. The loops of [Relay] keep the books of
    [Link], so the tunnel carries the messages of each end to the other; the
    messages of each end follow the protocol as long as those of the other do;
    so by induction on the life of a connection both do, and what reaches the
    target is what the application wrote, what reaches the application is the
    confirmation and what the target wrote. *)

From Stdlib Require Import ZArith Lia.
From stdpp Require Import base list strings.
From S2P Require Import Prelude Config Asio Address Socks5 Allowlist Effects Kcp History Tunnel TunnelProofs Coding Flow.
From S2P Require Import Session ClientSession Calm Link Connection Client Relay.
From S2P Require Import RelayServer RelayServerRun RelayTarget RelayClient RelayClientRun.
From S2P Require Crypto.

(** ** The loops keep the books *)

Section Books.
Context {I : AsioIp} {A : Crypto.Aead} {AL : Crypto.AeadLaws A} {K : Kcp} {F : FecCodec}.
Context (psk salt : list Z) (dir peer : Z) (admitted : list Z -> Prop).

Abbreviation fl := (flow psk salt dir peer admitted no_source).

Definition sfl (c : conn) (ev : list cevent) (c' : conn) : Prop := fl (base (ses c)) (ses_events ev) (base (ses c')).
Definition afl (a : app_conn) (ev : list aevent) (a' : app_conn) : Prop :=
  fl (cbase (cli a)) (cli_events ev) (cbase (cli a')).

#[export] Instance sfl_comp : Compositional sfl.
Proof.
  split; [intros c; apply (comp_refl (R := fl))|]. intros c1 c2 c3 e1 e2 H1 H2. unfold sfl. rewrite ses_events_app.
  by eapply (comp_trans (R := fl)).
Qed.
#[export] Instance afl_comp : Compositional afl.
Proof.
  split; [intros c; apply (comp_refl (R := fl))|]. intros c1 c2 c3 e1 e2 H1 H2. unfold afl. rewrite cli_events_app.
  by eapply (comp_trans (R := fl)).
Qed.

Lemma sfl_ses {X} (m : M session event X) : keeps (on_st fl) m -> keeps sfl (on_ses m).
Proof. intros Hm c. unfold sfl. rewrite final_ses, trace_ses, ses_events_ses. apply Hm. Qed.
Lemma afl_cli {X} (m : M client_session event X) : keeps (on_st fl) m -> keeps afl (on_cli m).
Proof. intros Hm a. unfold afl. rewrite final_cli, trace_cli, cli_events_cli. apply Hm. Qed.
Lemma sfl_perform k :
  match k with CReceive _ p => vouched psk salt peer admitted p | CInject _ d => admitted d | _ => True end ->
  keeps sfl (on_ses (perform k)).
Proof. intros Hk. by apply sfl_ses, perform_flow. Qed.
Lemma afl_perform k :
  match k with KReceived _ _ p => vouched psk salt peer admitted p | _ => True end ->
  keeps afl (on_cli (client_perform k)).
Proof. intros Hk. by apply afl_cli, client_perform_flow. Qed.

Lemma sfl_emit x : ses_events [x] = [] -> keeps sfl (emit x).
Proof. intros Hx c. change (sfl c [x] c). unfold sfl. rewrite Hx. apply (comp_refl (R := fl)). Qed.
Lemma afl_emit x : cli_events [x] = [] -> keeps afl (emit x).
Proof. intros Hx c. change (afl c [x] c). unfold afl. rewrite Hx. apply (comp_refl (R := fl)). Qed.
Lemma sfl_modify f : (forall c, base (ses (f c)) = base (ses c)) -> keeps sfl (emodify f).
Proof. intros Hf c. unfold sfl, trace, final. simpl. rewrite Hf. apply (comp_refl (R := fl)). Qed.
Lemma afl_modify f : (forall c, cli (f c) = cli c) -> keeps afl (emodify f).
Proof. intros Hf c. unfold afl, trace, final. simpl. rewrite Hf. apply (comp_refl (R := fl)). Qed.
Lemma sfl_upd f : (forall s, base (f s) = base s) -> keeps sfl (upd_ses f).
Proof. intros Hf. by apply sfl_ses, own_flow. Qed.
Lemma afl_cancelled : keeps afl take_cancelled.
Proof. intros c. apply (comp_refl (R := fl)). Qed.

Ltac swalk :=
  repeat first [keeps_step | apply keeps_gets; apply _ | by apply sfl_emit | apply sfl_modify; by intros
    | apply sfl_upd; by intros
    | by apply sfl_ses, (fl_emit (St := session))
    | apply sfl_ses, fl_upd, flow_benign; by intros
    | apply sfl_ses, close_connection_flow | apply sfl_ses, target_closed_flow | apply sfl_ses, stop_flow
    | apply sfl_ses, forward_tcp_flow | apply sfl_ses, tick_flow
    | by apply sfl_ses, receive_flow | by apply sfl_ses, inject_flow
    | apply sfl_ses, fl_send_data; apply _ | apply sfl_ses, fl_read_some; apply _].

Lemma sfl_done : keeps sfl (on_ses session_handshake_done).
Proof. exact (sfl_perform CHandshakeDone Logic.I). Qed.
Lemma sfl_forward e : keeps sfl (forward_kcp_to_tcp e).
Proof. unfold forward_kcp_to_tcp, look_ses. swalk. Qed.
Lemma sfl_reply e r h p : keeps sfl (send_socks5_reply e r h p).
Proof. unfold send_socks5_reply. swalk. Qed.
Lemma sfl_fail e r : keeps sfl (fail_with e r).
Proof. unfold fail_with. swalk; apply sfl_reply. Qed.
Lemma sfl_parse e : keeps sfl (parse_accumulated_socks5 e).
Proof.
  unfold parse_accumulated_socks5, handle_udp_associate, handle_connect_command. swalk; apply sfl_fail.
Qed.
Lemma sfl_more e : keeps sfl (read_more_socks5 e).
Proof. unfold read_more_socks5. swalk; apply sfl_parse. Qed.
Lemma sfl_request e d : keeps sfl (handle_socks5_request e d).
Proof. unfold handle_socks5_request. swalk; apply sfl_more. Qed.
Lemma sfl_kcp_data e : keeps sfl (handle_kcp_data e).
Proof.
  unfold handle_kcp_data, handle_protocol_handshake, look_ses. swalk; [apply sfl_forward | apply sfl_request].
Qed.
Lemma sfl_start e : keeps sfl (start_forwarding e).
Proof. unfold start_forwarding, look_ses. swalk; apply sfl_forward. Qed.

Lemma happen_flow e h :
  match h with HDatagram p => vouched psk salt peer admitted p | HFirst d => admitted d | _ => True end ->
  keeps sfl (happen e h).
Proof.
  destruct h; simpl; intros Hh; unfold on_datagram, on_first_datagram, on_read_complete, on_protocol_read,
    on_socks5_read, on_forward_read, on_deadline, on_resolved, on_connected, on_initial_written, on_target_read,
    on_forward_written, look_ses; swalk;
    auto using sfl_kcp_data, sfl_request, sfl_fail, sfl_parse, sfl_more, sfl_forward, sfl_start, sfl_reply, sfl_done.
Qed.

(** The client's. *)
Ltac awalk :=
  repeat first [keeps_step | apply keeps_gets; apply _ | by apply afl_emit | apply afl_modify; by intros
    | apply afl_cancelled | by apply afl_cli, (fl_emit (St := client_session))
    | apply afl_cli, fl_upd, flow_benign; by intros
    | apply afl_cli, on_close_flow | apply afl_cli, forward_client_flow | exact (afl_perform KCloseLocal Logic.I)
    | apply afl_cli, fl_send_data; apply _ | apply afl_cli, fl_read_some; apply _
    | apply afl_cli, fl_send_fin; apply _].

Lemma afl_close_socket e : keeps afl (close_local_socket e).
Proof. unfold close_local_socket. awalk. Qed.
Lemma afl_abort e : keeps afl (abort_handshake e).
Proof. unfold abort_handshake. awalk; apply afl_close_socket. Qed.
Lemma afl_error r : keeps afl (send_socks5_error r).
Proof. unfold send_socks5_error. awalk. Qed.
Lemma afl_request e cmd h p : keeps afl (handle_sync_request e cmd h p).
Proof. unfold handle_sync_request, read_socks5_reply. awalk; apply afl_error. Qed.
Lemma afl_server_fin e : keeps afl (handle_server_fin e).
Proof. unfold handle_server_fin, cancel_grace, close_both, forward_read. awalk. Qed.
Lemma afl_downstream e : keeps afl (forward_kcp_to_client e).
Proof. unfold forward_kcp_to_client, forward_read. awalk; apply afl_server_fin. Qed.

Lemma app_run_flow g i :
  match i with IPacket _ _ p => vouched psk salt peer admitted p | _ => True end -> keeps afl (app_run g i).
Proof.
  destruct i as [e ec p|ec|e|e|e ec|e h ec d|e ok|e st n ec b|e st ec|e ec d|e ec|e ec|e|e]; simpl; intros Hi.
  - by apply (afl_perform (KReceived e ec p)).
  - by apply (afl_perform (KBackoff ec)).
  - by apply (afl_perform (KTick e)).
  - by apply (afl_perform (KShutDown e)).
  - by apply (afl_perform (KConnectTimer e ec)).
  - unfold app_read_complete, on_reply_read, on_kcp_read, unless_cancelled, read_socks5_reply, forward_reply, cancel_grace,
      close_both. awalk; auto using afl_error, afl_server_fin. by apply (afl_perform (KAck e ec d)).
  - unfold on_kcp_connected, unless_cancelled. awalk. apply afl_abort.
  - destruct st; unfold on_greet_header, on_greet_methods, on_request_header, on_request_address, on_request_domain,
      no_acceptable, unless_cancelled; awalk; auto using afl_abort, afl_error, afl_request.
  - destruct st; unfold on_method_written, on_reply_written, on_data_written, cancel_grace, close_both, unless_cancelled;
      awalk; auto using afl_abort, afl_downstream.
  - unfold on_app_read, arm_half_close_grace, close_both. awalk.
  - unfold on_handshake_deadline. awalk. apply afl_close_socket.
  - unfold on_watchdog. awalk. apply afl_close_socket.
  - unfold on_half_close_check, close_both. awalk.
  - awalk.
Qed.
End Books.

Section RelayBooks.
Context {I : AsioIp} {A : Crypto.Aead} {AL : Crypto.AeadLaws A} {K : Kcp} {F : FecCodec}.
Context (psk salt : list Z) (fec : FecConfig).

Lemma relayed_inv w : relayed psk salt fec w -> world_inv psk salt fec (relay_world w).
Proof.
  induction 1 as [f crypto e0 s0 e setup Hl Hc Hf Hn|w g i r Hw IH Hs Hb Hin
    |w f p crypto plain e s Hw IH Hn Hd Hsalt Hin Hf Hnew|w s e h r Hw IH Hn Hs Hl Hin].
  - pose proof (connect_inv psk salt fec f crypto e0 s0 e setup Hl Hc Hf Hn) as Hi.
    unfold relay_world, a_start. simpl. rewrite final_bind, trace_bind, final_cli, trace_cli.
    change (cli_events (?a ++ ?b)) with (cli_events ([HandshakeDeadlineArmed] ++ b)).
    rewrite cli_events_app, cli_events_cli. exact Hi.
  - unfold a_step in Hs. destruct (a_take i _ _) as [[q ops]|]; [|done]. injection Hs as <-.
    unfold relay_world. simpl. rewrite cli_events_app.
    eapply (client_grows psk salt fec (relay_world w) _ _ match i with IPacket _ _ p => Some p | _ => None end IH).
    + intros admitted Hv. apply (app_run_flow psk salt _ _ admitted g i). destruct i; try done. by apply Hv.
    + intros p Hp. destruct i; simplify_eq. exact Hin.
  - assert (Hn' : w_server (relay_world w) = None) by (simpl; by rewrite Hn).
    refine (accept_grows psk salt fec (relay_world w) f p crypto plain (c_env e) s _ _ IH Hn' Hd Hsalt Hin Hf Hnew _).
    intros admitted Hp. exact (happen_flow psk salt _ _ admitted e (HFirst plain) Hp (new_conn s)).
  - unfold s_step in Hs. destruct (s_take h _ _) as [[q ops]|] eqn:Et; [|done]. injection Hs as <-.
    assert (Hn' : w_server (relay_world w) = Some (ses (s_conn s))) by (simpl; by rewrite Hn).
    assert (Hev : w_sev (relay_world w) = ses_events (s_ev s)) by (simpl; by rewrite Hn).
    unfold relay_world at 1. simpl. rewrite ses_events_app, <- Hev.
    refine (server_grows psk salt fec (relay_world w) _ _ _ match h with HDatagram p => Some p | _ => None end IH Hn' _ _).
    + intros admitted Hv. apply (happen_flow psk salt _ _ admitted e h). destruct h; try done. by apply Hv.
    + intros p Hp. destruct h; simplify_eq. exact Hin.
Qed.
End RelayBooks.

(** ** What was dispatched *)

(** The data of completions. *)
Definition carried (q : posted) : list (list Z) :=
  omap (fun r => if bool_decide (r.1.2 = ec_none) then Some r.2 else None) q.

Lemma carried_app q1 q2 : carried (q1 ++ q2) = carried q1 ++ carried q2.
Proof. apply omap_app. Qed.

Lemma delivered_carried ev : delivered ev = carried (reads_done ev).
Proof.
  induction ev as [|x ev IH]; [done|]. change (x :: ev) with ([x] ++ ev).
  rewrite delivered_app, reads_done_app, carried_app, IH. f_equal. by destruct x.
Qed.

Section Dispatched.
Context {I : AsioIp} {A : Crypto.Aead} {K : Kcp} {F : FecCodec} (psk salt : list Z) (fec : FecConfig).

(** What was read from the tunnel has been dispatched, or is posted. *)
Definition s_balance (x : srun) : Prop :=
  delivered (ses_events (s_ev x)) = s_got (s_in x) ++ carried (s_posted x).
Definition a_balance (x : arun) : Prop :=
  delivered (cli_events (a_ev x)) = a_got (a_in x) ++ carried (a_posted x).

Lemma s_step_balance e h x x' : s_step e h x = Some x' -> s_balance x -> s_balance x'.
Proof.
  unfold s_step. intros Hs Hb. destruct (s_take h _ _) as [[q ops]|] eqn:Et; [|done]. injection Hs as <-.
  assert (Hq : s_got [h] ++ carried q = carried (s_posted x)).
  { destruct h; simpl in Et; try (destruct (take_one _ _); [|done]); simplify_eq/=; try done.
    destruct (next_read _ _) as [q'|] eqn:En; [|done]. simplify_eq/=. apply next_read_some in En. rewrite En.
    unfold s_got, carried. simpl. by destruct (bool_decide _). }
  unfold s_balance in *. cbn [s_next s_ev s_in s_posted].
  rewrite ses_events_app, delivered_app, Hb, s_got_app, carried_app, <- delivered_carried, <- Hq.
  by rewrite !app_assoc.
Qed.

Lemma a_step_balance g i x x' : a_step g i x = Some x' -> a_balance x -> a_balance x'.
Proof.
  unfold a_step. intros Hs Hb. destruct (a_take i _ _) as [[q ops]|] eqn:Et; [|done]. injection Hs as <-.
  assert (Hq : a_got [i] ++ carried q = carried (a_posted x)).
  { destruct i; simpl in Et; try (destruct (take_one _ _); [|done]); simplify_eq/=; try done.
    destruct (next_read _ _) as [q'|] eqn:En; [|done]. simplify_eq/=. apply next_read_some in En. rewrite En.
    unfold a_got, carried. simpl. by destruct (bool_decide _). }
  unfold a_balance in *. cbn [a_next a_ev a_in a_posted].
  rewrite cli_events_app, delivered_app, Hb, a_got_app, carried_app, <- delivered_carried, <- Hq.
  by rewrite !app_assoc.
Qed.

Lemma relayed_balance w :
  relayed psk salt fec w -> a_balance (r_app w) /\ forall x, r_srv w = Some x -> s_balance x.
Proof.
  induction 1 as [f crypto e0 s0 e setup Hl Hc Hf Hn|w g i r Hw [IH1 IH2] Hs Hb Hin
    |w f p crypto plain e s Hw [IH1 IH2] Hn Hd Hsalt Hin Hf Hnew|w s e h r Hw [IH1 IH2] Hn Hs Hl Hin]; simpl.
  - split; [|done]. apply delivered_carried.
  - split; [by eapply a_step_balance | done].
  - split; [done|]. intros x [= <-]. apply delivered_carried.
  - split; [done|]. intros x [= <-]. eapply s_step_balance; eauto.
Qed.
End Dispatched.

(** ** Both ends speak the protocol *)

Section Honest.
Context {I : AsioIp} {IL : AsioIpLaws I} {A : Crypto.Aead} {AL : Crypto.AeadLaws A} {K : Kcp} {F : FecCodec}.
Context (psk salt : list Z) (fec : FecConfig).

(** A request of the client is one the server reads whole. *)
Lemma asks_for_parses host port req :
  asks_for host port req -> exists r, parse_socks5_request req = mkParseResult PsComplete (Some r) [] false /\
    req_cmd r = SOCKS5_CMD_CONNECT /\ req_initial_payload r = [] /\
    Z.of_nat (length req) <= FWD_BUF_SIZE /\ payload salt req /\ target r = (canonical_host host, port).
Proof.
  intros (Hh & Hp & Hb). pose proof (connect_request_parses host port [] Hh Hp) as Hr.
  rewrite Hb, app_nil_r in Hr. destruct Hr as [atyp Hr]. eexists. split_and!; [exact Hr | done | done | | | done].
  - unfold build_connect_request, encode_address in Hb. unfold FWD_BUF_SIZE.
    destruct (make_address host) as [[b|b]|] eqn:Em.
    + apply make_address_wf in Em as [Hl _]. injection Hb as <-. simpl. rewrite length_app, port_bytes_length. lia.
    + apply make_address_wf in Em as [Hl _]. injection Hb as <-. simpl. rewrite length_app, port_bytes_length. lia.
    + destruct (_ <? _)%nat eqn:E; [done|]. zb_props. injection Hb as <-. simpl. rewrite length_app, port_bytes_length. lia.
  - unfold build_connect_request in Hb. destruct (encode_address host port) as [enc|]; [|done]. injection Hb as <-.
    split; by simpl.
Qed.

Lemma asked_parses req :
  asked req -> exists r, parse_socks5_request req = mkParseResult PsComplete (Some r) [] false /\
    req_cmd r = SOCKS5_CMD_CONNECT /\ req_initial_payload r = [] /\
    Z.of_nat (length req) <= FWD_BUF_SIZE /\ payload salt req.
Proof.
  intros (host & port & Ha). destruct (asks_for_parses host port req Ha) as (r & H1 & H2 & H3 & H4 & H5 & _).
  exists r. by split_and!.
Qed.

Lemma asked_some : exists req, asked req.
Proof.
  assert (H : exists req, build_connect_request [97] 80 = Ret req).
  { unfold build_connect_request, encode_address. destruct (make_address [97]) as [[]|]; simpl; eauto. }
  destruct H as [req Hr]. exists req, [97], 80. split; [done|]. split; [split; lia | done].
Qed.

(** What the server says: an acknowledgement, a whole reply, and data after a
    success. *)
Lemma verdict q chunks :
  shape q chunks -> exists m rep rest,
    parse_socks5_reply m = mkReplyResult RsComplete (Some rep) [] /\ drop (rep_length rep) m = [] /\ payload salt m /\
    q `prefix_of` ack :: m :: rest /\ (rep_reply rep = SOCKS5_REPLY_SUCCEEDED -> rest `prefix_of` chunks).
Proof.
  assert (Hone : forall code host port m, is_u16 port -> build (mkResponse code host port) = Ret m ->
    exists rep, parse_socks5_reply m = mkReplyResult RsComplete (Some rep) [] /\ drop (rep_length rep) m = [] /\
      payload salt m /\ rep_reply rep = code).
  { intros code host port m Hp Hb. destruct (ClientProofs.reply_consumed (mkResponse code host port) m [] Hp Hb) as (rep & H1 & H2 & _ & H4).
    rewrite app_nil_r in H1, H4. exists rep. split_and!; [done | done | | done].
    unfold build in Hb. repeat case_match; simplify_eq; split; by simpl. }
  assert (Hz : is_u16 0) by (split; lia).
  assert (Hbad : forall code m rest, code <> SOCKS5_REPLY_SUCCEEDED -> build (mkResponse code [] 0) = Ret m ->
    q `prefix_of` ack :: m :: rest -> exists m rep rest,
    parse_socks5_reply m = mkReplyResult RsComplete (Some rep) [] /\ drop (rep_length rep) m = [] /\ payload salt m /\
    q `prefix_of` ack :: m :: rest /\ (rep_reply rep = SOCKS5_REPLY_SUCCEEDED -> rest `prefix_of` chunks)).
  { intros code m rest Hc Hb Hq. destruct (Hone _ _ _ m Hz Hb) as (rep & H1 & H2 & H3 & H4).
    exists m, rep, rest. split_and!; try done. congruence. }
  intros [-> | [-> | [(f & l & -> & code & Hc & Hf) | (l & (f & -> & host & port & Hp & Hf) & Hl)]]].
  - eapply (Hbad SOCKS5_REPLY_GENERAL_FAILURE _ []); [done | reflexivity | apply prefix_nil].
  - eapply (Hbad SOCKS5_REPLY_GENERAL_FAILURE _ []); [done | reflexivity | apply prefix_cons, prefix_nil].
  - by apply (Hbad code f l).
  - destruct (Hone _ _ _ f Hp Hf) as (rep & H1 & H2 & H3 & _). by exists f, rep, l.
Qed.

(** ** Each half, given what it was told *)

Lemma client_honest w m0 m1 rep rest :
  relayed psk salt fec w -> parse_socks5_reply m1 = mkReplyResult RsComplete (Some rep) [] -> drop (rep_length rep) m1 = [] ->
  a_got (a_in (r_app w)) `prefix_of` m0 :: m1 :: rest ->
  (rep_reply rep = SOCKS5_REPLY_SUCCEEDED -> Forall (fun d => d <> []) rest) ->
  exists ph, cli_inv m0 m1 rep ph (r_app w).
Proof.
  intros Hw Hp Hd Hgot Hne. revert Hgot.
  induction Hw as [f crypto e0 s0 e setup Hl Hc Hf Hn|w g i r Hw IH Hs Hb Hin| |]; simpl; try done.
  - intros _. exists CConnect. by eapply cli_start.
  - intros Hgot. destruct IH as [ph Hph].
    + unfold a_step in Hs. destruct (a_take i _ _) as [[q ops]|]; [|done]. injection Hs as <-.
      cbn [a_next a_in] in Hgot. rewrite a_got_app in Hgot. etransitivity; [|exact Hgot]. by apply prefix_app_r.
    + by eapply cli_step.
Qed.

Lemma server_honest w x req r rest :
  relayed psk salt fec w -> r_srv w = Some x -> parse_socks5_request req = mkParseResult PsComplete (Some r) [] false ->
  req_cmd r = SOCKS5_CMD_CONNECT -> req_initial_payload r = [] -> Z.of_nat (length req) <= FWD_BUF_SIZE ->
  s_got (s_in x) `prefix_of` hello :: req :: rest -> Forall (fun d => d <> []) rest ->
  exists p, srv_inv req p x /\ aim_inv req r x.
Proof.
  intros Hw Hx Hp Hc Hi Hl Hgot Hne. revert x Hx Hgot.
  induction Hw as [| |w f p crypto plain e s Hw IH Hn Hd Hsalt Hin Hf Hnew|w s e h x' Hw IH Hn Hs Hok Hin]; simpl; try done.
  - intros x [= <-] _. exists PGreet. split; [by eapply srv_start | by apply aim_start].
  - intros x [= <-] Hgot. destruct (IH s Hn) as (p & Hpi & Ha).
    + unfold s_step in Hs. destruct (s_take h _ _) as [[q ops]|]; [|done]. injection Hs as <-.
      cbn [s_next s_in] in Hgot. rewrite s_got_app in Hgot. etransitivity; [|exact Hgot]. by apply prefix_app_r.
    + destruct (srv_step req r Hp Hc Hi Hl p e h s x' rest) as [p' Hp']; [done..|].
      exists p'. split; [done | by apply (aim_step req r Hp Hc Hi Hl p e h s x' rest)].
Qed.
End Honest.

(** ** Both halves together *)

Lemma from_app_data ins : Forall (fun d => d <> []) (from_app ins).
Proof.
  induction ins as [|i ins IH]; [constructor|]. change (i :: ins) with ([i] ++ ins). rewrite from_app_app.
  apply Forall_app. split; [|done]. destruct i; try constructor. simpl.
  destruct (ec_failed ec); simpl; [constructor|]. case_bool_decide; repeat constructor. done.
Qed.
Lemma from_target_data hs : Forall (fun d => d <> []) (from_target hs).
Proof.
  induction hs as [|h hs IH]; [constructor|]. change (h :: hs) with ([h] ++ hs). rewrite from_target_app.
  apply Forall_app. split; [|done]. destruct h; try constructor. simpl.
  destruct (ec_failed ec); simpl; [constructor|]. case_bool_decide; repeat constructor. done.
Qed.

Lemma prefix_of_filter (P Q : list Z -> Prop) `{forall x, Decision (P x)} l1 l2 :
  Forall Q l2 -> l1 `prefix_of` l2 -> Forall Q (filter P l1).
Proof.
  intros Hf [k ->]. apply Forall_app in Hf as [Hf _]. rewrite list.Forall_forall in Hf |- *.
  intros d [_ Hd]%list_elem_of_filter. auto.
Qed.

Section EndToEnd.
Context {I : AsioIp} {IL : AsioIpLaws I} {A : Crypto.Aead} {AL : Crypto.AeadLaws A} {K : Kcp} {F : FecCodec}.
Context {R : KcpReliable K} {KM : KcpMtu K} {FL : FecLaws F} {FS : FecSound F}.
Context (psk salt : list Z) (fec : FecConfig).

Definition said_by_client (w : relay) (req : list Z) : Prop :=
  asked req /\ offered (cli_events (a_ev (r_app w))) `prefix_of` hello :: req :: from_app (a_in (r_app w)) /\
  ((2 <= length (offered (cli_events (a_ev (r_app w)))))%nat -> asked_in (a_in (r_app w)) req).
Definition said_by_server (w : relay) : Prop :=
  forall x, r_srv w = Some x -> shape (offered (ses_events (s_ev x))) (from_target (s_in x)).
Definition no_overrun (w : relay) : Prop :=
  overrun (w_cev (relay_world w)) = false /\ overrun (w_sev (relay_world w)) = false.

Lemma world_own w :
  world_inv psk salt fec w ->
  filter (payload salt) (queued (w_cev w)) = filter (payload salt) (offered (w_cev w)) /\
  filter (payload salt) (queued (w_sev w)) = filter (payload salt) (offered (w_sev w)).
Proof.
  intros (tc & ts & oc & os & cc & cs & Hc & Hs). split; [apply Hc|]. destruct (w_server w); [apply Hs|].
  by destruct Hs as (_ & _ & ->).
Qed.

Lemma server_hears w x req :
  relayed psk salt fec w -> no_overrun w -> r_srv w = Some x -> said_by_client w req ->
  s_got (s_in x) `prefix_of` hello :: req :: filter (payload salt) (from_app (a_in (r_app w))).
Proof.
  intros Hw [_ Ho] Hx (Ha & Hq & _). pose proof (relayed_inv psk salt fec w Hw) as Hi.
  destruct (world_streams psk salt fec _ Hi) as [Hs _]. specialize (Hs Ho). rewrite (proj1 (world_own _ Hi)) in Hs.
  destruct (relayed_balance psk salt fec w Hw) as [_ Hb]. specialize (Hb x Hx). unfold s_balance in Hb.
  unfold relay_world in Hs. rewrite Hx in Hs. simpl in Hs. rewrite Hb in Hs.
  destruct (asked_parses salt req Ha) as (_ & _ & _ & _ & _ & Hreq).
  apply (filter_prefix (payload salt)) in Hq. rewrite !filter_cons_True in Hq by first [done | split; by simpl].
  etransitivity; [|etransitivity; [exact Hs | exact Hq]]. by apply prefix_app_r.
Qed.

Lemma client_hears w :
  relayed psk salt fec w -> no_overrun w -> said_by_server w -> exists m rep rest,
    parse_socks5_reply m = mkReplyResult RsComplete (Some rep) [] /\ drop (rep_length rep) m = [] /\
    a_got (a_in (r_app w)) `prefix_of` ack :: m :: rest /\
    (rep_reply rep = SOCKS5_REPLY_SUCCEEDED -> exists chunks,
       rest `prefix_of` filter (payload salt) chunks /\ Forall (fun d => d <> []) rest /\
       forall x, r_srv w = Some x -> chunks = from_target (s_in x)).
Proof.
  intros Hw [Ho _] Hsaid. pose proof (relayed_inv psk salt fec w Hw) as Hi.
  destruct (world_streams psk salt fec _ Hi) as [_ Hs]. specialize (Hs Ho). rewrite (proj2 (world_own _ Hi)) in Hs.
  destruct (relayed_balance psk salt fec w Hw) as [Hb _]. unfold a_balance in Hb. simpl in Hs. rewrite Hb in Hs.
  set (chunks := match r_srv w with Some x => from_target (s_in x) | None => [] end).
  assert (Hsh : shape (offered match r_srv w with Some r => ses_events (s_ev r) | None => [] end) chunks).
  { unfold chunks. destruct (r_srv w) as [x|] eqn:E; [by apply Hsaid | by left]. }
  destruct (verdict salt _ _ Hsh) as (m & rep & rest & H1 & H2 & H3 & H4 & H5).
  apply (filter_prefix (payload salt)) in H4. rewrite !filter_cons_True in H4 by first [done | split; by simpl].
  exists m, rep, (filter (payload salt) rest). split_and!; [done | done | |].
  - etransitivity; [|etransitivity; [exact Hs | exact H4]]. by apply prefix_app_r.
  - intros Hr. specialize (H5 Hr). exists chunks. split_and!; [by apply filter_prefix | |].
    + eapply prefix_of_filter; [|exact H5]. unfold chunks. destruct (r_srv w); [apply from_target_data | constructor].
    + intros x Hx. unfold chunks. by rewrite Hx.
Qed.

(** Without a session at the server there is nothing to hear. *)
Lemma client_unheard w : relayed psk salt fec w -> no_overrun w -> r_srv w = None -> a_got (a_in (r_app w)) = [].
Proof.
  intros Hw [Ho _] Hn. pose proof (relayed_inv psk salt fec w Hw) as Hi.
  destruct (world_streams psk salt fec _ Hi) as [_ Hs]. specialize (Hs Ho). rewrite (proj2 (world_own _ Hi)) in Hs.
  destruct (relayed_balance psk salt fec w Hw) as [Hb _]. unfold a_balance in Hb. simpl in Hs. rewrite Hb, Hn in Hs.
  by apply prefix_nil_inv, app_nil in Hs as [? _].
Qed.

Lemma client_says m0 m1 rep ph x :
  cli_inv m0 m1 rep ph x ->
  exists req, asked req /\ offered (cli_events (a_ev x)) `prefix_of` hello :: req :: from_app (a_in x) /\
    ((2 <= length (offered (cli_events (a_ev x))))%nat -> asked_in (a_in x) req).
Proof.
  intros [_ _ (req & Hr & [Hp _]) _ _].
  destruct ph; simpl in Hr, Hp; try (by exists req; split; [by eapply asked_in_asked|]);
    destruct asked_some as [r0 H0]; exists r0; (split; [done|]);
    (split; [etransitivity; [exact Hp | apply prefix_cons, prefix_nil]|]);
    apply prefix_length in Hp; simpl in Hp; lia.
Qed.
(** The server, given what the client said. *)
Lemma server_serves w x req :
  relayed psk salt fec w -> no_overrun w -> r_srv w = Some x -> said_by_client w req ->
  exists p r, parse_socks5_request req = mkParseResult PsComplete (Some r) [] false /\ srv_inv req p x /\ aim_inv req r x.
Proof.
  intros Hw Ho Hx Hc. destruct (asked_parses salt req (proj1 Hc)) as (r & H1 & H2 & H3 & H4 & _).
  enough (Hs : exists p, srv_inv req p x /\ aim_inv req r x) by (destruct Hs as [p Hs]; by exists p, r).
  eapply (server_honest psk salt fec w x req r); eauto using server_hears.
  apply (prefix_of_filter _ _ _ (from_app (a_in (r_app w)))); [apply from_app_data | done].
Qed.

(** The client, given what the server said. *)
Lemma client_serves w :
  relayed psk salt fec w -> no_overrun w -> said_by_server w -> exists m rep rest ph,
    cli_inv ack m rep ph (r_app w) /\ a_got (a_in (r_app w)) `prefix_of` ack :: m :: rest /\
    (rep_reply rep = SOCKS5_REPLY_SUCCEEDED -> exists chunks,
       rest `prefix_of` filter (payload salt) chunks /\ forall x, r_srv w = Some x -> chunks = from_target (s_in x)).
Proof.
  intros Hw Ho Hs. destruct (client_hears w Hw Ho Hs) as (m & rep & rest & H1 & H2 & H3 & H4).
  destruct (client_honest psk salt fec w ack m rep rest Hw H1 H2 H3) as [ph Hph].
  - intros Hr. by destruct (H4 Hr) as (chunks & _ & ? & _).
  - exists m, rep, rest, ph. split_and!; try done. intros Hr. destruct (H4 Hr) as (chunks & ? & _ & ?). eauto.
Qed.

(** Neither end ever leaves the protocol. *)
Lemma both_speak w :
  relayed psk salt fec w -> no_overrun w -> (exists req, said_by_client w req) /\ said_by_server w.
Proof.
  intros Hw. pose proof Hw as Hw0. revert Hw0.
  induction Hw as [f crypto e0 s0 e setup Hl Hc Hf Hn|w g i r Hw IH Hs Hb Hin
    |w f p crypto plain e s Hw IH Hn Hd Hsalt Hin Hf Hnew|w s e h x' Hw IH Hn Hs Hok Hin]; intros Hw' Ho.
  - split; [|done]. eapply client_says, (cli_start [] [] (mkReply 0 [] 0 0)), Hn.
  - destruct IH as [_ IH]; [done | |].
    { destruct Ho as [H1 H2]. split; [|exact H2]. unfold a_step in Hs. destruct (a_take i _ _) as [[q ops]|]; [|done].
      injection Hs as <-. simpl in H1. rewrite cli_events_app, overrun_app in H1. by apply orb_false_iff in H1 as [? _]. }
    assert (Hsv : said_by_server (mkRelay r (r_srv w))) by exact IH. split; [|done].
    destruct (client_serves _ Hw' Ho Hsv) as (m & rep & rest & ph & Hph & _). by eapply client_says.
  - destruct IH as [[req Hc] _]; [done | |].
    { destruct Ho as [H1 _]. split; [exact H1|]. simpl. by rewrite Hn. }
    split; [exists req; exact Hc|]. intros x Hx.
    destruct (server_serves _ x req Hw' Ho Hx Hc) as (ph & r & _ & Hph & _). apply Hph.
  - destruct IH as [[req Hc] _]; [done | |].
    { destruct Ho as [H1 H2]. split; [exact H1|]. simpl. rewrite Hn. unfold s_step in Hs.
      destruct (s_take h _ _) as [[q ops]|]; [|done]. injection Hs as <-. simpl in H2.
      rewrite ses_events_app, overrun_app in H2. by apply orb_false_iff in H2 as [? _]. }
    split; [exists req; exact Hc|]. intros x Hx.
    destruct (server_serves _ x req Hw' Ho Hx Hc) as (ph & r & _ & Hph & _). apply Hph.
Qed.

(** C1: the proxy relays, from socket to socket. An application's connection
    and the server session it leads to are run by their completion handlers,
    with reads, writes, resolutions, timers, deadlines, closings and library
    faults settling in any order and a network that loses, repeats, reorders
    and invents packets between them, the error correction off or on. Then at
    every moment what was written to the target is, chunk by chunk, a prefix
    of what was read from the application; and what was written to the
    application is nothing, or the success reply followed by a prefix of what
    was read from the target. So no byte of the handshake leaks into either
    stream and none of either stream is taken for the handshake, repeated or
    reordered (the exceptions: a chunk that is byte for byte a control message
    of this session is taken for one, and a message that did not fit the
    reader's buffer was reported). *)
Theorem relay_end_to_end (w : relay) :
  relayed psk salt fec w -> no_overrun w ->
  match r_srv w with
  | None => to_app (a_ev (r_app w)) = []
  | Some x =>
      to_target (s_ev x) `prefix_of` filter (payload salt) (from_app (a_in (r_app w))) /\
      to_app (a_ev (r_app w)) `prefix_of` confirmation :: filter (payload salt) (from_target (s_in x))
  end.
Proof.
  intros Hw Ho. destruct (both_speak w Hw Ho) as [[req Hc] Hs].
  destruct (client_serves w Hw Ho Hs) as (m & rep & rest & ph & [_ (ms & H1 & H2 & H3) _ _ Hg] & Hgot & Hch).
  assert (Happ : forall chunks, (rep_reply rep = SOCKS5_REPLY_SUCCEEDED -> rest `prefix_of` filter (payload salt) chunks) ->
    to_app (a_ev (r_app w)) `prefix_of` confirmation :: filter (payload salt) chunks).
  { intros chunks Hr. rewrite H2. rewrite H1 in Hgot. destruct ph; simpl in *; try apply prefix_nil.
    - apply prefix_cons, prefix_nil.
    - apply prefix_cons. etransitivity; [|by apply Hr]. by apply prefix_cons_inv_2, prefix_cons_inv_2 in Hgot. }
  destruct (r_srv w) as [x|] eqn:Ex.
  - split.
    + destruct (server_serves w x req Hw Ho Ex Hc) as (p & r & _ & [_ (l & L1 & L2 & L3 & _) _] & _).
      pose proof (server_hears w x req Hw Ho Ex Hc) as Hh. rewrite L1 in Hh. etransitivity; [exact L3|].
      destruct p; simpl in Hh; try (rewrite L2 by done; apply prefix_nil).
      by apply prefix_cons_inv_2, prefix_cons_inv_2 in Hh.
    + apply Happ. intros Hr. destruct (Hch Hr) as (chunks & Hp & Hx). by rewrite <- (Hx x eq_refl).
  - rewrite (client_unheard w Hw Ho Ex) in H1. by rewrite H2; destruct ph.
Qed.

(** The server has dispatched no more messages than the client queued. *)
Lemma server_heard w x :
  relayed psk salt fec w -> no_overrun w -> r_srv w = Some x ->
  (length (s_got (s_in x)) <= length (offered (cli_events (a_ev (r_app w)))))%nat.
Proof.
  intros Hw [_ Ho] Hx. pose proof (relayed_inv psk salt fec w Hw) as Hi.
  destruct (world_streams psk salt fec _ Hi) as [Hs _]. specialize (Hs Ho). rewrite (proj1 (world_own _ Hi)) in Hs.
  destruct (relayed_balance psk salt fec w Hw) as [_ Hb]. specialize (Hb x Hx). unfold s_balance in Hb.
  unfold relay_world in Hs. rewrite Hx in Hs. simpl in Hs. rewrite Hb in Hs. apply prefix_length in Hs.
  rewrite length_app in Hs. etransitivity; [|etransitivity; [exact Hs | apply length_filter]]. lia.
Qed.

(** C2: the server connects where the application asked, and nowhere else. In
    every run of a connection as above, over the same network and with the
    same faults, as long as no message overran its reader's buffer
    ([no_overrun]), all that the server resolves and connects to for it is one
    host and one port: those the application named in its CONNECT request,
    decoded from the bytes read from its socket (a domain name byte for byte,
    an address literal in its canonical text). If it named none yet, the
    server has resolved nothing. *)
Theorem connects_where_asked (w : relay) (x : srun) :
  relayed psk salt fec w -> no_overrun w -> r_srv w = Some x ->
  targets (s_ev x) = [] \/
  exists i host port, i ∈ a_in (r_app w) /\ named i = Some (host, port) /\
    Forall (eq (canonical_host host, port)) (targets (s_ev x)).
Proof.
  intros Hw Ho Hx. destruct (both_speak w Hw Ho) as [[req Hc] _].
  destruct (server_serves w x req Hw Ho Hx Hc) as (p & r & Hr & _ & Ha). unfold aim_inv in Ha.
  destruct (length (s_got (s_in x)) <? 2)%nat eqn:E; [by left; apply Ha | right]. apply Nat.ltb_ge in E.
  pose proof (server_heard w x Hw Ho Hx) as Hl. destruct Hc as (_ & _ & Hin).
  destruct Hin as (i & host & port & Hi & Hn & Hf); [lia|]. exists i, host, port. split; [done|]. split; [done|].
  destruct (asks_for_parses salt host port req Hf) as (r' & H1 & _ & _ & _ & _ & <-).
  rewrite Hr in H1. injection H1 as <-. apply Ha.
Qed.
End EndToEnd.

(** ** A connection, from the first packet to data in both directions *)
Module RelayExample.
Import LinkExample.
#[local] Existing Instance TextIp.text_ip.
#[local] Existing Instance TextIp.text_ip_laws.
#[local] Existing Instance Crypto.ToyAead.toy.
#[local] Existing Instance Crypto.ToyAead.toy_laws.
#[local] Existing Instance Sequenced.sequenced.
#[local] Existing Instance Sequenced.sequenced_reliable.
#[local] Existing Instance Sequenced.sequenced_mtu.
#[local] Existing Instance Mirror.mirror.
#[local] Existing Instance Mirror.mirror_laws.
#[local] Existing Instance Mirror.mirror_sound.

Definition env (sec : Z) : cenv := mkCenv (at_sec sec) [].

(** What comes next: a completion at the client, one at the server, the [n]th
    packet of the other side. *)
Inductive move : Type :=
| AtClient (i : app_input) | AtServer (sec : Z) (h : happening) | ToClient (sec : Z) (n : nat) | ToServer (sec : Z) (n : nat).

Definition client_moves (i : app_input) (w : relay) : relay :=
  match a_step 120 i (r_app w) with Some r => mkRelay r (r_srv w) | None => w end.
Definition server_moves (sec : Z) (h : happening) (w : relay) : relay :=
  match r_srv w with
  | Some s => match s_step (env sec) h s with Some r => mkRelay (r_app w) (Some r) | None => w end
  | None => w
  end.
Definition moves (w : relay) (m : move) : relay :=
  match m with
  | AtClient i => client_moves i w
  | AtServer sec h => server_moves sec h w
  | ToClient sec n => client_moves (IPacket (at_sec sec) ec_none (on_wire (w_sev (relay_world w)) !!! n)) w
  | ToServer sec n => server_moves sec (HDatagram (on_wire (w_cev (relay_world w)) !!! n)) w
  end.

Definition r0 : relay := mkRelay (a_start (at_sec 1) SocketReady client0) None.
Definition r1 : relay := mkRelay (r_app r0) (Some (s_start (env 2) candidate.1.2 session0)).

Definition request : list Z := [5; 1; 0; 3; 1; 97; 0; 80].
Definition answer : list Z := [5; 0; 0; 1; 0; 0; 0; 0; 0; 0].
Definition run : list move :=
  [AtServer 3 (HReadComplete H_PROTOCOL ec_none hello);
   ToClient 4 1; AtClient (IReadDone (at_sec 4) H_ACK ec_none ack);
   AtClient (IConnected (at_sec 4) true);
   AtClient (IAppRead (at_sec 5) GreetHeader 2 ec_none [5; 1]);
   AtClient (IAppRead (at_sec 5) GreetMethods 1 ec_none [0]);
   AtClient (IAppWritten (at_sec 5) (MethodSelected true) ec_none);
   AtClient (IAppRead (at_sec 6) RequestHeader 4 ec_none [5; 1; 0; 3]);
   AtClient (IAppRead (at_sec 6) (RequestAddress 1 3) 1 ec_none [1]);
   AtClient (IAppRead (at_sec 6) (RequestDomain 1 1) 3 ec_none [97; 0; 80]);
   ToServer 7 1; ToServer 7 4; AtServer 8 (HReadComplete H_SOCKS5 ec_none request);
   AtServer 9 (HResolved ec_none [V4 [93; 184; 216; 34]]); AtServer 9 (HConnected ec_none None);
   ToClient 10 5; AtClient (IReadDone (at_sec 10) H_REPLY ec_none answer);
   AtClient (IAppWritten (at_sec 10) ReplyForwarded ec_none);
   AtClient (ILocalRead (at_sec 11) ec_none [1; 2; 3]);
   ToServer 12 11; AtServer 12 (HReadComplete Connection.H_FORWARD ec_none [1; 2; 3]);
   AtServer 13 (HTargetRead ec_none [9; 9]);
   ToClient 14 10; AtClient (IReadDone (at_sec 14) Client.H_FORWARD ec_none [9; 9])].

(** Reads settle with the bytes they asked for, packets come from the wire. *)
Definition fair (w : relay) (m : move) : bool :=
  match m with
  | AtClient (IAppRead _ _ n _ buf) => bool_decide (length buf = n) && bool_decide (bytes_ok buf)
  | AtClient (IPacket _ _ _) => false
  | AtClient _ => true
  | AtServer _ (HDatagram _) | AtServer _ (HConnected _ (Some _)) => false
  | AtServer _ _ => true
  | ToClient _ n => (n <? length (on_wire (w_sev (relay_world w))))%nat
  | ToServer _ n => (n <? length (on_wire (w_cev (relay_world w))))%nat
  end.
Fixpoint fair_run (w : relay) (ms : list move) : bool :=
  match ms with [] => true | m :: ms => fair w m && fair_run (moves w m) ms end.

Lemma client_moved i w :
  relayed psk salt paired w -> buffer_ok i ->
  match i with IPacket _ _ p => intact psk salt NONCE_DIR_SERVER (on_wire (w_sev (relay_world w))) p | _ => True end ->
  relayed psk salt paired (client_moves i w).
Proof.
  intros Hw Hb Hi. unfold client_moves. destruct (a_step _ i (r_app w)) as [r|] eqn:E; [|done]. by eapply relayed_client.
Qed.

Lemma server_moved sec h w :
  relayed psk salt paired w -> endpoint_ok h ->
  match h with HDatagram p => intact psk salt NONCE_DIR_CLIENT (on_wire (w_cev (relay_world w))) p | _ => True end ->
  relayed psk salt paired (server_moves sec h w).
Proof.
  intros Hw He Hi. unfold server_moves. destruct (r_srv w) as [s|] eqn:Es; [|done].
  destruct (s_step _ h s) as [r|] eqn:E; [|done]. by eapply relayed_server.
Qed.

Lemma picked dir (wire : list (list Z)) n : (n <? length wire)%nat = true -> intact psk salt dir wire (wire !!! n).
Proof. intros Hn. apply genuine, bool_decide_eq_true. zb_props. by apply list_elem_of_lookup_total_2. Qed.

Lemma moved w m : relayed psk salt paired w -> fair w m = true -> relayed psk salt paired (moves w m).
Proof.
  intros Hw Hf. destruct m as [i|sec h|sec n|sec n]; simpl in *.
  - apply client_moved; [done | | by destruct i]. destruct i; try done.
    apply andb_true_iff in Hf as [H1 H2]. intros _. split; by eapply bool_decide_eq_true_1.
  - apply server_moved; [done | | by destruct h]. destruct h as [| | | | | |ec [[]|]| | | | |]; done.
  - apply client_moved; [done | done | by apply picked].
  - apply server_moved; [done | done | by apply picked].
Qed.

Lemma run_relayed ms : forall w, relayed psk salt paired w -> fair_run w ms = true -> relayed psk salt paired (fold_left moves ms w).
Proof.
  induction ms as [|m ms IH]; intros w Hw Hf; [done|]. simpl in *. apply andb_true_iff in Hf as [H1 H2].
  apply IH; [by apply moved | done].
Qed.

Definition w_end : relay := fold_left moves run r1.

Lemma relayed_end : relayed psk salt paired w_end.
Proof.
  apply run_relayed; [|by vm_compute].
  assert (H0 : relayed psk salt paired r0).
  { apply (relayed_connect psk salt paired Crypto.no_fault crypto0 (at_sec 1) client0 (at_sec 1) SocketReady);
      [by vm_compute | by vm_compute | exact default_tuning_legal
      | vm_cast_no_check (@eq_refl (exn_result client_session) (Ret client0))]. }
  apply (relayed_accept psk salt paired r0 Crypto.no_fault hello_packet candidate.1.1 candidate.1.2 (env 2) session0 H0);
    [reflexivity | vm_cast_no_check (eq_refl candidate) | by vm_compute | apply genuine; by vm_compute
    | exact default_tuning_legal | vm_cast_no_check (@eq_refl (exn_result session) (Ret session0))].
Qed.

Lemma relay_end_to_end_witness :
  match r_srv w_end with
  | None => False
  | Some x =>
      to_target (s_ev x) = [[1; 2; 3]] /\ to_app (a_ev (r_app w_end)) = [answer; [9; 9]] /\
      to_target (s_ev x) `prefix_of` filter (payload salt) (from_app (a_in (r_app w_end))) /\
      to_app (a_ev (r_app w_end)) `prefix_of` confirmation :: filter (payload salt) (from_target (s_in x))
  end.
Proof.
  assert (Ho : no_overrun w_end) by (split; by vm_compute).
  assert (Ht : (fun x => to_target (s_ev x)) <$> r_srv w_end = Some [[1; 2; 3]]) by (by vm_compute).
  assert (Ha : to_app (a_ev (r_app w_end)) = [answer; [9; 9]]) by (by vm_compute).
  pose proof (relay_end_to_end psk salt paired w_end relayed_end Ho) as H.
  revert Ht H. generalize (r_srv w_end). intros [x|] Ht H; [|discriminate Ht].
  injection Ht as Ht. destruct H as [H1 H2]. exact (conj Ht (conj Ha (conj H1 H2))).
Defined.

Lemma connects_where_asked_witness :
  match r_srv w_end with
  | None => False
  | Some x =>
      targets (s_ev x) = [([97], 80); ([97], 80)] /\
      (targets (s_ev x) = [] \/
       exists i host port, i ∈ a_in (r_app w_end) /\ named i = Some (host, port) /\
         Forall (eq (canonical_host host, port)) (targets (s_ev x)))
  end.
Proof.
  assert (Ho : no_overrun w_end) by (split; by vm_compute).
  assert (Ht : (fun x => targets (s_ev x)) <$> r_srv w_end = Some [([97], 80); ([97], 80)]) by (by vm_compute).
  pose proof (fun x => connects_where_asked psk salt paired w_end x relayed_end Ho) as H.
  revert Ht H. generalize (r_srv w_end). intros [x|] Ht H; [|discriminate Ht].
  injection Ht as Ht. exact (conj Ht (H x eq_refl)).
Defined.
End RelayExample.
