(* ===== verification/ClientLife.v ===== *)
(** * ClientLife: start-up, accept loop, ticking and shutdown of the client

    Models the part of [KCPProxyClient] (client.hpp, client.cpp) around the
    connections: the constructor, [start] with [do_resolve] and
    [fail_startup], [do_accept] with its retry timer, [do_update_tick] with
    the registry of sessions, the traffic reporter with the sampling of the
    adaptive policies, the diagnosis of a client that does not speak SOCKS5,
    [stop] and [wipe_key]. What happens on an accepted connection is
    [Client]. *)

From Stdlib Require Import ZArith Lia Ascii.
From stdpp Require Import base list gmap strings.
From S2P Require Import Prelude Config Asio CleanPath Runtime Effects Kcp Tunnel Policies ClientSession Client.
From S2P Require Crypto.

Inductive acceptor_state : Type := AcceptorClosed | AcceptorOpen | AcceptorListening (local : option Z).

(** The members of [KCPProxyClient]. [resolves] and [accepts] count the
    operations outstanding on the resolver and the acceptor, the [_aborted]
    fields those that were cancelled. [tick_sessions] maps the raw pointer of
    a session to the object its weak reference was made from; [objects] are
    the session objects alive, with their address, and [next_object] names the
    next one: a weak reference is expired when its object is not alive. *)
Record proxy := mkProxy {
  server_host : list Z;
  server_port : Z;
  key : list Z;
  listen_host : list Z;
  listen_port : Z;
  p_fec : FecConfig;
  p_policies : policies;
  p_running : bool;
  start_failed : bool;
  io_stopped : bool;
  resolves : nat;
  resolves_aborted : nat;
  acceptor : acceptor_state;
  accepts : nat;
  accepts_aborted : nat;
  traffic_timer : Timer.t;
  update_tick_timer : Timer.t;
  accept_retry_timer : Timer.t;
  server_endpoint : option (ip_address * Z);
  active_sessions : Z;
  tick_sessions : gmap Z Z;
  last_reported : Z * Z;
  accept_error_log : LogThrottle.t;
  greeting_reject_log : LogThrottle.t;
  objects : gmap Z Z;
  next_object : Z }.

(** What happens outside: the events of a new connection, a call on a
    session, an accepted socket closed at once, and the lines that carry
    state. *)
Inductive pevent {A : Crypto.Aead} {K : Kcp} {F : FecCodec} : Type :=
| Connection (obj : option Z) (conn : option app_conn) (evs : list aevent)
| TickSession (obj : Z)
| CloseSession (obj : Z)
| SocketDropped
| StartupFailed
| OpenProxyWarning
| ProxyListening (port : Z)
| Traffic (lvl : LogLevel) (tx rx : Z)
| PolicyChange (l : policy_line)
| AcceptError (suppressed : Z)
| NonSocks5 (text : list Z).

Definition set_flow (run failed iostop : bool) (s : proxy) : proxy :=
  mkProxy (server_host s) (server_port s) (key s) (listen_host s) (listen_port s) (p_fec s) (p_policies s)
    run failed iostop (resolves s) (resolves_aborted s) (acceptor s) (accepts s) (accepts_aborted s)
    (traffic_timer s) (update_tick_timer s) (accept_retry_timer s) (server_endpoint s) (active_sessions s)
    (tick_sessions s) (last_reported s) (accept_error_log s) (greeting_reject_log s) (objects s) (next_object s).
Definition set_resolves (n ab : nat) (s : proxy) : proxy :=
  mkProxy (server_host s) (server_port s) (key s) (listen_host s) (listen_port s) (p_fec s) (p_policies s)
    (p_running s) (start_failed s) (io_stopped s) n ab (acceptor s) (accepts s) (accepts_aborted s)
    (traffic_timer s) (update_tick_timer s) (accept_retry_timer s) (server_endpoint s) (active_sessions s)
    (tick_sessions s) (last_reported s) (accept_error_log s) (greeting_reject_log s) (objects s) (next_object s).
Definition set_acceptor (v : acceptor_state) (n ab : nat) (s : proxy) : proxy :=
  mkProxy (server_host s) (server_port s) (key s) (listen_host s) (listen_port s) (p_fec s) (p_policies s)
    (p_running s) (start_failed s) (io_stopped s) (resolves s) (resolves_aborted s) v n ab
    (traffic_timer s) (update_tick_timer s) (accept_retry_timer s) (server_endpoint s) (active_sessions s)
    (tick_sessions s) (last_reported s) (accept_error_log s) (greeting_reject_log s) (objects s) (next_object s).
Definition set_timers (traffic tick retry : Timer.t) (s : proxy) : proxy :=
  mkProxy (server_host s) (server_port s) (key s) (listen_host s) (listen_port s) (p_fec s) (p_policies s)
    (p_running s) (start_failed s) (io_stopped s) (resolves s) (resolves_aborted s) (acceptor s) (accepts s) (accepts_aborted s)
    traffic tick retry (server_endpoint s) (active_sessions s)
    (tick_sessions s) (last_reported s) (accept_error_log s) (greeting_reject_log s) (objects s) (next_object s).
Definition set_endpoint (v : option (ip_address * Z)) (s : proxy) : proxy :=
  mkProxy (server_host s) (server_port s) (key s) (listen_host s) (listen_port s) (p_fec s) (p_policies s)
    (p_running s) (start_failed s) (io_stopped s) (resolves s) (resolves_aborted s) (acceptor s) (accepts s) (accepts_aborted s)
    (traffic_timer s) (update_tick_timer s) (accept_retry_timer s) v (active_sessions s)
    (tick_sessions s) (last_reported s) (accept_error_log s) (greeting_reject_log s) (objects s) (next_object s).
Definition set_registry (active : Z) (reg objs : gmap Z Z) (next : Z) (s : proxy) : proxy :=
  mkProxy (server_host s) (server_port s) (key s) (listen_host s) (listen_port s) (p_fec s) (p_policies s)
    (p_running s) (start_failed s) (io_stopped s) (resolves s) (resolves_aborted s) (acceptor s) (accepts s) (accepts_aborted s)
    (traffic_timer s) (update_tick_timer s) (accept_retry_timer s) (server_endpoint s) active
    reg (last_reported s) (accept_error_log s) (greeting_reject_log s) objs next.
Definition set_reports (pol : policies) (last : Z * Z) (s : proxy) : proxy :=
  mkProxy (server_host s) (server_port s) (key s) (listen_host s) (listen_port s) (p_fec s) pol
    (p_running s) (start_failed s) (io_stopped s) (resolves s) (resolves_aborted s) (acceptor s) (accepts s) (accepts_aborted s)
    (traffic_timer s) (update_tick_timer s) (accept_retry_timer s) (server_endpoint s) (active_sessions s)
    (tick_sessions s) last (accept_error_log s) (greeting_reject_log s) (objects s) (next_object s).
Definition set_logs (acc greet : LogThrottle.t) (s : proxy) : proxy :=
  mkProxy (server_host s) (server_port s) (key s) (listen_host s) (listen_port s) (p_fec s) (p_policies s)
    (p_running s) (start_failed s) (io_stopped s) (resolves s) (resolves_aborted s) (acceptor s) (accepts s) (accepts_aborted s)
    (traffic_timer s) (update_tick_timer s) (accept_retry_timer s) (server_endpoint s) (active_sessions s)
    (tick_sessions s) (last_reported s) acc greet (objects s) (next_object s).
Definition set_key (v : list Z) (s : proxy) : proxy :=
  mkProxy (server_host s) (server_port s) v (listen_host s) (listen_port s) (p_fec s) (p_policies s)
    (p_running s) (start_failed s) (io_stopped s) (resolves s) (resolves_aborted s) (acceptor s) (accepts s) (accepts_aborted s)
    (traffic_timer s) (update_tick_timer s) (accept_retry_timer s) (server_endpoint s) (active_sessions s)
    (tick_sessions s) (last_reported s) (accept_error_log s) (greeting_reject_log s) (objects s) (next_object s).

(** [startup_ok()]. *)
Definition startup_ok (s : proxy) : bool := negb (start_failed s).

(** The constructor. *)
Definition new_proxy (shost : list Z) (sport : Z) (psk lhost : list Z) (lport : Z) (fec : FecConfig)
    (a : AdaptiveSettings) : proxy :=
  mkProxy shost sport psk lhost lport fec (client_policies a fec) false false false 0 0 AcceptorClosed 0 0
    Timer.idle Timer.idle Timer.idle None 0 ∅ (0, 0)
    (LogThrottle.init 1000000000) (LogThrottle.init 1000000000) ∅ 0.

(** ** The diagnosis of a peer that does not speak SOCKS5 *)

Definition hex_nibble (n : Z) : Z := if n <? 10 then 48 + n else 87 + n.
(** [{:02x}] on a byte. *)
Definition hex2 (b : Z) : list Z := [hex_nibble (b / 16); hex_nibble (b mod 16)].

Definition shown (c : Z) : Z := if (32 <=? c) && (c <? 127) then c else 46.

(** [greeting_preview(first, second)]. *)
Definition greeting_preview (first second : Z) : list Z :=
  34 :: shown first :: shown second :: 34 ::
  bytes_of_string " (0x" ++ hex2 first ++ bytes_of_string " 0x" ++ hex2 second ++ bytes_of_string ")".

(** [looks_like_http_request(first, second)]. *)
Definition is_upper (c : Z) : bool := (65 <=? c) && (c <=? 90).
Definition looks_like_http_request (first second : Z) : bool := is_upper first && is_upper second.

(** The text of [log_non_socks5_client], with the count it folds in. *)
Definition non_socks5_line (host : list Z) (port first second suppressed : Z) : list Z :=
  let count := LogThrottle.throttle_suffix suppressed in
  bytes_of_string "non-SOCKS5 client opened with " ++ greeting_preview first second ++
  if looks_like_http_request first second then
    let host := if bool_decide (host = []) || bool_decide (host = bytes_of_string "0.0.0.0")
                then bytes_of_string "127.0.0.1" else host in
    bytes_of_string " -- that is an HTTP proxy request, but this port is " ++
    bytes_of_string "SOCKS5 only. Point the application's proxy at " ++
    bytes_of_string "socks5://" ++ host ++ [58] ++ dec_bytes port ++ count
  else bytes_of_string " -- expected SOCKS5 version 0x05" ++ count.

Section Proxy.
Context {I : AsioIp} {A : Crypto.Aead} {K : Kcp} {F : FecCodec}.
Local Abbreviation Op := (M proxy pevent).

(** [wipe_key()]. *)
Definition wipe_key : Op unit := emodify (set_key []).

(** [fail_startup(message)]. *)
Definition fail_startup : Op unit :=
  emit StartupFailed ;;; emodify (fun s => set_flow (p_running s) true true s).

(** [do_accept()]. *)
Definition do_accept : Op unit :=
  let* r := egets p_running in
  ewhen r (emodify (fun s => set_acceptor (acceptor s) (S (accepts s)) (accepts_aborted s) s)).

(** The session of a new connection: salt, [Crypto], constructor, each of
    which may throw. [salt] is what [RAND_bytes] gave. *)
Definition session_setup (e : tenv) (f : Crypto.evp_fault) (salt : option (list Z)) (s : proxy)
  : exn_result client_session :=
  match Crypto.generate_session_salt salt with
  | Throw what => Throw what
  | Ret salt =>
      match Crypto.Crypto_new f (key s) NONCE_DIR_CLIENT salt false with
      | Throw what => Throw what
      | Ret c => new_client e KCP_CONV c (p_fec s)
      end
  end.

(** [handle_client_connection] with the registration for the tick; [ptr] is
    the address of the session object that is made. *)
Definition accept_connection (e : tenv) (f : Crypto.evp_fault) (salt : option (list Z)) (sock : socket_setup)
    (ptr : Z) : Op unit :=
  let* s := egets id in
  match handle_client_connection e (session_setup e f salt s) sock (active_sessions s) with
  | (active, None, evs) =>
      emodify (set_registry active (tick_sessions s) (objects s) (next_object s)) ;;;
      emit (Connection None None evs)
  | (active, Some conn, evs) =>
      let obj := next_object s in
      emodify (set_registry active (<[ptr := obj]> (tick_sessions s)) (<[obj := ptr]> (objects s)) (obj + 1)) ;;;
      emit (Connection (Some obj) (Some conn) evs)
  end.

(** The session object is destroyed: its ticket goes back. *)
Definition session_destroyed (obj : Z) : Op unit :=
  emodify (fun s => set_registry (return_ticket (active_sessions s)) (tick_sessions s)
                      (delete obj (objects s)) (next_object s) s).

(** The completion of [async_accept]. *)
Definition on_accept (ec : error_code) (now : Z) (e : tenv) (f : Crypto.evp_fault) (salt : option (list Z))
    (sock : socket_setup) (ptr : Z) : Op unit :=
  let* r := egets p_running in
  if ec_failed ec then
    if r then
      let* l := egets accept_error_log in
      let '(l', out) := LogThrottle.should_log now l in
      emodify (fun s => set_logs l' (greeting_reject_log s) s) ;;;
      match out with Some n => emit (AcceptError n) | None => eret tt end ;;;
      emodify (fun s => set_timers (traffic_timer s) (update_tick_timer s) (Timer.arm (accept_retry_timer s)) s)
    else eret tt
  else if negb r then emit SocketDropped
  else accept_connection e f salt sock ptr ;;; do_accept.

(** The retry timer's handler. *)
Definition on_accept_retry (ec : error_code) : Op unit := ewhen (negb (ec_failed ec)) do_accept.

(** The registry entries whose session still exists, and the tick's
    pruning of the others. *)
Definition live_entry (objs : gmap Z Z) (p : Z * Z) : Prop := is_Some (objs !! p.2).
#[global] Instance live_entry_dec objs p : Decision (live_entry objs p).
Proof. unfold live_entry. apply _. Defined.

(** [do_update_tick(ec)]; [gone] are the sessions destroyed between the
    snapshot and their dispatch. *)
Definition do_update_tick (ec : error_code) (gone : list Z) : Op unit :=
  let* r := egets p_running in
  if ec_failed ec || negb r then eret tt
  else
    emodify (fun s => set_timers (traffic_timer s) (Timer.arm (update_tick_timer s)) (accept_retry_timer s) s) ;;;
    let* s := egets id in
    let kept := filter (live_entry (objects s)) (tick_sessions s) in
    emodify (set_registry (active_sessions s) kept (objects s) (next_object s)) ;;;
    emit_all (TickSession <$> filter (fun obj => obj ∉ gone) (snd <$> map_to_list kept)).

(** [report_traffic()]: [tx] and [rx] are the counters, [x] the sample. *)
Definition report_traffic (tx rx : Z) (x : CleanPathTracker.sample_t) : Op unit :=
  let* s := egets id in
  let changed := negb (tx =? (last_reported s).1) || negb (rx =? (last_reported s).2) in
  let '(pol, lines) := sample_adaptive_policies x (p_policies s) in
  emodify (set_reports pol (tx, rx)) ;;;
  emit (Traffic (if changed then Info else Debug) tx rx) ;;;
  emit_all (PolicyChange <$> lines).

(** [start_traffic_reporter()] and its timer's handler. *)
Definition start_traffic_reporter : Op unit :=
  emodify (fun s => set_timers (Timer.arm (traffic_timer s)) (update_tick_timer s) (accept_retry_timer s) s).
Definition on_traffic (ec : error_code) (tx rx : Z) (x : CleanPathTracker.sample_t) : Op unit :=
  let* r := egets p_running in
  if ec_failed ec || negb r then eret tt else report_traffic tx rx x ;;; start_traffic_reporter.

(** The endpoint [do_resolve] selects: the first IPv4 one, else the first. *)
Definition is_v4 (ep : ip_address * Z) : bool := match ep.1 with V4 _ => true | V6 _ => false end.
Definition select_endpoint (results : list (ip_address * Z)) : option (ip_address * Z) :=
  match find is_v4 results with Some ep => Some ep | None => head results end.

Definition addr_is_loopback (a : ip_address) : bool :=
  match a with V4 b => v4_is_loopback b | V6 b => v6_is_loopback b end.

(** What the kernel answers while the acceptor is set up. *)
Record listen_answers := mkListen {
  a_open : error_code; a_reuse : error_code; a_bind : error_code; a_listen : error_code; a_local : option Z }.

(** [start()] and [do_resolve()]. *)
Definition do_resolve : Op unit := emodify (fun s => set_resolves (S (resolves s)) (resolves_aborted s) s).
Definition start : Op unit := do_resolve.

(** The acceptor's set-up, in the order of the calls: on the first failure
    start-up fails, with the acceptor left as it is. *)
Definition open_acceptor (ans : listen_answers) (ready : Op unit) : Op unit :=
  if ec_failed (a_open ans) then fail_startup
  else
    emodify (fun s => set_acceptor AcceptorOpen (accepts s) (accepts_aborted s) s) ;;;
    if ec_failed (a_reuse ans) || ec_failed (a_bind ans) || ec_failed (a_listen ans) then fail_startup
    else
      emodify (fun s => set_acceptor (AcceptorListening (a_local ans)) (accepts s) (accepts_aborted s) s) ;;;
      ready.

(** What follows a listening acceptor. *)
Definition go_live (ans : listen_answers) : Op unit :=
  emodify (fun s => set_flow true (start_failed s) (io_stopped s) s) ;;;
  let* p := egets listen_port in
  emit (ProxyListening (default p (a_local ans))) ;;;
  start_traffic_reporter ;;;
  do_update_tick ec_none [] ;;;
  do_accept.

(** The completion of [async_resolve]. *)
Definition on_resolved (ec : error_code) (results : list (ip_address * Z)) (ans : listen_answers) : Op unit :=
  if bool_decide (ec = ec_operation_aborted) then eret tt
  else if ec_failed ec then fail_startup
  else
    match select_endpoint results with
    | None => fail_startup
    | Some ep =>
        emodify (set_endpoint (Some ep)) ;;;
        let* h := egets listen_host in
        match make_address h with
        | None => fail_startup
        | Some addr =>
            ewhen (negb (addr_is_loopback addr)) (emit OpenProxyWarning) ;;;
            open_acceptor ans (go_live ans)
        end
    end.

(** The sessions [stop] closes: the weak references that still lock. *)
Definition live_sessions (s : proxy) : list Z :=
  snd <$> map_to_list (filter (live_entry (objects s)) (tick_sessions s)).

(** [stop()]. *)
Definition stop : Op unit :=
  let* s := egets id in
  emodify (fun s =>
    set_registry (active_sessions s) ∅ (objects s) (next_object s)
      (set_timers (Timer.cancel (traffic_timer s)) (Timer.cancel (update_tick_timer s)) (Timer.cancel (accept_retry_timer s))
         (set_acceptor AcceptorClosed 0 (accepts s + accepts_aborted s)
            (set_resolves 0 (resolves s + resolves_aborted s)
               (set_flow false (start_failed s) (io_stopped s) s))))) ;;;
  emit_all (CloseSession <$> live_sessions s) ;;;
  wipe_key.

(** [log_non_socks5_client(first, second)]. *)
Definition log_non_socks5_client (now first second : Z) : Op unit :=
  let* s := egets id in
  let '(l', out) := LogThrottle.should_log now (greeting_reject_log s) in
  emodify (set_logs (accept_error_log s) l') ;;;
  match out with
  | None => eret tt
  | Some n => emit (NonSocks5 (non_socks5_line (listen_host s) (listen_port s) first second n))
  end.
End Proxy.
