(* ===== verification/ClientLifeProofs.v ===== *)
(** * ClientLifeProofs: the client's loops and its registry of sessions *)

From Stdlib Require Import ZArith Lia.
From stdpp Require Import base list gmap strings.
From S2P Require Import Prelude Config Asio CleanPath Runtime Effects Kcp Tunnel Policies ClientSession Client ClientLife.
From S2P Require SessionProofs ClientSessionProofs.
From S2P Require Crypto.

Section Loops.
Context {I : AsioIp} {A : Crypto.Aead} {K : Kcp} {F : FecCodec}.

(** ** What each handler does to the state *)

Lemma accept_final s :
  final do_accept s =
  if p_running s then set_acceptor (acceptor s) (S (accepts s)) (accepts_aborted s) s else s.
Proof. unfold do_accept. rewrite final_gets. by destruct (p_running s). Qed.

Lemma tick_state ec gone s :
  final (do_update_tick ec gone) s =
  if ec_failed ec || negb (p_running s) then s
  else set_registry (active_sessions s) (filter (live_entry (objects s)) (tick_sessions s)) (objects s) (next_object s)
         (set_timers (traffic_timer s) (Timer.arm (update_tick_timer s)) (accept_retry_timer s) s).
Proof.
  unfold do_update_tick. rewrite final_gets. case_bool; [done|].
  by rewrite final_modify, final_gets, final_modify, emit_all_final.
Qed.

Lemma traffic_state ec tx rx x s :
  final (on_traffic ec tx rx x) s =
  if ec_failed ec || negb (p_running s) then s
  else set_timers (Timer.arm (traffic_timer s)) (update_tick_timer s) (accept_retry_timer s)
         (set_reports (sample_adaptive_policies x (p_policies s)).1 (tx, rx) s).
Proof.
  unfold on_traffic, report_traffic, start_traffic_reporter. rewrite final_gets. case_bool; [done|].
  rewrite final_bind, final_gets. unfold id. destruct (sample_adaptive_policies x (p_policies s)) as [pol lines].
  by rewrite final_modify, final_bind, emit_all_final.
Qed.

(** An accepted connection adds at most one object, registered under its
    address. *)
Definition same_registry (s s' : proxy) : Prop :=
  tick_sessions s' = tick_sessions s /\ objects s' = objects s /\ next_object s' = next_object s /\
  active_sessions s' = active_sessions s.
Definition registered (ptr : Z) (s s' : proxy) : Prop :=
  tick_sessions s' = <[ptr := next_object s]> (tick_sessions s) /\
  objects s' = <[next_object s := ptr]> (objects s) /\ next_object s' = next_object s + 1 /\
  active_sessions s' = active_sessions s + 1 /\ active_sessions s < MAX_CLIENT_SESSIONS.

Lemma connection_state e f salt sock ptr s :
  let s' := final (accept_connection e f salt sock ptr) s in
  s' = set_registry (active_sessions s') (tick_sessions s') (objects s') (next_object s') s /\
  (same_registry s s' \/ registered ptr s s').
Proof.
  unfold accept_connection. rewrite final_gets. unfold id, handle_client_connection, take_ticket.
  destruct (Z.leb_spec MAX_CLIENT_SESSIONS (active_sessions s)); cbn [negb].
  - destruct (Socks5.build _); rewrite final_modify; (split; [done|]; left; by destruct s).
  - destruct (session_setup e f salt s); rewrite final_modify; (split; [done|]).
    + right. by split_and!.
    + left. split_and!; try done. cbn. unfold return_ticket. lia.
Qed.

Lemma on_accept_state ec now e f salt sock ptr s :
  let s' := final (on_accept ec now e f salt sock ptr) s in
  p_running s = false /\ s' = s \/
  p_running s = true /\ ec_failed ec = true /\
    (exists l, s' = set_timers (traffic_timer s) (update_tick_timer s) (Timer.arm (accept_retry_timer s))
                      (set_logs l (greeting_reject_log s) s)) \/
  p_running s = true /\ ec_failed ec = false /\
    exists s1, s1 = set_registry (active_sessions s1) (tick_sessions s1) (objects s1) (next_object s1) s /\
    (same_registry s s1 \/ registered ptr s s1) /\
    s' = set_acceptor (acceptor s) (S (accepts s)) (accepts_aborted s) s1.
Proof.
  unfold on_accept. rewrite final_gets. destruct (p_running s) eqn:Er, (ec_failed ec); cbn [negb]; auto.
  - right. left. split_and!; try done. rewrite final_gets.
    destruct (LogThrottle.should_log now (accept_error_log s)) as [l out]. exists l.
    rewrite final_modify, final_bind. by destruct out.
  - right. right. split_and!; try done. rewrite final_bind, accept_final.
    destruct (connection_state e f salt sock ptr s) as [E H]. set (s1 := final _ s) in *. exists s1.
    split_and!; [done | done|].
    assert (p_running s1 = true /\ acceptor s1 = acceptor s /\ accepts s1 = accepts s /\
            accepts_aborted s1 = accepts_aborted s) as (-> & -> & -> & ->) by (rewrite E; done). done.
Qed.

Lemma stop_state s :
  final stop s =
  set_key []
    (set_registry (active_sessions s) ∅ (objects s) (next_object s)
      (set_timers (Timer.cancel (traffic_timer s)) (Timer.cancel (update_tick_timer s)) (Timer.cancel (accept_retry_timer s))
         (set_acceptor AcceptorClosed 0 (accepts s + accepts_aborted s)
            (set_resolves 0 (resolves s + resolves_aborted s)
               (set_flow false (start_failed s) (io_stopped s) s))))).
Proof. unfold stop, wipe_key. by rewrite final_gets, final_modify, final_bind, emit_all_final. Qed.

(** The resolver's answer: a clean abort, a failed start-up, or a live
    proxy. *)
Definition starts (ec : error_code) (results : list (ip_address * Z)) (ans : listen_answers) (s : proxy) : Prop :=
  ec_failed ec = false /\ results <> [] /\ (exists a, make_address (listen_host s) = Some a) /\
  ec_failed (a_open ans) = false /\ ec_failed (a_reuse ans) = false /\ ec_failed (a_bind ans) = false /\
  ec_failed (a_listen ans) = false.

Lemma select_endpoint_some results : results <> [] -> exists ep, select_endpoint results = Some ep.
Proof. unfold select_endpoint. destruct (find is_v4 results), results; naive_solver. Qed.

Lemma go_live_state ans s :
  tick_sessions s = ∅ ->
  final (go_live ans) s =
  set_acceptor (acceptor s) (S (accepts s)) (accepts_aborted s)
    (set_timers (Timer.arm (traffic_timer s)) (Timer.arm (update_tick_timer s)) (accept_retry_timer s)
       (set_flow true (start_failed s) (io_stopped s) s)).
Proof.
  intros Ht. unfold go_live, start_traffic_reporter.
  rewrite final_modify, final_gets, final_bind, final_modify, final_bind, accept_final, tick_state.
  cbn. rewrite Ht, map_filter_empty. destruct s; cbn in *. by subst.
Qed.

Lemma fail_startup_state s : final fail_startup s = set_flow (p_running s) true true s.
Proof. unfold fail_startup. by rewrite final_bind. Qed.

Lemma on_resolved_state ec results ans s :
  tick_sessions s = ∅ ->
  let s' := final (on_resolved ec results ans) s in
  ec = ec_operation_aborted /\ s' = s \/
  ec <> ec_operation_aborted /\ ~ starts ec results ans s /\
    (exists ep acc, s' = set_flow (p_running s) true true
                           (set_acceptor acc (accepts s) (accepts_aborted s) (set_endpoint ep s))) \/
  starts ec results ans s /\
    exists ep, select_endpoint results = Some ep /\
    s' = set_acceptor (AcceptorListening (a_local ans)) (S (accepts s)) (accepts_aborted s)
           (set_timers (Timer.arm (traffic_timer s)) (Timer.arm (update_tick_timer s)) (accept_retry_timer s)
              (set_flow true (start_failed s) (io_stopped s) (set_endpoint (Some ep) s))).
Proof.
  intros Ht. unfold on_resolved. case_bool_decide as Ea; [by left|]. right.
  assert (Hs : s = set_acceptor (acceptor s) (accepts s) (accepts_aborted s) (set_endpoint (server_endpoint s) s))
    by by destruct s.
  destruct (ec_failed ec) eqn:Ee.
  { left. split; [done|]. split; [by intros (? & _); congruence|].
    exists (server_endpoint s), (acceptor s). rewrite fail_startup_state. by rewrite <- Hs. }
  destruct (select_endpoint results) as [ep|] eqn:Ep.
  2:{ left. split; [done|]. split.
      { intros (_ & Hr & _). destruct (select_endpoint_some results Hr) as [ep ?]. congruence. }
      exists (server_endpoint s), (acceptor s). rewrite fail_startup_state. by rewrite <- Hs. }
  assert (Hne : results <> []) by (intros ->; done).
  rewrite final_modify, final_gets. change (listen_host (set_endpoint (Some ep) s)) with (listen_host s).
  destruct (make_address (listen_host s)) as [addr|] eqn:Em.
  2:{ left. split; [done|]. split; [intros (_ & _ & [? ?] & _); congruence|].
      exists (Some ep), (acceptor s). by rewrite fail_startup_state. }
  assert (Hw : final (ewhen (negb (addr_is_loopback addr)) (emit OpenProxyWarning)) (set_endpoint (Some ep) s)
               = set_endpoint (Some ep) s) by by destruct (addr_is_loopback addr).
  rewrite final_bind, Hw. unfold open_acceptor.
  destruct (ec_failed (a_open ans)) eqn:E1.
  { left. split; [done|]. split; [intros (_ & _ & _ & ? & _); congruence|].
    exists (Some ep), (acceptor s). by rewrite fail_startup_state. }
  rewrite final_modify.
  destruct (ec_failed (a_reuse ans) || ec_failed (a_bind ans) || ec_failed (a_listen ans)) eqn:E2.
  { left. split; [done|]. split.
    { intros (_ & _ & _ & _ & H1 & H2 & H3). rewrite H1, H2, H3 in E2. done. }
    exists (Some ep), AcceptorOpen. by rewrite fail_startup_state. }
  apply orb_false_iff in E2 as [E2 E3]. apply orb_false_iff in E2 as [E2 E4]. right.
  split; [by split_and!; eauto|]. exists ep. split; [done|]. by rewrite final_modify, go_live_state.
Qed.

(** ** The completions, in any order

    An outstanding operation completes with anything but an abort; one that
    was cancelled completes with an abort or, if it was already queued, with
    what it had. The resolver is the exception: see [queued_resolve_revives]. *)

Inductive pstep : proxy -> proxy -> Prop :=
| p_resolved ec results ans s n :
    resolves s = S n -> ec <> ec_operation_aborted ->
    pstep s (final (on_resolved ec results ans) (set_resolves n (resolves_aborted s) s))
| p_resolved_aborted results ans s n :
    resolves_aborted s = S n ->
    pstep s (final (on_resolved ec_operation_aborted results ans) (set_resolves (resolves s) n s))
| p_accept ec now e f salt sock ptr s n :
    accepts s = S n -> ec <> ec_operation_aborted -> (forall obj q, objects s !! obj = Some q -> q <> ptr) ->
    pstep s (final (on_accept ec now e f salt sock ptr) (set_acceptor (acceptor s) n (accepts_aborted s) s))
| p_accept_aborted ec now e f salt sock ptr s n :
    accepts_aborted s = S n ->
    pstep s (final (on_accept ec now e f salt sock ptr) (set_acceptor (acceptor s) (accepts s) n s))
| p_retry s :
    (0 < Timer.waiting (accept_retry_timer s))%nat ->
    pstep s (final (on_accept_retry ec_none)
               (set_timers (traffic_timer s) (update_tick_timer s) (Timer.fire (accept_retry_timer s)) s))
| p_retry_aborted ec s :
    (0 < Timer.aborted (accept_retry_timer s))%nat ->
    pstep s (final (on_accept_retry ec)
               (set_timers (traffic_timer s) (update_tick_timer s) (Timer.deliver_abort (accept_retry_timer s)) s))
| p_tick gone s :
    (0 < Timer.waiting (update_tick_timer s))%nat ->
    pstep s (final (do_update_tick ec_none gone)
               (set_timers (traffic_timer s) (Timer.fire (update_tick_timer s)) (accept_retry_timer s) s))
| p_tick_aborted ec gone s :
    (0 < Timer.aborted (update_tick_timer s))%nat ->
    pstep s (final (do_update_tick ec gone)
               (set_timers (traffic_timer s) (Timer.deliver_abort (update_tick_timer s)) (accept_retry_timer s) s))
| p_traffic tx rx x s :
    (0 < Timer.waiting (traffic_timer s))%nat ->
    pstep s (final (on_traffic ec_none tx rx x)
               (set_timers (Timer.fire (traffic_timer s)) (update_tick_timer s) (accept_retry_timer s) s))
| p_traffic_aborted ec tx rx x s :
    (0 < Timer.aborted (traffic_timer s))%nat ->
    pstep s (final (on_traffic ec tx rx x)
               (set_timers (Timer.deliver_abort (traffic_timer s)) (update_tick_timer s) (accept_retry_timer s) s))
| p_destroyed obj s : is_Some (objects s !! obj) -> pstep s (final (session_destroyed obj) s)
| p_greeting now first second s : pstep s (final (log_non_socks5_client now first second) s)
| p_stop s : pstep s (final stop s).

Inductive proceeds (s0 : proxy) : proxy -> Prop :=
| proceeds_start : proceeds s0 (final start s0)
| proceeds_step s s' : proceeds s0 s -> pstep s s' -> proceeds s0 s'.

(** The session objects: distinct addresses, each paid for by a ticket. *)
Record objects_ok (s : proxy) : Prop := {
  ob_fresh : forall obj q, objects s !! obj = Some q -> obj < next_object s;
  ob_ptrs : forall o1 o2 q, objects s !! o1 = Some q -> objects s !! o2 = Some q -> o1 = o2;
  ob_active : active_sessions s = Z.of_nat (size (objects s)) /\ active_sessions s <= MAX_CLIENT_SESSIONS }.

(** A registry entry was made for its object at that address. *)
Definition entries_ok (s : proxy) : Prop :=
  forall q obj, tick_sessions s !! q = Some obj ->
    obj < next_object s /\ forall q', objects s !! obj = Some q' -> q' = q.

(** A running client has each chain outstanding exactly once and every
    session object in its registry. *)
Record live_loops (s : proxy) : Prop := {
  ll_acceptor : acceptor s <> AcceptorClosed;
  ll_accept : (accepts s + Timer.waiting (accept_retry_timer s) = 1)%nat;
  ll_aborted : accepts_aborted s = 0%nat /\ Timer.aborted (accept_retry_timer s) = 0%nat /\
               resolves s = 0%nat /\ resolves_aborted s = 0%nat;
  ll_tick : update_tick_timer s = Timer.mk 1 0;
  ll_traffic : traffic_timer s = Timer.mk 1 0;
  ll_failed : start_failed s = false;
  ll_registered : forall obj q, objects s !! obj = Some q -> tick_sessions s !! q = Some obj;
  ll_entries : entries_ok s }.

(** A client that does not run has nothing outstanding but, before its start,
    the resolver. *)
Record idle_loops (s : proxy) : Prop := {
  il_none : accepts s = 0%nat /\ Timer.waiting (accept_retry_timer s) = 0%nat /\
            Timer.waiting (update_tick_timer s) = 0%nat /\ Timer.waiting (traffic_timer s) = 0%nat;
  il_registry : tick_sessions s = ∅;
  il_resolving : resolves s <> 0%nat ->
    resolves s = 1%nat /\ resolves_aborted s = 0%nat /\ accepts_aborted s = 0%nat /\
    traffic_timer s = Timer.idle /\ update_tick_timer s = Timer.idle /\ accept_retry_timer s = Timer.idle /\
    objects s = ∅ /\ start_failed s = false }.

Record proxy_ok (s : proxy) : Prop := {
  po_objects : objects_ok s;
  po_running : p_running s = true -> live_loops s;
  po_idle : p_running s = false -> idle_loops s }.

Lemma objects_ok_ext s s' :
  objects s' = objects s -> next_object s' = next_object s -> active_sessions s' = active_sessions s ->
  objects_ok s -> objects_ok s'.
Proof. intros E1 E2 E3 [H1 H2 H3]. split; rewrite ?E1, ?E2, ?E3; done. Qed.

Lemma objects_ok_register ptr s s' :
  (forall obj q, objects s !! obj = Some q -> q <> ptr) -> registered ptr s s' -> objects_ok s -> objects_ok s'.
Proof.
  intros Hp (_ & Eo & En & Ea & Hlt) [H1 H2 [H3 H4]]. split.
  - intros obj q. rewrite Eo, En, lookup_insert_Some. intros [[<- _]|[_ Hq]]; [lia|]. specialize (H1 _ _ Hq). lia.
  - intros o1 o2 q. rewrite Eo, !lookup_insert_Some.
    intros [[<- <-]|[Hn1 Hq1]] [[<- Heq]|[Hn2 Hq2]]; [done | | | by eapply H2].
    + by destruct (Hp _ _ Hq2).
    + subst ptr. by destruct (Hp _ _ Hq1).
  - rewrite Eo, Ea, map_size_insert_None; [lia|].
    destruct (objects s !! next_object s) as [q|] eqn:E; [|done]. specialize (H1 _ _ E). lia.
Qed.

Lemma live_registered ptr s s' :
  (forall obj q, objects s !! obj = Some q -> q <> ptr) -> registered ptr s s' ->
  (forall obj q, objects s !! obj = Some q -> tick_sessions s !! q = Some obj) ->
  (forall obj q, objects s' !! obj = Some q -> tick_sessions s' !! q = Some obj).
Proof.
  intros Hp (Et & Eo & _) H obj q. rewrite Eo, Et, lookup_insert_Some. intros [[<- <-]|[_ Hq]].
  - by rewrite lookup_insert_eq.
  - rewrite lookup_insert_ne by (intros E; by destruct (Hp _ _ Hq)). by apply H.
Qed.

Lemma entries_registered ptr s s' :
  registered ptr s s' -> entries_ok s -> entries_ok s'.
Proof.
  intros (Et & Eo & En & _) H q obj. rewrite Et, Eo, En, lookup_insert_Some. intros [[<- <-]|[Hne Hq]].
  - split; [lia|]. intros q'. rewrite lookup_insert_eq. congruence.
  - destruct (H _ _ Hq) as [Hlt Hu]. split; [lia|]. intros q'. rewrite lookup_insert_ne by lia. apply Hu.
Qed.

Lemma ok_accept ec now e f salt sock ptr n s :
  accepts s = S n -> ec <> ec_operation_aborted -> (forall obj q, objects s !! obj = Some q -> q <> ptr) ->
  proxy_ok s ->
  proxy_ok (final (on_accept ec now e f salt sock ptr) (set_acceptor (acceptor s) n (accepts_aborted s) s)).
Proof.
  intros Hn Hec Hp [Ho Hr Hi].
  destruct (p_running s) eqn:Er; [|destruct (Hi eq_refl) as [(Hz & _) _ _]; lia].
  destruct (Hr eq_refl) as [L1 L2 (L3 & L4 & L5 & L6) L7 L8 L9 L10 L11]. rewrite Hn in L2.
  assert (n = 0%nat) as -> by lia.
  assert (Hw : Timer.waiting (accept_retry_timer s) = 0%nat) by lia.
  set (s0 := set_acceptor (acceptor s) 0 (accepts_aborted s) s).
  destruct (on_accept_state ec now e f salt sock ptr s0)
    as [[H _]|[(_ & _ & l & ->)|(_ & _ & s1 & E & Hreg & ->)]]; [unfold s0 in H; simpl in H; congruence | |].
  - split; [by apply (objects_ok_ext s) | | simpl; congruence]. intros _. split; cbn; try done.
    rewrite L4, Hw. done.
  - assert (Hro : objects_ok s1 /\ (forall obj q, objects s1 !! obj = Some q -> tick_sessions s1 !! q = Some obj) /\
                  entries_ok s1).
    { destruct Hreg as [(E1 & E2 & E3 & E4)|Hreg].
      - split; [by apply (objects_ok_ext s)|]. unfold entries_ok. rewrite E1, E2, E3. by split; [apply L10|].
      - split_and!; [|by apply (live_registered ptr s0 s1 Hp Hreg)|by apply (entries_registered ptr s0 s1 Hreg)].
        apply (objects_ok_register ptr s0 s1 Hp Hreg). by apply (objects_ok_ext s). }
    destruct Hro as (Ho1 & Hl1 & He1). split; [by apply (objects_ok_ext s1) | | rewrite E; simpl; congruence].
    intros _. split; try done; rewrite E; cbn; try done.
Qed.

Lemma ok_retry s :
  (0 < Timer.waiting (accept_retry_timer s))%nat -> proxy_ok s ->
  proxy_ok (final (on_accept_retry ec_none)
     (set_timers (traffic_timer s) (update_tick_timer s) (Timer.fire (accept_retry_timer s)) s)).
Proof.
  intros Hw [Ho Hr Hi]. destruct (p_running s) eqn:Er; [|destruct (Hi eq_refl) as [(_ & Hz & _) _ _]; lia].
  destruct (Hr eq_refl) as [L1 L2 (L3 & L4 & L5 & L6) L7 L8 L9 L10 L11].
  unfold on_accept_retry. cbn [ec_failed negb ewhen]. rewrite accept_final. cbn [p_running set_timers]. rewrite Er.
  split; [by apply (objects_ok_ext s) | | simpl; congruence]. intros _. split; cbn; try done. lia.
Qed.

Lemma ok_tick ec gone t s :
  proxy_ok s -> (p_running s = true -> ec_failed ec = false /\ t = Timer.mk 0 0) ->
  (p_running s = false -> Timer.waiting t = 0%nat /\ resolves s = 0%nat) ->
  proxy_ok (final (do_update_tick ec gone) (set_timers (traffic_timer s) t (accept_retry_timer s) s)).
Proof.
  intros [Ho Hr Hi] Ht Hf. rewrite tick_state. cbn [p_running set_timers]. destruct (p_running s) eqn:Er.
  - destruct (Ht eq_refl) as [-> ->]. destruct (Hr eq_refl) as [L1 L2 L3 L7 L8 L9 L10 L11].
    cbn [orb negb]. split; [by apply (objects_ok_ext s) | | simpl; congruence]. intros _. split; cbn; try done.
    + intros obj q Hq. apply map_lookup_filter_Some. split; [by apply L10|]. by exists q.
    + intros q obj [Hq _]%map_lookup_filter_Some. by apply L11.
  - rewrite orb_true_r. destruct (Hf eq_refl) as [Hw Hz]. destruct (Hi eq_refl) as [(H1 & H2 & H3 & H4) H5 H6].
    split; [by apply (objects_ok_ext s) | simpl; congruence|]. intros _. split; cbn; try done.
Qed.

Lemma ok_traffic ec tx rx x t s :
  proxy_ok s -> (p_running s = true -> ec_failed ec = false /\ t = Timer.mk 0 0) ->
  (p_running s = false -> Timer.waiting t = 0%nat /\ resolves s = 0%nat) ->
  proxy_ok (final (on_traffic ec tx rx x) (set_timers t (update_tick_timer s) (accept_retry_timer s) s)).
Proof.
  intros [Ho Hr Hi] Ht Hf. rewrite traffic_state. cbn [p_running set_timers]. destruct (p_running s) eqn:Er.
  - destruct (Ht eq_refl) as [-> ->]. destruct (Hr eq_refl) as [L1 L2 L3 L7 L8 L9 L10 L11].
    cbn [orb negb]. split; [by apply (objects_ok_ext s) | | simpl; congruence]. intros _. split; cbn; done.
  - rewrite orb_true_r. destruct (Hf eq_refl) as [Hw Hz]. destruct (Hi eq_refl) as [(H1 & H2 & H3 & H4) H5 H6].
    split; [by apply (objects_ok_ext s) | simpl; congruence|]. intros _. split; cbn; try done.
Qed.

Lemma ok_resolution ec results ans n s :
  resolves s = S n -> ec <> ec_operation_aborted -> proxy_ok s ->
  proxy_ok (final (on_resolved ec results ans) (set_resolves n (resolves_aborted s) s)).
Proof.
  intros Hn Hec [Ho Hr Hi].
  destruct (p_running s) eqn:Er; [destruct (Hr eq_refl) as [_ _ (_ & _ & Hz & _) _ _ _ _ _]; lia|].
  destruct (Hi eq_refl) as [(H1 & H2 & H3 & H4) H5 H6].
  destruct H6 as (H6 & H7 & H8 & H9 & H10 & H11 & H12 & H13); [lia|]. assert (n = 0%nat) as -> by lia.
  set (s0 := set_resolves 0 (resolves_aborted s) s).
  destruct (on_resolved_state ec results ans s0 H5)
    as [[? _]|[(_ & _ & ep & acc & ->)|(_ & ep & _ & ->)]]; [done | |].
  - split; [by apply (objects_ok_ext s) | simpl; congruence|]. intros _. split; cbn; try done.
  - split; [by apply (objects_ok_ext s) | | simpl; congruence]. intros _. split; cbn; try done.
    + rewrite H11, H1. done.
    + rewrite H8, H11, H7. done.
    + by rewrite H10.
    + by rewrite H9.
    + rewrite H12. intros obj q. by rewrite lookup_empty.
    + unfold entries_ok. cbn. rewrite H5. intros q obj. by rewrite lookup_empty.
Qed.

Lemma ok_destroyed obj s : is_Some (objects s !! obj) -> proxy_ok s -> proxy_ok (final (session_destroyed obj) s).
Proof.
  intros [q0 Hq] [[O1 O2 [O3 O4]] Hr Hi]. split.
  - split; cbn.
    + intros o q [_ Hd]%lookup_delete_Some. by eapply O1.
    + intros o1 o2 q [_ Hd1]%lookup_delete_Some [_ Hd2]%lookup_delete_Some. by eapply O2.
    + unfold return_ticket. rewrite map_size_delete_Some by (by exists q0).
      assert (size (objects s) <> 0%nat); [|lia].
      intros E. apply map_size_empty_inv in E. by rewrite E, lookup_empty in Hq.
  - intros E. destruct (Hr E) as [L1 L2 L3 L7 L8 L9 L10 L11]. split; cbn; try done.
    + intros o q [_ Hd]%lookup_delete_Some. by apply L10.
    + unfold entries_ok. cbn. intros q o Ht. destruct (L11 _ _ Ht) as [Hlt Hu]. split; [done|].
      intros q' [_ Hd]%lookup_delete_Some. by apply Hu.
  - intros E. destruct (Hi E) as [H1 H5 H6]. split; cbn; try done.
    intros Hz. destruct (H6 Hz) as (? & ? & ? & ? & ? & ? & Ho & ?). by rewrite Ho, lookup_empty in Hq.
Qed.

Lemma ok_stop s : proxy_ok s -> proxy_ok (final stop s).
Proof.
  intros [Ho Hr Hi]. rewrite stop_state. split; [by apply (objects_ok_ext s) | done|].
  intros _. split; cbn; try done.
Qed.

Lemma ok_started s0 :
  s0 = set_resolves 0 0 s0 -> p_running s0 = false -> proxy_ok s0 ->
  traffic_timer s0 = Timer.idle -> update_tick_timer s0 = Timer.idle -> accept_retry_timer s0 = Timer.idle ->
  objects s0 = ∅ -> start_failed s0 = false -> accepts_aborted s0 = 0%nat ->
  proxy_ok (final start s0).
Proof.
  intros E Er [Ho Hr Hi] H1 H2 H3 H4 H5 H6. destruct (Hi Er) as [(? & ? & ? & ?) ? ?].
  split; [by apply (objects_ok_ext s0) | simpl; congruence|]. intros _. split; cbn; try done.
  intros _. rewrite E. cbn. done.
Qed.

(** Something was cancelled, so the start is over. *)
Lemma cancelled_not_resolving s :
  idle_loops s ->
  (0 < resolves_aborted s + accepts_aborted s + Timer.aborted (accept_retry_timer s) +
       Timer.aborted (update_tick_timer s) + Timer.aborted (traffic_timer s))%nat -> resolves s = 0%nat.
Proof.
  intros [_ _ H] Hpos. destruct (decide (resolves s = 0%nat)) as [|Hz]; [done|].
  destruct (H Hz) as (_ & E1 & E2 & E3 & E4 & E5 & _). rewrite E1, E2, E3, E4, E5 in Hpos. cbn in Hpos. lia.
Qed.

(** The cancelled operations of a state. *)
Definition cancelled (s : proxy) : nat :=
  (resolves_aborted s + accepts_aborted s + Timer.aborted (accept_retry_timer s) +
   Timer.aborted (update_tick_timer s) + Timer.aborted (traffic_timer s))%nat.

(** A running client has cancelled nothing. *)
Lemma cancelled_idle s : proxy_ok s -> (0 < cancelled s)%nat -> p_running s = false.
Proof.
  intros Hok Hc. destruct (p_running s) eqn:Er; [|done]. exfalso. unfold cancelled in Hc.
  destruct (po_running _ Hok Er) as [_ _ (E1 & E2 & _ & E3) E4 E5 _ _ _].
  rewrite E1, E2, E3, E4, E5 in Hc. cbn in Hc. lia.
Qed.

(** Delivering a cancellation changes nothing but its count. *)
Lemma ok_cancelled s s' :
  proxy_ok s -> (0 < cancelled s)%nat -> p_running s' = p_running s -> tick_sessions s' = tick_sessions s ->
  objects s' = objects s -> next_object s' = next_object s -> active_sessions s' = active_sessions s ->
  accepts s' = accepts s -> resolves s' = resolves s ->
  Timer.waiting (accept_retry_timer s') = Timer.waiting (accept_retry_timer s) ->
  Timer.waiting (update_tick_timer s') = Timer.waiting (update_tick_timer s) ->
  Timer.waiting (traffic_timer s') = Timer.waiting (traffic_timer s) -> proxy_ok s'.
Proof.
  intros Hok Hc E0 E1 E2 E3 E4 E5 E6 E7 E8 E9. pose proof (cancelled_idle s Hok Hc) as Er.
  pose proof (cancelled_not_resolving s (po_idle _ Hok Er) Hc) as Hz. destruct Hok as [Ho Hr Hi].
  destruct (Hi Er) as [(? & ? & ? & ?) ? _].
  split; [by apply (objects_ok_ext s) | congruence|]. intros _. split; [split_and!; congruence | congruence|].
  intros []. congruence.
Qed.

Lemma ok_resolve_aborted results ans n s :
  proxy_ok s -> resolves_aborted s = S n ->
  proxy_ok (final (on_resolved ec_operation_aborted results ans) (set_resolves (resolves s) n s)).
Proof.
  intros Hok Hn. unfold on_resolved. rewrite bool_decide_true by done. cbn.
  apply (ok_cancelled s); try done. unfold cancelled. lia.
Qed.

Lemma ok_accept_aborted ec now e f salt sock ptr n s :
  proxy_ok s -> accepts_aborted s = S n ->
  proxy_ok (final (on_accept ec now e f salt sock ptr) (set_acceptor (acceptor s) (accepts s) n s)).
Proof.
  intros Hok Hn. assert (Hc : (0 < cancelled s)%nat) by (unfold cancelled; lia).
  pose proof (cancelled_idle s Hok Hc) as Er. set (s0 := set_acceptor (acceptor s) (accepts s) n s).
  destruct (on_accept_state ec now e f salt sock ptr s0) as [[_ ->]|[(H & _)|(H & _)]];
    [by apply (ok_cancelled s) | unfold s0 in H; cbn in H; congruence..].
Qed.

Lemma ok_retry_aborted ec s :
  proxy_ok s -> (0 < Timer.aborted (accept_retry_timer s))%nat ->
  proxy_ok (final (on_accept_retry ec)
    (set_timers (traffic_timer s) (update_tick_timer s) (Timer.deliver_abort (accept_retry_timer s)) s)).
Proof.
  intros Hok Hw. assert (Hc : (0 < cancelled s)%nat) by (unfold cancelled; lia).
  pose proof (cancelled_idle s Hok Hc) as Er.
  assert (E : forall s0, p_running s0 = false -> final (on_accept_retry ec) s0 = s0).
  { intros s0 E0. unfold on_accept_retry. destruct (ec_failed ec); [done|]. cbn [negb ewhen].
    rewrite accept_final. by rewrite E0. }
  rewrite E by done. by apply (ok_cancelled s).
Qed.

Lemma ok_logged now first second s : proxy_ok s -> proxy_ok (final (log_non_socks5_client now first second) s).
Proof.
  intros [Ho Hr Hi].
  assert (E : exists l, final (log_non_socks5_client now first second) s = set_logs (accept_error_log s) l s).
  { unfold log_non_socks5_client. rewrite final_gets.
    destruct (LogThrottle.should_log _ _) as [l out]. exists l. rewrite final_modify. by destruct out. }
  destruct E as [l ->]. split; [by apply (objects_ok_ext s) | |].
  - intros Er. by destruct (Hr Er).
  - intros Er. by destruct (Hi Er).
Qed.

Lemma ok_step s s' : pstep s s' -> proxy_ok s -> proxy_ok s'.
Proof.
  intros Hst Hok.
  destruct Hst as [ec results ans s n Hn Hec | results ans s n Hn | ec now e f salt sock ptr s n Hn Hec Hp
    | ec now e f salt sock ptr s n Hn | s Hw | ec s Hw | gone s Hw | ec gone s Hw | tx rx x s Hw | ec tx rx x s Hw
    | obj s Hobj | now first second s | s];
    auto using ok_resolution, ok_resolve_aborted, ok_accept, ok_accept_aborted, ok_retry, ok_retry_aborted,
      ok_destroyed, ok_logged, ok_stop.
  - apply ok_tick; [done| |]; intros Er.
    + by rewrite (ll_tick _ (po_running _ Hok Er)).
    + destruct (po_idle _ Hok Er) as [(_ & _ & ? & _) _ _]. lia.
  - assert (Hc : (0 < cancelled s)%nat) by (unfold cancelled; lia). pose proof (cancelled_idle s Hok Hc) as E.
    apply ok_tick; [done | congruence|]. intros _. destruct (po_idle _ Hok E) as [(_ & _ & ? & _) _ _].
    split; [done|]. by apply cancelled_not_resolving; [apply (po_idle _ Hok)|].
  - apply ok_traffic; [done| |]; intros Er.
    + by rewrite (ll_traffic _ (po_running _ Hok Er)).
    + destruct (po_idle _ Hok Er) as [(_ & _ & _ & ?) _ _]. lia.
  - assert (Hc : (0 < cancelled s)%nat) by (unfold cancelled; lia). pose proof (cancelled_idle s Hok Hc) as E.
    apply ok_traffic; [done | congruence|]. intros _. destruct (po_idle _ Hok E) as [(_ & _ & _ & ?) _ _].
    split; [done|]. by apply cancelled_not_resolving; [apply (po_idle _ Hok)|].
Qed.

Lemma proceeds_ok shost sport psk lhost lport fec a s :
  proceeds (new_proxy shost sport psk lhost lport fec a) s -> proxy_ok s.
Proof.
  induction 1 as [|s s' _ IH Hst]; [|by eapply ok_step].
  by apply ok_started.
Qed.

(** C22: however completions, accept errors, destroyed sessions and a stop
    interleave, a running client always has exactly one accept outstanding or
    the retry timer that re-arms it, exactly one tick and one traffic report
    scheduled, and as many tickets taken as there are session objects, at most
    [MAX_CLIENT_SESSIONS]. A client that is not running has nothing
    outstanding but, until it is answered, the name resolution of its start. *)
Theorem client_loops_alive (shost : list Z) (sport : Z) (psk lhost : list Z) (lport : Z) (fec : FecConfig)
    (a : AdaptiveSettings) (s : proxy) :
  proceeds (new_proxy shost sport psk lhost lport fec a) s ->
  (active_sessions s = Z.of_nat (size (objects s)) /\ active_sessions s <= MAX_CLIENT_SESSIONS) /\
  (p_running s = true ->
     (accepts s + Timer.waiting (accept_retry_timer s) = 1)%nat /\
     Timer.waiting (update_tick_timer s) = 1%nat /\ Timer.waiting (traffic_timer s) = 1%nat /\
     acceptor s <> AcceptorClosed /\ startup_ok s = true) /\
  (p_running s = false ->
     accepts s = 0%nat /\ Timer.waiting (accept_retry_timer s) = 0%nat /\
     Timer.waiting (update_tick_timer s) = 0%nat /\ Timer.waiting (traffic_timer s) = 0%nat /\
     (resolves s <> 0%nat -> resolves s = 1%nat /\ startup_ok s = true)).
Proof.
  intros H. apply proceeds_ok in H as [[_ _ Ha] Hr Hi]. split_and!; try apply Ha.
  - intros E. destruct (Hr E) as [H1 H2 _ H4 H5 H6 _ _]. unfold startup_ok. rewrite H4, H5, H6. done.
  - intros E. destruct (Hi E) as [(H1 & H2 & H3 & H4) _ H6]. split_and!; try done.
    intros Hz. destruct (H6 Hz) as (Hone & _ & _ & _ & _ & _ & _ & Hf). unfold startup_ok. by rewrite Hf.
Qed.

Lemma select_endpoint_spec results ep :
  select_endpoint results = Some ep ->
  ep ∈ results /\ (is_v4 ep = true \/ Forall (fun x => is_v4 x = false) results).
Proof.
  unfold select_endpoint. destruct (find is_v4 results) as [x|] eqn:E.
  - intros [= <-]. apply find_some in E as [Hin Hv]. split; [by apply list_elem_of_In | by left].
  - intros Hh. split; [destruct results; simplify_eq/=; by left|]. right.
    apply list.Forall_forall. intros x Hx%list_elem_of_In. by apply (find_none _ _ E).
Qed.

(** The answer of the name resolution ends the start in exactly one of
    two ways. Either every step succeeded, the client runs, and the server
    endpoint is one of the answers, an IPv4 one whenever there is any; or a
    step failed, the client does not run, and the failure is recorded and the
    event loop stopped, so the program exits with an error. *)
Theorem startup_one_outcome (shost : list Z) (sport : Z) (psk lhost : list Z) (lport : Z) (fec : FecConfig)
    (a : AdaptiveSettings) (s : proxy) (ec : error_code) (results : list (ip_address * Z)) (ans : listen_answers) :
  proceeds (new_proxy shost sport psk lhost lport fec a) s -> resolves s = 1%nat -> ec <> ec_operation_aborted ->
  let s' := final (on_resolved ec results ans) (set_resolves 0 (resolves_aborted s) s) in
  (starts ec results ans s /\ p_running s' = true /\ startup_ok s' = true /\
     exists ep, server_endpoint s' = Some ep /\ ep ∈ results /\
       (is_v4 ep = true \/ Forall (fun x => is_v4 x = false) results)) \/
  (~ starts ec results ans s /\ p_running s' = false /\ startup_ok s' = false /\ io_stopped s' = true).
Proof.
  intros Hp Hn Hec. apply proceeds_ok in Hp as [_ Hr Hi].
  destruct (p_running s) eqn:Er; [destruct (Hr eq_refl) as [_ _ (_ & _ & Hz & _) _ _ _ _ _]; lia|].
  destruct (Hi eq_refl) as [_ H5 H6]. destruct H6 as (_ & _ & _ & _ & _ & _ & _ & Hf); [lia|].
  intros s'. subst s'.
  destruct (on_resolved_state ec results ans (set_resolves 0 (resolves_aborted s) s) H5)
    as [[? _]|[(_ & Hs & ep & acc & ->)|(Hs & ep & Hsel & ->)]]; [done | right | left].
  - split_and!; try done. 
  - split_and!; try done; [unfold startup_ok; cbn; by rewrite Hf|].
    exists ep. split; [done|]. by apply select_endpoint_spec.
Qed.

(** ** Ticks and shutdown reach every session *)

Definition ticked_objects (evs : list pevent) : list Z :=
  omap (fun ev => match ev with TickSession o => Some o | _ => None end) evs.
Definition closed_objects (evs : list pevent) : list Z :=
  omap (fun ev => match ev with CloseSession o => Some o | _ => None end) evs.

Lemma ticked_objects_ids l : ticked_objects (TickSession <$> l) = l.
Proof. unfold ticked_objects. induction l as [|x l IH]; [done|]. simpl. by f_equal. Qed.
Lemma closed_objects_ids l : closed_objects (CloseSession <$> l) = l.
Proof. unfold closed_objects. induction l as [|x l IH]; [done|]. simpl. by f_equal. Qed.

(** The live registry entries are the session objects, each once. *)
Lemma live_sessions_spec s :
  live_loops s -> NoDup (live_sessions s) /\ forall obj, obj ∈ live_sessions s <-> is_Some (objects s !! obj).
Proof.
  intros [_ _ _ _ _ _ Hreg Hent]. unfold live_sessions. split.
  - apply NoDup_fmap_2_strong; [|apply NoDup_map_to_list].
    intros [q1 o1] [q2 o2] H1%elem_of_map_to_list H2%elem_of_map_to_list E. simpl in E. subst o2.
    apply map_lookup_filter_Some in H1 as [H1 [p Hp]], H2 as [H2 _]. simpl in *.
    rewrite <- (proj2 (Hent _ _ H1) _ Hp), <- (proj2 (Hent _ _ H2) _ Hp). done.
  - intros obj. rewrite list_elem_of_fmap. split.
    + intros ([q o] & -> & H%elem_of_map_to_list). by apply map_lookup_filter_Some in H as [_ H].
    + intros [q Hq]. exists (q, obj). split; [done|]. apply elem_of_map_to_list, map_lookup_filter_Some.
      split; [by apply Hreg | by exists q].
Qed.

Lemma tick_objects gone s :
  p_running s = true ->
  ticked_objects (trace (do_update_tick ec_none gone) s) = filter (fun o => o ∉ gone) (live_sessions s).
Proof.
  intros Er. unfold do_update_tick. rewrite trace_gets, Er. cbn [ec_failed orb negb].
  rewrite trace_modify, trace_gets, trace_modify, emit_all_trace, ticked_objects_ids. done.
Qed.

Lemma stop_objects s : closed_objects (trace stop s) = live_sessions s.
Proof.
  unfold stop, wipe_key. rewrite trace_gets, trace_modify, trace_bind, emit_all_trace.
  unfold closed_objects. rewrite omap_app. change (omap _ (CloseSession <$> ?l)) with (closed_objects (CloseSession <$> l)).
  by rewrite closed_objects_ids, app_nil_r.
Qed.

(** In every state a running client can reach, a tick is dispatched to
    every session object that exists exactly once and to nothing else, and the
    registry keeps exactly the entries of existing sessions; and [stop()]
    closes every existing session exactly once, wipes the key, and leaves
    nothing outstanding that could act. *)
Theorem tick_and_stop_reach_every_session (shost : list Z) (sport : Z) (psk lhost : list Z) (lport : Z)
    (fec : FecConfig) (a : AdaptiveSettings) (s : proxy) (gone : list Z) :
  proceeds (new_proxy shost sport psk lhost lport fec a) s -> p_running s = true ->
  (let ids := ticked_objects (trace (do_update_tick ec_none gone) s) in
   NoDup ids /\ forall obj, obj ∈ ids <-> (obj ∉ gone) /\ is_Some (objects s !! obj)) /\
  (forall q obj, tick_sessions (final (do_update_tick ec_none gone) s) !! q = Some obj <-> objects s !! obj = Some q) /\
  (let ids := closed_objects (trace stop s) in
   let s' := final stop s in
   NoDup ids /\ (forall obj, obj ∈ ids <-> is_Some (objects s !! obj)) /\
   key s' = [] /\ p_running s' = false /\ acceptor s' = AcceptorClosed /\ accepts s' = 0%nat /\
   Timer.waiting (accept_retry_timer s') = 0%nat /\ Timer.waiting (update_tick_timer s') = 0%nat /\
   Timer.waiting (traffic_timer s') = 0%nat).
Proof.
  intros Hp Er. apply proceeds_ok in Hp as [Ho Hr _]. specialize (Hr Er).
  destruct (live_sessions_spec s Hr) as [Hnd Hin]. split_and!.
  - rewrite tick_objects by done. cbv zeta. split; [by apply NoDup_filter|].
    intros obj. by rewrite list_elem_of_filter, Hin.
  - intros q obj. rewrite tick_state, Er. cbn. rewrite map_lookup_filter_Some. split.
    + intros [Hq [q' Hq']]. cbn in Hq'. rewrite <- (proj2 (ll_entries _ Hr _ _ Hq) _ Hq'). done.
    + intros Hq. split; [by apply (ll_registered _ Hr) | by exists q].
  - rewrite stop_objects, stop_state. cbn. done.
Qed.

(** ** Traffic reports *)

(** The counters of a heartbeat and the sample that goes with them. *)
Definition report_all (rs : list (Z * Z * CleanPathTracker.sample_t)) : M proxy pevent unit :=
  efor (fun '(tx, rx, x) => report_traffic tx rx x) rs.

(** What the GUI shows: the last INFO line. *)
Definition displayed (evs : list pevent) : option (Z * Z) :=
  last (omap (fun ev => match ev with Traffic Info tx rx => Some (tx, rx) | _ => None end) evs).

Lemma displayed_app evs1 evs2 :
  displayed (evs1 ++ evs2) = match displayed evs2 with Some p => Some p | None => displayed evs1 end.
Proof. unfold displayed. by rewrite omap_app, last_app. Qed.

Lemma displayed_policy lines : displayed (PolicyChange <$> lines) = None.
Proof. unfold displayed. induction lines as [|l lines IH]; [done|]. by simpl. Qed.

Lemma report_traffic_run tx rx x s :
  last_reported (final (report_traffic tx rx x) s) = (tx, rx) /\
  displayed (trace (report_traffic tx rx x) s) =
    if bool_decide ((tx, rx) = last_reported s) then None else Some (tx, rx).
Proof.
  unfold report_traffic. rewrite final_gets, trace_gets. unfold id.
  destruct (sample_adaptive_policies x (p_policies s)) as [pol lines].
  rewrite final_modify, final_bind, emit_all_final, trace_modify, trace_bind, emit_all_trace. split; [done|].
  rewrite displayed_app, displayed_policy. destruct (last_reported s) as [tx0 rx0]. cbn.
  case_bool_decide as E; [injection E as <- <-; by rewrite !Z.eqb_refl|].
  destruct (Z.eqb_spec tx tx0) as [->|]; [|done]. destruct (Z.eqb_spec rx rx0) as [->|]; done.
Qed.

(** The display is never stale: whatever counters the heartbeats see,
    the last INFO traffic line always carries the counters of the last
    heartbeat, although an unchanged pair is not repeated. *)
Theorem traffic_display_current (rs : list (Z * Z * CleanPathTracker.sample_t)) (s : proxy) :
  default (last_reported s) (displayed (trace (report_all rs) s)) =
  default (last_reported s) (last (fst <$> rs)) /\
  last_reported (final (report_all rs) s) = default (last_reported s) (last (fst <$> rs)).
Proof.
  unfold report_all. revert s. induction rs as [|[[tx rx] x] rs IH]; intros s; [done|].
  cbn [efor]. rewrite fmap_cons, last_cons, trace_bind, final_bind, displayed_app. cbn [fst].
  destruct (report_traffic_run tx rx x s) as [Hl ->]. destruct (IH (final (report_traffic tx rx x) s)) as [H1 ->].
  rewrite Hl in H1 |- *. revert H1.
  generalize (displayed (trace (efor (fun '(tx, rx, x) => report_traffic tx rx x) rs) (final (report_traffic tx rx x) s))).
  generalize (last (fst <$> rs)). intros [q|] [p|]; simpl; intros ?; subst; try done;
    case_bool_decide as E; simpl; by rewrite <- ?E.
Qed.

(** C27: a stop does not survive a name resolution whose success is already
    queued: [stop()] cancels the resolver, but a completion that is on its way
    finds no flag that says so, and starts the client anyway, listening, with
    a key that has been wiped. *)
Theorem queued_resolve_revives (shost : list Z) (sport : Z) (psk lhost : list Z) (lport : Z) (fec : FecConfig)
    (a : AdaptiveSettings) (s : proxy) (results : list (ip_address * Z)) (ans : listen_answers) :
  proceeds (new_proxy shost sport psk lhost lport fec a) s -> resolves s = 1%nat -> starts ec_none results ans s ->
  let stopped := final stop s in
  let revived := final (on_resolved ec_none results ans) (set_resolves 0 0 stopped) in
  p_running stopped = false /\ resolves_aborted stopped = 1%nat /\
  p_running revived = true /\ accepts revived = 1%nat /\ key revived = [].
Proof.
  intros Hp Hn Hs. apply proceeds_ok in Hp as [_ Hr Hi].
  destruct (p_running s) eqn:Er; [destruct (Hr eq_refl) as [_ _ (_ & _ & Hz & _) _ _ _ _ _]; lia|].
  destruct (Hi eq_refl) as [_ _ H6]. destruct H6 as (_ & Ha & _); [lia|]. cbv zeta. rewrite stop_state. cbn.
  split_and!; [done | lia | ..];
  match goal with |- context [final (on_resolved _ _ _) ?x] =>
    destruct (on_resolved_state ec_none results ans x eq_refl) as [[? _]|[(_ & Hns & _)|(_ & ep & _ & ->)]] end;
  done.
Qed.
End Loops.

(** ** A concrete run *)

Module ProxyExample.
Import SessionProofs.SessionExample ClientSessionProofs.ClientExample.
#[local] Existing Instance TextIp.text_ip.
#[local] Existing Instance Crypto.ToyAead.toy.
#[local] Existing Instance Loopback.loopback.
#[local] Existing Instance Loopback.plain_codec.

Definition fresh_proxy : proxy :=
  new_proxy (bytes_of_string "proxy.example") 8388 Crypto.ToyAead.psk (bytes_of_string "127.0.0.1") 1080
    fec_off example_settings.
Definition kernel_ok : listen_answers := mkListen ec_none ec_none ec_none ec_none (Some 1080).
Definition answers : list (ip_address * Z) :=
  [(V6 (replicate 15 0 ++ [1]), 8388); (V4 [203; 0; 113; 5], 8388); (V4 [203; 0; 113; 6], 8388)].

Definition resolving : proxy := final start fresh_proxy.
Definition listening : proxy := final (on_resolved ec_none answers kernel_ok) (set_resolves 0 0 resolving).

(** One connection is let in, its session at address 4096. *)
Definition serving : proxy :=
  final (on_accept ec_none 0 (env_at 101) Crypto.no_fault (Some (replicate 16 9)) SocketReady 4096)
    (set_acceptor (acceptor listening) 0 0 listening).

Lemma resolving_proceeds : proceeds fresh_proxy resolving.
Proof. apply proceeds_start. Qed.
Lemma listening_proceeds : proceeds fresh_proxy listening.
Proof. eapply proceeds_step; [apply resolving_proceeds|]. by apply (p_resolved ec_none answers kernel_ok resolving 0). Qed.
Lemma serving_proceeds : proceeds fresh_proxy serving.
Proof.
  eapply proceeds_step; [apply listening_proceeds|]. apply (p_accept ec_none 0 _ _ _ _ 4096 listening 0); try done.
Qed.

Lemma client_loops_alive_witness :
  (accepts serving + Timer.waiting (accept_retry_timer serving) = 1)%nat /\ active_sessions serving = 1.
Proof.
  destruct (client_loops_alive _ _ _ _ _ _ _ serving serving_proceeds) as ((H1 & _) & H2 & _).
  split; [apply H2; by vm_compute|]. rewrite H1. by vm_compute.
Defined.

Lemma startup_one_outcome_witness :
  server_endpoint (final (on_resolved ec_none answers kernel_ok) (set_resolves 0 (resolves_aborted resolving) resolving))
  = Some (V4 [203; 0; 113; 5], 8388).
Proof.
  destruct (startup_one_outcome _ _ _ _ _ _ _ resolving ec_none answers kernel_ok resolving_proceeds)
    as [(_ & _ & _ & ep & He & _)|(_ & Hr & _)]; done.
Defined.

Lemma tick_and_stop_reach_every_session_witness :
  0 ∈ ticked_objects (trace (do_update_tick ec_none []) serving) /\ 0 ∈ closed_objects (trace stop serving).
Proof.
  destruct (tick_and_stop_reach_every_session _ _ _ _ _ _ _ serving [] serving_proceeds)
    as ((_ & H1) & _ & _ & H2 & _); [by vm_compute|].
  assert (Ho : is_Some (objects serving !! 0)) by (vm_compute; eauto).
  split; [apply H1; split; [by apply not_elem_of_nil | done] | by apply H2].
Defined.

Lemma queued_resolve_revives_witness :
  p_running (final (on_resolved ec_none answers kernel_ok) (set_resolves 0 0 (final stop resolving))) = true.
Proof.
  apply (queued_resolve_revives _ _ _ _ _ _ _ resolving answers kernel_ok resolving_proceeds); [done|].
  by split_and!; eauto.
Defined.
End ProxyExample.
