(* ===== verification/Cli.v ===== *)
(** * Cli: the command lines of the two programs

    Models cli_helpers.hpp and the option tables, [parse_cli] and [main] of
    main_client.cpp and main_server.cpp, up to the objects they construct and
    the exit code. The CLI11 library is the class [Cli11]; what the programs
    rely on of it are the laws [Cli11Laws], and [TinyCli] is an implementation
    that satisfies them. *)

From Stdlib Require Import ZArith Lia.
From stdpp Require Import base list gmap strings.
From S2P Require Import Prelude Config Asio Allowlist CleanPath Runtime Effects Kcp.
From S2P Require Import Router Tunnel Policies SocketBuffer ServerLife ClientSession Client ClientLife.
From S2P Require Crypto.

(** ** The library *)

(** A validator returns the complaint, empty when it accepts. *)
Definition validator : Type := list Z -> list Z.

(** An option of an [App]: its long name, the environment variable it falls
    back to, whether it is required or repeatable, the range of the integer it
    is converted to ([None] for text), and its checks in order. *)
Record option_spec := mkOpt {
  o_name : list Z;
  o_env : option (list Z);
  o_required : bool;
  o_repeatable : bool;
  o_int : option (Z * Z);
  o_checks : list validator }.

Inductive parse_outcome : Type :=
| Parsed (values : list Z -> list (list Z))
| ParseError (exit_code : Z).

(** [lexical_cast] to an integer type with the given range, and [App::parse]. *)
Class Cli11 := {
  lexical_int : Z * Z -> list Z -> option Z;
  app_parse : list option_spec -> list (list Z) -> (list Z -> option (list Z)) -> parse_outcome }.

(** What a successful parse promises of an option. *)
Definition option_ok `{Cli11} (values : list Z -> list (list Z)) (o : option_spec) : Prop :=
  let vs := values (o_name o) in
  (o_required o = true -> vs <> []) /\
  (o_repeatable o = false -> (length vs <= 1)%nat) /\
  Forall (fun v => Forall (fun check => check v = []) (o_checks o) /\
                   match o_int o with Some r => exists n, lexical_int r v = Some n | None => True end) vs.

Class Cli11Laws {C : Cli11} : Prop := {
  lexical_in_range r v n : lexical_int r v = Some n -> r.1 <= n <= r.2;
  lexical_agrees r1 r2 v n1 n2 : lexical_int r1 v = Some n1 -> lexical_int r2 v = Some n2 -> n1 = n2;
  parse_sound specs argv env values :
    app_parse specs argv env = Parsed values -> Forall (option_ok values) specs }.
Arguments Cli11Laws : clear implicits.

(** ** Validators of cli_helpers.hpp *)

(** [positive_decimal]. *)
Definition positive_decimal : validator := fun v =>
  if bool_decide (v = []) || negb (forallb is_digit v)
  then bytes_of_string "must be a non-negative decimal number" else [].

(** [key_validator]. *)
Definition key_validator : validator := fun v =>
  if bool_decide (v = []) then bytes_of_string "must not be empty"
  else if (length v <? 16)%nat then bytes_of_string "must be at least 16 characters"
  else [].

Definition to_lower (l : list Z) : list Z := ascii_lower <$> l.

Definition is_level_name (lower : list Z) : bool :=
  bool_decide (lower = bytes_of_string "debug") || bool_decide (lower = bytes_of_string "info") ||
  bool_decide (lower = bytes_of_string "warning") || bool_decide (lower = bytes_of_string "error").

(** [log_level_validator]. *)
Definition log_level_validator : validator := fun v =>
  if is_level_name (to_lower v) then [] else bytes_of_string "must be one of DEBUG, INFO, WARNING, ERROR".

(** [parse_log_level]: the level in force after it; an unknown name leaves
    it and warns. *)
Definition parse_log_level (text : list Z) (current : LogLevel) : LogLevel * bool :=
  let lower := to_lower text in
  if bool_decide (lower = bytes_of_string "debug") then (Debug, false)
  else if bool_decide (lower = bytes_of_string "info") then (Info, false)
  else if bool_decide (lower = bytes_of_string "warning") then (Warning, false)
  else if bool_decide (lower = bytes_of_string "error") then (Error, false)
  else (current, true).

(** [explain_legacy_fec(argc, argv)]: a single-dash [-fec] after [argv[0]]. *)
Definition is_legacy_fec (arg : list Z) : bool :=
  bool_decide (arg = bytes_of_string "-fec") || bool_decide (take 5 arg = bytes_of_string "-fec=").
Definition explain_legacy_fec (argv : list (list Z)) : bool := existsb is_legacy_fec (drop 1 argv).

(** The check of [--fec], and of [--allow-target]. *)
Definition validate_fec : validator := fun v =>
  match parse_fec_config v with
  | None => bytes_of_string "must be DATA:PARITY (e.g. 10:3) with 1 <= PARITY <= DATA <= 255, or 0:0 to disable"
  | Some _ => []
  end.
Definition validate_target : validator := fun v =>
  match parse_allow_target_entry v with
  | None => bytes_of_string "must be HOST[:PORT] or [IPv6][:PORT]"
  | Some _ => []
  end.

(** What [main] has set up when it starts its object: the process-wide tuning
    and log level, and the object. *)
Record program (O : Type) := mkProgram { g_tuning : KcpTuning; g_level : LogLevel; g_object : O }.
Arguments mkProgram {O} _ _ _.
Arguments g_tuning {O} _.
Arguments g_level {O} _.
Arguments g_object {O} _.

(** ** The option tables *)

Definition INT_RANGE : Z * Z := (- 2 ^ 31, 2 ^ 31 - 1).
Definition U16_RANGE : Z * Z := (0, 65535).
Definition UINT_RANGE : Z * Z := (0, 2 ^ 32 - 1).

Section Programs.
Context {C : Cli11}.

(** [CLI::Range(lo, hi)] on integers. *)
Definition range_check (lo hi : Z) : validator := fun v =>
  match lexical_int INT_RANGE v with
  | Some n => if (lo <=? n) && (n <=? hi) then [] else bytes_of_string "not in range"
  | None => bytes_of_string "not in range"
  end.

Definition text_opt (name : string) (required : bool) (checks : list validator) : option_spec :=
  mkOpt (bytes_of_string name) None required false None checks.
Definition int_opt (name : string) (r : Z * Z) (checks : list validator) : option_spec :=
  mkOpt (bytes_of_string name) None false false (Some r) checks.
Definition key_opt : option_spec :=
  mkOpt (bytes_of_string "--key") (Some (bytes_of_string "KCP_PROXY_KEY")) true false None [key_validator].

Definition port_checks : list validator := [positive_decimal; range_check 1 65535].

(** The options both programs declare alike. *)
Definition shared_specs : list option_spec :=
  [key_opt;
   text_opt "--fec" false [validate_fec];
   text_opt "--log-level" false [log_level_validator];
   int_opt "--sndwnd" INT_RANGE [range_check KCP_SNDWND_MIN KCP_SNDWND_MAX];
   int_opt "--rcvwnd" INT_RANGE [range_check KCP_RCVWND_MIN KCP_RCVWND_MAX];
   int_opt "--mtu" INT_RANGE [range_check KCP_MTU_MIN KCP_MTU_MAX];
   int_opt "--fec-adaptive-probe" INT_RANGE [range_check 0 3600];
   int_opt "--fec-adaptive-hold" INT_RANGE [range_check 5 3600];
   int_opt "--rto-adaptive-clean" INT_RANGE [range_check 0 3600]].

Definition client_specs : list option_spec :=
  shared_specs ++
  [text_opt "--server" true [];
   int_opt "--server-port" U16_RANGE port_checks;
   text_opt "--listen-host" false [];
   int_opt "--listen-port" U16_RANGE port_checks;
   int_opt "--half-close-grace" INT_RANGE [positive_decimal]].

Definition server_specs : list option_spec :=
  shared_specs ++
  [int_opt "--port" U16_RANGE port_checks;
   text_opt "--host" false [];
   int_opt "--threads" UINT_RANGE [positive_decimal; range_check 1 64];
   mkOpt (bytes_of_string "--allow-target") None false true None [validate_target]].

(** The variable an option is bound to, its initial value when it was not
    given. *)
Definition text_of (values : list Z -> list (list Z)) (name : string) (dflt : list Z) : list Z :=
  match values (bytes_of_string name) with v :: _ => v | [] => dflt end.
Definition int_of (values : list Z -> list (list Z)) (name : string) (r : Z * Z) (dflt : Z) : Z :=
  match values (bytes_of_string name) with v :: _ => default dflt (lexical_int r v) | [] => dflt end.

(** The members [ClientCliOptions] and [ServerCliOptions] have in common. *)
Record CommonOptions := mkCommon {
  o_key : list Z;
  o_fec_text : list Z;
  o_log_level : list Z;
  o_sndwnd : Z;
  o_rcvwnd : Z;
  o_mtu : Z;
  o_probe_sec : Z;
  o_hold_sec : Z;
  o_relax_sec : Z }.

Record ClientCliOptions := mkClientOpts {
  c_common : CommonOptions;
  c_server_host : list Z;
  c_server_port : Z;
  c_listen_host : list Z;
  c_listen_port : Z;
  c_half_close_grace_sec : Z }.

Record ServerCliOptions := mkServerOpts {
  s_common : CommonOptions;
  s_port : Z;
  s_host : list Z;
  s_threads : Z;
  s_allowed_targets : list (list Z) }.

Definition common_options (v : list Z -> list (list Z)) : CommonOptions :=
  mkCommon (text_of v "--key" []) (text_of v "--fec" []) (text_of v "--log-level" (bytes_of_string "INFO"))
    (int_of v "--sndwnd" INT_RANGE KCP_SNDWND) (int_of v "--rcvwnd" INT_RANGE KCP_RCVWND)
    (int_of v "--mtu" INT_RANGE KCP_MTU) (int_of v "--fec-adaptive-probe" INT_RANGE FEC_PARITY_PROBE_SEC)
    (int_of v "--fec-adaptive-hold" INT_RANGE FEC_PARITY_HOLD_SEC)
    (int_of v "--rto-adaptive-clean" INT_RANGE KCP_RTO_RELAX_SEC).

(** [parse_cli]: options, or the exit code. *)
Definition parse_cli {O} (specs : list option_spec) (build : (list Z -> list (list Z)) -> O)
    (argv : list (list Z)) (env : list Z -> option (list Z)) : O + Z :=
  match app_parse specs argv env with
  | Parsed v => inl (build v)
  | ParseError code => if explain_legacy_fec argv then inr 1 else inr code
  end.

Definition client_parse_cli : list (list Z) -> (list Z -> option (list Z)) -> ClientCliOptions + Z :=
  parse_cli client_specs (fun v =>
    mkClientOpts (common_options v) (text_of v "--server" []) (int_of v "--server-port" U16_RANGE 8388)
      (text_of v "--listen-host" (bytes_of_string "127.0.0.1")) (int_of v "--listen-port" U16_RANGE 1080)
      (int_of v "--half-close-grace" INT_RANGE CLIENT_HALF_CLOSE_GRACE_SEC)).

Definition server_parse_cli : list (list Z) -> (list Z -> option (list Z)) -> ServerCliOptions + Z :=
  parse_cli server_specs (fun v =>
    mkServerOpts (common_options v) (int_of v "--port" U16_RANGE 8388)
      (text_of v "--host" (bytes_of_string "0.0.0.0")) (int_of v "--threads" UINT_RANGE 1)
      (v (bytes_of_string "--allow-target"))).

(** ** [main] *)

(** The adaptive settings both programs derive from their options. *)
Definition adaptive_settings (o : CommonOptions) : AdaptiveSettings :=
  mkSettings (0 <? o_probe_sec o)
    (CleanPathTracker.mkTuning (o_probe_sec o) (o_hold_sec o) ADAPTIVE_MIN_SEG_RATE) (o_relax_sec o).

(** The second parse of the FEC text; an option that was not given is off. *)
Definition fec_of_text (text : list Z) : option FecConfig :=
  if bool_decide (text = []) then Some fec_off else parse_fec_config text.

(** The client's [main] up to [client->start()]; [inr] is an exit code. *)
Definition client_main (argv : list (list Z)) (env : list Z -> option (list Z)) (current : LogLevel)
  : program proxy + Z :=
  match client_parse_cli argv env with
  | inr code => inr code
  | inl o =>
      let c := c_common o in
      let tuning := set_kcp_tuning (o_sndwnd c) (o_rcvwnd c) (o_mtu c) in
      match fec_of_text (o_fec_text c) with
      | None => inr 1
      | Some fec =>
          let level := (parse_log_level (o_log_level c) current).1 in
          inl (mkProgram tuning level
            (new_proxy (c_server_host o) (c_server_port o) (o_key c) (c_listen_host o) (c_listen_port o) fec
               (adaptive_settings c)))
      end
  end.

(** The server's, with the allowlist it installs. *)
Definition server_main (argv : list (list Z)) (env : list Z -> option (list Z)) (current : LogLevel)
  : program (life * list (list Z)) + Z :=
  match server_parse_cli argv env with
  | inr code => inr code
  | inl o =>
      let c := s_common o in
      match fec_of_text (o_fec_text c) with
      | None => inr 1
      | Some fec =>
          let level := (parse_log_level (o_log_level c) current).1 in
          let tuning := set_kcp_tuning (o_sndwnd c) (o_rcvwnd c) (o_mtu c) in
          inl (mkProgram tuning level
            (new_server (s_host o) (s_port o) (o_key c) fec (adaptive_settings c),
             set_allowed_targets (s_allowed_targets o)))
      end
  end.

(** The lines [main] logs once the object has started. *)
Definition parity_banner (path : string) (a : AdaptiveSettings) : list Z :=
  bytes_of_string "FEC adaptive parity enabled: probe=" ++
  int_bytes (CleanPathTracker.clean_sec (fec_parity_tuning a)) ++ bytes_of_string "s hold=" ++
  int_bytes (CleanPathTracker.hold_sec (fec_parity_tuning a)) ++ bytes_of_string "s (drops parity while the " ++
  bytes_of_string path ++ bytes_of_string " path is clean)".
Definition rto_banner (path : string) (a : AdaptiveSettings) : list Z :=
  bytes_of_string "RTO adaptive floor: " ++
  (if 0 <? rto_relax_sec a
   then bytes_of_string "relaxes to 100ms after " ++ int_bytes (rto_relax_sec a) ++ bytes_of_string "s clean"
   else bytes_of_string "disabled, always 30ms") ++
  bytes_of_string " (30ms while the " ++ bytes_of_string path ++ bytes_of_string " path loses packets)".

Definition client_banner (host : list Z) (port : Z) (fec : FecConfig) (a : AdaptiveSettings) : list (list Z) :=
  [bytes_of_string "KCP proxy client started, SOCKS5 on " ++ host ++ colon :: dec_bytes port ++
   bytes_of_string " fec=" ++ fec_to_string fec] ++
  (if fec_parity a && fec_enabled fec then [parity_banner "upload" a] else []) ++ [rto_banner "upload" a].
Definition server_banner (host : list Z) (bound_port : Z) (fec : FecConfig) (a : AdaptiveSettings)
  : list (list Z) :=
  [bytes_of_string "KCP proxy server started on " ++ host ++ colon :: dec_bytes bound_port ++
   bytes_of_string " fec=" ++ fec_to_string fec] ++
  (if fec_parity a then [parity_banner "download" a] else []) ++ [rto_banner "download" a].

(** The client's signal handler: stop, then end the event loop, so nothing
    that is still queued runs. *)
Definition client_on_signal {A : Crypto.Aead} {K : Kcp} {F : FecCodec} : M proxy pevent unit :=
  ClientLife.stop ;;; emodify (fun s => set_flow (p_running s) (start_failed s) true s).

(** How a program ends. *)
Inductive program_end : Type := Exit (code : Z) | Terminate.

(** The client's: [threw] when an exception reached [main], [io_failed] when
    one was caught in the I/O thread. *)
Definition client_exit (threw io_failed : bool) (p : proxy) : program_end :=
  if threw then Exit 1 else if io_failed then Exit 1 else if negb (startup_ok p) then Exit 1 else Exit 0.

(** The server's: the error of [start], or the first exception of the worker
    threads, [true] for a [std::exception]. It is rethrown where only a
    [std::exception] is caught. *)
Definition server_exit (start_err : option start_error) (handler_errors : list bool) : program_end :=
  match start_err with
  | Some _ => Exit 1
  | None => match handler_errors with [] => Exit 0 | true :: _ => Exit 1 | false :: _ => Terminate end
  end.
End Programs.

(** ** The banner is true *)

Lemma fold_banner_lines (head p r : list Z) (b : bool) :
  head <> p -> p <> r -> (p ∈ [head] ++ (if b then [p] else []) ++ [r]) <-> b = true.
Proof. intros H1 H2. destruct b; simpl; rewrite !elem_of_cons, elem_of_nil; naive_solver. Qed.

(** A program announces adaptive parity exactly when it installs the policy. *)
Lemma banner_announces_parity host port fec a :
  (parity_banner "upload" a ∈ client_banner host port fec a <-> parity_ctl (client_policies a fec) <> None) /\
  (parity_banner "download" a ∈ server_banner host port fec a <-> parity_ctl (server_policies a) <> None).
Proof.
  split; unfold client_banner, server_banner, client_policies, server_policies; rewrite fold_banner_lines by done;
    simpl; case_match; naive_solver.
Qed.

(** ** What an accepted command line guarantees *)

Section Sound.
Context {C : Cli11} {L : Cli11Laws C}.

Lemma text_of_checked values name d o :
  option_ok values o -> o_name o = bytes_of_string name ->
  (values (bytes_of_string name) = [] /\ text_of values name d = d) \/
  Forall (fun check => check (text_of values name d) = []) (o_checks o).
Proof.
  intros (_ & _ & Hv) E. unfold text_of. rewrite E in Hv.
  destruct (values (bytes_of_string name)) as [|v vs]; [by left|]. right.
  apply Forall_inv in Hv. apply Hv.
Qed.

Lemma range_check_ok lo hi v : range_check lo hi v = [] -> exists n, lexical_int INT_RANGE v = Some n /\ lo <= n <= hi.
Proof.
  unfold range_check. destruct (lexical_int INT_RANGE v) as [n|]; [|done].
  destruct ((lo <=? n) && (n <=? hi)) eqn:E; [|done]. zb_props. eauto.
Qed.

(** An integer option whose checks include a range ends in that range. *)
Lemma int_of_range values name r d lo hi o :
  option_ok values o -> o_name o = bytes_of_string name -> o_int o = Some r -> range_check lo hi ∈ o_checks o ->
  lo <= d <= hi -> lo <= int_of values name r d <= hi.
Proof.
  intros (_ & _ & Hv) E Hr Hin Hd. unfold int_of. rewrite E in Hv.
  destruct (values (bytes_of_string name)) as [|v vs]; [done|].
  apply Forall_inv in Hv as [Hc Hi]. rewrite Hr in Hi. destruct Hi as [n Hn]. rewrite Hn. simpl.
  rewrite list.Forall_forall in Hc. destruct (range_check_ok _ _ _ (Hc _ Hin)) as (n' & Hn' & Hb).
  by rewrite (lexical_agrees _ _ _ _ _ Hn Hn').
Qed.

(** The shared options of any table that contains them. *)
Record common_ok (o : CommonOptions) : Prop := {
  co_key : (16 <= length (o_key o))%nat;
  co_fec : exists f, fec_of_text (o_fec_text o) = Some f;
  co_level : exists l, forall current, parse_log_level (o_log_level o) current = (l, false);
  co_tuning : set_kcp_tuning (o_sndwnd o) (o_rcvwnd o) (o_mtu o) = Build_KcpTuning (o_sndwnd o) (o_rcvwnd o) (o_mtu o);
  co_probe : 0 <= o_probe_sec o <= 3600;
  co_hold : 5 <= o_hold_sec o <= 3600;
  co_relax : 0 <= o_relax_sec o <= 3600 }.

Lemma key_accepted v : key_validator v = [] -> (16 <= length v)%nat.
Proof. unfold key_validator. case_bool_decide; [done|]. destruct (Nat.ltb_spec (length v) 16); [done | lia]. Qed.

Lemma level_accepted v : log_level_validator v = [] -> exists l, forall current, parse_log_level v current = (l, false).
Proof.
  unfold log_level_validator, is_level_name, parse_log_level.
  repeat case_bool_decide; simpl; try done; eauto.
Qed.

Lemma tuning_exact a b c :
  KCP_SNDWND_MIN <= a <= KCP_SNDWND_MAX -> KCP_RCVWND_MIN <= b <= KCP_RCVWND_MAX -> KCP_MTU_MIN <= c <= KCP_MTU_MAX ->
  set_kcp_tuning a b c = Build_KcpTuning a b c.
Proof.
  intros Ha Hb Hc. unfold set_kcp_tuning, clamp_kcp_value.
  f_equal; repeat case_bool; zb_props; lia.
Qed.

Lemma common_options_ok values : Forall (option_ok values) shared_specs -> common_ok (common_options values).
Proof.
  intros H. unfold shared_specs in H. rewrite !Forall_cons in H.
  destruct H as (Hk & Hf & Hl & H1 & H2 & H3 & H4 & H5 & H6 & _).
  assert (Hrange : forall name d lo hi (o : option_spec),
    option_ok values o -> o = int_opt name INT_RANGE [range_check lo hi] -> lo <= d <= hi ->
    lo <= int_of values name INT_RANGE d <= hi).
  { intros name d lo hi o Ho -> Hd. eapply int_of_range; [done | done | done | by left | done]. }
  split; cbn [common_options o_key o_fec_text o_log_level o_sndwnd o_rcvwnd o_mtu o_probe_sec o_hold_sec o_relax_sec].
  - destruct (text_of_checked values "--key" [] _ Hk eq_refl) as [[E _]|Hc].
    + destruct Hk as (Hreq & _). by specialize (Hreq eq_refl).
    + apply key_accepted. by apply Forall_inv in Hc.
  - unfold fec_of_text. case_bool_decide as E; [eauto|].
    destruct (text_of_checked values "--fec" [] _ Hf eq_refl) as [[_ E']|Hc]; [congruence|].
    apply Forall_inv in Hc. unfold validate_fec in Hc. destruct (parse_fec_config _); [eauto | done].
  - destruct (text_of_checked values "--log-level" (bytes_of_string "INFO") _ Hl eq_refl) as [[_ ->]|Hc].
    + by exists Info.
    + apply level_accepted. by apply Forall_inv in Hc.
  - apply tuning_exact; [by refine (Hrange _ _ _ _ _ H1 eq_refl _) |
      by refine (Hrange _ _ _ _ _ H2 eq_refl _) | by refine (Hrange _ _ _ _ _ H3 eq_refl _)].
  - by refine (Hrange _ _ _ _ _ H4 eq_refl _).
  - by refine (Hrange _ _ _ _ _ H5 eq_refl _).
  - by refine (Hrange _ _ _ _ _ H6 eq_refl _).
Qed.

Lemma parse_cli_ok {O} specs (build : (list Z -> list (list Z)) -> O) argv env o :
  parse_cli specs build argv env = inl o -> exists values, Forall (option_ok values) specs /\ o = build values.
Proof.
  unfold parse_cli. destruct (app_parse specs argv env) as [values|code] eqn:E; [|by destruct (explain_legacy_fec argv)].
  intros [= <-]. exists values. split; [by eapply parse_sound | done].
Qed.

Lemma port_range values name d o :
  option_ok values o -> o = int_opt name U16_RANGE port_checks -> 1 <= d <= 65535 ->
  1 <= int_of values name U16_RANGE d <= 65535.
Proof. intros Ho -> Hd. eapply int_of_range; [done | done | done | by right; left | done]. Qed.

Lemma client_accepted argv env o :
  client_parse_cli argv env = inl o ->
  common_ok (c_common o) /\ 1 <= c_server_port o <= 65535 /\ 1 <= c_listen_port o <= 65535.
Proof.
  intros (values & Hv & ->)%parse_cli_ok. unfold client_specs in Hv. apply Forall_app in Hv as [Hs Hc].
  rewrite !Forall_cons in Hc. destruct Hc as (_ & Hp1 & _ & Hp2 & _).
  split; [by apply common_options_ok|].
  split; [by refine (port_range _ _ _ _ Hp1 eq_refl _) | by refine (port_range _ _ _ _ Hp2 eq_refl _)].
Qed.

Lemma server_accepted argv env o :
  server_parse_cli argv env = inl o ->
  common_ok (s_common o) /\ 1 <= s_port o <= 65535 /\ 1 <= s_threads o <= 64 /\
  Forall (fun t => exists e, parse_allow_target_entry t = Some e) (s_allowed_targets o).
Proof.
  intros (values & Hv & ->)%parse_cli_ok. unfold server_specs in Hv. apply Forall_app in Hv as [Hs Hc].
  rewrite !Forall_cons in Hc. destruct Hc as (Hp & _ & Ht & Ha & _).
  split; [by apply common_options_ok|]. split; [by refine (port_range _ _ _ _ Hp eq_refl _)|].
  split; [cbn [s_threads]; eapply int_of_range; [exact Ht | done | done | by right; left | done]|].
  destruct Ha as (_ & _ & Ha). cbn [s_allowed_targets o_name] in *. eapply Forall_impl; [exact Ha|].
  intros t [Hchk _]. apply Forall_inv in Hchk. unfold validate_target in Hchk.
  destruct (parse_allow_target_entry t); [eauto | done].
Qed.

(** C25: a command line a program accepts is safe to run. The key has at
    least 16 characters; the ports are 1 to 65535; the windows and the MTU are
    in force exactly as typed; the level is one of the four names; the FEC
    text parses, so the second parse of [main] never refuses; the adaptive
    times are in range; on the server there are 1 to 64 threads and every
    allowlist entry is well formed; and the object is built with that key
    under a legal tuning. *)
Theorem accepted_options_sound (argv : list (list Z)) (env : list Z -> option (list Z)) (current : LogLevel) :
  (forall o, client_parse_cli argv env = inl o ->
     common_ok (c_common o) /\ 1 <= c_server_port o <= 65535 /\ 1 <= c_listen_port o <= 65535 /\
     exists p, client_main argv env current = inl p /\ key (g_object p) = o_key (c_common o) /\
       tuning_legal (g_tuning p)) /\
  (forall o, server_parse_cli argv env = inl o ->
     common_ok (s_common o) /\ 1 <= s_port o <= 65535 /\ 1 <= s_threads o <= 64 /\
     Forall (fun t => exists e, parse_allow_target_entry t = Some e) (s_allowed_targets o) /\
     exists p, server_main argv env current = inl p /\
       srv_key (router (g_object p).1) = o_key (s_common o) /\ tuning_legal (g_tuning p)).
Proof.
  split; intros o Ho.
  - destruct (client_accepted argv env o Ho) as (Hc & Hp1 & Hp2). split_and!; try done; try lia.
    unfold client_main. rewrite Ho. destruct (co_fec _ Hc) as [f ->].
    eexists. split_and!; [done | done | apply set_kcp_tuning_legal].
  - destruct (server_accepted argv env o Ho) as (Hc & Hp & Ht & Ha). split_and!; try done; try lia.
    unfold server_main. rewrite Ho. destruct (co_fec _ Hc) as [f ->].
    eexists. split_and!; [done | done | apply set_kcp_tuning_legal].
Qed.
End Sound.

(** ** An implementation of the interface

    Long options only, each followed by its value. *)

Module TinyCli.

Definition tiny_lexical (r : Z * Z) (v : list Z) : option Z :=
  if negb (bool_decide (v = [])) && forallb is_digit v && (r.1 <=? dec_value v) && (dec_value v <=? r.2)
  then Some (dec_value v) else None.

Fixpoint collect (name : list Z) (args : list (list Z)) : list (list Z) :=
  match args with
  | n :: v :: rest => if bool_decide (n = name) then v :: collect name rest else collect name rest
  | _ => []
  end.

Fixpoint well_formed (names : list (list Z)) (args : list (list Z)) : bool :=
  match args with
  | [] => true
  | n :: _ :: rest => bool_decide (n ∈ names) && well_formed names rest
  | _ => false
  end.

Definition tiny_values (specs : list option_spec) (args : list (list Z)) (env : list Z -> option (list Z))
    (name : list Z) : list (list Z) :=
  match collect name args with
  | [] =>
      match find (fun o => bool_decide (o_name o = name)) specs with
      | Some o => match o_env o with Some var => option_list (env var) | None => [] end
      | None => []
      end
  | vs => vs
  end.

Definition value_ok (o : option_spec) (v : list Z) : bool :=
  forallb (fun check => bool_decide (check v = [])) (o_checks o) &&
  match o_int o with Some r => bool_decide (is_Some (tiny_lexical r v)) | None => true end.

Definition spec_ok (values : list Z -> list (list Z)) (o : option_spec) : bool :=
  let vs := values (o_name o) in
  (negb (o_required o) || negb (bool_decide (vs = []))) &&
  (o_repeatable o || (length vs <=? 1)%nat) && forallb (value_ok o) vs.

#[local] Instance tiny : Cli11 := {
  lexical_int := tiny_lexical;
  app_parse specs argv env :=
    let values := tiny_values specs (drop 1 argv) env in
    if well_formed (o_name <$> specs) (drop 1 argv) && forallb (spec_ok values) specs
    then Parsed values else ParseError 106 }.

Lemma tiny_lexical_some r v n : tiny_lexical r v = Some n -> n = dec_value v /\ r.1 <= n <= r.2.
Proof. unfold tiny_lexical. case_bool; [|done]. intros [= <-]. zb_props. done. Qed.

Lemma forallb_Forall {X} (f : X -> bool) l : forallb f l = true -> Forall (fun x => f x = true) l.
Proof. intros H. apply list.Forall_forall. intros x Hx%list_elem_of_In. by apply (proj1 (forallb_forall f l) H). Qed.

Lemma spec_ok_sound values o : spec_ok values o = true -> option_ok values o.
Proof.
  unfold spec_ok, option_ok. intros H. apply andb_true_iff in H as [[H1 H2]%andb_true_iff H3]. split_and!.
  - intros Hr. rewrite Hr in H1. simpl in H1. zb_props. done.
  - intros Hr. rewrite Hr in H2. simpl in H2. zb_props. done.
  - eapply Forall_impl; [by apply forallb_Forall|]. intros v Hv.
    unfold value_ok in Hv. apply andb_true_iff in Hv as [Hc Hi]. split.
    + eapply Forall_impl; [by apply forallb_Forall|]. intros check Hk. simpl in Hk. by zb_props.
    + destruct (o_int o) as [r|]; [|done]. zb_props. by destruct Hi as [n Hn]; exists n.
Qed.

#[local] Instance tiny_laws : Cli11Laws tiny.
Proof.
  split.
  - intros r v n H. by apply tiny_lexical_some in H as [_ H].
  - intros r1 r2 v n1 n2 H1 H2. apply tiny_lexical_some in H1 as [-> _], H2 as [-> _]. done.
  - intros specs argv env values. simpl. case_bool; [|done]. intros [= <-]. zb_props.
    eapply Forall_impl; [by apply forallb_Forall|]. intros o Ho. by apply spec_ok_sound.
Qed.

Definition example_argv : list (list Z) :=
  bytes_of_string <$> ["kcp-proxy-server"; "--port"; "9000"; "--fec"; "10:3"; "--log-level"; "WARNING";
                       "--allow-target"; "127.0.0.1:9000"; "--sndwnd"; "1024"].
Definition example_env (var : list Z) : option (list Z) :=
  if bool_decide (var = bytes_of_string "KCP_PROXY_KEY") then Some (bytes_of_string "correct horse battery") else None.

Lemma accepted_options_sound_witness :
  exists p, server_main example_argv example_env Info = inl p /\ g_level p = Warning /\ tuning_legal (g_tuning p).
Proof.
  destruct (accepted_options_sound example_argv example_env Info) as [_ H].
  destruct (server_parse_cli example_argv example_env) as [o|] eqn:E; [|vm_compute in E; discriminate E].
  destruct (H o eq_refl) as (_ & _ & _ & _ & p & Hp & _ & Hl). exists p. split; [exact Hp|]. split; [|exact Hl].
  vm_compute in Hp. by injection Hp as <-.
Defined.
End TinyCli.
